(* ===== verification/_CoqProject ===== *)
-Q . S2P
Prelude.v
GoText.v
LabRpc.v
KvSrv.v
KvModel.v
Lock.v
Persister.v
Raft.v
RaftLeader.v
RaftElection.v
RaftTimer.v
RaftSystem.v
RaftSafety.v
RaftApply.v
RaftTest.v
RaftChecks.v
Tester.v
Annot.v
KvLin.v
KvTest.v
MrCoord.v
MrWorker.v
MrSystem.v
MrApps.v
MrTiming.v
Gob.v
JsonText.v
ShardCfg.v
ShardText.v
Rsm.v
Servers.v
ShardKv.v
ShardCtl.v
TestSetup.v
Makers.v
KvSpawn.v
