(* ===== verification/Prelude.v ===== *)
(** * A verification library for the 6.5840 labs in Go

    The repository holds the labs of a distributed-systems course: a simulated network,
    a versioned key/value server with its clerk and a lock on top of it, Raft, MapReduce,
    the configurations of a sharded store, and the framework that tests them.  Paths below
    are under src/src/.

    ** The program and the files that model it

    - This file, Prelude: Go's runtime errors ([res], [panic]), slices indexed by [Z],
      machine integers ([wrap], [u64_add], [swrap]), runs of a step relation, shared
      lemmas and tactics.
    - GoText: what the sources use of Go's text libraries: UTF-8 decoding, FieldsFunc, the
      JSON round trip of a string, FNV-1a, base64.
    - Gob (labgob/labgob.go): the checks of types and values before encoding and decoding.
    - LabRpc (labrpc/labrpc.go): the network's tables, servers, services and method tables,
      and the path of a request ([Call], [processReq], the two dispatches).  [delivery] is
      what a caller can observe of a request: lost, executed with the reply lost, delivered.
    - KvSrv (kvsrv1/rpc/rpc.go, server.go, client.go): Module [KvServer] has the handlers,
      [Clerk] the retry loops; the classes [KVService] and [KVServiceLaws] are what a
      client relies on, and the server is an instance.
    - KvModel (models1/kv.go, kvtest1/porcupine.go): the sequential specification that
      histories are checked against; the server refines it.
    - KvLin (kvtest1/porcupine.go): the operation log, ts.Get and ts.Put of any number of
      clients cut at the clock readings, the RPC attempts and the append, and the check of
      the log; the checker itself is third-party code and a parameter.
    - Lock (kvsrv1/lock/lock.go): Acquire and Release of any number of clients, cut at their
      RPCs, over any [KVService].
    - Persister (tester1/persister.go): a peer's stable storage.
    - Raft (raft1/raft.go): [Record Raft] and one definition per method that runs under
      rf.mu: RequestVote, AppendEntries, InstallSnapshot, Start, Snapshot, persist and
      readPersist, Make, the two log searches.
    - RaftLeader (raft1/raft.go): the senders' messages and replies, the commit rule and the
      apply goroutine, cut where the code releases rf.mu ([prepare], [minMatch],
      [apply_step], [apply_run]).
    - RaftElection (raft1/raft.go): Module [Election] has GetVote, ElectionWorker and ticker
      cut the same way; Module [Cluster] puts all the peers, the election workers and the
      RequestVote calls in flight, with crashes and restarts, into one step relation.
    - RaftTimer (raft1/raft.go): ticker, HeartbeatMaintain, ElectionWorker and the GetVote
      goroutines of one peer with their timers, signal channels and the time, in milliseconds.
    - RaftApply (raft1/raft.go): the critical sections of one peer in any interleaving, with
      the apply worker's messages, the handlers of AppendEntries in the gap of their lock, and
      InstallSnapshot with any arguments; a step's label says whether it makes the peer lose entries.
    - RaftSystem, RaftSafety (raft1/raft.go): the elections with the senders' attempts, as one
      step relation of all the peers: messages and replies of AppendEntries under way, lost or
      given up, clients' commands, crashes, and, as the scope ([Record scope]) says, messages and
      replies handled after their sender stopped waiting ([late]), other steps at a peer whose handler is in
      the gap of its lock ([interrupted]), and snapshots ([snapshots]).  RaftSystem has the system, its
      histories and its invariant, RaftSafety the preservation by every step of the scope [prompt], which has
      none of the three, the safety theorems, and runs that show what happens in larger scopes.
    - RaftTest (raft1/server.go, raft1/test.go): the service that reads a peer's apply
      channel, and the tests' checks of logs, leaders, terms and agreement.
    - RaftChecks (raft1/raft.go, server.go, test.go): the peers of RaftSystem with their apply
      channels, the services that read them and the servers a test starts again, as one step
      relation, and the tests' checks of it.
    - Tester (tester1/group.go, srv.go, clnts.go, config.go): groups of servers on the network,
      partitions, starting and stopping servers, the clients' ends, a test's set-up, its time limit and its end.
    - Annot (tester1/annotation.go): the annotations of a test's history.
    - KvTest (kvtest1/kvtest.go): the clients of the store's tests and what is checked at the
      end, SpreadPuts; Module [Json] is the text of the values they store.
    - MrCoord (mr/coordinator.go, mr/rpc.go): the coordinator's handlers and monitors.
    - MrWorker (mr/worker.go, main/mrsequential.go): a task run as a sequence of steps on
      the shared directory, the grouping loop, and the sequential program.
    - MrSystem (mr/worker.go): the coordinator, workers that may die, be late or repeat a
      task, and the directory, as one step relation; and [Worker], the loop of a worker alone.
    - MrApps (mrapps/): the Map and Reduce functions of wc, indexer, nocrash, crash, early_exit.
    - MrTiming (mrapps/mtiming.go, rtiming.go, jobcount.go): the applications that count the
      workers that run at once, with the processes and the directory as one step relation.
    - ShardCfg (shardkv1/shardcfg/shardcfg.go): Rebalance, Join, Leave and the checks.
    - JsonText: the texts of Go's encoding/json, read and written; ShardText (shardcfg.go):
      a configuration's String and FromString.
    - Rsm (kvraft1/rsm/): what a replicated server implements (the class [StateMachine] and its
      laws), the counter the tests replicate, an instance, and the tests over any Submit.
    - ShardKv (shardkv1/test.go, shardctrler/shardctrler.go): groups of Tester join and leave a
      configuration of ShardCfg by a shard controller, given by the class [Controller] and its
      laws.
    - ShardCtl (shardkv1/test.go): controllers that compete for the configuration: the goroutines of
      concurCtrler and partitionCtrler over the class [CompetingLaws], and concurCtrler.
    - Servers (kvraft1/server.go, client.go, shardkv1/shardgrp/, shardkv1/client.go): the
      servers and clerks of the exercises as they are.
    - TestSetup (raft1/test.go, kvraft1/test.go, kvraft1/rsm/test.go, kvtest1/kvtest.go): how
      tests begin and end.
    - Makers (kvsrv1/test.go, kvraft1/test.go, shardkv1/test.go): the tests' makers of clerks,
      instances of the classes [IClerkMaker] and [ClerkMakerLaws], and the life of the clients.
    - KvSpawn (kvtest1/kvtest.go): SpawnClientsAndWait and its clients over any maker.

    ** How state and time are modelled

    A function of the code is a function of its state.  A method that holds a lock from
    beginning to end is one definition; a goroutine is cut where it releases the lock,
    waits or sends a request, and the pieces are the steps of a relation, so the theorems
    about a relation hold for every interleaving.  What the code does not decide is an
    argument: random numbers, random names, clock readings, the fate of a message, the
    order in which a map is ranged over where it matters.  A panic, a call of log.Fatal or
    testing's FailNow is [Panic]; a function's theorem says it returns [Ret], so that no
    panic is part of what is proved.

    ** The theorems

    - Raft: any two commands sent to the services at one index are the same, what is
      committed is in the log of every later leader, and logs match; these for an odd number
      of peers in the scope [prompt]: without snapshots, and with AppendEntries handled in one piece
      and, like its reply, only while its sender waits for it in its term.  With later deliveries, and
      with handlers interrupted in the gap of their lock, they fail, as two runs show.
      At most one leader per term in every reachable state of a cluster with crashes
      and any message losses and delays, one vote per term, what a crash keeps; the handlers answer
      and store exactly what their arguments call for; an accepted message leaves the
      follower's log equal to the leader's up to its end; a leader's commit index is
      covered by a quorum's match indices; the apply goroutine delivers the committed
      entries in order, under any interleaving each once, and no committed entry of a peer
      changes, until a snapshot older than the commit index is installed with the log dropped for it, which
      loses entries; the log searches terminate at the positions they are meant to find.
    - Raft's timers: a peer stands at most once in 300 ms and its timers cause at most one
      heartbeat to a peer in 100 ms; a follower that waits can stand within 500 ms; two runs
      after which a living peer never stands again (findings).
    - Raft under its tests: no reader of an apply channel reports an error, no count of applied
      entries fails, and a server can be started again at any time, under the conditions of the first
      group; checkOneLeader never finds two leaders of a term, in any scope.
    - The store: the clerk's answers are true of the executions on the server, its loops end
      exactly when a reply arrives, the server refines the sequential specification; every
      log of concurrent operations is linearizable and passes the check; the
      lock excludes, its owned flag is exact, and a client alone acquires it; the tests'
      checks never raise a false alarm, whatever is lost or interleaved; the call that runs the
      clients of a test returns their results and leaves the test's clients as they were.
    - The network: a call runs the handler at most once.
    - MapReduce: a finished job's output is the sequential program's; no file under its
      final name is ever partial; from every reachable state in which no task is out a worker
      alone finishes the job; the coordinator's invariant, answers and end; the grouping loop equals a
      reference; the word counts of the word-count job; what nparallel and jobcount count.
    - The tests: the appliers' checks accept exactly what agrees and is in order; a partition
      isolates the leader's side; the fault shown is the current one.
    - labgob: checkType terminates on recursive types and warns once per type.
    - Shards: Rebalance ends with counts at most one apart; the changes of a configuration
      are refused or leave one that checks; a configuration's text is read back; groups of servers join and leave as the tests
      expect with a controller that keeps its laws and at most one group per shard; controllers that
      compete and keep theirs never fail and leave a configuration that checks.
    - The replicated counter: a replica that starts from a snapshot answers what follows as the
      others do; an operation is offered to every server in turn.

    ** Bounds and fuel

    Recursion over data is structural.  Loops that are not have fuel, and a theorem shows
    that what the definitions give is enough: [findFirst_loop] and [findLast_loop] shrink an
    interval of log positions and have its length and one more, [balance_loop] lowers a sum
    bounded by the square of the number of shards, [group_end], [group_values] and
    [reduce_loop] pass over the pairs, [Json.parse_elems] over the text, [JsonText.parse] over twice its length; for [apply_run] the
    theorem says how many steps deliver the commands waiting.  Schedules (lists of attempts or of
    steps) bound the loops that wait for the network; termination is then stated as: the
    loop returns when the schedule holds a delivered reply.  Versions are uint64 and
    wrap around; the theorems that need versions to grow bound the number of steps by 2^63
    or 2^64.

    ** What is not modelled

    - In RaftSystem: a sender that starts after its term.  The steps outside the scope [prompt] are
      there, but what is proved of them is election safety and the leader check only.
    - In LabRpc a call made when the network has been cleaned up is lost (in Go the select may still hand it
      to the network's goroutine when that has not stopped yet, and the call then goes on as any other).
    - In MrSystem the clock: the time stamps of the runs of one task are taken to be distinct.
    - gob's bytes (encoding/gob): the persister keeps the sequence of
      encoded values; a snapshot's codec is a parameter of RaftTest.
    - Sleeps and time limits: a wait is a step that may be taken at any time (RaftTimer and the
      time limit of Tester have clocks).
    - Printing, plugins (loadPlugin), the Unix sockets of the coordinator, the drawing of
      annotations, signal handlers, memory measurements.
    - kvraft1, shardkv1 but for shardcfg: the exercises' bodies are empty there; Submit, the
      handlers and the clerks are modelled as they are, and the tests over an implementation
      that keeps its promises.  The main part of partitionCtrler, which cuts a controller off and starts a
      second one, depends on a recovery that is not in the repository; ShardKv has its check.  The Gets
      that end the controllers' tests are those of KvTest.
    - In RaftChecks: when a server is started again, the messages its old service has not
      dealt with are dropped (in Go the old goroutine may still handle one).
    - Programs of other labs' main directories (main/lock*.go, pb*.go, viewd.go,
      diskvd.go), whose packages are not in the repository.
*)
From stdpp Require Export base numbers list gmap strings pretty.
From stdpp Require Export sorting.
From Stdlib Require Export Ascii ZArith Lia.

(** ** Scope and notations *)

Declare Scope go_scope.
Delimit Scope go_scope with go.

(** ** Go's runtime errors

    A Go function of the repository either returns or stops the process: it
    panics (an index out of range, a close of a closed channel, a call of a nil
    function ...) or calls [log.Fatal].  [res A] is the result of running one. *)

Inductive panic :=
| IndexOutOfRange
| SliceOutOfRange
| NilDereference
| NilMapWrite
| ReflectUnexported
| CloseOfClosedChannel
| DivideByZero
| MakeNegativeLen
| BadTypeAssertion
| Fatal
| Deadlock       (* a goroutine waits for ever while it holds a lock *)
| OutOfFuel.

Inductive res (A : Type) :=
| Ret (a : A)
| Panic (p : panic).
Arguments Ret {A} a.
Arguments Panic {A} p.

#[export] Instance panic_eq_dec : EqDecision panic.
Proof. solve_decision. Defined.

#[export] Instance res_eq_dec {A} `{EqDecision A} : EqDecision (res A).
Proof. solve_decision. Defined.

Definition res_bind {A B : Type} (m : res A) (k : A -> res B) : res B :=
  match m with
  | Ret a => k a
  | Panic p => Panic p
  end.

Notation "'let!' x ':=' m 'in' k" := (res_bind m (fun x => k))
  (at level 10, x pattern, m at level 200, k at level 200) : go_scope.

(** [m] returns, that is, it does not stop the process. *)
Definition returns {A} (m : res A) : Prop := exists a, m = Ret a.

(** ** Slices

    A slice is a list.  Indexing and slicing are by a Go [int], so the index is a
    [Z] and a negative one panics.  [l[:j]] with [len(l) < j <= cap(l)] does not
    panic in Go but exposes stale elements of the backing array; the model has no
    capacity and reports [SliceOutOfRange] there. *)

Definition zlen {A} (l : list A) : Z := Z.of_nat (length l).

Definition idx {A} (l : list A) (i : Z) : res A :=
  if decide (0 <= i)%Z then
    match l !! Z.to_nat i with
    | Some x => Ret x
    | None => Panic IndexOutOfRange
    end
  else Panic IndexOutOfRange.

(** [l[i] = v] *)
Definition set_idx {A} (l : list A) (i : Z) (v : A) : res (list A) :=
  if decide (0 <= i < zlen l)%Z then Ret (<[Z.to_nat i := v]> l)
  else Panic IndexOutOfRange.

(** [l[i:]] *)
Definition slice_from {A} (l : list A) (i : Z) : res (list A) :=
  if decide (0 <= i <= zlen l)%Z then Ret (drop (Z.to_nat i) l)
  else Panic SliceOutOfRange.

(** [l[:j]] *)
Definition slice_to {A} (l : list A) (j : Z) : res (list A) :=
  if decide (0 <= j <= zlen l)%Z then Ret (take (Z.to_nat j) l)
  else Panic SliceOutOfRange.

(** ** Fixed-width unsigned arithmetic *)

Definition wrap (w x : Z) : Z := (x mod 2 ^ w)%Z.
Definition u64_add (x y : Z) : Z := wrap 64 (x + y).

(** [w]-bit two's complement. *)
Definition swrap (w x : Z) : Z := ((x + 2 ^ (w - 1)) mod 2 ^ w - 2 ^ (w - 1))%Z.
Definition is_u64 (x : Z) : Prop := (0 <= x < 2 ^ 64)%Z.

(** ** Tactics *)

(** Case analysis on the condition of the first [if] or [match] of the goal, and
    of a hypothesis. *)
Ltac case_goal := case_match; simplify_eq/=; try done.

Ltac bool_to_prop :=
  repeat match goal with
  | H : _ && _ = true |- _ => apply andb_true_iff in H; destruct H
  | H : _ || _ = false |- _ => apply orb_false_iff in H; destruct H
  | H : _ || _ = true |- _ => apply orb_true_iff in H
  | H : _ && _ = false |- _ => apply andb_false_iff in H
  | H : negb _ = true |- _ => apply negb_true_iff in H
  | H : negb _ = false |- _ => apply negb_false_iff in H
  | H : (_ =? _)%Z = true |- _ => apply Z.eqb_eq in H
  | H : (_ =? _)%Z = false |- _ => apply Z.eqb_neq in H
  | H : (_ <? _)%Z = true |- _ => apply Z.ltb_lt in H
  | H : (_ <? _)%Z = false |- _ => apply Z.ltb_ge in H
  | H : (_ <=? _)%Z = true |- _ => apply Z.leb_le in H
  | H : (_ <=? _)%Z = false |- _ => apply Z.leb_gt in H
  | H : (_ >? _)%Z = true |- _ => apply Z.gtb_lt in H
  | H : (_ >=? _)%Z = true |- _ => apply Z.geb_le in H
  | H : bool_decide _ = true |- _ => apply bool_decide_eq_true in H
  | H : bool_decide _ = false |- _ => apply bool_decide_eq_false in H
  end.

(** ** Slice lemmas *)

Section slices.
Context {A : Type}.
Implicit Types (l : list A) (x : A) (i j : Z).

Lemma zlen_nil : zlen (@nil A) = 0%Z.
Proof. done. Qed.

Lemma zlen_cons x l : zlen (x :: l) = (1 + zlen l)%Z.
Proof. unfold zlen; simpl; lia. Qed.

Lemma zlen_app l l' : zlen (l ++ l') = (zlen l + zlen l')%Z.
Proof. unfold zlen; rewrite length_app; lia. Qed.

Lemma zlen_nonneg l : (0 <= zlen l)%Z.
Proof. unfold zlen; lia. Qed.

Lemma zlen_pos l : l <> [] -> (0 < zlen l)%Z.
Proof. destruct l; [done|]. rewrite zlen_cons. pose proof (zlen_nonneg l). lia. Qed.

Lemma idx_Ret l i x :
  idx l i = Ret x <-> (0 <= i)%Z /\ l !! Z.to_nat i = Some x.
Proof.
  unfold idx. case_decide; [|naive_solver lia].
  destruct (l !! Z.to_nat i) eqn:E; naive_solver.
Qed.

Lemma idx_ok l i : (0 <= i < zlen l)%Z -> exists x, idx l i = Ret x.
Proof.
  intros Hi. destruct (lookup_lt_is_Some_2 l (Z.to_nat i)) as [x Hx].
  { unfold zlen in Hi. lia. }
  exists x. apply idx_Ret. lia || (split; [lia|done]).
Qed.

Lemma idx_range l i x : idx l i = Ret x -> (0 <= i < zlen l)%Z.
Proof.
  rewrite idx_Ret. intros [Hi Hx]. apply lookup_lt_Some in Hx. unfold zlen. lia.
Qed.

Lemma slice_from_Ret l i l' :
  slice_from l i = Ret l' <-> (0 <= i <= zlen l)%Z /\ l' = drop (Z.to_nat i) l.
Proof. unfold slice_from. case_decide; naive_solver. Qed.

Lemma slice_to_Ret l j l' :
  slice_to l j = Ret l' <-> (0 <= j <= zlen l)%Z /\ l' = take (Z.to_nat j) l.
Proof. unfold slice_to. case_decide; naive_solver. Qed.

Lemma set_idx_Ret l i x l' :
  set_idx l i x = Ret l' <-> (0 <= i < zlen l)%Z /\ l' = <[Z.to_nat i := x]> l.
Proof. unfold set_idx. case_decide; naive_solver. Qed.

Lemma zlen_take l i : (0 <= i <= zlen l)%Z -> zlen (take (Z.to_nat i) l) = i.
Proof. unfold zlen. rewrite length_take. lia. Qed.

Lemma zlen_drop l i : (0 <= i <= zlen l)%Z -> zlen (drop (Z.to_nat i) l) = (zlen l - i)%Z.
Proof. unfold zlen. rewrite length_drop. lia. Qed.

Lemma elem_of_insert_list l (k : nat) x y : x ∈ <[k := y]> l -> x = y \/ x ∈ l.
Proof.
  intros [j Hj]%list_elem_of_lookup. apply list_lookup_insert_Some in Hj as [(_ & <- & _)|[_ Hj]]; [by left|].
  right. by eapply list_elem_of_lookup_2.
Qed.

Lemma zlen_insert l k x : zlen (<[k := x]> l) = zlen l.
Proof. unfold zlen. by rewrite length_insert. Qed.
End slices.

Lemma res_bind_Ret {A B} (m : res A) (k : A -> res B) b :
  res_bind m k = Ret b <-> exists a, m = Ret a /\ k a = Ret b.
Proof. destruct m; naive_solver. Qed.

(** Invert a monadic computation that returned. *)
Ltac inv_res :=
  repeat match goal with
  | H : res_bind _ _ = Ret _ |- _ =>
      let a := fresh "a" in let E := fresh "E" in
      apply res_bind_Ret in H; destruct H as (a & E & H)
  | H : Ret _ = Ret _ |- _ => apply (f_equal (fun m => match m with Ret a => Some a | Panic _ => None end)) in H; simpl in H
  | H : Some _ = Some _ |- _ => injection H as H
  | H : Panic _ = Ret _ |- _ => discriminate H
  end; simplify_eq/=.

Lemma swrap_small x : (- 2 ^ 63 <= x < 2 ^ 63 -> swrap 64 x = x)%Z.
Proof. intros Hx. unfold swrap. change (2 ^ (64 - 1))%Z with (2 ^ 63)%Z. rewrite Z.mod_small; lia. Qed.

Lemma swrap_add x y : (swrap 64 (swrap 64 x + y) = swrap 64 (x + y))%Z.
Proof.
  unfold swrap. change (2 ^ (64 - 1))%Z with (2 ^ 63)%Z.
  replace ((x + 2 ^ 63) mod 2 ^ 64 - 2 ^ 63 + y + 2 ^ 63)%Z with ((x + 2 ^ 63) mod 2 ^ 64 + y)%Z by lia.
  rewrite Z.add_mod_idemp_l by done. do 2 f_equal. lia.
Qed.

Lemma u64_add_range x y : is_u64 (u64_add x y).
Proof. unfold is_u64, u64_add, wrap. apply Z.mod_pos_bound. lia. Qed.

Lemma u64_add_small x y : (0 <= x)%Z -> (0 <= y)%Z -> (x + y < 2 ^ 64)%Z -> u64_add x y = (x + y)%Z.
Proof. intros. unfold u64_add, wrap. apply Z.mod_small. lia. Qed.

(** Concatenation of strings. *)
Lemma app_assoc_string (a b c : string) : ((a +:+ b) +:+ c = a +:+ (b +:+ c))%stdpp.
Proof.
  induction a as [|x a IH]; [done|].
  change (String x ((a +:+ b) +:+ c) = String x (a +:+ (b +:+ c))). by rewrite IH.
Qed.
Lemma app_nil_string (a : string) : (a +:+ "" = a)%stdpp.
Proof. induction a as [|x a IH]; [done|]. change (String x (a +:+ "") = String x a). by rewrite IH. Qed.

(** Counting. *)
Section counting.
Context {A : Type} (P : A -> Prop) `{!forall x, Decision (P x)}.
Implicit Types l : list A.

Lemma length_filter_all l : Forall P l -> length (filter P l) = length l.
Proof. induction 1; [done|]. rewrite filter_cons_True by done. cbn. lia. Qed.

Lemma length_filter_none l : Forall (fun x => ~ P x) l -> length (filter P l) = 0%nat.
Proof. induction 1; [done|]. by rewrite filter_cons_False. Qed.

Lemma length_filter_app l l' :
  length (filter P (l ++ l')) = (length (filter P l) + length (filter P l'))%nat.
Proof. by rewrite filter_app, length_app. Qed.
End counting.

(** Sums. *)
Definition zsum {A} (f : A -> Z) (l : list A) : Z := foldr (fun x a => (f x + a)%Z) 0%Z l.

Lemma zsum_cons {A} (f : A -> Z) x l : zsum f (x :: l) = (f x + zsum f l)%Z.
Proof. done. Qed.

Lemma zsum_app {A} (f : A -> Z) l l' : zsum f (l ++ l') = (zsum f l + zsum f l')%Z.
Proof. induction l as [|x l IH]; [done|]. change (f x + zsum f (l ++ l') = f x + zsum f l + zsum f l')%Z. rewrite IH. lia. Qed.

Lemma zsum_insert {A} (f : A -> Z) l i x y :
  l !! i = Some x -> zsum f (<[i := y]> l) = (zsum f l - f x + f y)%Z.
Proof.
  intros Hx. pose proof (lookup_lt_Some _ _ _ Hx). rewrite insert_take_drop by done.
  rewrite <- (take_drop_middle l i x Hx) at 3. rewrite !zsum_app, !zsum_cons. lia.
Qed.

Lemma zsum_le {A} (f g : A -> Z) l : (forall x, x ∈ l -> (f x <= g x)%Z) -> (zsum f l <= zsum g l)%Z.
Proof.
  induction l as [|x l IH]; intros H; [done|]. pose proof (H x ltac:(left)).
  assert (zsum f l <= zsum g l)%Z by (apply IH; intros; apply H; by right).
  change (f x + zsum f l <= g x + zsum g l)%Z. lia.
Qed.

Lemma zsum_zero {A} (f : A -> Z) l : (forall x, x ∈ l -> f x = 0%Z) -> zsum f l = 0%Z.
Proof. induction l as [|x l IH]; intros H; [done|]. cbn. rewrite (H x) by left. apply IH. intros. apply H. by right. Qed.

Create HintDb go.
Create Rewrite HintDb go.
#[export] Hint Resolve zlen_nonneg zlen_pos u64_add_range : go.
#[export] Hint Rewrite @zlen_cons @zlen_app @zlen_nil @zlen_insert : go.

(** ** Runs of a step relation *)

Section runs.
Context {S : Type} (step : S -> S -> Prop).

(** A state reached from one that satisfies [init]. *)
Inductive reachable (init : S -> Prop) : S -> Prop :=
| reach_init s : init s -> reachable init s
| reach_step s s' : reachable init s -> step s s' -> reachable init s'.

Lemma reachable_rtc (init : S -> Prop) s s' : reachable init s -> rtc step s s' -> reachable init s'.
Proof. intros Hr Hs. revert Hr. induction Hs; eauto using reach_step. Qed.

Lemma reachable_invariant (init I : S -> Prop) :
  (forall s, init s -> I s) ->
  (forall s s', I s -> step s s' -> I s') ->
  forall s, reachable init s -> I s.
Proof. intros Hi Hs s Hr. induction Hr; eauto. Qed.

(** An invariant that counts the steps, up to a bound. *)
Lemma nsteps_invariant (I : Z -> S -> Prop) (bound : Z) n s0 s :
  I 0%Z s0 ->
  (forall k s s', (0 <= k < bound)%Z -> I k s -> step s s' -> I (k + 1)%Z s') ->
  nsteps step n s0 s -> (Z.of_nat n <= bound)%Z -> I (Z.of_nat n) s.
Proof.
  intros H0 Hs. revert s. induction n as [|n IH]; intros s Hn Hb.
  - inversion Hn; subst. done.
  - apply nsteps_inv_r in Hn as (s1 & Hn & Hstep).
    rewrite Nat2Z.inj_succ, <- Z.add_1_r. apply (Hs _ s1); [lia| |done]. apply IH; [done|lia].
Qed.
End runs.
