(* ===== verification/GoText.v ===== *)
(** * GoText: the text functions of Go's library that the sources use

    Strings are sequences of bytes.  UTF-8 decoding (the [range] loop over a string),
    [strings.FieldsFunc], and what [encoding/json] makes of a string that is written and
    read back: a byte that is not part of valid UTF-8 becomes U+FFFD.  The 32-bit FNV-1a
    hash of [hash/fnv]. *)
From S2P Require Import Prelude.
Local Open Scope Z_scope.

Module Utf8.

Definition code (c : ascii) : Z := Z.of_N (N_of_ascii c).
Definition RuneError : Z := 0xFFFD.
Definition rng (lo hi : Z) (c : ascii) : bool := (lo <=? code c) && (code c <=? hi).

(** The low six bits of a continuation byte. *)
Definition low6 (c : ascii) : Z := Z.land (code c) 0x3F.

(** The range of the byte that may follow a first byte [b]. *)
Definition accept (b : Z) : Z * Z :=
  if b =? 0xE0 then (0xA0, 0xBF) else if b =? 0xED then (0x80, 0x9F)
  else if b =? 0xF0 then (0x90, 0xBF) else if b =? 0xF4 then (0x80, 0x8F)
  else (0x80, 0xBF).

(** [utf8.DecodeRune]: the rune and the number of bytes it takes. *)
Definition DecodeRune (p : list ascii) : Z * nat :=
  match p with
  | [] => (RuneError, 0%nat)
  | c0 :: p1 =>
      let b0 := code c0 in
      let '(lo, hi) := accept b0 in
      if b0 <? 0x80 then (b0, 1%nat)
      else if (b0 <? 0xC2) || (0xF4 <? b0) then (RuneError, 1%nat)
      else match p1 with
      | [] => (RuneError, 1%nat)
      | c1 :: p2 =>
          if negb (rng lo hi c1) then (RuneError, 1%nat)
          else if b0 <? 0xE0 then (Z.lor (Z.shiftl (Z.land b0 0x1F) 6) (low6 c1), 2%nat)
          else match p2 with
          | [] => (RuneError, 1%nat)
          | c2 :: p3 =>
              if negb (rng 0x80 0xBF c2) then (RuneError, 1%nat)
              else if b0 <? 0xF0 then
                (Z.lor (Z.shiftl (Z.land b0 0x0F) 12)
                   (Z.lor (Z.shiftl (low6 c1) 6) (low6 c2)), 3%nat)
              else match p3 with
              | [] => (RuneError, 1%nat)
              | c3 :: _ =>
                  if negb (rng 0x80 0xBF c3) then (RuneError, 1%nat)
                  else (Z.lor (Z.shiftl (Z.land b0 0x07) 18)
                         (Z.lor (Z.shiftl (low6 c1) 12)
                            (Z.lor (Z.shiftl (low6 c2) 6) (low6 c3))), 4%nat)
              end
          end
      end
  end.

(** [for _, r := range s]: the runes, each with its bytes. *)
Fixpoint runes_go (fuel : nat) (p : list ascii) : list (Z * list ascii) :=
  match fuel, p with
  | S fuel, _ :: _ =>
      let '(r, n) := DecodeRune p in
      (r, take n p) :: runes_go fuel (drop n p)
  | _, _ => []
  end.
Definition runes (p : list ascii) : list (Z * list ascii) := runes_go (length p) p.

Definition invalid (x : Z * list ascii) : bool :=
  bool_decide (x.1 = RuneError) && bool_decide (length x.2 = 1%nat).

(** U+FFFD in UTF-8. *)
Definition replacement : list ascii :=
  ["239"; "191"; "189"]%char.

(** What the decoder of [encoding/json] gives for a string the encoder was given. *)
Definition json_bytes (p : list ascii) : list ascii :=
  concat ((fun x => if invalid x then replacement else x.2) <$> runes p).
Definition json_string (s : string) : string :=
  String.string_of_list_ascii (json_bytes (String.list_ascii_of_string s)).

(** [strings.FieldsFunc]: the maximal runs of runes that do not satisfy [f]; [cur] is
    the field being read. *)
Fixpoint fields_go (f : Z -> bool) (cur : list ascii) (l : list (Z * list ascii))
  : list (list ascii) :=
  match l with
  | [] => if decide (cur = []) then [] else [cur]
  | x :: l =>
      if f x.1 then if decide (cur = []) then fields_go f [] l else cur :: fields_go f [] l
      else fields_go f (cur ++ x.2) l
  end.
Definition FieldsFunc (f : Z -> bool) (s : string) : list string :=
  String.string_of_list_ascii <$> fields_go f [] (runes (String.list_ascii_of_string s)).

(** ** Lemmas *)

Lemma DecodeRune_size c p : (1 <= (DecodeRune (c :: p)).2 <= 4)%nat.
Proof. unfold DecodeRune. repeat case_match; cbn; lia. Qed.

Lemma DecodeRune_width c p : ((DecodeRune (c :: p)).2 <= S (length p))%nat.
Proof. unfold DecodeRune. repeat case_match; simplify_eq/=; lia. Qed.

(** The bytes of a rune that decoded well decode to it whatever follows. *)
Lemma DecodeRune_prefix p q r n :
  DecodeRune p = (r, n) -> p <> [] -> invalid (r, take n p) = false ->
  DecodeRune (take n p ++ q) = (r, n).
Proof.
  intros Hd Hp Hv. destruct p as [|c0 p]; [done|]. unfold DecodeRune in Hd.
  repeat case_match; simplify_eq/=; try (by rewrite bool_decide_true in Hv);
    repeat match goal with H : ?b = _ |- context[?b] => rewrite H end; done.
Qed.

Lemma runes_go_fuel fuel p : (length p <= fuel)%nat -> runes_go fuel p = runes p.
Proof.
  unfold runes. revert p. induction fuel as [fuel IH] using lt_wf_ind. intros p Hf.
  destruct p as [|c p]; [by destruct fuel|]. destruct fuel as [|fuel]; [cbn in Hf; lia|].
  cbn [runes_go length]. destruct (DecodeRune (c :: p)) as [r n] eqn:E. f_equal.
  pose proof (DecodeRune_size c p) as Hn. rewrite E in Hn; cbn in Hn, Hf.
  assert (length (drop n (c :: p)) <= length p)%nat as Hl.
  { rewrite length_drop. cbn. lia. }
  rewrite (IH fuel) by lia.
  destruct (decide (length p < S fuel)%nat); [|lia].
  by rewrite (IH (length p)) by (try done; lia).
Qed.

Lemma runes_cons p r n :
  p <> [] -> DecodeRune p = (r, n) -> runes p = (r, take n p) :: runes (drop n p).
Proof.
  intros Hp Hd. destruct p as [|c p]; [done|]. unfold runes at 1. cbn [runes_go length].
  rewrite Hd. f_equal. apply runes_go_fuel.
  pose proof (DecodeRune_size c p) as Hn. rewrite Hd in Hn. cbn in Hn.
  rewrite length_drop. cbn. lia.
Qed.

(** Induction along the decoding of a string. *)
Lemma runes_ind (P : list ascii -> Prop) :
  P [] ->
  (forall p r n, p <> [] -> DecodeRune p = (r, n) -> P (drop n p) -> P p) ->
  forall p, P p.
Proof.
  intros H0 Hs p. remember (length p) as k eqn:Hk. revert p Hk.
  induction k as [k IH] using lt_wf_ind. intros p ->. destruct p as [|c p]; [done|].
  destruct (DecodeRune (c :: p)) as [r n] eqn:E. eapply Hs; [done|done|].
  pose proof (DecodeRune_size c p) as Hn. rewrite E in Hn. cbn in Hn.
  eapply IH; [|reflexivity]. rewrite length_drop. cbn. lia.
Qed.

Lemma runes_concat p : concat (snd <$> runes p) = p.
Proof.
  induction p as [|p r n Hp Hd IH] using runes_ind; [done|].
  rewrite (runes_cons _ _ _ Hp Hd). cbn. rewrite IH. apply take_drop.
Qed.

(** What a list of rune pieces must be for its bytes to decode to it. *)
Definition piece (x : Z * list ascii) : Prop :=
  x.2 <> [] /\ invalid x = false /\ forall q, DecodeRune (x.2 ++ q) = (x.1, length x.2).

Lemma runes_pieces p : Forall (fun x => invalid x = true \/ piece x) (runes p).
Proof.
  induction p as [|p r n Hp Hd IH] using runes_ind; [constructor|].
  rewrite (runes_cons _ _ _ Hp Hd). constructor; [|done].
  destruct (invalid (r, take n p)) eqn:Hi; [by left|right].
  destruct p as [|c p]; [done|].
  pose proof (DecodeRune_size c p) as Hn. pose proof (DecodeRune_width c p) as Hw.
  rewrite Hd in Hn, Hw. cbn in Hn, Hw.
  assert (length (take n (c :: p)) = n) as Hl by (rewrite length_take; cbn; lia).
  split_and!; cbn [fst snd]; [|done|].
  - intros Heq. rewrite Heq in Hl. cbn in Hl. lia.
  - intros q. rewrite Hl. by apply DecodeRune_prefix.
Qed.

Lemma runes_of_pieces l : Forall piece l -> runes (concat (snd <$> l)) = l.
Proof.
  induction 1 as [|[r q] l (Hne & Hi & Hd) Hl IH]; [done|].
  rewrite fmap_cons. cbn [concat fst snd] in *.
  rewrite (runes_cons _ r (length q)); [|by destruct q|by apply Hd].
  rewrite take_app_length, drop_app_length. by rewrite IH.
Qed.

Lemma json_bytes_pieces l : Forall piece l -> json_bytes (concat (snd <$> l)) = concat (snd <$> l).
Proof.
  intros Hl. unfold json_bytes. rewrite (runes_of_pieces _ Hl). f_equal.
  apply list_fmap_ext. intros i x Hx. eapply Forall_lookup_1 in Hl as (_ & Hi & _); [|exact Hx].
  by rewrite Hi.
Qed.

(** A field is made of runes that do not satisfy [f], none invalid when [f] holds of
    U+FFFD. *)
Lemma fields_go_pieces f cur l :
  f RuneError = true -> Forall (fun x => invalid x = true \/ piece x) l -> Forall piece cur ->
  forall w, w ∈ fields_go f (concat (snd <$> cur)) l ->
    exists ps, Forall piece ps /\ w = concat (snd <$> ps).
Proof.
  intros Hf Hl. revert cur. induction Hl as [|x l Hx Hl IH]; intros cur Hcur w; cbn.
  - case_decide; [by intros ?%elem_of_nil|]. intros ->%list_elem_of_singleton. by exists cur.
  - assert (forall w, w ∈ fields_go f [] l -> exists ps, Forall piece ps /\ w = concat (snd <$> ps))
      as IH0 by (intros w'; by apply (IH [])).
    destruct (f x.1) eqn:Hfx; [case_decide|].
    + apply IH0.
    + intros [->|Hw]%elem_of_cons; [by exists cur|by apply IH0].
    + replace (concat (snd <$> cur) ++ x.2) with (concat (snd <$> (cur ++ [x]))).
      2:{ rewrite fmap_app, concat_app. cbn. by rewrite app_nil_r. }
      apply IH. apply Forall_app. split; [done|]. constructor; [|done].
      destruct Hx as [Hx|]; [|done]. unfold invalid in Hx. bool_to_prop. congruence.
Qed.

(** The fields a function that stops at U+FFFD cuts are unchanged by JSON. *)
Lemma FieldsFunc_json f s w :
  f RuneError = true -> w ∈ FieldsFunc f s -> json_string w = w.
Proof.
  intros Hf (p & -> & Hp)%list_elem_of_fmap.
  apply (fields_go_pieces f []) in Hp as (ps & Hps & ->); [|done|apply runes_pieces|constructor].
  unfold json_string. rewrite String.list_ascii_of_string_of_list_ascii. by rewrite json_bytes_pieces.
Qed.

End Utf8.

Module Fnv.

(** The hash over the bytes of a string. *)
Definition fnv32a (s : string) : Z :=
  fold_left (fun h c => wrap 32 (Z.lxor h (Utf8.code c) * 16777619))
    (String.list_ascii_of_string s) 2166136261.

Lemma fnv32a_range s : 0 <= fnv32a s < 2 ^ 32.
Proof.
  unfold fnv32a. assert (forall l h, 0 <= h < 2 ^ 32 ->
    0 <= fold_left (fun h c => wrap 32 (Z.lxor h (Utf8.code c) * 16777619)) l h < 2 ^ 32) as H.
  { induction l as [|c l IH]; intros h Hh; [done|]. cbn [fold_left]. apply IH.
    apply Z.mod_pos_bound. lia. }
  apply H. lia.
Qed.

Example fnv_a : fnv32a "a" = 0xE40C292C.
Proof. reflexivity. Qed.

End Fnv.

(** URLEncoding of encoding/base64. *)
Module Base64.

Definition alphabet : string := "ABCDEFGHIJKLMNOPQRSTUVWXYZabcdefghijklmnopqrstuvwxyz0123456789-_".
(** The digit of the low six bits. *)
Definition digit (d : Z) : ascii := default "="%char (String.get (Z.to_nat (Z.land d 0x3F)) alphabet).

(** The bytes in groups of three; what is left is padded with [=]. *)
Fixpoint encode (b : list Z) : string :=
  match b with
  | [] => ""
  | [x] => String (digit (Z.shiftr x 2)) (String (digit (Z.shiftl x 4)) "==")
  | [x; y] =>
      String (digit (Z.shiftr x 2)) (String (digit (Z.lor (Z.shiftl x 4) (Z.shiftr y 4)))
        (String (digit (Z.shiftl y 2)) "="))
  | x :: y :: z :: b =>
      String (digit (Z.shiftr x 2)) (String (digit (Z.lor (Z.shiftl x 4) (Z.shiftr y 4)))
        (String (digit (Z.lor (Z.shiftl y 2) (Z.shiftr z 6))) (String (digit z) (encode b))))
  end.

Example encode_Man : encode [77; 97; 110; 255] = "TWFu_w==".
Proof. reflexivity. Qed.

(** [s[0:n]] *)
Fixpoint prefix (n : nat) (s : string) : string :=
  match n, s with
  | S n, String c s => String c (prefix n s)
  | _, _ => ""
  end.

(** All the characters of [s] are digits. *)
Fixpoint digits (s : string) : Prop :=
  match s with
  | "" => True
  | String c s => (exists d, 0 <= d < 64 /\ c = digit d) /\ digits s
  end.

Lemma digit_mod d : exists d', 0 <= d' < 64 /\ digit d = digit d'.
Proof.
  exists (Z.land d 0x3F). split.
  - change 0x3F with (Z.ones 6). rewrite Z.land_ones by lia. by apply Z.mod_pos_bound.
  - unfold digit. by rewrite <- Z.land_assoc.
Qed.

(** The first characters are no padding: one for every six bits, and one more. *)
Lemma encode_prefix n b :
  Z.of_nat n * 6 <= zlen b * 8 -> String.length (prefix n (encode b)) = n /\ digits (prefix n (encode b)).
Proof.
  revert n. induction b as [b IH] using (induction_ltof1 _ (@length Z)). unfold ltof in IH. intros n Hn.
  assert (forall d, exists d', 0 <= d' < 64 /\ digit d = digit d') as Hd by apply digit_mod.
  destruct b as [|x [|y [|z b]]]; unfold zlen in Hn; cbn [length] in Hn; cbn [encode].
  - assert (n = 0%nat) as -> by lia. done.
  - destruct n as [|[|n]]; [done|..|exfalso; lia]. cbn. split; [done|]. by repeat (split; [apply Hd|]).
  - destruct n as [|[|[|n]]]; [done|..|exfalso; lia]; cbn; (split; [done|]); by repeat (split; [apply Hd|]).
  - destruct n as [|[|[|[|n]]]]; cbn; [done|(split; [done|]); by repeat (split; [apply Hd|])..|].
    destruct (IH b ltac:(cbn; lia) n) as [H1 H2]; [unfold zlen; lia|]. rewrite H1. split; [done|]. by repeat (split; [apply Hd|]).
Qed.
End Base64.
