(* ===== verification/LabRpc.v ===== *)
(** * labrpc: the simulated RPC network (src/src/labrpc/labrpc.go)

    The network object, its servers, services and method tables, and the path of
    one request: [Call], [processReq], [Server.dispatch], [Service.dispatch].
    Time, the random choices of [processReq] and the state of the network at each
    later instant the code looks at it are arguments, so that a theorem holds for
    every timing and every interleaving with the other operations. *)
From S2P Require Import Prelude.
Local Open Scope Z_scope.
Local Open Scope go_scope.

Module LabRpc.

Definition SHORTDELAY : Z := 27.
Definition LONGDELAY : Z := 7000.
Definition MAXDELAY : Z := LONGDELAY + 100.

(** The values of the repository's Go programs that travel in a request are
    labgob-encoded; [P] is the type of an encoded message and [W] the state the
    RPC handlers of the servers read and write. *)
Section network.
Context {P W : Type} (psize : P -> Z).

Record reqMsg := ReqMsg {
  rq_endname : string;
  svcMeth : string;
  rq_args : P;
}.

(** [reply] is meaningful when [ok]. *)
Record replyMsg := ReplyMsg { ok : bool; reply : option P }.

Definition failMsg : replyMsg := ReplyMsg false None.

(** *** Services *)

(** What [MakeService] reads of a method by reflection. *)
Record MethodDesc := MkMethodDesc {
  m_name : string;
  m_pkgpath : string;          (* empty when the name is exported *)
  m_numin : nat;
  m_in2_ptr : bool;
  m_numout : nat;
  m_func : P -> W -> res (W * P);
}.

Record Service := MkService {
  sv_name : string;
  methods : gmap string MethodDesc;
}.

Definition suitable (m : MethodDesc) : bool :=
  bool_decide (m_pkgpath m = "") && bool_decide (m_numin m = 3%nat) &&
  m_in2_ptr m && bool_decide (m_numout m = 0%nat).

Fixpoint add_methods (ms : list MethodDesc) (tbl : gmap string MethodDesc) :
    gmap string MethodDesc :=
  match ms with
  | [] => tbl
  | m :: ms => add_methods ms (if suitable m then <[m_name m := m]> tbl else tbl)
  end.

(** [name] is the receiver's type name and [ms] its method set. *)
Definition MakeService (name : string) (ms : list MethodDesc) : Service :=
  MkService name (add_methods ms ∅).

Definition Service_dispatch (svc : Service) (methname : string) (req : reqMsg) (w : W) :
    res (W * replyMsg) :=
  match methods svc !! methname with
  | Some m =>
      let! (w', r) := m_func m (rq_args req) w in
      Ret (w', ReplyMsg true (Some r))
  | None => Panic Fatal
  end.

(** *** Servers *)

Record Server := MkServer {
  services : gmap string Service;
  sr_count : Z;
}.

Definition MakeServer : Server := MkServer ∅ 0.

Definition AddService (svc : Service) (rs : Server) : Server :=
  MkServer (<[sv_name svc := svc]> (services rs)) (sr_count rs).

(** [s[:dot], s[dot+1:]] for the last dot of [s]; [None] when there is none. *)
Fixpoint split_last_dot (s : string) : option (string * string) :=
  match s with
  | EmptyString => None
  | String c s' =>
      match split_last_dot s' with
      | Some (a, b) => Some (String c a, b)
      | None => if decide (c = "."%char) then Some (EmptyString, s') else None
      end
  end.

Definition Server_dispatch (rs : Server) (req : reqMsg) (w : W) :
    res (Server * W * replyMsg) :=
  let rs := MkServer (services rs) (sr_count rs + 1) in
  match split_last_dot (svcMeth req) with
  | None => Panic SliceOutOfRange           (* [:dot] with dot = -1 *)
  | Some (serviceName, methodName) =>
      match services rs !! serviceName with
      | Some svc =>
          let! (w', r) := Service_dispatch svc methodName req w in
          Ret (rs, w', r)
      | None => Panic Fatal
      end
  end.

Definition Server_GetCount (rs : Server) : Z := sr_count rs.

(** *** The network *)

(** [ends] holds the names with a ClientEnd.  [servers] and [connections] hold a
    Go pointer or interface: a missing entry reads as nil, so an entry set to nil
    is a missing one.  A server is a pointer into a separate heap of servers. *)
Record Network := MkNetwork {
  reliable : bool;
  longDelays : bool;
  longReordering : bool;
  ends : gset string;
  enabled : gmap string bool;
  servers : gmap string positive;
  connections : gmap string string;
  nt_count : Z;
  nt_bytes : Z;
  nt_done : bool;
}.

Definition MakeNetwork : Network :=
  MkNetwork true false false ∅ ∅ ∅ ∅ 0 0 false.

(** [close(rn.done)] *)
Definition Cleanup (rn : Network) : res Network :=
  if nt_done rn then Panic CloseOfClosedChannel
  else Ret (MkNetwork (reliable rn) (longDelays rn) (longReordering rn) (ends rn) (enabled rn)
              (servers rn) (connections rn) (nt_count rn) (nt_bytes rn) true).

Definition Reliable (yes : bool) (rn : Network) : Network :=
  MkNetwork yes (longDelays rn) (longReordering rn) (ends rn) (enabled rn) (servers rn)
    (connections rn) (nt_count rn) (nt_bytes rn) (nt_done rn).

Definition IsReliable (rn : Network) : bool := reliable rn.

Definition LongReordering (yes : bool) (rn : Network) : Network :=
  MkNetwork (reliable rn) (longDelays rn) yes (ends rn) (enabled rn) (servers rn)
    (connections rn) (nt_count rn) (nt_bytes rn) (nt_done rn).

Definition LongDelays (yes : bool) (rn : Network) : Network :=
  MkNetwork (reliable rn) yes (longReordering rn) (ends rn) (enabled rn) (servers rn)
    (connections rn) (nt_count rn) (nt_bytes rn) (nt_done rn).

Definition IsLongDelays (rn : Network) : bool := longDelays rn.

(** The network with other [ends], [enabled], [servers] and [connections]. *)
Definition set_tables (e : gset string) (en : gmap string bool) (sv : gmap string positive)
    (cn : gmap string string) (rn : Network) : Network :=
  MkNetwork (reliable rn) (longDelays rn) (longReordering rn) e en sv cn
    (nt_count rn) (nt_bytes rn) (nt_done rn).

Definition MakeEnd (endname : string) (rn : Network) : res Network :=
  if decide (endname ∈ ends rn) then Panic Fatal
  else Ret (set_tables ({[endname]} ∪ ends rn) (<[endname := false]> (enabled rn))
              (servers rn) (delete endname (connections rn)) rn).

Definition DeleteEnd (endname : string) (rn : Network) : res Network :=
  if decide (endname ∈ ends rn) then
    Ret (set_tables (ends rn ∖ {[endname]}) (delete endname (enabled rn))
           (servers rn) (delete endname (connections rn)) rn)
  else Panic Fatal.

(** [rs] is the pointer to the server. *)
Definition AddServer (servername : string) (rs : positive) (rn : Network) : Network :=
  set_tables (ends rn) (enabled rn) (<[servername := rs]> (servers rn)) (connections rn) rn.

Definition DeleteServer (servername : string) (rn : Network) : Network :=
  set_tables (ends rn) (enabled rn) (delete servername (servers rn)) (connections rn) rn.

Definition Connect (endname servername : string) (rn : Network) : Network :=
  set_tables (ends rn) (enabled rn) (servers rn) (<[endname := servername]> (connections rn)) rn.

Definition Enable (endname : string) (en : bool) (rn : Network) : Network :=
  set_tables (ends rn) (<[endname := en]> (enabled rn)) (servers rn) (connections rn) rn.

(** [svr.GetCount()] locks the mutex of [*svr]: a nil [svr] panics. *)
Definition GetCount (heap : gmap positive Server) (servername : string) (rn : Network) : res Z :=
  match servers rn !! servername ≫= (fun p => heap !! p) with
  | Some rs => Ret (Server_GetCount rs)
  | None => Panic NilDereference
  end.

Definition GetTotalCount (rn : Network) : Z := nt_count rn.
Definition GetTotalBytes (rn : Network) : Z := nt_bytes rn.

Definition is_enabled (rn : Network) (endname : string) : bool :=
  default false (enabled rn !! endname).

(** enabled, servername, server, reliable, longreordering *)
Definition readEndnameInfo (rn : Network) (endname : string) :
    bool * option string * option positive * bool * bool :=
  let servername := connections rn !! endname in
  (is_enabled rn endname, servername, servername ≫= (fun s => servers rn !! s),
   reliable rn, longReordering rn).

Definition isServerDead (rn : Network) (endname servername : string) (server : positive) : bool :=
  negb (is_enabled rn endname) || negb (bool_decide (servers rn !! servername = Some server)).

(** The receiving goroutine of [MakeNetwork] accounts for each request. *)
Definition add_bytes (n : Z) (rn : Network) : Network :=
  MkNetwork (reliable rn) (longDelays rn) (longReordering rn) (ends rn) (enabled rn) (servers rn)
    (connections rn) (nt_count rn) (swrap 64 (nt_bytes rn + n)) (nt_done rn).

Definition accept (req : reqMsg) (rn : Network) : Network :=
  add_bytes (psize (rq_args req))
    (MkNetwork (reliable rn) (longDelays rn) (longReordering rn) (ends rn) (enabled rn)
       (servers rn) (connections rn) (swrap 32 (nt_count rn + 1)) (nt_bytes rn) (nt_done rn)).

(** The random numbers [processReq] draws: the request is dropped when
    [r_req mod 1000 < 100], the reply when [r_rep mod 1000 < 100], the reply is
    delayed when [r_reorder < 600], by [r_delay] more than 200 ms. *)
Record dice := Dice { r_req : Z; r_rep : Z; r_reorder : Z; r_delay : Z; r_nosrv : Z }.

(** Go's [%] on the non-negative result of [rand.Int()]. *)
Definition dropped (r : Z) : bool := r mod 1000 <? 100.

(** The loop that waits for the handler: [ticks] are the states of the network at
    the 100 ms timer events before the handler's reply arrives.  [true] when the
    reply was received, [false] when the server was found dead first. *)
Fixpoint wait_reply (ticks : list Network) (endname servername : string) (server : positive) : bool :=
  match ticks with
  | [] => true
  | rn :: ticks =>
      if isServerDead rn endname servername server then false
      else wait_reply ticks endname servername server
  end.

(** [len(reply.reply)] *)
Definition reply_size (r : replyMsg) : Z := from_option psize 0 (reply r).

(** What a request did: the servers and the handlers' state afterwards, the message
    sent on [req.replyCh], the ms before it is sent, the bytes accounted for it. *)
Record outcome := Outcome {
  o_heap : gmap positive Server;
  o_world : W;
  o_reply : replyMsg;
  o_delay : Z;
  o_bytes : Z;
}.

(** [rn] is the network when the request arrives, [ticks] at the timer events,
    [rn_end] when the wait is over; the result does not cover a handler that
    never returns. *)
Definition processReq (d : dice) (rn : Network) (ticks : list Network) (rn_end : Network)
    (req : reqMsg) (heap : gmap positive Server) (w : W) : res outcome :=
  match readEndnameInfo rn (rq_endname req) with
  | (true, Some servername, Some server, rel, reorder) =>
      if negb rel && dropped (r_req d) then Ret (Outcome heap w failMsg 0 0)
      else
        match heap !! server with
        | None => Panic NilDereference
        | Some rs =>
            let! (rs', w', r) := Server_dispatch rs req w in
            let heap' := <[server := rs']> heap in
            let replyOK := wait_reply ticks (rq_endname req) servername server in
            let serverDead := isServerDead rn_end (rq_endname req) servername server in
            if negb replyOK || serverDead then Ret (Outcome heap' w' failMsg 0 0)
            else if negb rel && dropped (r_rep d) then Ret (Outcome heap' w' failMsg 0 0)
            else if reorder && (r_reorder d <? 600)
                 then Ret (Outcome heap' w' r (200 + r_delay d) (reply_size r))
            else Ret (Outcome heap' w' r 0 (reply_size r))
        end
  | _ =>
      let ms := if IsLongDelays rn then r_nosrv d mod LONGDELAY else r_nosrv d mod 100 in
      Ret (Outcome heap w failMsg ms 0)
  end.

(** The caller's side: [None] is the [false] result of [Call], [Some r] the [true]
    result with the decoded reply.  A network already cleaned up refuses the
    request. *)
Definition Call (d : dice) (rn : Network) (ticks : list Network) (rn_end : Network)
    (req : reqMsg) (heap : gmap positive Server) (w : W) :
    res (gmap positive Server * W * option P) :=
  if nt_done rn then Ret (heap, w, None)
  else
    let! o := processReq d rn ticks rn_end req heap w in
    Ret (o_heap o, o_world o, if ok (o_reply o) then reply (o_reply o) else None).

(** *** What a caller can observe

    The three things that can happen to a request: it never reaches the handler,
    the handler runs but the caller is told [false], or the caller gets the reply. *)

Inductive delivery := Lost | ReplyLost | Delivered.

Definition deliver {R} (dl : delivery) (h : W -> W * R) (w : W) : W * option R :=
  match dl with
  | Lost => (w, None)
  | ReplyLost => ((h w).1, None)
  | Delivered => let '(w', r) := h w in (w', Some r)
  end.

(** [server] answers [svcMeth req] with the function [h] of its state. *)
Definition serves (heap : gmap positive Server) (server : positive) (meth : string)
    (h : P -> W -> W * P) : Prop :=
  exists rs svcn methn svc m,
    heap !! server = Some rs /\ split_last_dot meth = Some (svcn, methn) /\
    services rs !! svcn = Some svc /\ methods svc !! methn = Some m /\
    forall p w, m_func m p w = Ret (h p w).

(** ** Lemmas *)

Lemma split_last_dot_no_dot s :
  split_last_dot s = None <-> ~ (exists a b, s = (a +:+ String "."%char b)).
Proof.
  induction s as [|c s IH]; simpl.
  - split; [|done]. intros _ ([|? ?] & b & ?); done.
  - destruct (split_last_dot s) as [[a b]|] eqn:E.
    + split; [done|]. intros Hn. exfalso.
      destruct IH as [_ IH]. assert (Some (a, b) = None) as ?; [|done].
      apply IH. intros (a' & b' & ->). apply Hn. by exists (String c a'), b'.
    + destruct IH as [IH _]. specialize (IH eq_refl). case_decide; simplify_eq.
      * split; [done|]. intros Hn. exfalso. apply Hn. by exists EmptyString, s.
      * split; [|done]. intros _ ([|c' a'] & b' & Heq); injection Heq as -> ->; [done|].
        apply IH. by exists a', b'.
Qed.

(** [svcMeth[:dot]] and [svcMeth[dot+1:]] of ["Service.Method"]. *)
Lemma split_last_dot_app a b :
  split_last_dot b = None -> split_last_dot (a +:+ String "."%char b) = Some (a, b).
Proof.
  intros Hb. induction a as [|c a IH]; simpl.
  - by rewrite Hb.
  - by rewrite IH.
Qed.

Lemma wait_reply_alive ticks e s p :
  Forall (fun rn => isServerDead rn e s p = false) ticks -> wait_reply ticks e s p = true.
Proof. induction 1 as [|rn ticks Hrn _ IH]; simpl; [done|]. by rewrite Hrn. Qed.

Lemma isServerDead_false rn e s p :
  isServerDead rn e s p = false <-> enabled rn !! e = Some true /\ servers rn !! s = Some p.
Proof.
  unfold isServerDead, is_enabled. rewrite orb_false_iff, !negb_false_iff, bool_decide_eq_true.
  destruct (enabled rn !! e) as [[]|]; naive_solver.
Qed.

(** What a request that arrives did to the handlers' state. *)
Lemma processReq_cases d rn ticks rn_end req heap w o :
  processReq d rn ticks rn_end req heap w = Ret o ->
  (o_heap o = heap /\ o_world o = w /\ o_reply o = failMsg) \/
  (exists servername server rs rs' r,
     connections rn !! rq_endname req = Some servername /\
     servers rn !! servername = Some server /\ heap !! server = Some rs /\
     Server_dispatch rs req w = Ret (rs', o_world o, r) /\
     o_heap o = <[server := rs']> heap /\
     (o_reply o = failMsg \/
      (o_reply o = r /\ enabled rn_end !! rq_endname req = Some true /\
       servers rn_end !! servername = Some server))).
Proof.
  unfold processReq, readEndnameInfo.
  destruct (is_enabled rn (rq_endname req)); [|naive_solver].
  destruct (connections rn !! rq_endname req) as [sn|] eqn:Hc; simpl; [|naive_solver].
  destruct (servers rn !! sn) as [p|] eqn:Hs; [|naive_solver].
  destruct (negb (reliable rn) && dropped (r_req d)); [naive_solver|].
  destruct (heap !! p) as [rs|] eqn:Hh; [|done].
  intros H. inv_res. destruct a as [[rs' w'] r]. right. exists sn, p, rs, rs', r.
  destruct (isServerDead rn_end (rq_endname req) sn p) eqn:Hd.
  - rewrite orb_true_r in H. inv_res. naive_solver.
  - apply isServerDead_false in Hd. rewrite orb_false_r in H.
    repeat case_match; inv_res; naive_solver.
Qed.

Lemma Server_dispatch_serves heap server req h w :
  serves heap server (svcMeth req) h ->
  exists rs rs', heap !! server = Some rs /\
    Server_dispatch rs req w =
      Ret (rs', (h (rq_args req) w).1, ReplyMsg true (Some (h (rq_args req) w).2)).
Proof.
  intros (rs & sn & mn & svc & m & Hh & Hsp & Hsv & Hm & Hf).
  exists rs, (MkServer (services rs) (sr_count rs + 1)). split; [done|].
  unfold Server_dispatch, Service_dispatch. rewrite Hsp. simpl. rewrite Hsv, Hm, Hf.
  by destruct (h (rq_args req) w).
Qed.

(** A request on an enabled end to a registered server of a reliable network that
    stays up while the handler runs is answered. *)
Lemma processReq_up d rn ticks rn_end req heap w server servername h :
  enabled rn !! rq_endname req = Some true ->
  connections rn !! rq_endname req = Some servername ->
  servers rn !! servername = Some server ->
  reliable rn = true ->
  serves heap server (svcMeth req) h ->
  Forall (fun rn' => isServerDead rn' (rq_endname req) servername server = false)
    (rn_end :: ticks) ->
  exists o, processReq d rn ticks rn_end req heap w = Ret o /\
    o_world o = (h (rq_args req) w).1 /\
    o_reply o = ReplyMsg true (Some (h (rq_args req) w).2) /\
    (longReordering rn = false -> o_delay o = 0).
Proof.
  intros He Hc Hs Hrel Hserve [Hend Hticks]%Forall_cons.
  destruct (Server_dispatch_serves heap server req h w Hserve) as (rs&rs'&Hh&Hd).
  unfold processReq, readEndnameInfo, is_enabled. rewrite He, Hc. simpl. rewrite Hs, Hrel. simpl.
  rewrite Hh, Hd. simpl. rewrite (wait_reply_alive _ _ _ _ Hticks), Hend. simpl.
  destruct (longReordering rn && (r_reorder d <? 600)) eqn:Er.
  - eexists; split_and!; [done..|]. intros Hl. by rewrite Hl in Er.
  - by eexists.
Qed.

(** ** Properties *)

(** C40 (at most once).  A call on an end connected to a server that answers the method with
    [h] either never runs [h], or runs it exactly once and tells the caller [false],
    or runs it exactly once and returns its reply: whatever the drops, the delays,
    and the operations on the network while the handler runs. *)
Theorem Call_at_most_once d rn ticks rn_end req heap w server servername h heap' w' r
    (Hconn : connections rn !! rq_endname req = Some servername)
    (Hreg : servers rn !! servername = Some server)
    (Hserves : serves heap server (svcMeth req) h)
    (HCall : Call d rn ticks rn_end req heap w = Ret (heap', w', r)) :
  exists dl, (w', r) = deliver dl (h (rq_args req)) w.
Proof.
  unfold Call in HCall. destruct (nt_done rn).
  { inv_res. by exists Lost. }
  inv_res. destruct a as [hp w1 rep ms by']; simpl in *.
  destruct (processReq_cases _ _ _ _ _ _ _ _ E) as
    [(?&?&?)|(sn&p&rs&rs'&r'&Hc'&Hs'&Hh&Hd&?&Hr)]; simplify_eq/=.
  { by exists Lost. }
  destruct (Server_dispatch_serves heap server req h w Hserves) as (rs0&rs0'&Hh0&Hd0).
  assert (rs0 = rs) as -> by congruence. rewrite Hd in Hd0. simplify_eq.
  destruct Hr as [?|(?&_&_)]; simplify_eq/=.
  - by exists ReplyLost.
  - exists Delivered. simpl. by destruct (h (rq_args req) w).
Qed.

(** No reply from a dead server.  A call never returns [true] when, at the end of the
    handler, the server has been deleted or superseded, or the end disabled. *)
Lemma Call_no_reply_from_dead d rn ticks rn_end req heap w heap' w' r servername server
    (Hconn : connections rn !! rq_endname req = Some servername)
    (Hreg : servers rn !! servername = Some server)
    (HCall : Call d rn ticks rn_end req heap w = Ret (heap', w', r))
    (Hdead : isServerDead rn_end (rq_endname req) servername server = true) :
  r = None.
Proof.
  unfold Call in HCall. destruct (nt_done rn); inv_res; [done|].
  destruct (processReq_cases _ _ _ _ _ _ _ _ E) as
    [(?&?&->)|(sn&p&rs&rs'&r'&Hc'&Hs'&_&_&_&[->|(->&Hen&Hsv)])]; [done..|].
  simplify_eq. assert (isServerDead rn_end (rq_endname req) servername server = false) as ?
    by by apply isServerDead_false. congruence.
Qed.

(** Reliable delivery: on a reliable network that has not been cleaned up, with the end
    enabled and the server registered until the handler returns, the call runs the
    handler and returns its reply. *)
Lemma Call_reliable d rn ticks rn_end req heap w server servername h
    (Hdone : nt_done rn = false)
    (Hen : enabled rn !! rq_endname req = Some true)
    (Hconn : connections rn !! rq_endname req = Some servername)
    (Hreg : servers rn !! servername = Some server)
    (Hrel : reliable rn = true)
    (Hserves : serves heap server (svcMeth req) h)
    (Hup : Forall (fun rn' => isServerDead rn' (rq_endname req) servername server = false)
       (rn_end :: ticks)) :
  exists heap', Call d rn ticks rn_end req heap w =
    Ret (heap', (h (rq_args req) w).1, Some (h (rq_args req) w).2).
Proof.
  destruct (processReq_up d rn ticks rn_end req heap w server servername h)
    as (o&Ho&Hw&Hr&_); try done.
  exists (o_heap o). unfold Call. rewrite Hdone, Ho. simpl. by rewrite Hr, Hw.
Qed.

End network.

(** *** A network with one counter server, to evaluate the definitions on *)

Definition ex_Inc : Z -> Z -> Z * Z := fun p w => (w + p, w + p).
Definition ex_svc : Service :=
  MakeService "Counter"
    [MkMethodDesc "Inc" "" 3 true 0 (fun p w => Ret (ex_Inc p w));
     MkMethodDesc "Bad" "" 2 true 0 (fun p w => Panic Fatal)].
Definition ex_heap : gmap positive Server := {[ 1%positive := AddService ex_svc MakeServer ]}.
Definition ex_net : Network :=
  match MakeEnd "e" MakeNetwork with
  | Ret rn => Enable "e" true (Connect "e" "s" (AddServer "s" 1%positive rn))
  | Panic _ => MakeNetwork
  end.
Definition ex_req : reqMsg := ReqMsg "e" "Counter.Inc" 5.

Lemma ex_serves : serves ex_heap 1%positive (svcMeth ex_req) ex_Inc.
Proof. do 5 eexists. split_and!; [reflexivity..|]. done. Defined.

Lemma Call_at_most_once_witness :
  Call (fun _ => 8) (Dice 50 50 0 0 0) ex_net [] ex_net ex_req ex_heap 2 =
    Ret (<[1%positive := MkServer (services (AddService ex_svc MakeServer)) 1]> ex_heap, 7, Some 7) /\
  exists dl, (7, Some 7) = deliver dl (ex_Inc 5) 2.
Proof.
  split; [reflexivity|].
  eapply (Call_at_most_once (fun _ => 8) (Dice 50 50 0 0 0) ex_net [] ex_net ex_req ex_heap 2
    1%positive "s" ex_Inc); [reflexivity|reflexivity|apply ex_serves|reflexivity].
Defined.

Lemma Call_no_reply_from_dead_ex :
  exists heap', Call (fun _ => 8) (Dice 50 50 0 0 0) ex_net [] (DeleteServer "s" ex_net) ex_req
    ex_heap 2 = Ret (heap', 7, None) /\ @None Z = None.
Proof.
  eexists. split; [reflexivity|].
  eapply (Call_no_reply_from_dead (fun _ => 8) (Dice 50 50 0 0 0) ex_net []
    (DeleteServer "s" ex_net) ex_req ex_heap 2 _ 7 None "s" 1%positive);
  reflexivity.
Defined.

Lemma Call_reliable_ex :
  exists heap', Call (fun _ => 8) (Dice 0 0 0 0 0) ex_net [ex_net] ex_net ex_req ex_heap 2 =
    Ret (heap', 7, Some 7).
Proof.
  apply (Call_reliable (fun _ => 8) (Dice 0 0 0 0 0) ex_net [ex_net] ex_net ex_req ex_heap 2
    1%positive "s" ex_Inc); try reflexivity; [apply ex_serves|].
  repeat constructor.
Defined.

End LabRpc.
