(* ===== verification/KvSrv.v ===== *)
(** * kvsrv: the versioned key/value server and its clerk

    src/src/kvsrv1/rpc/rpc.go, src/src/kvsrv1/server.go, src/src/kvsrv1/client.go.
    The server's handlers are functions of its map; the clerk is the retry loop
    around an RPC whose fate ([LabRpc.delivery]) and whose interleaving with the
    other clients' operations are arguments. *)
From S2P Require Import Prelude LabRpc.
Local Open Scope Z_scope.
Local Open Scope go_scope.

(** ** rpc: the messages *)

Module Rpc.

(** [type Err string] *)
Definition Err : Type := string.
Definition OK : Err := "OK".
Definition ErrNoKey : Err := "ErrNoKey".
Definition ErrVersion : Err := "ErrVersion".
Definition ErrMaybe : Err := "ErrMaybe".
Definition ErrWrongLeader : Err := "ErrWrongLeader".
Definition ErrWrongGroup : Err := "ErrWrongGroup".

(** [type Tversion uint64]: a [Z] in [0, 2^64). *)
Definition Tversion : Type := Z.

Record PutArgs := MkPutArgs { pa_Key : string; pa_Value : string; pa_Version : Tversion }.
Record PutReply := MkPutReply { pr_Err : Err }.
Record GetArgs := MkGetArgs { ga_Key : string }.
Record GetReply := MkGetReply { gr_Value : string; gr_Version : Tversion; gr_Err : Err }.

(** The zero values a reply is allocated with. *)
Definition zero_PutReply : PutReply := MkPutReply "".
Definition zero_GetReply : GetReply := MkGetReply "" 0 "".

#[export] Instance PutReply_eq_dec : EqDecision PutReply.
Proof. solve_decision. Defined.
#[export] Instance GetReply_eq_dec : EqDecision GetReply.
Proof. solve_decision. Defined.

End Rpc.

(** ** The server *)

Module KvServer.
Import Rpc.

Record StoreValue := MkStoreValue { Value : string; Version : Tversion }.
Record KVServer := MkKVServer { kvStore : gmap string StoreValue }.

#[export] Instance StoreValue_eq_dec : EqDecision StoreValue.
Proof. solve_decision. Defined.

Definition MakeKVServer : KVServer := MkKVServer ∅.

Definition Get (kv : KVServer) (args : GetArgs) (reply : GetReply) : GetReply :=
  match kvStore kv !! ga_Key args with
  | Some v => MkGetReply (Value v) (Version v) OK
  | None => MkGetReply (gr_Value reply) (gr_Version reply) ErrNoKey
  end.

Definition Put (kv : KVServer) (args : PutArgs) (reply : PutReply) : KVServer * PutReply :=
  match kvStore kv !! pa_Key args with
  | Some v =>
      if decide (Version v = pa_Version args) then
        (MkKVServer (<[pa_Key args :=
             MkStoreValue (pa_Value args) (u64_add (pa_Version args) 1)]> (kvStore kv)),
         MkPutReply OK)
      else (kv, MkPutReply ErrVersion)
  | None =>
      if decide (pa_Version args = 0) then
        (MkKVServer (<[pa_Key args := MkStoreValue (pa_Value args) 1]> (kvStore kv)),
         MkPutReply OK)
      else (kv, MkPutReply ErrNoKey)
  end.

(** The handlers as the RPC layer runs them: on a freshly allocated reply. *)
Definition handle_Get (args : GetArgs) (kv : KVServer) : KVServer * GetReply :=
  (kv, Get kv args zero_GetReply).
Definition handle_Put (args : PutArgs) (kv : KVServer) : KVServer * PutReply :=
  Put kv args zero_PutReply.

End KvServer.

(** ** The interface of a versioned store

    What a client of the store relies on, whatever implements it. *)

Class KVService (S : Type) := {
  svc_Get : Rpc.GetArgs -> S -> S * Rpc.GetReply;
  svc_Put : Rpc.PutArgs -> S -> S * Rpc.PutReply;
  svc_lookup : S -> string -> option (string * Z);
}.

Class KVServiceLaws (S : Type) `{!KVService S} := {
  law_Get_found a (s : S) v ver :
    svc_lookup s (Rpc.ga_Key a) = Some (v, ver) ->
    svc_Get a s = (s, Rpc.MkGetReply v ver Rpc.OK);
  law_Get_none a (s : S) :
    svc_lookup s (Rpc.ga_Key a) = None ->
    svc_Get a s = (s, Rpc.MkGetReply "" 0 Rpc.ErrNoKey);
  (** A Put succeeds exactly when its version is the key's (0 when absent), and
      then installs the value with the next version. *)
  law_Put_ok a (s : S) :
    default 0 (snd <$> svc_lookup s (Rpc.pa_Key a)) = Rpc.pa_Version a ->
    (svc_Put a s).2 = Rpc.MkPutReply Rpc.OK /\
    forall k, svc_lookup (svc_Put a s).1 k =
      if decide (k = Rpc.pa_Key a)
      then Some (Rpc.pa_Value a, u64_add (Rpc.pa_Version a) 1) else svc_lookup s k;
  (** Otherwise it changes nothing and says why. *)
  law_Put_fail a (s : S) :
    default 0 (snd <$> svc_lookup s (Rpc.pa_Key a)) <> Rpc.pa_Version a ->
    svc_Put a s =
      (s, Rpc.MkPutReply (if svc_lookup s (Rpc.pa_Key a) is Some _ then Rpc.ErrVersion else Rpc.ErrNoKey));
}.

(** ** The clerk *)

Module Clerk.
Import Rpc.

Section clerk.
Context {S : Type} `{!KVService S}.

(** One RPC attempt: what the other clients do to the server before it reaches
    the server, and what the network does to it. *)
Definition attempt : Type := (S -> S) * LabRpc.delivery.

(** [ErrVersion] on a resend means the Put may have been performed. *)
Definition reply_err (retry : bool) (reply : PutReply) : Err :=
  if bool_decide (pr_Err reply = ErrVersion) && retry then ErrMaybe else pr_Err reply.

(** Both loops return [None] as long as no reply has come back. *)
Fixpoint Get (sched : list attempt) (key : string) (s : S) : S * option GetReply :=
  match sched with
  | [] => (s, None)
  | (env, dl) :: sched =>
      match LabRpc.deliver dl (svc_Get (MkGetArgs key)) (env s) with
      | (s, Some reply) => (s, Some reply)
      | (s, None) => Get sched key s
      end
  end.

Fixpoint Put_loop (sched : list attempt) (retry : bool) (key value : string)
    (version : Tversion) (s : S) : S * option Err :=
  match sched with
  | [] => (s, None)
  | (env, dl) :: sched =>
      match LabRpc.deliver dl (svc_Put (MkPutArgs key value version)) (env s) with
      | (s, Some reply) => (s, Some (reply_err retry reply))
      | (s, None) => Put_loop sched true key value version s
      end
  end.

Definition Put (sched : list attempt) (key value : string) (version : Tversion) (s : S) :
    S * option Err :=
  Put_loop sched false key value version s.

End clerk.
End Clerk.

(** ** The server implements the interface *)

#[export] Instance KVServer_service : KVService KvServer.KVServer := {
  svc_Get := KvServer.handle_Get;
  svc_Put := KvServer.handle_Put;
  svc_lookup kv k :=
    (fun v => (KvServer.Value v, KvServer.Version v)) <$> KvServer.kvStore kv !! k;
}.

#[export] Instance KVServer_laws : KVServiceLaws KvServer.KVServer.
Proof.
  split; simpl; unfold KvServer.handle_Get, KvServer.Get, KvServer.handle_Put, KvServer.Put.
  - intros a s v ver H. destruct (KvServer.kvStore s !! _); naive_solver.
  - intros a s H. destruct (KvServer.kvStore s !! _); naive_solver.
  - intros a s H. destruct (KvServer.kvStore s !! Rpc.pa_Key a) as [[v n]|] eqn:E; simpl in *.
    + subst. rewrite decide_True by done. split; [done|]. intros k. simpl.
      rewrite lookup_insert. repeat case_decide; simplify_eq; done.
    + rewrite decide_True by done. split; [done|]. intros k. simpl.
      rewrite lookup_insert, <- H. repeat case_decide; simplify_eq; done.
  - intros a s H. destruct (KvServer.kvStore s !! Rpc.pa_Key a) as [[v n]|] eqn:E; simpl in *;
      by rewrite decide_False by congruence.
Qed.

(** ** Reasoning about any implementation *)

Section interface.
Context {S : Type} `{!KVService S} `{!KVServiceLaws S}.
Implicit Types (s : S) (k : string) (a : Rpc.PutArgs).

(** The version of a key, 0 for an absent one. *)
Definition version s k : Z := default 0 (snd <$> svc_lookup s k).

(** The server after a sequence of Puts. *)
Definition puts (l : list Rpc.PutArgs) s : S := foldl (fun s a => (svc_Put a s).1) s l.

Lemma Put_OK_iff a s :
  Rpc.pr_Err (svc_Put a s).2 = Rpc.OK <-> version s (Rpc.pa_Key a) = Rpc.pa_Version a.
Proof.
  unfold version. destruct (decide (default 0 (snd <$> svc_lookup s (Rpc.pa_Key a)) = Rpc.pa_Version a))
    as [E|E].
  - destruct (law_Put_ok a s E) as [-> _]. done.
  - rewrite (law_Put_fail a s E). split; [|done]. simpl. by case_match.
Qed.

Lemma Put_version a s k :
  version (svc_Put a s).1 k = version s k \/
  (Rpc.pr_Err (svc_Put a s).2 = Rpc.OK /\ k = Rpc.pa_Key a /\
   version (svc_Put a s).1 k = u64_add (version s k) 1).
Proof.
  destruct (decide (version s (Rpc.pa_Key a) = Rpc.pa_Version a)) as [E|E].
  - destruct (law_Put_ok a s E) as [HOK Hl]. unfold version at 1 3. rewrite Hl, HOK.
    case_decide; [right|by left]. subst. simpl. by rewrite E.
  - rewrite (law_Put_fail a s E). by left.
Qed.

Lemma Put_keeps a s k : is_Some (svc_lookup s k) -> is_Some (svc_lookup (svc_Put a s).1 k).
Proof.
  intros Hk. destruct (decide (version s (Rpc.pa_Key a) = Rpc.pa_Version a)) as [E|E].
  - destruct (law_Put_ok a s E) as [_ Hl]. rewrite Hl. by case_decide.
  - by rewrite (law_Put_fail a s E).
Qed.

Lemma Put_version_le a s k :
  0 <= version s k < 2 ^ 64 - 1 ->
  version s k <= version (svc_Put a s).1 k <= version s k + 1.
Proof.
  intros Hv. destruct (Put_version a s k) as [->|(_&_&->)]; [lia|].
  rewrite u64_add_small by lia. lia.
Qed.

Lemma puts_version_le l s k :
  0 <= version s k -> version s k + zlen l < 2 ^ 64 ->
  version s k <= version (puts l s) k <= version s k + zlen l.
Proof.
  revert s. induction l as [|a l IH]; intros s H0 Hlen; simpl.
  { rewrite zlen_nil. lia. }
  rewrite zlen_cons in Hlen. pose proof (zlen_nonneg l).
  pose proof (Put_version_le a s k ltac:(lia)) as Hs.
  rewrite zlen_cons. pose proof (IH (svc_Put a s).1). lia.
Qed.

Lemma puts_keeps l s k : is_Some (svc_lookup s k) -> is_Some (svc_lookup (puts l s) k).
Proof. revert s. induction l as [|a l IH]; intros s Hk; simpl; [done|]. by apply IH, Put_keeps. Qed.

Lemma puts_app l l' s : puts (l ++ l') s = puts l' (puts l s).
Proof. apply foldl_app. Qed.

End interface.

(** *** Counting the successful executions of one client's Puts

    [S * nat] is the server with the number of times a Put issued through the
    service (not those of the environment) succeeded. *)

#[export] Instance counted_service {S} `{!KVService S} : KVService (S * nat) := {
  svc_Get a p := let '(s, r) := svc_Get a p.1 in ((s, p.2), r);
  svc_Put a p :=
    let '(s, r) := svc_Put a p.1 in
    ((s, if decide (Rpc.pr_Err r = Rpc.OK) then Datatypes.S p.2 else p.2), r);
  svc_lookup p k := svc_lookup p.1 k;
}.

Section clerk_facts.
Context {S : Type} `{!KVService S} `{!KVServiceLaws S}.

(** The other clients' Puts between two attempts. *)
Definition others (l : list Rpc.PutArgs) : S * nat -> S * nat := fun p => (puts l p.1, p.2).

Definition schedule (sched : list (list Rpc.PutArgs * LabRpc.delivery)) : list (@Clerk.attempt (S * nat)) :=
  prod_map others id <$> sched.

Definition n_others (sched : list (list Rpc.PutArgs * LabRpc.delivery)) : Z :=
  zlen (concat sched.*1).

Lemma n_others_cons l dl sched : n_others ((l, dl) :: sched) = zlen l + n_others sched.
Proof. unfold n_others. rewrite fmap_cons. simpl. by rewrite zlen_app. Qed.

Lemma n_others_nonneg sched : 0 <= n_others sched.
Proof. apply zlen_nonneg. Qed.

(** Once the clerk's own Put has been executed, its resends fail with a version
    error, whatever the others do. *)
Lemma Put_loop_executed sched key value v s n p r :
  0 <= v -> is_Some (svc_lookup s key) -> v < version s key ->
  version s key + n_others sched < 2 ^ 64 ->
  Clerk.Put_loop (schedule sched) true key value v (s, n) = (p, Some r) ->
  r = Rpc.ErrMaybe /\ p.2 = n.
Proof.
  intros Hv. revert s. induction sched as [|[l dl] sched IH]; intros s Hk Hver Hb; simpl; [done|].
  rewrite n_others_cons in Hb. pose proof (n_others_nonneg sched). pose proof (zlen_nonneg l).
  pose proof (puts_version_le l s key) as Hl.
  pose proof (puts_keeps l s key Hk) as [x Hk'].
  unfold others at 1. simpl.
  assert (version (puts l s) key <> v) as Hne by lia.
  destruct dl; simpl; rewrite ?(law_Put_fail (Rpc.MkPutArgs key value v) (puts l s) Hne); simpl;
    rewrite ?Hk'; simpl.
  1,2: apply IH; [by rewrite Hk' | lia | lia].
  by intros [= <- <-].
Qed.

Lemma Put_loop_cases sched retry key value v s n p r :
  0 <= v -> v + 1 + n_others sched < 2 ^ 64 ->
  Clerk.Put_loop (schedule sched) retry key value v (s, n) = (p, Some r) ->
  (r = Rpc.OK /\ p.2 = Datatypes.S n) \/
  (r = Rpc.ErrMaybe /\ (p.2 = n \/ p.2 = Datatypes.S n)) \/
  ((r = Rpc.ErrVersion \/ r = Rpc.ErrNoKey) /\ p.2 = n).
Proof.
  intros Hv. revert s retry. induction sched as [|[l dl] sched IH]; intros s retry Hb; simpl; [done|].
  rewrite n_others_cons in Hb. pose proof (n_others_nonneg sched). pose proof (zlen_nonneg l).
  unfold others at 1. simpl. set (s1 := puts l s).
  set (a := Rpc.MkPutArgs key value v). pose proof (Put_OK_iff a s1) as HOK.
  destruct (decide (version s1 key = v)) as [E|E].
  - destruct (law_Put_ok a s1 E) as [Hr Hl].
    clear HOK. destruct (svc_Put a s1) as [s2 r2] eqn:Heq. simpl in Hr, Hl. subst r2.
    destruct dl; simpl; rewrite ?Heq; simpl.
    + apply IH. lia.
    + intros HP. apply Put_loop_executed in HP as [-> ->]; [naive_solver|done|..].
      * rewrite Hl. simpl. by rewrite decide_True.
      * unfold version. rewrite Hl. simpl. rewrite decide_True by done. simpl.
        rewrite u64_add_small by lia. lia.
      * unfold version. rewrite Hl. simpl. rewrite decide_True by done. simpl.
        rewrite u64_add_small by lia. lia.
    + intros [= <- <-]. by left.
  - destruct dl; simpl; rewrite ?(law_Put_fail a s1 E); simpl.
    + apply IH. lia.
    + destruct (decide _) as [Hc|_]; [by case_match|]. apply IH. lia.
    + destruct (svc_lookup s1 key); simpl; [|naive_solver].
      destruct retry; simpl; naive_solver.
Qed.
End clerk_facts.

(** ** Properties *)

(** Compare-and-swap: of two Puts to a key at the same version at most one succeeds:
    after a Put has succeeded at version [v], no later Put at [v] does (for fewer
    than 2^64 operations, after which the uint64 version wraps around). *)
Lemma Put_once_per_version (kv : KvServer.KVServer) (a b : Rpc.PutArgs) (l : list Rpc.PutArgs)
    (Hv : is_u64 (Rpc.pa_Version a))
    (Hkey : Rpc.pa_Key b = Rpc.pa_Key a) (Hver : Rpc.pa_Version b = Rpc.pa_Version a)
    (Hwrap : Rpc.pa_Version a + 1 + zlen l < 2 ^ 64)
    (Ha : Rpc.pr_Err (KvServer.handle_Put a kv).2 = Rpc.OK) :
  Rpc.pr_Err (KvServer.handle_Put b (puts l (KvServer.handle_Put a kv).1)).2 <> Rpc.OK.
Proof.
  intros Hb. pose proof (proj1 (Put_OK_iff a kv) Ha) as Hva.
  pose proof (proj1 (Put_OK_iff b (puts l (svc_Put a kv).1)) Hb) as Hvb.
  destruct (law_Put_ok a kv Hva) as [_ Hl].
  assert (version (svc_Put a kv).1 (Rpc.pa_Key a) = Rpc.pa_Version a + 1) as H1.
  { unfold version. rewrite Hl, decide_True by done. unfold is_u64 in Hv. pose proof (zlen_nonneg l).
    simpl. rewrite u64_add_small; lia. }
  unfold is_u64 in Hv. pose proof (puts_version_le l (svc_Put a kv).1 (Rpc.pa_Key a)) as Hle.
  rewrite Hkey, Hver in Hvb. lia.
Qed.

(** C36 (the clerk's answers are true).  Whatever the network drops and whatever
    the other clients put in between, when the clerk's Put returns [OK] the server
    executed it successfully exactly once; when it returns [ErrVersion] or
    [ErrNoKey] it was never executed successfully; otherwise it returns [ErrMaybe],
    and it was executed successfully at most once. *)
Theorem Clerk_Put_truthful (sched : list (list Rpc.PutArgs * LabRpc.delivery))
    (key value : string) (v : Z) (kv kv' : KvServer.KVServer) (n : nat) (r : Rpc.Err)
    (Hv : 0 <= v) (Hwrap : v + 1 + n_others sched < 2 ^ 64)
    (HPut : Clerk.Put (schedule sched) key value v (kv, 0%nat) = ((kv', n), Some r)) :
  (r = Rpc.OK /\ n = 1%nat) \/
  (r = Rpc.ErrMaybe /\ (n <= 1)%nat) \/
  ((r = Rpc.ErrVersion \/ r = Rpc.ErrNoKey) /\ n = 0%nat).
Proof.
  destruct (Put_loop_cases sched false key value v kv 0 _ r Hv Hwrap HPut)
    as [[??]|[[? [?|?]]|[??]]]; simplify_eq/=; auto with lia.
Qed.

(** The clerk returns: the retry loops end as soon as one reply comes back: the
    Get and the Put of the clerk return if some attempt is delivered, and keep
    retrying otherwise. *)
Lemma Clerk_returns_iff_delivered (sched : list (@Clerk.attempt KvServer.KVServer))
    (key value : string) (v : Z) (kv : KvServer.KVServer) :
  (is_Some (Clerk.Put sched key value v kv).2 <-> LabRpc.Delivered ∈ sched.*2) /\
  (is_Some (Clerk.Get sched key kv).2 <-> LabRpc.Delivered ∈ sched.*2).
Proof.
  split.
  - unfold Clerk.Put. generalize false as retry. revert kv.
    induction sched as [|[env []] sched IH]; intros kv retry; simpl.
    + split; [by intros [? ?]|by intros ?%elem_of_nil].
    + rewrite IH. set_solver.
    + rewrite IH. set_solver.
    + split; [set_solver|]. intros _. repeat case_match; simplify_eq/=; done.
  - revert kv. induction sched as [|[env []] sched IH]; intros kv; simpl.
    + split; [by intros [? ?]|by intros ?%elem_of_nil].
    + rewrite IH. set_solver.
    + rewrite IH. set_solver.
    + split; [set_solver|]. by intros _.
Qed.

(** *** Witnesses *)

Lemma Put_once_per_version_ex :
  Rpc.pr_Err (KvServer.handle_Put (Rpc.MkPutArgs "k" "b" 0)
    (puts [Rpc.MkPutArgs "k" "c" 1]
       (KvServer.handle_Put (Rpc.MkPutArgs "k" "a" 0) KvServer.MakeKVServer).1)).2 <> Rpc.OK.
Proof.
  apply (Put_once_per_version KvServer.MakeKVServer (Rpc.MkPutArgs "k" "a" 0)
    (Rpc.MkPutArgs "k" "b" 0) [Rpc.MkPutArgs "k" "c" 1]); try done.
Defined.

(** The reply of the executed first attempt is lost; another client then puts; the
    resend gets [ErrVersion]. *)
Lemma Clerk_Put_truthful_witness :
  let sched := [([], LabRpc.Lost); ([], LabRpc.ReplyLost);
                ([Rpc.MkPutArgs "k" "x" 1], LabRpc.Delivered)] in
  (Rpc.ErrMaybe = Rpc.OK /\ 1%nat = 1%nat) \/
  (Rpc.ErrMaybe = Rpc.ErrMaybe /\ (1 <= 1)%nat) \/
  ((Rpc.ErrMaybe = Rpc.ErrVersion \/ Rpc.ErrMaybe = Rpc.ErrNoKey) /\ 1%nat = 0%nat).
Proof.
  intros sched.
  eapply (Clerk_Put_truthful sched "k" "v" 0 KvServer.MakeKVServer _ 1 Rpc.ErrMaybe);
    [done|done|reflexivity].
Defined.
