(* ===== verification/KvModel.v ===== *)
(** * models1: the sequential specification of the store (src/src/models1/kv.go)

    The model the linearizability checker tests histories against, the operations
    kvtest1 records (src/src/kvtest1/porcupine.go), and the refinement of the model
    by the server. *)
From S2P Require Import Prelude LabRpc KvSrv.
Local Open Scope Z_scope.
Local Open Scope go_scope.

Module KvModel.
Import Rpc KvServer.

Record KvInput := MkKvInput { in_Op : Z; in_Key : string; in_Value : string; in_Version : Z }.
Record KvOutput := MkKvOutput { out_Value : string; out_Version : Z; out_Err : string }.
Record KvState := MkKvState { st_Value : string; st_Version : Z }.

(** The checker's state is an [interface{}]: a [KvState], or the string
    ["<invalid>"] [Step] answers an unknown operation with. *)
Inductive mstate := St (s : KvState) | Invalid.

(** [porcupine.Operation] *)
Record Operation := MkOperation {
  op_Input : KvInput;
  op_Output : KvOutput;
  op_Call : Z;
  op_Return : Z;
  op_ClientId : Z;
}.

Definition Init : mstate := St (MkKvState "" 0).

(** [state.(KvState)] panics when the state is not a [KvState]. *)
Definition Step (state : mstate) (inp : KvInput) (out : KvOutput) : res (bool * mstate) :=
  match state with
  | Invalid => Panic NilDereference
  | St st =>
      if decide (in_Op inp = 0) then
        Ret (bool_decide (out_Value out = st_Value st), state)
      else if decide (in_Op inp = 1) then
        if decide (st_Version st = in_Version inp) then
          Ret (bool_decide (out_Err out = "OK") || bool_decide (out_Err out = "ErrMaybe"),
               St (MkKvState (in_Value inp) (u64_add (st_Version st) 1)))
        else
          Ret (bool_decide (out_Err out = "ErrVersion") || bool_decide (out_Err out = "ErrMaybe"),
               St st)
      else Ret (false, Invalid)
  end.

(** [sort.Strings] *)
Definition string_le (a b : string) : Prop := String.leb a b = true.
#[export] Instance string_le_dec : RelDecision string_le.
Proof. intros a b. unfold string_le. apply _. Defined.

(** The histories of the keys, by key. *)
Definition add_op (m : gmap string (list Operation)) (v : Operation) : gmap string (list Operation) :=
  <[in_Key (op_Input v) := default [] (m !! in_Key (op_Input v)) ++ [v]]> m.

Definition Partition (history : list Operation) : list (list Operation) :=
  let m := foldl add_op ∅ history in
  let keys := merge_sort string_le (elements (dom m)) in
  (fun k => default [] (m !! k)) <$> keys.

(** What [kvtest.Get] and [kvtest.Put] append to the operation log: the call was made at
    [start] and had returned at [stop]. *)
Definition get_input (key : string) : KvInput := MkKvInput 0 key "" 0.
Definition get_output (r : GetReply) : KvOutput := MkKvOutput (gr_Value r) (gr_Version r) (gr_Err r).
Definition put_input (a : PutArgs) : KvInput := MkKvInput 1 (pa_Key a) (pa_Value a) (pa_Version a).
Definition put_output (err : Err) : KvOutput := MkKvOutput "" 0 err.
Definition get_op (key : string) (r : GetReply) (start stop cli : Z) : Operation :=
  MkOperation (get_input key) (get_output r) start stop cli.
Definition put_op (a : PutArgs) (err : Err) (start stop cli : Z) : Operation :=
  MkOperation (put_input a) (put_output err) start stop cli.

(** A sequential history is legal when every step is. *)
Fixpoint legal (state : mstate) (h : list Operation) : bool :=
  match h with
  | [] => true
  | op :: h =>
      match Step state (op_Input op) (op_Output op) with
      | Ret (b, state') => b && legal state' h
      | Panic _ => false
      end
  end.

(** ** The server as an implementation of the model *)

Inductive request := RGet (key : string) | RPut (args : PutArgs).

(** Serve a request at time [t] and log it. *)
Definition serve (t : Z) (kv : KVServer) (q : request) : KVServer * Operation :=
  match q with
  | RGet key => (kv, get_op key (Get kv (MkGetArgs key) zero_GetReply) t t 0)
  | RPut a =>
      let '(kv', r) := Put kv a zero_PutReply in
      (kv', put_op a (pr_Err r) t t 0)
  end.

Fixpoint serve_all (t : Z) (kv : KVServer) (qs : list request) : KVServer * list Operation :=
  match qs with
  | [] => (kv, [])
  | q :: qs =>
      let '(kv, op) := serve t kv q in
      let '(kv, h) := serve_all (t + 1) kv qs in
      (kv, op :: h)
  end.

(** The model's state of one key. *)
Definition abs (kv : KVServer) (k : string) : mstate :=
  match kvStore kv !! k with
  | Some v => St (MkKvState (Value v) (Version v))
  | None => Init
  end.

(** ** Lemmas *)

Lemma serve_step t kv q :
  out_Err (op_Output (serve t kv q).2) <> ErrNoKey \/ in_Op (op_Input (serve t kv q).2) = 0 ->
  let op := (serve t kv q).2 in
  Step (abs kv (in_Key (op_Input op))) (op_Input op) (op_Output op)
    = Ret (true, abs (serve t kv q).1 (in_Key (op_Input op))).
Proof.
  destruct q as [key|a]; simpl; unfold Get, Put, abs.
  - intros _. simpl. destruct (kvStore kv !! key); simpl; [by rewrite bool_decide_eq_true_2|done].
  - destruct (kvStore kv !! pa_Key a) as [v|] eqn:E; case_decide; simpl;
      rewrite ?lookup_insert_eq, ?E; simpl; rewrite ?decide_True, ?decide_False by congruence;
      rewrite ?bool_decide_eq_true_2 by done; simpl; try done.
    + intros _. do 4 f_equal. congruence.
    + intros [?|?]; [done|lia].
Qed.

Lemma serve_other t kv q k :
  k <> in_Key (op_Input (serve t kv q).2) -> abs (serve t kv q).1 k = abs kv k.
Proof.
  destruct q as [key|a]; simpl; [done|]. unfold Put, abs.
  destruct (kvStore kv !! pa_Key a); case_decide; simpl; intros; by rewrite ?lookup_insert_ne by done.
Qed.

(** No Put of the log was answered [ErrNoKey]. *)
Definition no_nokey (h : list Operation) : Prop :=
  Forall (fun op => out_Err (op_Output op) <> ErrNoKey \/ in_Op (op_Input op) = 0) h.

(** The part of a log about one key is legal from the model's state of that key. *)
Lemma serve_all_legal t kv qs k :
  no_nokey (serve_all t kv qs).2 ->
  legal (abs kv k) (filter (fun op => in_Key (op_Input op) = k) (serve_all t kv qs).2) = true.
Proof.
  revert t kv. induction qs as [|q qs IH]; intros t kv; simpl; [done|].
  pose proof (serve_step t kv q) as Hs. pose proof (serve_other t kv q k) as Ho.
  destruct (serve t kv q) as [kv1 op] eqn:E1. simpl in *.
  specialize (IH (t + 1) kv1). destruct (serve_all (t + 1) kv1 qs) as [kv2 h] eqn:E2. simpl in *.
  intros [Hop Hh]%Forall_cons. rewrite filter_cons. case_decide as Hk.
  - subst k. simpl. rewrite (Hs Hop). simpl. by apply IH.
  - rewrite <- Ho by done. by apply IH.
Qed.

Lemma foldl_add_op h m k :
  default [] (foldl add_op m h !! k)
    = default [] (m !! k) ++ filter (fun op => in_Key (op_Input op) = k) h.
Proof.
  revert m. induction h as [|v h IH]; intros m; simpl; [by rewrite app_nil_r|].
  rewrite IH. unfold add_op. rewrite filter_cons, lookup_insert.
  repeat case_decide; simplify_eq; simpl; by rewrite <- ?app_assoc.
Qed.

(** ** Properties *)

(** Refinement of the sequential specification.  The log of any sequence of Gets and
    Puts served by a fresh server, in which no Put was answered [ErrNoKey], is
    accepted by the model: each per-key history [Partition] makes of it is a legal
    run of [Step] from [Init]. *)
Lemma server_refines_model (qs : list request)
    (Hnk : no_nokey (serve_all 0 MakeKVServer qs).2) :
  Forall (fun h => legal Init h = true) (Partition (serve_all 0 MakeKVServer qs).2).
Proof.
  unfold Partition. apply Forall_fmap, Forall_forall. intros k _. simpl.
  rewrite foldl_add_op, lookup_empty. simpl.
  change Init with (abs MakeKVServer k). by apply serve_all_legal.
Qed.

(** A divergence of the model from the server.  The server answers a Put to an
    absent key at a version other than 0 with [ErrNoKey], as its comment says; the
    model accepts only [ErrVersion] or [ErrMaybe] there, so it rejects that correct
    reply. *)
Lemma model_rejects_ErrNoKey (kv : KVServer) (a : PutArgs)
    (Habsent : kvStore kv !! pa_Key a = None) (Hver : pa_Version a <> 0) :
  let '(kv', r) := Put kv a zero_PutReply in
  kv' = kv /\ pr_Err r = ErrNoKey /\
  Step (abs kv (pa_Key a)) (put_input a) (put_output (pr_Err r)) = Ret (false, Init).
Proof.
  unfold Put, abs. rewrite Habsent. case_decide; [done|]. simpl.
  by rewrite decide_False by (intros ?; by apply Hver).
Qed.

(** *** Witnesses *)

Definition ex_requests : list request :=
  [RPut (MkPutArgs "a" "1" 0); RGet "a"; RPut (MkPutArgs "b" "x" 0);
   RPut (MkPutArgs "a" "2" 7); RPut (MkPutArgs "a" "2" 1); RGet "b"; RGet "a"].

Lemma server_refines_model_ex :
  length (Partition (serve_all 0 MakeKVServer ex_requests).2) = 2%nat /\
  Forall (fun h => legal Init h = true) (Partition (serve_all 0 MakeKVServer ex_requests).2).
Proof.
  split; [vm_compute; reflexivity|]. apply (server_refines_model ex_requests).
  unfold no_nokey. vm_compute. repeat apply Forall_cons_2; try apply Forall_nil_2;
    solve [by left | by right].
Defined.

Lemma model_rejects_ErrNoKey_ex :
  Put MakeKVServer (MkPutArgs "a" "1" 3) zero_PutReply = (MakeKVServer, MkPutReply ErrNoKey) /\
  pr_Err (MkPutReply ErrNoKey) = ErrNoKey /\
  Step Init (MkKvInput 1 "a" "1" 3) (MkKvOutput "" 0 ErrNoKey) = Ret (false, Init).
Proof.
  split; [reflexivity|].
  apply (model_rejects_ErrNoKey MakeKVServer (MkPutArgs "a" "1" 3)); [reflexivity|done].
Defined.

End KvModel.
