(* ===== verification/Lock.v ===== *)
(** * lock: a lock on top of the versioned store (src/src/kvsrv1/lock/lock.go)

    Each client runs [Acquire] and [Release], whose [Get]s and [Put]s are the
    clerk's retry loops; the clients interleave at the level of single RPC attempts.
    Everything is stated against the interface [KVService], not against a server. *)
From S2P Require Import Prelude LabRpc KvSrv.
Local Open Scope Z_scope.

Module Lock.
Import Rpc.

Record LockState := MkLockState { name : string; owned : bool; myID : string }.

(** [rv] is what [kvtest.RandValue(8)] returned. *)
Definition MakeLock (l rv : string) : LockState := MkLockState l false ("lockclient" +:+ rv).

Definition set_owned (o : bool) (lk : LockState) : LockState := MkLockState (name lk) o (myID lk).

(** Where a client is: outside a call, or in a call of [ck.Get] or [ck.Put] of
    [Acquire] or [Release] ([retry] is the local variable of the clerk's Put). *)
Inductive pc :=
| Idle
| AcqGet
| AcqPut (version : Tversion) (retry : bool)
| RelGet
| RelPut (version : Tversion) (retry : bool).

#[export] Instance pc_eq_dec : EqDecision pc.
Proof. solve_decision. Defined.

Record client := MkClient { lk : LockState; at_pc : pc }.

(** *** Acquire: the body of the loop, cut at its two RPCs *)

Definition acquire_got (lk : LockState) (r : GetReply) : LockState * pc :=
  if decide (gr_Err r = OK) then
    if decide (gr_Value r = "") then (lk, AcqPut (gr_Version r) false)
    else if decide (gr_Value r = myID lk) then (set_owned true lk, Idle)
    else (lk, AcqGet)
  else if decide (gr_Err r = ErrNoKey) then (lk, AcqPut 0 false)
  else (lk, AcqGet).

(** Both after [ErrMaybe] and after the other errors the loop starts again. *)
Definition acquire_put (lk : LockState) (err : Err) : LockState * pc :=
  if decide (err = OK) then (set_owned true lk, Idle)
  else if decide (err = ErrMaybe) then (lk, AcqGet)
  else (lk, AcqGet).

(** *** Release *)

Definition release_start (lk : LockState) : LockState * pc :=
  if negb (owned lk) then (lk, Idle) else (lk, RelGet).

Definition release_got (lk : LockState) (r : GetReply) : LockState * pc :=
  if decide (gr_Err r = OK) then
    if decide (gr_Value r = myID lk) then (lk, RelPut (gr_Version r) false)
    else (set_owned false lk, Idle)
  else if decide (gr_Err r = ErrNoKey) then (set_owned false lk, Idle)
  else (lk, RelGet).

Definition release_put (lk : LockState) (err : Err) : LockState * pc :=
  if decide (err = OK) then (set_owned false lk, Idle)
  else if decide (err = ErrMaybe) then (lk, RelGet)
  else (set_owned false lk, Idle).

(** *** The system *)

Section system.
Context {S : Type} `{!KVService S}.

Definition of_pair (p : LockState * pc) : client := MkClient p.1 p.2.

(** One RPC attempt of a client that is inside a call. *)
Definition attempt (dl : LabRpc.delivery) (c : client) (s : S) : S * client :=
  match at_pc c with
  | Idle => (s, c)
  | AcqGet | RelGet =>
      match LabRpc.deliver dl (svc_Get (MkGetArgs (name (lk c)))) s with
      | (s, None) => (s, c)
      | (s, Some r) =>
          (s, of_pair (if decide (at_pc c = AcqGet) then acquire_got (lk c) r
                       else release_got (lk c) r))
      end
  | AcqPut v retry =>
      match LabRpc.deliver dl (svc_Put (MkPutArgs (name (lk c)) (myID (lk c)) v)) s with
      | (s, None) => (s, MkClient (lk c) (AcqPut v true))
      | (s, Some r) => (s, of_pair (acquire_put (lk c) (Clerk.reply_err retry r)))
      end
  | RelPut v retry =>
      match LabRpc.deliver dl (svc_Put (MkPutArgs (name (lk c)) "" v)) s with
      | (s, None) => (s, MkClient (lk c) (RelPut v true))
      | (s, Some r) => (s, of_pair (release_put (lk c) (Clerk.reply_err retry r)))
      end
  end.

Record state := MkState { server : S; clients : gmap nat client }.

(** A client calls [Acquire] or [Release], or the network decides the fate of the
    attempt a client is waiting for, or someone uses another key of the store. *)
Inductive step : state -> state -> Prop :=
| step_acquire s cs i c :
    cs !! i = Some c -> at_pc c = Idle ->
    step (MkState s cs) (MkState s (<[i := MkClient (lk c) AcqGet]> cs))
| step_release s cs i c :
    cs !! i = Some c -> at_pc c = Idle ->
    step (MkState s cs) (MkState s (<[i := of_pair (release_start (lk c))]> cs))
| step_attempt s cs i c dl s' c' :
    cs !! i = Some c -> attempt dl c s = (s', c') ->
    step (MkState s cs) (MkState s' (<[i := c']> cs))
| step_other s cs a :
    (forall i c, cs !! i = Some c -> name (lk c) <> pa_Key a) ->
    step (MkState s cs) (MkState (svc_Put a s).1 cs).

(** The value under the lock's key, empty when the key is absent. *)
Definition holder (s : S) (l : string) : string := default "" (fst <$> svc_lookup s l).

(** Clients of the lock [l] with distinct names, none inside a call, and a store in
    which the key of the lock is not present. *)
Definition initial (l : string) (st : state) : Prop :=
  svc_lookup (server st) l = None /\
  (forall i c, clients st !! i = Some c ->
     at_pc c = Idle /\ owned (lk c) = false /\ name (lk c) = l /\ myID (lk c) <> "") /\
  (forall i j c d, clients st !! i = Some c -> clients st !! j = Some d ->
     i <> j -> myID (lk c) <> myID (lk d)).

(** Between calls: the client believes it owns the lock. *)
Definition holds (st : state) (i : nat) : Prop :=
  exists c, clients st !! i = Some c /\ at_pc c = Idle /\ owned (lk c) = true.

(** ** The invariant *)

Section invariant.
Context `{!KVServiceLaws S} (l : string).

Definition client_ok (s : S) (c : client) : Prop :=
  name (lk c) = l /\ myID (lk c) <> "" /\
  match at_pc c with
  | Idle => owned (lk c) = true <-> holder s l = myID (lk c)
  | AcqGet | RelGet => True
  | AcqPut v _ => 0 <= v <= version s l /\ (v = version s l -> holder s l = "")
  | RelPut v _ =>
      0 <= v <= version s l /\
      (v = version s l -> holder s l = myID (lk c)) /\
      (holder s l = myID (lk c) -> v = version s l)
  end.

(** What an attempt of a client with name [me] may do to the store. *)
Definition store_step (me : string) (s s' : S) : Prop :=
  (version s' l = version s l /\ holder s' l = holder s l) \/
  (version s' l = version s l + 1 /\
   ((holder s l = "" /\ holder s' l = me) \/ (holder s l = me /\ holder s' l = ""))).

Definition inv (n : Z) (st : state) : Prop :=
  0 <= version (server st) l <= n /\
  (forall i c, clients st !! i = Some c -> client_ok (server st) c) /\
  (forall i j c d, clients st !! i = Some c -> clients st !! j = Some d ->
     i <> j -> myID (lk c) <> myID (lk d)).

Lemma Put_effect s w v :
  0 <= version s l < 2 ^ 64 - 1 ->
  (version s l = v /\
   exists s', svc_Put (MkPutArgs l w v) s = (s', MkPutReply OK) /\
     version s' l = v + 1 /\ holder s' l = w) \/
  (version s l <> v /\
   exists e, svc_Put (MkPutArgs l w v) s = (s, MkPutReply e) /\ e <> OK).
Proof.
  intros Hb. destruct (decide (version s l = v)) as [E|E]; [left|right]; (split; [done|]).
  - destruct (law_Put_ok (MkPutArgs l w v) s E) as [HOK Hl].
    destruct (svc_Put _ s) as [s' r] eqn:Ep. simpl in *. exists s'. subst r. split; [done|].
    unfold version, holder. rewrite Hl, decide_True by done. simpl.
    split; [|done]. rewrite u64_add_small; lia.
  - rewrite (law_Put_fail (MkPutArgs l w v) s E). simpl.
    eexists. split; [done|]. by case_match.
Qed.

Lemma Get_effect s :
  exists r, svc_Get (MkGetArgs l) s = (s, r) /\
    ((gr_Err r = OK /\ gr_Value r = holder s l /\ gr_Version r = version s l) \/
     (gr_Err r = ErrNoKey /\ holder s l = "" /\ version s l = 0)).
Proof.
  unfold version, holder. destruct (svc_lookup s l) as [[v ver]|] eqn:E.
  - rewrite (law_Get_found (MkGetArgs l) s v ver E). eexists. split; [done|]. by left.
  - rewrite (law_Get_none (MkGetArgs l) s E). eexists. split; [done|]. by right.
Qed.

Lemma reply_err_OK retry e : Clerk.reply_err retry (MkPutReply e) = OK <-> e = OK.
Proof.
  unfold Clerk.reply_err. simpl. case_match eqn:E; [|done].
  split; [done|intros ->]. by destruct retry.
Qed.

(** A client keeps its well-formedness through one of its own attempts. *)
Lemma attempt_ok dl c s s' c' :
  0 <= version s l < 2 ^ 64 - 1 -> client_ok s c -> attempt dl c s = (s', c') ->
  client_ok s' c' /\ myID (lk c') = myID (lk c) /\ store_step (myID (lk c)) s s'.
Proof.
  intros Hb (Hn & Hid & Hpc). unfold attempt, store_step.
  destruct (at_pc c) as [| |v retry| |v retry] eqn:Epc; rewrite ?Hn.
  - intros [= <- <-]. rewrite <- Hn in *. unfold client_ok. rewrite Epc. naive_solver.
  - destruct (Get_effect s) as (r & Hr & Hcase).
    destruct dl; simpl; rewrite ?Hr; simpl; intros [= <- <-]; unfold client_ok; simpl;
      rewrite ?Epc; [naive_solver..|].
    unfold acquire_got. destruct Hcase as [(->&->&->)|(->&->&->)]; simpl.
    + repeat case_decide; simpl; naive_solver lia.
    + naive_solver lia.
  - destruct (Put_effect s (myID (lk c)) v Hb) as [(Hv & s1 & Hr & Hver & Hho)|(Hv & e & Hr & He)].
    + destruct dl; simpl; rewrite ?Hr; simpl; intros [= <- <-]; unfold client_ok; simpl;
        naive_solver lia.
    + destruct dl; simpl; rewrite ?Hr; simpl; intros [= <- <-]; unfold client_ok; simpl;
        [naive_solver..|].
      unfold acquire_put. rewrite decide_False by (by rewrite reply_err_OK).
      case_decide; naive_solver.
  - destruct (Get_effect s) as (r & Hr & Hcase).
    destruct dl; simpl; rewrite ?Hr; simpl; intros [= <- <-]; unfold client_ok; simpl;
      rewrite ?Epc; [naive_solver..|].
    unfold release_got. destruct Hcase as [(->&->&->)|(->&->&->)]; simpl.
    + repeat case_decide; simpl; naive_solver lia.
    + naive_solver.
  - destruct Hpc as (Hvb & Hif & Hfi).
    destruct (Put_effect s "" v Hb) as [(Hv & s1 & Hr & Hver & Hho)|(Hv & e & Hr & He)].
    + assert (holder s l = myID (lk c)) as Hme by by auto.
      destruct dl; simpl; rewrite ?Hr; simpl; intros [= <- <-]; unfold client_ok; simpl;
        rewrite ?Hver, ?Hho, <- ?Hv;
        (split; [split_and!; try done; try lia; intros; try split; intros; try lia; congruence|]);
        (split; [done|]); [by left|right..]; auto with lia.
    + destruct dl; simpl; rewrite ?Hr; simpl; intros [= <- <-]; unfold client_ok; simpl;
        [naive_solver..|].
      unfold release_put. rewrite decide_False by (by rewrite reply_err_OK).
      case_decide; simpl; (split; [split_and!; try done|]); (split; [done|by left]) || idtac.
      split; [done|]. intros Hm. destruct Hv. symmetry. by apply Hfi.
Qed.

(** The other clients keep theirs. *)
Lemma other_ok me d s s' :
  client_ok s d -> me <> myID (lk d) -> store_step me s s' -> client_ok s' d.
Proof.
  intros (Hn & Hid & Hpc) Hme Hs. unfold client_ok. split_and!; [done..|].
  destruct Hs as [[-> ->]|(-> & Hho)]; [done|].
  assert (holder s l <> myID (lk d) /\ holder s' l <> myID (lk d)) as [H1 H2].
  { split; destruct Hho as [[Ha Hb]|[Ha Hb]]; congruence. }
  destruct (at_pc d).
  - split; intros H; [|done]. by apply Hpc in H.
  - done.
  - split; [lia|]. intros. lia.
  - done.
  - split_and!; [lia..| |done]. intros. lia.
Qed.

Lemma inv_update n s s' cs i c c' :
  inv n (MkState s cs) -> cs !! i = Some c ->
  client_ok s' c' -> myID (lk c') = myID (lk c) -> store_step (myID (lk c)) s s' ->
  inv (n + 1) (MkState s' (<[i := c']> cs)).
Proof.
  intros (Hb & Hok & Hd) Hi Hc' Hid Hs. simpl in *.
  assert (version s l <= version s' l <= version s l + 1) as Hver
    by (destruct Hs as [[-> _]|[-> _]]; lia).
  split_and!; simpl; [lia|lia|..].
  - intros j d [[<- <-]|[Hj Hd']]%lookup_insert_Some; [done|].
    eapply (other_ok (myID (lk c))); eauto.
  - intros j k d e. rewrite !lookup_insert. intros Hj Hk Hjk.
    repeat case_decide; simplify_eq; rewrite ?Hid; eauto.
Qed.

Lemma client_ok_to_get s c p :
  client_ok s c -> p = AcqGet \/ p = RelGet -> client_ok s (MkClient (lk c) p).
Proof. intros (?&?&?) [->| ->]; done. Qed.

Lemma inv_step n st st' : n < 2 ^ 64 - 1 -> inv n st -> step st st' -> inv (n + 1) st'.
Proof.
  intros Hn Hinv Hstep. destruct Hstep as [s cs i c Hi Hp|s cs i c Hi Hp|s cs i c dl s' c' Hi Ha|s cs a Ha];
    pose proof Hinv as (Hb & Hok & Hd); simpl in *.
  - eapply inv_update; eauto; [|by left].
    apply client_ok_to_get; eauto.
  - eapply inv_update; eauto; [| |by left]; unfold release_start; destruct (owned (lk c)) eqn:Ho; simpl; try done.
    + apply client_ok_to_get; eauto.
    + specialize (Hok i c Hi). unfold client_ok in Hok. rewrite Hp in Hok. destruct c as [k p].
      simpl in *. subst p. done.
  - destruct (attempt_ok dl c s s' c') as (?&?&?); eauto; [lia|].
    eapply inv_update; eauto.
  - assert (forall k, k <> pa_Key a -> svc_lookup (svc_Put a s).1 k = svc_lookup s k) as Hfr.
    { intros k Hk. destruct (decide (version s (pa_Key a) = pa_Version a)) as [E|E].
      - destruct (law_Put_ok a s E) as [_ Hl]. by rewrite Hl, decide_False.
      - by rewrite (law_Put_fail a s E). }
    destruct (decide (l = pa_Key a)) as [El|El].
    + assert (cs = ∅) as -> by (apply map_empty; intros i; destruct (cs !! i) as [c|] eqn:Hi;
        [exfalso; apply (Ha i c Hi); rewrite <- El; by destruct (Hok i c Hi)|done]).
      pose proof (Put_version_le a s l). split_and!; simpl; [lia|lia|..]; intros *; by rewrite lookup_empty.
    + assert (svc_lookup (svc_Put a s).1 l = svc_lookup s l) as Hl by by apply Hfr.
      unfold inv, client_ok, version, holder in *. simpl. rewrite Hl. split_and!; [lia..|done|done].
Qed.

Lemma inv_initial st : initial l st -> inv 0 st.
Proof.
  intros (Hl & Hc & Hd). unfold inv, client_ok, version, holder. rewrite Hl. simpl.
  split_and!; [done..| |done]. intros i c Hi.
  destruct (Hc i c Hi) as (Hp & Ho & Hn & Hid). rewrite Hp, Ho. naive_solver.
Qed.

Lemma inv_nsteps n st st' :
  initial l st -> nsteps step n st st' -> Z.of_nat n < 2 ^ 64 -> inv (Z.of_nat n) st'.
Proof.
  intros Hinit. revert st'. induction n as [|n IH]; intros st' Hn Hlt.
  - inversion Hn; subst. by apply inv_initial.
  - apply nsteps_inv_r in Hn as (st1 & Hn & Hstep).
    rewrite Nat2Z.inj_succ, <- Z.add_1_r. apply (inv_step _ st1); [lia| |done]. apply IH; [done|lia].
Qed.

(** Three delivered attempts in a row by a client inside [Acquire]. *)
Definition solo (p : S * client) : S * client := attempt LabRpc.Delivered p.2 p.1.

Definition acquired (p : S * client) : Prop := at_pc p.2 = Idle /\ owned (lk p.2) = true.

Lemma solo_acquired p : acquired p -> acquired (solo p).
Proof. destruct p as [s c]. unfold acquired, solo, attempt. simpl. intros [Hp Ho]. rewrite Hp. done. Qed.

Lemma solo_AcqPut s c v retry :
  0 <= version s l < 2 ^ 64 - 1 -> name (lk c) = l -> at_pc c = AcqPut v retry ->
  (version s l = v /\ acquired (solo (s, c))) \/
  (version s l <> v /\ solo (s, c) = (s, MkClient (lk c) AcqGet)).
Proof.
  intros Hb Hn Hpc. unfold acquired, solo, attempt. simpl. rewrite Hpc, Hn. simpl.
  destruct (Put_effect s (myID (lk c)) v Hb) as [(Hv & s1 & -> & _)|(Hv & e & -> & He)]; simpl.
  - by left.
  - right. split; [done|]. unfold acquire_put.
    rewrite decide_False by (by rewrite reply_err_OK). by case_decide.
Qed.

Lemma solo_AcqGet s c :
  0 <= version s l < 2 ^ 64 - 1 -> name (lk c) = l -> myID (lk c) <> "" -> at_pc c = AcqGet ->
  holder s l = "" \/ holder s l = myID (lk c) ->
  acquired (solo (solo (s, c))).
Proof.
  intros Hb Hn Hid Hpc Hh.
  assert (acquired (solo (s, c)) \/
          solo (s, c) = (s, MkClient (lk c) (AcqPut (version s l) false))) as [?| ->];
    [|by apply solo_acquired|].
  - unfold acquired, solo, attempt. simpl. rewrite Hpc, Hn. simpl.
    destruct (Get_effect s) as (r & -> & [(H1 & H2 & H3)|(H1 & H2 & H3)]); simpl; unfold acquire_got;
      rewrite H1, ?H2, H3; simpl; [|by right].
    destruct Hh as [->|Hh]; [by right|]. rewrite decide_False, decide_True by congruence. by left.
  - destruct (solo_AcqPut s (MkClient (lk c) (AcqPut (version s l) false)) (version s l) false)
      as [[_ ?]|[? _]]; done.
Qed.

End invariant.

End system.

(** ** Properties *)

Section properties.
Context {S : Type} `{!KVService S} `{!KVServiceLaws S}.

(** C21 (mutual exclusion).  However the clients' RPC attempts, message losses and
    retries interleave, two clients never hold the lock at the same time, for runs
    of fewer than 2^64 steps (one per version of the key). *)
Theorem mutual_exclusion (l : string) (n : nat) (st0 st : @state S) (i j : nat)
    (Hinit : initial l st0) (Hrun : nsteps step n st0 st) (Hlen : Z.of_nat n < 2 ^ 64)
    (Hi : holds st i) (Hij : i <> j) :
  ~ holds st j.
Proof.
  destruct (inv_nsteps l n st0 st Hinit Hrun Hlen) as (_ & Hok & Hd).
  destruct Hi as (c & Hc & Hpc & Ho). intros (d & Hdj & Hpd & Hod).
  destruct (Hok i c Hc) as (_ & _ & H1). destruct (Hok j d Hdj) as (_ & _ & H2).
  rewrite Hpc in H1. rewrite Hpd in H2. apply (Hd i j c d Hc Hdj Hij).
  rewrite <- (proj1 H1 Ho), <- (proj1 H2 Hod). done.
Qed.

(** The flag is exact.  Between calls a client's [owned] flag is true exactly
    when the store's value is its name: a lost reply never leaves a lock held by a
    client that does not know it, and [Release] really frees the lock. *)
Lemma owned_iff_holder (l : string) (n : nat) (st0 st : @state S) (i : nat) (c : client)
    (Hinit : initial l st0) (Hrun : nsteps step n st0 st) (Hlen : Z.of_nat n < 2 ^ 64)
    (Hc : clients st !! i = Some c) (Hidle : at_pc c = Idle) :
  owned (lk c) = true <-> holder (server st) l = myID (lk c).
Proof.
  destruct (inv_nsteps l n st0 st Hinit Hrun Hlen) as (_ & Hok & _).
  destruct (Hok i c Hc) as (_ & _ & H). by rewrite Hidle in H.
Qed.

(** C22 (obstruction freedom).  In any state of a run, from which no other client takes a step until its three
    attempts are done: a client inside [Acquire] whose lock is free, or held
    in its own name because the reply of its Put was lost, owns it after three
    delivered attempts of its own. *)
Theorem acquire_solo (l : string) (n : nat) (st0 st : @state S) (i : nat) (c : client)
    (Hinit : initial l st0) (Hrun : nsteps step n st0 st) (Hlen : Z.of_nat n < 2 ^ 64 - 2)
    (Hc : clients st !! i = Some c)
    (Hpc : at_pc c = AcqGet \/ exists v retry, at_pc c = AcqPut v retry)
    (Hfree : holder (server st) l = "" \/ holder (server st) l = myID (lk c)) :
  let c' := (Nat.iter 3 solo (server st, c)).2 in
  at_pc c' = Idle /\ owned (lk c') = true.
Proof.
  destruct (inv_nsteps l n st0 st Hinit Hrun) as (Hb & Hok & _); [lia|].
  destruct (Hok i c Hc) as (Hn & Hid & Hk). destruct Hpc as [Hpc|(v & retry & Hpc)]; simpl.
  - apply solo_acquired, (solo_AcqGet l); [lia|done..].
  - destruct (solo_AcqPut l (server st) c v retry) as [[_ ?]|[_ ->]]; [lia|done..| |].
    + by do 2 apply solo_acquired.
    + apply (solo_AcqGet l); [lia|done..].
Qed.
End properties.

(** *** Witnesses: two clients of a fresh server *)

Definition ex_client (id : string) : client := MkClient (MkLockState "l" false id) Idle.
Definition ex_state : @state KvServer.KVServer :=
  MkState KvServer.MakeKVServer {[ 0%nat := ex_client "A"; 1%nat := ex_client "B" ]}.

(** Client 0 acquires the lock, the reply of its Put being lost once. *)
Definition ex_run (st : @state KvServer.KVServer) (i : nat) (dl : LabRpc.delivery) : state :=
  match clients st !! i with
  | Some c => let '(s, c') := attempt dl c (server st) in MkState s (<[i := c']> (clients st))
  | None => st
  end.
Definition ex_acq : state :=
  MkState (server ex_state) (<[0%nat := MkClient (MkLockState "l" false "A") AcqGet]> (clients ex_state)).
Definition ex_steps (dls : list LabRpc.delivery) : state :=
  foldl (fun st dl => ex_run st 0 dl) ex_acq dls.

Lemma ex_initial : initial "l" ex_state.
Proof.
  split; [done|split].
  - intros i c. simpl. intros [[<- <-]|[_ [<- <-]%lookup_singleton_Some]]%lookup_insert_Some; done.
  - intros i j c d. simpl.
    intros [[<- <-]|[? [<- <-]%lookup_singleton_Some]]%lookup_insert_Some
      [[<- <-]|[? [<- <-]%lookup_singleton_Some]]%lookup_insert_Some; done.
Defined.

Lemma ex_run_step st dl : is_Some (clients st !! 0%nat) -> step st (ex_run st 0 dl).
Proof.
  destruct st as [s cs]. intros [c Hc]. unfold ex_run. simpl in *. rewrite Hc.
  destruct (attempt dl c s) as [s' c'] eqn:E. by eapply step_attempt.
Defined.

Definition ex_dls : list LabRpc.delivery :=
  [LabRpc.Delivered; LabRpc.ReplyLost; LabRpc.Delivered; LabRpc.Delivered].

(** The run of the attempts [dls] after the call of [Acquire]. *)
Lemma ex_run_nsteps dls st :
  is_Some (clients st !! 0%nat) ->
  nsteps step (length dls) st (foldl (fun st dl => ex_run st 0 dl) st dls).
Proof.
  revert st. induction dls as [|dl dls IH]; intros st [c Hc]; simpl; [constructor|].
  eapply nsteps_l; [by apply ex_run_step; exists c|]. apply IH. unfold ex_run. rewrite Hc.
  destruct (attempt dl c (server st)). simpl. rewrite lookup_insert_eq. by eexists.
Defined.

Lemma ex_nsteps dls : nsteps step (Datatypes.S (length dls)) ex_state (ex_steps dls).
Proof.
  eapply nsteps_l.
  - apply (step_acquire (server ex_state) (clients ex_state) 0 (ex_client "A")); reflexivity.
  - apply (ex_run_nsteps dls ex_acq). by eexists.
Defined.

Lemma mutual_exclusion_witness :
  holds (ex_steps ex_dls) 0 /\ ~ holds (ex_steps ex_dls) 1.
Proof.
  assert (holds (ex_steps ex_dls) 0) as H by (eexists; split_and!; reflexivity).
  split; [exact H|].
  apply (mutual_exclusion "l" 5 ex_state (ex_steps ex_dls) 0 1 ex_initial (ex_nsteps ex_dls));
    [done|exact H|done].
Defined.

Lemma owned_iff_holder_ex :
  exists c, clients (ex_steps ex_dls) !! 0%nat = Some c /\
    (owned (lk c) = true <-> holder (server (ex_steps ex_dls)) "l" = myID (lk c)).
Proof.
  eexists. split; [reflexivity|].
  apply (owned_iff_holder "l" 5 ex_state (ex_steps ex_dls) 0 _ ex_initial (ex_nsteps ex_dls));
    [done|reflexivity|reflexivity].
Defined.

(** After the lost reply the client still finds out that it owns the lock. *)
Lemma acquire_solo_witness :
  exists c, clients (ex_steps [LabRpc.Delivered; LabRpc.ReplyLost]) !! 0%nat = Some c /\
    let c' := (Nat.iter 3 solo (server (ex_steps [LabRpc.Delivered; LabRpc.ReplyLost]), c)).2 in
    at_pc c' = Idle /\ owned (lk c') = true.
Proof.
  eexists. split; [reflexivity|].
  eapply (acquire_solo "l" 3 ex_state (ex_steps [LabRpc.Delivered; LabRpc.ReplyLost]) 0 _ ex_initial).
  - apply (ex_nsteps [LabRpc.Delivered; LabRpc.ReplyLost]).
  - done.
  - reflexivity.
  - right. by do 2 eexists.
  - by right.
Defined.

End Lock.
