(* ===== verification/Persister.v ===== *)
(** * Persister: stable storage (src/src/tester1/persister.go)

    The tester's object a Raft peer saves its state to.  The byte slices it holds
    were written by a labgob encoder: the model keeps the sequence of the values
    encoded ([gobval]) instead of their bytes, so a decoder reads them back in
    order.  [Save] and the readers clone, so slices are values here and [nil] is
    the empty one. *)
From S2P Require Import Prelude.
Local Open Scope Z_scope.

(** The values a command ([interface{}]) ranges over in this model. *)
Inductive any := AnyNil | AnyInt (z : Z) | AnyString (s : string).

#[export] Instance any_eq_dec : EqDecision any.
Proof. solve_decision. Defined.

Record logEntry := MkLogEntry { Term : Z; Command : any }.

#[export] Instance logEntry_eq_dec : EqDecision logEntry.
Proof. solve_decision. Defined.

Abbreviation bytes := (list Byte.byte).

(** The Go values [raft.persist] encodes: an [int] or a [[]logEntry]. *)
Inductive gobval := GobInt (z : Z) | GobLog (l : list logEntry).

(** [d.Decode(&x)] for an [int] and for a log: the value and the rest of the
    stream, or an error. *)
Definition decode_int (r : list gobval) : option (Z * list gobval) :=
  match r with GobInt z :: r => Some (z, r) | _ => None end.
Definition decode_log (r : list gobval) : option (list logEntry * list gobval) :=
  match r with GobLog l :: r => Some (l, r) | _ => None end.

Record Persister := MkPersister_ { raftstate : list gobval; snapshot : bytes }.

Definition MakePersister : Persister := MkPersister_ [] [].
Definition Copy (ps : Persister) : Persister := MkPersister_ (raftstate ps) (snapshot ps).
Definition ReadRaftState (ps : Persister) : list gobval := raftstate ps.
(** [enc_len] is the length of an encoded stream in bytes. *)
Definition RaftStateSize (enc_len : list gobval -> Z) (ps : Persister) : Z := enc_len (raftstate ps).
Definition Save (rs : list gobval) (sn : bytes) (ps : Persister) : Persister := MkPersister_ rs sn.
Definition ReadSnapshot (ps : Persister) : bytes := snapshot ps.
Definition SnapshotSize (ps : Persister) : Z := zlen (snapshot ps).
