(* ===== verification/Raft.v ===== *)
(** * Raft: the state of a peer and its RPC handlers (src/src/raft1/raft.go)

    One [Record] for [type Raft struct], one definition per method that runs under
    [rf.mu].  The goroutines are in the files RaftLeader, RaftElection. *)
From S2P Require Import Prelude Persister.
Local Open Scope Z_scope.
Local Open Scope go_scope.

Module Raft.

Inductive role := Follower | Candidate | Leader.

#[export] Instance role_eq_dec : EqDecision role.
Proof. solve_decision. Defined.

(** [type Raft struct].  Channels: [notifyApply], [ElectionAbort], the [notify[i]]
    and the [tickers[i].rst] have capacity 1, so each is a flag "the buffer is
    full"; for the two families the field is the set of the [i] whose buffer is
    full.  [retry] is the set of the [i] with [retry[i]].  [rf.ctx] is the number of
    the last context made, [cancelled] the contexts whose cancel function has been
    called; [rf.cancel] is nil as long as [ctx] is [None].  [dead] is also "[killCh]
    is closed".  The timers and [rf.applyCh] are in the goroutines' definitions. *)
Record Raft := MkRaft {
  npeers : Z;                   (* len(rf.peers) *)
  me : Z;
  dead : bool;
  CurrentTerm : Z;
  VotedFor : Z;
  Log : list logEntry;
  commitIndex : Z;
  lastApplied : Z;
  notifyApply : bool;
  nextIndex : list Z;
  matchIndex : list Z;
  state : role;
  SnapshotIndex : Z;
  SnapshotTerm : Z;
  SnapshotByte : option bytes;
  rst : gset Z;
  ElectionAbort : bool;
  retry : gset Z;
  notify : gset Z;
  ctx : option nat;
  cancelled : gset nat;
  persister : Persister;
}.

(** Assignment to a field. *)
Class Setter {T} (field : Raft -> T) := set_field : T -> Raft -> Raft.
Arguments set_field {T} field {_} _ _.

#[export] Instance set_dead : Setter dead :=
  fun v rf => MkRaft (npeers rf) (me rf) v (CurrentTerm rf) (VotedFor rf) (Log rf)
    (commitIndex rf) (lastApplied rf) (notifyApply rf) (nextIndex rf) (matchIndex rf) (state rf)
    (SnapshotIndex rf) (SnapshotTerm rf) (SnapshotByte rf) (rst rf) (ElectionAbort rf)
    (retry rf) (notify rf) (ctx rf) (cancelled rf) (persister rf).
#[export] Instance set_CurrentTerm : Setter CurrentTerm :=
  fun v rf => MkRaft (npeers rf) (me rf) (dead rf) v (VotedFor rf) (Log rf) (commitIndex rf)
    (lastApplied rf) (notifyApply rf) (nextIndex rf) (matchIndex rf) (state rf)
    (SnapshotIndex rf) (SnapshotTerm rf) (SnapshotByte rf) (rst rf) (ElectionAbort rf)
    (retry rf) (notify rf) (ctx rf) (cancelled rf) (persister rf).
#[export] Instance set_VotedFor : Setter VotedFor :=
  fun v rf => MkRaft (npeers rf) (me rf) (dead rf) (CurrentTerm rf) v (Log rf) (commitIndex rf)
    (lastApplied rf) (notifyApply rf) (nextIndex rf) (matchIndex rf) (state rf)
    (SnapshotIndex rf) (SnapshotTerm rf) (SnapshotByte rf) (rst rf) (ElectionAbort rf)
    (retry rf) (notify rf) (ctx rf) (cancelled rf) (persister rf).
#[export] Instance set_Log : Setter Log :=
  fun v rf => MkRaft (npeers rf) (me rf) (dead rf) (CurrentTerm rf) (VotedFor rf) v
    (commitIndex rf) (lastApplied rf) (notifyApply rf) (nextIndex rf) (matchIndex rf) (state rf)
    (SnapshotIndex rf) (SnapshotTerm rf) (SnapshotByte rf) (rst rf) (ElectionAbort rf)
    (retry rf) (notify rf) (ctx rf) (cancelled rf) (persister rf).
#[export] Instance set_commitIndex : Setter commitIndex :=
  fun v rf => MkRaft (npeers rf) (me rf) (dead rf) (CurrentTerm rf) (VotedFor rf) (Log rf) v
    (lastApplied rf) (notifyApply rf) (nextIndex rf) (matchIndex rf) (state rf)
    (SnapshotIndex rf) (SnapshotTerm rf) (SnapshotByte rf) (rst rf) (ElectionAbort rf)
    (retry rf) (notify rf) (ctx rf) (cancelled rf) (persister rf).
#[export] Instance set_lastApplied : Setter lastApplied :=
  fun v rf => MkRaft (npeers rf) (me rf) (dead rf) (CurrentTerm rf) (VotedFor rf) (Log rf)
    (commitIndex rf) v (notifyApply rf) (nextIndex rf) (matchIndex rf) (state rf)
    (SnapshotIndex rf) (SnapshotTerm rf) (SnapshotByte rf) (rst rf) (ElectionAbort rf)
    (retry rf) (notify rf) (ctx rf) (cancelled rf) (persister rf).
#[export] Instance set_notifyApply : Setter notifyApply :=
  fun v rf => MkRaft (npeers rf) (me rf) (dead rf) (CurrentTerm rf) (VotedFor rf) (Log rf)
    (commitIndex rf) (lastApplied rf) v (nextIndex rf) (matchIndex rf) (state rf)
    (SnapshotIndex rf) (SnapshotTerm rf) (SnapshotByte rf) (rst rf) (ElectionAbort rf)
    (retry rf) (notify rf) (ctx rf) (cancelled rf) (persister rf).
#[export] Instance set_nextIndex : Setter nextIndex :=
  fun v rf => MkRaft (npeers rf) (me rf) (dead rf) (CurrentTerm rf) (VotedFor rf) (Log rf)
    (commitIndex rf) (lastApplied rf) (notifyApply rf) v (matchIndex rf) (state rf)
    (SnapshotIndex rf) (SnapshotTerm rf) (SnapshotByte rf) (rst rf) (ElectionAbort rf)
    (retry rf) (notify rf) (ctx rf) (cancelled rf) (persister rf).
#[export] Instance set_matchIndex : Setter matchIndex :=
  fun v rf => MkRaft (npeers rf) (me rf) (dead rf) (CurrentTerm rf) (VotedFor rf) (Log rf)
    (commitIndex rf) (lastApplied rf) (notifyApply rf) (nextIndex rf) v (state rf)
    (SnapshotIndex rf) (SnapshotTerm rf) (SnapshotByte rf) (rst rf) (ElectionAbort rf)
    (retry rf) (notify rf) (ctx rf) (cancelled rf) (persister rf).
#[export] Instance set_state : Setter state :=
  fun v rf => MkRaft (npeers rf) (me rf) (dead rf) (CurrentTerm rf) (VotedFor rf) (Log rf)
    (commitIndex rf) (lastApplied rf) (notifyApply rf) (nextIndex rf) (matchIndex rf) v
    (SnapshotIndex rf) (SnapshotTerm rf) (SnapshotByte rf) (rst rf) (ElectionAbort rf)
    (retry rf) (notify rf) (ctx rf) (cancelled rf) (persister rf).
#[export] Instance set_SnapshotIndex : Setter SnapshotIndex :=
  fun v rf => MkRaft (npeers rf) (me rf) (dead rf) (CurrentTerm rf) (VotedFor rf) (Log rf)
    (commitIndex rf) (lastApplied rf) (notifyApply rf) (nextIndex rf) (matchIndex rf) (state rf)
    v (SnapshotTerm rf) (SnapshotByte rf) (rst rf) (ElectionAbort rf) (retry rf) (notify rf)
    (ctx rf) (cancelled rf) (persister rf).
#[export] Instance set_SnapshotTerm : Setter SnapshotTerm :=
  fun v rf => MkRaft (npeers rf) (me rf) (dead rf) (CurrentTerm rf) (VotedFor rf) (Log rf)
    (commitIndex rf) (lastApplied rf) (notifyApply rf) (nextIndex rf) (matchIndex rf) (state rf)
    (SnapshotIndex rf) v (SnapshotByte rf) (rst rf) (ElectionAbort rf) (retry rf) (notify rf)
    (ctx rf) (cancelled rf) (persister rf).
#[export] Instance set_SnapshotByte : Setter SnapshotByte :=
  fun v rf => MkRaft (npeers rf) (me rf) (dead rf) (CurrentTerm rf) (VotedFor rf) (Log rf)
    (commitIndex rf) (lastApplied rf) (notifyApply rf) (nextIndex rf) (matchIndex rf) (state rf)
    (SnapshotIndex rf) (SnapshotTerm rf) v (rst rf) (ElectionAbort rf) (retry rf) (notify rf)
    (ctx rf) (cancelled rf) (persister rf).
#[export] Instance set_rst : Setter rst :=
  fun v rf => MkRaft (npeers rf) (me rf) (dead rf) (CurrentTerm rf) (VotedFor rf) (Log rf)
    (commitIndex rf) (lastApplied rf) (notifyApply rf) (nextIndex rf) (matchIndex rf) (state rf)
    (SnapshotIndex rf) (SnapshotTerm rf) (SnapshotByte rf) v (ElectionAbort rf) (retry rf)
    (notify rf) (ctx rf) (cancelled rf) (persister rf).
#[export] Instance set_ElectionAbort : Setter ElectionAbort :=
  fun v rf => MkRaft (npeers rf) (me rf) (dead rf) (CurrentTerm rf) (VotedFor rf) (Log rf)
    (commitIndex rf) (lastApplied rf) (notifyApply rf) (nextIndex rf) (matchIndex rf) (state rf)
    (SnapshotIndex rf) (SnapshotTerm rf) (SnapshotByte rf) (rst rf) v (retry rf) (notify rf)
    (ctx rf) (cancelled rf) (persister rf).
#[export] Instance set_retry : Setter retry :=
  fun v rf => MkRaft (npeers rf) (me rf) (dead rf) (CurrentTerm rf) (VotedFor rf) (Log rf)
    (commitIndex rf) (lastApplied rf) (notifyApply rf) (nextIndex rf) (matchIndex rf) (state rf)
    (SnapshotIndex rf) (SnapshotTerm rf) (SnapshotByte rf) (rst rf) (ElectionAbort rf) v
    (notify rf) (ctx rf) (cancelled rf) (persister rf).
#[export] Instance set_notify : Setter notify :=
  fun v rf => MkRaft (npeers rf) (me rf) (dead rf) (CurrentTerm rf) (VotedFor rf) (Log rf)
    (commitIndex rf) (lastApplied rf) (notifyApply rf) (nextIndex rf) (matchIndex rf) (state rf)
    (SnapshotIndex rf) (SnapshotTerm rf) (SnapshotByte rf) (rst rf) (ElectionAbort rf)
    (retry rf) v (ctx rf) (cancelled rf) (persister rf).
#[export] Instance set_ctx : Setter ctx :=
  fun v rf => MkRaft (npeers rf) (me rf) (dead rf) (CurrentTerm rf) (VotedFor rf) (Log rf)
    (commitIndex rf) (lastApplied rf) (notifyApply rf) (nextIndex rf) (matchIndex rf) (state rf)
    (SnapshotIndex rf) (SnapshotTerm rf) (SnapshotByte rf) (rst rf) (ElectionAbort rf)
    (retry rf) (notify rf) v (cancelled rf) (persister rf).
#[export] Instance set_cancelled : Setter cancelled :=
  fun v rf => MkRaft (npeers rf) (me rf) (dead rf) (CurrentTerm rf) (VotedFor rf) (Log rf)
    (commitIndex rf) (lastApplied rf) (notifyApply rf) (nextIndex rf) (matchIndex rf) (state rf)
    (SnapshotIndex rf) (SnapshotTerm rf) (SnapshotByte rf) (rst rf) (ElectionAbort rf)
    (retry rf) (notify rf) (ctx rf) v (persister rf).
#[export] Instance set_persister : Setter persister :=
  fun v rf => MkRaft (npeers rf) (me rf) (dead rf) (CurrentTerm rf) (VotedFor rf) (Log rf)
    (commitIndex rf) (lastApplied rf) (notifyApply rf) (nextIndex rf) (matchIndex rf) (state rf)
    (SnapshotIndex rf) (SnapshotTerm rf) (SnapshotByte rf) (rst rf) (ElectionAbort rf)
    (retry rf) (notify rf) (ctx rf) (cancelled rf) v.

Notation "rf <| field := v |>" := (set_field field v rf)
  (at level 1, left associativity, field at next level, format "rf  <| field  :=  v |>") : go_scope.

(** *** Small helpers of the code *)

Definition Loglen (rf : Raft) : Z := zlen (Log rf) + SnapshotIndex rf.
Definition idxInLog (rf : Raft) (index : Z) : Z := index - SnapshotIndex rf.

(** Save the persistent state: the encoder writes the four fields in order. *)
Definition persist (rf : Raft) : Raft :=
  rf <| persister :=
    Save [GobInt (CurrentTerm rf); GobInt (VotedFor rf); GobLog (Log rf); GobInt (SnapshotIndex rf)]
      (default [] (SnapshotByte rf)) (persister rf) |>.

(** [rf.cancel()] *)
Definition cancel (rf : Raft) : res Raft :=
  match ctx rf with
  | None => Panic NilDereference
  | Some c => Ret (rf <| cancelled := {[c]} ∪ cancelled rf |>)
  end.

(** [if rf.state == Leader { rf.cancel() }] *)
Definition cancel_if_leader (rf : Raft) : res Raft :=
  if decide (state rf = Leader) then cancel rf else Ret rf.

(** A non-blocking send on [rf.tickers[i].rst], [rf.notify[i]], [rf.notifyApply]. *)
Definition try_rst (i : Z) (rf : Raft) : Raft := rf <| rst := {[i]} ∪ rst rf |>.
Definition try_notify (i : Z) (rf : Raft) : Raft := rf <| notify := {[i]} ∪ notify rf |>.
Definition try_notifyApply (rf : Raft) : Raft := rf <| notifyApply := true |>.

Definition GetState (rf : Raft) : Z * bool := (CurrentTerm rf, bool_decide (state rf = Leader)).
Definition PersistBytes (enc_len : list gobval -> Z) (rf : Raft) : Z :=
  RaftStateSize enc_len (persister rf).
Definition Kill (rf : Raft) : Raft := rf <| dead := true |>.
Definition killed (rf : Raft) : bool := dead rf.

(** *** Recovery *)

(** The empty object [&Raft{}] with the fields [Make] sets before [readPersist]. *)
Definition fresh (n i : Z) (ps : Persister) : Raft :=
  MkRaft n i false 0 (-1) [MkLogEntry 0 AnyNil] 0 0 false [] [] Follower 0 0 None ∅ false ∅ ∅
    None ∅ ps.

Definition decode_state (data : list gobval) : option (Z * Z * list logEntry * Z) :=
  match decode_int data with
  | None => None
  | Some (currentTerm, r) =>
      match decode_int r with
      | None => None
      | Some (votedFor, r) =>
          match decode_log r with
          | None => None
          | Some (log, r) =>
              match decode_int r with
              | None => None
              | Some (snapshotIndex, _) => Some (currentTerm, votedFor, log, snapshotIndex)
              end
          end
      end
  end.

Definition readPersist (data : list gobval) (rf : Raft) : res Raft :=
  match data with
  | [] => Ret rf
  | _ =>
      let rf :=
        match decode_state data with
        | None => rf
        | Some (currentTerm, votedFor, log, snapshotIndex) =>
            rf <| CurrentTerm := currentTerm |> <| VotedFor := votedFor |> <| Log := log |>
               <| SnapshotIndex := snapshotIndex |>
        end in
      let snapshot := ReadSnapshot (persister rf) in
      if decide (0 < zlen snapshot) then
        let rf := rf <| SnapshotByte := Some snapshot |> in
        let! e := idx (Log rf) 0 in
        Ret (try_notifyApply (rf <| SnapshotTerm := Term e |>))
      else Ret rf
  end.

(** [Make], up to the [go] statements. *)
Definition Make (n i : Z) (ps : Persister) : res Raft :=
  readPersist (ReadRaftState ps) (fresh n i ps).

(** *** Snapshot *)

Definition Snapshot (index : Z) (sn : option bytes) (rf : Raft) : res Raft :=
  if decide (SnapshotIndex rf >= index \/ index > Loglen rf - 1) then Ret rf
  else
    let trimIndex := index - SnapshotIndex rf in
    let! log := slice_from (Log rf) trimIndex in
    let rf := rf <| Log := log |> in
    let! e := idx (Log rf) 0 in
    let rf := rf <| SnapshotTerm := Term e |> <| SnapshotIndex := index |>
                 <| SnapshotByte := sn |> in
    let rf := persist rf in
    let rf := rf <| lastApplied := Z.max (lastApplied rf) index |> in
    Ret (rf <| commitIndex := Z.max (commitIndex rf) index |>).

(** *** RequestVote *)

Record RequestVoteArgs := MkRequestVoteArgs {
  rv_Term : Z; CandidateId : Z; LastLogIndex : Z; LastLogTerm : Z }.
Record RequestVoteReply := MkRequestVoteReply { rvr_Term : Z; VoteGranted : bool }.

(** The candidate's log is behind: the test of both branches, on the last entry, or
    on the snapshot when the log is empty. *)
Definition outdated (args : RequestVoteArgs) (rf : Raft) : res bool :=
  if decide (zlen (Log rf) = 0) then
    Ret (bool_decide (LastLogTerm args < SnapshotTerm rf \/
         LastLogTerm args = SnapshotTerm rf /\ LastLogIndex args < SnapshotIndex rf))
  else
    let! e := idx (Log rf) (zlen (Log rf) - 1) in
    Ret (bool_decide (LastLogTerm args < Term e \/
         LastLogTerm args = Term e /\ LastLogIndex args < Loglen rf - 1)).

Definition RequestVote (args : RequestVoteArgs) (rf : Raft) : res (Raft * RequestVoteReply) :=
  let reply := MkRequestVoteReply (CurrentTerm rf) false in
  if decide (rv_Term args < CurrentTerm rf) then Ret (rf, reply)
  else if decide (rv_Term args = CurrentTerm rf) then
    let! old := outdated args rf in
    if (old : bool) then Ret (rf, reply)
    else if decide (VotedFor rf = -1 \/ VotedFor rf = CandidateId args) then
      let reply := MkRequestVoteReply (CurrentTerm rf) true in
      let rf := rf <| VotedFor := CandidateId args |> in
      let rf := persist rf in
      Ret (try_rst (me rf) rf, reply)
    else Ret (rf, reply)
  else
    let rf := rf <| CurrentTerm := rv_Term args |> in
    let rf := persist rf in
    let! rf := (if decide (state rf = Leader) then cancel (rf <| state := Follower |>)
                else Ret rf) in
    let rf := rf <| state := Follower |> in
    let! old := outdated args rf in
    if (old : bool) then Ret (rf, reply)
    else
      let reply := MkRequestVoteReply (rv_Term args) true in
      let rf := try_rst (me rf) rf in
      let rf := rf <| VotedFor := CandidateId args |> in
      Ret (persist rf, reply).

(** *** AppendEntries *)

Record AppendEntriesArgs := MkAppendEntriesArgs {
  ae_Term : Z; ae_LeaderId : Z; PrevLogIndex : Z; PrevLogTerm : Z;
  Entries : list logEntry; LeaderCommit : Z }.
Record AppendEntriesReply := MkAppendEntriesReply {
  aer_Term : Z; Success : bool; XTerm : Z; XIndex : Z; XLength : Z }.

(** The binary search for the first position of the log, below [index], whose term
    is at least [term]. *)
Fixpoint findFirst_loop (fuel : nat) (log : list logEntry) (term low high : Z) : res Z :=
  match fuel with
  | O => Panic OutOfFuel
  | S fuel =>
      if decide (low < high) then
        let mid := (low + high) ÷ 2 in
        let! e := idx log mid in
        if decide (Term e < term) then findFirst_loop fuel log term (mid + 1) high
        else findFirst_loop fuel log term low mid
      else Ret low
  end.

Definition findFirstIndex (term index : Z) (rf : Raft) : res Z :=
  if decide (SnapshotTerm rf >= term) then Ret (-1)
  else
    let! low := findFirst_loop (S (Z.to_nat index)) (Log rf) term 0 index in
    if decide (low = 0 /\ SnapshotIndex rf = 0) then Ret 1 else Ret low.

(** [for i := index; i >= low; i-- { if rf.Log[i].Term <= term { return i } }], then
    [return low]. *)
Fixpoint findLast_scan (fuel : nat) (log : list logEntry) (term low i : Z) : res Z :=
  match fuel with
  | O => Panic OutOfFuel
  | S fuel =>
      if decide (i >= low) then
        let! e := idx log i in
        if decide (Term e <= term) then Ret i else findLast_scan fuel log term low (i - 1)
      else Ret low
  end.

Fixpoint findLast_loop (fuel : nat) (log : list logEntry) (term low index : Z) : res Z :=
  match fuel with
  | O => Panic OutOfFuel
  | S fuel =>
      let tmp := (low + index) ÷ 2 in
      let! e := idx log tmp in
      let '(low, index) := if decide (Term e <= term) then (tmp, index) else (low, tmp) in
      if decide (index - low <= 10) then
        findLast_scan (S (S (Z.to_nat (index - low)))) log term low index
      else findLast_loop fuel log term low index
  end.

Definition findLastIndex (term : Z) (rf : Raft) : res Z :=
  if decide (SnapshotTerm rf > term \/ zlen (Log rf) = 0) then Ret (-1)
  else findLast_loop (S (length (Log rf))) (Log rf) term 0 (zlen (Log rf) - 1).

(** [if t > rf.CurrentTerm { rf.CurrentTerm = t; rf.VotedFor = -1; rf.persist() }] *)
Definition see_term (t : Z) (rf : Raft) : Raft :=
  if decide (t > CurrentTerm rf) then
    persist (rf <| CurrentTerm := t |> <| VotedFor := -1 |>)
  else rf.

(** The first critical section, lines 343-378: the reply, and whether the handler
    goes on. *)
Definition AE_check (args : AppendEntriesArgs) (rf : Raft)
    : res (Raft * AppendEntriesReply * bool) :=
  if decide (ae_Term args < CurrentTerm rf) then
    Ret (rf, MkAppendEntriesReply (CurrentTerm rf) false 0 0 0, false)
  else
    let! rf := cancel_if_leader rf in
    let rf := rf <| state := Follower |> in
    let rf := see_term (ae_Term args) rf in
    let term := CurrentTerm rf in
    let rf := try_rst (me rf) rf in
    if decide (PrevLogIndex args >= Loglen rf) then
      Ret (rf, MkAppendEntriesReply term false 0 0 (Loglen rf), false)
    else
      let pos := idxInLog rf (PrevLogIndex args) in
      let! conflict :=
        (if decide (zlen (Log rf) > pos) then
           let! e := idx (Log rf) pos in Ret (bool_decide (Term e <> PrevLogTerm args))
         else Ret false) in
      if (conflict : bool) then
        let! e := idx (Log rf) pos in
        let! first := findFirstIndex (Term e) pos rf in
        Ret (rf, MkAppendEntriesReply term false (Term e) (first + SnapshotIndex rf) 0, false)
      else Ret (rf, MkAppendEntriesReply term true 0 0 0, true).

(** Lines 384-396: the entries are stored; [None] is the early return. *)
Definition AE_entries (args : AppendEntriesArgs) (rf : Raft) : res (option Raft) :=
  if decide (commitIndex rf > PrevLogIndex args) then
    if decide (zlen (Entries args) <= commitIndex rf - PrevLogIndex args) then Ret None
    else
      let! log := slice_to (Log rf) (commitIndex rf + 1 - SnapshotIndex rf) in
      let! entries := slice_from (Entries args) (commitIndex rf - PrevLogIndex args) in
      Ret (Some (persist (rf <| Log := log ++ entries |>)))
  else
    let! log := slice_to (Log rf) (PrevLogIndex args + 1 - SnapshotIndex rf) in
    Ret (Some (persist (rf <| Log := log ++ Entries args |>))).

(** Lines 398-403: the commit index follows the leader's. *)
Definition AE_commit (args : AppendEntriesArgs) (rf : Raft) : Raft :=
  if decide (LeaderCommit args > commitIndex rf) then
    try_notifyApply (rf <| commitIndex := Z.min (LeaderCommit args) (Loglen rf - 1) |>)
  else rf.

(** The rest of the handler, once the lock is taken again. *)
Definition AE_store (args : AppendEntriesArgs) (rf : Raft) : res Raft :=
  if decide (zlen (Entries args) > 0) then
    let! r := AE_entries args rf in
    match r with
    | None => Ret rf
    | Some rf => Ret (AE_commit args rf)
    end
  else Ret (AE_commit args rf).

(** [gap] is what the peer's other goroutines do while the handler, in lines
    381-383, does not hold the lock. *)
Definition AppendEntries (gap : Raft -> Raft) (args : AppendEntriesArgs) (rf : Raft)
    : res (Raft * AppendEntriesReply) :=
  let! (rf, reply, go) := AE_check args rf in
  if (go : bool) then
    let rf := if decide (zlen (Entries args) > 0) then gap rf else rf in
    let! rf := AE_store args rf in
    Ret (rf, reply)
  else Ret (rf, reply).

(** *** InstallSnapshot *)

Record InstallSnapshotArgs := MkInstallSnapshotArgs {
  is_Term : Z; is_LeaderId : Z; LastIncludedIndex : Z; LastIncludedTerm : Z;
  Data : option bytes }.
Record InstallSnapshotReply := MkInstallSnapshotReply { isr_Term : Z }.

(** Where the goroutine [ticker] is: at its [select], at [rf.mu.Lock()] (line 1233),
    or finished. *)
Inductive ticker_pc := TickerSelect | TickerLock | TickerExited.

(** The blocking [rf.tickers[rf.me].rst <- struct{}{}], sent with [rf.mu] held.  When
    the buffer is full it needs the ticker at its [select] to take one out. *)
Definition send_rst (tpc : ticker_pc) (rf : Raft) : res Raft :=
  if decide (me rf ∈ rst rf) then
    match tpc with
    | TickerSelect => Ret rf
    | TickerLock | TickerExited => Panic Deadlock
    end
  else Ret (rf <| rst := {[me rf]} ∪ rst rf |>).

(** Lines 559-579. *)
Definition IS_install (args : InstallSnapshotArgs) (rf : Raft) : res Raft :=
  let rf := rf <| SnapshotByte := Data args |> <| SnapshotTerm := LastIncludedTerm args |> in
  let! isConfilict :=
    (if decide (idxInLog rf (SnapshotIndex rf) >= 0 /\
                idxInLog rf (LastIncludedIndex args) >= 0) then
       let! e := idx (Log rf) (idxInLog rf (SnapshotIndex rf)) in
       Ret (bool_decide (Term e <> LastIncludedTerm args))
     else Ret false) in
  let! rf :=
    (if decide (zlen (Log rf) + SnapshotIndex rf <= LastIncludedIndex args \/
                isConfilict = true) then
       Ret (rf <| Log := [MkLogEntry (LastIncludedTerm args) AnyNil] |>)
     else
       let trimIndex := LastIncludedIndex args - SnapshotIndex rf in
       let! log := slice_from (Log rf) trimIndex in
       Ret (rf <| Log := log |>)) in
  let rf := rf <| SnapshotIndex := LastIncludedIndex args |> in
  let rf := rf <| commitIndex := Z.max (commitIndex rf) (LastIncludedIndex args) |> in
  Ret (persist rf).

Definition InstallSnapshot (tpc : ticker_pc) (args : InstallSnapshotArgs) (rf : Raft)
    : res (Raft * InstallSnapshotReply) :=
  if decide (is_Term args < CurrentTerm rf) then
    Ret (rf, MkInstallSnapshotReply (CurrentTerm rf))
  else
    let rf := try_notifyApply rf in
    let reply := MkInstallSnapshotReply (is_Term args) in
    let rf := see_term (is_Term args) rf in
    let! rf := cancel_if_leader rf in
    let rf := rf <| state := Follower |> in
    let! rf := send_rst tpc rf in
    if decide ((SnapshotByte rf <> None /\ LastIncludedIndex args <= SnapshotIndex rf) \/
               (LastIncludedIndex args = SnapshotIndex rf /\
                LastIncludedTerm args = SnapshotTerm rf)) then Ret (rf, reply)
    else
      let rf :=
        if decide (LastIncludedIndex args = SnapshotIndex rf /\
                   LastIncludedTerm args <> SnapshotTerm rf) then
          rf <| lastApplied := LastIncludedIndex args - 1 |>
        else rf in
      let! rf := IS_install args rf in
      Ret (rf, reply).

(** *** Start *)

(** [Start], up to its [go] statement. *)
Definition Start (command : any) (rf : Raft) : Raft * (Z * Z * bool) :=
  if (killed rf : bool) then (rf, (-1, -1, false))
  else if decide (state rf <> Leader) then (rf, (-1, -1, false))
  else
    let index := Loglen rf in
    let term := CurrentTerm rf in
    let rf := persist (rf <| Log := Log rf ++ [MkLogEntry term command] |>) in
    (rf, (index, term, true)).

(** ** What every operation keeps

    [step_ok] is what an operation of a peer guarantees for the election protocol
    and for crash recovery; it is a preorder, so the operations are composed by
    transitivity. *)

Definition encode (rf : Raft) : list gobval :=
  [GobInt (CurrentTerm rf); GobInt (VotedFor rf); GobLog (Log rf); GobInt (SnapshotIndex rf)].

(** Stable storage holds the persistent state, or is still empty. *)
Definition synced (rf : Raft) : Prop :=
  persister rf = MkPersister_ (encode rf) (default [] (SnapshotByte rf)) \/
  persister rf = MakePersister /\ CurrentTerm rf = 0 /\ VotedFor rf = -1 /\
  Log rf = [MkLogEntry 0 AnyNil] /\ SnapshotIndex rf = 0 /\ SnapshotByte rf = None.

Record step_ok (rf rf' : Raft) : Prop := {
  ok_id : npeers rf' = npeers rf /\ me rf' = me rf;
  ok_term : CurrentTerm rf <= CurrentTerm rf';
  ok_vote : CurrentTerm rf' = CurrentTerm rf -> VotedFor rf <> -1 -> VotedFor rf' = VotedFor rf;
  ok_leader : state rf' = Leader -> state rf = Leader /\ CurrentTerm rf' = CurrentTerm rf;
  ok_ctx : (state rf = Leader -> ctx rf <> None) -> state rf' = Leader -> ctx rf' <> None;
  ok_sync : synced rf -> synced rf';
  ok_log : Log rf <> [] -> Log rf' <> [];
}.

#[export] Instance step_ok_preorder : PreOrder step_ok.
Proof.
  split.
  - intros rf. by split.
  - intros a b c [[? ?] ? Vab Lab Cab Sab ?] [[? ?] ? Vbc Lbc Cbc Sbc ?]. split.
    + split; congruence.
    + lia.
    + intros. rewrite Vbc; [apply Vab; [lia|done]|lia|]. rewrite Vab; [done|lia|done].
    + intros [Hb ?]%Lbc. destruct (Lab Hb) as [? ?]. split; [done|lia].
    + auto.
    + auto.
    + auto.
Qed.

(** Read a field of an updated state: [p (rf <| f := v |>)] becomes [v] or [p rf].  The
    equation is proved on variables, so nested updates are never unfolded. *)
Ltac field_eq p f E :=
  first [ constr_eq p f; assert (forall v rf, p (set_field f v rf) = v) as E by reflexivity
        | assert (forall v rf, p (set_field f v rf) = p rf) as E by reflexivity ].
Ltac fields :=
  unfold try_rst, try_notify, try_notifyApply in *;
  repeat match goal with
  | |- context [?p (set_field ?f _ _)] =>
      let E := fresh in field_eq p f E; rewrite !E; clear E
  | |- context [?p (persist _)] =>
      let E := fresh in
      assert (forall rf, p (persist rf) = p rf) as E by reflexivity; rewrite !E; clear E
  | H : context [?p (set_field ?f _ _)] |- _ =>
      let E := fresh in field_eq p f E; rewrite !E in H; clear E
  | H : context [?p (persist _)] |- _ =>
      let E := fresh in
      assert (forall rf, p (persist rf) = p rf) as E by reflexivity; rewrite !E in H; clear E
  end.

Lemma synced_persist rf : synced (persist rf).
Proof. by left. Qed.

Lemma synced_frame rf rf' :
  CurrentTerm rf' = CurrentTerm rf -> VotedFor rf' = VotedFor rf -> Log rf' = Log rf ->
  SnapshotIndex rf' = SnapshotIndex rf -> SnapshotByte rf' = SnapshotByte rf ->
  persister rf' = persister rf -> synced rf -> synced rf'.
Proof. intros HT HV HL HS HB HP. unfold synced, encode. by rewrite HT, HV, HL, HS, HB, HP. Qed.

(** An assignment to volatile fields. *)
Lemma volatile_ok rf rf' :
  npeers rf' = npeers rf -> me rf' = me rf -> CurrentTerm rf' = CurrentTerm rf ->
  VotedFor rf' = VotedFor rf -> Log rf' = Log rf -> SnapshotIndex rf' = SnapshotIndex rf ->
  SnapshotByte rf' = SnapshotByte rf -> persister rf' = persister rf ->
  (state rf' = Leader -> state rf = Leader) -> ctx rf' = ctx rf -> step_ok rf rf'.
Proof.
  intros ?? HT HV HL HS HB HP ? HC. split; rewrite ?HT, ?HV, ?HC, ?HL; auto; [lia|].
  by apply synced_frame.
Qed.

(** A change of the log and snapshot that is saved. *)
Lemma persist_log_ok rf rf' :
  npeers rf' = npeers rf -> me rf' = me rf -> CurrentTerm rf' = CurrentTerm rf ->
  VotedFor rf' = VotedFor rf -> state rf' = state rf -> ctx rf' = ctx rf -> Log rf' <> [] ->
  step_ok rf (persist rf').
Proof.
  intros ?? HT HV ? HC ?. split; fields; rewrite ?HT, ?HV, ?HC; auto; try lia.
  - intros; split; congruence.
  - intros Hc ?. apply Hc. congruence.
  - intros _. apply synced_persist.
Qed.

(** A new term that is saved. *)
Lemma term_ok rf rf' :
  npeers rf' = npeers rf -> me rf' = me rf -> CurrentTerm rf < CurrentTerm rf' ->
  state rf' <> Leader -> Log rf' = Log rf -> synced rf' -> step_ok rf rf'.
Proof. intros. split; auto; try lia; try done. congruence. Qed.

Ltac ok_volatile := apply volatile_ok; fields; try done.

(** Peel the assignments to volatile fields off the final state. *)
Ltac peel :=
  repeat match goal with
  | |- step_ok _ ?t =>
      let t := eval unfold try_rst, try_notify, try_notifyApply in t in
      match t with
      | set_field persister _ _ => fail 1
      | set_field _ _ ?b => transitivity b; [|generalize b; intro; solve [ok_volatile]]
      end
  end.

Lemma cancel_if_leader_eq rf rf' :
  cancel_if_leader rf = Ret rf' -> exists cs, rf' = rf <| cancelled := cs |>.
Proof.
  unfold cancel_if_leader, cancel. destruct (decide (state rf = Leader)).
  - destruct (ctx rf); intros; inv_res; eauto.
  - intros. inv_res. exists (cancelled rf'). by destruct rf'.
Qed.

Lemma cancel_ok rf rf' : cancel rf = Ret rf' -> step_ok rf rf'.
Proof. unfold cancel. case_match; [|done]. intros [= <-]. ok_volatile. Qed.

Lemma cancel_if_leader_ok rf rf' : cancel_if_leader rf = Ret rf' -> step_ok rf rf'.
Proof. unfold cancel_if_leader. case_decide; [apply cancel_ok|]. by intros [= <-]. Qed.

Lemma follower_ok rf : step_ok rf (rf <| state := Follower |>).
Proof. ok_volatile. Qed.

Lemma Snapshot_ok index sn rf rf' : Snapshot index sn rf = Ret rf' -> step_ok rf rf'.
Proof.
  unfold Snapshot. case_decide; intros; inv_res; [done|].
  peel. apply persist_log_ok; fields; try done. intros ->. by rewrite idx_Ret in E0; destruct E0.
Qed.

Lemma RequestVote_ok args rf rf' reply :
  RequestVote args rf = Ret (rf', reply) -> step_ok rf rf'.
Proof.
  unfold RequestVote. intros. case_decide; [by inv_res|]. case_decide.
  - inv_res. destruct a; [by inv_res|]. case_decide; inv_res; [|done].
    peel. split; fields; auto; try lia. intros _. apply synced_persist.
  - inv_res. set (rf1 := a <| state := Follower |>) in *.
    assert (npeers rf1 = npeers rf /\ me rf1 = me rf /\ CurrentTerm rf1 = rv_Term args /\
            state rf1 = Follower /\ Log rf1 = Log rf /\ synced rf1)
      as (Hn & Hm & HT & Hst & HL & Hs).
    { subst rf1. assert (synced (persist (rf <| CurrentTerm := rv_Term args |>))) as Hs
        by apply synced_persist.
      assert (exists st cs, a = persist (rf <| CurrentTerm := rv_Term args |>) <| state := st |>
        <| cancelled := cs |>) as (st & cs & ->).
      { case_decide; inv_res.
        - unfold cancel in E. fields. destruct (ctx rf); inv_res. eauto.
        - by exists (state rf), (cancelled rf). }
      fields. split_and!; done. }
    clearbody rf1.
    destruct a0; inv_res; apply term_ok; fields; try (done || congruence || lia).
    apply synced_persist.
Qed.

(** A newer term learnt from a message, saved at once. *)
Lemma see_term_new t rf :
  t > CurrentTerm rf -> see_term t rf = persist (rf <| CurrentTerm := t |> <| VotedFor := -1 |>).
Proof. intros. unfold see_term. by case_decide. Qed.

Lemma see_term_old t rf : ~ t > CurrentTerm rf -> see_term t rf = rf.
Proof. intros. unfold see_term. by case_decide. Qed.

Lemma see_term_ok t rf : state rf = Follower -> step_ok rf (see_term t rf).
Proof.
  intros Hst. unfold see_term. case_decide; [|done]. apply term_ok; fields; try done; try lia.
  - by rewrite Hst.
  - apply synced_persist.
Qed.

Lemma AE_check_ok args rf rf' reply go :
  AE_check args rf = Ret (rf', reply, go) -> step_ok rf rf'.
Proof.
  unfold AE_check. intros. case_decide; [by inv_res|]. inv_res.
  set (rf1 := see_term _ _) in *.
  assert (step_ok rf rf1) as Hok.
  { transitivity a; [by apply cancel_if_leader_ok|].
    transitivity (a <| state := Follower |>); [apply follower_ok|].
    by apply see_term_ok. }
  clearbody rf1. transitivity (try_rst (me rf1) rf1); [by peel|].
  case_decide; inv_res; [done|]. destruct a0; inv_res; done.
Qed.

Lemma AE_entries_ok args rf rf' :
  zlen (Entries args) > 0 -> AE_entries args rf = Ret (Some rf') -> step_ok rf rf'.
Proof.
  unfold AE_entries. intros Hr He. case_decide; [case_decide; [done|]|]; inv_res;
    apply persist_log_ok; fields; try done; intros [_ Hnil]%app_eq_nil.
  - apply slice_from_Ret in E0 as [? ->]. apply (f_equal length) in Hnil. revert Hnil.
    rewrite length_drop. unfold zlen in *. cbn. lia.
  - by rewrite Hnil in Hr.
Qed.

Lemma AE_commit_ok args rf : step_ok rf (AE_commit args rf).
Proof. unfold AE_commit. case_decide; [|done]. by peel. Qed.

Lemma AE_store_ok args rf rf' : AE_store args rf = Ret rf' -> step_ok rf rf'.
Proof.
  unfold AE_store. intros. case_decide; inv_res; [|apply AE_commit_ok].
  destruct a as [rf1|]; inv_res; [|done].
  transitivity rf1; [by eapply AE_entries_ok|apply AE_commit_ok].
Qed.

Lemma AppendEntries_ok gap args rf rf' reply :
  (forall rf, step_ok rf (gap rf)) ->
  AppendEntries gap args rf = Ret (rf', reply) -> step_ok rf rf'.
Proof.
  intros Hgap. unfold AppendEntries. intros. inv_res. destruct a as [[rf1 r] go].
  apply AE_check_ok in E. destruct go; inv_res; [|done].
  apply AE_store_ok in E0. transitivity rf1; [done|]. etransitivity; [|exact E0].
  case_decide; [apply Hgap|done].
Qed.

Lemma send_rst_ok tpc rf rf' : send_rst tpc rf = Ret rf' -> step_ok rf rf'.
Proof.
  unfold send_rst. case_decide; [destruct tpc; by intros [= <-]|]. intros [= <-]. by peel.
Qed.

Lemma IS_install_ok args rf rf' : IS_install args rf = Ret rf' -> step_ok rf rf'.
Proof.
  unfold IS_install. intros. inv_res.
  assert (npeers a0 = npeers rf /\ me a0 = me rf /\ CurrentTerm a0 = CurrentTerm rf /\
          VotedFor a0 = VotedFor rf /\ state a0 = state rf /\ ctx a0 = ctx rf /\ Log a0 <> [])
    as (? & ? & ? & ? & ? & ? & ?).
  { case_decide; inv_res; [done|]. split_and!; try done. fields.
    apply slice_from_Ret in E1 as [? ->]. intros Hnil%(f_equal length). revert Hnil.
    rewrite length_drop. unfold zlen in *. cbn. lia. }
  apply persist_log_ok; fields; done.
Qed.

Lemma InstallSnapshot_ok tpc args rf rf' reply :
  InstallSnapshot tpc args rf = Ret (rf', reply) -> step_ok rf rf'.
Proof.
  unfold InstallSnapshot. intros. case_decide; [by inv_res|]. inv_res.
  set (rf0 := see_term _ _) in *.
  (* the new term is saved while the peer may still be the leader *)
  assert (step_ok rf (a <| state := Follower |>)) as Hok.
  { assert (npeers a = npeers rf0 /\ me a = me rf0 /\ CurrentTerm a = CurrentTerm rf0 /\
            VotedFor a = VotedFor rf0 /\ Log a = Log rf0 /\ SnapshotIndex a = SnapshotIndex rf0 /\
            SnapshotByte a = SnapshotByte rf0 /\ persister a = persister rf0 /\ ctx a = ctx rf0)
      as (Hn & Hm & HT & HV & HL & HS & HB & HP & HC).
    { clearbody rf0. apply cancel_if_leader_eq in E as [cs ->]. fields. done. }
    destruct (decide (is_Term args > CurrentTerm rf)) as [Hgt|Hle].
    - assert (synced rf0 /\ npeers rf0 = npeers rf /\ me rf0 = me rf /\
              CurrentTerm rf0 = is_Term args /\ Log rf0 = Log rf) as (Hs & ? & ? & ? & ?).
      { subst rf0. rewrite see_term_new by done. fields. split_and!; try done.
        apply synced_persist. }
      clearbody rf0. apply term_ok; fields; [congruence|congruence|lia|done|congruence|].
      eapply synced_frame; [..|exact Hs]; fields; congruence.
    - subst rf0. rewrite see_term_old in * by done.
      transitivity (try_notifyApply rf); [by peel|]. clear E. apply volatile_ok; fields; done. }
  transitivity (a <| state := Follower |>); [done|].
  transitivity a0; [by eapply send_rst_ok|].
  case_decide; inv_res; [done|].
  apply IS_install_ok in E1. etransitivity; [|exact E1].
  case_decide; [|done]. by peel.
Qed.

Lemma Start_ok command rf : step_ok rf (Start command rf).1.
Proof.
  unfold Start. case_match; [done|]. case_decide; [done|].
  apply persist_log_ok; fields; try done. by destruct (Log rf).
Qed.

Lemma Kill_ok rf : step_ok rf (Kill rf).
Proof. unfold Kill. by peel. Qed.

(** *** Recovery *)

(** What survives a crash ([nil] and the empty snapshot are saved alike). *)
Definition persistent (rf : Raft) : Z * Z * list logEntry * Z * bytes :=
  (CurrentTerm rf, VotedFor rf, Log rf, SnapshotIndex rf, default [] (SnapshotByte rf)).

(** The fields recovery does not touch, and those it reads back. *)
Lemma readPersist_encode rf rf0 :
  Log rf <> [] -> persister rf0 = MkPersister_ (encode rf) (default [] (SnapshotByte rf)) ->
  SnapshotByte rf0 = None ->
  exists rf', readPersist (encode rf) rf0 = Ret rf' /\ persistent rf' = persistent rf /\
    npeers rf' = npeers rf0 /\ me rf' = me rf0 /\ state rf' = state rf0 /\
    persister rf' = persister rf0 /\ ctx rf' = ctx rf0 /\ commitIndex rf' = commitIndex rf0 /\
    lastApplied rf' = lastApplied rf0 /\ (SnapshotByte rf' <> None -> notifyApply rf' = true).
Proof.
  intros Hlog Hp HB. unfold readPersist, encode.
  replace (decode_state _) with
    (Some (CurrentTerm rf, VotedFor rf, Log rf, SnapshotIndex rf)) by done.
  cbv beta iota. fields. rewrite Hp. unfold ReadSnapshot, persistent. cbn [snapshot].
  destruct (Log rf) as [|e log]; [done|].
  case_decide as Hlen.
  - eexists. split; [reflexivity|]. unfold try_notifyApply. fields. split_and!; try done.
  - eexists. split; [reflexivity|]. fields. rewrite HB.
    split_and!; try done.
    destruct (SnapshotByte rf) as [[|b l]|]; done.
Qed.

Lemma Make_synced n i rf :
  synced rf -> Log rf <> [] ->
  exists rf', Make n i (persister rf) = Ret rf' /\ persistent rf' = persistent rf /\
    npeers rf' = n /\ me rf' = i /\ state rf' = Follower /\ persister rf' = persister rf /\
    ctx rf' = None /\ synced rf' /\ commitIndex rf' = 0 /\ lastApplied rf' = 0 /\
    (SnapshotByte rf' <> None -> notifyApply rf' = true).
Proof.
  intros [Hs|(HP & HT & HV & HL & HS & HB)] Hlog; unfold Make.
  - rewrite Hs. destruct (readPersist_encode rf (fresh n i (persister rf)) Hlog Hs eq_refl)
      as (rf' & Hr & Hp & ? & ? & ? & Hq & ? & ? & ? & ?).
    rewrite <- Hs. exists rf'. rewrite Hs at 1. split; [done|]. split_and!; try done.
    left. rewrite Hq. unfold fresh. fields. rewrite Hs. unfold persistent, encode in *.
    by injection Hp as -> -> -> -> ->.
  - rewrite HP. exists (fresh n i MakePersister). split; [done|].
    unfold persistent, fresh. fields. rewrite HT, HV, HL, HS, HB. split_and!; try done. by right.
Qed.

(** ** The searches in the log *)

(** The terms of a log never decrease. *)
Definition terms_sorted (log : list logEntry) : Prop :=
  forall (i j : nat) e f, (i <= j)%nat -> log !! i = Some e -> log !! j = Some f -> Term e <= Term f.

Fixpoint terms_sortedb (log : list logEntry) : bool :=
  match log with
  | e :: (f :: _) as log => (Term e <=? Term f) && terms_sortedb log
  | _ => true
  end.

Lemma terms_sortedb_sorted log : terms_sortedb log = true -> terms_sorted log.
Proof.
  induction log as [|e log IH]; [by intros _ [] j ? ? ?|].
  destruct log as [|f log].
  { intros _ [|i] [|j] ? ? ? ? ?; simplify_eq/=; lia. }
  cbn [terms_sortedb]. intros [Hef Hs]%andb_true_iff. specialize (IH Hs).
  intros [|i] [|j] a b ? Ha Hb; simplify_eq/=; try lia.
  - pose proof (IH 0%nat j f b). apply Z.leb_le in Hef. assert (Term f <= Term b) by auto with lia.
    lia.
  - eapply (IH i j); [lia|done|done].
Qed.

(** The term at position [k]. *)
Definition term_at (log : list logEntry) (k : Z) (t : Z) : Prop :=
  exists e, idx log k = Ret e /\ Term e = t.

Lemma term_at_sorted log i j t u :
  terms_sorted log -> i <= j -> term_at log i t -> term_at log j u -> t <= u.
Proof.
  intros Hs Hij (e & [Hi He]%idx_Ret & <-) (f & [Hj Hf]%idx_Ret & <-).
  eapply (Hs (Z.to_nat i) (Z.to_nat j)); [lia|done|done].
Qed.

Lemma mid_bounds low high : 0 <= low <= high -> low <= (low + high) ÷ 2 <= high /\
  (low < high -> (low + high) ÷ 2 < high) /\ 2 * ((low + high) ÷ 2) <= low + high <
  2 * ((low + high) ÷ 2) + 2.
Proof.
  intros. rewrite Z.quot_div_nonneg by lia.
  pose proof (Z.div_mod (low + high) 2). pose proof (Z.mod_pos_bound (low + high) 2). lia.
Qed.

Lemma findFirst_loop_spec fuel log term low high :
  terms_sorted log -> 0 <= low <= high -> high <= zlen log -> high - low < Z.of_nat fuel ->
  (forall k t, k < low -> term_at log k t -> t < term) ->
  exists p, findFirst_loop fuel log term low high = Ret p /\ low <= p <= high /\
    (forall k t, k < p -> term_at log k t -> t < term) /\
    (forall k t, p <= k < high -> term_at log k t -> term <= t).
Proof.
  revert low high. induction fuel as [|fuel IH]; intros low high Hs Hl Hh Hf Hlow; [lia|].
  cbn. case_decide as Hlt; [|exists low; split_and!; auto; lia].
  destruct (mid_bounds low high) as (Hm & Hm' & _); [lia|]. specialize (Hm' Hlt).
  destruct (idx_ok log ((low + high) ÷ 2)) as [e He]; [lia|]. rewrite He. cbn.
  assert (term_at log ((low + high) ÷ 2) (Term e)) as Ht by (by exists e).
  case_decide as Hterm.
  - destruct (IH ((low + high) ÷ 2 + 1) high) as (p & -> & ? & ? & ?); [done|lia|lia|lia| |].
    { intros k t Hk Hkt. pose proof (term_at_sorted log k ((low + high) ÷ 2) t (Term e)).
      assert (t <= Term e) by (auto with zarith). lia. }
    exists p. split_and!; auto; lia.
  - destruct (IH low ((low + high) ÷ 2)) as (p & -> & ? & ? & Hge); [done|lia|lia|lia|done|].
    exists p. split_and!; auto; try lia. intros k t Hk Hkt.
    destruct (decide (k < (low + high) ÷ 2)); [apply (Hge k); [lia|done]|].
    pose proof (term_at_sorted log ((low + high) ÷ 2) k (Term e) t) as Hle.
    assert (Term e <= t) by (apply Hle; [done|lia|done|done]). lia.
Qed.

Lemma findLast_scan_spec fuel log term low i :
  0 <= low -> i < zlen log -> low - 1 <= i -> i - low + 1 < Z.of_nat fuel ->
  (low = 0 \/ exists t, term_at log low t /\ t <= term) ->
  (forall k t, i < k -> term_at log k t -> term < t) ->
  exists p, findLast_scan fuel log term low i = Ret p /\ low <= p /\
    (i < low \/ p < zlen log) /\
    (forall k t, p < k -> term_at log k t -> term < t) /\
    (p = 0 \/ i < low \/ exists t, term_at log p t /\ t <= term).
Proof.
  revert i. induction fuel as [|fuel IH]; intros i Hl Hi Hli Hf Hlow Hgt; [lia|].
  cbn. case_decide as Hge.
  2: { exists low. split_and!; auto; try lia. intros k t Hk. apply Hgt. lia. }
  destruct (idx_ok log i) as [e He]; [lia|]. rewrite He. cbn.
  case_decide as Hterm.
  - exists i. split_and!; auto; try lia. right; right. exists (Term e). split; [by exists e|done].
  - assert (forall k t, i - 1 < k -> term_at log k t -> term < t) as Hgt'.
    { intros k t Hk Hkt. destruct (decide (k = i)) as [->|]; [|apply (Hgt k); [lia|done]].
      destruct Hkt as (e' & He' & <-). rewrite He in He'. inv_res. lia. }
    destruct (decide (i = low)) as [->|Hne].
    { exists low. destruct Hlow as [->|(t & Ht & ?)].
      - split_and!; auto; try lia.
        destruct fuel; [lia|]. cbn. by case_decide; [lia|].
      - exfalso. pose proof (Hgt' low t). assert (term < t) by (auto with zarith). lia. }
    destruct (IH (i - 1)) as (p & -> & ? & ? & ? & Hp); auto; try lia.
    exists p. split_and!; auto; [right; lia|]. destruct Hp as [?|[?|?]]; auto. lia.
Qed.

Lemma findLast_loop_spec fuel log term low index :
  terms_sorted log -> 0 <= low <= index -> index < zlen log -> index - low < Z.of_nat fuel ->
  (low = 0 \/ exists t, term_at log low t /\ t <= term) ->
  (forall k t, index < k -> term_at log k t -> term < t) ->
  exists p, findLast_loop fuel log term low index = Ret p /\ 0 <= p < zlen log /\
    (forall k t, p < k -> term_at log k t -> term < t) /\
    (p = 0 \/ exists t, term_at log p t /\ t <= term).
Proof.
  revert low index. induction fuel as [|fuel IH]; intros low index Hs Hl Hi Hf Hlow Hgt; [lia|].
  cbn [findLast_loop]. destruct (mid_bounds low index) as (Hm & _ & Hd); [lia|].
  destruct (idx_ok log ((low + index) ÷ 2)) as [e He]; [lia|]. rewrite He. cbn [res_bind].
  set (m := (low + index) ÷ 2) in *.
  assert (term_at log m (Term e)) as Ht by (by exists e).
  assert (exists low' index', (if decide (Term e <= term) then (m, index) else (low, m)) =
    (low', index') /\ 0 <= low' <= index' /\ index' < zlen log /\
    (index' - low' > 10 -> index' - low' < index - low) /\
    (low' = 0 \/ exists t, term_at log low' t /\ t <= term) /\
    (forall k t, index' < k -> term_at log k t -> term < t))
    as (low' & index' & -> & ? & ? & ? & Hlow' & Hgt').
  { case_decide; eexists _, _; (split; [done|]); split_and!; try lia; eauto.
    intros k t Hk Hkt. pose proof (term_at_sorted log m k (Term e) t).
    assert (Term e <= t) by (auto with zarith). lia. }
  clearbody m. case_decide; [|apply IH; auto; lia].
  destruct (findLast_scan_spec (S (S (Z.to_nat (index' - low')))) log term low' index')
    as (p & -> & ? & ? & ? & ?); auto; try lia.
  exists p. split_and!; auto; try lia. naive_solver lia.
Qed.

(** C17 (the follower's search).  In a log whose terms never decrease, the search for
    the first position of a term above the snapshot's stops within its range and finds
    the least position at or below [index] from where the terms are at least [term];
    position 0 is moved to 1 when the log starts with the dummy entry. *)
Theorem findFirstIndex_first rf term index :
  terms_sorted (Log rf) -> 0 <= index <= zlen (Log rf) -> SnapshotTerm rf < term ->
  exists low, findFirstIndex term index rf =
      Ret (if decide (low = 0 /\ SnapshotIndex rf = 0) then 1 else low) /\
    0 <= low <= index /\
    (forall k t, k < low -> term_at (Log rf) k t -> t < term) /\
    (forall k t, low <= k < index -> term_at (Log rf) k t -> term <= t).
Proof.
  intros Hs Hi Ht. unfold findFirstIndex. case_decide; [lia|].
  destruct (findFirst_loop_spec (S (Z.to_nat index)) (Log rf) term 0 index)
    as (p & -> & ? & ? & ?); try done; [lia|lia|lia| |].
  { intros k t Hk (e & He & _). apply idx_range in He. lia. }
  exists p. cbn. split_and!; auto; try lia. by case_decide.
Qed.

(** The leader's search.  In a non-empty log whose terms never decrease, for a
    term at least the snapshot's, the search stops at a position of the log after
    which every term is larger; the term found there is at most [term] unless it is
    position 0. *)
Lemma findLastIndex_last rf term :
  terms_sorted (Log rf) -> Log rf <> [] -> SnapshotTerm rf <= term ->
  exists p, findLastIndex term rf = Ret p /\ 0 <= p < zlen (Log rf) /\
    (forall k t, p < k -> term_at (Log rf) k t -> term < t) /\
    (p = 0 \/ exists t, term_at (Log rf) p t /\ t <= term).
Proof.
  intros Hs Hne Ht. unfold findLastIndex. pose proof (zlen_pos _ Hne).
  case_decide; [lia|]. apply findLast_loop_spec; try done; try lia; auto.
  - unfold zlen. lia.
  - intros k t Hk (e & He & _). apply idx_range in He. lia.
Qed.

Definition search_log : list logEntry :=
  [MkLogEntry 0 AnyNil; MkLogEntry 1 AnyNil; MkLogEntry 1 AnyNil; MkLogEntry 3 AnyNil].
Definition search_rf : Raft := (fresh 3 0 MakePersister) <| Log := search_log |>.

Lemma findFirstIndex_first_witness :
  findFirstIndex 1 2 search_rf = Ret 1 /\
  exists low, findFirstIndex 1 2 search_rf =
      Ret (if decide (low = 0 /\ SnapshotIndex search_rf = 0) then 1 else low) /\
    0 <= low <= 2 /\
    (forall k t, k < low -> term_at (Log search_rf) k t -> t < 1) /\
    (forall k t, low <= k < 2 -> term_at (Log search_rf) k t -> 1 <= t).
Proof.
  split; [by vm_compute|].
  apply (findFirstIndex_first search_rf 1 2); [by apply terms_sortedb_sorted|cbv; split; congruence|done].
Defined.

Lemma findLastIndex_last_ex :
  findLastIndex 2 search_rf = Ret 2 /\
  exists p, findLastIndex 2 search_rf = Ret p /\ 0 <= p < zlen (Log search_rf) /\
    (forall k t, p < k -> term_at (Log search_rf) k t -> 2 < t) /\
    (p = 0 \/ exists t, term_at (Log search_rf) p t /\ t <= 2).
Proof.
  split; [by vm_compute|].
  apply (findLastIndex_last search_rf 2); [by apply terms_sortedb_sorted|done|by cbv].
Defined.

(** ** The log as a map from indices to entries

    [entry_at rf i] is the entry with absolute index [i], for the indices the peer
    still holds: the handlers are specified by it, whatever is trimmed. *)

Definition entry_at (rf : Raft) (i : Z) : option logEntry :=
  if decide (SnapshotIndex rf <= i) then Log rf !! Z.to_nat (i - SnapshotIndex rf) else None.

(** A peer's log holds the entry of the snapshot (or the dummy entry) first, and a
    leader has a context. *)
Record wf (rf : Raft) : Prop := {
  wf_log : Log rf <> [];
  wf_snap : 0 <= SnapshotIndex rf;
  wf_ctx : state rf = Leader -> ctx rf <> None;
}.

Lemma entry_at_lt rf i e : entry_at rf i = Some e -> SnapshotIndex rf <= i < Loglen rf.
Proof.
  unfold entry_at, Loglen, zlen. case_decide; [|done]. intros Hi%lookup_lt_Some. lia.
Qed.

Lemma entry_at_Some rf i :
  SnapshotIndex rf <= i < Loglen rf -> exists e, entry_at rf i = Some e.
Proof.
  unfold entry_at, Loglen, zlen. intros. case_decide; [|lia].
  apply lookup_lt_is_Some_2. lia.
Qed.

Lemma entry_at_idx rf i e :
  0 <= SnapshotIndex rf -> idx (Log rf) (idxInLog rf i) = Ret e <-> entry_at rf i = Some e.
Proof.
  intros. rewrite idx_Ret. unfold entry_at, idxInLog. case_decide; naive_solver lia.
Qed.

Lemma entry_at_frame rf rf' i :
  Log rf' = Log rf -> SnapshotIndex rf' = SnapshotIndex rf -> entry_at rf' i = entry_at rf i.
Proof. unfold entry_at. by intros -> ->. Qed.

Lemma cancel_if_leader_returns rf : wf rf -> exists rf', cancel_if_leader rf = Ret rf'.
Proof.
  intros [_ _ Hc]. unfold cancel_if_leader, cancel. case_decide; [|eauto].
  destruct (ctx rf); [eauto|]. by destruct Hc.
Qed.

(** *** Votes *)

(** The log order of elections, on (term, index) of the last entries. *)
Definition log_le (t i t' i' : Z) : Prop := t < t' \/ t = t' /\ i <= i'.

#[export] Instance log_le_dec t i t' i' : Decision (log_le t i t' i').
Proof. unfold log_le. apply _. Defined.

Definition last_term (rf : Raft) : option Z := Term <$> last (Log rf).

Lemma idx_last {A} (l : list A) : l <> [] -> exists x, idx l (zlen l - 1) = Ret x /\ last l = Some x.
Proof.
  intros Hl. destruct (idx_ok l (zlen l - 1)) as [x Hx]; [pose proof (zlen_pos l Hl); lia|].
  exists x. split; [done|]. apply idx_Ret in Hx as [_ Hx]. rewrite last_lookup, <- Hx.
  f_equal. unfold zlen. lia.
Qed.

Lemma outdated_spec args rf :
  Log rf <> [] ->
  exists t, last_term rf = Some t /\
    outdated args rf =
      Ret (bool_decide (~ log_le t (Loglen rf - 1) (LastLogTerm args) (LastLogIndex args))).
Proof.
  intros Hl. destruct (idx_last (Log rf) Hl) as (e & He & Hlast).
  exists (Term e). unfold last_term, outdated. rewrite Hlast, He. split; [done|].
  pose proof (zlen_pos _ Hl). case_decide; [lia|]. cbn. f_equal.
  apply bool_decide_ext. unfold log_le. lia.
Qed.

(** C15 (who gets the vote).  The handler returns; it grants its vote exactly when the
    candidate's term is not old, its log is at least as good as the peer's own in the
    (last term, last index) order, and, within the peer's term, the vote is free or
    already the candidate's; a granted vote is recorded for the candidate's term, and
    saved. *)
Theorem RequestVote_grants args rf :
  wf rf ->
  exists rf' reply t, RequestVote args rf = Ret (rf', reply) /\ last_term rf = Some t /\
    (VoteGranted reply = true <->
       CurrentTerm rf <= rv_Term args /\
       log_le t (Loglen rf - 1) (LastLogTerm args) (LastLogIndex args) /\
       (CurrentTerm rf < rv_Term args \/ VotedFor rf = -1 \/ VotedFor rf = CandidateId args)) /\
    (VoteGranted reply = true ->
       CurrentTerm rf' = rv_Term args /\ VotedFor rf' = CandidateId args /\
       rvr_Term reply = rv_Term args /\ synced rf').
Proof.
  intros [Hl _ Hc]. unfold RequestVote. case_decide as Hold.
  { destruct (outdated_spec args rf Hl) as (t & Ht & _).
    exists rf, (MkRequestVoteReply (CurrentTerm rf) false), t. cbn. split_and!; try done; lia. }
  case_decide as Heq.
  - destruct (outdated_spec args rf Hl) as (t & Ht & ->). cbn. case_bool_decide as Hb.
    { eexists _, _, t. split; [done|]. cbn. split_and!; try done. naive_solver. }
    case_decide as Hv.
    + eexists _, _, t. split; [done|]. cbn. fields.
      split_and!; try done; try naive_solver lia. intros _. split_and!; try done.
      eapply synced_frame; [..|apply synced_persist]; done.
    + eexists _, _, t. split; [done|]. cbn. split_and!; try done. naive_solver lia.
  - set (rf0 := persist (rf <| CurrentTerm := rv_Term args |>)).
    assert (exists cs, (if decide (state rf0 = Leader) then cancel (rf0 <| state := Follower |>)
      else Ret rf0) = Ret (rf0 <| state := (if decide (state rf = Leader) then Follower
         else state rf) |> <| cancelled := cs |>)) as (cs & ->).
    { change (state rf0) with (state rf). case_decide as Hst; [|by exists (cancelled rf)].
      unfold cancel. fields. change (ctx rf0) with (ctx rf).
      destruct (ctx rf); [by eexists|by destruct (Hc Hst)]. }
    cbn [res_bind].
    set (rf1 := (rf0 <| state := _ |> <| cancelled := cs |>) <| state := Follower |>).
    assert (Log rf1 = Log rf /\ Loglen rf1 = Loglen rf /\ last_term rf1 = last_term rf /\
            CurrentTerm rf1 = rv_Term args) as (HL & HLL & Hlt & HT) by done.
    destruct (outdated_spec args rf1) as (t & Ht & ->); [by rewrite HL|].
    clearbody rf1. rewrite HLL. cbn [res_bind]. rewrite <- Hlt. case_bool_decide as Hb.
    { eexists _, _, t. split; [done|]. cbn. split_and!; try done. naive_solver. }
    eexists _, _, t. split; [done|]. cbn. fields.
    split_and!; try done; [naive_solver lia|]. intros _. split_and!; try done.
    apply synced_persist.
Qed.

(** A peer in term 2 whose last entry is of term 1. *)
Definition voter : Raft :=
  (fresh 3 1 MakePersister) <| CurrentTerm := 2 |>
    <| Log := [MkLogEntry 0 AnyNil; MkLogEntry 1 (AnyInt 7)] |>.

Lemma voter_wf : wf voter.
Proof. by split. Qed.

Lemma RequestVote_grants_witness :
  let args := MkRequestVoteArgs 2 0 1 1 in
  exists rf' reply t, RequestVote args voter = Ret (rf', reply) /\ last_term voter = Some t /\
    (VoteGranted reply = true <->
       CurrentTerm voter <= rv_Term args /\
       log_le t (Loglen voter - 1) (LastLogTerm args) (LastLogIndex args) /\
       (CurrentTerm voter < rv_Term args \/ VotedFor voter = -1 \/
        VotedFor voter = CandidateId args)) /\
    (VoteGranted reply = true ->
       CurrentTerm rf' = rv_Term args /\ VotedFor rf' = CandidateId args /\
       rvr_Term reply = rv_Term args /\ synced rf').
Proof. apply RequestVote_grants. apply voter_wf. Defined.

(** *** AppendEntries *)

(** A log cut after index [keep] and continued with the entries [es] that follow index
    [prev], from the one after [keep] on. *)
Lemma entry_at_splice rf rf' keep prev es :
  SnapshotIndex rf <= keep < Loglen rf -> prev <= keep ->
  SnapshotIndex rf' = SnapshotIndex rf ->
  Log rf' = take (Z.to_nat (keep + 1 - SnapshotIndex rf)) (Log rf) ++
            drop (Z.to_nat (keep - prev)) es ->
  (forall i, i <= keep -> entry_at rf' i = entry_at rf i) /\
  (forall k : nat, keep < prev + 1 + Z.of_nat k -> entry_at rf' (prev + 1 + Z.of_nat k) = es !! k) /\
  Loglen rf' = keep + 1 + Z.max 0 (zlen es - (keep - prev)).
Proof.
  unfold entry_at, Loglen, zlen. intros Hk Hp HS HL. rewrite HS, HL.
  assert (length (take (Z.to_nat (keep + 1 - SnapshotIndex rf)) (Log rf)) =
          Z.to_nat (keep + 1 - SnapshotIndex rf)) as Hlen by (rewrite length_take; lia).
  split_and!.
  - intros i Hi. case_decide; [|done]. rewrite lookup_app_l by lia.
    rewrite lookup_take. case_decide; [done|lia].
  - intros k Hik. case_decide; [|lia]. rewrite lookup_app_r by lia.
    rewrite lookup_drop. f_equal. lia.
  - rewrite length_app, length_drop, Hlen. lia.
Qed.

Lemma AE_entries_eq args rf :
  SnapshotIndex rf <= PrevLogIndex args < Loglen rf -> commitIndex rf < Loglen rf ->
  let keep := Z.max (commitIndex rf) (PrevLogIndex args) in
  AE_entries args rf =
    if decide (commitIndex rf > PrevLogIndex args /\
               zlen (Entries args) <= commitIndex rf - PrevLogIndex args) then Ret None
    else Ret (Some (persist (rf <| Log :=
      take (Z.to_nat (keep + 1 - SnapshotIndex rf)) (Log rf) ++
      drop (Z.to_nat (keep - PrevLogIndex args)) (Entries args) |>))).
Proof.
  cbv zeta. unfold Loglen. intros Hp Hc. unfold AE_entries.
  repeat case_decide; try lia; try done.
  - rewrite (proj2 (slice_to_Ret _ _ _)) by (split; [lia|done]). cbn [res_bind].
    rewrite (proj2 (slice_from_Ret _ _ _)) by (split; [lia|done]). cbn [res_bind].
    by rewrite Z.max_l by lia.
  - rewrite (proj2 (slice_to_Ret _ _ _)) by (split; [lia|done]). cbn [res_bind].
    rewrite Z.max_r by lia. by replace (Z.to_nat (PrevLogIndex args - PrevLogIndex args)) with 0%nat by lia.
Qed.

Lemma AE_commit_frame args rf :
  Log (AE_commit args rf) = Log rf /\ SnapshotIndex (AE_commit args rf) = SnapshotIndex rf /\
  state (AE_commit args rf) = state rf /\ ctx (AE_commit args rf) = ctx rf /\
  Loglen (AE_commit args rf) = Loglen rf.
Proof. unfold AE_commit. by case_decide. Qed.

Lemma AE_commit_bounds args rf :
  commitIndex rf < Loglen rf ->
  commitIndex rf <= commitIndex (AE_commit args rf) < Loglen rf.
Proof. unfold AE_commit. case_decide; fields; lia. Qed.

(** What the store guarantees, between its states. *)
Record stored (args : AppendEntriesArgs) (rf rf' : Raft) : Prop := {
  st_keep : forall i, i <= Z.max (commitIndex rf) (PrevLogIndex args) ->
              entry_at rf' i = entry_at rf i;
  st_new : forall (k : nat) e, Entries args !! k = Some e ->
             commitIndex rf < PrevLogIndex args + 1 + Z.of_nat k ->
             entry_at rf' (PrevLogIndex args + 1 + Z.of_nat k) = Some e;
  st_commit : commitIndex rf <= commitIndex rf' < Loglen rf';
  st_wf : wf rf';
}.

Lemma AE_store_spec args rf :
  wf rf -> SnapshotIndex rf <= PrevLogIndex args < Loglen rf -> commitIndex rf < Loglen rf ->
  exists rf', AE_store args rf = Ret rf' /\ stored args rf rf'.
Proof.
  intros Hwf Hp Hc. unfold AE_store.
  destruct (AE_commit_frame args rf) as (HL & HS & Hst & Hctx & HLL).
  case_decide as He.
  2: { exists (AE_commit args rf). split; [done|]. split.
       - intros. by apply entry_at_frame.
       - intros k e Hk%lookup_lt_Some. unfold zlen in He. lia.
       - rewrite HLL. by apply AE_commit_bounds.
       - destruct Hwf. split; [by rewrite HL|by rewrite HS|by rewrite Hst, Hctx]. }
  rewrite (AE_entries_eq args rf) by done. case_decide as Hshort; cbn [res_bind].
  - exists rf. split; [done|]. split; try done; try lia.
    intros k e Hk%lookup_lt_Some. unfold zlen in Hshort. lia.
  - clear HL HS Hst Hctx HLL.
    set (keep := Z.max _ _). set (rf1 := persist _).
    destruct (AE_commit_frame args rf1) as (HL & HS & Hst & Hctx & HLL).
    destruct (entry_at_splice rf rf1 keep (PrevLogIndex args) (Entries args))
      as (Hkeep & Hnew & Hlen); [lia|lia|done|done|].
    assert (commitIndex rf1 = commitIndex rf /\ state rf1 = state rf /\ ctx rf1 = ctx rf /\
            SnapshotIndex rf1 = SnapshotIndex rf) as (Hc1 & Hst1 & Hctx1 & HS1) by done.
    assert (Log rf1 <> []) as Hne.
    { intros Hnil. unfold Loglen in Hlen. rewrite Hnil in Hlen. unfold zlen in Hlen.
      unfold Loglen in *. cbn in Hlen. lia. }
    clearbody rf1. exists (AE_commit args rf1). split; [done|]. split.
    + intros i Hi. rewrite <- Hkeep by done. by apply entry_at_frame.
    + intros k e Hk Hck. rewrite (entry_at_frame rf1) by done. rewrite Hnew; [done|lia].
    + rewrite HLL, <- Hc1. apply AE_commit_bounds. rewrite Hc1. lia.
    + destruct Hwf. split; [by rewrite HL|by rewrite HS, HS1|by rewrite Hst, Hctx, Hst1, Hctx1].
Qed.

Lemma findFirst_loop_returns fuel log term low high :
  0 <= low <= high -> high <= zlen log -> high - low < Z.of_nat fuel ->
  returns (findFirst_loop fuel log term low high).
Proof.
  revert low high. induction fuel as [|fuel IH]; intros low high Hl Hh Hf; [lia|].
  cbn. case_decide as Hlt; [|by eexists].
  destruct (mid_bounds low high) as (Hm & Hm' & _); [lia|]. specialize (Hm' Hlt).
  destruct (idx_ok log ((low + high) ÷ 2)) as [e ->]; [lia|]. cbn.
  case_decide; apply IH; lia.
Qed.

Lemma findFirstIndex_returns term index rf :
  0 <= index <= zlen (Log rf) -> returns (findFirstIndex term index rf).
Proof.
  intros. unfold findFirstIndex. case_decide; [by eexists|].
  destruct (findFirst_loop_returns (S (Z.to_nat index)) (Log rf) term 0 index) as [p ->];
    [lia|lia|lia|]. cbn. case_decide; by eexists.
Qed.

Lemma see_term_frame t rf :
  Log (see_term t rf) = Log rf /\ SnapshotIndex (see_term t rf) = SnapshotIndex rf /\
  commitIndex (see_term t rf) = commitIndex rf /\ state (see_term t rf) = state rf /\
  CurrentTerm (see_term t rf) = Z.max (CurrentTerm rf) t.
Proof.
  destruct (decide (t > CurrentTerm rf)).
  - rewrite see_term_new by done. split_and!; try done. fields. lia.
  - rewrite see_term_old by done. split_and!; try done. lia.
Qed.

(** The check leaves the log and the commit index as they are. *)
Lemma AE_check_spec args rf :
  wf rf -> SnapshotIndex rf <= PrevLogIndex args ->
  exists rf' reply go, AE_check args rf = Ret (rf', reply, go) /\
    Log rf' = Log rf /\ SnapshotIndex rf' = SnapshotIndex rf /\
    commitIndex rf' = commitIndex rf /\ wf rf' /\ go = Success reply /\
    (go = true <-> CurrentTerm rf <= ae_Term args /\
       exists e, entry_at rf (PrevLogIndex args) = Some e /\ Term e = PrevLogTerm args) /\
    (go = false -> CurrentTerm rf <= ae_Term args -> Loglen rf <= PrevLogIndex args ->
       XTerm reply = 0 /\ XLength reply = Loglen rf) /\
    (go = false -> CurrentTerm rf <= ae_Term args ->
       forall e, entry_at rf (PrevLogIndex args) = Some e ->
         XTerm reply = Term e /\ Term e <> PrevLogTerm args /\ XLength reply = 0) /\
    aer_Term reply = Z.max (CurrentTerm rf) (ae_Term args).
Proof.
  intros Hwf Hp. unfold AE_check. case_decide as Hold.
  { eexists _, _, _. split; [done|]. cbn. split_and!; try done; try lia. }
  destruct (cancel_if_leader_returns rf Hwf) as [a Ha]. rewrite Ha. cbn [res_bind].
  apply cancel_if_leader_eq in Ha as [cs ->].
  set (rf0 := (rf <| cancelled := cs |>) <| state := Follower |>).
  destruct (see_term_frame (ae_Term args) rf0) as (HL & HS & Hc & Hst & HT).
  set (rf1 := see_term (ae_Term args) rf0) in *.
  assert (Log rf1 = Log rf /\ SnapshotIndex rf1 = SnapshotIndex rf /\
    commitIndex rf1 = commitIndex rf /\ state rf1 = Follower /\
    CurrentTerm rf1 = Z.max (CurrentTerm rf) (ae_Term args)) as (HL1 & HS1 & Hc1 & Hst1 & HT1)
    by done.
  clear HL HS Hc Hst HT. clearbody rf1. subst rf0. cbv zeta. fields.
  set (rf2 := rf1 <| rst := _ |>).
  assert (Log rf2 = Log rf /\ SnapshotIndex rf2 = SnapshotIndex rf /\
    commitIndex rf2 = commitIndex rf /\ state rf2 = Follower)
    as (HL2 & HS2 & Hc2 & Hst2) by done.
  assert (wf rf2) as Hwf2.
  { destruct Hwf. split; rewrite ?HL2, ?HS2, ?Hst2; done. }
  clearbody rf2.
  assert (Loglen rf1 = Loglen rf) as HLL by (unfold Loglen; by rewrite HL1, HS1).
  assert (idxInLog rf1 (PrevLogIndex args) = idxInLog rf (PrevLogIndex args)) as HI
    by (unfold idxInLog; by rewrite HS1).
  rewrite HLL, HI, HL1, HT1. case_decide as Hlong.
  { eexists _, _, _. split; [done|]. cbn. split_and!; try done.
    - split; [done|]. intros (_ & e & He%entry_at_lt & _). lia.
    - intros _ _ e He%entry_at_lt. lia. }
  destruct (entry_at_Some rf (PrevLogIndex args)) as [e He]; [lia|].
  assert (0 <= SnapshotIndex rf) as Hsnap by apply Hwf.
  assert (idx (Log rf) (idxInLog rf (PrevLogIndex args)) = Ret e) as Hidx
    by (by apply entry_at_idx).
  rewrite Hidx. pose proof (idx_range _ _ _ Hidx). cbn [res_bind].
  destruct (decide (zlen (Log rf) > idxInLog rf (PrevLogIndex args))); [|lia]. cbn [res_bind].
  case_bool_decide as Hconf.
  - destruct (findFirstIndex_returns (Term e) (idxInLog rf (PrevLogIndex args)) rf2) as [p ->];
      [rewrite HL2; lia|]. cbn [res_bind].
    eexists _, _, _. split; [done|]. cbn. split_and!; try done.
    + split; [done|]. intros (_ & e' & He' & ?). congruence.
    + lia.
    + intros _ _ e' He'. split_and!; congruence.
  - eexists _, _, _. split; [done|]. cbn. split_and!; try done.
    split; [|done]. intros _. split; [lia|]. by exists e.
Qed.

(** A success stores the entries. *)
Lemma AppendEntries_success args rf rf' reply :
  wf rf -> SnapshotIndex rf <= PrevLogIndex args -> commitIndex rf < Loglen rf ->
  AppendEntries (fun rf => rf) args rf = Ret (rf', reply) -> Success reply = true ->
  (exists e, entry_at rf (PrevLogIndex args) = Some e /\ Term e = PrevLogTerm args) /\
  stored args rf rf'.
Proof.
  intros Hwf Hp Hc HA Hs. unfold AppendEntries in HA.
  destruct (AE_check_spec args rf Hwf Hp)
    as (rf1 & r & go & Hr & HL & HS & Hci & Hwf1 & Hgo & Hiff & _).
  rewrite Hr in HA. cbn [res_bind] in HA. destruct go; [|inv_res; congruence].
  destruct (proj1 Hiff eq_refl) as (_ & e & Hat & Hterm). split; [by exists e|].
  apply entry_at_lt in Hat.
  assert (Loglen rf1 = Loglen rf) as HLL by (unfold Loglen; by rewrite HL, HS).
  destruct (AE_store_spec args rf1) as (rf2 & Hst & [Hk Hn Hcc Hw]); [done|lia|lia|].
  replace (if decide (zlen (Entries args) > 0) then rf1 else rf1) with rf1 in HA
    by (by case_decide).
  rewrite Hst in HA. inv_res. rewrite Hci in *. split; try done.
  intros i Hi. rewrite Hk by done. by apply entry_at_frame.
Qed.

(** C11 (AppendEntries).  When [PrevLogIndex] is not below the peer's snapshot, its commit index is in its
    log, and nothing else happens at the peer while the handler does not hold the lock, the handler
    returns.  (Below the snapshot it panics: [AppendEntries_before_snapshot].)  It succeeds exactly when
    the term is not old and the peer has an entry of the given term at [PrevLogIndex].  No entry up to the
    commit index, nor up to [PrevLogIndex], changes, and the commit index does not decrease nor leave the
    log.  After a success every sent entry above the commit index is in the log, at its index. *)
Theorem AppendEntries_stores args rf :
  wf rf -> SnapshotIndex rf <= PrevLogIndex args -> commitIndex rf < Loglen rf ->
  exists rf' reply, AppendEntries (fun rf => rf) args rf = Ret (rf', reply) /\
    (Success reply = true <-> CurrentTerm rf <= ae_Term args /\
       exists e, entry_at rf (PrevLogIndex args) = Some e /\ Term e = PrevLogTerm args) /\
    (forall i, i <= Z.max (commitIndex rf) (PrevLogIndex args) ->
       entry_at rf' i = entry_at rf i) /\
    commitIndex rf <= commitIndex rf' < Loglen rf' /\
    (Success reply = true -> forall (k : nat) e, Entries args !! k = Some e ->
       commitIndex rf < PrevLogIndex args + 1 + Z.of_nat k ->
       entry_at rf' (PrevLogIndex args + 1 + Z.of_nat k) = Some e).
Proof.
  intros Hwf Hp Hc. unfold AppendEntries.
  destruct (AE_check_spec args rf Hwf Hp)
    as (rf1 & reply & go & -> & HL & HS & Hci & Hwf1 & Hgo & Hiff & _).
  cbn [res_bind].
  assert (forall i, entry_at rf1 i = entry_at rf i) as He by (intros; by apply entry_at_frame).
  assert (Loglen rf1 = Loglen rf) as HLL by (unfold Loglen; by rewrite HL, HS).
  destruct go.
  - replace (if decide (zlen (Entries args) > 0) then rf1 else rf1) with rf1
      by (by case_decide).
    destruct (proj1 Hiff eq_refl) as (_ & e & Hat%entry_at_lt & _).
    destruct (AE_store_spec args rf1) as (rf2 & -> & [Hk Hn Hcc _]); [done|lia|lia|].
    cbn [res_bind]. exists rf2, reply. split; [done|]. split_and!.
    + rewrite <- Hgo. exact Hiff.
    + intros i Hi. rewrite <- He. apply Hk. lia.
    + lia.
    + lia.
    + intros _ k e' Hke Hck. apply Hn; [done|lia].
  - exists rf1, reply. split; [done|]. split_and!; [rewrite <- Hgo; exact Hiff|auto|lia|lia|].
    by rewrite <- Hgo.
Qed.

Definition ae_example : AppendEntriesArgs :=
  MkAppendEntriesArgs 2 0 1 1 [MkLogEntry 2 (AnyInt 8)] 2.

Lemma AppendEntries_stores_witness :
  exists rf' reply, AppendEntries (fun rf => rf) ae_example voter = Ret (rf', reply) /\
    (Success reply = true <-> CurrentTerm voter <= ae_Term ae_example /\
       exists e, entry_at voter (PrevLogIndex ae_example) = Some e /\
                 Term e = PrevLogTerm ae_example) /\
    (forall i, i <= Z.max (commitIndex voter) (PrevLogIndex ae_example) ->
       entry_at rf' i = entry_at voter i) /\
    commitIndex voter <= commitIndex rf' < Loglen rf' /\
    (Success reply = true -> forall (k : nat) e, Entries ae_example !! k = Some e ->
       commitIndex voter < PrevLogIndex ae_example + 1 + Z.of_nat k ->
       entry_at rf' (PrevLogIndex ae_example + 1 + Z.of_nat k) = Some e).
Proof. apply AppendEntries_stores; [apply voter_wf|done|done]. Defined.

(** A message of the current term with entries, accepted above the commit index, leaves
    in the log nothing after its own entries, even where the log agreed with them: the
    handler does not look for a conflict before it truncates. *)
Theorem AppendEntries_truncates args rf rf' reply :
  wf rf -> SnapshotIndex rf <= PrevLogIndex args -> commitIndex rf <= PrevLogIndex args ->
  commitIndex rf < Loglen rf -> Entries args <> [] ->
  AppendEntries (fun rf => rf) args rf = Ret (rf', reply) -> Success reply = true ->
  Loglen rf' = PrevLogIndex args + 1 + zlen (Entries args).
Proof.
  intros Hwf Hp Hcp Hc Hne HA HS. unfold AppendEntries in HA.
  destruct (AE_check_spec args rf Hwf Hp)
    as (rf1 & r & go & Hr & HL & HSI & Hci & Hwf1 & Hgo & Hiff & _).
  rewrite Hr in HA. cbn [res_bind] in HA. pose proof (zlen_pos _ Hne).
  assert (Loglen rf1 = Loglen rf) as HLL by (unfold Loglen; by rewrite HL, HSI).
  destruct go; [|inv_res; congruence]. destruct (proj1 Hiff eq_refl) as (_ & e & Hat%entry_at_lt & _).
  case_decide; [|lia]. unfold AE_store in HA. case_decide; [|lia].
  rewrite (AE_entries_eq args rf1) in HA by lia. case_decide; [lia|].
  cbn [res_bind] in HA. inv_res.
  destruct (AE_commit_frame args
    (persist rf1 <| Log := take (Z.to_nat (Z.max (commitIndex rf1) (PrevLogIndex args) + 1 -
        SnapshotIndex rf1)) (Log rf1) ++ drop (Z.to_nat (Z.max (commitIndex rf1)
        (PrevLogIndex args) - PrevLogIndex args)) (Entries args) |>)) as (_ & _ & _ & _ & ->).
  match goal with |- Loglen ?r = _ =>
    destruct (entry_at_splice rf1 r (PrevLogIndex args) (PrevLogIndex args) (Entries args))
      as (_ & _ & ->) end; [lia|lia|done| |lia].
  fields. by rewrite Z.max_r by lia.
Qed.

(** A delayed message about entries a snapshot has replaced stops the peer. *)
Theorem AppendEntries_before_snapshot args rf :
  wf rf -> CurrentTerm rf <= ae_Term args -> PrevLogIndex args < SnapshotIndex rf ->
  AppendEntries (fun rf => rf) args rf = Panic IndexOutOfRange.
Proof.
  intros Hwf HT Hp. unfold AppendEntries, AE_check. case_decide; [lia|].
  destruct (cancel_if_leader_returns rf Hwf) as [a Ha]. rewrite Ha. cbn [res_bind].
  apply cancel_if_leader_eq in Ha as [cs ->].
  destruct (see_term_frame (ae_Term args) ((rf <| cancelled := cs |>) <| state := Follower |>))
    as (HL & HS & _).
  set (rf1 := see_term _ _) in *. clearbody rf1. fields.
  assert (0 < zlen (Log rf)) by (apply zlen_pos, Hwf).
  unfold Loglen, idxInLog. rewrite HL, HS. case_decide; [lia|]. case_decide; [|lia].
  unfold idx. case_decide; [lia|done].
Qed.

(** *** Snapshots *)

(** Snapshot.  For an index in the log above the last snapshot the call trims the
    log there, and every entry from the index on keeps its place; the snapshot and the
    trimmed log are saved, and nothing up to the index is applied any more.  Any other
    index is ignored. *)
Lemma Snapshot_trims index sn rf :
  wf rf ->
  exists rf', Snapshot index sn rf = Ret rf' /\
    (SnapshotIndex rf < index < Loglen rf ->
       SnapshotIndex rf' = index /\ SnapshotByte rf' = sn /\ Loglen rf' = Loglen rf /\
       (forall i, index <= i -> entry_at rf' i = entry_at rf i) /\
       (exists e, entry_at rf' index = Some e /\ SnapshotTerm rf' = Term e) /\
       index <= lastApplied rf' /\ index <= commitIndex rf' /\ synced rf') /\
    (~ SnapshotIndex rf < index < Loglen rf -> rf' = rf).
Proof.
  intros [_ Hsn _]. unfold Snapshot. case_decide as Hin.
  { exists rf. split_and!; [done|lia|done]. }
  rewrite (proj2 (slice_from_Ret (Log rf) (index - SnapshotIndex rf) _))
    by (split; [unfold Loglen in *; lia|done]). cbn [res_bind]. fields.
  destruct (entry_at_Some rf index) as [e He]; [lia|].
  assert (forall i, index <= i -> drop (Z.to_nat (index - SnapshotIndex rf)) (Log rf) !!
            Z.to_nat (i - index) = entry_at rf i) as Hdrop.
  { intros i Hi. unfold entry_at. case_decide; [|lia]. rewrite lookup_drop. f_equal. lia. }
  assert (idx (drop (Z.to_nat (index - SnapshotIndex rf)) (Log rf)) 0 = Ret e) as ->.
  { apply idx_Ret. split; [lia|]. rewrite <- He, <- (Hdrop index) by lia. f_equal. lia. }
  cbn [res_bind]. eexists. split; [reflexivity|]. split; [|lia].
  intros _. unfold entry_at at 1 3, Loglen at 1. fields. split_and!; try done; try lia.
  - unfold zlen, Loglen. rewrite length_drop. unfold Loglen, zlen in *. lia.
  - intros i Hi. case_decide; [|lia]. by apply Hdrop.
  - exists e. case_decide; [|lia]. split; [|done]. rewrite Hdrop; [done|lia].
  - eapply synced_frame; [..|apply synced_persist]; done.
Qed.

Lemma Snapshot_trims_ex :
  exists rf', Snapshot 1 None voter = Ret rf' /\
    (SnapshotIndex voter < 1 < Loglen voter ->
       SnapshotIndex rf' = 1 /\ SnapshotByte rf' = None /\ Loglen rf' = Loglen voter /\
       (forall i, 1 <= i -> entry_at rf' i = entry_at voter i) /\
       (exists e, entry_at rf' 1 = Some e /\ SnapshotTerm rf' = Term e) /\
       1 <= lastApplied rf' /\ 1 <= commitIndex rf' /\ synced rf') /\
    (~ SnapshotIndex voter < 1 < Loglen voter -> rf' = voter).
Proof. apply Snapshot_trims. apply voter_wf. Defined.

(** A snapshot the peer ignores: the same or an older one. *)
Definition ignored (args : InstallSnapshotArgs) (rf : Raft) : Prop :=
  (SnapshotByte rf <> None /\ LastIncludedIndex args <= SnapshotIndex rf) \/
  (LastIncludedIndex args = SnapshotIndex rf /\ LastIncludedTerm args = SnapshotTerm rf).

(** The handler drops the whole log: it ends before the snapshot, or the entry the log starts with
    has not the term of the snapshot's last entry. *)
Definition drops_log (args : InstallSnapshotArgs) (rf : Raft) : Prop :=
  Loglen rf <= LastIncludedIndex args \/ Term <$> head (Log rf) <> Some (LastIncludedTerm args).

#[export] Instance ignored_dec args rf : Decision (ignored args rf).
Proof. unfold ignored. apply _. Defined.
#[export] Instance drops_log_dec args rf : Decision (drops_log args rf).
Proof. unfold drops_log. apply _. Defined.

Lemma IS_install_spec args rf :
  Log rf <> [] -> SnapshotIndex rf <= LastIncludedIndex args ->
  exists rf', IS_install args rf = Ret rf' /\
    SnapshotIndex rf' = LastIncludedIndex args /\ SnapshotByte rf' = Data args /\
    SnapshotTerm rf' = LastIncludedTerm args /\
    commitIndex rf' = Z.max (commitIndex rf) (LastIncludedIndex args) /\
    lastApplied rf' = lastApplied rf /\ state rf' = state rf /\
    (drops_log args rf -> Log rf' = [MkLogEntry (LastIncludedTerm args) AnyNil]) /\
    (~ drops_log args rf -> Loglen rf' = Loglen rf /\
      forall i, LastIncludedIndex args <= i -> entry_at rf' i = entry_at rf i) /\
    LastIncludedIndex args < Loglen rf' /\ synced rf'.
Proof.
  intros Hne Hi. unfold IS_install, idxInLog. fields. pose proof (zlen_pos _ Hne).
  case_decide as Hd; [|lia].
  rewrite Z.sub_diag. destruct (Log rf) as [|e L] eqn:HL; [done|]. change (idx (e :: L) 0) with (Ret e).
  cbn [res_bind]. rewrite <- HL in *.
  assert (drops_log args rf <-> zlen (Log rf) + SnapshotIndex rf <= LastIncludedIndex args \/
    bool_decide (Term e <> LastIncludedTerm args) = true) as Hdrop.
  { unfold drops_log, Loglen. rewrite HL, bool_decide_eq_true. cbn. split; intros [?|Hx]; auto; right; congruence. }
  destruct (decide (_ \/ bool_decide _ = true)) as [Hc|Hc]; cbn [res_bind].
  - eexists. split; [reflexivity|]. unfold Loglen, zlen. fields. split_and!; try done; try (by intros []; tauto).
    + cbn. lia.
    + apply synced_persist.
  - rewrite (proj2 (slice_from_Ret _ _ _)) by (split; [lia|done]). cbn [res_bind].
    eexists. split; [reflexivity|]. unfold Loglen, entry_at. fields. split_and!; try done; try tauto.
    + intros _. split; [unfold zlen in *; rewrite length_drop; lia|].
      intros i Hii. repeat case_decide; try lia. all: rewrite lookup_drop; f_equal; lia.
    + unfold zlen in *. rewrite length_drop. lia.
    + apply synced_persist.
Qed.

(** The state in which the handler decides about the snapshot. *)
Lemma IS_prologue args rf :
  wf rf -> CurrentTerm rf <= is_Term args ->
  exists rf1, InstallSnapshot TickerSelect args rf =
      (if decide (ignored args rf) then Ret (rf1, MkInstallSnapshotReply (is_Term args))
       else
         let rf2 :=
           if decide (LastIncludedIndex args = SnapshotIndex rf /\
                      LastIncludedTerm args <> SnapshotTerm rf) then
             rf1 <| lastApplied := LastIncludedIndex args - 1 |>
           else rf1 in
         let! rf := IS_install args rf2 in Ret (rf, MkInstallSnapshotReply (is_Term args))) /\
    Log rf1 = Log rf /\ SnapshotIndex rf1 = SnapshotIndex rf /\
    commitIndex rf1 = commitIndex rf /\ lastApplied rf1 = lastApplied rf /\ CurrentTerm rf1 = is_Term args /\
    state rf1 = Follower /\ notifyApply rf1 = true.
Proof.
  intros Hwf HT. unfold InstallSnapshot. case_decide; [lia|].
  set (rf0 := see_term _ _).
  assert (rf0 = see_term (is_Term args) (try_notifyApply rf)) as E0 by done.
  assert (wf rf0 /\ Log rf0 = Log rf /\ SnapshotIndex rf0 = SnapshotIndex rf /\
    commitIndex rf0 = commitIndex rf /\ lastApplied rf0 = lastApplied rf /\ CurrentTerm rf0 = is_Term args /\
    notifyApply rf0 = true /\ SnapshotByte rf0 = SnapshotByte rf /\
    SnapshotTerm rf0 = SnapshotTerm rf) as (Hwf0 & HL & HS & Hc & Ha & HT0 & Hn & HB & HST).
  { rewrite E0. unfold see_term. destruct Hwf.
    case_decide as Hgt; fields; (split; [by split|]); split_and!; try done; lia. }
  clearbody rf0. clear E0.
  destruct (cancel_if_leader_returns rf0 Hwf0) as [a Hca]. rewrite Hca. cbn [res_bind].
  apply cancel_if_leader_eq in Hca as [cs ->].
  assert (exists rs, send_rst TickerSelect ((rf0 <| cancelled := cs |>) <| state := Follower |>) =
    Ret (((rf0 <| cancelled := cs |>) <| state := Follower |>) <| rst := rs |>)) as [rs ->].
  { unfold send_rst. case_decide; [|by eexists]. by exists (rst rf0). }
  cbn [res_bind]. fields. rewrite HB, HS, HST.
  set (rf1 := _ <| rst := rs |>). exists rf1.
  split_and!; done.
Qed.

(** C16 (InstallSnapshot).  While the ticker is at its select, so that it can take the reset, and
    the snapshot is not below the peer's base, the handler returns.  A message of an old term
    changes nothing, and the same or an older snapshot leaves the log.  Any other snapshot becomes the
    base of the log and is saved with it.  When the log ends before the snapshot, or the entry it
    starts with is not of the snapshot's term, the whole log is dropped and the snapshot's dummy
    entry is left; otherwise every entry from [LastIncludedIndex] on stays at its place.  The commit
    index is at least the snapshot's and does not go down; what was applied stands, unless
    another snapshot of the same index is replaced. *)
Theorem InstallSnapshot_installs args rf :
  wf rf -> SnapshotIndex rf <= LastIncludedIndex args ->
  exists rf' reply, InstallSnapshot TickerSelect args rf = Ret (rf', reply) /\
    isr_Term reply = Z.max (CurrentTerm rf) (is_Term args) /\
    (is_Term args < CurrentTerm rf -> rf' = rf) /\
    (CurrentTerm rf <= is_Term args ->
       CurrentTerm rf' = is_Term args /\ state rf' = Follower /\
       (ignored args rf -> Log rf' = Log rf /\ SnapshotIndex rf' = SnapshotIndex rf) /\
       (~ ignored args rf ->
          SnapshotIndex rf' = LastIncludedIndex args /\ SnapshotByte rf' = Data args /\
          SnapshotTerm rf' = LastIncludedTerm args /\
          (drops_log args rf -> Log rf' = [MkLogEntry (LastIncludedTerm args) AnyNil]) /\
          (~ drops_log args rf -> Loglen rf' = Loglen rf /\
             forall i, LastIncludedIndex args <= i -> entry_at rf' i = entry_at rf i) /\
          commitIndex rf' = Z.max (commitIndex rf) (LastIncludedIndex args) /\
          lastApplied rf' = (if decide (LastIncludedIndex args = SnapshotIndex rf)
                             then LastIncludedIndex args - 1 else lastApplied rf) /\
          notifyApply rf' = true /\ synced rf')).
Proof.
  intros Hwf Hi. destruct (decide (is_Term args < CurrentTerm rf)) as [Hold|HT].
  { exists rf, (MkInstallSnapshotReply (CurrentTerm rf)). unfold InstallSnapshot.
    case_decide; [|lia]. cbn. split_and!; try done; lia. }
  destruct (IS_prologue args rf) as (rf1 & -> & HL & HS & Hc & Ha & HT1 & Hst & Hn); [done|lia|].
  case_decide as Hign.
  { eexists _, _. split; [done|]. cbn. split_and!; try done; lia. }
  set (rf2 := if decide _ then _ else _). cbv zeta.
  assert (Log rf2 = Log rf /\ SnapshotIndex rf2 = SnapshotIndex rf /\
    commitIndex rf2 = commitIndex rf /\ CurrentTerm rf2 = is_Term args /\
    state rf2 = Follower /\ notifyApply rf2 = true /\
    lastApplied rf2 = if decide (LastIncludedIndex args = SnapshotIndex rf)
                      then LastIncludedIndex args - 1 else lastApplied rf)
    as (HL2 & HS2 & Hc2 & HT2 & Hst2 & Hn2 & Ha2).
  { subst rf2. unfold ignored in Hign. by repeat case_decide; split_and!; try done; tauto. }
  clearbody rf2.
  destruct (IS_install_spec args rf2) as (rf' & Hr & HS' & HB & HST & Hc' & Ha' & Hst' & Hdrop & Hkeep & _ & Hs);
    [rewrite HL2; apply Hwf|lia|].
  assert (CurrentTerm rf' = CurrentTerm rf2 /\ notifyApply rf' = notifyApply rf2) as [HT' Hn'].
  { clear -Hr. unfold IS_install in Hr. inv_res. case_decide; inv_res; done. }
  assert (drops_log args rf2 <-> drops_log args rf) as Hd by (unfold drops_log, Loglen; by rewrite HL2, HS2).
  rewrite Hr. cbn [res_bind]. eexists _, _. split; [done|]. cbn. split; [lia|]. split; [lia|].
  intros _. split_and!; try congruence. intros _. split_and!; try congruence. all: try done.
  - by rewrite <- Hd.
  - intros Hnd. rewrite <- Hd in Hnd. destruct (Hkeep Hnd) as [Hlen Hat]. split.
    + rewrite Hlen. unfold Loglen. by rewrite HL2, HS2.
    + intros i Hii. rewrite Hat by done. by apply entry_at_frame.
Qed.

Definition is_example : InstallSnapshotArgs :=
  MkInstallSnapshotArgs 3 2 5 2 (Some [Byte.x01]).

Lemma InstallSnapshot_installs_witness :
  exists rf' reply, InstallSnapshot TickerSelect is_example voter = Ret (rf', reply) /\
    isr_Term reply = Z.max (CurrentTerm voter) (is_Term is_example) /\
    (is_Term is_example < CurrentTerm voter -> rf' = voter) /\
    (CurrentTerm voter <= is_Term is_example ->
       CurrentTerm rf' = is_Term is_example /\ state rf' = Follower /\
       (ignored is_example voter ->
          Log rf' = Log voter /\ SnapshotIndex rf' = SnapshotIndex voter) /\
       (~ ignored is_example voter ->
          SnapshotIndex rf' = LastIncludedIndex is_example /\
          SnapshotByte rf' = Data is_example /\
          SnapshotTerm rf' = LastIncludedTerm is_example /\
          (drops_log is_example voter -> Log rf' = [MkLogEntry (LastIncludedTerm is_example) AnyNil]) /\
          (~ drops_log is_example voter -> Loglen rf' = Loglen voter /\
             forall i, LastIncludedIndex is_example <= i -> entry_at rf' i = entry_at voter i) /\
          commitIndex rf' = Z.max (commitIndex voter) (LastIncludedIndex is_example) /\
          lastApplied rf' = (if decide (LastIncludedIndex is_example = SnapshotIndex voter)
                             then LastIncludedIndex is_example - 1 else lastApplied voter) /\
          notifyApply rf' = true /\ synced rf')).
Proof. apply InstallSnapshot_installs; [apply voter_wf|done]. Defined.

(** The handler sends the reset with the lock held: when the buffer is full and the
    ticker is not at its [select], it never returns. *)
Theorem InstallSnapshot_blocks tpc args rf :
  wf rf -> CurrentTerm rf <= is_Term args -> me rf ∈ rst rf -> tpc <> TickerSelect ->
  InstallSnapshot tpc args rf = Panic Deadlock.
Proof.
  intros Hwf HT Hfull Htpc. unfold InstallSnapshot. case_decide; [lia|].
  set (rf0 := see_term _ _).
  assert (wf rf0 /\ me rf0 = me rf /\ rst rf0 = rst rf) as (Hwf0 & Hme & Hrst).
  { subst rf0. unfold see_term. destruct Hwf. by case_decide; fields. }
  clearbody rf0. destruct (cancel_if_leader_returns rf0 Hwf0) as [a Ha]. rewrite Ha.
  cbn [res_bind]. apply cancel_if_leader_eq in Ha as [cs ->]. unfold send_rst. fields.
  rewrite Hme, Hrst. case_decide; [|done]. by destruct tpc.
Qed.

(** *** Start *)

(** Start.  On a leader that is not killed the command is appended at the index
    returned, with the current term, no other entry moves, and the log is saved; in any
    other case nothing changes and the caller is told so. *)
Lemma Start_appends command rf :
  wf rf ->
  let '(rf', (index, term, isLeader)) := Start command rf in
  (isLeader = true <-> killed rf = false /\ state rf = Leader) /\
  (isLeader = true -> index = Loglen rf /\ term = CurrentTerm rf /\
     entry_at rf' index = Some (MkLogEntry term command) /\
     (forall i, i < index -> entry_at rf' i = entry_at rf i) /\
     Loglen rf' = index + 1 /\ synced rf') /\
  (isLeader = false -> rf' = rf /\ index = -1 /\ term = -1).
Proof.
  intros [_ Hsn _]. unfold Start. destruct (killed rf); [by split; [split; [|intros [? _]]|]|].
  case_decide as Hst; [by split; [split; [|intros [_ ?]]|]|].
  split; [done|]. split; [|done]. intros _. unfold entry_at, Loglen. fields.
  rewrite zlen_app. unfold zlen. split_and!; try done.
  - case_decide; [|lia]. rewrite lookup_app_r by lia.
    by replace (_ - _)%nat with 0%nat by lia.
  - intros i Hi. case_decide; [|done]. rewrite lookup_app_l by lia. done.
  - cbn. lia.
  - eapply synced_frame; [..|apply synced_persist]; done.
Qed.

Definition leader : Raft :=
  (fresh 3 0 MakePersister) <| state := Leader |> <| CurrentTerm := 2 |> <| ctx := Some 0%nat |>.

Lemma Start_appends_ex :
  let '(rf', (index, term, isLeader)) := Start (AnyInt 9) leader in
  (isLeader = true <-> killed leader = false /\ state leader = Leader) /\
  (isLeader = true -> index = Loglen leader /\ term = CurrentTerm leader /\
     entry_at rf' index = Some (MkLogEntry term (AnyInt 9)) /\
     (forall i, i < index -> entry_at rf' i = entry_at leader i) /\
     Loglen rf' = index + 1 /\ synced rf') /\
  (isLeader = false -> rf' = leader /\ index = -1 /\ term = -1).
Proof. apply (Start_appends (AnyInt 9) leader). by split. Defined.

(** The conflict test of [InstallSnapshot] reads the term of the old base.  A peer in
    term 1 that committed entries 1 to 3, of term 1, and has no snapshot, gets the
    snapshot of the entries up to 2: it drops entry 3 and keeps its commit index, and
    then acknowledges a message with entry 3 that it does not store. *)
Definition committed3 : Raft :=
  (fresh 3 1 MakePersister) <| CurrentTerm := 1 |> <| commitIndex := 3 |> <| lastApplied := 3 |>
    <| Log := [MkLogEntry 0 AnyNil; MkLogEntry 1 (AnyInt 1); MkLogEntry 1 (AnyInt 2);
               MkLogEntry 1 (AnyInt 3)] |>.

Theorem InstallSnapshot_drops_committed :
  exists rf' r, InstallSnapshot TickerSelect (MkInstallSnapshotArgs 1 0 2 1 (Some [Byte.x01]))
      committed3 = Ret (rf', r) /\
    commitIndex rf' = 3 /\ Loglen rf' = 3 /\
    exists rf'' r', AppendEntries (fun rf => rf)
        (MkAppendEntriesArgs 1 0 2 1 [MkLogEntry 1 (AnyInt 3)] 3) rf' = Ret (rf'', r') /\
      Success r' = true /\ entry_at rf'' 3 = None.
Proof. eexists _, _. split; [vm_compute; reflexivity|]. split_and!; [done|done|].
  eexists _, _. split; [vm_compute; reflexivity|]. done. Qed.
End Raft.
