(* ===== verification/RaftLeader.v ===== *)
(** * RaftLeader: replication and the apply worker (src/src/raft1/raft.go)

    The goroutines [applyLogEntries], [sendAppendEntries], [boardcastLogEntries] and
    [HeartbeatMaintain].  A goroutine is cut where it releases [rf.mu] or waits: one
    definition per critical section, and a program counter for what it does next. *)
From S2P Require Import Prelude Persister Raft.
Import Raft.
Local Open Scope Z_scope.
Local Open Scope go_scope.

Module Replication.

(** ** The apply worker *)

Record ApplyMsg := MkApplyMsg {
  CommandValid : bool; am_Command : any; CommandIndex : Z;
  SnapshotValid : bool; am_Snapshot : option bytes; am_SnapshotTerm : Z;
  am_SnapshotIndex : Z }.

Definition command_msg (c : any) (i : Z) : ApplyMsg := MkApplyMsg true c i false None 0 0.
Definition snapshot_msg (rf : Raft) : ApplyMsg :=
  MkApplyMsg false AnyNil 0 true (SnapshotByte rf) (SnapshotTerm rf) (SnapshotIndex rf).

(** [sort.Ints] *)
Definition sort_Ints (l : list Z) : list Z := merge_sort Z.le l.

(** [copy(dst, src)] *)
Definition copy (dst src : list Z) : list Z :=
  take (length dst) src ++ drop (length src) dst.

(** Lines 474-478: the index the leader may commit. *)
Definition minMatch (rf : Raft) : res Z :=
  if decide (npeers rf < 0) then Panic MakeNegativeLen
  else
    let tmpMatchIndex := copy (replicate (Z.to_nat (npeers rf)) 0) (matchIndex rf) in
    let! tmpMatchIndex := set_idx tmpMatchIndex (me rf) (Loglen rf - 1) in
    let tmpMatchIndex := sort_Ints tmpMatchIndex in
    idx tmpMatchIndex (zlen tmpMatchIndex ÷ 2).

(** Where the worker is: at its [select]; sending a snapshot; sending a command. *)
Inductive apply_pc := ApWait | ApSnap (applySi : Z) | ApCmd.

(** One turn of [for rf.lastApplied < rf.commitIndex].  When the [continue] is taken
    the loop turns for ever with the lock held. *)
Definition apply_loop (rf : Raft) : res (Raft * option ApplyMsg * apply_pc) :=
  if decide (lastApplied rf < commitIndex rf) then
    if decide (lastApplied rf < SnapshotIndex rf) then Panic Deadlock
    else
      let rf := rf <| lastApplied := lastApplied rf + 1 |> in
      let! e := idx (Log rf) (idxInLog rf (lastApplied rf)) in
      Ret (rf, Some (command_msg (Command e) (lastApplied rf)), ApCmd)
  else Ret (rf, None, ApWait).

(** Lines 450-507, the lock held. *)
Definition apply_body (rf : Raft) : res (Raft * option ApplyMsg * apply_pc) :=
  if decide (state rf <> Leader) then apply_loop rf
  else
    let! minMatchIndex := minMatch rf in
    if decide (minMatchIndex > commitIndex rf) then
      let! e := idx (Log rf) (idxInLog rf minMatchIndex) in
      if decide (Term e <> CurrentTerm rf) then Ret (rf, None, ApWait)
      else apply_loop (rf <| commitIndex := minMatchIndex |>)
    else Ret (rf, None, ApWait).

(** A step of the worker: from where it takes the lock (in [ApWait]: after it received
    from [notifyApply]) to where it releases it, with the message it then sends. *)
Definition apply_step (pc : apply_pc) (rf : Raft) : res (Raft * option ApplyMsg * apply_pc) :=
  match pc with
  | ApWait =>
      let rf := rf <| notifyApply := false |> in
      if decide (SnapshotByte rf <> None /\ lastApplied rf < SnapshotIndex rf) then
        Ret (rf, Some (snapshot_msg rf), ApSnap (SnapshotIndex rf))
      else apply_body rf
  | ApSnap applySi => apply_body (rf <| lastApplied := Z.max (lastApplied rf) applySi |>)
  | ApCmd => apply_loop rf
  end.

(** The worker alone, until it waits again. *)
Fixpoint apply_run (fuel : nat) (pc : apply_pc) (rf : Raft) : res (Raft * list ApplyMsg) :=
  match fuel with
  | O => Panic OutOfFuel
  | S fuel =>
      let! (rf, msg, pc) := apply_step pc rf in
      match pc with
      | ApWait => Ret (rf, option_list msg)
      | _ => let! (rf, msgs) := apply_run fuel pc rf in Ret (rf, option_list msg ++ msgs)
      end
  end.

(** ** The senders, one per other peer *)

(** What a sender does next: return, or go on with its loop. *)
Inductive sender_next := SenderExit | SenderLoop.

(** [workerCancel()] *)
Definition workerCancel (c : nat) (rf : Raft) : Raft := rf <| cancelled := {[c]} ∪ cancelled rf |>.

(** [if rf.state != Leader { workerCancel(); return }] and
    [if rf.CurrentTerm != term { return }], in this order. *)
Definition still_leader (c : nat) (term : Z) (rf : Raft) : Raft * sender_next :=
  if decide (state rf <> Leader) then (workerCancel c rf, SenderExit)
  else if decide (CurrentTerm rf <> term) then (rf, SenderExit)
  else (rf, SenderLoop).

(** Lines 631-649: the head of the loop; [Some isRetry] when it goes on. *)
Definition sender_head (server workerTerm : Z) (c : nat) (rf : Raft) : Raft * option bool :=
  let isRetry := bool_decide (server ∈ retry rf) in
  if killed rf then (rf, None)
  else if decide (CurrentTerm rf <> workerTerm) then (rf, None)
  else if decide (state rf <> Leader) then (workerCancel c rf, None)
  else if decide (c ∈ cancelled rf) then (rf, None)
  else (rf, Some isRetry).

(** Lines 650-667: the wait for a notification, [None] while there is none; a retry
    only empties the channel. *)
Definition sender_wait (server : Z) (isRetry : bool) (rf : Raft) : option Raft :=
  if isRetry || bool_decide (server ∈ notify rf) then Some (rf <| notify := notify rf ∖ {[server]} |>)
  else None.

Inductive sender_msg :=
| SendIS (term : Z) (args : InstallSnapshotArgs)
| SendAE (term : Z) (args : AppendEntriesArgs)
| SendNothing.

(** Lines 784-826: the entries from the next index on. *)
Definition prepare_entries (server : Z) (c : nat) (isRetry : bool) (next : Z) (rf : Raft)
    : res (Raft * sender_msg) :=
  let nextIdx := idxInLog rf next in
  let prevIdx := idxInLog rf (next - 1) in
  let! logs := slice_from (Log rf) nextIdx in
  let prevLogIndex := if decide (next - 1 < 0) then 0 else next - 1 in
  let! e := idx (Log rf) prevIdx in
  let term := CurrentTerm rf in
  let args := MkAppendEntriesArgs term (me rf) prevLogIndex (Term e) logs (commitIndex rf) in
  if decide (state rf <> Leader) then Ret (workerCancel c rf, SendNothing)
  else
    let rf := if isRetry then try_rst server rf else rf in
    Ret (rf, SendAE term args).

(** Lines 668-697: the message built under the lock. *)
Definition prepare (server workerTerm : Z) (c : nat) (isRetry : bool) (rf : Raft)
    : res (Raft * sender_msg) :=
  if decide (c ∈ cancelled rf) then Ret (rf, SendNothing)
  else if decide (CurrentTerm rf <> workerTerm) then Ret (rf, SendNothing)
  else
    let! next := idx (nextIndex rf) server in
    let! rf :=
      (if decide (next > Loglen rf) then
         let! l := set_idx (nextIndex rf) server (Loglen rf) in Ret (rf <| nextIndex := l |>)
       else Ret rf) in
    let! next := idx (nextIndex rf) server in
    if decide (next <= SnapshotIndex rf) then
      let term := CurrentTerm rf in
      Ret (rf, SendIS term
        (MkInstallSnapshotArgs term (me rf) (SnapshotIndex rf) (SnapshotTerm rf)
           (SnapshotByte rf)))
    else prepare_entries server c isRetry next rf.

(** [if rf.CurrentTerm == term && rf.state == Leader { ... }] on a reply with a newer
    term, lines 725-736 and 873-889. *)
Definition step_down (c : nat) (term serverTerm : Z) (rf : Raft) : Raft :=
  if decide (CurrentTerm rf = term /\ state rf = Leader) then
    let rf := rf <| CurrentTerm := serverTerm |> <| VotedFor := -1 |> <| state := Follower |> in
    workerCancel c (persist rf)
  else rf.

(** Lines 723-765: a reply to InstallSnapshot.  ([retry] was just cleared, so the timer
    is not reset at line 759.) *)
Definition on_IS_reply (server : Z) (c : nat) (term : Z) (reply : InstallSnapshotReply) (rf : Raft)
    : res (Raft * sender_next) :=
  if decide (isr_Term reply > term) then Ret (step_down c term (isr_Term reply) rf, SenderExit)
  else
    match still_leader c term rf with
    | (rf, SenderExit) => Ret (rf, SenderExit)
    | (rf, SenderLoop) =>
        let! l := set_idx (nextIndex rf) server (SnapshotIndex rf + 1) in
        let rf := rf <| nextIndex := l |> in
        let! m := idx (matchIndex rf) server in
        let! l := set_idx (matchIndex rf) server (Z.max m (SnapshotIndex rf)) in
        let rf := rf <| matchIndex := l |> in
        let rf := rf <| retry := retry rf ∖ {[server]} |> in
        Ret (try_notifyApply rf, SenderLoop)
    end.

(** Lines 852-871: a success. *)
Definition on_AE_success (server : Z) (c : nat) (term : Z) (args : AppendEntriesArgs) (rf : Raft)
    : res (Raft * sender_next) :=
  match still_leader c term rf with
  | (rf, SenderExit) => Ret (rf, SenderExit)
  | (rf, SenderLoop) =>
      let! next := idx (nextIndex rf) server in
      let! l := set_idx (nextIndex rf) server
                  (Z.max next (PrevLogIndex args + zlen (Entries args) + 1)) in
      let rf := rf <| nextIndex := l |> in
      let! next := idx (nextIndex rf) server in
      let! l := set_idx (matchIndex rf) server (next - 1) in
      let rf := rf <| matchIndex := l |> in
      let rf := rf <| retry := retry rf ∖ {[server]} |> in
      Ret (try_notifyApply rf, SenderLoop)
  end.

(** Lines 892-906: the next index after a rejection. *)
Definition backup (reply : AppendEntriesReply) (rf : Raft) : res Z :=
  if decide (XTerm reply = 0) then Ret (Z.max (XLength reply) (SnapshotIndex rf))
  else
    let! lastIndex := findLastIndex (XTerm reply) rf in
    if decide (lastIndex = -1) then Ret (SnapshotIndex rf)
    else
      let! e := idx (Log rf) lastIndex in
      if decide (Term e = XTerm reply) then Ret (lastIndex + 1)
      else Ret (Z.max (XIndex reply) (SnapshotIndex rf)).

(** Lines 872-912: a failure. *)
Definition on_AE_failure (server : Z) (c : nat) (term : Z) (reply : AppendEntriesReply) (rf : Raft)
    : res (Raft * sender_next) :=
  if decide (aer_Term reply > term) then Ret (step_down c term (aer_Term reply) rf, SenderExit)
  else
    let rf := rf <| retry := {[server]} ∪ retry rf |> in
    let! next := backup reply rf in
    let! l := set_idx (nextIndex rf) server next in
    Ret (rf <| nextIndex := l |>, SenderLoop).

Definition on_AE_reply (server : Z) (c : nat) (term : Z) (args : AppendEntriesArgs)
    (reply : AppendEntriesReply) (rf : Raft) : res (Raft * sender_next) :=
  if Success reply then on_AE_success server c term args rf
  else on_AE_failure server c term reply rf.

(** Lines 767-781 and 913-928: no reply in time. *)
Definition on_timeout (server : Z) (c : nat) (term : Z) (rf : Raft) : Raft * sender_next :=
  still_leader c term (rf <| retry := {[server]} ∪ retry rf |>).

(** ** Notifications *)

(** [<-rf.ctx.Done()] is ready. *)
Definition ctx_done (rf : Raft) : res bool :=
  match ctx rf with
  | None => Panic NilDereference
  | Some c => Ret (bool_decide (c ∈ cancelled rf))
  end.

Fixpoint boardcast_loop (ids : list Z) (rf : Raft) : res Raft :=
  match ids with
  | [] => Ret rf
  | i :: ids =>
      if decide (i = me rf) then boardcast_loop ids rf
      else
        let! stop := ctx_done rf in
        if (stop : bool) then Ret rf
        else boardcast_loop ids (try_rst i (try_notify i rf))
  end.

Definition boardcastLogEntries (rf : Raft) : res Raft :=
  if decide (state rf <> Leader) then cancel rf
  else boardcast_loop (seqZ 0 (npeers rf)) (try_notifyApply rf).

(** [HeartbeatMaintain]: the reset is taken; the timer fires. *)
Definition take_rst (i : Z) (rf : Raft) : Raft := rf <| rst := rst rf ∖ {[i]} |>.
Definition heartbeat (sever : Z) (rf : Raft) : Raft :=
  if decide (state rf = Leader) then try_notify sever (try_notifyApply rf) else rf.

(** ** The steps keep what the election protocol and recovery need *)

Lemma apply_loop_ok rf rf' msg pc : apply_loop rf = Ret (rf', msg, pc) -> step_ok rf rf'.
Proof.
  unfold apply_loop. intros. case_decide; [case_decide; [done|]|]; inv_res; [|done]. by peel.
Qed.

Lemma apply_body_ok rf rf' msg pc : apply_body rf = Ret (rf', msg, pc) -> step_ok rf rf'.
Proof.
  unfold apply_body. intros H. case_decide; [by eapply apply_loop_ok|]. inv_res.
  case_decide; inv_res; [|done]. case_decide; inv_res; [done|].
  apply apply_loop_ok in H. etransitivity; [|exact H]. by peel.
Qed.

Lemma apply_step_ok pc rf rf' msg pc' :
  apply_step pc rf = Ret (rf', msg, pc') -> step_ok rf rf'.
Proof.
  unfold apply_step. intros H. destruct pc.
  - transitivity (rf <| notifyApply := false |>); [by peel|].
    case_decide; inv_res; [done|]. by eapply apply_body_ok.
  - apply apply_body_ok in H. etransitivity; [|exact H]. by peel.
  - by eapply apply_loop_ok.
Qed.

Lemma workerCancel_ok c rf : step_ok rf (workerCancel c rf).
Proof. unfold workerCancel. by peel. Qed.

Lemma still_leader_ok c term rf : step_ok rf (still_leader c term rf).1.
Proof. unfold still_leader. case_decide; [apply workerCancel_ok|]. by case_decide. Qed.

Lemma sender_head_ok server t c rf : step_ok rf (sender_head server t c rf).1.
Proof.
  unfold sender_head. destruct (killed rf); [done|].
  repeat case_decide; cbn; (done || apply workerCancel_ok).
Qed.

Lemma sender_wait_ok server isRetry rf rf' :
  sender_wait server isRetry rf = Some rf' -> step_ok rf rf'.
Proof. unfold sender_wait. destruct (_ || _); [|done]. intros [= <-]. by peel. Qed.

Lemma prepare_ok server t c isRetry rf rf' msg :
  prepare server t c isRetry rf = Ret (rf', msg) -> step_ok rf rf'.
Proof.
  unfold prepare, prepare_entries. intros. case_decide; [by inv_res|]. case_decide; [by inv_res|]. inv_res.
  transitivity a0.
  { clear H. case_decide; inv_res; [|done]. by peel. }
  clear E0. case_decide; inv_res; [done|]. case_decide; inv_res; [apply workerCancel_ok|].
  destruct isRetry; [|done]. by peel.
Qed.

Lemma step_down_ok c term t rf : t > term -> step_ok rf (step_down c term t rf).
Proof.
  intros Ht. unfold step_down. case_decide as H; [|done]. destruct H as [H1 H2].
  etransitivity; [|apply workerCancel_ok].
  apply term_ok; fields; try done; try lia. apply synced_persist.
Qed.

Lemma on_IS_reply_ok server c term reply rf rf' n :
  on_IS_reply server c term reply rf = Ret (rf', n) -> step_ok rf rf'.
Proof.
  unfold on_IS_reply. intros. case_decide; [inv_res; by apply step_down_ok|].
  pose proof (still_leader_ok c term rf) as Hs. destruct (still_leader c term rf) as [rf1 []].
  { by inv_res. }
  cbn in Hs. inv_res. transitivity rf1; [done|]. by peel.
Qed.

Lemma on_AE_reply_ok server c term args reply rf rf' n :
  on_AE_reply server c term args reply rf = Ret (rf', n) -> step_ok rf rf'.
Proof.
  unfold on_AE_reply, on_AE_success, on_AE_failure. intros. destruct (Success reply).
  - pose proof (still_leader_ok c term rf) as Hs. destruct (still_leader c term rf) as [rf1 []].
    { by inv_res. }
    cbn in Hs. inv_res. transitivity rf1; [done|]. by peel.
  - case_decide; [inv_res; by apply step_down_ok|]. inv_res. by peel.
Qed.

Lemma on_timeout_ok server c term rf : step_ok rf (on_timeout server c term rf).1.
Proof. unfold on_timeout. etransitivity; [|apply still_leader_ok]. by peel. Qed.

Lemma boardcast_loop_ok ids rf rf' : boardcast_loop ids rf = Ret rf' -> step_ok rf rf'.
Proof.
  revert rf. induction ids as [|i ids IH]; intros rf; cbn; [by intros [= <-]|].
  case_decide; [apply IH|]. intros. inv_res. destruct a; [by inv_res|].
  apply IH in H0. etransitivity; [|exact H0]. by peel.
Qed.

Lemma boardcastLogEntries_ok rf rf' : boardcastLogEntries rf = Ret rf' -> step_ok rf rf'.
Proof.
  unfold boardcastLogEntries. case_decide; [apply cancel_ok|]. intros Hb%boardcast_loop_ok.
  etransitivity; [|exact Hb]. by peel.
Qed.

Lemma take_rst_ok i rf : step_ok rf (take_rst i rf).
Proof. unfold take_rst. by peel. Qed.

Lemma heartbeat_ok i rf : step_ok rf (heartbeat i rf).
Proof. unfold heartbeat. case_decide; [|done]. by peel. Qed.

(** ** What may be committed *)

(** The leader's record of how far each peer's log agrees with its own: its match indices, and its
    whole log for itself. *)
Definition acked (rf : Raft) : list Z := <[Z.to_nat (me rf) := Loglen rf - 1]> (matchIndex rf).

(** The number of peers that are recorded to agree up to index [m].  It is the leader's record,
    not what their logs hold. *)
Definition match_count (m : Z) (rf : Raft) : nat := length (filter (fun x => m <= x) (acked rf)).

(** In a sorted list, at least those from position [k] on are as large as the element
    there, and at most those after it are larger. *)
Lemma sorted_count (l : list Z) (k : nat) (m : Z) :
  StronglySorted Z.le l -> l !! k = Some m ->
  (length l - k <= length (filter (fun x => m <= x)%Z l))%nat /\
  (length (filter (fun x => m < x)%Z l) <= length l - S k)%nat.
Proof.
  intros Hs Hk. rewrite <- (take_drop_middle l k m Hk) in *.
  pose proof (lookup_lt_Some _ _ _ Hk).
  rewrite !length_filter_app, length_app. cbn [length].
  apply StronglySorted_app in Hs as (Hcross & _ & Hs2).
  assert (Forall (fun x => m <= x) (m :: drop (S k) l)) as Hge.
  { constructor; [lia|]. by inversion Hs2. }
  split.
  - rewrite (length_filter_all _ (m :: drop (S k) l)) by done. cbn [length].
    rewrite length_take, length_drop in *. lia.
  - rewrite (length_filter_none _ (take k l)), filter_cons_False; [|lia|].
    + pose proof (length_filter (fun x => m < x) (drop (S k) l)).
      rewrite length_take, length_drop in *. lia.
    + apply Forall_forall. intros x Hx. assert (x <= m); [|lia].
      apply Hcross; [done|by left].
Qed.

Lemma copy_full (dst src : list Z) : length dst = length src -> copy dst src = src.
Proof.
  intros Hl. unfold copy. rewrite take_ge, drop_ge by lia. apply app_nil_r.
Qed.

Lemma filter_le_mono (m m' : Z) (l : list Z) :
  m < m' -> (length (filter (fun x => m' <= x)%Z l) <= length (filter (fun x => m < x)%Z l))%nat.
Proof.
  intros. induction l as [|x l IH]; [done|]. rewrite !filter_cons.
  repeat case_decide; cbn; lia.
Qed.

Lemma minMatch_spec rf :
  0 <= me rf < npeers rf -> zlen (matchIndex rf) = npeers rf ->
  exists m, minMatch rf = Ret m /\
    npeers rf - npeers rf / 2 <= Z.of_nat (match_count m rf) /\
    (forall m', m < m' -> Z.of_nat (match_count m' rf) < npeers rf - npeers rf / 2).
Proof.
  intros Hme Hlen. unfold minMatch. case_decide; [lia|].
  rewrite copy_full by (rewrite length_replicate; unfold zlen in Hlen; lia).
  rewrite (proj2 (set_idx_Ret (matchIndex rf) (me rf) (Loglen rf - 1) _)) by (split; [lia|done]).
  cbn [res_bind]. fold (acked rf).
  assert (Permutation (sort_Ints (acked rf)) (acked rf)) as Hperm by apply merge_sort_Permutation.
  assert (StronglySorted Z.le (sort_Ints (acked rf))) as Hsort
    by (apply StronglySorted_merge_sort; apply _).
  assert (zlen (sort_Ints (acked rf)) = npeers rf) as HL.
  { unfold zlen. rewrite Hperm. unfold acked. rewrite length_insert. done. }
  assert (0 <= npeers rf / 2 < npeers rf) as Hhalf.
  { split; [apply Z.div_pos; lia|apply Z.div_lt; lia]. }
  rewrite HL, Z.quot_div_nonneg by lia.
  destruct (idx_ok (sort_Ints (acked rf)) (npeers rf / 2)) as [m Hm]; [lia|].
  rewrite Hm. exists m. split; [done|]. apply idx_Ret in Hm as [_ Hm].
  destruct (sorted_count _ _ _ Hsort Hm) as [Hge Hgt].
  unfold zlen in HL. unfold match_count.
  split.
  - rewrite <- (filter_Permutation _ _ _ Hperm). lia.
  - intros m' Hm'. rewrite <- (filter_Permutation _ _ _ Hperm).
    pose proof (filter_le_mono m m' (sort_Ints (acked rf)) Hm'). lia.
Qed.

Lemma apply_loop_commit rf rf' msg pc :
  apply_loop rf = Ret (rf', msg, pc) ->
  commitIndex rf' = commitIndex rf /\ Log rf' = Log rf /\ SnapshotIndex rf' = SnapshotIndex rf /\
  CurrentTerm rf' = CurrentTerm rf /\ me rf' = me rf /\ matchIndex rf' = matchIndex rf /\
  state rf' = state rf.
Proof.
  unfold apply_loop. intros. case_decide; [case_decide; [done|]|]; inv_res; done.
Qed.

(** The part of the turn in which a leader moves its commit index. *)
Lemma apply_body_commit rf rf' msg pc' :
  wf rf -> 0 <= me rf < npeers rf -> zlen (matchIndex rf) = npeers rf -> state rf = Leader ->
  apply_body rf = Ret (rf', msg, pc') -> commitIndex rf' <> commitIndex rf ->
  commitIndex rf < commitIndex rf' /\
  npeers rf - npeers rf / 2 <= Z.of_nat (match_count (commitIndex rf') rf) /\
  (forall m, commitIndex rf' < m -> Z.of_nat (match_count m rf) < npeers rf - npeers rf / 2) /\
  exists e, entry_at rf (commitIndex rf') = Some e /\ Term e = CurrentTerm rf.
Proof.
  intros Hwf Hme Hlen Hst H Hne. unfold apply_body in H. rewrite Hst in H. case_decide; [done|].
  destruct (minMatch_spec rf) as (m & Hm & Hge & Hgt); [done|done|].
  rewrite Hm in H. cbn [res_bind] in H. fields. case_decide; inv_res; try done.
  case_decide as Hterm; inv_res; try done.
  apply apply_loop_commit in H as (Hc & _). fields. rewrite Hc. split_and!; [lia|done|done|].
  exists a. split; [|done]. apply entry_at_idx in E; [done|apply Hwf].
Qed.

(** C12 (commitment).  Wherever its apply worker is, a leader moves its commit index only up, and
    only to an index that at least [n - n/2] of the [n] peers have reached by its own record (its
    match indices, and its log for itself), more than half of them when [n] is odd, where its
    entry is of its own term; no larger index is reached by as many. *)
Theorem leader_commits_quorum pc rf rf' msg pc' :
  wf rf -> 0 <= me rf < npeers rf -> zlen (matchIndex rf) = npeers rf -> state rf = Leader ->
  apply_step pc rf = Ret (rf', msg, pc') -> commitIndex rf' <> commitIndex rf ->
  commitIndex rf < commitIndex rf' /\
  npeers rf - npeers rf / 2 <= Z.of_nat (match_count (commitIndex rf') rf) /\
  (Z.Odd (npeers rf) -> npeers rf < 2 * Z.of_nat (match_count (commitIndex rf') rf)) /\
  (forall m, commitIndex rf' < m -> Z.of_nat (match_count m rf) < npeers rf - npeers rf / 2) /\
  exists e, entry_at rf (commitIndex rf') = Some e /\ Term e = CurrentTerm rf.
Proof.
  intros Hwf Hme Hlen Hst H Hne.
  assert (commitIndex rf < commitIndex rf' /\
    npeers rf - npeers rf / 2 <= Z.of_nat (match_count (commitIndex rf') rf) /\
    (forall m, commitIndex rf' < m -> Z.of_nat (match_count m rf) < npeers rf - npeers rf / 2) /\
    exists e, entry_at rf (commitIndex rf') = Some e /\ Term e = CurrentTerm rf) as (Hup & Hge & Hgt & He).
  { destruct pc as [|si|]; cbn [apply_step] in H.
    - case_decide; [by inv_res|].
      apply apply_body_commit in H; [|by destruct Hwf|done..]. unfold match_count, acked, entry_at, Loglen in *.
      fields. exact H.
    - apply apply_body_commit in H; [|by destruct Hwf|done..]. unfold match_count, acked, entry_at, Loglen in *.
      fields. exact H.
    - by apply apply_loop_commit in H as (? & _). }
  split_and!; [done|done| |done|done]. intros [k Hk]. rewrite Hk in *.
  replace (2 * k + 1) with (1 + k * 2) in * by lia. rewrite Z.div_add in Hge by lia.
  change (1 / 2) with 0 in Hge. lia.
Qed.

(** A leader of 3 peers, in term 2; peer 1 holds its one entry, peer 2 does not. *)
Definition leader3 : Raft :=
  (fresh 3 0 MakePersister) <| state := Leader |> <| CurrentTerm := 2 |> <| ctx := Some 0%nat |>
    <| Log := [MkLogEntry 0 AnyNil; MkLogEntry 2 (AnyInt 5)] |>
    <| nextIndex := [0; 2; 2] |> <| matchIndex := [0; 1; 0] |>.

Lemma leader_commits_quorum_witness :
  exists rf' msg pc', apply_step ApWait leader3 = Ret (rf', msg, pc') /\
  (commitIndex leader3 < commitIndex rf' /\
   npeers leader3 - npeers leader3 / 2 <= Z.of_nat (match_count (commitIndex rf') leader3) /\
   (Z.Odd (npeers leader3) -> npeers leader3 < 2 * Z.of_nat (match_count (commitIndex rf') leader3)) /\
   (forall m, commitIndex rf' < m ->
      Z.of_nat (match_count m leader3) < npeers leader3 - npeers leader3 / 2) /\
   exists e, entry_at leader3 (commitIndex rf') = Some e /\ Term e = CurrentTerm leader3).
Proof.
  eexists _, _, _. split; [vm_compute; reflexivity|].
  eapply (leader_commits_quorum ApWait leader3); try done; try (by cbv).
  all: by vm_compute.
Defined.

(** With an even number of peers half of them are enough for the commit index to move:
    here 2 of 4. *)
Theorem even_cluster_commits_on_half :
  exists rf rf' msg pc', npeers rf = 4 /\ state rf = Leader /\
    apply_step ApWait rf = Ret (rf', msg, pc') /\ commitIndex rf' = 1 /\
    match_count 1 rf = 2%nat.
Proof.
  exists ((fresh 4 0 MakePersister) <| state := Leader |> <| CurrentTerm := 2 |>
    <| Log := [MkLogEntry 0 AnyNil; MkLogEntry 2 (AnyInt 5)] |> <| matchIndex := [0; 1; 0; 0] |>).
  eexists _, _, _. split_and!; [done|done|vm_compute; reflexivity|done|done].
Qed.

(** ** What the worker delivers *)

Definition command_at (rf : Raft) (i : Z) : option ApplyMsg :=
  (fun e => command_msg (Command e) i) <$> entry_at rf i.

(** The messages for the indices [from .. to], in order. *)
Definition commands (rf : Raft) (from to : Z) : list ApplyMsg :=
  omap (command_at rf) (seqZ from (to - from + 1)).

Lemma apply_loop_turn rf :
  wf rf -> SnapshotIndex rf <= lastApplied rf < commitIndex rf -> commitIndex rf < Loglen rf ->
  exists e, entry_at rf (lastApplied rf + 1) = Some e /\
    apply_loop rf = Ret (rf <| lastApplied := lastApplied rf + 1 |>,
      Some (command_msg (Command e) (lastApplied rf + 1)), ApCmd).
Proof.
  intros Hwf Hi Hc. destruct (entry_at_Some rf (lastApplied rf + 1)) as [e He]; [lia|].
  exists e. split; [done|]. unfold apply_loop. do 2 (case_decide; [|try lia]); try lia.
  fields. apply entry_at_idx in He; [|apply Hwf]. by rewrite He.
Qed.

Lemma seqZ_cons_omap {A} (f : Z -> option A) from to x :
  from <= to -> f from = Some x ->
  omap f (seqZ from (to - from + 1)) = x :: omap f (seqZ (from + 1) (to - (from + 1) + 1)).
Proof.
  intros. rewrite seqZ_cons by lia. cbn [omap list_omap]. rewrite H0. do 3 f_equal; lia.
Qed.

Lemma apply_run_loop fuel rf :
  wf rf -> SnapshotIndex rf <= lastApplied rf <= commitIndex rf -> commitIndex rf < Loglen rf ->
  commitIndex rf - lastApplied rf < Z.of_nat fuel ->
  apply_run fuel ApCmd rf = Ret (rf <| lastApplied := commitIndex rf |>,
    commands rf (lastApplied rf + 1) (commitIndex rf)).
Proof.
  revert rf. induction fuel as [|fuel IH]; intros rf Hwf Hi Hc Hf; [lia|].
  cbn [apply_run apply_step]. destruct (decide (lastApplied rf = commitIndex rf)) as [Heq|Hne].
  - unfold apply_loop. case_decide; [lia|]. cbn [res_bind option_list].
    unfold commands. rewrite Heq. replace (_ - _ + 1) with 0 by lia. cbn. f_equal. f_equal.
    destruct rf. cbn in *. by subst.
  - destruct (apply_loop_turn rf) as (e & He & ->); [done|lia|done|]. cbn [res_bind option_list].
    set (rf1 := rf <| lastApplied := lastApplied rf + 1 |>).
    rewrite (IH rf1); [|by destruct Hwf; split|subst rf1; fields; lia|done|subst rf1; fields; lia].
    cbn [res_bind]. subst rf1. fields. cbn [app]. f_equal. f_equal. unfold commands.
    rewrite (seqZ_cons_omap _ (lastApplied rf + 1) _ (command_msg (Command e) (lastApplied rf + 1)));
      [done|lia|unfold command_at; by rewrite He].
Qed.

(** C14 (the apply worker, undisturbed).  On a peer that is not the leader, that has the bytes of its
    snapshot when it is behind it and whose commit index is in its log, and where no other
    goroutine takes the lock between the worker's sends, the worker that was notified returns to its [select] after having sent, in order, the snapshot
    if the state machine is behind it, and then exactly the committed commands it had
    not sent, each with its own index. *)
Theorem apply_run_delivers rf :
  wf rf -> state rf <> Leader -> SnapshotIndex rf <= commitIndex rf < Loglen rf ->
  lastApplied rf <= commitIndex rf ->
  (lastApplied rf < SnapshotIndex rf -> SnapshotByte rf <> None) ->
  exists rf', apply_run (3 + Z.to_nat (commitIndex rf - lastApplied rf)) ApWait rf = Ret (rf',
      (if decide (lastApplied rf < SnapshotIndex rf) then [snapshot_msg rf] else []) ++
      commands rf (Z.max (lastApplied rf) (SnapshotIndex rf) + 1) (commitIndex rf)) /\
    lastApplied rf' = commitIndex rf /\ commitIndex rf' = commitIndex rf.
Proof.
  intros Hwf Hst Hc Hla Hsb.
  assert (forall fuel la, SnapshotIndex rf <= la <= commitIndex rf ->
    commitIndex rf - la < Z.of_nat fuel ->
    apply_run fuel ApCmd ((rf <| notifyApply := false |>) <| lastApplied := la |>) =
      Ret ((rf <| notifyApply := false |>) <| lastApplied := commitIndex rf |>,
           commands rf (la + 1) (commitIndex rf))) as Hrun.
  { intros fuel la Hi Hf. rewrite apply_run_loop; [done| |fields; lia|fields; lia|fields; lia].
    by destruct Hwf. }
  assert (forall la fuel, apply_run (S fuel) ApCmd ((rf <| notifyApply := false |>)
      <| lastApplied := la |>) =
    (let! (rf, msg, pc) := apply_body ((rf <| notifyApply := false |>) <| lastApplied := la |>) in
     match pc with
     | ApWait => Ret (rf, option_list msg)
     | _ => let! (rf, msgs) := apply_run fuel pc rf in Ret (rf, option_list msg ++ msgs)
     end)) as Hbody.
  { intros. unfold apply_body. fields. by case_decide. }
  destruct (decide (lastApplied rf < SnapshotIndex rf)) as [Hbeh|Hnb].
  - cbn [Nat.add]. cbn [apply_run apply_step]. fields.
    case_decide as Hd; [|naive_solver]. cbn [res_bind].
    cbn [apply_run apply_step]. fields.
    rewrite <- (Hbody _ (S (Z.to_nat (commitIndex rf - lastApplied rf)))).
    rewrite Hrun by lia. cbn [res_bind option_list app].
    rewrite !Z.max_r by lia. eexists. split; [reflexivity|]. by fields.
  - cbn [Nat.add]. cbn [apply_run apply_step]. fields.
    case_decide as Hd; [naive_solver|].
    assert (rf <| notifyApply := false |> =
      (rf <| notifyApply := false |>) <| lastApplied := lastApplied rf |>) as -> by (by destruct rf).
    rewrite <- (Hbody _ (S (S (Z.to_nat (commitIndex rf - lastApplied rf))))).
    rewrite Hrun by lia. rewrite Z.max_l by lia. eexists. split; [reflexivity|]. by fields.
Qed.

(** A restarted peer: snapshot up to 5, commit index 7. *)
Definition behind : Raft :=
  (fresh 3 1 MakePersister) <| CurrentTerm := 2 |> <| commitIndex := 7 |>
    <| Log := [MkLogEntry 1 AnyNil; MkLogEntry 1 (AnyInt 6); MkLogEntry 2 (AnyInt 7)] |>
    <| SnapshotIndex := 5 |> <| SnapshotTerm := 1 |> <| SnapshotByte := Some [Byte.x01] |>.

Lemma apply_run_delivers_witness :
  commands behind 6 7 = [command_msg (AnyInt 6) 6; command_msg (AnyInt 7) 7] /\
  exists rf', apply_run 10 ApWait behind = Ret (rf',
      [snapshot_msg behind] ++ commands behind 6 7) /\
    lastApplied rf' = commitIndex behind /\ commitIndex rf' = commitIndex behind.
Proof.
  split; [by vm_compute|]. by apply (apply_run_delivers behind).
Defined.

(** A commit index moved past a snapshot the worker has not applied, with no snapshot
    bytes to send, makes the worker spin with the lock held (a comment there says that
    the commands are skipped). *)
Theorem apply_loop_spins rf :
  lastApplied rf < commitIndex rf -> lastApplied rf < SnapshotIndex rf ->
  apply_step ApCmd rf = Panic Deadlock.
Proof. intros. cbn. unfold apply_loop. by repeat case_decide. Qed.

(** ** Replication *)

(** What a sender sends.  A sender whose leader is still in its term always
    builds a message: the snapshot when the next index is in it, and otherwise the
    entries from the next index to the end of the log, with the index and the term of
    the one before, whose index is in the leader's log.  A next index past the log is
    moved to its end first. *)
Lemma prepare_sends server c isRetry rf :
  wf rf -> state rf = Leader -> 0 <= server < zlen (nextIndex rf) -> c ∉ cancelled rf ->
  exists rf' next, nextIndex rf' !! Z.to_nat server = Some next /\ next <= Loglen rf /\
    ((next <= SnapshotIndex rf /\
      prepare server (CurrentTerm rf) c isRetry rf = Ret (rf', SendIS (CurrentTerm rf)
        (MkInstallSnapshotArgs (CurrentTerm rf) (me rf) (SnapshotIndex rf) (SnapshotTerm rf)
           (SnapshotByte rf)))) \/
     (SnapshotIndex rf < next /\
      exists args e,
        prepare server (CurrentTerm rf) c isRetry rf = Ret (rf', SendAE (CurrentTerm rf) args) /\
        ae_Term args = CurrentTerm rf /\ LeaderCommit args = commitIndex rf /\
        PrevLogIndex args = next - 1 /\
        entry_at rf (PrevLogIndex args) = Some e /\ PrevLogTerm args = Term e /\
        zlen (Entries args) = Loglen rf - next /\
        (forall i, next <= i -> entry_at rf i = Entries args !! Z.to_nat (i - next)))).
Proof.
  intros Hwf Hst Hs Hc. unfold prepare, prepare_entries. case_decide; [done|]. case_decide; [done|].
  destruct (idx_ok (nextIndex rf) server Hs) as [n0 Hn0]. rewrite Hn0. cbn [res_bind].
  set (next := Z.min n0 (Loglen rf)).
  assert (exists rf1, (if decide (n0 > Loglen rf) then
      let! l := set_idx (nextIndex rf) server (Loglen rf) in Ret (rf <| nextIndex := l |>)
    else Ret rf) = Ret rf1 /\ idx (nextIndex rf1) server = Ret next /\
    exists l, rf1 = rf <| nextIndex := l |>) as (rf1 & -> & Hn1 & l & Hrf1).
  { case_decide.
    - rewrite (proj2 (set_idx_Ret _ _ _ _)) by (split; [done|reflexivity]).
      eexists. split; [reflexivity|]. split; [|by eexists]. fields. apply idx_Ret.
      split; [lia|]. rewrite list_lookup_insert_eq; [f_equal; lia|]. unfold zlen in Hs. lia.
    - exists rf. split; [done|]. split; [rewrite Hn0; f_equal; lia|].
      exists (nextIndex rf). by destruct rf. }
  cbn [res_bind]. rewrite Hn1. cbn [res_bind].
  assert (nextIndex rf1 !! Z.to_nat server = Some next) as Hlook
    by (by apply idx_Ret in Hn1 as [_ Hn1]).
  assert (0 <= SnapshotIndex rf) as Hsnap by apply Hwf. pose proof (zlen_pos _ (wf_log _ Hwf)).
  destruct (decide (next <= SnapshotIndex rf)) as [Hle|Hgt].
  { exists rf1, next. rewrite Hrf1 in *. fields. split_and!; [done|lia|]. left. split; [done|].
    by case_decide. }
  destruct (entry_at_Some rf (next - 1)) as [e He]; [lia|].
  exists (if isRetry then try_rst server rf1 else rf1), next.
  split; [destruct isRetry; fields; done|]. split; [lia|]. right. split; [lia|].
  rewrite Hrf1. unfold idxInLog. fields. case_decide; [lia|].
  rewrite (proj2 (slice_from_Ret _ _ _)) by (split; [unfold Loglen in *; lia|reflexivity]).
  cbn [res_bind]. apply (entry_at_idx _ _ _ Hsnap) in He as Hi. unfold idxInLog in Hi.
  rewrite Hi. cbn [res_bind]. case_decide; [done|].
  case_decide; [lia|]. eexists _, e. split; [reflexivity|]. cbn. split_and!; try done.
  - rewrite zlen_drop; unfold Loglen in *; lia.
  - intros i Hii. unfold entry_at. case_decide; [|lia]. rewrite lookup_drop. f_equal. lia.
Qed.

Lemma prepare_sends_ex :
  exists rf' next, nextIndex rf' !! Z.to_nat 1 = Some next /\ next <= Loglen leader3 /\
    ((next <= SnapshotIndex leader3 /\
      prepare 1 (CurrentTerm leader3) 0 false leader3 = Ret (rf', SendIS (CurrentTerm leader3)
        (MkInstallSnapshotArgs (CurrentTerm leader3) (me leader3) (SnapshotIndex leader3)
           (SnapshotTerm leader3) (SnapshotByte leader3)))) \/
     (SnapshotIndex leader3 < next /\
      exists args e,
        prepare 1 (CurrentTerm leader3) 0 false leader3 =
          Ret (rf', SendAE (CurrentTerm leader3) args) /\
        ae_Term args = CurrentTerm leader3 /\ LeaderCommit args = commitIndex leader3 /\
        PrevLogIndex args = next - 1 /\
        entry_at leader3 (PrevLogIndex args) = Some e /\ PrevLogTerm args = Term e /\
        zlen (Entries args) = Loglen leader3 - next /\
        (forall i, next <= i -> entry_at leader3 i = Entries args !! Z.to_nat (i - next)))).
Proof.
  apply (prepare_sends 1 0 false leader3); [by split|done|by vm_compute; split|].
  apply not_elem_of_empty.
Defined.

(** The message of [prepare], read back. *)
Lemma prepare_AE server t c isRetry rf rf' term args :
  wf rf -> prepare server t c isRetry rf = Ret (rf', SendAE term args) ->
  SnapshotIndex rf <= PrevLogIndex args /\
  (exists e, entry_at rf (PrevLogIndex args) = Some e /\ Term e = PrevLogTerm args) /\
  zlen (Entries args) = Loglen rf - (PrevLogIndex args + 1) /\
  (forall k : nat, entry_at rf (PrevLogIndex args + 1 + Z.of_nat k) = Entries args !! k).
Proof.
  intros Hwf H. assert (0 <= SnapshotIndex rf) as Hsnap by apply Hwf. unfold prepare, prepare_entries in H.
  destruct (decide (c ∈ cancelled rf)); [by inv_res|].
  destruct (decide (CurrentTerm rf <> t)); [by inv_res|]. inv_res.
  assert (exists l, a0 = rf <| nextIndex := l |>) as [l ->].
  { clear H E1. case_decide; inv_res; [by eexists|]. exists (nextIndex a0). by destruct a0. }
  fields. clear E0. destruct (decide (a1 <= SnapshotIndex rf)); inv_res.
  destruct (decide (state rf <> Leader)); inv_res.
  destruct (decide (a1 - 1 < 0)); [lia|]. fields. apply slice_from_Ret in E0 as [? ->].
  unfold idxInLog in *. replace (a1 - 1 + 1) with a1 by lia.
  split; [lia|]. split.
  - exists a2. split; [|done]. by apply entry_at_idx.
  - rewrite zlen_drop by lia. split; [unfold Loglen; lia|].
    intros k. unfold entry_at. case_decide; [|lia]. rewrite lookup_drop. f_equal. lia.
Qed.

(** Replication.  When the follower accepts the message a leader's sender built,
    and its committed entries are those of the leader, then it has all the leader's
    entries after [PrevLogIndex]: the match index the sender then records,
    [PrevLogIndex + len(Entries)], is right. *)
Lemma accepted_entries_match server c isRetry ld ld' term args fo fo' reply :
  wf ld -> wf fo -> prepare server (CurrentTerm ld) c isRetry ld = Ret (ld', SendAE term args) ->
  SnapshotIndex fo <= PrevLogIndex args -> commitIndex fo < Loglen fo ->
  (forall i, PrevLogIndex args < i <= commitIndex fo ->
     i < Loglen ld -> entry_at fo i = entry_at ld i) ->
  AppendEntries (fun rf => rf) args fo = Ret (fo', reply) -> Success reply = true ->
  PrevLogIndex args + zlen (Entries args) = Loglen ld - 1 /\
  forall i, PrevLogIndex args <= i < Loglen ld ->
    Term <$> entry_at fo' i = Term <$> entry_at ld i /\
    (PrevLogIndex args < i -> entry_at fo' i = entry_at ld i).
Proof.
  intros Hwfl Hwff Hprep Hp Hc Hagree HA Hs.
  destruct (prepare_AE _ _ _ _ _ _ _ _ Hwfl Hprep) as (Hpl & (el & Hel & Htl) & Hlen & Hent).
  destruct (AppendEntries_success _ _ _ _ Hwff Hp Hc HA Hs) as ((ef & Hef & Htf) & [Hk Hn Hcc _]).
  split; [lia|].
  assert (forall i, PrevLogIndex args < i < Loglen ld -> entry_at fo' i = entry_at ld i) as Hafter.
  { intros i Hi. destruct (decide (i <= commitIndex fo)) as [Hic|Hic].
    - rewrite Hk by lia. apply Hagree; lia.
    - replace i with (PrevLogIndex args + 1 + Z.of_nat (Z.to_nat (i - PrevLogIndex args - 1)))
        by lia.
      destruct (entry_at_Some ld i) as [e He]; [lia|].
      rewrite Hent. erewrite Hn; [|shelve|lia]. symmetry. rewrite <- Hent, <- He. f_equal. lia.
      Unshelve. rewrite <- Hent, <- He. f_equal. lia. }
  intros i Hi. split; [|intros; apply Hafter; lia].
  destruct (decide (i = PrevLogIndex args)) as [->|].
  - rewrite Hk by lia. rewrite Hef, Hel. cbn. congruence.
  - rewrite Hafter by lia. done.
Qed.

(** Follower [voter] in term 2 lacks the entry of [leader3b]. *)
Definition leader3b : Raft :=
  leader3 <| Log := [MkLogEntry 0 AnyNil; MkLogEntry 1 (AnyInt 7); MkLogEntry 2 (AnyInt 8)] |>.

Definition ae3b : AppendEntriesArgs := MkAppendEntriesArgs 2 0 1 1 [MkLogEntry 2 (AnyInt 8)] 0.

Lemma accepted_entries_match_ex :
  exists fo' reply, AppendEntries (fun rf => rf) ae3b voter = Ret (fo', reply) /\
  (PrevLogIndex ae3b + zlen (Entries ae3b) = Loglen leader3b - 1 /\
   forall i, PrevLogIndex ae3b <= i < Loglen leader3b ->
     Term <$> entry_at fo' i = Term <$> entry_at leader3b i /\
     (PrevLogIndex ae3b < i -> entry_at fo' i = entry_at leader3b i)).
Proof.
  eexists _, _. split; [vm_compute; reflexivity|].
  eapply (accepted_entries_match 1 0 false leader3b _ 2 ae3b voter);
    [by split|by split|vm_compute; reflexivity|done|done| |vm_compute; reflexivity|done].
  intros i [H1 H2]. change (commitIndex voter) with 0 in H2. change (PrevLogIndex ae3b) with 1 in H1.
  lia.
Defined.

(** The next index computed from the follower's conflicting term is a position in the
    leader's slice: with a snapshot up to 100 the leader, whose entries 101 and 102 are
    of term 2, goes back to index 3, not 103. *)
Theorem backup_is_a_position :
  exists rf reply, SnapshotIndex rf = 100 /\ XTerm reply = 2 /\
    (forall i, entry_at rf i = Some (MkLogEntry 2 (AnyInt i)) <-> i = 101 \/ i = 102) /\
    backup reply rf = Ret 3.
Proof.
  exists ((fresh 3 0 MakePersister) <| SnapshotIndex := 100 |> <| SnapshotTerm := 1 |>
    <| Log := [MkLogEntry 1 AnyNil; MkLogEntry 2 (AnyInt 101); MkLogEntry 2 (AnyInt 102)] |>),
    (MkAppendEntriesReply 3 false 2 101 0).
  split_and!; [done|done| |by vm_compute].
  intros i. split.
  - intros H. pose proof (entry_at_lt _ _ _ H) as Hi. change (100 <= i < 103) in Hi.
    assert (i = 100 \/ i = 101 \/ i = 102) as [->|[->| ->]] by lia; auto. by vm_compute in H.
  - intros [->| ->]; by vm_compute.
Qed.
End Replication.
