(* ===== verification/RaftElection.v ===== *)
(** * RaftElection: elections (src/src/raft1/raft.go)

    Module [Election]: the goroutines [GetVote], [ElectionWorker] and [ticker], cut at
    the points where they release [rf.mu] or wait.  Module [Cluster]: all the peers, the
    election workers and the RequestVote calls in flight as one step relation, and
    election safety. *)
From stdpp Require Import functions.
From S2P Require Import Prelude Persister Raft RaftLeader.
Import Raft Replication.
Local Open Scope Z_scope.
Local Open Scope go_scope.

Module Election.

(** *** GetVote *)

(** Lines 1042-1053: the request, [None] when the peer is no longer a candidate. *)
Definition GetVote_args (rf : Raft) : res (option RequestVoteArgs) :=
  if decide (state rf <> Candidate) then Ret None
  else
    let! e := idx (Log rf) (zlen (Log rf) - 1) in
    Ret (Some (MkRequestVoteArgs (CurrentTerm rf) (me rf) (Loglen rf - 1) (Term e))).

(** Lines 1056-1067: what is sent on [replyChan]; nothing when the election was
    aborted. *)
Definition GetVote_result (ok : bool) (reply : RequestVoteReply) (aborted : bool)
    : option RequestVoteReply :=
  let result := if ok then reply else MkRequestVoteReply 0 false in
  if aborted then None else Some result.

(** *** ElectionWorker *)

(** Lines 1080-1090: [None] when the peer is the leader. *)
Definition start_election (rf : Raft) : option Raft :=
  if decide (state rf = Leader) then None
  else
    let rf := rf <| CurrentTerm := CurrentTerm rf + 1 |> in
    let rf := rf <| VotedFor := me rf |> in
    let rf := rf <| state := Candidate |> in
    Some (persist rf).

(** [context.WithCancel]: a context that was never cancelled. *)
Definition new_ctx (rf : Raft) : nat :=
  S (max_list (default 0%nat (ctx rf) :: elements (cancelled rf))).

(** Lines 1160-1177: the loop over the other peers.  Its [return], were the new context
    already cancelled, would keep the lock. *)
Fixpoint win_loop (ids : list Z) (rf : Raft) : res Raft :=
  match ids with
  | [] => Ret rf
  | i :: ids =>
      if decide (i = me rf) then win_loop ids rf
      else
        let! stop := ctx_done rf in
        if (stop : bool) then Panic Deadlock
        else
          let! l := set_idx (nextIndex rf) i (Loglen rf) in
          let rf := rf <| nextIndex := l |> in
          let! l := set_idx (matchIndex rf) i 0 in
          let rf := rf <| matchIndex := l |> in
          let rf := rf <| retry := retry rf ∖ {[i]} |> in
          let rf := rf <| notify := notify rf ∖ {[i]} |> in
          win_loop ids rf
  end.

(** Lines 1133-1177: the election is won. *)
Definition become_leader (rf : Raft) : res Raft :=
  let rf := rf <| state := Leader |> in
  let rf := rf <| ElectionAbort := false |> in
  let rf := try_rst (me rf) rf in
  let rf := rf <| ctx := Some (new_ctx rf) |> in
  if decide (npeers rf < 0) then Panic MakeNegativeLen
  else
    let rf := rf <| nextIndex := replicate (Z.to_nat (npeers rf)) 0 |> in
    let rf := rf <| matchIndex := replicate (Z.to_nat (npeers rf)) 0 |> in
    win_loop (seqZ 0 (npeers rf)) rf.

Inductive election_next := EBreak | EWon | ECount (voteCount : Z).

(** Lines 1114-1187: a reply is taken from [replyChan]. *)
Definition on_reply (ElectionTerm voteCount : Z) (reply : RequestVoteReply) (rf : Raft)
    : res (Raft * election_next) :=
  if decide (CurrentTerm rf <> ElectionTerm) then Ret (rf, EBreak)
  else if decide (rvr_Term reply > CurrentTerm rf) then
    let rf := rf <| CurrentTerm := rvr_Term reply |> in
    let rf := rf <| VotedFor := -1 |> in
    let rf := rf <| state := Follower |> in
    Ret (persist rf, EBreak)
  else if VoteGranted reply then
    let voteCount := voteCount + 1 in
    if decide (voteCount >= npeers rf ÷ 2 + 1) then
      let! rf := become_leader rf in Ret (rf, EWon)
    else Ret (rf, ECount voteCount)
  else Ret (rf, ECount voteCount).

(** Lines 1188-1192, and 1198-1201 when every reply was taken. *)
Definition stay_follower (rf : Raft) : Raft := rf <| state := Follower |>.
Definition on_abort (rf : Raft) : Raft := stay_follower (rf <| ElectionAbort := false |>).

(** *** ticker *)

(** Lines 1227-1252, the timer fires: the state, and whether [start] is signalled. *)
Definition ticker_fire (rf : Raft) : Raft * bool :=
  if decide (state rf <> Leader) then
    let rf := if decide (state rf = Candidate) then rf <| ElectionAbort := true |> else rf in
    (rf, true)
  else (rf, false).

(** ** What the steps keep *)

Lemma start_election_spec rf rf' :
  start_election rf = Some rf' ->
  npeers rf' = npeers rf /\ me rf' = me rf /\ CurrentTerm rf' = CurrentTerm rf + 1 /\
  VotedFor rf' = me rf /\ state rf' = Candidate /\ Log rf' = Log rf /\ synced rf'.
Proof.
  unfold start_election. case_decide; [done|]. intros [= <-]. fields.
  split_and!; try done. apply synced_persist.
Qed.

Lemma start_election_ok rf rf' : start_election rf = Some rf' -> step_ok rf rf'.
Proof.
  intros (?&?&?&?&?&?&?)%start_election_spec. apply term_ok; try done; [lia|congruence].
Qed.

(** The fields [become_leader] leaves alone. *)
Definition same_election (rf rf' : Raft) : Prop :=
  npeers rf' = npeers rf /\ me rf' = me rf /\ CurrentTerm rf' = CurrentTerm rf /\
  VotedFor rf' = VotedFor rf /\ Log rf' = Log rf /\ SnapshotIndex rf' = SnapshotIndex rf /\
  SnapshotByte rf' = SnapshotByte rf /\ persister rf' = persister rf.

Lemma win_loop_same ids rf rf' :
  win_loop ids rf = Ret rf' ->
  same_election rf rf' /\ state rf' = state rf /\ ctx rf' = ctx rf /\
  cancelled rf' = cancelled rf /\ ElectionAbort rf' = ElectionAbort rf.
Proof.
  revert rf. induction ids as [|i ids IH]; intros rf; cbn; [by intros [= <-]|].
  case_decide; [apply IH|]. intros. inv_res. destruct a; inv_res.
  apply IH in H0 as (Hs & Hst & Hc & Hcc & He). revert Hs Hst Hc Hcc He.
  unfold same_election. by fields.
Qed.

Lemma become_leader_same rf rf' :
  become_leader rf = Ret rf' -> same_election rf rf' /\ state rf' = Leader /\ ctx rf' <> None.
Proof.
  unfold become_leader. case_decide; [done|]. intros (Hs & Hst & Hc & _)%win_loop_same.
  revert Hs Hst Hc. unfold same_election. fields. intros Hs -> ->. done.
Qed.

Lemma same_election_synced rf rf' : same_election rf rf' -> synced rf -> synced rf'.
Proof. intros (?&?&?&?&?&?&?&?). by apply synced_frame. Qed.

Lemma new_ctx_fresh rf : new_ctx rf ∉ cancelled rf.
Proof.
  intros Hin%elem_of_elements. unfold new_ctx in Hin.
  assert (new_ctx rf <= max_list (default 0 (ctx rf) :: elements (cancelled rf)))%nat; [|].
  { apply max_list_elem_of_le. right. exact Hin. }
  unfold new_ctx in *. lia.
Qed.

Lemma win_loop_returns ids rf c :
  ctx rf = Some c -> c ∉ cancelled rf -> Forall (fun i => 0 <= i < npeers rf) ids ->
  zlen (nextIndex rf) = npeers rf -> zlen (matchIndex rf) = npeers rf ->
  exists rf', win_loop ids rf = Ret rf' /\
    zlen (nextIndex rf') = npeers rf /\ zlen (matchIndex rf') = npeers rf /\
    (forall i, i ∈ ids -> i <> me rf ->
       nextIndex rf' !! Z.to_nat i = Some (Loglen rf) /\ matchIndex rf' !! Z.to_nat i = Some 0) /\
    (forall i, 0 <= i -> i ∉ ids -> nextIndex rf' !! Z.to_nat i = nextIndex rf !! Z.to_nat i /\
       matchIndex rf' !! Z.to_nat i = matchIndex rf !! Z.to_nat i) /\
    retry rf' = retry rf ∖ list_to_set (filter (fun i => i <> me rf) ids) /\
    notify rf' = notify rf ∖ list_to_set (filter (fun i => i <> me rf) ids).
Proof.
  revert rf. induction ids as [|i ids IH]; intros rf Hc Hnc Hids Hn Hm.
  { exists rf. cbn. split_and!; try done; try set_solver. }
  apply Forall_cons in Hids as [Hi Hids]. cbn [win_loop]. case_decide as Heq.
  - destruct (IH rf) as (rf' & -> & ? & ? & Hset & Hrest & Hr & Hnf); try done.
    exists rf'. rewrite filter_cons_False by naive_solver. split_and!; try done.
    + intros j [->|Hj]%elem_of_cons ?; [done|by apply Hset].
    + intros j ? [? Hj]%not_elem_of_cons. by apply Hrest.
  - unfold ctx_done. rewrite Hc. cbn [res_bind]. rewrite bool_decide_eq_false_2 by done.
    rewrite (proj2 (set_idx_Ret _ _ _ _)) by (split; [lia|reflexivity]). cbn [res_bind]. fields.
    rewrite (proj2 (set_idx_Ret _ _ _ _)) by (split; [lia|reflexivity]). cbn [res_bind]. fields.
    set (rf1 := (_ <| notify := _ |>)).
    assert (Loglen rf1 = Loglen rf /\ me rf1 = me rf /\ npeers rf1 = npeers rf) as (HL & Hme & Hnp)
      by done.
    destruct (IH rf1) as (rf' & -> & ? & ? & Hset & Hrest & Hr & Hnf); try done.
    { subst rf1. fields. by rewrite zlen_insert. }
    { subst rf1. fields. by rewrite zlen_insert. }
    exists rf'. rewrite filter_cons_True by done. cbn [list_to_set].
    assert (nextIndex rf1 = <[Z.to_nat i:=Loglen rf]> (nextIndex rf) /\
            matchIndex rf1 = <[Z.to_nat i:=0]> (matchIndex rf)) as [Hn1 Hm1] by done.
    split_and!; try done.
    + intros j Hj ?. destruct (decide (j ∈ ids)) as [|Hnin]; [rewrite <- HL; by apply Hset|].
      apply elem_of_cons in Hj as [->|?]; [|done].
      destruct (Hrest i) as [-> ->]; [lia|done|]. rewrite Hn1, Hm1. unfold zlen in *.
      rewrite !list_lookup_insert_eq by lia. done.
    + intros j Hj [? Hnin]%not_elem_of_cons. destruct (Hrest j) as [-> ->]; [done|done|].
      rewrite Hn1, Hm1. rewrite !list_lookup_insert_ne by lia. done.
    + rewrite Hr, Hme. subst rf1. fields. set_solver.
    + rewrite Hnf, Hme. subst rf1. fields. set_solver.
Qed.

(** C18 (becoming the leader).  A candidate that wins starts with a context that is not
    cancelled, and for every other peer with the next index at the end of its log, a
    match index of 0, no retry under way and an empty notification channel. *)
Theorem become_leader_initialises rf :
  0 <= npeers rf ->
  exists rf' c, become_leader rf = Ret rf' /\ state rf' = Leader /\
    CurrentTerm rf' = CurrentTerm rf /\ Log rf' = Log rf /\
    ctx rf' = Some c /\ ~ (c ∈ cancelled rf') /\ ElectionAbort rf' = false /\
    zlen (nextIndex rf') = npeers rf /\ zlen (matchIndex rf') = npeers rf /\
    forall i, 0 <= i < npeers rf -> i <> me rf ->
      nextIndex rf' !! Z.to_nat i = Some (Loglen rf) /\ matchIndex rf' !! Z.to_nat i = Some 0 /\
      ~ (i ∈ retry rf') /\ ~ (i ∈ notify rf').
Proof.
  intros Hn. unfold become_leader.
  case_decide as Hneg; [change (npeers rf < 0) in Hneg; lia|].
  set (rf0 := (try_rst _ _)).
  set (rf1 := ((_ <| nextIndex := _ |>) <| matchIndex := _ |>)).
  assert (npeers rf1 = npeers rf /\ me rf1 = me rf /\ Loglen rf1 = Loglen rf /\
    ctx rf1 = Some (new_ctx rf0) /\ cancelled rf1 = cancelled rf0 /\ state rf1 = Leader /\
    CurrentTerm rf1 = CurrentTerm rf /\ Log rf1 = Log rf /\ ElectionAbort rf1 = false /\
    nextIndex rf1 = replicate (Z.to_nat (npeers rf)) 0 /\
    matchIndex rf1 = replicate (Z.to_nat (npeers rf)) 0)
    as (Hnp & Hme & HL & Hc & Hcc & Hst & HT & Hlog & Hea & Hni & Hmi) by done.
  pose proof (new_ctx_fresh rf0) as Hfresh.
  change (npeers (rf0 <| ctx := Some (new_ctx rf0) |>)) with (npeers rf).
  clearbody rf1. clearbody rf0.
  destruct (win_loop_returns (seqZ 0 (npeers rf)) rf1 (new_ctx rf0))
    as (rf' & Hw & Hl1 & Hl2 & Hset & _ & Hr & Hnf).
  { done. } { by rewrite Hcc. }
  { apply Forall_forall. intros i Hi%elem_of_seqZ. lia. }
  { rewrite Hni, Hnp. unfold zlen. rewrite length_replicate. lia. }
  { rewrite Hmi, Hnp. unfold zlen. rewrite length_replicate. lia. }
  destruct (win_loop_same _ _ _ Hw) as ((?&?&?&?&?&?&?&?) & ? & Hc' & Hcc' & ?).
  exists rf', (new_ctx rf0). split; [by rewrite Hnp|]. rewrite Hcc', Hcc.
  split_and!; try congruence.
  intros i Hi Hne. destruct (Hset i) as [-> ->]; [apply elem_of_seqZ; lia|congruence|].
  rewrite HL, Hr, Hnf. split_and!; try done.
  all: rewrite elem_of_difference, elem_of_list_to_set, list_elem_of_filter, elem_of_seqZ.
  all: intros [_ Hx]; apply Hx; split; [congruence|lia].
Qed.

Lemma become_leader_initialises_witness :
  exists rf' c, become_leader voter = Ret rf' /\ state rf' = Leader /\
    CurrentTerm rf' = CurrentTerm voter /\ Log rf' = Log voter /\
    ctx rf' = Some c /\ ~ (c ∈ cancelled rf') /\ ElectionAbort rf' = false /\
    zlen (nextIndex rf') = npeers voter /\ zlen (matchIndex rf') = npeers voter /\
    forall i, 0 <= i < npeers voter -> i <> me voter ->
      nextIndex rf' !! Z.to_nat i = Some (Loglen voter) /\
      matchIndex rf' !! Z.to_nat i = Some 0 /\ ~ (i ∈ retry rf') /\ ~ (i ∈ notify rf').
Proof. by apply become_leader_initialises. Defined.

(** *** The outcome of a reply *)

Lemma on_reply_spec T v reply rf rf' next :
  on_reply T v reply rf = Ret (rf', next) ->
  npeers rf' = npeers rf /\ me rf' = me rf /\ Log rf' = Log rf /\
  match next with
  | EBreak => step_ok rf rf'
  | ECount v' => rf' = rf /\ CurrentTerm rf = T /\ rvr_Term reply <= T /\
      v' = v + (if VoteGranted reply then 1 else 0)
  | EWon => VoteGranted reply = true /\ CurrentTerm rf = T /\ rvr_Term reply <= T /\
      npeers rf < 2 * (v + 1) /\ same_election rf rf' /\ state rf' = Leader /\ ctx rf' <> None
  end.
Proof.
  unfold on_reply. intros. case_decide; [by inv_res|]. case_decide.
  { inv_res. fields. split_and!; try done.
    apply term_ok; fields; try done; [lia|apply synced_persist]. }
  destruct (VoteGranted reply) eqn:Hg; [case_decide|]; inv_res; split_and!; try done; try lia.
  all: try (apply become_leader_same in E as [(?&?&?&?&?&?&?&?) ?]; done).
  - pose proof (Z.quot_rem' (npeers rf) 2). pose proof (Z.rem_bound_abs (npeers rf) 2). lia.
  - by apply become_leader_same in E as (_ & ? & _).
  - by apply become_leader_same in E as (_ & _ & ?).
Qed.

Lemma stay_follower_ok rf : step_ok rf (stay_follower rf).
Proof. unfold stay_follower. by peel. Qed.

Lemma on_abort_ok rf : step_ok rf (on_abort rf).
Proof. unfold on_abort, stay_follower. by peel. Qed.

Lemma ticker_fire_ok rf : step_ok rf (ticker_fire rf).1.
Proof. unfold ticker_fire. case_decide; [|done]. cbn. case_decide; [by peel|done]. Qed.

End Election.

(** ** All the peers *)

Module Cluster.
Import Election.

(** The other critical sections of a peer, with whatever arguments: handlers of
    AppendEntries (its two parts) and InstallSnapshot, the service's calls, the apply
    worker and the senders. *)
Inductive handler_step : Raft -> Raft -> Prop :=
| ps_AE_check args rf rf' reply go :
    AE_check args rf = Ret (rf', reply, go) -> handler_step rf rf'
| ps_AE_store args rf rf' : AE_store args rf = Ret rf' -> handler_step rf rf'
| ps_InstallSnapshot tpc args rf rf' reply :
    InstallSnapshot tpc args rf = Ret (rf', reply) -> handler_step rf rf'
| ps_Snapshot index s rf rf' : Snapshot index s rf = Ret rf' -> handler_step rf rf'
| ps_Start command rf : handler_step rf (Start command rf).1
| ps_Kill rf : handler_step rf (Kill rf)
| ps_apply pc rf rf' msg pc' : apply_step pc rf = Ret (rf', msg, pc') -> handler_step rf rf'
| ps_sender_head server t c rf : handler_step rf (sender_head server t c rf).1
| ps_sender_wait server isRetry rf rf' :
    sender_wait server isRetry rf = Some rf' -> handler_step rf rf'
| ps_prepare server t c isRetry rf rf' msg :
    prepare server t c isRetry rf = Ret (rf', msg) -> handler_step rf rf'
| ps_IS_reply server c term reply rf rf' n :
    on_IS_reply server c term reply rf = Ret (rf', n) -> handler_step rf rf'
| ps_AE_reply server c term args reply rf rf' n :
    on_AE_reply server c term args reply rf = Ret (rf', n) -> handler_step rf rf'
| ps_timeout server c term rf : handler_step rf (on_timeout server c term rf).1
| ps_boardcast rf rf' : boardcastLogEntries rf = Ret rf' -> handler_step rf rf'.

(** And those of the tickers. *)
Inductive peer_step : Raft -> Raft -> Prop :=
| ps_handler rf rf' : handler_step rf rf' -> peer_step rf rf'
| ps_take_rst i rf : peer_step rf (take_rst i rf)
| ps_heartbeat i rf : peer_step rf (heartbeat i rf)
| ps_ticker rf : peer_step rf (ticker_fire rf).1.

Lemma peer_step_ok rf rf' : peer_step rf rf' -> step_ok rf rf'.
Proof.
  destruct 1 as [rf rf' Hh| | |]; eauto using take_rst_ok, heartbeat_ok, ticker_fire_ok.
  destruct Hh; eauto using AE_check_ok, AE_store_ok, InstallSnapshot_ok, Snapshot_ok, Start_ok,
    Kill_ok, apply_step_ok, sender_head_ok, sender_wait_ok, prepare_ok, on_IS_reply_ok,
    on_AE_reply_ok, on_timeout_ok, boardcastLogEntries_ok.
Qed.

(** An election under way: the worker's local variables. *)
Record election := MkElection {
  el_id : nat; ElectionTerm : Z; voteCount : Z; el_left : nat (* replies it still takes *) }.

(** A [GetVote] goroutine: not started, in its call, its result in [replyChan]. *)
Inductive flight :=
| Pending
| Called (args : RequestVoteArgs)
| Replied (reply : RequestVoteReply).

(** The cluster.  [elections] remembers who started an election and in which term,
    [sent] the requests ever sent, by election and receiver, [votes] the votes ever
    granted, as (voter, term, candidate), and [won] the (term, winner) of every
    election won: these four are not read by any step but by the network's delivery. *)
Record cluster := MkCluster {
  nodes : Z -> Raft;
  worker : Z -> option election;
  flights : gmap (nat * Z) flight;
  elections : gmap nat (Z * Z);
  sent : nat -> Z -> RequestVoteArgs -> Prop;
  votes : Z -> Z -> Z -> Prop;
  won : Z -> Z -> Prop;
}.

Definition others (n i : Z) : list Z := filter (fun p => p <> i) (seqZ 0 n).

(** The goroutines started for election [id]. *)
Definition launch (id : nat) (ps : list Z) (m : gmap (nat * Z) flight) : gmap (nat * Z) flight :=
  list_to_map ((fun p => ((id, p), Pending)) <$> ps) ∪ m.

(** [P] is what else a peer may do. *)
Inductive gstep (P : Raft -> Raft -> Prop) (n : Z) : cluster -> cluster -> Prop :=
(* the election worker is signalled *)
| st_start i id rf' c :
    0 <= i < n -> worker c i = None -> elections c !! id = None ->
    start_election (nodes c i) = Some rf' ->
    gstep P n c (MkCluster (<[i := rf']> (nodes c))
      (<[i := Some (MkElection id (CurrentTerm rf') 1 (length (others n i)))]> (worker c))
      (launch id (others n i) (flights c))
      (<[id := (i, CurrentTerm rf')]> (elections c)) (sent c)
      (fun v t x => votes c v t x \/ v = i /\ t = CurrentTerm rf' /\ x = i) (won c))
(* a GetVote goroutine reads its arguments and calls, or returns *)
| st_call i id T p args c :
    flights c !! (id, p) = Some Pending -> elections c !! id = Some (i, T) ->
    GetVote_args (nodes c i) = Ret (Some args) ->
    gstep P n c (MkCluster (nodes c) (worker c) (<[(id, p) := Called args]> (flights c))
      (elections c) (fun id' p' a => sent c id' p' a \/ id' = id /\ p' = p /\ a = args)
      (votes c) (won c))
| st_no_call i id T p c :
    flights c !! (id, p) = Some Pending -> elections c !! id = Some (i, T) ->
    GetVote_args (nodes c i) = Ret None ->
    gstep P n c (MkCluster (nodes c) (worker c) (delete (id, p) (flights c)) (elections c)
      (sent c) (votes c) (won c))
(* a request that was sent is handled, perhaps late; the reply comes back or is lost *)
| st_handle id p args rf' reply c :
    0 <= p < n -> sent c id p args -> RequestVote args (nodes c p) = Ret (rf', reply) ->
    gstep P n c (MkCluster (<[p := rf']> (nodes c)) (worker c) (flights c) (elections c) (sent c)
      (fun v t x => votes c v t x \/
         VoteGranted reply = true /\ v = p /\ t = rv_Term args /\ x = CandidateId args) (won c))
| st_handle_reply id p args rf' reply result c :
    0 <= p < n -> sent c id p args -> flights c !! (id, p) = Some (Called args) ->
    RequestVote args (nodes c p) = Ret (rf', reply) ->
    GetVote_result true reply false = Some result ->
    gstep P n c (MkCluster (<[p := rf']> (nodes c)) (worker c)
      (<[(id, p) := Replied result]> (flights c)) (elections c) (sent c)
      (fun v t x => votes c v t x \/
         VoteGranted reply = true /\ v = p /\ t = rv_Term args /\ x = CandidateId args) (won c))
(* a call fails, or its result is dropped because the election was aborted *)
| st_call_fails id p args result c :
    flights c !! (id, p) = Some (Called args) ->
    GetVote_result false (MkRequestVoteReply 0 false) false = Some result ->
    gstep P n c (MkCluster (nodes c) (worker c) (<[(id, p) := Replied result]> (flights c))
      (elections c) (sent c) (votes c) (won c))
| st_call_dropped id p c :
    gstep P n c (MkCluster (nodes c) (worker c) (delete (id, p) (flights c)) (elections c) (sent c)
      (votes c) (won c))
(* the worker takes a reply *)
| st_reply i el p reply rf' next c :
    0 <= i < n -> worker c i = Some el -> (0 < el_left el)%nat ->
    flights c !! (el_id el, p) = Some (Replied reply) ->
    on_reply (ElectionTerm el) (voteCount el) reply (nodes c i) = Ret (rf', next) ->
    gstep P n c (MkCluster (<[i := rf']> (nodes c))
      (<[i := match next with
              | ECount v => Some (MkElection (el_id el) (ElectionTerm el) v (pred (el_left el)))
              | _ => None
              end]> (worker c))
      (delete (el_id el, p) (flights c)) (elections c) (sent c) (votes c)
      (fun t x => won c t x \/ next = EWon /\ t = ElectionTerm el /\ x = i))
(* the worker stops: its term is over, it is aborted, or no reply is left *)
| st_over i el c :
    0 <= i < n -> worker c i = Some el -> CurrentTerm (nodes c i) <> ElectionTerm el ->
    gstep P n c (MkCluster (nodes c) (<[i := None]> (worker c)) (flights c) (elections c) (sent c)
      (votes c) (won c))
| st_abort i el c :
    0 <= i < n -> worker c i = Some el -> ElectionAbort (nodes c i) = true ->
    gstep P n c (MkCluster (<[i := on_abort (nodes c i)]> (nodes c)) (<[i := None]> (worker c))
      (flights c) (elections c) (sent c) (votes c) (won c))
| st_exhausted i el c :
    0 <= i < n -> worker c i = Some el -> el_left el = 0%nat ->
    gstep P n c (MkCluster (<[i := stay_follower (nodes c i)]> (nodes c)) (<[i := None]> (worker c))
      (flights c) (elections c) (sent c) (votes c) (won c))
(* anything else a peer does *)
| st_peer i rf' c :
    0 <= i < n -> P (nodes c i) rf' ->
    gstep P n c (MkCluster (<[i := rf']> (nodes c)) (worker c) (flights c) (elections c) (sent c)
      (votes c) (won c))
(* a crash and a restart from stable storage *)
| st_crash i rf' c :
    0 <= i < n -> Make n i (persister (nodes c i)) = Ret rf' ->
    gstep P n c (MkCluster (<[i := rf']> (nodes c)) (<[i := None]> (worker c)) (flights c)
      (elections c) (sent c) (votes c) (won c)).
Arguments st_start {P} n.
Arguments st_call {P} n.
Arguments st_handle_reply {P} n.
Arguments st_reply {P} n.

Definition step : Z -> cluster -> cluster -> Prop := gstep peer_step.

(** Peers just made, on empty storage. *)
Definition init (n : Z) (c : cluster) : Prop :=
  (forall i, 0 <= i < n -> Make n i MakePersister = Ret (nodes c i)) /\
  (forall i, worker c i = None) /\ flights c = ∅ /\ elections c = ∅ /\
  (forall id p a, ~ sent c id p a) /\ (forall v t x, ~ votes c v t x) /\
  (forall t x, ~ won c t x).

(** *** The invariant *)

(** What holds of one peer and the votes it gave. *)
Record node_inv (n : Z) (c : cluster) (i : Z) : Prop := {
  ni_n : npeers (nodes c i) = n;
  ni_me : me (nodes c i) = i;
  ni_sync : synced (nodes c i);
  ni_log : Log (nodes c i) <> [];
  ni_votes : forall t x, votes c i t x -> 0 <= x < n /\ t <= CurrentTerm (nodes c i) /\
               (t = CurrentTerm (nodes c i) -> VotedFor (nodes c i) = x);
  ni_once : forall t x y, votes c i t x -> votes c i t y -> x = y;
  ni_leader : state (nodes c i) = Leader -> won c (CurrentTerm (nodes c i)) i;
  ni_ctx : state (nodes c i) = Leader -> ctx (nodes c i) <> None;
}.

(** Election [id], of [i] in term [T], and the calls made for it. *)
Record call_inv (n : Z) (c : cluster) (id : nat) (i T : Z) : Prop := {
  ci_cand : 0 <= i < n;
  ci_term : T <= CurrentTerm (nodes c i);
  ci_sent : forall p a, sent c id p a -> CandidateId a = i /\ T <= rv_Term a;
  ci_called : forall p a, flights c !! (id, p) = Some (Called a) -> sent c id p a;
  ci_replied : forall p r, flights c !! (id, p) = Some (Replied r) -> VoteGranted r = true ->
                 votes c p (rvr_Term r) i /\ T <= rvr_Term r /\ 0 <= p < n;
}.

(** [Q] is a set of peers that voted for [i] in term [T]. *)
Definition voted (n : Z) (c : cluster) (T i : Z) (Q : gset Z) : Prop :=
  forall v, v ∈ Q -> 0 <= v < n /\ votes c v T i.

(** The worker's count is the number of the distinct peers that voted, and a vote
    counted is not in flight any more. *)
Definition worker_inv (n : Z) (c : cluster) (i : Z) (el : election) : Prop :=
  elections c !! el_id el = Some (i, ElectionTerm el) /\
  exists Q : gset Z, voted n c (ElectionTerm el) i Q /\ Z.of_nat (size Q) = voteCount el /\
    i ∈ Q /\ forall v, v ∈ Q -> flights c !! (el_id el, v) = None.

Record inv (n : Z) (c : cluster) : Prop := {
  inv_node : forall i, 0 <= i < n -> node_inv n c i;
  inv_call : forall id i T, elections c !! id = Some (i, T) -> call_inv n c id i T;
  inv_worker : forall i el, 0 <= i < n -> worker c i = Some el -> worker_inv n c i el;
  inv_won : forall t x, won c t x -> exists Q, voted n c t x Q /\ n < 2 * Z.of_nat (size Q);
  inv_ids : forall id p, is_Some (flights c !! (id, p)) -> is_Some (elections c !! id);
  inv_sent : forall id p a, sent c id p a -> is_Some (elections c !! id);
}.

(** *** Preservation, one part of the invariant at a time *)

(** The part of [step_ok] about votes. *)
Definition vote_ok (rf rf' : Raft) : Prop :=
  npeers rf' = npeers rf /\ me rf' = me rf /\ CurrentTerm rf <= CurrentTerm rf' /\
  (CurrentTerm rf' = CurrentTerm rf -> VotedFor rf <> -1 -> VotedFor rf' = VotedFor rf) /\
  (synced rf -> synced rf') /\ (Log rf <> [] -> Log rf' <> []) /\
  ((state rf = Leader -> ctx rf <> None) -> state rf' = Leader -> ctx rf' <> None).

Lemma step_ok_vote rf rf' : step_ok rf rf' -> vote_ok rf rf'.
Proof. intros [[? ?] ? ? _ ? ? ?]. done. Qed.

Lemma node_inv_upd n c c' i :
  node_inv n c i -> vote_ok (nodes c i) (nodes c' i) ->
  (forall t x, votes c' i t x -> votes c i t x \/
     t = CurrentTerm (nodes c' i) /\ VotedFor (nodes c' i) = x /\ 0 <= x < n) ->
  (state (nodes c' i) = Leader -> won c' (CurrentTerm (nodes c' i)) i) ->
  node_inv n c' i.
Proof.
  intros [Hn Hm Hs Hl Hv Ho _ Hc] (Hn' & Hm' & HT & Hst & Hs' & Hl' & Hc') Hvotes Hlead.
  assert (forall t x, votes c' i t x -> 0 <= x < n /\ t <= CurrentTerm (nodes c' i) /\
    (t = CurrentTerm (nodes c' i) -> VotedFor (nodes c' i) = x)) as Hv'.
  { intros t x [Hvx|(-> & <- & ?)]%Hvotes; [|done]. destruct (Hv t x Hvx) as (? & ? & Hx).
    split; [done|]. split; [lia|]. intros ->.
    rewrite Hst; [apply Hx; lia|lia|]. rewrite Hx by lia. lia. }
  split; [congruence|congruence|auto|auto|done| |done|auto].
  intros t x y Hx Hy. destruct (Hvotes _ _ Hx) as [Ho1|(-> & <- & _)];
    [destruct (Hvotes _ _ Hy) as [Ho2|(-> & <- & _)]|].
  - by eapply Ho.
  - symmetry. by destruct (Hv' _ _ Hx) as (_ & _ & ->).
  - by destruct (Hv' _ _ Hy) as (_ & _ & ->).
Qed.

(** A peer whose state and votes do not change. *)
Lemma node_inv_same n c c' i :
  node_inv n c i -> nodes c' i = nodes c i ->
  (forall t x, votes c' i t x -> votes c i t x) -> (forall t, won c t i -> won c' t i) ->
  node_inv n c' i.
Proof.
  intros Hi Hn Hv Hw. eapply node_inv_upd; [exact Hi|by rewrite Hn|auto|].
  intros Hst. apply Hw. rewrite Hn in *. by apply Hi.
Qed.

Lemma call_inv_upd n c c' id i T :
  call_inv n c id i T -> CurrentTerm (nodes c i) <= CurrentTerm (nodes c' i) ->
  (forall v t x, votes c v t x -> votes c' v t x) ->
  (forall p a, sent c id p a -> sent c' id p a) ->
  (forall p a, sent c' id p a -> sent c id p a \/ CandidateId a = i /\ T <= rv_Term a) ->
  (forall p a, flights c' !! (id, p) = Some (Called a) ->
     flights c !! (id, p) = Some (Called a) \/ sent c' id p a) ->
  (forall p r, flights c' !! (id, p) = Some (Replied r) -> VoteGranted r = true ->
     flights c !! (id, p) = Some (Replied r) \/
     votes c' p (rvr_Term r) i /\ T <= rvr_Term r /\ 0 <= p < n) ->
  call_inv n c' id i T.
Proof.
  intros [Hc HT Hs Hcl Hr] HT' Hv Hs1 Hs2 Hc' Hr'. split; [done|lia| | |].
  - intros p a [Ho|Ho]%Hs2; [by apply (Hs p)|done].
  - intros p a [Ho|Ho]%Hc'; auto.
  - intros p r H Hg. destruct (Hr' p r H Hg) as [Ho|]; [|done].
    destruct (Hr p r Ho Hg) as (? & ? & ?). auto.
Qed.

Lemma worker_inv_upd n c c' i el :
  worker_inv n c i el ->
  (elections c !! el_id el = Some (i, ElectionTerm el) ->
   elections c' !! el_id el = Some (i, ElectionTerm el)) ->
  (forall v t x, votes c v t x -> votes c' v t x) ->
  (forall p, flights c !! (el_id el, p) = None -> flights c' !! (el_id el, p) = None) ->
  worker_inv n c' i el.
Proof.
  intros (He & Q & HQ & Hsz & Hi & Hf) He' Hv Hfl. split; [auto|]. exists Q.
  split; [|split; [done|split; [done|]]].
  - intros v Hvq. destruct (HQ v Hvq). auto.
  - auto.
Qed.

Lemma won_upd n c c' t x :
  (forall v t x, votes c v t x -> votes c' v t x) ->
  (exists Q, voted n c t x Q /\ n < 2 * Z.of_nat (size Q)) ->
  exists Q, voted n c' t x Q /\ n < 2 * Z.of_nat (size Q).
Proof. intros Hv (Q & HQ & Hs). exists Q. split; [|done]. intros v [? ?]%HQ. auto. Qed.

Ltac node_cases i j := destruct (decide (i = j)) as [<-|];
  [rewrite ?fn_lookup_insert|rewrite ?fn_lookup_insert_ne by done].

(** The steps that change one peer and neither the elections nor the calls; a worker may
    stop. *)
Lemma inv_node_step n c i rf' wk :
  inv n c -> 0 <= i < n -> vote_ok (nodes c i) rf' ->
  (state rf' = Leader -> state (nodes c i) = Leader /\ CurrentTerm rf' = CurrentTerm (nodes c i)) ->
  (forall j, wk j = worker c j \/ wk j = None) ->
  inv n (MkCluster (<[i := rf']> (nodes c)) wk (flights c) (elections c) (sent c) (votes c)
    (won c)).
Proof.
  intros Hinv Hi Hok Hlead Hw. destruct Hinv as [Hno Hca Hwo Hwon Hids Hse].
  assert (forall j, CurrentTerm (nodes c j) <= CurrentTerm (<[i:=rf']> (nodes c) j)) as HT.
  { intros j. node_cases i j; [|lia]. by destruct Hok as (_ & _ & ? & _). }
  split; cbn; try done.
  - intros j Hj. destruct (decide (i = j)) as [<-|Hne].
    + eapply node_inv_upd; [by apply Hno| | |]; cbn; rewrite ?fn_lookup_insert; auto.
      intros (Hl & ->)%Hlead. by apply (Hno i).
    + eapply node_inv_same; [by apply Hno| | |]; cbn; auto. by rewrite fn_lookup_insert_ne.
  - intros id j T He. eapply call_inv_upd; [by apply Hca| | | | | |]; cbn; auto.
  - intros j el Hj He. destruct (Hw j) as [Hj'|Hj']; [|congruence].
    eapply worker_inv_upd; [apply Hwo; [done|congruence]| | |]; cbn; auto.
Qed.

(** The calls change, the peers do not. *)
Lemma inv_flight_step n c fl se :
  inv n c ->
  (forall id p, flights c !! (id, p) = None -> fl !! (id, p) = None) ->
  (forall id p a, sent c id p a -> se id p a) ->
  (forall id p a i T, elections c !! id = Some (i, T) -> se id p a ->
     sent c id p a \/ CandidateId a = i /\ T <= rv_Term a) ->
  (forall id p a, se id p a -> is_Some (elections c !! id)) ->
  (forall id p a, fl !! (id, p) = Some (Called a) ->
     flights c !! (id, p) = Some (Called a) \/ se id p a) ->
  (forall id p r, fl !! (id, p) = Some (Replied r) -> VoteGranted r = true ->
     flights c !! (id, p) = Some (Replied r)) ->
  inv n (MkCluster (nodes c) (worker c) fl (elections c) se (votes c) (won c)).
Proof.
  intros [Hno Hca Hwo Hwon Hids Hse] Hf Hs1 Hs2 Hs3 Hc Hr. split; cbn; try done.
  - intros j Hj. by eapply node_inv_same; [by apply Hno| | |].
  - intros id j T He. eapply call_inv_upd; [by apply Hca| | | | | |]; cbn; eauto. lia.
  - intros j el Hj He. eapply worker_inv_upd; [by apply Hwo| | |]; cbn; auto.
  - intros id p [f Hfl]. apply (Hids id p). destruct (flights c !! (id, p)) eqn:E; [done|].
    rewrite Hf in Hfl by done. done.
Qed.

Lemma RequestVote_vote args rf rf' reply :
  RequestVote args rf = Ret (rf', reply) -> VoteGranted reply = true ->
  CurrentTerm rf' = rv_Term args /\ VotedFor rf' = CandidateId args /\
  rvr_Term reply = rv_Term args.
Proof.
  unfold RequestVote. intros. destruct (decide (rv_Term args < CurrentTerm rf)); [by inv_res|].
  destruct (decide (rv_Term args = CurrentTerm rf)) as [Heq|].
  - inv_res. destruct a; [by inv_res|].
    destruct (decide (VotedFor rf = -1 \/ VotedFor rf = CandidateId args)); inv_res.
    fields. done.
  - inv_res. destruct a0; inv_res. fields. split_and!; try done.
    clear E0. destruct (decide _); inv_res; [|done].
    unfold cancel in E. fields. destruct (ctx rf); inv_res. done.
Qed.

(** A request is handled; [fl] may hold the reply. *)
Lemma inv_handle_step n c id p args rf' reply fl :
  inv n c -> 0 <= p < n -> sent c id p args -> RequestVote args (nodes c p) = Ret (rf', reply) ->
  (forall k, flights c !! k = None -> fl !! k = None) ->
  (forall k a, fl !! k = Some (Called a) -> flights c !! k = Some (Called a)) ->
  (forall k r, fl !! k = Some (Replied r) ->
     flights c !! k = Some (Replied r) \/ k = (id, p) /\ r = reply) ->
  inv n (MkCluster (<[p := rf']> (nodes c)) (worker c) fl (elections c) (sent c)
    (fun v t x => votes c v t x \/
       VoteGranted reply = true /\ v = p /\ t = rv_Term args /\ x = CandidateId args) (won c)).
Proof.
  intros Hinv Hp Hs HR Hf1 Hf2 Hf3. destruct Hinv as [Hno Hca Hwo Hwon Hids Hse].
  pose proof (RequestVote_ok _ _ _ _ HR) as Hok.
  destruct (Hse _ _ _ Hs) as [[i T] He]. pose proof (Hca _ _ _ He) as Hci.
  destruct (ci_sent _ _ _ _ _ Hci _ _ Hs) as [Hcand HTa].
  assert (forall j, CurrentTerm (nodes c j) <= CurrentTerm (<[p:=rf']> (nodes c) j)) as HT.
  { intros j. node_cases p j; [|lia]. apply Hok. }
  split; cbn.
  - intros j Hj. destruct (decide (p = j)) as [<-|Hne].
    + eapply node_inv_upd; [by apply Hno| | |]; cbn; rewrite ?fn_lookup_insert.
      * by apply step_ok_vote.
      * intros t x [?|(Hg & _ & -> & ->)]; [by left|right].
        destruct (RequestVote_vote _ _ _ _ HR Hg) as (-> & -> & _).
        rewrite Hcand. split_and!; try done; apply Hci.
      * intros Hl. destruct (ok_leader _ _ Hok Hl) as [? ->]. by apply (Hno p).
    + eapply node_inv_same; [by apply Hno| | |]; cbn; auto; [by rewrite fn_lookup_insert_ne|].
      intros t x [?|(_ & -> & _)]; done.
  - intros id' j T' He'. eapply call_inv_upd; [by apply Hca| | | | | |]; cbn; auto.
    intros q r [?|[[= -> ->] ->]]%Hf3 Hg; [by left|right].
    assert (j = i /\ T' = T) as [-> ->] by (split; congruence).
    destruct (RequestVote_vote _ _ _ _ HR Hg) as (_ & _ & ->).
    split_and!; try lia. right. by rewrite Hcand.
  - intros j el Hj He'. eapply worker_inv_upd; [by apply Hwo| | |]; cbn; auto.
  - intros t x Hw. eapply won_upd, Hwon, Hw. cbn. auto.
  - intros id' q [f Hfl]. apply (Hids id' q). destruct (flights c !! (id', q)) eqn:E; [done|].
    apply Hf1 in E. congruence.
  - done.
Qed.

(** *** Starting an election *)

Lemma launch_ne id id' ps m p : id' <> id -> launch id ps m !! (id', p) = m !! (id', p).
Proof.
  intros Hne. unfold launch. rewrite lookup_union_r; [done|].
  apply not_elem_of_list_to_map. rewrite <- list_fmap_compose. cbn.
  intros (q & [= -> ->] & _)%list_elem_of_fmap. done.
Qed.

Lemma launch_eq id ps m p f :
  launch id ps m !! (id, p) = Some f -> f = Pending /\ p ∈ ps \/ m !! (id, p) = Some f.
Proof.
  unfold launch. intros [Hl|[_ Hm]]%lookup_union_Some_raw; [|by right].
  apply elem_of_list_to_map_2 in Hl. apply list_elem_of_fmap in Hl as (q & [= -> ->] & ?). by left.
Qed.

Lemma inv_start n c i id rf' :
  inv n c -> 0 <= i < n -> elections c !! id = None -> start_election (nodes c i) = Some rf' ->
  inv n (MkCluster (<[i := rf']> (nodes c))
      (<[i := Some (MkElection id (CurrentTerm rf') 1 (length (others n i)))]> (worker c))
      (launch id (others n i) (flights c))
      (<[id := (i, CurrentTerm rf')]> (elections c)) (sent c)
      (fun v t x => votes c v t x \/ v = i /\ t = CurrentTerm rf' /\ x = i) (won c)).
Proof.
  intros Hinv Hi Hid Hst. destruct Hinv as [Hno Hca Hwo Hwon Hids Hse].
  pose proof (start_election_ok _ _ Hst) as Hok.
  destruct (start_election_spec _ _ Hst) as (_ & _ & _ & HV & Hcand & _).
  assert (forall p, flights c !! (id, p) = None) as Hnofl.
  { intros p. destruct (flights c !! (id, p)) eqn:E; [|done].
    destruct (Hids id p); [by eexists|congruence]. }
  assert (forall p a, ~ sent c id p a) as Hnose.
  { intros p a [e He]%Hse. congruence. }
  assert (forall j, CurrentTerm (nodes c j) <= CurrentTerm (<[i:=rf']> (nodes c) j)) as HT.
  { intros j. node_cases i j; [|lia]. apply Hok. }
  split; cbn.
  - intros j Hj. destruct (decide (i = j)) as [<-|Hne].
    + eapply node_inv_upd; [by apply Hno| | |]; cbn; rewrite ?fn_lookup_insert.
      * by apply step_ok_vote.
      * intros t x [?|(_ & -> & ->)]; [by left|right]. rewrite HV. split_and!; try lia.
        apply (Hno i Hi).
      * congruence.
    + eapply node_inv_same; [by apply Hno| | |]; cbn; auto; [by rewrite fn_lookup_insert_ne|].
      intros t x [?|(-> & _)]; done.
  - intros id' j T. destruct (decide (id = id')) as [<-|Hne].
    + rewrite lookup_insert_eq. intros [= <- <-]. split; cbn.
      * done.
      * rewrite fn_lookup_insert. lia.
      * intros p a []%Hnose.
      * intros p a [[? _]|Hf]%launch_eq; [done|congruence].
      * intros p r [[? _]|Hf]%launch_eq; [done|congruence].
    + rewrite lookup_insert_ne by done. intros He.
      eapply call_inv_upd; [by apply Hca| | | | | |]; cbn; auto.
      all: intros p x; rewrite launch_ne by done; auto.
  - intros j el Hj. destruct (decide (i = j)) as [<-|Hne].
    + rewrite fn_lookup_insert. intros [= <-]. split; cbn; [apply lookup_insert_eq|].
      exists {[i]}. rewrite size_singleton. split_and!; [|done|set_solver|].
      * intros v ->%elem_of_singleton. split; [done|]. by right.
      * intros v ->%elem_of_singleton.
        destruct (launch _ _ _ !! _) eqn:E; [|done].
        apply launch_eq in E as [[_ Hin]|E]; [|congruence].
        unfold others in Hin. by apply list_elem_of_filter in Hin as [? _].
    + rewrite fn_lookup_insert_ne by done. intros He.
      eapply worker_inv_upd; [by apply Hwo| | |]; cbn; auto.
      * intros Hel. rewrite lookup_insert_ne by congruence. done.
      * intros p Hp. rewrite launch_ne; [done|]. intros <-.
        destruct (Hwo j el Hj He) as [Hel _]. congruence.
  - intros t x Hw. eapply won_upd, Hwon, Hw. cbn. auto.
  - intros id' p [f Hf]. destruct (decide (id = id')) as [<-|Hne].
    + rewrite lookup_insert_eq. by eexists.
    + rewrite lookup_insert_ne by done. rewrite launch_ne in Hf by done. apply (Hids id' p).
      by eexists.
  - intros id' p a Hs. destruct (decide (id = id')) as [<-|Hne]; [by destruct (Hnose p a)|].
    rewrite lookup_insert_ne by done. by eapply Hse.
Qed.

(** *** Taking a reply *)

(** The votes counted once the reply of [p] is added. *)
Lemma counted n c i el p reply :
  inv n c -> 0 <= i < n -> worker c i = Some el ->
  flights c !! (el_id el, p) = Some (Replied reply) ->
  rvr_Term reply <= ElectionTerm el ->
  exists Q, voted n c (ElectionTerm el) i Q /\ i ∈ Q /\
    Z.of_nat (size Q) = voteCount el + (if VoteGranted reply then 1 else 0) /\
    forall v, v ∈ Q -> delete (el_id el, p) (flights c) !! (el_id el, v) = None.
Proof.
  intros Hinv Hi Hw Hf HT. destruct (inv_worker _ _ Hinv i el Hi Hw) as (He & Q & HQ & Hs & Hiq & Hfl).
  assert (p ∉ Q) as Hnin by (intros Hin%Hfl; congruence).
  assert (forall v, v ∈ Q -> delete (el_id el, p) (flights c) !! (el_id el, v) = None) as Hdel.
  { intros v Hv. apply lookup_delete_None. right. by apply Hfl. }
  destruct (VoteGranted reply) eqn:Hg; [|exists Q; split_and!; try done; lia].
  destruct (ci_replied _ _ _ _ _ (inv_call _ _ Hinv _ _ _ He) p reply Hf Hg) as (Hv & HT' & Hp).
  exists ({[p]} ∪ Q). split_and!.
  - intros v [->%elem_of_singleton|Hin]%elem_of_union; [|by apply HQ].
    split; [done|]. by replace (ElectionTerm el) with (rvr_Term reply) by lia.
  - set_solver.
  - rewrite size_union by set_solver. rewrite size_singleton. lia.
  - intros v [->%elem_of_singleton|Hin]%elem_of_union; [apply lookup_delete_eq|auto].
Qed.

(** One peer changes, some calls end, and elections may be won. *)
Lemma inv_taken n c i rf' wk fl wn :
  inv n c -> 0 <= i < n -> vote_ok (nodes c i) rf' ->
  (state rf' = Leader -> wn (CurrentTerm rf') i) -> (forall t x, won c t x -> wn t x) ->
  (forall t x, wn t x -> exists Q, voted n c t x Q /\ n < 2 * Z.of_nat (size Q)) ->
  (forall k f, fl !! k = Some f -> flights c !! k = Some f) ->
  let c' := MkCluster (<[i := rf']> (nodes c)) wk fl (elections c) (sent c) (votes c) wn in
  (forall j el, wk j = Some el -> worker c j = Some el \/ worker_inv n c' j el) ->
  inv n c'.
Proof.
  cbv zeta. intros Hinv Hi Hok Hlead Hw1 Hw2 Hf Hwk. destruct Hinv as [Hno Hca Hwo Hwon Hids Hse].
  assert (forall j, CurrentTerm (nodes c j) <= CurrentTerm (<[i:=rf']> (nodes c) j)) as HT.
  { intros j. node_cases i j; [|lia]. by destruct Hok as (_ & _ & ? & _). }
  split; cbn; try done.
  - intros j Hj. destruct (decide (i = j)) as [<-|Hne].
    + eapply node_inv_upd; [by apply Hno| | |]; cbn; rewrite ?fn_lookup_insert; auto.
    + eapply node_inv_same; [by apply Hno| | |]; cbn; auto. by rewrite fn_lookup_insert_ne.
  - intros id j T He. eapply call_inv_upd; [by apply Hca| | | | | |]; cbn; auto.
  - intros j el Hj Hel. destruct (Hwk j el Hel) as [Hold|]; [|done].
    eapply worker_inv_upd; [by apply Hwo| | |]; cbn; auto.
    intros p Hp. destruct (fl !! _) eqn:E; [|done]. apply Hf in E. congruence.
  - intros id p [f Hfl]. apply (Hids id p). apply Hf in Hfl. by eexists.
Qed.

Lemma inv_reply n c i el p reply rf' next :
  inv n c -> 0 <= i < n -> worker c i = Some el ->
  flights c !! (el_id el, p) = Some (Replied reply) ->
  on_reply (ElectionTerm el) (voteCount el) reply (nodes c i) = Ret (rf', next) ->
  inv n (MkCluster (<[i := rf']> (nodes c))
      (<[i := match next with
              | ECount v => Some (MkElection (el_id el) (ElectionTerm el) v (pred (el_left el)))
              | _ => None
              end]> (worker c))
      (delete (el_id el, p) (flights c)) (elections c) (sent c) (votes c)
      (fun t x => won c t x \/ next = EWon /\ t = ElectionTerm el /\ x = i)).
Proof.
  intros Hinv Hi Hw Hf Hr. destruct (inv_node _ _ Hinv i Hi) as [Hn _ _ _ _ _ Hl].
  destruct (on_reply_spec _ _ _ _ _ _ Hr) as (_ & _ & _ & Hnext).
  assert (forall k f, delete (el_id el, p) (flights c) !! k = Some f -> flights c !! k = Some f)
    as Hdel by (intros k f [_ ?]%lookup_delete_Some; done).
  destruct next as [| |v].
  - apply inv_taken; auto; try (by apply step_ok_vote).
    + intros [Hst ->]%(ok_leader _ _ Hnext). left. auto.
    + intros t x [?|[? _]]; [by apply (inv_won _ _ Hinv)|done].
    + intros j el'. node_cases i j; [done|by left].
  - destruct Hnext as (Hg & HT & HrT & Hmaj & Hsame & Hst & ?).
    destruct (counted _ _ _ _ _ _ Hinv Hi Hw Hf HrT) as (Q & HQ & _ & Hsz & _).
    rewrite Hg in Hsz. destruct Hsame as (? & ? & HT' & ? & ? & ? & ? & ?).
    apply inv_taken; auto.
    + split_and!; try done; [lia|by apply synced_frame|congruence].
    + intros _. right. split_and!; congruence.
    + intros t x [?|(_ & -> & ->)]; [by apply (inv_won _ _ Hinv)|]. exists Q. split; [done|lia].
    + intros j el'. node_cases i j; [done|by left].
  - destruct Hnext as (-> & HT & HrT & ->).
    destruct (counted _ _ _ _ _ _ Hinv Hi Hw Hf HrT) as (Q & HQ & Hiq & Hsz & Hfl).
    apply inv_taken; auto.
    + apply step_ok_vote. done.
    + intros t x [?|[? _]]; [by apply (inv_won _ _ Hinv)|done].
    + intros j el'. node_cases i j; [|by left]. intros [= <-]. right.
      destruct (inv_worker _ _ Hinv i el Hi Hw) as [He _]. split; [done|]. by exists Q.
Qed.

(** *** Crash and restart *)

Lemma Make_vote_ok n i rf rf' :
  npeers rf = n -> me rf = i -> synced rf -> Log rf <> [] ->
  Make n i (persister rf) = Ret rf' -> vote_ok rf rf' /\ state rf' = Follower.
Proof.
  intros Hn Hm Hs Hl HM.
  destruct (Make_synced n i rf Hs Hl) as (r & Hr & Hp & ? & ? & ? & _ & _ & Hsr & _).
  rewrite Hr in HM. injection HM as <-. unfold persistent in Hp.
  injection Hp as HT HV HL _ _. split; [|done]. split_and!; try congruence; lia.
Qed.

Lemma inv_init n c : init n c -> inv n c.
Proof.
  intros (Hm & Hw & Hf & He & Hs & Hv & Hwon).
  split.
  - intros i Hi. specialize (Hm i Hi). cbn in Hm. injection Hm as Hm.
    split; rewrite <- ?Hm; try done.
    + by right.
    + intros t x []%Hv.
    + intros t x y []%Hv.
  - intros id i T. by rewrite He, lookup_empty.
  - intros i el _. by rewrite Hw.
  - intros t x []%Hwon.
  - intros id p [? Hx]. by rewrite Hf, lookup_empty in Hx.
  - intros id p a []%Hs.
Qed.

Lemma inv_worker_stop n c i :
  inv n c ->
  inv n (MkCluster (nodes c) (<[i := None]> (worker c)) (flights c) (elections c) (sent c)
    (votes c) (won c)).
Proof.
  intros [Hno Hca Hwo Hwon Hids Hse]. split; cbn; try done.
  - intros j Hj. eapply node_inv_same; [by apply Hno|done|auto|auto].
  - intros id j T He. eapply call_inv_upd; [by apply Hca| | | | | |]; cbn; auto. lia.
  - intros j el Hj. node_cases i j; [done|]. intros He.
    eapply worker_inv_upd; [by apply Hwo| | |]; cbn; auto.
Qed.

Lemma inv_ok_step n c i rf' wk :
  inv n c -> 0 <= i < n -> step_ok (nodes c i) rf' -> (forall j, wk j = worker c j \/ wk j = None) ->
  inv n (MkCluster (<[i := rf']> (nodes c)) wk (flights c) (elections c) (sent c) (votes c)
    (won c)).
Proof.
  intros Hinv Hi Hok. apply inv_node_step; [done|done|by apply step_ok_vote|].
  apply Hok.
Qed.

Lemma stop_cases (w : Z -> option election) i j :
  (<[i := None]> w) j = w j \/ (<[i := None]> w) j = None.
Proof. node_cases i j; auto. Qed.

Lemma GetVote_args_spec rf args :
  GetVote_args rf = Ret (Some args) ->
  state rf = Candidate /\ rv_Term args = CurrentTerm rf /\ CandidateId args = me rf /\
  LastLogIndex args = Loglen rf - 1 /\ last_term rf = Some (LastLogTerm args).
Proof.
  unfold GetVote_args. case_decide as Hst; [done|]. intros. inv_res. split_and!; try done.
  apply idx_Ret in E as [? E]. unfold last_term. rewrite last_lookup.
  replace (pred (length (Log rf))) with (Z.to_nat (zlen (Log rf) - 1)) by (unfold zlen; lia).
  by rewrite E.
Qed.

Lemma inv_call_step n c i id T p args :
  inv n c -> flights c !! (id, p) = Some Pending -> elections c !! id = Some (i, T) ->
  GetVote_args (nodes c i) = Ret (Some args) ->
  inv n (MkCluster (nodes c) (worker c) (<[(id, p) := Called args]> (flights c))
      (elections c) (fun id' p' a => sent c id' p' a \/ id' = id /\ p' = p /\ a = args)
      (votes c) (won c)).
Proof.
  intros Hinv Hf He (_ & HT & Hc & _)%GetVote_args_spec.
  pose proof (inv_call _ _ Hinv _ _ _ He) as Hci.
  apply inv_flight_step; auto.
  - intros id' q Hn. rewrite lookup_insert_ne; [done|]. intros [= <- <-]. congruence.
  - intros id' q a j T' He' [?|(-> & -> & ->)]; [by left|right].
    assert (j = i /\ T' = T) as [-> ->] by (split; congruence).
    rewrite Hc, HT. split; [|apply Hci]. apply (inv_node _ _ Hinv i), Hci.
  - intros id' q a [?|(-> & _)]; [by eapply inv_sent|by eexists].
  - intros id' q a [[[= <- <-] [= <-]]|[? ?]]%lookup_insert_Some; auto.
  - intros id' q r [[_ ?]|[? ?]]%lookup_insert_Some; done.
Qed.

Lemma gstep_inv (P : Raft -> Raft -> Prop) n c c' :
  (forall rf rf', P rf rf' -> step_ok rf rf') -> inv n c -> gstep P n c c' -> inv n c'.
Proof.
  intros HP Hinv Hstep. destruct Hstep.
  - by apply inv_start.
  - by eapply inv_call_step.
  - apply inv_flight_step; auto; try (intros; by eapply inv_sent).
    + intros. apply lookup_delete_None. auto.
    + intros ??? [_ ?]%lookup_delete_Some. auto.
    + intros ??? [_ ?]%lookup_delete_Some. auto.
  - eapply inv_handle_step; eauto.
  - injection H3 as <-. eapply inv_handle_step; eauto.
    + intros k Hk. rewrite lookup_insert_ne; [done|]. intros <-. congruence.
    + intros k a [[_ ?]|[_ ?]]%lookup_insert_Some; done.
    + intros k r [[<- [= <-]]|[_ ?]]%lookup_insert_Some; auto.
  - injection H0 as <-. apply inv_flight_step; auto; try (intros; by eapply inv_sent).
    + intros id' q Hk. rewrite lookup_insert_ne; [done|]. intros [= <- <-]. congruence.
    + intros ??? [[_ ?]|[_ ?]]%lookup_insert_Some; [done|auto].
    + intros ??? [[_ [= <-]]|[_ ?]]%lookup_insert_Some; [done|auto].
  - apply inv_flight_step; auto; try (intros; by eapply inv_sent).
    + intros. apply lookup_delete_None. auto.
    + intros ??? [_ ?]%lookup_delete_Some. auto.
    + intros ??? [_ ?]%lookup_delete_Some. auto.
  - by eapply inv_reply.
  - by apply inv_worker_stop.
  - apply inv_ok_step; auto using on_abort_ok, stop_cases.
  - apply inv_ok_step; auto using stay_follower_ok, stop_cases.
  - apply inv_ok_step; auto.
  - destruct (inv_node _ _ Hinv i H) as [Hn Hm Hs Hl _ _ _].
    destruct (Make_vote_ok _ _ _ _ Hn Hm Hs Hl H0) as [Hok Hst].
    apply inv_node_step; auto using stop_cases. intros HL. congruence.
Qed.

Lemma cluster_inv_step n c c' : inv n c -> step n c c' -> inv n c'.
Proof. apply gstep_inv, peer_step_ok. Qed.

Lemma reachable_inv n c : reachable (step n) (init n) c -> inv n c.
Proof. apply reachable_invariant; [apply inv_init|apply cluster_inv_step]. Qed.

Lemma voted_size n c t x Q : voted n c t x Q -> Q ⊆ list_to_set (seqZ 0 n).
Proof. intros HQ v [Hv _]%HQ. rewrite elem_of_list_to_set, elem_of_seqZ. lia. Qed.

(** Two majorities share a peer. *)
Lemma majorities_meet n (Q R : gset Z) :
  0 <= n -> Q ⊆ list_to_set (seqZ 0 n) -> R ⊆ list_to_set (seqZ 0 n) ->
  n < 2 * Z.of_nat (size Q) -> n < 2 * Z.of_nat (size R) -> exists v, v ∈ Q /\ v ∈ R.
Proof.
  intros Hn HQ HR HsQ HsR. destruct (decide (Q ∩ R = ∅)) as [He|Hne].
  - exfalso. assert (size (Q ∪ R) <= size (list_to_set (C:=gset Z) (seqZ 0 n)))%nat as Hle
      by (apply subseteq_size; set_solver).
    rewrite size_union in Hle by set_solver.
    rewrite size_list_to_set in Hle by apply NoDup_seqZ. rewrite length_seqZ in Hle. lia.
  - apply set_choose_L in Hne as [v Hv]. exists v. set_solver.
Qed.

Lemma won_unique n c t i j : 0 <= n -> inv n c -> won c t i -> won c t j -> i = j.
Proof.
  intros Hn Hinv Hi Hj.
  destruct (inv_won _ _ Hinv _ _ Hi) as (Q & HQ & HsQ).
  destruct (inv_won _ _ Hinv _ _ Hj) as (R & HR & HsR).
  destruct (majorities_meet n Q R Hn) as (v & HvQ & HvR);
    [by eapply voted_size|by eapply voted_size|done|done|].
  destruct (HQ v HvQ) as [Hr H1]. destruct (HR v HvR) as [_ H2].
  by eapply (ni_once _ _ _ (inv_node _ _ Hinv v Hr)).
Qed.

(** *** A run *)

(** A cluster of three peers just made. *)
Definition cluster0 : cluster :=
  MkCluster (fun i => fresh 3 i MakePersister) (fun _ => None) ∅ ∅ (fun _ _ _ => False)
    (fun _ _ _ => False) (fun _ _ => False).

Definition run_args : RequestVoteArgs := MkRequestVoteArgs 1 0 0 0.

Definition get {A} (d : A) (m : res A) : A := match m with Ret a => a | Panic _ => d end.

(** Peer 0 starts an election, and asks peer 1, who votes for it. *)
Definition candidate0 : Raft := default (fresh 3 0 MakePersister) (start_election (nodes cluster0 0)).
Definition voter1 : Raft * RequestVoteReply :=
  get (nodes cluster0 1, MkRequestVoteReply 0 false) (RequestVote run_args (nodes cluster0 1)).
Definition leader0 : Raft := fst (get (candidate0, EBreak) (on_reply 1 1 (snd voter1) candidate0)).

Lemma cluster0_init : init 3 cluster0.
Proof. split; [|split; [|split; [|split; [|split; [|split]]]]]; try done; intros; by intros []. Qed.

Lemma run_elects : exists c, reachable (step 3) (init 3) c /\ won c 1 0 /\ nodes c 0 = leader0 /\
  nodes c 1 = fst voter1.
Proof.
  pose proof (reach_init (step 3) (init 3) _ cluster0_init) as H0.
  eassert (step 3 cluster0 _) as S1.
  { apply (st_start 3 0 0 candidate0); [lia|done|done|vm_compute; reflexivity]. }
  pose proof (reach_step _ _ _ _ H0 S1) as H1. clear S1 H0.
  match type of H1 with reachable _ _ ?c => set (c1 := c) in H1 end.
  eassert (step 3 c1 _) as S2.
  { apply (st_call 3 0 0 1 1 run_args); vm_compute; reflexivity. }
  pose proof (reach_step _ _ _ _ H1 S2) as H2. clear S2.
  match type of H2 with reachable _ _ ?c => set (c2 := c) in H2 end.
  eassert (step 3 c2 _) as S3.
  { apply (st_handle_reply 3 0 1 run_args (fst voter1) (snd voter1) (snd voter1)); [lia|by right|..];
      vm_compute; reflexivity. }
  pose proof (reach_step _ _ _ _ H2 S3) as H3. clear S3.
  match type of H3 with reachable _ _ ?c => set (c3 := c) in H3 end.
  eassert (step 3 c3 _) as S4.
  { apply (st_reply 3 0 (MkElection 0 1 1 2) 1 (snd voter1) leader0 EWon); [lia| |cbn; lia|..];
      vm_compute; reflexivity. }
  pose proof (reach_step _ _ _ _ H3 S4) as H4. eexists. split; [exact H4|].
  split; [by right|]. split; [apply fn_lookup_insert|]. cbn.
  rewrite fn_lookup_insert_ne by done. apply fn_lookup_insert.
Qed.

(** C3 (election safety).  In every state a cluster of [n] peers reaches, whatever the
    interleaving, the messages lost or late and the crashes, at most one peer ever won
    the election of a term; so two leaders of one term are the same peer. *)
Theorem election_safety n c :
  0 <= n -> reachable (step n) (init n) c ->
  (forall t i j, won c t i -> won c t j -> i = j) /\
  (forall i j, 0 <= i < n -> 0 <= j < n ->
     state (nodes c i) = Leader -> state (nodes c j) = Leader ->
     CurrentTerm (nodes c i) = CurrentTerm (nodes c j) -> i = j).
Proof.
  intros Hn Hr%reachable_inv. split; [intros t i j; by apply (won_unique n c t)|].
  intros i j Hi Hj Hli Hlj HT.
  apply (ni_leader _ _ _ (inv_node _ _ Hr i Hi)) in Hli.
  apply (ni_leader _ _ _ (inv_node _ _ Hr j Hj)) in Hlj. rewrite HT in Hli.
  by eapply won_unique.
Qed.

Lemma election_safety_witness :
  exists c, reachable (step 3) (init 3) c /\ state (nodes c 0) = Leader /\
  ((forall t i j, won c t i -> won c t j -> i = j) /\
   (forall i j, 0 <= i < 3 -> 0 <= j < 3 ->
     state (nodes c i) = Leader -> state (nodes c j) = Leader ->
     CurrentTerm (nodes c i) = CurrentTerm (nodes c j) -> i = j)).
Proof.
  destruct run_elects as (c & Hr & _ & H0 & _). exists c. split; [exact Hr|].
  split; [rewrite H0; by vm_compute|]. apply (election_safety 3 c); [done|exact Hr].
Defined.

(** C7 (one vote a term).  A peer never votes for two candidates in one term, not even
    across crashes and restarts; its term is never behind a vote it gave. *)
Theorem one_vote_per_term n c v :
  reachable (step n) (init n) c -> 0 <= v < n ->
  (forall t x y, votes c v t x -> votes c v t y -> x = y) /\
  (forall t x, votes c v t x -> t <= CurrentTerm (nodes c v) /\
     (t = CurrentTerm (nodes c v) -> VotedFor (nodes c v) = x)).
Proof.
  intros Hr%reachable_inv Hv. destruct (inv_node _ _ Hr v Hv) as [_ _ _ _ Hvo Ho _].
  split; [exact Ho|]. intros t x H. by apply Hvo.
Qed.

Lemma one_vote_per_term_witness :
  exists c, reachable (step 3) (init 3) c /\ VotedFor (nodes c 1) = 0 /\
  ((forall t x y, votes c 1 t x -> votes c 1 t y -> x = y) /\
   (forall t x, votes c 1 t x -> t <= CurrentTerm (nodes c 1) /\
     (t = CurrentTerm (nodes c 1) -> VotedFor (nodes c 1) = x))).
Proof.
  destruct run_elects as (c & Hr & _ & _ & H1). exists c. split; [exact Hr|].
  split; [rewrite H1; by vm_compute|]. apply (one_vote_per_term 3 c 1); [exact Hr|done].
Defined.

(** C8 (durability).  In every reachable state a crash of any peer loses nothing that
    must persist: [Make], on its stable storage, returns a peer with the same term,
    vote, log, snapshot index and snapshot. *)
Theorem crash_keeps_persistent_state n c i :
  reachable (step n) (init n) c -> 0 <= i < n ->
  exists rf', Make n i (persister (nodes c i)) = Ret rf' /\
    persistent rf' = persistent (nodes c i) /\ state rf' = Follower.
Proof.
  intros Hr%reachable_inv Hi. destruct (inv_node _ _ Hr i Hi) as [_ _ Hs Hl _ _ _].
  destruct (Make_synced n i _ Hs Hl) as (rf' & ? & ? & _ & _ & ? & _). by exists rf'.
Qed.

Lemma crash_keeps_persistent_state_witness :
  exists c, reachable (step 3) (init 3) c /\ CurrentTerm (nodes c 1) = 1 /\
  exists rf', Make 3 1 (persister (nodes c 1)) = Ret rf' /\
    persistent rf' = persistent (nodes c 1) /\ state rf' = Follower.
Proof.
  destruct run_elects as (c & Hr & _ & _ & H1). exists c. split; [exact Hr|].
  split; [rewrite H1; by vm_compute|]. apply (crash_keeps_persistent_state 3 c 1); [exact Hr|done].
Defined.

(** With a single peer the reply loop is empty, so no election is ever won. *)
Theorem single_peer_never_leads c :
  reachable (step 1) (init 1) c -> forall t i, ~ won c t i.
Proof.
  intros Hr. enough ((forall i el, 0 <= i < 1 -> worker c i = Some el -> el_left el = 0%nat) /\
    forall t i, ~ won c t i) as [_ ?] by done.
  revert c Hr. apply reachable_invariant.
  - intros c (_ & Hw & _ & _ & _ & _ & Hwon). split; [|exact Hwon]. intros i el _. by rewrite Hw.
  - intros c c' [Hl Hwon] Hs. destruct Hs; cbn; try (split; [exact Hl|exact Hwon]).
    + split; [|exact Hwon]. intros j el Hj. assert (i = j) as <- by lia.
      rewrite fn_lookup_insert. intros [= <-]. cbn. assert (i = 0) as -> by lia. done.
    + specialize (Hl i el H H0). lia.
    + split; [|exact Hwon]. intros j el' Hj. node_cases i j; [done|by apply Hl].
    + split; [|exact Hwon]. intros j el' Hj. node_cases i j; [done|by apply Hl].
    + split; [|exact Hwon]. intros j el' Hj. node_cases i j; [done|by apply Hl].
    + split; [|exact Hwon]. intros j el' Hj. node_cases i j; [done|by apply Hl].
Qed.
End Cluster.
