(* ===== verification/RaftTimer.v ===== *)
(** * RaftTimer: the timers and signals of a peer (src/src/raft1/raft.go)

    The goroutines of one peer that wait for a timer ([ticker], [HeartbeatMaintain]) and the
    election worker they signal, at the grain of the channel operations: each receive, each
    non-blocking send and each critical section is a step, and time passes between them.
    RaftElection has the same critical sections, without time, for all the peers. *)
From stdpp Require Import functions.
From S2P Require Import Prelude Persister Raft RaftLeader RaftElection.
Import Raft Replication Election Cluster.
Local Open Scope Z_scope.
Local Open Scope go_scope.

Module RaftTimer.

(** ** Timers

    A time.Timer of Go 1.22 (go.mod): its channel has a buffer of one value, which a stop
    does not empty.  [armed] is the time at which it fires, if it is to; times are in
    milliseconds. *)
Record timer := MkTimer { armed : option Z; tchan : bool }.

Definition NewTimer (now d : Z) : timer := MkTimer (Some (now + d)) false.
(** It is true when the call stops the timer. *)
Definition Stop (t : timer) : timer * bool := (MkTimer None (tchan t), bool_decide (is_Some (armed t))).
Definition Reset (now d : Z) (t : timer) : timer := MkTimer (Some (now + d)) (tchan t).
(** A receive, or a [select] with a [default] that receives. *)
Definition drain (t : timer) : timer := MkTimer (armed t) false.
(** The runtime fires a timer whose time has come. *)
Definition fire (t : timer) : timer := MkTimer None true.

(** Lines 1219-1225, 1228-1234, 1263-1269 and 1271-1277. *)
Definition rearm (now d : Z) (t : timer) : timer :=
  let '(t, active) := Stop t in
  let t := if (active : bool) then t else drain t in
  Reset now d t.

(** ** The goroutines *)

(** Where a goroutine with a timer is: at the head of its loop; at its [select]; about to read
    the state; having read it; about to send its signal; returned. *)
Inductive loop_pc := LHead | LSelect | LFired | LSeen (st : role) | LSignal | LDone.

#[export] Instance loop_pc_eq_dec : EqDecision loop_pc.
Proof. solve_decision. Defined.

(** What it does with the state it read, up to the signal: [ticker], lines 1238-1246, and
    [HeartbeatMaintain], lines 1281-1285. *)
Definition ticker_seen (st : role) (rf : Raft) : Raft * loop_pc :=
  if decide (st <> Leader) then
    (if decide (st = Candidate) then rf <| ElectionAbort := true |> else rf, LSignal)
  else (rf, LHead).
Definition heartbeat_seen (st : role) (rf : Raft) : Raft * loop_pc :=
  if decide (st = Leader) then (try_notifyApply rf, LSignal) else (rf, LHead).

(** The election worker: at the head of its loop; at its [select]; having received from [start];
    at the head of the loop over the replies, with the term of the election, the votes and the replies to
    come; at the [select] there; about to become a follower; returned. *)
Inductive worker_pc :=
| WHead
| WSelect
| WStart
| WVotes (ElectionTerm voteCount : Z) (rest : nat)
| WWait (ElectionTerm voteCount : Z) (rest : nat)
| WFollow
| WDone.

(** Lines 1080-1101: an election is started, unless the peer leads. *)
Definition worker_start (rf : Raft) : Raft * worker_pc :=
  match start_election rf with
  | None => (rf, WHead)
  | Some rf' => (rf', WVotes (CurrentTerm rf') 1 (Z.to_nat (npeers rf' - 1)))
  end.
(** Lines 1102-1112. *)
Definition worker_votes (T v : Z) (rest : nat) (rf : Raft) : worker_pc :=
  match rest with
  | O => WFollow
  | S _ => if killed rf then WDone else if decide (T <> CurrentTerm rf) then WHead else WWait T v rest
  end.
(** Lines 1114-1187: a reply is received. *)
Definition worker_reply (T v : Z) (rest : nat) (reply : RequestVoteReply) (rf : Raft) : res (Raft * worker_pc) :=
  let! (rf, next) := on_reply T v reply rf in
  Ret (rf, match next with ECount v => WVotes T v (pred rest) | _ => WHead end).

#[export] Instance worker_pc_eq_dec : EqDecision worker_pc.
Proof. solve_decision. Defined.

(** The GetVote goroutines of the worker's last election: how many have not read their arguments
    ([asks]), how many are in their calls, and what is in [replyChan]. *)
Record voting := MkVoting { asks : nat; called : nat; replies : list RequestVoteReply }.

(** A peer with its goroutines.  The last three fields remember when each timer was last armed, how
    often each was received from, and how many elections were started. *)
Record peer := MkPeer {
  rf : Raft;
  now : Z;
  timers : Z -> timer;
  loops : Z -> loop_pc;
  start : bool;
  worker : worker_pc;
  votes : voting;
  armed_at : Z -> Z;
  fires : Z -> Z;
  stood : Z;
}.

Definition with_rf (rf : Raft) (s : peer) : peer :=
  MkPeer rf (now s) (timers s) (loops s) (start s) (worker s) (votes s) (armed_at s) (fires s) (stood s).
Definition with_now (t : Z) (s : peer) : peer :=
  MkPeer (rf s) t (timers s) (loops s) (start s) (worker s) (votes s) (armed_at s) (fires s) (stood s).
Definition with_timer (i : Z) (t : timer) (s : peer) : peer :=
  MkPeer (rf s) (now s) (<[i := t]> (timers s)) (loops s) (start s) (worker s) (votes s) (armed_at s) (fires s) (stood s).
Definition with_loop (i : Z) (pc : loop_pc) (s : peer) : peer :=
  MkPeer (rf s) (now s) (timers s) (<[i := pc]> (loops s)) (start s) (worker s) (votes s) (armed_at s) (fires s) (stood s).
Definition with_start (b : bool) (s : peer) : peer :=
  MkPeer (rf s) (now s) (timers s) (loops s) b (worker s) (votes s) (armed_at s) (fires s) (stood s).
Definition with_votes (v : voting) (s : peer) : peer :=
  MkPeer (rf s) (now s) (timers s) (loops s) (start s) (worker s) v (armed_at s) (fires s) (stood s).
Definition with_worker (w : worker_pc) (s : peer) : peer :=
  MkPeer (rf s) (now s) (timers s) (loops s) (start s) w (votes s) (armed_at s) (fires s) (stood s).

(** A timer is armed again now. *)
Definition with_rearmed (i d : Z) (s : peer) : peer :=
  MkPeer (rf s) (now s) (<[i := rearm (now s) d (timers s i)]> (timers s)) (loops s) (start s) (worker s) (votes s)
    (<[i := now s]> (armed_at s)) (fires s) (stood s).
Definition count_fire (i : Z) (s : peer) : peer :=
  MkPeer (rf s) (now s) (timers s) (loops s) (start s) (worker s) (votes s) (armed_at s)
    (<[i := fires s i + 1]> (fires s)) (stood s).
Definition count_stood (w : worker_pc) (s : peer) : peer :=
  MkPeer (rf s) (now s) (timers s) (loops s) (start s) (worker s) (votes s) (armed_at s) (fires s)
    (match w with WVotes _ _ _ => stood s + 1 | _ => stood s end).

(** An election starts a GetVote goroutine for each other peer, with a new channel. *)
Definition launch_votes (w : worker_pc) (v : voting) : voting :=
  match w with WVotes _ _ n => MkVoting n 0 [] | _ => v end.

(** The time set: random for the peer's own ticker, fixed for a heartbeat. *)
Definition period (rf : Raft) (i d : Z) : Prop := if decide (i = me rf) then 300 <= d < 500 else d = 100.

#[export] Instance period_dec rf i d : Decision (period rf i d).
Proof. unfold period. case_decide; apply _. Defined.

(** What goroutine [i] does with the state it read, and its signal. *)
Definition seen_step (i : Z) (st : role) (rf : Raft) : Raft * loop_pc :=
  if decide (i = me rf) then ticker_seen st rf else heartbeat_seen st rf.
Definition signal (i : Z) (s : peer) : peer :=
  if decide (i = me (rf s)) then with_start true s else with_rf (try_notify i (rf s)) s.

Inductive tstep : peer -> peer -> Prop :=
(* time passes; a timer fires *)
| t_time t s : now s <= t -> tstep s (with_now t s)
| t_fire i x s : armed (timers s i) = Some x -> x <= now s -> tstep s (with_timer i (fire (timers s i)) s)
(* the goroutine [i] and its timer *)
| t_head i s :
    loops s i = LHead -> killed (rf s) = false -> tstep s (with_loop i LSelect s)
| t_done i s :
    loops s i = LHead -> killed (rf s) = true ->
    tstep s (with_loop i LDone (with_timer i (Stop (timers s i)).1 s))
| t_reset i d s :
    loops s i = LSelect -> i ∈ rst (rf s) -> period (rf s) i d ->
    tstep s (with_loop i LHead (with_rearmed i d (with_rf (take_rst i (rf s)) s)))
| t_take i d s :
    loops s i = LSelect -> tchan (timers s i) = true -> period (rf s) i d ->
    tstep s (with_loop i LFired (count_fire i (with_rearmed i d (with_timer i (drain (timers s i)) s))))
| t_look i s : loops s i = LFired -> tstep s (with_loop i (LSeen (state (rf s))) s)
| t_seen i st rf' pc s :
    loops s i = LSeen st -> seen_step i st (rf s) = (rf', pc) -> tstep s (with_loop i pc (with_rf rf' s))
| t_signal i s : loops s i = LSignal -> tstep s (with_loop i LHead (signal i s))
(* the election worker *)
| t_whead s :
    worker s = WHead -> tstep s (with_worker (if killed (rf s) then WDone else WSelect) s)
| t_wabort s :
    worker s = WSelect -> ElectionAbort (rf s) = true ->
    tstep s (with_worker WDone (with_rf ((rf s) <| ElectionAbort := false |>) s))
| t_wkill s :
    worker s = WSelect -> killed (rf s) = true -> tstep s (with_worker WDone s)
| t_wsignal s :
    worker s = WSelect -> start s = true -> tstep s (with_worker WStart (with_start false s))
| t_wstart rf' w s :
    worker s = WStart -> worker_start (rf s) = (rf', w) ->
    tstep s (with_worker w (count_stood w (with_votes (launch_votes w (votes s)) (with_rf rf' s))))
| t_wvotes T v rest s :
    worker s = WVotes T v rest -> tstep s (with_worker (worker_votes T v rest (rf s)) s)
| t_wreply T v rest reply more rf' w s :
    worker s = WWait T v rest -> replies (votes s) = reply :: more ->
    worker_reply T v rest reply (rf s) = Ret (rf', w) ->
    tstep s (with_worker w (with_votes (MkVoting (asks (votes s)) (called (votes s)) more) (with_rf rf' s)))
| t_wwait_abort T v rest s :
    worker s = WWait T v rest -> ElectionAbort (rf s) = true ->
    tstep s (with_worker WFollow (with_rf ((rf s) <| ElectionAbort := false |>) s))
| t_wwait_kill T v rest s :
    worker s = WWait T v rest -> killed (rf s) = true -> tstep s (with_worker WDone s)
| t_wfollow s :
    worker s = WFollow -> tstep s (with_worker WHead (with_rf (stay_follower (rf s)) s))
(* a GetVote goroutine returns without a word, or calls; a call ends *)
| t_no_call k s :
    asks (votes s) = S k -> GetVote_args (rf s) = Ret None ->
    tstep s (with_votes (MkVoting k (called (votes s)) (replies (votes s))) s)
| t_call k args s :
    asks (votes s) = S k -> GetVote_args (rf s) = Ret (Some args) ->
    tstep s (with_votes (MkVoting k (S (called (votes s))) (replies (votes s))) s)
| t_result k ok reply result s :
    called (votes s) = S k -> GetVote_result ok reply false = Some result ->
    tstep s (with_votes (MkVoting (asks (votes s)) k (replies (votes s) ++ [result])) s)
(* anything else that happens to the peer *)
| t_handler rf' s : handler_step (rf s) rf' -> tstep s (with_rf rf' s)
| t_vote args rf' reply s : RequestVote args (rf s) = Ret (rf', reply) -> tstep s (with_rf rf' s).

(** Make has returned at time 0: the timers are armed, each with a time of its own ([ds]), and the
    goroutines begin. *)
Definition tinit (ds : Z -> Z) (rf0 : Raft) : peer :=
  MkPeer rf0 0 (fun i => NewTimer 0 (ds i)) (fun i => if decide (0 <= i < npeers rf0) then LHead else LDone)
    false WHead (MkVoting 0 0 []) (fun _ => 0) (fun _ => 0) 0.
Definition begun (s : peer) : Prop :=
  exists n i p rf0 ds, Make n i p = Ret rf0 /\ (forall j, 300 <= ds j < 500) /\ s = tinit ds rf0.

Definition treach : peer -> Prop := reachable tstep begun.

(** ** What the other critical sections leave alone *)

Record bystander (rf rf' : Raft) : Prop := {
  by_id : me rf' = me rf /\ npeers rf' = npeers rf;
  by_abort : ElectionAbort rf' = ElectionAbort rf;
  by_dead : dead rf = true -> dead rf' = true;
  by_candidate : state rf' = Candidate -> state rf = Candidate;
}.

#[export] Instance bystander_preorder : PreOrder bystander.
Proof. split; [by split|]. intros a b c [[] ? ? ?] [[] ? ? ?]. split; [split|..]; try congruence; auto. Qed.

Ltac bystands :=
  intros; repeat (case_match; inv_res); inv_res; split; fields; first [done|congruence|solve [auto]].

Lemma cancel_if_leader_by rf rf' : cancel_if_leader rf = Ret rf' -> bystander rf rf'.
Proof. intros [cs ->]%cancel_if_leader_eq. bystands. Qed.

Lemma see_term_by t rf : bystander rf (see_term t rf).
Proof. unfold see_term. bystands. Qed.

Lemma AE_check_by args rf rf' reply go : AE_check args rf = Ret (rf', reply, go) -> bystander rf rf'.
Proof.
  unfold AE_check. intros. case_decide; inv_res; [done|].
  apply cancel_if_leader_by in E. etransitivity; [exact E|].
  assert (exists t, rf' = try_rst (me (see_term t (a <| state := Follower |>))) (see_term t (a <| state := Follower |>))) as [t ->].
  { repeat (case_match; inv_res); by eexists. }
  transitivity (see_term t (a <| state := Follower |>)); [|bystands].
  etransitivity; [|apply see_term_by]. bystands.
Qed.

Lemma AE_store_by args rf rf' : AE_store args rf = Ret rf' -> bystander rf rf'.
Proof.
  unfold AE_store, AE_commit. intros.
  assert (forall rf rf', AE_entries args rf = Ret (Some rf') -> bystander rf rf') as He.
  { unfold AE_entries. bystands. }
  repeat (case_match; inv_res); try done; first [bystands|etransitivity; [by apply He|bystands]|by apply He].
Qed.

Lemma IS_install_by args rf rf' : IS_install args rf = Ret rf' -> bystander rf rf'.
Proof. unfold IS_install. bystands. Qed.

Lemma InstallSnapshot_by tpc args rf rf' reply : InstallSnapshot tpc args rf = Ret (rf', reply) -> bystander rf rf'.
Proof.
  unfold InstallSnapshot. intros. case_decide; inv_res; [done|].
  apply cancel_if_leader_by in E. etransitivity; [|etransitivity; [exact E|]].
  { etransitivity; [|apply see_term_by]. bystands. }
  assert (bystander a a0) as Hr by (revert E0; unfold send_rst; bystands).
  etransitivity; [exact Hr|]. case_decide; inv_res; [done|]. apply IS_install_by in E1.
  etransitivity; [|exact E1]. case_decide; [bystands|done].
Qed.

Lemma RequestVote_by args rf rf' reply : RequestVote args rf = Ret (rf', reply) -> bystander rf rf'.
Proof. unfold RequestVote, cancel. bystands. Qed.

Lemma apply_step_by pc rf rf' msg pc' : apply_step pc rf = Ret (rf', msg, pc') -> bystander rf rf'.
Proof. unfold apply_step, apply_body, apply_loop. bystands. Qed.

Lemma still_leader_by c t rf : bystander rf (still_leader c t rf).1.
Proof. unfold still_leader, workerCancel. bystands. Qed.

Lemma step_down_by c t u rf : bystander rf (step_down c t u rf).
Proof. unfold step_down, workerCancel. bystands. Qed.

Lemma sender_head_by server t c rf : bystander rf (sender_head server t c rf).1.
Proof. unfold sender_head, workerCancel. bystands. Qed.

Lemma prepare_by server t c isRetry rf rf' msg : prepare server t c isRetry rf = Ret (rf', msg) -> bystander rf rf'.
Proof. unfold prepare, prepare_entries, workerCancel. bystands. Qed.

Lemma on_IS_reply_by server c term reply rf rf' n :
  on_IS_reply server c term reply rf = Ret (rf', n) -> bystander rf rf'.
Proof.
  unfold on_IS_reply. intros. case_decide; inv_res; [apply step_down_by|].
  pose proof (still_leader_by c term rf) as Hs. destruct (still_leader c term rf) as [rf1 []]; inv_res; [done|].
  etransitivity; [exact Hs|]. bystands.
Qed.

Lemma on_AE_reply_by server c term args reply rf rf' n :
  on_AE_reply server c term args reply rf = Ret (rf', n) -> bystander rf rf'.
Proof.
  unfold on_AE_reply, on_AE_success, on_AE_failure. intros. case_match.
  - pose proof (still_leader_by c term rf) as Hs. destruct (still_leader c term rf) as [rf1 []]; inv_res; [done|].
    etransitivity; [exact Hs|]. bystands.
  - case_decide; inv_res; [apply step_down_by|]. bystands.
Qed.

Lemma boardcast_loop_by ids rf rf' : boardcast_loop ids rf = Ret rf' -> bystander rf rf'.
Proof.
  revert rf. induction ids as [|i ids IH]; intros rf H; cbn [boardcast_loop] in H; [by inv_res|].
  case_decide; [by apply IH|]. inv_res. destruct a; inv_res; [done|]. apply IH in H.
  etransitivity; [|exact H]. bystands.
Qed.

Lemma boardcastLogEntries_by rf rf' : boardcastLogEntries rf = Ret rf' -> bystander rf rf'.
Proof.
  unfold boardcastLogEntries. case_decide; [unfold cancel; bystands|].
  intros Hb%boardcast_loop_by. etransitivity; [|exact Hb]. bystands.
Qed.

Lemma handler_by rf rf' : handler_step rf rf' -> bystander rf rf'.
Proof.
  destruct 1; eauto using AE_check_by, AE_store_by, InstallSnapshot_by, apply_step_by, sender_head_by,
    prepare_by, on_IS_reply_by, on_AE_reply_by, boardcastLogEntries_by.
  - revert H. unfold Snapshot. bystands.
  - unfold Start. bystands.
  - unfold Kill. bystands.
  - revert H. unfold sender_wait. bystands.
  - unfold on_timeout. etransitivity; [|apply still_leader_by]. bystands.
Qed.

Lemma worker_start_by rf rf' w :
  worker_start rf = (rf', w) ->
  me rf' = me rf /\ npeers rf' = npeers rf /\
  (rf' = rf /\ w = WHead \/ exists left, w = WVotes (CurrentTerm rf') 1 left).
Proof.
  unfold worker_start. destruct (start_election rf) as [rf1|] eqn:E; intros [= <- <-].
  - apply start_election_spec in E as (? & ? & _). split_and!; [done|done|]. right. by eexists.
  - split_and!; [done|done|by left].
Qed.

Lemma worker_votes_by T v left rf : worker_votes T v left rf <> WStart.
Proof. unfold worker_votes. by repeat case_match. Qed.

Lemma worker_reply_by T v left reply rf rf' w :
  worker_reply T v left reply rf = Ret (rf', w) -> me rf' = me rf /\ npeers rf' = npeers rf /\ w <> WStart.
Proof.
  unfold worker_reply. intros. inv_res. destruct a as [rf1 next]. inv_res.
  apply on_reply_spec in E as (? & ? & _). by destruct next.
Qed.

Lemma seen_step_by i st rf rf' pc :
  seen_step i st rf = (rf', pc) -> me rf' = me rf /\ npeers rf' = npeers rf /\ dead rf' = dead rf /\ pc <> LDone.
Proof.
  unfold seen_step, ticker_seen, heartbeat_seen. intros. repeat case_match; simplify_eq; by fields.
Qed.

Lemma tstep_me s s' : tstep s s' -> me (rf s') = me (rf s) /\ npeers (rf s') = npeers (rf s).
Proof.
  destruct 1 as [| | | | | | |? ? ? ? ? ? Hs|? ? ?| | | | |? ? ? ? Hs| |? ? ? ? ? ? ? ? ? ? Hs| | | | | | |? ? Hs|? ? ? ? Hs];
    try done; cbn.
  - by apply seen_step_by in Hs as (? & ? & _).
  - unfold signal. by case_decide.
  - by apply worker_start_by in Hs as (? & ? & _).
  - by apply worker_reply_by in Hs as (? & ? & _).
  - by apply handler_by in Hs as [[] _ _ _].
  - by apply RequestVote_by in Hs as [[] _ _ _].
Qed.

(** ** One timer

    [lo] is the least time it is armed with, [a] when it was armed last, [f] how often it was received
    from. *)
Record clock_ok (now lo : Z) (t : timer) (a f : Z) : Prop := {
  ck_at : a <= now;
  ck_fires : 0 <= f /\ lo * f <= a;
  ck_armed : forall x, armed t = Some x -> tchan t = false /\ a + lo <= x <= a + 500;
  ck_chan : tchan t = true -> a + lo <= now;
}.

Lemma clock_later now now' lo t a f : now <= now' -> clock_ok now lo t a f -> clock_ok now' lo t a f.
Proof. intros Hn [H1 H2 H3 H4]. split; [lia|done|done|]. intros H%H4. lia. Qed.

Lemma clock_fire now lo t a f x :
  clock_ok now lo t a f -> armed t = Some x -> x <= now -> clock_ok now lo (fire t) a f.
Proof. intros [H1 H2 H3 H4] Hx Hn. split; [done|done|done|]. intros _. apply H3 in Hx. lia. Qed.

Lemma clock_stop now lo t a f : clock_ok now lo t a f -> clock_ok now lo (Stop t).1 a f.
Proof. intros [H1 H2 H3 H4]. by split. Qed.

(** Stop, the drain and Reset leave no value of the past in the channel. *)
Lemma rearm_spec now d t :
  (forall x, armed t = Some x -> tchan t = false) -> rearm now d t = MkTimer (Some (now + d)) false.
Proof. intros H. unfold rearm, Stop, Reset, drain. case_bool_decide as E; [|done]. destruct E as [x E]. cbn. by rewrite (H x). Qed.

Lemma clock_rearm now lo t a f d :
  clock_ok now lo t a f -> lo <= d <= 500 -> clock_ok now lo (rearm now d t) now f.
Proof.
  intros [H1 H2 H3 H4] Hd. rewrite rearm_spec by (intros x Hx; by apply H3 in Hx as [? _]).
  split; cbn; [done|lia| |done]. intros x [= <-]. split; [done|lia].
Qed.

Lemma clock_take now lo t a f d :
  clock_ok now lo t a f -> tchan t = true -> lo <= d <= 500 ->
  clock_ok now lo (rearm now d (drain t)) now (f + 1).
Proof.
  intros [H1 H2 H3 H4] Ht Hd. rewrite rearm_spec by done. apply H4 in Ht.
  split; cbn; [done|lia| |done]. intros x [= <-]. split; [done|lia].
Qed.

(** ** What holds of a peer *)

Definition least (rf : Raft) (i : Z) : Z := if decide (i = me rf) then 300 else 100.

Lemma period_least rf i d : period rf i d -> least rf i <= d <= 500.
Proof. unfold period, least. case_decide; lia. Qed.

(** A firing that has not led to an election yet: signalled, or about to be. *)
Definition pending (s : peer) : Z :=
  (if start s then 1 else 0) + (match worker s with WStart => 1 | _ => 0 end) +
  (match loops s (me (rf s)) with LFired | LSeen _ | LSignal => 1 | _ => 0 end).

Record timed (s : peer) : Prop := {
  ti_clock : forall i, clock_ok (now s) (least (rf s) i) (timers s i) (armed_at s i) (fires s i);
  ti_alive : forall i, loops s i <> LDone -> is_Some (armed (timers s i)) \/ tchan (timers s i) = true;
  ti_stood : 0 <= stood s /\ stood s + pending s <= fires s (me (rf s));
}.

Lemma begun_timed s : begun s -> timed s.
Proof.
  intros (n & i & p & rf0 & ds & _ & Hd & ->). split; cbn.
  - intros j. specialize (Hd j). split; cbn; [lia|lia| |done]. intros x [= <-]. split; [done|]. unfold least. case_decide; lia.
  - intros j _. left. by eexists.
  - unfold pending. cbn. case_decide; lia.
Qed.

Ltac upd i j := destruct (decide (i = j)) as [->|]; [rewrite !fn_lookup_insert|rewrite !fn_lookup_insert_ne by done].

Lemma clock_step s s' i :
  tstep s s' -> clock_ok (now s) (least (rf s) i) (timers s i) (armed_at s i) (fires s i) ->
  clock_ok (now s') (least (rf s') i) (timers s' i) (armed_at s' i) (fires s' i).
Proof.
  intros Hs Hc. assert (least (rf s') i = least (rf s) i) as -> by (unfold least; by rewrite (proj1 (tstep_me _ _ Hs))).
  destruct Hs as [|j ? ? Hx ?| |j|j d ? ? ? Hd|j d ? ? Ht Hd| | |j| | | | | | | | | | | | | | |]; try exact Hc; cbn.
  - by eapply clock_later.
  - upd j i; [by eapply clock_fire|done].
  - upd j i; [by apply clock_stop|done].
  - upd j i; [eapply clock_rearm; [done|by apply period_least]|done].
  - upd j i; [by eapply clock_take, period_least|done].
  - unfold signal. by case_decide.
Qed.

Lemma rearm_alive now d t : is_Some (armed (rearm now d t)).
Proof. unfold rearm. destruct (Stop t) as [t1 []]; by eexists. Qed.

Lemma alive_step s s' i :
  tstep s s' -> (loops s i <> LDone -> is_Some (armed (timers s i)) \/ tchan (timers s i) = true) ->
  loops s' i <> LDone -> is_Some (armed (timers s' i)) \/ tchan (timers s' i) = true.
Proof.
  intros Hs Hc. destruct Hs as [|j ? ? Hx ?|j ? Hl|j|j d ? ? ? Hd|j d ? ? Ht Hd|j ? Hl|j ? ? ? ? Hl|j ? Hl| | | | | | | | | | | | | | |];
    try exact Hc; cbn.
  - upd j i; [by right|done].
  - upd j i; [|done]. intros _. apply Hc. by rewrite Hl.
  - upd j i; [done|done].
  - upd j i; [|done]. intros _. left. apply rearm_alive.
  - upd j i; [|done]. intros _. left. apply rearm_alive.
  - upd j i; [|done]. intros _. apply Hc. by rewrite Hl.
  - upd j i; [|done]. intros _. apply Hc. by rewrite Hl.
  - assert (timers (signal j s) = timers s) as -> by (unfold signal; by case_decide).
    assert (loops (signal j s) = loops s) as -> by (unfold signal; by case_decide).
    upd j i; [|done]. intros _. apply Hc. by rewrite Hl.
Qed.

Lemma stood_step s s' :
  tstep s s' -> 0 <= stood s /\ stood s + pending s <= fires s (me (rf s)) ->
  0 <= stood s' /\ stood s' + pending s' <= fires s' (me (rf s')).
Proof.
  intros Hs Hc. pose proof (proj1 (tstep_me _ _ Hs)) as Hme. unfold pending in *. rewrite Hme.
  destruct Hs as [| |j ? Hl|j ? Hl|j d ? Hl ? ?|j d ? Hl ? ?|j ? Hl|j st ? ? ? Hl Hs|j ? Hl|? Hw|? Hw|? Hw|? Hw Hst|
      ? w ? Hw Hs|? ? ? ? Hw|? ? ? ? ? ? w ? Hw ? Hs|? ? ? ? Hw|? ? ? ? Hw|? Hw| | | |? ? Hs|]; cbn in *; try exact Hc.
  1-5: upd j (me (rf s)); [rewrite ?Hl in Hc; lia|exact Hc].
  - upd j (me (rf s)); [|exact Hc]. rewrite Hl in Hc. destruct pc; lia.
  - assert (loops (signal j s) = loops s /\ worker (signal j s) = worker s /\ stood (signal j s) = stood s /\
      fires (signal j s) = fires s) as (-> & -> & -> & ->) by (unfold signal; by case_decide).
    unfold signal. upd j (me (rf s)).
    + rewrite Hl in Hc. cbn. destruct (start s); lia.
    + exact Hc.
  - rewrite Hw in Hc. destruct (killed (rf s)); lia.
  - rewrite Hw in Hc. lia.
  - rewrite Hw in Hc. lia.
  - rewrite Hw, Hst in Hc. lia.
  - rewrite Hw in Hc. apply worker_start_by in Hs as (_ & _ & [[_ ->]|[left ->]]); lia.
  - rewrite Hw in Hc. match goal with |- context [worker_votes ?T ?v ?l ?rf] =>
      pose proof (worker_votes_by T v l rf); destruct (worker_votes T v l rf); done end.
  - rewrite Hw in Hc. apply worker_reply_by in Hs as (_ & _ & Hne). destruct w; try lia. done.
  - rewrite Hw in Hc. lia.
  - rewrite Hw in Hc. lia.
  - rewrite Hw in Hc. lia.
Qed.

Lemma treach_timed s : treach s -> timed s.
Proof.
  revert s. apply reachable_invariant; [apply begun_timed|]. intros s1 s2 [H1 H2 H3] Hs. split.
  - intros i. by apply (clock_step s1).
  - intros i. apply (alive_step s1); [done|apply H2].
  - by apply (stood_step s1).
Qed.

(** ** A timer that is waited for fires *)

(** Goroutine [i] leaves its [select] because the timer fired; nothing else changes. *)
Lemma loop_fires s i d :
  timed s -> loops s i = LSelect -> period (rf s) i d ->
  exists s', rtc tstep s s' /\ rf s' = rf s /\ loops s' i = LFired /\ worker s' = worker s /\ start s' = start s /\
    stood s' = stood s /\ now s <= now s' <= Z.max (now s) (armed_at s i + 500).
Proof.
  intros Ht Hl Hd.
  assert (exists s1, rtc tstep s s1 /\ tchan (timers s1 i) = true /\ rf s1 = rf s /\ loops s1 = loops s /\
    worker s1 = worker s /\ start s1 = start s /\ stood s1 = stood s /\
    now s <= now s1 <= Z.max (now s) (armed_at s i + 500))
    as (s1 & Hr & Hc & Hrf & Hl1 & Hw & Hst & Hsd & Hn).
  { destruct (ti_alive s Ht i) as [[x Hx]|Hc]; [by rewrite Hl| |].
    - pose proof (ck_armed _ _ _ _ _ (ti_clock s Ht i) x Hx) as [_ Hb].
      exists (with_timer i (fire (timers s i)) (with_now (Z.max (now s) x) s)). split_and!; cbn; try done; try lia.
      + eapply rtc_l; [apply (t_time (Z.max (now s) x)); lia|]. apply rtc_once.
        apply (t_fire i x (with_now _ s)); [exact Hx|cbn; lia].
      + by rewrite fn_lookup_insert.
    - exists s. split_and!; try done; lia. }
  eexists. split; [eapply rtc_r; [exact Hr|]|].
  { apply (t_take i d); [by rewrite Hl1|exact Hc|by rewrite Hrf]. }
  cbn. rewrite fn_lookup_insert. split_and!; (done || lia).
Qed.

(** From there a goroutine whose peer was killed returns. *)
Lemma loop_ends s i :
  killed (rf s) = true -> loops s i <> LSelect -> loops s i <> LDone ->
  exists s', rtc tstep s s' /\ loops s' i = LDone /\ now s' = now s.
Proof.
  assert (forall s, killed (rf s) = true -> loops s i = LHead ->
    exists s', rtc tstep s s' /\ loops s' i = LDone /\ now s' = now s) as Hhead.
  { intros s1 Hk Hl. eexists. split; [by apply rtc_once, (t_done i)|]. cbn. by rewrite fn_lookup_insert. }
  assert (forall s, killed (rf s) = true -> loops s i = LSignal ->
    exists s', rtc tstep s s' /\ loops s' i = LDone /\ now s' = now s) as Hsignal.
  { intros s1 Hk Hl. destruct (Hhead (with_loop i LHead (signal i s1))) as (s' & Hr & Hd & Hn).
    { unfold signal. by case_decide. } { cbn. by rewrite fn_lookup_insert. }
    exists s'. split_and!; [by eapply rtc_l; [apply t_signal|]|done|]. rewrite Hn. unfold signal. by case_decide. }
  assert (forall s st, killed (rf s) = true -> loops s i = LSeen st ->
    exists s', rtc tstep s s' /\ loops s' i = LDone /\ now s' = now s) as Hseen.
  { intros s1 st Hk Hl. destruct (seen_step i st (rf s1)) as [rf' pc] eqn:E.
    pose proof (t_seen i st rf' pc s1 Hl E) as Hs. pose proof E as (_ & _ & Hd & _)%seen_step_by.
    assert (pc = LHead \/ pc = LSignal) as Hpc.
    { revert E. unfold seen_step, ticker_seen, heartbeat_seen. intros. repeat case_match; simplify_eq; auto. }
    destruct Hpc as [-> | ->];
      [destruct (Hhead (with_loop i LHead (with_rf rf' s1))) as (s' & Hr & ? & ?)|
       destruct (Hsignal (with_loop i LSignal (with_rf rf' s1))) as (s' & Hr & ? & ?)];
      try (cbn; by rewrite fn_lookup_insert); try (unfold killed in *; cbn; congruence).
    all: exists s'; split_and!; [by eapply rtc_l|done|done]. }
  intros Hk Hs Hd. destruct (loops s i) eqn:Hl; try done; eauto.
  destruct (Hseen (with_loop i (LSeen (state (rf s))) s) (state (rf s))) as (s' & Hr & ? & ?);
    [done|cbn; by rewrite fn_lookup_insert|].
  exists s'. split_and!; [by eapply rtc_l; [apply t_look|]|done|done].
Qed.

(** After Kill each goroutine with a timer returns within 500 ms, if it runs. *)
Lemma Kill_ends_loops s i :
  treach s -> killed (rf s) = true -> loops s i <> LDone ->
  exists s', rtc tstep s s' /\ loops s' i = LDone /\ now s' <= Z.max (now s) (armed_at s i + 500).
Proof.
  intros Ht%treach_timed Hk Hd. destruct (decide (loops s i = LSelect)) as [Hl|Hl].
  - destruct (loop_fires s i (if decide (i = me (rf s)) then 300 else 100) Ht Hl) as (s1 & Hr & Hrf & Hl1 & _ & _ & _ & Hn).
    { unfold period. case_decide; lia. }
    destruct (loop_ends s1 i) as (s' & Hr' & ? & Hn'); [by rewrite Hrf|by rewrite Hl1|by rewrite Hl1|].
    exists s'. split_and!; [by etransitivity|done|lia].
  - destruct (loop_ends s i Hk Hl Hd) as (s' & ? & ? & ?). exists s'. split_and!; [done|done|lia].
Qed.

(** *** A peer that has lost its election worker *)

Lemma worker_gone_step s s' :
  tstep s s' -> worker s = WDone ->
  worker s' = WDone /\ stood s' = stood s /\ (state (rf s') = Candidate -> state (rf s) = Candidate).
Proof.
  intros Hs Hw. destruct Hs as [| | | | | | |? ? ? ? ? ? Hs| | | | | | | | | | | | | | |? ? Hs|? ? ? ? Hs]; try congruence; cbn;
    split_and!; try done.
  - revert Hs. unfold seen_step, ticker_seen, heartbeat_seen. intros. repeat case_match; simplify_eq; by fields.
  - unfold signal. by case_decide.
  - unfold signal. by case_decide.
  - unfold signal. by case_decide.
  - by apply handler_by in Hs as [].
  - by apply RequestVote_by in Hs as [].
Qed.

Lemma worker_gone s s' :
  rtc tstep s s' -> worker s = WDone -> state (rf s) <> Candidate ->
  worker s' = WDone /\ stood s' = stood s /\ state (rf s') <> Candidate.
Proof.
  induction 1 as [|s s1 s' Hs _ IH]; intros Hw Hc; [done|].
  destruct (worker_gone_step s s1 Hs Hw) as (Hw1 & <- & Hc1). apply IH; [done|]. intros H. by apply Hc, Hc1.
Qed.

(** The election worker waits for replies that nobody will send: every GetVote goroutine has returned. *)
Record blocked (s : peer) : Prop := {
  bl_worker : worker s = WDone \/ exists T v rest, worker s = WWait T v rest;
  bl_votes : votes s = MkVoting 0 0 [];
  bl_abort : ElectionAbort (rf s) = false;
  bl_state : state (rf s) <> Candidate;
  bl_seen : loops s (me (rf s)) <> LSeen Candidate;
}.

Lemma seen_step_quiet i st rf rf' pc :
  seen_step i st rf = (rf', pc) -> (i = me rf -> st <> Candidate) ->
  ElectionAbort rf' = ElectionAbort rf /\ state rf' = state rf /\ forall x, pc <> LSeen x.
Proof.
  unfold seen_step, ticker_seen, heartbeat_seen. intros H Hst.
  destruct (decide (i = me rf)) as [He|_]; [specialize (Hst He)|]; repeat case_decide; simplify_eq; by fields.
Qed.

Lemma loops_signal i s j : loops (signal i s) j = loops s j.
Proof. unfold signal. by case_decide. Qed.
Lemma rf_signal i s :
  ElectionAbort (rf (signal i s)) = ElectionAbort (rf s) /\ state (rf (signal i s)) = state (rf s) /\
  me (rf (signal i s)) = me (rf s) /\ worker (signal i s) = worker s /\ votes (signal i s) = votes s /\
  stood (signal i s) = stood s.
Proof. unfold signal. by case_decide. Qed.

Lemma bystander_blocked rf' s : bystander (rf s) rf' -> blocked s -> blocked (with_rf rf' s).
Proof.
  intros [[Hm _] Ha _ Hc] [H1 H2 H3 H4 H5]. split; cbn; [done|done|by rewrite Ha| |by rewrite Hm]. intros H. by apply H4, Hc.
Qed.

Lemma blocked_step s s' : tstep s s' -> blocked s -> blocked s' /\ stood s' = stood s.
Proof.
  intros Hs Hb. pose proof Hb as [Hw Hv Ha Hst Hl].
  destruct Hs as [| |i|i|i|i|i|i st rf' pc s Hi Hs|i| | | | | | | | | | | | | |rf' s Hh|args rf' reply s Hh];
    try (destruct Hw as [Hw|(? & ? & ? & Hw)]; congruence).
  1-6: split; [split; cbn; try done; upd i (me (rf s)); done|done].
  - split; [split; cbn; try done|done]. upd i (me (rf s)); [|done]. congruence.
  - pose proof Hs as (Hm & _)%seen_step_by.
    destruct (seen_step_quiet i st (rf s) rf' pc Hs) as (Ha' & Hst' & Hpc); [intros ->; congruence|].
    split; [split; cbn; rewrite ?Hm, ?Ha', ?Hst'; try done|done]. upd i (me (rf s)); done.
  - pose proof (rf_signal i s) as (Ha' & Hst' & Hm' & Hw' & Hv' & Hsd).
    split; [|done]. split; cbn; rewrite ?Hm', ?Ha', ?Hst', ?Hw', ?Hv'; try done.
    upd i (me (rf s)); [done|by rewrite loops_signal].
  - rewrite Hv in *. done.
  - split; [split; cbn; auto|done].
  - rewrite Hv in *. done.
  - rewrite Hv in *. done.
  - rewrite Hv in *. done.
  - split; [by apply bystander_blocked; [apply handler_by|]|done].
  - split; [by apply bystander_blocked; [by eapply RequestVote_by|]|done].
Qed.

Lemma blocked_forever s s' :
  rtc tstep s s' -> blocked s -> blocked s' /\ stood s' = stood s.
Proof.
  induction 1 as [|s s1 s' Hs _ IH]; [done|]. intros [Hb <-]%(blocked_step s s1 Hs). by apply IH.
Qed.

(** *** Runs *)

(** The steps of a run, but for those of the rest of the peer. *)
Inductive event :=
| EvTime (t : Z) | EvFire (i : Z) | EvHead (i : Z) | EvTake (i d : Z) | EvLook (i : Z) | EvSeen (i : Z) | EvSignal (i : Z)
| EvWorker | EvAbort | EvAsk | EvResult (ok : bool) (reply : RequestVoteReply) | EvReply.

Definition exec (e : event) (s : peer) : option peer :=
  match e with
  | EvTime t => if decide (now s <= t) then Some (with_now t s) else None
  | EvFire i => x ← armed (timers s i); if decide (x <= now s) then Some (with_timer i (fire (timers s i)) s) else None
  | EvHead i => if decide (loops s i = LHead /\ killed (rf s) = false) then Some (with_loop i LSelect s) else None
  | EvTake i d =>
      if decide (loops s i = LSelect /\ tchan (timers s i) = true /\ period (rf s) i d) then
        Some (with_loop i LFired (count_fire i (with_rearmed i d (with_timer i (drain (timers s i)) s))))
      else None
  | EvLook i => if decide (loops s i = LFired) then Some (with_loop i (LSeen (state (rf s))) s) else None
  | EvSeen i =>
      match loops s i with
      | LSeen st => let '(rf', pc) := seen_step i st (rf s) in Some (with_loop i pc (with_rf rf' s))
      | _ => None
      end
  | EvSignal i => if decide (loops s i = LSignal) then Some (with_loop i LHead (signal i s)) else None
  | EvWorker =>
      match worker s with
      | WHead => Some (with_worker (if killed (rf s) then WDone else WSelect) s)
      | WSelect => if start s then Some (with_worker WStart (with_start false s)) else None
      | WStart => let '(rf', w) := worker_start (rf s) in Some (with_worker w (count_stood w (with_votes (launch_votes w (votes s)) (with_rf rf' s))))
      | WVotes T v rest => Some (with_worker (worker_votes T v rest (rf s)) s)
      | WFollow => Some (with_worker WHead (with_rf (stay_follower (rf s)) s))
      | _ => None
      end
  | EvAbort =>
      if decide (worker s = WSelect /\ ElectionAbort (rf s) = true) then
        Some (with_worker WDone (with_rf ((rf s) <| ElectionAbort := false |>) s))
      else None
  | EvAsk =>
      match asks (votes s), GetVote_args (rf s) with
      | S k, Ret None => Some (with_votes (MkVoting k (called (votes s)) (replies (votes s))) s)
      | S k, Ret (Some _) => Some (with_votes (MkVoting k (S (called (votes s))) (replies (votes s))) s)
      | _, _ => None
      end
  | EvResult ok reply =>
      match called (votes s), GetVote_result ok reply false with
      | S k, Some result => Some (with_votes (MkVoting (asks (votes s)) k (replies (votes s) ++ [result])) s)
      | _, _ => None
      end
  | EvReply =>
      match worker s, replies (votes s) with
      | WWait T v rest, reply :: more =>
          match worker_reply T v rest reply (rf s) with
          | Ret (rf', w) =>
              Some (with_worker w (with_votes (MkVoting (asks (votes s)) (called (votes s)) more) (with_rf rf' s)))
          | Panic _ => None
          end
      | _, _ => None
      end
  end.

Fixpoint execs (es : list event) (s : peer) : option peer :=
  match es with
  | [] => Some s
  | e :: es => s ← exec e s; execs es s
  end.

Lemma timer_event_step e s s' : exec e s = Some s' -> tstep s s'.
Proof.
  destruct e; cbn [exec]; intros H.
  - case_decide; [|done]. injection H as <-. by apply t_time.
  - apply bind_Some in H as (x & Hx & H). case_decide; [|done]. injection H as <-. by eapply t_fire.
  - case_decide as Hd; [|done]. injection H as <-. destruct Hd. by apply t_head.
  - case_decide as Hd; [|done]. injection H as <-. destruct Hd as (? & ? & ?). by apply t_take.
  - case_decide; [|done]. injection H as <-. by apply t_look.
  - destruct (loops s i) eqn:Hl; try done. destruct (seen_step i st (rf s)) eqn:E. injection H as <-. by eapply t_seen.
  - case_decide; [|done]. injection H as <-. by apply t_signal.
  - destruct (worker s) eqn:Hw; try done.
    + injection H as <-. by apply t_whead.
    + destruct (start s) eqn:Hst; [|done]. injection H as <-. by apply t_wsignal.
    + destruct (worker_start (rf s)) eqn:E. injection H as <-. by apply t_wstart.
    + injection H as <-. by apply t_wvotes.
    + injection H as <-. by apply t_wfollow.
  - case_decide as Hd; [|done]. injection H as <-. destruct Hd. by apply t_wabort.
  - destruct (asks (votes s)) eqn:Ha; [done|]. destruct (GetVote_args (rf s)) as [[args|]|] eqn:E; try done; injection H as <-.
    + by eapply t_call.
    + by apply t_no_call.
  - destruct (called (votes s)) eqn:Ha; [done|]. destruct (GetVote_result ok reply false) eqn:E; [|done]. injection H as <-.
    by eapply t_result.
  - destruct (worker s) eqn:Hw; try done. destruct (replies (votes s)) eqn:Hr; [done|].
    destruct (worker_reply _ _ _ _ _) as [[rf' w]|] eqn:E; [|done]. injection H as <-. by eapply t_wreply.
Qed.

Lemma execs_run es s s' : execs es s = Some s' -> rtc tstep s s'.
Proof.
  revert s. induction es as [|e es IH]; intros s H; cbn in H; [by injection H as <-|].
  apply bind_Some in H as (s1 & H1 & H). eapply rtc_l; [by eapply timer_event_step|by apply IH].
Qed.

(** The signal is sent and the election worker takes it. *)
Lemma signal_stands s :
  loops s (me (rf s)) = LSignal -> worker s = WSelect -> state (rf s) <> Leader ->
  exists s', rtc tstep s s' /\ state (rf s') = Candidate /\ CurrentTerm (rf s') = CurrentTerm (rf s) + 1 /\
    VotedFor (rf s') = me (rf s) /\ stood s' = stood s + 1 /\ now s' = now s.
Proof.
  intros Hl Hw Hst. destruct (start_election (rf s)) as [rf'|] eqn:E; [|by unfold start_election in E; case_decide].
  pose proof E as (_ & _ & HT & HV & HC & _)%start_election_spec.
  set (s1 := with_loop (me (rf s)) LHead (signal (me (rf s)) s)).
  assert (s1 = with_loop (me (rf s)) LHead (with_start true s)) as E1 by (unfold s1, signal; by rewrite decide_True).
  set (s2 := with_worker WStart (with_start false s1)).
  eexists. split.
  - eapply rtc_l; [by apply t_signal|]. fold s1. eapply rtc_l; [apply t_wsignal; by rewrite E1|]. fold s2.
    apply rtc_once. apply t_wstart; [done|]. unfold worker_start. assert (rf s2 = rf s) as -> by (unfold s2; by rewrite E1).
    by rewrite E.
  - cbn. rewrite HT, HV, HC. unfold signal. by rewrite decide_True.
Qed.

Lemma fired_signals s :
  loops s (me (rf s)) = LFired -> state (rf s) = Follower ->
  exists s', rtc tstep s s' /\ loops s' (me (rf s)) = LSignal /\ rf s' = rf s /\ worker s' = worker s /\
    stood s' = stood s /\ now s' = now s.
Proof.
  intros Hl Hst. eexists. split.
  - eapply rtc_l; [by apply t_look|]. apply rtc_once. eapply t_seen; [cbn; by rewrite fn_lookup_insert|].
    cbn. unfold seen_step. rewrite decide_True by done. rewrite Hst. unfold ticker_seen.
    rewrite decide_True by done. rewrite decide_False by done. reflexivity.
  - cbn. by rewrite fn_lookup_insert.
Qed.

(** Peer 0 of three hears nothing for 300 ms and stands. *)
Definition peer0 : peer := tinit (fun _ => 300) (fresh 3 0 MakePersister).
Definition stands : list event :=
  [EvHead 0; EvTime 300; EvFire 0; EvTake 0 300; EvLook 0; EvSeen 0; EvSignal 0; EvWorker; EvWorker; EvWorker].
Definition refused : RequestVoteReply := MkRequestVoteReply 1 false.
(** The timer fires again while two replies are there to be taken; both are, before the abort is
    sent. *)
Definition aborts_late : list event :=
  [EvWorker; EvAsk; EvAsk; EvResult true refused; EvResult false refused; EvHead 0; EvTime 600; EvFire 0; EvTake 0 300;
   EvLook 0; EvReply; EvWorker; EvReply; EvWorker; EvWorker; EvWorker; EvSeen 0; EvAbort].

Lemma peer0_begun : begun peer0.
Proof. exists 3, 0, MakePersister, (fresh 3 0 MakePersister), (fun _ => 300). split; [reflexivity|]. by split; [lia|]. Qed.

Definition standing : peer := default peer0 (execs stands peer0).

Lemma standing_reached : treach standing.
Proof. eapply reachable_rtc; [apply reach_init, peer0_begun|]. apply (execs_run stands). vm_compute. reflexivity. Qed.

(** ** Theorems *)

(** C20 (elections are spaced).  However its goroutines are scheduled and whatever else happens: in [t]
    milliseconds a peer stands at most [t / 300] times, and sends at most [t / 100] heartbeats to a
    peer because the timer fired; a firing that the ticker has not dealt with comes 300 ms or
    more after the last time it handled a reset. *)
Theorem elections_spaced s :
  treach s ->
  0 <= stood s /\ 300 * stood s <= now s /\
  (forall i, i <> me (rf s) -> 100 * fires s i <= now s) /\
  (tchan (timers s (me (rf s))) = true -> armed_at s (me (rf s)) + 300 <= now s).
Proof.
  intros [Hc _ [H0 Hs]]%treach_timed. pose proof (Hc (me (rf s))) as [Ha [_ Hf] _ Ht].
  unfold least in *. rewrite decide_True in * by done.
  assert (0 <= pending s) by (unfold pending; repeat case_match; lia).
  split_and!; [done|lia| |done]. intros i Hi. destruct (Hc i) as [Hai [_ Hfi] _ _]. rewrite decide_False in Hfi by done. lia.
Qed.

Lemma elections_spaced_witness :
  (stood standing = 1 /\ now standing = 300) /\
  0 <= stood standing /\ 300 * stood standing <= now standing /\
  (forall i, i <> me (rf standing) -> 100 * fires standing i <= now standing) /\
  (tchan (timers standing (me (rf standing))) = true -> armed_at standing (me (rf standing)) + 300 <= now standing).
Proof. split; [by vm_compute|]. apply (elections_spaced standing), standing_reached. Defined.

(** C19 (a follower that hears nothing stands).  A follower whose ticker and election worker wait for
    signals can start an election at the latest 500 ms after its timer was set, or at
    once if that is past. *)
Theorem follower_stands s :
  treach s -> killed (rf s) = false -> state (rf s) = Follower -> loops s (me (rf s)) = LSelect ->
  worker s = WSelect ->
  exists s', rtc tstep s s' /\ state (rf s') = Candidate /\ CurrentTerm (rf s') = CurrentTerm (rf s) + 1 /\
    VotedFor (rf s') = me (rf s) /\ stood s' = stood s + 1 /\
    now s <= now s' <= Z.max (now s) (armed_at s (me (rf s)) + 500).
Proof.
  intros Hr Hk Hst Hl Hw.
  destruct (loop_fires s (me (rf s)) 300 (treach_timed s Hr) Hl) as (s1 & Hr1 & Hrf1 & Hl1 & Hw1 & _ & Hs1 & Hn1);
    [unfold period; case_decide; done|].
  destruct (fired_signals s1) as (s2 & Hr2 & Hl2 & Hrf2 & Hw2 & Hs2 & Hn2); [by rewrite Hrf1|by rewrite Hrf1|].
  destruct (signal_stands s2) as (s3 & Hr3 & HC & HT & HV & Hs3 & Hn3);
    [by rewrite Hrf2|by rewrite Hw2, Hw1|rewrite Hrf2, Hrf1, Hst; done|].
  exists s3. rewrite HT, HV, Hs3, Hs2, Hs1, Hrf2, Hrf1, Hn3, Hn2. split_and!; (done || lia || idtac).
  by do 2 (etransitivity; [done|]).
Qed.

Definition waiting : peer := with_loop 0 LSelect (with_worker WSelect peer0).

Lemma waiting_reached : treach waiting.
Proof. eapply reachable_rtc; [apply reach_init, peer0_begun|]. apply (execs_run [EvWorker; EvHead 0]). reflexivity. Qed.

Lemma follower_stands_witness :
  (CurrentTerm (rf waiting) = 0 /\ now waiting = 0 /\ armed_at waiting 0 = 0) /\
  exists s', rtc tstep waiting s' /\ state (rf s') = Candidate /\ CurrentTerm (rf s') = CurrentTerm (rf waiting) + 1 /\
    VotedFor (rf s') = me (rf waiting) /\ stood s' = stood waiting + 1 /\
    now waiting <= now s' <= Z.max (now waiting) (armed_at waiting (me (rf waiting)) + 500).
Proof. split; [by vm_compute|]. by apply (follower_stands waiting waiting_reached). Defined.

(** The heartbeat of a leader: within the period its sender is notified. *)
Lemma heartbeat_due s i :
  treach s -> state (rf s) = Leader -> i <> me (rf s) -> loops s i = LSelect ->
  exists s', rtc tstep s s' /\ i ∈ notify (rf s') /\ notifyApply (rf s') = true /\
    now s <= now s' <= Z.max (now s) (armed_at s i + 500).
Proof.
  intros Hr Hst Hi Hl.
  destruct (loop_fires s i 100 (treach_timed s Hr) Hl) as (s1 & Hr1 & Hrf1 & Hl1 & _ & _ & _ & Hn1);
    [unfold period; by rewrite decide_False|].
  eexists. split.
  - etransitivity; [exact Hr1|]. eapply rtc_l; [by apply t_look|].
    eapply rtc_l; [eapply t_seen; [cbn; by rewrite fn_lookup_insert|]|].
    { cbn. rewrite Hrf1, Hst. unfold seen_step. rewrite decide_False by done. unfold heartbeat_seen. by rewrite decide_True. }
    apply rtc_once, (t_signal i). cbn. by rewrite fn_lookup_insert.
  - unfold signal. cbn. rewrite decide_False by (by fields). cbn. unfold try_notify. fields. split_and!; (set_solver || done || lia).
Qed.

(** A firing of the ticker's timer while an election is about to end: the abort it sends is found
    by the worker at its next wait, which takes it for its own and returns.  The peer is not killed, but
    never stands again. *)
Lemma stale_abort_ends_elections :
  exists s, treach s /\ killed (rf s) = false /\ state (rf s) = Follower /\ npeers (rf s) = 3 /\ worker s = WDone /\
    forall s', rtc tstep s s' -> worker s' = WDone /\ stood s' = stood s /\ state (rf s') <> Candidate.
Proof.
  destruct (execs (stands ++ aborts_late) peer0) as [s|] eqn:E; [|vm_compute in E; discriminate E].
  assert (treach s) as Hr by (eapply reachable_rtc; [apply reach_init, peer0_begun|by eapply execs_run]).
  assert (killed (rf s) = false /\ state (rf s) = Follower /\ npeers (rf s) = 3 /\ worker s = WDone) as (? & Hst & ? & ?)
    by (vm_compute in E; injection E as <-; clear Hr; split_and!; vm_compute; reflexivity).
  clear E. exists s. split_and!; try assumption. intros s' Hs. eapply worker_gone; [exact Hs|assumption|by rewrite Hst].
Qed.

(** Another candidate of the term has won, and its first message comes before the GetVote goroutines have read
    the state: they return without a reply.  The election worker waits for ever, and the ticker, which finds a
    follower, sends it no abort: the peer, not killed, never stands again. *)
Definition heartbeat_1 : AppendEntriesArgs := MkAppendEntriesArgs 1 1 0 0 [] 0.

Lemma silent_votes_end_elections :
  exists s, treach s /\ killed (rf s) = false /\ state (rf s) = Follower /\ npeers (rf s) = 3 /\
    worker s = WWait 1 1 2 /\ stood s = 1 /\
    forall s', rtc tstep s s' -> stood s' = 1 /\ state (rf s') <> Candidate.
Proof.
  destruct (execs (stands ++ [EvWorker]) peer0) as [s1|] eqn:E1; [|vm_compute in E1; discriminate E1].
  destruct (AE_check heartbeat_1 (rf s1)) as [[[rf2 reply] go]|] eqn:E2; [|vm_compute in E1; injection E1 as <-; vm_compute in E2; discriminate E2].
  destruct (execs [EvAsk; EvAsk] (with_rf rf2 s1)) as [s|] eqn:E3.
  2:{ vm_compute in E1. injection E1 as <-. vm_compute in E2. injection E2 as <- _ _. vm_compute in E3. discriminate E3. }
  assert (treach s) as Hr.
  { eapply reachable_rtc; [apply reach_init, peer0_begun|]. etransitivity; [by eapply execs_run|].
    eapply rtc_l; [apply t_handler; by eapply ps_AE_check|]. by eapply execs_run. }
  assert (killed (rf s) = false /\ state (rf s) = Follower /\ npeers (rf s) = 3 /\ worker s = WWait 1 1 2 /\ stood s = 1 /\
    votes s = MkVoting 0 0 [] /\ ElectionAbort (rf s) = false /\ loops s (me (rf s)) = LHead)
    as (H1 & H2 & H3 & H4 & H5 & H6 & H7 & H8).
  { clear Hr. vm_compute in E1. injection E1 as <-. vm_compute in E2. injection E2 as <- _ _.
    vm_compute in E3. injection E3 as <-. split_and!; vm_compute; reflexivity. }
  clear E1 E2 E3. exists s. split_and!; try assumption. intros s' Hs.
  destruct (blocked_forever s s' Hs) as [Hb Hsd].
  - split; [right; by eexists _, _, _|exact H6|exact H7|by rewrite H2|by rewrite H8].
  - split; [by rewrite Hsd|apply Hb].
Qed.

End RaftTimer.
