(* ===== verification/RaftSystem.v ===== *)
(** * RaftSystem: elections and replication together (src/src/raft1/raft.go)

    The elections of RaftElection together with the attempts of the senders: a leader builds
    an AppendEntries message for a peer, the peer may handle it, the leader may handle the
    reply or stop waiting for it.  The relation has a scope, which says whether messages and replies may be
    handled later than that, whether a handler may be interrupted in the gap of its lock, and whether
    snapshots are taken; election safety holds in every scope ([sstep_inv]).  Then the histories such a
    system has in the scope [prompt], their invariant, and what follows from it: leader completeness,
    and that what two peers have committed agrees. *)
From stdpp Require Import functions.
From S2P Require Import Prelude Persister Raft RaftLeader RaftElection.
Import Raft Replication Election Cluster.
Local Open Scope Z_scope.
Local Open Scope go_scope.

Module RaftSystem.

(** What a peer does on its own. *)
Inductive local_step : Raft -> Raft -> Prop :=
| ls_Start command rf : local_step rf (Start command rf).1
| ls_Kill rf : local_step rf (Kill rf)
| ls_apply pc rf rf' msg pc' : apply_step pc rf = Ret (rf', msg, pc') -> local_step rf rf'
| ls_sender_head server t c rf : local_step rf (sender_head server t c rf).1
| ls_sender_wait server isRetry rf rf' :
    sender_wait server isRetry rf = Some rf' -> local_step rf rf'
| ls_timeout server c term rf : local_step rf (on_timeout server c term rf).1
| ls_boardcast rf rf' : boardcastLogEntries rf = Ret rf' -> local_step rf rf'
| ls_take_rst i rf : local_step rf (take_rst i rf)
| ls_heartbeat i rf : local_step rf (heartbeat i rf)
| ls_ticker rf : local_step rf (ticker_fire rf).1.

(** An attempt of a sender: the context it has, its message, and how far the peer is with the
    message: it has not handled it; its handler is in the gap of the lock, with the reply it will
    give; it has replied. *)
Inductive progress :=
| Sent
| Halfway (reply : AppendEntriesReply)
| Handled (reply : AppendEntriesReply).
Record attempt := MkAttempt {
  at_ctx : nat;
  at_args : AppendEntriesArgs;
  at_progress : progress;
}.

(** A call of InstallSnapshot under way: its sender, receiver, term and context, and the message or
    the reply. *)
Record snap_call := MkSnapCall {
  sc_from : Z; sc_to : Z; sc_term : Z; sc_ctx : nat;
  sc_msg : InstallSnapshotArgs + InstallSnapshotReply;
}.

(** The cluster, the attempts under way, by leader, receiver and term, and the messages ever
    sent, with their receivers.  [loose]: the handlers in the gap that no sender waits for;
    [snaps]: the calls of InstallSnapshot. *)
Record system := MkSystem {
  peers : cluster;
  attempts : gmap (Z * Z * Z) attempt;
  messages : list (Z * AppendEntriesArgs);
  loose : list (Z * AppendEntriesArgs);
  snaps : list snap_call;
}.

Definition with_node (i : Z) (rf : Raft) (c : cluster) : cluster :=
  MkCluster (<[i := rf]> (nodes c)) (worker c) (flights c) (elections c) (sent c) (votes c) (won c).

(** AppendEntries with nothing in the gap of its lock. *)
Definition handle_AE (args : AppendEntriesArgs) (rf : Raft) : res (Raft * AppendEntriesReply) :=
  AppendEntries (fun rf => rf) args rf.

(** A handler in the gap goes on when its sender has stopped waiting. *)
Definition let_loose (j : Z) (a : attempt) (hs : list (Z * AppendEntriesArgs)) : list (Z * AppendEntriesArgs) :=
  match at_progress a with Halfway _ => (j, at_args a) :: hs | _ => hs end.

(** What may happen: a message of AppendEntries that is handled, or a reply that is taken, after its
    sender has stopped waiting for it; something else at a peer whose handler of AppendEntries is in the gap of
    its lock (lines 381-383); snapshots.  All of it happens to the program; [prompt] is without, [anything] with
    all of it. *)
Record scope := MkScope { late : bool; interrupted : bool; snapshots : bool }.
Definition prompt : scope := MkScope false false false.
Definition anything : scope := MkScope true true true.

Inductive sstep (sc : scope) (n : Z) : system -> system -> Prop :=
| ss_local c c' ats ms hs sn :
    gstep local_step n c c' -> sstep sc n (MkSystem c ats ms hs sn) (MkSystem c' ats ms hs sn)
(* the sender of [i] for [j] sends *)
| ss_send c ats ms hs sn i j t ctx isRetry ri term args :
    0 <= i < n -> 0 <= j < n -> i <> j -> ats !! (i, j, t) = None ->
    prepare j t ctx isRetry (nodes c i) = Ret (ri, SendAE term args) ->
    sstep sc n (MkSystem c ats ms hs sn) (MkSystem (with_node i ri c)
      (<[(i, j, t) := MkAttempt ctx args Sent]> ats) ((j, args) :: ms) hs sn)
(* the message arrives *)
| ss_deliver c ats ms hs sn i j t ctx args rj reply :
    0 <= j < n -> ats !! (i, j, t) = Some (MkAttempt ctx args Sent) ->
    handle_AE args (nodes c j) = Ret (rj, reply) ->
    sstep sc n (MkSystem c ats ms hs sn) (MkSystem (with_node j rj c)
      (<[(i, j, t) := MkAttempt ctx args (Handled reply)]> ats) ms hs sn)
(* the reply arrives; a leader whose term is over does not wait for it any more *)
| ss_reply c ats ms hs sn i j t ctx args reply ri next :
    0 <= i < n -> ats !! (i, j, t) = Some (MkAttempt ctx args (Handled reply)) ->
    late sc = true \/ CurrentTerm (nodes c i) = t ->
    on_AE_reply j ctx t args reply (nodes c i) = Ret (ri, next) ->
    sstep sc n (MkSystem c ats ms hs sn)
      (MkSystem (with_node i ri c) (delete (i, j, t) ats) ms hs sn)
(* no reply in time *)
| ss_timeout c ats ms hs sn i j t at_ :
    0 <= i < n -> ats !! (i, j, t) = Some at_ ->
    sstep sc n (MkSystem c ats ms hs sn)
      (MkSystem (with_node i (on_timeout j (at_ctx at_) t (nodes c i)).1 c) (delete (i, j, t) ats) ms
        (let_loose j at_ hs) sn)
(* the sender gives up: its context is done or the peer is killed *)
| ss_shutdown c ats ms hs sn i j t at_ :
    ats !! (i, j, t) = Some at_ ->
    sstep sc n (MkSystem c ats ms hs sn) (MkSystem c (delete (i, j, t) ats) ms (let_loose j at_ hs) sn)
(* a message arrives late, perhaps again *)
| ss_late c ats ms hs sn j args rj reply :
    late sc = true -> 0 <= j < n -> (j, args) ∈ ms -> handle_AE args (nodes c j) = Ret (rj, reply) ->
    sstep sc n (MkSystem c ats ms hs sn) (MkSystem (with_node j rj c) ats ms hs sn)
(* a handler releases the lock, and takes it again *)
| ss_check c ats ms hs sn i j t ctx args rj reply :
    interrupted sc = true -> 0 <= j < n -> ats !! (i, j, t) = Some (MkAttempt ctx args Sent) ->
    AE_check args (nodes c j) = Ret (rj, reply, true) -> zlen (Entries args) > 0 ->
    sstep sc n (MkSystem c ats ms hs sn) (MkSystem (with_node j rj c)
      (<[(i, j, t) := MkAttempt ctx args (Halfway reply)]> ats) ms hs sn)
| ss_store c ats ms hs sn i j t ctx args reply rj :
    interrupted sc = true -> 0 <= j < n -> ats !! (i, j, t) = Some (MkAttempt ctx args (Halfway reply)) ->
    AE_store args (nodes c j) = Ret rj ->
    sstep sc n (MkSystem c ats ms hs sn) (MkSystem (with_node j rj c)
      (<[(i, j, t) := MkAttempt ctx args (Handled reply)]> ats) ms hs sn)
| ss_late_check c ats ms hs sn j args rj reply :
    late sc = true -> interrupted sc = true -> 0 <= j < n -> (j, args) ∈ ms ->
    AE_check args (nodes c j) = Ret (rj, reply, true) -> zlen (Entries args) > 0 ->
    sstep sc n (MkSystem c ats ms hs sn) (MkSystem (with_node j rj c) ats ms ((j, args) :: hs) sn)
| ss_loose_store c ats ms hs hs' sn j args rj :
    interrupted sc = true -> 0 <= j < n -> hs ≡ₚ (j, args) :: hs' -> AE_store args (nodes c j) = Ret rj ->
    sstep sc n (MkSystem c ats ms hs sn) (MkSystem (with_node j rj c) ats ms hs' sn)
(* the handlers of a peer that crashed, and calls that are lost *)
| ss_gone c ats ms hs hs' sn sn' :
    hs' ⊆+ hs -> sn' ⊆+ sn -> sstep sc n (MkSystem c ats ms hs sn) (MkSystem c ats ms hs' sn')
(* the service trims the log; a snapshot is sent, arrives, its reply is taken, or it takes too long *)
| ss_Snapshot c ats ms hs sn i index s ri :
    snapshots sc = true -> 0 <= i < n -> index <= Z.max (lastApplied (nodes c i)) (SnapshotIndex (nodes c i)) ->
    Snapshot index s (nodes c i) = Ret ri ->
    sstep sc n (MkSystem c ats ms hs sn) (MkSystem (with_node i ri c) ats ms hs sn)
| ss_send_IS c ats ms hs sn i j t ctx isRetry ri term args :
    snapshots sc = true -> 0 <= i < n -> 0 <= j < n -> i <> j ->
    prepare j t ctx isRetry (nodes c i) = Ret (ri, SendIS term args) ->
    sstep sc n (MkSystem c ats ms hs sn)
      (MkSystem (with_node i ri c) ats ms hs (MkSnapCall i j t ctx (inl args) :: sn))
| ss_IS c ats ms hs sn sn' i j t ctx tpc args rj reply :
    snapshots sc = true -> 0 <= j < n -> sn ≡ₚ MkSnapCall i j t ctx (inl args) :: sn' ->
    InstallSnapshot tpc args (nodes c j) = Ret (rj, reply) ->
    sstep sc n (MkSystem c ats ms hs sn)
      (MkSystem (with_node j rj c) ats ms hs (MkSnapCall i j t ctx (inr reply) :: sn'))
| ss_IS_reply c ats ms hs sn sn' i j t ctx reply ri next :
    snapshots sc = true -> 0 <= i < n -> sn ≡ₚ MkSnapCall i j t ctx (inr reply) :: sn' ->
    on_IS_reply j ctx t reply (nodes c i) = Ret (ri, next) ->
    sstep sc n (MkSystem c ats ms hs sn) (MkSystem (with_node i ri c) ats ms hs sn')
| ss_IS_timeout c ats ms hs sn i j t ctx msg :
    snapshots sc = true -> 0 <= i < n -> MkSnapCall i j t ctx msg ∈ sn ->
    sstep sc n (MkSystem c ats ms hs sn)
      (MkSystem (with_node i (on_timeout j ctx t (nodes c i)).1 c) ats ms hs sn).

Definition sinit (n : Z) (s : system) : Prop :=
  init n (peers s) /\ attempts s = ∅ /\ messages s = [] /\ loose s = [] /\ snaps s = [].

(** ** The cluster's invariant *)

Lemma local_step_ok rf rf' : local_step rf rf' -> step_ok rf rf'.
Proof.
  destruct 1; eauto using Start_ok, Kill_ok, apply_step_ok, sender_head_ok, sender_wait_ok,
    on_timeout_ok, boardcastLogEntries_ok, take_rst_ok, heartbeat_ok, ticker_fire_ok.
Qed.

Lemma handle_AE_ok args rf rf' reply : handle_AE args rf = Ret (rf', reply) -> step_ok rf rf'.
Proof. intros H. eapply AppendEntries_ok; [|exact H]. done. Qed.

Lemma with_node_inv n c i rf : inv n c -> 0 <= i < n -> step_ok (nodes c i) rf -> inv n (with_node i rf c).
Proof. intros. apply inv_ok_step; auto. Qed.

Lemma sstep_inv sc n s s' : inv n (peers s) -> sstep sc n s s' -> inv n (peers s').
Proof.
  intros Hinv Hstep. destruct Hstep; cbn [peers] in *; try apply with_node_inv;
    eauto using gstep_inv, local_step_ok, prepare_ok, handle_AE_ok, on_AE_reply_ok, on_timeout_ok,
      AE_check_ok, AE_store_ok, Snapshot_ok, InstallSnapshot_ok, on_IS_reply_ok.
Qed.

(** ** Logs *)

(** The history: the log of the leader of each term, now and when it was elected; the log of
    each candidate of each term; a voter's log when it voted; what a peer once agreed with the
    leader of its term about. *)
Record history := MkHistory {
  llog : Z -> list logEntry;
  llog0 : Z -> list logEntry;
  clog : Z -> Z -> list logEntry;
  vlog : Z -> Z -> Z -> list logEntry -> Prop;
  ack : Z -> Z -> nat -> Prop;
}.

Definition base : logEntry := MkLogEntry 0 AnyNil.

(** The terms entries may have. *)
Definition legit (c : cluster) (t : Z) : Prop := t = 0 \/ exists x, won c t x.

(** Every entry of the log is in the log of its term's leader, with all that is before it. *)
Definition wflog (c : cluster) (g : history) (L : list logEntry) : Prop :=
  forall k e, L !! k = Some e -> legit c (Term e) /\ take (S k) L `prefix_of` llog g (Term e).

(** The candidate's log [M] is at least as good as the voter's [L]. *)
Definition better (M L : list logEntry) : Prop :=
  exists a b, last L = Some a /\ last M = Some b /\
    (Term a < Term b \/ Term a = Term b /\ (length L <= length M)%nat).

(** The entries up to [k] of the leader of [t]. *)
Definition upto (g : history) (t : Z) (k : nat) : list logEntry := take (S k) (llog g t).

(** [i] agreed in term [t]: the leaders between then and now, if one of them lacks the entries,
    may have taken them away again. *)
Definition lost_between (c : cluster) (g : history) (t : Z) (k : nat) (t1 : Z) : Prop :=
  exists t' x, won c t' x /\ t < t' <= t1 /\ ~ upto g t k `prefix_of` llog0 g t'.

Definition majority (n : Z) (A : gset Z) : Prop :=
  A ⊆ list_to_set (seqZ 0 n) /\ n < 2 * Z.of_nat (size A).

(** Entry [k] of the leader of [t] is of its own term and a majority agreed. *)
Definition committed (n : Z) (c : cluster) (g : history) (t : Z) (k : nat) : Prop :=
  (exists x, won c t x) /\ (exists e, llog g t !! k = Some e /\ Term e = t) /\
  exists A, majority n A /\ forall v, v ∈ A -> ack g v t k.

(** What a peer's commit index covers. *)
Definition commit_ok (n : Z) (c : cluster) (g : history) (t : Z) (L : list logEntry) (ci : Z) : Prop :=
  0 <= ci < zlen L /\
  (ci = 0 \/ exists t' k, t' <= t /\ committed n c g t' k /\ (Z.to_nat ci <= k)%nat /\
     take (S (Z.to_nat ci)) L `prefix_of` llog g t').

Record node_ok (n : Z) (c : cluster) (g : history) (i : Z) (rf : Raft) : Prop := {
  nk_snap : SnapshotIndex rf = 0;
  nk_head : Log rf !! 0%nat = Some base;
  nk_wf : wflog c g (Log rf);
  nk_terms : forall e, e ∈ Log rf -> Term e <= CurrentTerm rf;
  nk_term : 0 <= CurrentTerm rf;
  nk_leader : state rf = Leader -> Log rf = llog g (CurrentTerm rf) /\ zlen (matchIndex rf) = n /\
    forall j m, 0 <= j -> j <> i -> matchIndex rf !! Z.to_nat j = Some m ->
      m = 0 \/ exists k, m = Z.of_nat k /\ ack g j (CurrentTerm rf) k;
  nk_cand : state rf = Candidate -> Log rf = clog g (CurrentTerm rf) i;
  nk_elect : forall id, elections c !! id = Some (i, CurrentTerm rf) ->
    (forall x, ~ won c (CurrentTerm rf) x) -> Log rf = clog g (CurrentTerm rf) i;
  nk_commit : commit_ok n c g (CurrentTerm rf) (Log rf) (commitIndex rf);
  nk_acks : forall t k, ack g i t k -> t <= CurrentTerm rf /\ (k < length (llog g t))%nat /\
    (exists x, won c t x) /\
    (upto g t k `prefix_of` Log rf \/ lost_between c g t k (CurrentTerm rf));
}.

(** What a vote of [v] for [x] in term [t], with the log [l], says about [v]'s agreements. *)
Definition vote_ok_log (c : cluster) (g : history) (v t t1 x : Z) (l : list logEntry) : Prop :=
  wflog c g l /\ better (clog g t x) l /\
  forall t' k, ack g v t' k -> t' < t -> upto g t' k `prefix_of` l \/ lost_between c g t' k t1.

Record ginv (n : Z) (c : cluster) (g : history) : Prop := {
  gi_node : forall i, 0 <= i < n -> node_ok n c g i (nodes c i);
  gi_sent : forall id p a, sent c id p a ->
    rv_Term a <= CurrentTerm (nodes c (CandidateId a)) /\ 0 <= CandidateId a < n /\
    LastLogIndex a = zlen (clog g (rv_Term a) (CandidateId a)) - 1 /\
    Term <$> last (clog g (rv_Term a) (CandidateId a)) = Some (LastLogTerm a);
  gi_votes : forall v t x, 0 <= v < n -> votes c v t x -> exists l, vlog g v t x l;
  gi_vlog : forall v t x l, vlog g v t x l ->
    0 <= v < n /\ 0 <= x < n /\ t <= CurrentTerm (nodes c v) /\ t <= CurrentTerm (nodes c x) /\
    vote_ok_log c g v t t x l;
  gi_won : forall t x, won c t x -> 0 <= x < n /\ 1 <= t <= CurrentTerm (nodes c x) /\
    llog0 g t = clog g t x /\ llog0 g t `prefix_of` llog g t /\ llog0 g t !! 0%nat = Some base /\
    wflog c g (llog g t) /\ (forall e, e ∈ llog0 g t -> Term e < t) /\
    (forall k e, llog g t !! k = Some e -> (length (llog0 g t) <= k)%nat -> Term e = t);
  gi_win : forall t x, won c t x -> exists Q, majority n Q /\
    forall v, v ∈ Q -> t <= CurrentTerm (nodes c v) /\ exists l, vote_ok_log c g v t (t - 1) x l;
  gi_worker : forall i el, worker c i = Some el -> ~ won c (ElectionTerm el) i;
  gi_election : forall id i T, elections c !! id = Some (i, T) -> 1 <= T;
  gi_zero : llog g 0 = [base];
  gi_down : forall v t k k', ack g v t k -> (k' <= k)%nat -> ack g v t k';
}.

(** *** Prefixes *)

Lemma prefix_le {A} (l1 l2 l3 : list A) :
  l1 `prefix_of` l3 -> l2 `prefix_of` l3 -> (length l1 <= length l2)%nat -> l1 `prefix_of` l2.
Proof.
  intros H1 H2 Hl. destruct (prefix_weak_total l1 l2 l3 H1 H2) as [|H]; [done|].
  rewrite (prefix_length_eq _ _ H Hl). done.
Qed.

Lemma take_prefix_of {A} k (l : list A) : take k l `prefix_of` l.
Proof. exists (drop k l). by rewrite take_drop. Qed.

Lemma prefix_take {A} k (l1 l2 : list A) :
  l1 `prefix_of` l2 -> (k <= length l1)%nat -> take k l1 = take k l2.
Proof. intros [l ->] Hk. by rewrite take_app_le. Qed.

Lemma prefix_take_l {A} k (l1 l2 : list A) : l1 `prefix_of` l2 -> take k l1 `prefix_of` l2.
Proof. intros H. etransitivity; [apply take_prefix_of|done]. Qed.

Lemma take_prefix_le {A} k (l1 l2 : list A) :
  take k l1 `prefix_of` l2 -> (k <= length l1)%nat -> take k l1 = take k l2.
Proof.
  intros H Hk. rewrite <- (prefix_take k _ _ H); [by rewrite take_take, Nat.min_id|].
  rewrite length_take. lia.
Qed.

Lemma last_lookup_Some {A} (l : list A) x : last l = Some x -> exists k, l !! k = Some x /\ length l = S k.
Proof.
  rewrite last_lookup. intros H. exists (pred (length l)). split; [done|].
  apply lookup_lt_Some in H. lia.
Qed.

Lemma wflog_prefix c g L M : wflog c g L -> M `prefix_of` L -> wflog c g M.
Proof.
  intros HL HM k e He. destruct (HL k e) as [Hl Hp]; [by eapply prefix_lookup_Some|].
  split; [done|]. rewrite (prefix_take (S k) M L); [done|done|]. apply lookup_lt_Some in He. lia.
Qed.

(** Log matching: logs that agree on the term of an entry agree up to it. *)
Lemma log_match c g L M k e e' :
  wflog c g L -> wflog c g M -> L !! k = Some e -> M !! k = Some e' -> Term e = Term e' ->
  take (S k) L = take (S k) M.
Proof.
  intros HL HM He He' Ht. destruct (HL k e He) as [_ H1]. destruct (HM k e' He') as [_ H2].
  rewrite Ht in H1. apply lookup_lt_Some in He, He'.
  rewrite (take_prefix_le _ _ _ H1), (take_prefix_le _ _ _ H2) by lia. done.
Qed.

Lemma upto_length g t k : (k < length (llog g t))%nat -> length (upto g t k) = S k.
Proof. intros Hk. unfold upto. rewrite length_take. lia. Qed.

Lemma upto_mono g t k k' : (k <= k')%nat -> upto g t k `prefix_of` upto g t k'.
Proof. intros Hk. unfold upto. exists (drop (S k) (take (S k') (llog g t))).
  rewrite <- (take_drop (S k) (take (S k') (llog g t))) at 1. f_equal. rewrite take_take. f_equal. lia. Qed.

Lemma committed_length n c g t k : committed n c g t k -> (k < length (llog g t))%nat.
Proof. intros (_ & (e & He & _) & _). by apply lookup_lt_Some in He. Qed.

(** ** Leader completeness *)

Section completeness.
Context (n : Z) (c : cluster) (g : history) (Hn : 0 <= n) (Hg : ginv n c g).

Lemma majority_meet A B : majority n A -> majority n B -> exists v, v ∈ A /\ v ∈ B.
Proof. intros [HA1 HA2] [HB1 HB2]. by eapply majorities_meet. Qed.

(** The terms in the log of a leader are at most its own. *)
Lemma llog_terms t x e : won c t x -> e ∈ llog g t -> Term e <= t.
Proof.
  intros Hw [k He]%list_elem_of_lookup. destruct (gi_won _ _ _ Hg _ _ Hw) as (_ & _ & _ & Hp & _ & _ & Hlt & Hge).
  destruct (decide (length (llog0 g t) <= k)%nat) as [Hk|Hk]; [rewrite (Hge k e He Hk); lia|].
  assert (llog0 g t !! k = Some e) as He0.
  { destruct (lookup_lt_is_Some_2 (llog0 g t) k) as [e' He']; [lia|].
    pose proof (prefix_lookup_Some _ _ _ _ He' Hp). congruence. }
  apply list_elem_of_lookup_2, Hlt in He0. lia.
Qed.

Lemma legit_terms t e : legit c t -> e ∈ llog g t -> Term e <= t.
Proof.
  intros [->|[x Hw]] He; [|by eapply llog_terms]. rewrite (gi_zero _ _ _ Hg) in He.
  apply list_elem_of_singleton in He. by subst.
Qed.

(** Terms do not go down along a log. *)
Lemma wflog_sorted L j k e e' :
  wflog c g L -> L !! j = Some e -> L !! k = Some e' -> (j <= k)%nat -> Term e <= Term e'.
Proof.
  intros HL He He' Hjk. destruct (HL k e' He') as [Hl Hp]. eapply legit_terms; [done|].
  assert (take (S k) L !! j = Some e) as Hj by (rewrite lookup_take_lt; [done|lia]).
  eapply prefix_lookup_Some in Hj; [|exact Hp]. by eapply list_elem_of_lookup_2.
Qed.

(** A log that is better than one with the entry [k] of the leader of [t] has it as well. *)
Lemma better_has t k t' x l :
  won c t' x -> t < t' -> committed n c g t k -> upto g t k `prefix_of` l -> wflog c g l ->
  better (llog0 g t') l ->
  (forall t'' y, won c t'' y -> t < t'' < t' -> upto g t k `prefix_of` llog0 g t'') ->
  upto g t k `prefix_of` llog0 g t'.
Proof.
  intros Hw Hlt Hcom Hl Hwf (a & b & Ha & Hb & Hab) IH.
  pose proof (committed_length _ _ _ _ _ Hcom) as Hk. destruct Hcom as (Hwon & (e & He & Hte) & _).
  destruct (gi_won _ _ _ Hg _ _ Hw) as (_ & _ & _ & Hp0 & _ & Hwf' & Hlt0 & _).
  pose proof (wflog_prefix _ _ _ _ Hwf' Hp0) as Hwf0.
  destruct (last_lookup_Some _ _ Ha) as (p & Hpa & Hlen). destruct (last_lookup_Some _ _ Hb) as (q & Hqb & Hlenb).
  assert (l !! k = Some e) as Hlk.
  { eapply prefix_lookup_Some; [|exact Hl]. unfold upto. by rewrite lookup_take_lt by lia. }
  assert (t <= Term a) as Hta.
  { rewrite <- Hte. apply (wflog_sorted l k p e a Hwf Hlk Hpa). apply lookup_lt_Some in Hlk. lia. }
  destruct (Hwf p a Hpa) as [_ Hla]. destruct (Hwf0 q b Hqb) as [Hleg Hlb].
  rewrite take_ge in Hla, Hlb by lia.
  destruct Hab as [Hab|[Hab Hlen2]].
  - destruct Hleg as [?|[y Hy]]; [destruct Hwon as [z Hz]; pose proof (gi_won _ _ _ Hg _ _ Hz); lia|].
    assert (Term b < t') as Htb by by eapply Hlt0, list_elem_of_lookup_2.
    etransitivity; [apply (IH (Term b) y); [done|lia]|].
    destruct (gi_won _ _ _ Hg _ _ Hy) as (_ & _ & _ & Hpb & _ & _ & Hltb & _).
    apply (prefix_le _ _ _ Hpb Hlb). destruct (decide (length (llog0 g (Term b)) <= q)%nat) as [|Hq]; [lia|].
    exfalso. destruct (lookup_lt_is_Some_2 (llog0 g (Term b)) q) as [b' Hb']; [lia|].
    pose proof (prefix_lookup_Some _ _ _ _ Hb' Hpb) as H1.
    pose proof (prefix_lookup_Some _ _ _ _ Hqb Hlb) as H2. simplify_eq.
    apply list_elem_of_lookup_2, Hltb in Hb'. lia.
  - rewrite Hab in Hla. etransitivity; [exact Hl|]. by eapply prefix_le.
Qed.

Lemma completeness t k t' x :
  committed n c g t k -> won c t' x -> t < t' -> upto g t k `prefix_of` llog0 g t'.
Proof.
  intros Hcom. revert x. induction (Z.lt_wf 0 t') as [t' _ IH]. intros x Hw Hlt.
  pose proof Hcom as (_ & _ & A & HA & Hack).
  destruct (gi_win _ _ _ Hg _ _ Hw) as (Q & HQ & Hvotes).
  destruct (majority_meet A Q HA HQ) as (v & HvA & HvQ).
  destruct (Hvotes v HvQ) as (_ & l & Hwf & Hbet & Hl).
  destruct (gi_won _ _ _ Hg _ _ Hw) as (_ & _ & Hc0 & _).
  assert (forall t'' y, won c t'' y -> t < t'' < t' -> upto g t k `prefix_of` llog0 g t'') as IH'.
  { intros t'' y Hy Ht. eapply IH; [|done|lia]. pose proof (gi_won _ _ _ Hg _ _ Hy). lia. }
  eapply better_has; [done|done|done| |done|by rewrite Hc0|done].
  destruct (Hl t k (Hack v HvA) Hlt) as [|(t'' & y & Hy & Ht & Hno)]; [done|].
  exfalso. apply Hno. eapply IH'; [done|lia].
Qed.

Lemma completeness_le t k t' x :
  committed n c g t k -> won c t' x -> t <= t' -> upto g t k `prefix_of` llog g t'.
Proof.
  intros Hcom Hw Hle. destruct (decide (t = t')) as [->|Hne]; [apply take_prefix_of|].
  etransitivity; [eapply completeness; [done|done|lia]|].
  by destruct (gi_won _ _ _ Hg _ _ Hw) as (_ & _ & _ & Hp & _).
Qed.

(** What two peers have committed is the same. *)
Lemma commit_agree t1 L1 c1 t2 L2 c2 k :
  commit_ok n c g t1 L1 c1 -> commit_ok n c g t2 L2 c2 ->
  L1 !! 0%nat = Some base -> L2 !! 0%nat = Some base ->
  (Z.of_nat k <= c1) -> (Z.of_nat k <= c2) -> L1 !! k = L2 !! k.
Proof.
  intros [Hr1 H1] [Hr2 H2] Hb1 Hb2 Hk1 Hk2.
  destruct H1 as [->|(s1 & k1 & _ & Hc1 & Hle1 & Hp1)]; [assert (k = 0%nat) as -> by lia; congruence|].
  destruct H2 as [->|(s2 & k2 & _ & Hc2 & Hle2 & Hp2)]; [assert (k = 0%nat) as -> by lia; congruence|].
  assert (forall L ci s kk, 0 <= ci < zlen L -> (Z.to_nat ci <= kk)%nat -> Z.of_nat k <= ci ->
    take (S (Z.to_nat ci)) L `prefix_of` llog g s -> committed n c g s kk ->
    L !! k = upto g s kk !! k /\ is_Some (upto g s kk !! k)) as Hget.
  { intros L ci s kk Hr Hle Hk Hp Hc. unfold zlen in Hr. apply committed_length in Hc.
    destruct (lookup_lt_is_Some_2 L k) as [e He]; [lia|].
    assert (llog g s !! k = Some e) as Hl.
    { eapply prefix_lookup_Some; [|exact Hp]. rewrite lookup_take_lt by lia. done. }
    unfold upto. rewrite He, lookup_take_lt, Hl by lia. done. }
  destruct (Hget L1 c1 s1 k1) as [-> [e1 He1]]; [done..|].
  destruct (Hget L2 c2 s2 k2) as [-> [e2 He2]]; [done..|].
  rewrite He1, He2. destruct (proj1 Hc1) as [x1 Hx1]. destruct (proj1 Hc2) as [x2 Hx2].
  destruct (decide (s1 <= s2)).
  - eapply prefix_lookup_Some in He1; [|by eapply (completeness_le s1 k1 s2)].
    eapply prefix_lookup_Some in He2; [|apply take_prefix_of]. congruence.
  - eapply prefix_lookup_Some in He2; [|eapply (completeness_le s2 k2 s1); [done|done|lia]].
    eapply prefix_lookup_Some in He1; [|apply take_prefix_of]. congruence.
Qed.
End completeness.

(** ** The history grows *)

Record ext (c : cluster) (g : history) (c' : cluster) (g' : history) : Prop := {
  e_won : forall t x, won c t x -> won c' t x;
  e_llog : forall t, legit c t -> llog g t `prefix_of` llog g' t;
  e_llog0 : forall t x, won c t x -> llog0 g' t = llog0 g t;
  e_clog : forall t x, t <= CurrentTerm (nodes c x) -> clog g' t x = clog g t x;
  e_term : forall i, CurrentTerm (nodes c i) <= CurrentTerm (nodes c' i);
  e_ack : forall v t k, ack g v t k -> ack g' v t k;
}.

Section ext.
Context (n : Z) (c : cluster) (g : history) (c' : cluster) (g' : history) (He : ext c g c' g').

Lemma legit_ext t : legit c t -> legit c' t.
Proof. intros [->|[x Hx]]; [by left|right]. exists x. by apply (e_won _ _ _ _ He). Qed.

Lemma wflog_ext L : wflog c g L -> wflog c' g' L.
Proof.
  intros HL k e Hk. destruct (HL k e Hk) as [Hl Hp]. split; [by apply legit_ext|].
  etransitivity; [exact Hp|]. by apply (e_llog _ _ _ _ He).
Qed.

Lemma upto_ext t k : legit c t -> (k < length (llog g t))%nat -> upto g' t k = upto g t k.
Proof.
  intros Hl Hk. unfold upto. symmetry. apply prefix_take; [by apply (e_llog _ _ _ _ He)|lia].
Qed.

Lemma lost_ext t k t1 t1' :
  legit c t -> (k < length (llog g t))%nat -> t1 <= t1' ->
  lost_between c g t k t1 -> lost_between c' g' t k t1'.
Proof.
  intros Hl Hk Ht (t' & x & Hw & Hr & Hno). exists t', x.
  rewrite (e_llog0 _ _ _ _ He _ _ Hw), upto_ext by done.
  split_and!; [by apply (e_won _ _ _ _ He)|lia|lia|done].
Qed.

Lemma committed_ext t k : committed n c g t k -> committed n c' g' t k.
Proof.
  intros ((x & Hx) & (e & Hk & Ht) & A & HA & Hack). split_and!.
  - exists x. by apply (e_won _ _ _ _ He).
  - exists e. split; [|done]. eapply prefix_lookup_Some; [done|]. apply (e_llog _ _ _ _ He). right. by exists x.
  - exists A. split; [done|]. intros v Hv. by apply (e_ack _ _ _ _ He), Hack.
Qed.

Lemma commit_ok_ext t t1 L ci : t <= t1 -> commit_ok n c g t L ci -> commit_ok n c' g' t1 L ci.
Proof.
  intros Ht [Hr H]. split; [done|]. destruct H as [?|(t' & k & Hle & Hc & Hk & Hp)]; [by left|right].
  exists t', k. split_and!; [lia|by apply committed_ext|done|].
  etransitivity; [exact Hp|]. apply (e_llog _ _ _ _ He). right. apply Hc.
Qed.

(** The facts about the agreements of [v], with the log it has now. *)
Lemma acks_ext i t1 t1' L :
  t1 <= t1' ->
  (forall t k, ack g i t k -> t <= t1 /\ (k < length (llog g t))%nat /\ (exists x, won c t x) /\
    (upto g t k `prefix_of` L \/ lost_between c g t k t1)) ->
  forall t k, ack g i t k -> t <= t1' /\ (k < length (llog g' t))%nat /\ (exists x, won c' t x) /\
    (upto g' t k `prefix_of` L \/ lost_between c' g' t k t1').
Proof.
  intros Ht1 Ha t k Hk. destruct (Ha t k Hk) as (Ht & Hlen & [x Hx] & Hor).
  assert (legit c t) as Hl by (right; by exists x).
  split_and!; [lia| |exists x; by apply (e_won _ _ _ _ He)|].
  - pose proof (prefix_length _ _ (e_llog _ _ _ _ He t Hl)). lia.
  - rewrite upto_ext by done. destruct Hor as [?|Hlost]; [by left|right]. by eapply lost_ext.
Qed.

Lemma node_ok_ext i rf :
  node_ok n c g i rf -> clog g' (CurrentTerm rf) i = clog g (CurrentTerm rf) i ->
  (forall t k, ack g' i t k -> ack g i t k) ->
  (state rf = Leader -> llog g' (CurrentTerm rf) = llog g (CurrentTerm rf)) ->
  (forall id, elections c' !! id = Some (i, CurrentTerm rf) -> elections c !! id = Some (i, CurrentTerm rf)) ->
  node_ok n c' g' i rf.
Proof.
  intros [H1 H2 H3 H4 H5 H6 H7 H8 H9 H10] Hct Hack Hll Hel. split; try done.
  - by apply wflog_ext.
  - intros Hst. destruct (H6 Hst) as (HL & Hlen & Hm). rewrite Hll by done. split_and!; [done|done|].
    intros j m Hj Hne Hjm. destruct (Hm j m Hj Hne Hjm) as [?|(k & -> & Hk)]; [by left|right].
    exists k. split; [done|]. by apply (e_ack _ _ _ _ He).
  - intros Hst. rewrite Hct. by apply H7.
  - intros id Hid Hno. rewrite Hct. apply (H8 id); [by apply Hel|].
    intros x Hx. by apply (Hno x), (e_won _ _ _ _ He).
  - eapply commit_ok_ext; [reflexivity|done].
  - intros t k Hk. eapply acks_ext; [reflexivity|exact H10|by apply Hack].
Qed.

Lemma vote_ok_log_ext v t t1 x l :
  ginv n c g -> 0 <= v < n -> t <= CurrentTerm (nodes c x) ->
  (forall t' k, ack g' v t' k -> t' < t -> ack g v t' k) ->
  vote_ok_log c g v t t1 x l -> vote_ok_log c' g' v t t1 x l.
Proof.
  intros Hg Hv Ht Hack (Hwf & Hb & Hl). split_and!.
  - by apply wflog_ext.
  - by rewrite (e_clog _ _ _ _ He).
  - intros t' k Hk Hlt. apply Hack in Hk; [|done].
    destruct (nk_acks _ _ _ _ _ (gi_node _ _ _ Hg v Hv) t' k Hk) as (_ & Hlen & [y Hy] & _).
    assert (legit c t') as Hleg by (right; by exists y).
    rewrite upto_ext by done. destruct (Hl t' k Hk Hlt) as [?|Hlost]; [by left|right].
    eapply lost_ext; [done|done|reflexivity|done].
Qed.
End ext.

(** What is known of the leader of a term. *)
Definition won_ok (n : Z) (c : cluster) (g : history) (t x : Z) : Prop :=
  0 <= x < n /\ 1 <= t <= CurrentTerm (nodes c x) /\
  llog0 g t = clog g t x /\ llog0 g t `prefix_of` llog g t /\ llog0 g t !! 0%nat = Some base /\
  wflog c g (llog g t) /\ (forall e, e ∈ llog0 g t -> Term e < t) /\
  (forall k e, llog g t !! k = Some e -> (length (llog0 g t) <= k)%nat -> Term e = t).
Definition win_ok (n : Z) (c : cluster) (g : history) (t x : Z) : Prop :=
  exists Q, majority n Q /\
    forall v, v ∈ Q -> t <= CurrentTerm (nodes c v) /\ exists l, vote_ok_log c g v t (t - 1) x l.
Definition request_ok (n : Z) (c : cluster) (g : history) (a : RequestVoteArgs) : Prop :=
  rv_Term a <= CurrentTerm (nodes c (CandidateId a)) /\ 0 <= CandidateId a < n /\
  LastLogIndex a = zlen (clog g (rv_Term a) (CandidateId a)) - 1 /\
  Term <$> last (clog g (rv_Term a) (CandidateId a)) = Some (LastLogTerm a).
Definition vlog_ok (n : Z) (c : cluster) (g : history) (v t x : Z) (l : list logEntry) : Prop :=
  0 <= v < n /\ 0 <= x < n /\ t <= CurrentTerm (nodes c v) /\ t <= CurrentTerm (nodes c x) /\
  vote_ok_log c g v t t x l.

Lemma majority_range n A v : majority n A -> v ∈ A -> 0 <= v < n.
Proof. intros [HA _] Hv. apply HA, elem_of_list_to_set, elem_of_seqZ in Hv. lia. Qed.

(** The invariant, from what is new. *)
Lemma ginv_ext n c g c' g' :
  ginv n c g -> ext c g c' g' ->
  (forall i, 0 <= i < n -> node_ok n c' g' i (nodes c' i)) ->
  (forall id p a, sent c' id p a -> sent c id p a \/ request_ok n c' g' a) ->
  (forall v t x l, vlog g v t x l -> vlog g' v t x l) ->
  (forall v t x l, vlog g' v t x l -> vlog g v t x l \/ vlog_ok n c' g' v t x l) ->
  (forall v t x, 0 <= v < n -> votes c' v t x -> votes c v t x \/ exists l, vlog g' v t x l) ->
  (forall t x, won c' t x -> won c t x /\ llog g' t = llog g t \/ won_ok n c' g' t x) ->
  (forall t x, won c' t x -> won c t x \/ win_ok n c' g' t x) ->
  (forall v t k, ack g' v t k -> ack g v t k \/ t = CurrentTerm (nodes c' v)) ->
  (forall i el, worker c' i = Some el -> ~ won c' (ElectionTerm el) i) ->
  (forall id i T, elections c' !! id = Some (i, T) -> 1 <= T) ->
  llog g' 0 = [base] -> (forall v t k k', ack g' v t k -> (k' <= k)%nat -> ack g' v t k') ->
  ginv n c' g'.
Proof.
  intros Hg He Hnode Hsent Hvl Hvlog Hvotes Hwon Hwin Hack Hwk Hel Hzero Hdown.
  assert (forall v t t1 x l, 0 <= v < n -> t <= CurrentTerm (nodes c v) -> t <= CurrentTerm (nodes c x) ->
    vote_ok_log c g v t t1 x l -> vote_ok_log c' g' v t t1 x l) as Hvote.
  { intros v t t1 x l Hv Ht Htx. eapply vote_ok_log_ext; [done|done|done|done|].
    intros t' k Hk Hlt. destruct (Hack v t' k Hk) as [| ->]; [done|]. pose proof (e_term _ _ _ _ He v). lia. }
  split; try done.
  - intros id p a [Hs|Hs]%Hsent; [|exact Hs]. destruct (gi_sent _ _ _ Hg _ _ _ Hs) as (H1 & H2 & H3 & H4).
    rewrite !(e_clog _ _ _ _ He) by done. pose proof (e_term _ _ _ _ He (CandidateId a)).
    split_and!; [lia|lia|lia|done|done].
  - intros v t x Hv Hx. destruct (Hvotes v t x Hv Hx) as [Hx1|]; [|done]. clear Hx. rename Hx1 into Hx. destruct (gi_votes _ _ _ Hg v t x Hv Hx) as [l Hl].
    exists l. by apply Hvl.
  - intros v t x l [Hl|Hl]%Hvlog; [|exact Hl]. destruct (gi_vlog _ _ _ Hg _ _ _ _ Hl) as (H1 & H2 & H3 & H4 & H5).
    pose proof (e_term _ _ _ _ He v). pose proof (e_term _ _ _ _ He x).
    split_and!; [lia..|]. by apply Hvote.
  - intros t x Hx. destruct (Hwon t x Hx) as [[Hx1 Hll]|?]; [|done]. clear Hx. rename Hx1 into Hx.
    destruct (gi_won _ _ _ Hg _ _ Hx) as (H1 & H2 & H3 & H4 & H5 & H6 & H7 & H8).
    pose proof (e_term _ _ _ _ He x).
    rewrite !(e_llog0 _ _ _ _ He _ _ Hx), Hll, (e_clog _ _ _ _ He) by lia.
    split_and!; try done; try lia. by eapply wflog_ext.
  - intros t x [Hx|Hx]%Hwin; [|exact Hx]. destruct (gi_win _ _ _ Hg _ _ Hx) as (Q & HQ & HV).
    destruct (gi_won _ _ _ Hg _ _ Hx) as (_ & Hrx & _).
    exists Q. split; [done|]. intros v Hv. destruct (HV v Hv) as (Ht & l & Hl). pose proof (e_term _ _ _ _ He v).
    split; [lia|]. exists l. apply Hvote; [by eapply majority_range|done|lia|done].
Qed.
End RaftSystem.
