(* ===== verification/RaftSafety.v ===== *)
(** * RaftSafety: the replicated log (src/src/raft1/raft.go)

    In the scope [prompt] of RaftSystem, with an odd number of peers, every step keeps the invariant of
    the histories; so what was committed stays committed, and two peers apply the same commands.  The
    other scopes are not safe: at the end are runs in which two peers apply different commands at
    one index, when messages are handled late ([late_messages_unsafe]) and when a handler of AppendEntries is
    interrupted in the gap of its lock ([gap_unsafe]). *)
From stdpp Require Import functions.
From S2P Require Import Prelude Persister Raft RaftLeader RaftElection RaftSystem.
Import Raft Replication Election Cluster RaftSystem.
Local Open Scope Z_scope.
Local Open Scope go_scope.

Module RaftSafety.

(** ** Steps that leave logs and agreements alone *)

(** The next index of [sv] may change. *)
Record calm (sv : option Z) (rf rf' : Raft) : Prop := {
  cm_log : Log rf' = Log rf;
  cm_snap : SnapshotIndex rf' = SnapshotIndex rf;
  cm_term : CurrentTerm rf <= CurrentTerm rf';
  cm_leader : state rf' = Leader -> state rf = Leader /\ CurrentTerm rf' = CurrentTerm rf /\
    matchIndex rf' = matchIndex rf;
  cm_cand : state rf' = Candidate -> state rf = Candidate /\ CurrentTerm rf' = CurrentTerm rf;
  cm_commit : commitIndex rf' = commitIndex rf \/ commitIndex rf' = 0;
  cm_next : state rf' = Leader -> forall j, 0 <= j -> sv <> Some j ->
    nextIndex rf' !! Z.to_nat j = nextIndex rf !! Z.to_nat j;
}.

#[export] Instance calm_preorder sv : PreOrder (calm sv).
Proof.
  split.
  - intros rf. split; try done. by left.
  - intros a b c [? ? ? L1 C1 K1 N1] [? ? ? L2 C2 K2 N2]. split; try congruence; [lia| | | |].
    + intros (Hb & ? & ?)%L2. destruct (L1 Hb) as (? & ? & ?). split_and!; congruence.
    + intros (Hb & ?)%C2. destruct (C1 Hb) as (? & ?). split_and!; congruence.
    + destruct K2 as [K2|K2]; [destruct K1 as [K1|K1]|]; rewrite K2; auto; rewrite K1; auto.
    + intros Hc j Hj Hs. rewrite N2 by done. apply N1; [by apply L2|done|done].
Qed.

Lemma calm_any sv rf rf' : calm None rf rf' -> calm sv rf rf'.
Proof. intros [? ? ? ? ? ? N]. split; try done. intros Hl j Hj _. by apply N. Qed.

Lemma ext_same c c' g :
  (forall t x, won c t x -> won c' t x) -> (forall i, CurrentTerm (nodes c i) <= CurrentTerm (nodes c' i)) -> ext c g c' g.
Proof. intros Hw Ht. by split. Qed.

Lemma node_ok_calm sv n c g i rf rf' :
  node_ok n c g i rf -> calm sv rf rf' ->
  (forall id T, elections c !! id = Some (i, T) -> T <= CurrentTerm rf) -> node_ok n c g i rf'.
Proof.
  intros [H1 H2 H3 H4 H5 H6 H7 H8 H9 H10] [EL ES Ht Hl Hc Hci _] Hel.
  assert (ext c g c g) as Hext by by apply ext_same.
  split; rewrite ?EL, ?ES; try done.
  - intros e He. pose proof (H4 e He). lia.
  - lia.
  - intros (Hst & -> & ->)%Hl. by apply H6.
  - intros (Hst & ->)%Hc. by apply H7.
  - intros id Hid Hno. pose proof (Hel _ _ Hid). assert (CurrentTerm rf' = CurrentTerm rf) as E by lia.
    rewrite E in *. by eapply H8.
  - destruct Hci as [-> | ->]; [by eapply commit_ok_ext|].
    destruct H9 as [Hr _]. split; [lia|by left].
  - by eapply acks_ext.
Qed.

(** What a step of the cluster does to the history and to the senders' next indices but [sv]'s. *)
Record follows (n : Z) (sv : option (Z * Z)) (c : cluster) (g : history) (c' : cluster) (g' : history)
    : Prop := {
  fo_ginv : ginv n c' g';
  fo_ext : ext c g c' g';
  fo_ack : forall v t k, ack g' v t k -> ack g v t k \/ won c t v;
  fo_next : forall i j, 0 <= i < n -> 0 <= j -> sv <> Some (i, j) ->
    state (nodes c' i) = Leader -> won c (CurrentTerm (nodes c' i)) i ->
    state (nodes c i) = Leader /\ CurrentTerm (nodes c' i) = CurrentTerm (nodes c i) /\
    nextIndex (nodes c' i) !! Z.to_nat j = nextIndex (nodes c i) !! Z.to_nat j;
}.

Lemma next_calm n c sv i rf' :
  calm sv (nodes c i) rf' ->
  forall i' j, 0 <= i' < n -> 0 <= j -> (i,.) <$> sv <> Some (i', j) ->
    state (<[i := rf']> (nodes c) i') = Leader -> won c (CurrentTerm (<[i := rf']> (nodes c) i')) i' ->
    state (nodes c i') = Leader /\ CurrentTerm (<[i := rf']> (nodes c) i') = CurrentTerm (nodes c i') /\
    nextIndex (<[i := rf']> (nodes c) i') !! Z.to_nat j = nextIndex (nodes c i') !! Z.to_nat j.
Proof.
  intros Hcalm i' j Hi' Hj Hsv. node_cases i i'; [|done]. intros Hl _.
  destruct (cm_leader _ _ _ Hcalm Hl) as (? & ? & _). split_and!; [done|done|].
  apply (cm_next _ _ _ Hcalm); [done|done|]. intros ->. by apply Hsv.
Qed.

(** One peer changes calmly; workers may stop or go on with their election. *)
Lemma ginv_calm sv n c g i rf' wk fl wn :
  inv n c -> ginv n c g -> 0 <= i < n -> calm sv (nodes c i) rf' ->
  (forall j el, wk j = Some el -> exists el', worker c j = Some el' /\ ElectionTerm el' = ElectionTerm el) ->
  (forall t x, wn t x <-> won c t x) ->
  follows n ((i,.) <$> sv) c g
    (MkCluster (<[i := rf']> (nodes c)) wk fl (elections c) (sent c) (votes c) wn) g.
Proof.
  intros Hinv Hg Hi Hcalm Hwk Hwn. set (c' := MkCluster _ _ _ _ _ _ _).
  assert (ext c g c' g) as He.
  { apply ext_same; [intros; by apply Hwn|]. intros j. subst c'. cbn. node_cases i j; [apply Hcalm|lia]. }
  split; [|done|by left|by apply next_calm].
  eapply ginv_ext; [exact Hg|exact He|..]; subst c'; cbn [nodes sent votes won worker]; auto.
  - intros j Hj. eapply node_ok_ext; [exact He| |done|done|done|done].
    node_cases i j; [|by apply Hg]. eapply node_ok_calm; [by apply Hg|done|].
    intros id T Hid. apply (inv_call _ _ Hinv _ _ _ Hid).
  - intros t x Hx. left. split; [by apply Hwn|done].
  - intros t x Hx. left. by apply Hwn.
  - intros j el Hj Hx. destruct (Hwk j el Hj) as (el' & Hw & E). eapply gi_worker; [done|exact Hw|].
    rewrite E. by apply Hwn.
  - apply Hg.
  - apply Hg.
  - apply Hg.
Qed.

(** *** The calm steps of a peer *)

Lemma quiet_calm sv rf rf' :
  Log rf' = Log rf -> SnapshotIndex rf' = SnapshotIndex rf -> CurrentTerm rf' = CurrentTerm rf ->
  matchIndex rf' = matchIndex rf -> commitIndex rf' = commitIndex rf ->
  (state rf' = state rf \/ state rf' = Follower) ->
  (forall j, 0 <= j -> sv <> Some j -> nextIndex rf' !! Z.to_nat j = nextIndex rf !! Z.to_nat j) ->
  calm sv rf rf'.
Proof.
  intros ? ? HT ? ? Hst ?. split; try done; [lia|..|by left]; intros Hs; destruct Hst as [E|E];
    rewrite Hs in E; try done; auto.
Qed.

Ltac calm_done := apply quiet_calm; try reflexivity;
  first [left; reflexivity|right; reflexivity|intros; reflexivity].

(** The next index of one server is assigned. *)
Lemma next_calm_one server v l rf :
  set_idx (nextIndex rf) server v = Ret l -> calm (Some server) rf (rf <| nextIndex := l |>).
Proof.
  intros [? ->]%set_idx_Ret. apply quiet_calm; try done; [by left|]. fields. intros j Hj Hne.
  apply list_lookup_insert_ne. intros ?. apply Hne. f_equal. lia.
Qed.

Lemma still_leader_calm c term rf : calm None rf (still_leader c term rf).1.
Proof. unfold still_leader. case_decide; [calm_done|]. by case_decide. Qed.

Lemma step_down_calm c term t rf : t > term -> calm None rf (step_down c term t rf).
Proof.
  intros Ht. unfold step_down. case_decide as H; [|done]. destruct H as [H1 H2].
  split; try reflexivity; try done; [|by left]. cbn. unfold persist. fields. cbn. lia.
Qed.

Lemma on_AE_failure_calm server c term reply rf rf' n :
  on_AE_failure server c term reply rf = Ret (rf', n) -> calm (Some server) rf rf'.
Proof.
  unfold on_AE_failure. intros H. case_decide; inv_res; [by apply calm_any, step_down_calm|].
  transitivity (rf <| retry := {[server]} ∪ retry rf |>); [calm_done|by eapply next_calm_one].
Qed.

Lemma boardcast_loop_calm ids rf rf' : boardcast_loop ids rf = Ret rf' -> calm None rf rf'.
Proof.
  revert rf. induction ids as [|i ids IH]; intros rf; cbn; [by intros [= <-]|].
  case_decide; [apply IH|]. intros. inv_res. destruct a; inv_res; [done|].
  apply IH in H0. etransitivity; [|exact H0]. calm_done.
Qed.

Lemma prepare_calm server t c isRetry rf rf' msg :
  prepare server t c isRetry rf = Ret (rf', msg) -> calm (Some server) rf rf'.
Proof.
  unfold prepare, prepare_entries. intros. case_decide; [by inv_res|]. case_decide; [by inv_res|]. inv_res.
  transitivity a0.
  { clear H. case_decide; inv_res; [|done]. by eapply next_calm_one. }
  clear E0. case_decide; inv_res; [done|]. case_decide; inv_res; [calm_done|].
  destruct isRetry; [calm_done|done].
Qed.

Lemma RequestVote_calm args rf rf' reply : RequestVote args rf = Ret (rf', reply) -> calm None rf rf'.
Proof.
  unfold RequestVote. intros H. case_decide; [by inv_res|]. case_decide.
  - inv_res. destruct a; inv_res; [done|]. case_decide; inv_res; [calm_done|done].
  - inv_res. assert (calm None rf (a <| state := Follower |>)) as Hq.
    { split; try done.
      1-3: case_decide; [unfold cancel in E; destruct (ctx _) in E|]; inv_res; try reflexivity; fields; cbn; lia.
      left. case_decide; [unfold cancel in E; destruct (ctx _) in E|]; inv_res; reflexivity. }
    etransitivity; [exact Hq|]. destruct a0; inv_res; calm_done.
Qed.

Lemma Make_calm n i rf rf' :
  npeers rf = n -> me rf = i -> synced rf -> Log rf <> [] -> Make n i (persister rf) = Ret rf' -> calm None rf rf'.
Proof.
  intros Hn Hm Hs Hl HM.
  destruct (Make_synced n i rf Hs Hl) as (r & Hr & Hp & ? & ? & Hst & _ & _ & _ & Hci & _).
  rewrite Hr in HM. injection HM as <-. unfold persistent in Hp.
  injection Hp as HT HV HL HS _. split; try congruence; [lia|]. by right.
Qed.

(** The steps on its own that are calm; the others are Start and the apply worker. *)
Lemma local_step_calm rf rf' :
  local_step rf rf' -> calm None rf rf' \/ (exists command, rf' = (Start command rf).1) \/
    exists pc msg pc', apply_step pc rf = Ret (rf', msg, pc').
Proof.
  destruct 1 as [command rf|rf|pc rf rf' msg pc' H|server t c rf|server isRetry rf rf' H|server c term rf
    |rf rf' H|i rf|i rf|rf]; [right; left; by eexists| |right; right; by do 3 eexists|..]; left.
  - calm_done.
  - unfold sender_head. destruct (killed rf); [done|]. repeat case_decide; (done || calm_done).
  - unfold sender_wait in H. destruct (_ || _); simplify_eq. calm_done.
  - unfold on_timeout. etransitivity; [|apply still_leader_calm]. calm_done.
  - unfold boardcastLogEntries in H. case_decide.
    + unfold cancel in H. destruct (ctx rf); inv_res. calm_done.
    + apply boardcast_loop_calm in H. etransitivity; [|exact H]. calm_done.
  - calm_done.
  - unfold heartbeat. case_decide; [calm_done|done].
  - unfold ticker_fire. case_decide; [|done]. cbn. case_decide; [calm_done|done].
Qed.

(** ** Elections *)

Lemma elections_term n c id i T :
  inv n c -> elections c !! id = Some (i, T) -> T <= CurrentTerm (nodes c i).
Proof. intros Hinv Hid. apply (inv_call _ _ Hinv _ _ _ Hid). Qed.

Lemma better_refl L e : last L = Some e -> better L L.
Proof. intros He. exists e, e. auto. Qed.

Lemma ginv_start n c g i id rf' :
  inv n c -> ginv n c g -> 0 <= i < n -> start_election (nodes c i) = Some rf' ->
  exists g', follows n None c g (MkCluster (<[i := rf']> (nodes c))
      (<[i := Some (MkElection id (CurrentTerm rf') 1 (length (others n i)))]> (worker c))
      (launch id (others n i) (flights c))
      (<[id := (i, CurrentTerm rf')]> (elections c)) (sent c)
      (fun v t x => votes c v t x \/ v = i /\ t = CurrentTerm rf' /\ x = i) (won c)) g'.
Proof.
  intros Hinv Hg Hi Hs. pose proof (gi_node _ _ _ Hg i Hi) as Hno.
  assert (commitIndex rf' = commitIndex (nodes c i) /\ SnapshotIndex rf' = SnapshotIndex (nodes c i)) as [HCI HSN].
  { unfold start_election in Hs. case_decide; [done|]. injection Hs as <-. done. }
  apply start_election_spec in Hs as (_ & _ & HT & _ & Hst & HL & _).
  set (T := CurrentTerm rf') in *. set (L := Log (nodes c i)) in *.
  set (g' := MkHistory (llog g) (llog0 g) (fun t x => if decide (t = T /\ x = i) then L else clog g t x)
    (fun v t x l => vlog g v t x l \/ v = i /\ t = T /\ x = i /\ l = L) (ack g)).
  exists g'. set (c' := MkCluster _ _ _ _ _ _ _).
  assert (ext c g c' g') as He.
  { split; try done.
    - intros t x Ht. cbn. case_decide as Hd; [|done]. destruct Hd as [-> ->]. lia.
    - intros j. subst c'. cbn. node_cases i j; lia. }
  assert (clog g' T i = L) as Hcl by (cbn; by rewrite decide_True).
  destruct (last L) as [e|] eqn:Hlast.
  2: { apply last_None in Hlast. pose proof (nk_head _ _ _ _ _ Hno) as Hh. fold L in Hh. by rewrite Hlast in Hh. }
  assert (node_ok n c' g' i rf') as Hnode.
  { destruct Hno as [H1 H2 H3 H4 H5 H6 H7 H8 H9 H10]. split; rewrite ?HL; fold T; fold L; try done.
    - congruence.
    - intros e' He'. pose proof (H4 e' He'). lia.
    - lia.
    - congruence.
    - rewrite HCI. eapply commit_ok_ext; [exact He| |exact H9]. lia.
    - apply (acks_ext _ _ _ _ He i (CurrentTerm (nodes c i))); [lia|exact H10]. }
  split; [|done|by left|]; cycle 1.
  { intros i' j Hi' Hj _. subst c'. cbn [nodes]. node_cases i i'; [congruence|done]. }
  eapply ginv_ext; [exact Hg|exact He|..]; subst c'; cbn [nodes sent votes won worker elections]; auto.
  - intros j Hj. node_cases i j; [done|]. eapply node_ok_ext; [exact He|by apply Hg| |done|done|].
    + cbn. rewrite decide_False; [done|]. naive_solver.
    + cbn. intros id' Hid'. destruct (decide (id = id')) as [<-|Hne].
      * rewrite lookup_insert_eq in Hid'. congruence.
      * by rewrite lookup_insert_ne in Hid'.
  - intros v t x l Hl. by left.
  - intros v t x l [Hl|(-> & -> & -> & ->)]; [by left|right].
    unfold vlog_ok, vote_ok_log. cbn [nodes]. rewrite fn_lookup_insert. fold T. split_and!; try lia.
    + apply (wflog_ext _ _ _ _ He). apply Hno.
    + rewrite Hcl. by eapply better_refl.
    + intros t' k Hk _. destruct (nk_acks _ _ _ _ _ Hnode t' k Hk) as (_ & _ & _ & Hor).
      rewrite HL in Hor. exact Hor.
  - intros v t x Hv [Hx|(-> & -> & ->)]; [by left|right]. exists L. by right.
  - intros j el. node_cases i j; [|by apply Hg]. intros [= <-] Hw. cbn in Hw. fold T in Hw.
    apply (gi_won _ _ _ Hg) in Hw. lia.
  - intros id' j T' Hid. apply lookup_insert_Some in Hid as [[_ [= <- <-]]|[_ Hid]].
    + pose proof (nk_term _ _ _ _ _ Hno). lia.
    + by eapply gi_election.
  - apply Hg.
  - apply Hg.
Qed.

(** A vote is for a log at least as good as the voter's. *)
Lemma RequestVote_better args rf rf' reply :
  Log rf <> [] -> RequestVote args rf = Ret (rf', reply) -> VoteGranted reply = true ->
  exists e, last (Log rf) = Some e /\ log_le (Term e) (Loglen rf - 1) (LastLogTerm args) (LastLogIndex args).
Proof.
  intros Hl H Hg. assert (forall rf1, Log rf1 = Log rf -> SnapshotIndex rf1 = SnapshotIndex rf ->
    outdated args rf1 = Ret false ->
    exists e, last (Log rf) = Some e /\ log_le (Term e) (Loglen rf - 1) (LastLogTerm args) (LastLogIndex args)) as Hout.
  { intros rf1 HL HS Ho. destruct (outdated_spec args rf1) as (t & Ht & Hs); [by rewrite HL|].
    rewrite Hs in Ho. injection Ho as Ho. apply bool_decide_eq_false in Ho. apply dec_stable in Ho.
    unfold last_term, Loglen in *. rewrite HL, HS in *. destruct (last (Log rf)) as [e|]; [|done].
    injection Ht as <-. by exists e. }
  unfold RequestVote in H. case_decide; [by inv_res|]. case_decide.
  - inv_res. destruct a; [by inv_res|]. by eapply Hout.
  - inv_res. destruct a0; inv_res. apply (Hout (a <| state := Follower |>)); [..|exact E0].
    + case_decide; [unfold cancel in E; destruct (ctx _) in E|]; inv_res; reflexivity.
    + case_decide; [unfold cancel in E; destruct (ctx _) in E|]; inv_res; reflexivity.
Qed.

Lemma ginv_handle n c g id p args rf' reply fl :
  inv n c -> ginv n c g -> 0 <= p < n -> sent c id p args ->
  RequestVote args (nodes c p) = Ret (rf', reply) ->
  exists g', follows n None c g (MkCluster (<[p := rf']> (nodes c)) (worker c) fl (elections c) (sent c)
    (fun v t x => votes c v t x \/
       VoteGranted reply = true /\ v = p /\ t = rv_Term args /\ x = CandidateId args) (won c)) g'.
Proof.
  intros Hinv Hg Hp Hs HR. pose proof (gi_node _ _ _ Hg p Hp) as Hno.
  pose proof (RequestVote_calm _ _ _ _ HR) as Hcalm.
  assert (Log (nodes c p) <> []) as Hne by apply (inv_node _ _ Hinv p Hp).
  set (L := Log (nodes c p)) in *. set (T := rv_Term args). set (x0 := CandidateId args).
  destruct (gi_sent _ _ _ Hg _ _ _ Hs) as (HTx & Hx0 & Hli & Hlt). fold T x0 in HTx, Hx0, Hli, Hlt.
  set (g' := MkHistory (llog g) (llog0 g) (clog g)
    (fun v t x l => vlog g v t x l \/ VoteGranted reply = true /\ v = p /\ t = T /\ x = x0 /\ l = L) (ack g)).
  exists g'. set (c' := MkCluster _ _ _ _ _ _ _).
  assert (ext c g c' g') as He.
  { split; try done. intros j. subst c'. cbn. node_cases p j; [apply Hcalm|lia]. }
  assert (node_ok n c' g' p rf') as Hnode.
  { eapply node_ok_ext; [exact He| |done|done|done|done]. eapply node_ok_calm; [done|done|].
    intros id' T' Hid. by eapply elections_term. }
  split; [|done|by left|by apply (next_calm _ _ _ _ _ Hcalm)].
  eapply ginv_ext; [exact Hg|exact He|..]; subst c'; cbn [nodes sent votes won worker elections]; auto.
  - intros j Hj. node_cases p j; [done|]. eapply node_ok_ext; [exact He|by apply Hg|done|done|done|done].
  - intros v t x l Hl. by left.
  - intros v t x l [Hl|(Hgr & -> & -> & -> & ->)]; [by left|right].
    destruct (RequestVote_vote _ _ _ _ HR Hgr) as (HCT & _ & _).
    destruct (RequestVote_better _ _ _ _ Hne HR Hgr) as (e & Hlast & Hle). fold L in Hlast.
    unfold vlog_ok, vote_ok_log. cbn [nodes]. rewrite fn_lookup_insert. split_and!; try lia.
    + destruct (decide (p = x0)) as [->|]; [rewrite fn_lookup_insert|rewrite fn_lookup_insert_ne by done]; fold T in HCT; lia.
    + apply (wflog_ext _ _ _ _ He). apply Hno.
    + cbn [clog g']. destruct (last (clog g T x0)) as [b|] eqn:Hb; [|done]. injection Hlt as Hlt.
      exists e, b. split_and!; [done|done|]. rewrite Hlt. unfold log_le, Loglen in Hle. fold L in Hle.
      rewrite (nk_snap _ _ _ _ _ Hno), Hli in Hle. unfold zlen in Hle. lia.
    + intros t' k Hk _. destruct (nk_acks _ _ _ _ _ Hnode t' k Hk) as (_ & _ & _ & Hor).
      rewrite (cm_log _ _ _ Hcalm) in Hor. fold L in Hor. fold T in HCT. rewrite HCT in Hor. exact Hor.
  - intros v t x Hv [Hx|(Hgr & -> & -> & ->)]; [by left|right]. exists L. by right.
  - apply Hg.
  - apply Hg.
  - apply Hg.
  - apply Hg.
Qed.

(** *** Winning *)

Lemma on_reply_calm T v reply rf rf' next :
  on_reply T v reply rf = Ret (rf', next) -> next <> EWon -> calm None rf rf'.
Proof.
  unfold on_reply. intros H Hne. case_decide; [by inv_res|]. case_decide; inv_res.
  - split; try reflexivity; try done; [|by left]. unfold persist. fields. lia.
  - destruct (VoteGranted reply); [|by inv_res]. case_decide; inv_res; done.
Qed.

(** A new leader knows of no agreement. *)
Lemma win_loop_match ids rf rf' :
  win_loop ids rf = Ret rf' -> Forall (fun m => m = 0) (matchIndex rf) ->
  Forall (fun m => m = 0) (matchIndex rf') /\ zlen (matchIndex rf') = zlen (matchIndex rf) /\
  commitIndex rf' = commitIndex rf.
Proof.
  revert rf. induction ids as [|i ids IH]; intros rf; cbn; [by intros [= <-]|].
  case_decide; [apply IH|]. intros. inv_res. destruct a; inv_res.
  apply set_idx_Ret in E1 as [_ ->]. apply IH in H0 as (Hm & Hz & Hc); fields.
  - rewrite zlen_insert in Hz. done.
  - by apply Forall_insert.
Qed.

Lemma on_reply_won T v reply rf rf' :
  0 <= npeers rf -> on_reply T v reply rf = Ret (rf', EWon) ->
  (forall j m, matchIndex rf' !! j = Some m -> m = 0) /\ zlen (matchIndex rf') = npeers rf /\
  commitIndex rf' = commitIndex rf.
Proof.
  unfold on_reply. intros Hn H. case_decide; inv_res; try done. case_decide; inv_res; try done.
  destruct (VoteGranted reply); inv_res; try done. case_decide; inv_res; try done.
  unfold become_leader in E. case_decide; inv_res; try done.
  apply win_loop_match in E as (Hm & Hz & Hc).
  - revert Hz Hc. fields. unfold zlen. rewrite length_replicate. intros. split_and!; [|lia|done].
    intros j m Hj. exact (Forall_lookup_1 _ _ _ _ Hm Hj).
  - fields. by apply Forall_replicate.
Qed.

Lemma ginv_win n c g i el rf' wk fl wn :
  0 <= n -> inv n c -> ginv n c g -> 0 <= i < n -> worker c i = Some el ->
  same_election (nodes c i) rf' -> state rf' = Leader -> CurrentTerm (nodes c i) = ElectionTerm el ->
  (forall j m, matchIndex rf' !! j = Some m -> m = 0) -> zlen (matchIndex rf') = n ->
  commitIndex rf' = commitIndex (nodes c i) ->
  (forall j el, wk j = Some el -> j <> i /\ worker c j = Some el) ->
  (forall t x, wn t x <-> won c t x \/ t = ElectionTerm el /\ x = i) ->
  let c' := MkCluster (<[i := rf']> (nodes c)) wk fl (elections c) (sent c) (votes c) wn in
  inv n c' -> exists g', follows n None c g c' g'.
Proof.
  intros Hn0 Hinv Hg Hi Hw (Hnp & Hme & HT & HV & HL & HSI & HSB & HP) Hst HTel Hm0 Hml Hci Hwk Hwn c' Hinv'.
  pose proof (gi_node _ _ _ Hg i Hi) as Hno. set (T := ElectionTerm el) in *. set (L := Log (nodes c i)) in *.
  destruct (inv_worker _ _ Hinv i el Hi Hw) as (Hel & _). fold T in Hel.
  assert (forall x, ~ won c T x) as Hnew.
  { intros x Hx. assert (x = i) as ->; [|by eapply (gi_worker _ _ _ Hg)].
    apply (won_unique n c' T); [done|done|apply Hwn; by left|apply Hwn; by right]. }
  pose proof (gi_election _ _ _ Hg _ _ _ Hel) as HT1.
  set (g' := MkHistory (fun t => if decide (t = T) then L else llog g t)
    (fun t => if decide (t = T) then L else llog0 g t) (clog g) (vlog g) (ack g)).
  assert (forall t x, won c t x -> t <> T) as Hold by (intros t x Hx ->; by eapply Hnew).
  assert (forall j, CurrentTerm (nodes c' j) = CurrentTerm (nodes c j)) as HTj
    by (intros j; subst c'; cbn; by node_cases i j).
  assert (ext c g c' g') as He.
  { split; try done.
    - intros t x Hx. apply Hwn. by left.
    - intros t Hl. cbn. rewrite decide_False; [done|].
      destruct Hl as [->|[x Hx]]; [lia|exact (Hold _ _ Hx)].
    - intros t x Hx. cbn. rewrite decide_False; [done|exact (Hold _ _ Hx)].
    - intros j. rewrite HTj. lia. }
  assert (llog g' T = L /\ llog0 g' T = L) as [HlT Hl0T] by (cbn; by rewrite !decide_True).
  assert (L = clog g T i) as HLc 
    by (rewrite <- HTel in Hel, Hnew |- *; by eapply (nk_elect _ _ _ _ _ Hno)).
  assert (wflog c' g' L) as HwfL by (apply (wflog_ext _ _ _ _ He), Hno).
  assert (won c' T i) as Hwon by (apply Hwn; by right).
  exists g'. split; [|done|by left|].
  2: { intros i' j Hi' Hj _. rewrite HTj. intros Hl Hx. subst c'. cbn [nodes] in *. revert Hl Hx.
       node_cases i i'; [|done]. intros _ Hx. rewrite HTel in Hx. by apply Hnew in Hx. }
  eapply ginv_ext; [exact Hg|exact He|..]; auto.
  - intros j Hj. subst c'. cbn [nodes]. node_cases i j.
    + destruct Hno as [H1 H2 H3 H4 H5 H6 H7 H8 H9 H10]. split; rewrite ?HL, ?HT, ?HTel; fold L; try done.
      * congruence.
      * intros e Hin. specialize (H4 e Hin). lia.
      * lia.
      * intros _. split_and!; [by rewrite HlT|done|]. intros j m _ _ Hjm. left. by eapply Hm0.
      * rewrite Hci, <- HTel. eapply (commit_ok_ext _ _ _ _ _ He); [reflexivity|exact H9].
      * rewrite <- HTel. eapply (acks_ext _ _ _ _ He i); [reflexivity|exact H10].
    + eapply node_ok_ext; [exact He|by apply Hg|done|done| |done]. intros Hs. cbn.
      rewrite decide_False; [done|]. intros HTj'. apply (Hnew j). rewrite <- HTj'.
      by apply (inv_node _ _ Hinv j Hj).
  - intros t x [Hx|[-> ->]]%Hwn; [left|right].
    + split; [done|]. cbn. rewrite decide_False; [done|exact (Hold _ _ Hx)].
    + unfold won_ok. rewrite HlT, Hl0T, HTj, HTel. split_and!; try done; try lia.
      * apply Hno.
      * intros e [k Hk]%list_elem_of_lookup.
        destruct (nk_wf _ _ _ _ _ Hno k e Hk) as [[Hz|[x Hx]] _]; [lia|].
        pose proof (nk_terms _ _ _ _ _ Hno e (list_elem_of_lookup_2 _ _ _ Hk)). apply Hold in Hx. lia.
      * intros k e Hk%lookup_lt_Some Hle. lia.
  - intros t x [Hx|[-> ->]]%Hwn; [by left|right].
    destruct (inv_won _ _ Hinv' T i Hwon) as (Q & HQ & Hsz). exists Q. split.
    { split; [|done]. by eapply voted_size. }
    intros v HvQ. destruct (HQ v HvQ) as [Hv Hvote]. cbn in Hvote.
    destruct (gi_votes _ _ _ Hg v T i Hv Hvote) as [l Hl].
    destruct (gi_vlog _ _ _ Hg _ _ _ _ Hl) as (_ & _ & HvT & HiT & (Hwf & Hb & Hacks)).
    rewrite HTj. split; [done|]. exists l.
    eapply (vote_ok_log_ext n c g c' g' He); [done|done|done|done|]. split_and!; [done|done|].
    intros t' k Hk Hlt. destruct (Hacks t' k Hk Hlt) as [?|(t'' & x & Hx & Hr & Hnp')]; [by left|right].
    exists t'', x. split_and!; [done|lia| |done]. pose proof (Hold _ _ Hx). lia.
  - intros j el' Hj [Hx|[HTe Hji]]%Hwn.
    + destruct (Hwk j el' Hj) as [_ Hj']. by eapply (gi_worker _ _ _ Hg).
    + by destruct (Hwk j el' Hj).
  - apply Hg.
  - cbn. rewrite decide_False by lia. apply Hg.
  - apply Hg.
Qed.

Lemma ginv_reply n c i el p reply rf' next fl g :
  0 <= n -> inv n c -> ginv n c g -> 0 <= i < n -> worker c i = Some el ->
  on_reply (ElectionTerm el) (voteCount el) reply (nodes c i) = Ret (rf', next) ->
  let c' := MkCluster (<[i := rf']> (nodes c))
      (<[i := match next with
              | ECount v => Some (MkElection (el_id el) (ElectionTerm el) v (pred (el_left el)))
              | _ => None
              end]> (worker c))
      (delete (el_id el, p) fl) (elections c) (sent c) (votes c)
      (fun t x => won c t x \/ next = EWon /\ t = ElectionTerm el /\ x = i) in
  inv n c' -> exists g', follows n None c g c' g'.
Proof.
  intros Hn0 Hinv Hg Hi Hw Hr c' Hinv'. assert (next = EWon \/ next <> EWon) as [->|Hne] by (destruct next; auto).
  - destruct (on_reply_spec _ _ _ _ _ _ Hr) as (_ & _ & _ & _ & HT & _ & _ & Hs & Hst & _).
    pose proof (ni_n _ _ _ (inv_node _ _ Hinv i Hi)) as Hn.
    assert (0 <= npeers (nodes c i)) as Hn' by lia.
    destruct (on_reply_won _ _ _ _ _ Hn' Hr) as (Hm & Hl & Hc).
    assert (forall j el', (<[i := None]> (worker c)) j = Some el' -> j <> i /\ worker c j = Some el') as Hwk.
    { intros j el'. node_cases i j; [done|]. by intros. }
    eapply ginv_win; [done|done|done|done|done|done|done|done|done|congruence|done|exact Hwk| |exact Hinv'].
    intros t x. naive_solver.
  - exists g. apply (ginv_calm None); auto.
    + by eapply on_reply_calm.
    + intros j el'. node_cases i j; [|eauto]. destruct next; [done|done|]. intros [= <-]. by exists el.
    + intros t x. split; [by intros [?|[? _]]|by left].
Qed.

(** ** The leader's log grows *)

Lemma commit_ok_prefix n c g t L M ci : L `prefix_of` M -> commit_ok n c g t L ci -> commit_ok n c g t M ci.
Proof.
  intros HM [Hr H]. pose proof (prefix_length _ _ HM). unfold zlen in *. split; [unfold zlen; lia|].
  destruct H as [?|(t' & k & Ht & Hc & Hk & Hp)]; [by left|right]. exists t', k.
  by rewrite <- (prefix_take (S (Z.to_nat ci)) L M) by (done || lia).
Qed.

Lemma wflog_snoc c g L e :
  wflog c g L -> legit c (Term e) -> L ++ [e] `prefix_of` llog g (Term e) -> wflog c g (L ++ [e]).
Proof.
  intros HL Hle Hp k e' [Hk|[Hge Hk]]%lookup_app_Some.
  - pose proof (lookup_lt_Some _ _ _ Hk). rewrite take_app_le by lia. by apply HL.
  - apply list_lookup_singleton_Some in Hk as [Hk <-]. by rewrite take_ge by (rewrite length_app; cbn; lia).
Qed.

Lemma ginv_Start n c g i command :
  0 <= n -> inv n c -> ginv n c g -> 0 <= i < n ->
  exists g', follows n None c g (with_node i (Start command (nodes c i)).1 c) g'.
Proof.
  intros Hn0 Hinv Hg Hi. unfold Start. destruct (killed (nodes c i)).
  { exists g. apply (ginv_calm None); eauto. done. }
  case_decide as Hst; [exists g; apply (ginv_calm None); eauto; done|]. cbn [fst].
  pose proof (gi_node _ _ _ Hg i Hi) as Hno. set (T := CurrentTerm (nodes c i)) in *.
  set (L := Log (nodes c i)) in *. set (e := MkLogEntry T command). set (rf' := persist _).
  assert (won c T i) as Hwon by by apply (inv_node _ _ Hinv i Hi).
  assert (forall x, won c T x -> x = i) as Huniq by (intros x Hx; by eapply won_unique).
  destruct (nk_leader _ _ _ _ _ Hno Hst) as (HL & Hml & Hm). fold T in HL, Hm. fold L in HL.
  destruct (gi_won _ _ _ Hg _ _ Hwon) as (Hrx & HT1 & W1 & W2 & W3 & W4 & W5 & W6).
  set (g' := MkHistory (fun t => if decide (t = T) then L ++ [e] else llog g t) (llog0 g) (clog g) (vlog g) (ack g)).
  set (c' := with_node i rf' c).
  assert (llog g' T = L ++ [e]) as HlT by (cbn; by rewrite decide_True).
  assert (Log rf' = L ++ [e] /\ CurrentTerm rf' = T /\ state rf' = Leader /\ SnapshotIndex rf' = SnapshotIndex (nodes c i) /\
    commitIndex rf' = commitIndex (nodes c i) /\ matchIndex rf' = matchIndex (nodes c i) /\
    nextIndex rf' = nextIndex (nodes c i)) as (EL & ET & Est & ES & Eci & Em & Enx) by done.
  clearbody rf'.
  assert (forall j, CurrentTerm (nodes c' j) = CurrentTerm (nodes c j)) as HTj
    by (intros j; subst c'; cbn; by node_cases i j).
  assert (ext c g c' g') as He.
  { split; try done.
    - intros t _. cbn. case_decide as Ht; [|done]. rewrite Ht, <- HL. by apply prefix_app_r.
    - intros j. by rewrite HTj. }
  assert (wflog c' g' (L ++ [e])) as Hwf.
  { apply wflog_snoc; [apply (wflog_ext _ _ _ _ He), Hno|right; by exists i|].
    change (Term e) with T. by rewrite HlT. }
  exists g'. split; [|done|by left|].
  2: { intros i' j Hi' Hj _. rewrite HTj. subst c'. cbn [nodes with_node]. node_cases i i'; [|done].
       by rewrite Enx. }
  eapply ginv_ext; [exact Hg|exact He|..]; auto.
  - intros j Hj. subst c'. cbn [nodes with_node]. node_cases i j.
    + destruct Hno as [H1 H2 H3 H4 H5 H6 H7 H8 H9 H10]. split; rewrite ?EL, ?ET; try done.
      * congruence.
      * apply lookup_app_l_Some. done.
      * intros e' [Hin|Hin]%elem_of_app; [by apply H4|]. apply list_elem_of_singleton in Hin. by subst e'.
      * rewrite Em, HlT. done.
      * congruence.
      * intros id Hid Hnw. by apply Hnw in Hwon.
      * rewrite Eci. apply (commit_ok_prefix _ _ _ _ L); [by apply prefix_app_r|].
        by apply (commit_ok_ext _ _ _ _ _ He _ T _ _ ltac:(reflexivity)).
      * intros t k Hk. destruct (acks_ext _ _ _ _ He i T T L ltac:(reflexivity) H10 t k Hk) as (? & ? & ? & Hor).
        split_and!; try done. destruct Hor as [?|?]; [left|by right]. by apply prefix_app_r.
    + eapply node_ok_ext; [exact He|by apply Hg|done|done| |done]. intros Hs. cbn.
      rewrite decide_False; [done|]. intros Htj. assert (j = i); [|done]. apply Huniq. rewrite <- Htj.
      by apply (inv_node _ _ Hinv j Hj).
  - intros t x Hx. destruct (decide (t = T)) as [->|Hne].
    + right. pose proof (Huniq x Hx) as ->. unfold won_ok. rewrite HlT, HTj. split_and!; try done; try lia.
      * change (llog0 g' T) with (llog0 g T). apply prefix_app_r. by rewrite HL.
      * intros k e' [Hk|[Hge Hk]]%lookup_app_Some Hle; [|by apply list_lookup_singleton_Some in Hk as [_ <-]].
        apply (W6 k); [by rewrite <- HL|done].
    + left. split; [done|]. cbn. by rewrite decide_False.
  - apply Hg.
  - apply Hg.
  - cbn. rewrite decide_False by lia. apply Hg.
  - apply Hg.
Qed.

(** ** The leader's commit index grows *)

Lemma apply_loop_calm rf rf' msg pc : apply_loop rf = Ret (rf', msg, pc) -> calm None rf rf'.
Proof. unfold apply_loop. intros. case_decide; [case_decide; [done|]|]; inv_res; [calm_done|done]. Qed.

(** [rf'] is the leader [rf] with a new commit index. *)
Definition commits (rf rf' : Raft) : Prop :=
  exists rf1 e m, calm None rf rf1 /\ calm None (rf1 <| commitIndex := m |>) rf' /\
    state rf = Leader /\ state rf' = Leader /\ CurrentTerm rf' = CurrentTerm rf /\ acked rf1 = acked rf /\
    commitIndex rf' = m /\ commitIndex rf < m /\
    npeers rf - npeers rf / 2 <= Z.of_nat (match_count m rf) /\
    idx (Log rf) (idxInLog rf m) = Ret e /\ Term e = CurrentTerm rf.

Lemma apply_body_commits rf rf' msg pc :
  0 <= me rf < npeers rf -> (state rf = Leader -> zlen (matchIndex rf) = npeers rf) ->
  apply_body rf = Ret (rf', msg, pc) -> calm None rf rf' \/ commits rf rf'.
Proof.
  intros Hme Hlen H. unfold apply_body in H. case_decide as Hst; [left; by eapply apply_loop_calm|].
  destruct (minMatch_spec rf) as (m & Hm & Hge & _); [done|by apply Hlen|].
  rewrite Hm in H. cbn [res_bind] in H. case_decide; [|inv_res; by left]. inv_res.
  case_decide as Ht; [inv_res; by left|]. right.
  pose proof (apply_loop_calm _ _ _ _ H) as Hc.
  apply apply_loop_commit in H as (H1 & _ & _ & H2 & _ & _ & H3). fields.
  exists rf, a, m. split_and!; try done; try lia. congruence.
Qed.

Lemma apply_step_commits pc rf rf' msg pc' :
  0 <= me rf < npeers rf -> (state rf = Leader -> zlen (matchIndex rf) = npeers rf) ->
  apply_step pc rf = Ret (rf', msg, pc') -> calm None rf rf' \/ commits rf rf'.
Proof.
  intros Hme Hlen H. unfold apply_step in H.
  assert (forall rf1, calm None rf rf1 -> me rf1 = me rf -> npeers rf1 = npeers rf ->
    matchIndex rf1 = matchIndex rf -> Log rf1 = Log rf -> SnapshotIndex rf1 = SnapshotIndex rf ->
    commitIndex rf1 = commitIndex rf -> state rf1 = state rf -> CurrentTerm rf1 = CurrentTerm rf ->
    apply_body rf1 = Ret (rf', msg, pc') -> calm None rf rf' \/ commits rf rf') as Hbody.
  { intros rf1 Hc E1 E2 E3 E4 E5 E6 E7 E8 Hb. apply apply_body_commits in Hb as [Hb|Hb].
    - left. by etransitivity.
    - right. destruct Hb as (rf2 & e & m & C1 & C2 & S1 & S2 & T1 & A1 & K1 & K2 & K3 & K4 & K5).
      assert (Loglen rf1 = Loglen rf) as EL by (unfold Loglen; by rewrite E4, E5).
      assert (acked rf1 = acked rf) as EA by (unfold acked; by rewrite E1, E3, EL).
      unfold match_count, idxInLog in *. rewrite EA, ?E2, ?E4, ?E5, ?E6, ?E7, ?E8 in *.
      exists rf2, e, m. split_and!; try done; try congruence. by etransitivity.
    - by rewrite E1, E2.
    - by rewrite E2, E3, E7. }
  destruct pc.
  - case_decide; inv_res; [left; calm_done|].
    apply (Hbody (rf <| notifyApply := false |>)); [calm_done|done..|exact H].
  - apply (Hbody (rf <| lastApplied := Z.max (lastApplied rf) applySi |>)); [calm_done|done..|exact H].
  - left. by eapply apply_loop_calm.
Qed.

(** As many positions of the list as values in it are at least [m]. *)
Lemma positions_size (l : list Z) m :
  length (filter (fun k => m <= default (m - 1) (l !! k)) (seq 0 (length l))) =
  length (filter (fun x => m <= x) l).
Proof.
  induction l as [|x l IH] using rev_ind; [done|].
  rewrite length_app, seq_app, !filter_app, !length_app. cbn [length seq Nat.add]. f_equal.
  - rewrite <- IH. f_equal. assert (forall ks, Forall (fun k => (k < length l)%nat) ks ->
      filter (fun k => m <= default (m - 1) ((l ++ [x]) !! k)) ks =
      filter (fun k => m <= default (m - 1) (l !! k)) ks) as Hf.
    { induction 1 as [|k ks Hk _ IHk]; [done|]. rewrite !filter_cons, IHk.
      by rewrite (lookup_app_l l [x]) by done. }
    apply Hf, Forall_seq. lia.
  - rewrite !filter_cons. rewrite list_lookup_middle by done. cbn [from_option]. unfold id. by case_decide.
Qed.

Lemma majority_holders n m rf :
  0 <= n -> Z.Odd n -> zlen (acked rf) = n -> n - n / 2 <= Z.of_nat (match_count m rf) ->
  exists A, majority n A /\ forall v, v ∈ A -> exists x, acked rf !! Z.to_nat v = Some x /\ m <= x.
Proof.
  intros Hn [q Hq] Hl Hh. set (ks := filter (fun k => m <= default (m - 1) (acked rf !! k)) (seq 0 (length (acked rf)))).
  assert (Z.of_nat (length ks) = Z.of_nat (match_count m rf)) as Hks by (unfold ks, match_count; by rewrite positions_size).
  assert (forall k, k ∈ ks -> (k < length (acked rf))%nat /\ exists x, acked rf !! k = Some x /\ m <= x) as Hin.
  { intros k [Hk Hs]%list_elem_of_filter. apply elem_of_seq in Hs. split; [lia|].
    destruct (acked rf !! k) as [x|]; cbn in Hk; [by exists x|lia]. }
  exists (list_to_set (Z.of_nat <$> ks)). split; [split|].
  - intros v Hv. apply elem_of_list_to_set, list_elem_of_fmap in Hv as (k & -> & Hk).
    apply Hin in Hk as [Hk _]. apply elem_of_list_to_set, elem_of_seqZ. unfold zlen in Hl. lia.
  - rewrite size_list_to_set.
    + rewrite length_fmap, Hks. assert (n / 2 = q) as Hd; [|lia].
      symmetry. apply (Z.div_unique_pos n 2 q 1); lia.
    + apply NoDup_fmap_2; [intros ???; lia|]. apply NoDup_filter, NoDup_seq.
  - intros v Hv. apply elem_of_list_to_set, list_elem_of_fmap in Hv as (k & -> & Hk).
    apply Hin in Hk as [_ Hk]. by rewrite Nat2Z.id.
Qed.

Lemma ginv_commit n c g i rf' :
  0 <= n -> Z.Odd n -> inv n c -> ginv n c g -> 0 <= i < n -> commits (nodes c i) rf' ->
  exists g', follows n None c g (with_node i rf' c) g'.
Proof.
  intros Hn0 Hodd Hinv Hg Hi (rf1 & e & m & C1 & C2 & Hst & Hst' & HTe & HA & Hci & Hlt & Hh & He & Ht).
  pose proof (gi_node _ _ _ Hg i Hi) as Hno. set (T := CurrentTerm (nodes c i)) in *.
  set (L := Log (nodes c i)) in *.
  assert (won c T i) as Hwon by by apply (inv_node _ _ Hinv i Hi).
  destruct (nk_leader _ _ _ _ _ Hno Hst) as (HL & Hml & Hm). fold T in HL, Hm. fold L in HL.
  destruct (nk_commit _ _ _ _ _ Hno) as [Hcr _].
  destruct (inv_node _ _ Hinv i Hi) as [Hnp Hme _ _ _ _ _].
  unfold idxInLog in He. rewrite (nk_snap _ _ _ _ _ Hno), Z.sub_0_r in He.
  apply idx_Ret in He as [Hmr He]. fold L in He. pose proof (lookup_lt_Some _ _ _ He) as Hml'.
  set (g' := MkHistory (llog g) (llog0 g) (clog g) (vlog g)
    (fun v t k => ack g v t k \/ v = i /\ t = T /\ (k <= Z.to_nat m)%nat)).
  set (c' := with_node i rf' c).
  assert (Log rf' = L /\ SnapshotIndex rf' = 0 /\ matchIndex rf' = matchIndex (nodes c i) /\
    forall j, 0 <= j -> nextIndex rf' !! Z.to_nat j = nextIndex (nodes c i) !! Z.to_nat j) as (EL & ES & Em & Enx).
  { pose proof (nk_snap _ _ _ _ _ Hno). destruct C2 as [L2 S2 T2 Le2 _ _ N2], C1 as [L1 S1 T1 Le1 _ _ N1]. fields.
    destruct (Le2 Hst') as (Hs1 & _ & M2). destruct (Le1 Hs1) as (_ & _ & M1).
    split_and!; [by rewrite L2|by rewrite S2, S1|by rewrite M2|].
    intros j Hj. rewrite N2 by done. by apply N1. }
  assert (forall j, CurrentTerm (nodes c' j) = CurrentTerm (nodes c j)) as HTj
    by (intros j; subst c'; cbn; by node_cases i j).
  assert (ext c g c' g') as Hext.
  { split; try done; [intros j; by rewrite HTj|]. intros v t k Hk. by left. }
  assert (committed n c' g' T (Z.to_nat m)) as Hcom.
  { split_and!; [by exists i|exists e; cbn; by rewrite <- HL|].
    destruct (majority_holders n m (nodes c i)) as (A & HmA & Hv); [done|done| |by rewrite <- Hnp|].
    { unfold acked. by rewrite zlen_insert. }
    exists A. split; [done|]. intros v HvA. destruct (Hv v HvA) as (x & Hx & Hmx).
    pose proof (majority_range _ _ _ HmA HvA) as Hvr. destruct (decide (v = i)) as [->|Hne]; [right; by split_and!|left].
    unfold acked in Hx. rewrite Hme, list_lookup_insert_ne in Hx by lia.
    destruct (Hm v x) as [->|(k & -> & Hk)]; [lia|done|done|lia|].
    eapply (gi_down _ _ _ Hg); [exact Hk|lia]. }
  exists g'. split; [|done| |].
  2: { intros v t k [?|(-> & -> & _)]; [by left|by right]. }
  2: { intros i' j Hi' Hj _. rewrite HTj. subst c'. cbn [nodes with_node]. node_cases i i'; [|done].
       intros _ _. split_and!; [done|done|by apply Enx]. }
  eapply ginv_ext; [exact Hg|exact Hext|..]; auto.
  - intros j Hj. subst c'. cbn [nodes with_node]. node_cases i j.
    + destruct Hno as [H1 H2 H3 H4 H5 H6 H7 H8 H9 H10]. split; rewrite ?EL, ?HTe; fold T; fold L; try done.
      * intros _. rewrite Em. split_and!; [done|done|]. intros j x Hj0 Hji Hx.
        destruct (Hm j x Hj0 Hji Hx) as [?|(k & -> & Hk)]; [by left|right]. exists k. split; [done|by left].
      * congruence.
      * rewrite Hci. split; [unfold zlen; lia|right]. exists T, (Z.to_nat m). split_and!; [lia|done|lia|].
        change (llog g' T) with (llog g T). rewrite <- HL. apply take_prefix_of.
      * intros t k [Hk|(_ & -> & Hk)].
        -- by apply (acks_ext _ _ _ _ Hext i T T L ltac:(reflexivity) H10).
        -- change (llog g' T) with (llog g T). rewrite <- HL.
           split_and!; [lia|lia|by exists i|left]. unfold upto. change (llog g' T) with (llog g T).
           rewrite <- HL. apply take_prefix_of.
    + eapply node_ok_ext; [exact Hext|by apply Hg|done| |done|done].
      intros t k [?|(-> & _)]; done.
  - intros v t k [?|(-> & -> & _)]; [by left|right]. by rewrite HTj.
  - apply Hg.
  - apply Hg.
  - apply Hg.
  - intros v t k k' [Hk|(-> & -> & Hk)] Hle; [left; by eapply (gi_down _ _ _ Hg)|right]. split_and!; [done|done|lia].
Qed.

(** ** The steps but the attempts *)

Lemma ginv_calls n c g wk fl se :
  ginv n c g -> (forall j, wk j = worker c j \/ wk j = None) ->
  (forall id p a, se id p a -> sent c id p a \/ request_ok n c g a) ->
  follows n None c g (MkCluster (nodes c) wk fl (elections c) se (votes c) (won c)) g.
Proof.
  intros Hg Hwk Hse. set (c' := MkCluster _ _ _ _ _ _ _).
  assert (ext c g c' g) as He by by apply ext_same.
  split; [|done|by left|done].
  eapply ginv_ext; [exact Hg|exact He|..]; subst c'; cbn [nodes sent votes won worker]; auto.
  - intros j Hj. eapply node_ok_ext; [exact He|by apply Hg|done|done|done|done].
  - intros j el Hj. destruct (Hwk j) as [E|E]; rewrite E in Hj; [by eapply gi_worker|done].
  - apply Hg.
  - apply Hg.
  - apply Hg.
Qed.

Lemma GetVote_request n c g i args :
  inv n c -> ginv n c g -> 0 <= i < n -> GetVote_args (nodes c i) = Ret (Some args) ->
  request_ok n c g args.
Proof.
  intros Hinv Hg Hi (Hst & HT & Hc & Hli & Hlt)%GetVote_args_spec.
  destruct (inv_node _ _ Hinv i Hi) as [_ Hme _ _ _ _ _]. pose proof (gi_node _ _ _ Hg i Hi) as Hno.
  unfold request_ok. rewrite Hc, Hme, HT, <- (nk_cand _ _ _ _ _ Hno Hst).
  split_and!; [lia|lia|lia| |done]. rewrite Hli. unfold Loglen. rewrite (nk_snap _ _ _ _ _ Hno). lia.
Qed.

Lemma stop_same c i :
  forall j el, (<[i := None]> (worker c)) j = Some el ->
  exists el', worker c j = Some el' /\ ElectionTerm el' = ElectionTerm el.
Proof. intros j el. node_cases i j; [done|eauto]. Qed.

Lemma gstep_follows n c g c' :
  0 <= n -> Z.Odd n -> inv n c -> inv n c' -> ginv n c g -> gstep local_step n c c' ->
  exists g', follows n None c g c' g'.
Proof.
  intros Hn0 Hodd Hinv Hinv' Hg Hstep. destruct Hstep.
  - by apply ginv_start.
  - exists g. apply ginv_calls; [done|by left|]. intros id' p' a [Hs|(_ & _ & ->)]; [by left|right].
    eapply GetVote_request; [done|done| |done]. by eapply ci_cand, inv_call.
  - exists g. apply ginv_calls; [done|by left|by left].
  - by eapply ginv_handle.
  - by eapply ginv_handle.
  - exists g. apply ginv_calls; [done|by left|by left].
  - exists g. apply ginv_calls; [done|by left|by left].
  - by eapply ginv_reply.
  - exists g. apply ginv_calls; [done|by apply stop_cases|by left].
  - exists g. apply (ginv_calm None); eauto using stop_same. unfold on_abort, stay_follower. calm_done.
  - exists g. apply (ginv_calm None); eauto using stop_same. unfold stay_follower. calm_done.
  - destruct (local_step_calm _ _ H0) as [Hc|[[command ->]|(pc & msg & pc' & Ha)]].
    + exists g. apply (ginv_calm None); eauto.
    + by apply ginv_Start.
    + destruct (inv_node _ _ Hinv i H) as [Hnp Hme _ _ _ _ _].
      apply apply_step_commits in Ha as [Hc|Hc].
      * exists g. apply (ginv_calm None); eauto.
      * by apply ginv_commit.
      * by rewrite Hnp, Hme.
      * intros Hs. rewrite Hnp. by apply (nk_leader _ _ _ _ _ (gi_node _ _ _ Hg i H)).
  - destruct (inv_node _ _ Hinv i H) as [Hnp Hme Hs Hl _ _ _].
    exists g. apply (ginv_calm None); eauto using stop_same. by eapply Make_calm.
Qed.

(** ** The attempts *)

Lemma node_wf n c g i : inv n c -> ginv n c g -> 0 <= i < n -> wf (nodes c i).
Proof.
  intros Hinv Hg Hi. destruct (inv_node _ _ Hinv i Hi).
  pose proof (nk_snap _ _ _ _ _ (gi_node _ _ _ Hg i Hi)). split; [done|lia|done].
Qed.

(** A message of the leader of [t], with its entries up to [m]. *)
Record sent_ok (n : Z) (c : cluster) (g : history) (t : Z) (args : AppendEntriesArgs) (m : nat) : Prop := {
  so_term : ae_Term args = t;
  so_prev : 0 <= PrevLogIndex args;
  so_prev_term : Term <$> llog g t !! Z.to_nat (PrevLogIndex args) = Some (PrevLogTerm args);
  so_last : Z.of_nat m = PrevLogIndex args + zlen (Entries args);
  so_length : (m < length (llog g t))%nat;
  so_elected : (length (llog0 g t) <= S m)%nat;
  so_entries : Entries args = drop (S (Z.to_nat (PrevLogIndex args))) (upto g t m);
  so_commit : LeaderCommit args <= Z.of_nat m;
  so_commit_ok : commit_ok n c g t (llog g t) (LeaderCommit args);
}.

(** The sender's next index for [j] is not past [m]. *)
Definition next_le (rf : Raft) (j t : Z) (m : nat) : Prop :=
  state rf = Leader -> CurrentTerm rf = t ->
  forall x, nextIndex rf !! Z.to_nat j = Some x -> x <= Z.of_nat m + 1.

Definition attempt_ok (n : Z) (c : cluster) (g : history) (i j t : Z) (a : attempt) : Prop :=
  0 <= i < n /\ 0 <= j < n /\ i <> j /\ won c t i /\
  exists m, sent_ok n c g t (at_args a) m /\ next_le (nodes c i) j t m /\
    match at_progress a with
    | Sent => forall k, ack g j t k -> (k <= m)%nat
    | Halfway _ => False
    | Handled reply => Success reply = true -> ack g j t m
    end.

Lemma sent_ok_ext n c g c' g' t args m :
  ext c g c' g' -> (exists x, won c t x) -> sent_ok n c g t args m -> sent_ok n c' g' t args m.
Proof.
  intros He [x Hx] [H1 H2 H3 H4 H5 H6 H7 H8 H9]. assert (legit c t) as Hl by (right; by exists x).
  pose proof (e_llog _ _ _ _ He t Hl) as Hp. pose proof (prefix_length _ _ Hp). split; try done.
  - destruct (llog g t !! _) as [e|] eqn:E; [|done]. by rewrite (prefix_lookup_Some _ _ _ _ E Hp).
  - lia.
  - by rewrite (e_llog0 _ _ _ _ He _ _ Hx).
  - by rewrite (upto_ext _ _ _ _ He).
  - eapply commit_ok_prefix; [exact Hp|]. eapply commit_ok_ext; [exact He|reflexivity|done].
Qed.

Lemma attempt_ok_ext n c g c' g' i j t a :
  ext c g c' g' -> (at_progress a = Sent -> forall k, ack g' j t k -> ack g j t k) ->
  (state (nodes c' i) = Leader -> CurrentTerm (nodes c' i) = t -> state (nodes c i) = Leader /\
    CurrentTerm (nodes c i) = t /\
    nextIndex (nodes c' i) !! Z.to_nat j = nextIndex (nodes c i) !! Z.to_nat j) ->
  attempt_ok n c g i j t a -> attempt_ok n c' g' i j t a.
Proof.
  intros He Hack Hnx (Hi & Hj & Hij & Hw & m & Hs & Hle & Hr). split_and!; try done; try lia.
  { by apply (e_won _ _ _ _ He). }
  exists m. split_and!.
  - eapply sent_ok_ext; [done|by exists i|done].
  - intros Hst HT x. destruct (Hnx Hst HT) as (Hst' & HT' & ->). by apply Hle.
  - destruct (at_progress a); [by auto|done|]. intros Hsu. by apply (e_ack _ _ _ _ He), Hr.
Qed.

Lemma attempt_follows n sv c g c' g' i j t a :
  0 <= n -> inv n c -> follows n sv c g c' g' -> 
  (sv = Some (i, j) -> state (nodes c' i) = Leader -> CurrentTerm (nodes c' i) <> t) ->
  attempt_ok n c g i j t a -> attempt_ok n c' g' i j t a.
Proof.
  intros Hn Hinv Hf Hsv Ha. pose proof Ha as (Hi & Hj & Hij & Hw & _).
  eapply attempt_ok_ext; [apply Hf| | |done].
  - intros _ k Hk. destruct (fo_ack _ _ _ _ _ _ Hf _ _ _ Hk) as [|Hwj]; [done|].
    destruct Hij. by eapply won_unique.
  - intros Hst HT.
    destruct (fo_next _ _ _ _ _ _ Hf i j Hi ltac:(lia)) as (? & ? & ?); [naive_solver|done|by rewrite HT|].
    split_and!; [done|congruence|done].
Qed.

(** *** Sending *)

Lemma prepare_sends_AE server t c isRetry rf rf' term args :
  prepare server t c isRetry rf = Ret (rf', SendAE term args) ->
  t = CurrentTerm rf /\ ae_Term args = t /\ state rf = Leader /\ LeaderCommit args = commitIndex rf /\
  state rf' = Leader /\ CurrentTerm rf' = t /\ Log rf' = Log rf /\
  (SnapshotIndex rf = 0 -> nextIndex rf' !! Z.to_nat server = Some (PrevLogIndex args + 1)).
Proof.
  unfold prepare, prepare_entries. intros. case_decide; [by inv_res|]. case_decide as Ht; [by inv_res|]. inv_res.
  assert (exists l, a0 = rf <| nextIndex := l |> /\ l !! Z.to_nat server = Some a1) as (l & -> & Hl).
  { apply idx_Ret in E1 as [? E1]. clear H. case_decide; inv_res; [by eexists|].
    exists (nextIndex a0). by destruct a0. }
  clear E0. case_decide as Hsn; inv_res. case_decide as Hst; inv_res. fields.
  destruct isRetry; fields; cbn; (split_and!; try done); intros; case_decide; try lia; rewrite Hl; f_equal; lia.
Qed.

Lemma send_ok n c g i j t ctx isRetry ri term args :
  0 <= n -> inv n c -> ginv n c g -> 0 <= i < n -> 0 <= j < n -> i <> j ->
  prepare j t ctx isRetry (nodes c i) = Ret (ri, SendAE term args) ->
  let c' := with_node i ri c in
  follows n (Some (i, j)) c g c' g /\ CurrentTerm (nodes c' i) = t /\
  attempt_ok n c' g i j t (MkAttempt ctx args Sent).
Proof.
  intros Hn Hinv Hg Hi Hj Hij Hp c'.
  pose proof (node_wf _ _ _ _ Hinv Hg Hi) as Hwf. pose proof (gi_node _ _ _ Hg i Hi) as Hno.
  destruct (prepare_AE _ _ _ _ _ _ _ _ Hwf Hp) as (Hsn & (e & He & Hte) & Hlen & Hent).
  destruct (prepare_sends_AE _ _ _ _ _ _ _ _ Hp) as (Ht & Hta & Hst & HLC & Hst' & HT' & HL' & Hnx).
  pose proof (prepare_calm _ _ _ _ _ _ _ Hp) as Hcalm. pose proof (nk_snap _ _ _ _ _ Hno) as Hs0.
  destruct (nk_leader _ _ _ _ _ Hno Hst) as (HL & _ & _). rewrite <- Ht in HL.
  assert (won c t i) as Hwon by (rewrite Ht; by apply (inv_node _ _ Hinv i Hi)).
  destruct (gi_won _ _ _ Hg _ _ Hwon) as (_ & _ & _ & W2 & _). apply prefix_length in W2.
  assert (follows n (Some (i, j)) c g c' g) as Hf by (apply (ginv_calm (Some j)); eauto; done).
  pose proof (entry_at_lt _ _ _ He) as Hat. unfold Loglen, zlen in Hat, Hlen.
  destruct (nk_commit _ _ _ _ _ Hno) as [Hcr _]. unfold zlen in Hcr. rewrite HL, Hs0 in *.
  assert (entry_at (nodes c i) (PrevLogIndex args) = llog g t !! Z.to_nat (PrevLogIndex args)) as Hpe.
  { unfold entry_at. rewrite HL, Hs0. case_decide; [f_equal; lia|lia]. }
  split; [done|]. split; [subst c'; cbn; by rewrite fn_lookup_insert|].
  split_and!; try done; try lia. exists (length (llog g t) - 1)%nat. cbn [at_args at_progress]. split_and!.
  - apply (sent_ok_ext n c g); [apply Hf|by exists i|]. split; try done; try lia.
    + rewrite <- Hpe, He. cbn. by rewrite Hte.
    + unfold zlen. lia.
    + unfold upto. rewrite take_ge by lia. apply list_eq. intros k. rewrite <- Hent, lookup_drop.
      unfold entry_at. rewrite HL, Hs0. case_decide; [f_equal; lia|lia].
    + rewrite HLC, <- HL. rewrite Ht. apply Hno.
  - intros _ _ x. subst c'. cbn. rewrite fn_lookup_insert, Hnx by done. intros [= <-]. lia.
  - intros k Hk. destruct (nk_acks _ _ _ _ _ (gi_node _ _ _ Hg j Hj) t k Hk) as (_ & ? & _). lia.
Qed.

(** *** Delivery *)

Lemma AE_check_calm args rf rf' reply go :
  AE_check args rf = Ret (rf', reply, go) ->
  calm None rf rf' /\ (go = true -> state rf' = Follower /\ CurrentTerm rf' = ae_Term args).
Proof.
  unfold AE_check. intros. case_decide; [by inv_res|]. inv_res. apply cancel_if_leader_eq in E as [cs ->].
  set (rf0 := (rf <| cancelled := cs |>) <| state := Follower |>) in *.
  assert (calm None rf (try_rst (me (see_term (ae_Term args) rf0)) (see_term (ae_Term args) rf0)) /\
    state (see_term (ae_Term args) rf0) = Follower /\
    CurrentTerm (see_term (ae_Term args) rf0) = ae_Term args) as (Hc & Hst & HT).
  { assert (calm None rf rf0) as H1 by (unfold rf0; calm_done).
    assert (CurrentTerm rf0 = CurrentTerm rf /\ state rf0 = Follower) as [HT0 Hs0] by done.
    clearbody rf0. destruct (decide (ae_Term args > CurrentTerm rf0)).
    - rewrite see_term_new by done. split_and!; try done. etransitivity; [exact H1|].
      split; try reflexivity; try (by left); unfold try_rst, persist; fields; (lia || congruence).
    - rewrite see_term_old by done. split_and!; [|done|lia]. etransitivity; [exact H1|calm_done]. }
  assert (state (try_rst (me (see_term (ae_Term args) rf0)) (see_term (ae_Term args) rf0)) = Follower /\
    CurrentTerm (try_rst (me (see_term (ae_Term args) rf0)) (see_term (ae_Term args) rf0)) = ae_Term args)
    as [Hst1 HT1] by done.
  clear Hst HT. revert H0. set (rf1 := try_rst _ _) in *. fields. intros H0. clearbody rf1.
  case_decide; inv_res; [done|]. destruct a; inv_res; done.
Qed.

(** What a success does to the log and the commit index. *)
Record accepted (args : AppendEntriesArgs) (rf rf' : Raft) : Prop := {
  ac_term : CurrentTerm rf <= ae_Term args /\ CurrentTerm rf' = ae_Term args /\ state rf' = Follower;
  ac_snap : SnapshotIndex rf' = SnapshotIndex rf;
  ac_prev : Term <$> Log rf !! Z.to_nat (PrevLogIndex args) = Some (PrevLogTerm args);
  ac_log : let keep := Z.max (commitIndex rf) (PrevLogIndex args) in
    Log rf' = Log rf /\ PrevLogIndex args + zlen (Entries args) <= keep \/
    Log rf' = take (S (Z.to_nat keep)) (Log rf) ++ drop (Z.to_nat (keep - PrevLogIndex args)) (Entries args) /\
      keep <= PrevLogIndex args + zlen (Entries args);
  ac_commit : commitIndex rf' = commitIndex rf \/
    commitIndex rf < LeaderCommit args /\ commitIndex rf' = Z.min (LeaderCommit args) (Loglen rf' - 1);
}.

Lemma AE_commit_cases args rf :
  Log (AE_commit args rf) = Log rf /\ CurrentTerm (AE_commit args rf) = CurrentTerm rf /\
  state (AE_commit args rf) = state rf /\ SnapshotIndex (AE_commit args rf) = SnapshotIndex rf /\
  (commitIndex (AE_commit args rf) = commitIndex rf \/
   commitIndex rf < LeaderCommit args /\
   commitIndex (AE_commit args rf) = Z.min (LeaderCommit args) (Loglen (AE_commit args rf) - 1)).
Proof.
  unfold AE_commit. case_decide; [|split_and!; auto]. split_and!; try done. right. split; [lia|done].
Qed.

Lemma handle_AE_cases args rf rf' reply :
  wf rf -> SnapshotIndex rf = 0 -> 0 <= PrevLogIndex args -> commitIndex rf < Loglen rf ->
  handle_AE args rf = Ret (rf', reply) ->
  if Success reply then accepted args rf rf' else calm None rf rf'.
Proof.
  intros Hwf Hs Hp Hc H. unfold handle_AE, AppendEntries in H.
  destruct (AE_check_spec args rf Hwf) as (rf1 & r & go & Hr & HL & HS & Hci & Hwf1 & Hgo & Hiff & _); [lia|].
  rewrite Hr in H. cbn [res_bind] in H. destruct (AE_check_calm _ _ _ _ _ Hr) as [Hcalm Hf].
  destruct go; [|inv_res; by rewrite <- Hgo].
  destruct (Hf eq_refl) as [Hst HT]. destruct (proj1 Hiff eq_refl) as (HTle & e & He & Hte).
  pose proof (entry_at_lt _ _ _ He) as Hat.
  assert (Loglen rf1 = Loglen rf) as HLL by (unfold Loglen; by rewrite HL, HS).
  replace (if decide (zlen (Entries args) > 0) then rf1 else rf1) with rf1 in H by (by case_decide).
  inv_res. rewrite <- Hgo. unfold entry_at in He. rewrite Hs in He. case_decide; [|lia].
  rewrite Z.sub_0_r in He.
  assert (Term <$> Log rf !! Z.to_nat (PrevLogIndex args) = Some (PrevLogTerm args)) as Hprev
    by (rewrite He; cbn; by rewrite Hte).
  unfold AE_store in E. case_decide as Hlen.
  - rewrite (AE_entries_eq args rf1) in E by (rewrite ?HLL, ?HS, ?Hs; lia). case_decide as Hshort; inv_res.
    + rewrite Hci in Hshort. split; try done; [|by left]. cbn. left. split; [done|lia].
    + match goal with |- accepted _ _ (AE_commit _ ?r) => set (rf2 := r) end.
      destruct (AE_commit_cases args rf2) as (C1 & C2 & C3 & C4 & C5).
      assert (CurrentTerm rf2 = CurrentTerm rf1 /\ state rf2 = state rf1 /\ SnapshotIndex rf2 = SnapshotIndex rf1 /\
        commitIndex rf2 = commitIndex rf1) as (D1 & D2 & D3 & D4) by done.
      assert (Log rf2 = take (Z.to_nat (Z.max (commitIndex rf1) (PrevLogIndex args) + 1 - SnapshotIndex rf1)) (Log rf1) ++
        drop (Z.to_nat (Z.max (commitIndex rf1) (PrevLogIndex args) - PrevLogIndex args)) (Entries args)) as D5 by done.
      clearbody rf2. split; try congruence.
      * split_and!; [done|congruence|congruence].
      * cbn. right. rewrite C1, D5, HL, HS, Hci, Hs in *. split; [f_equal; f_equal; lia|lia].
  - inv_res. destruct (AE_commit_cases args rf1) as (C1 & C2 & C3 & C4 & C5).
    split; try congruence.
    + split_and!; [done|congruence|congruence].
    + cbn. left. split; [congruence|lia].
Qed.

(** After a success the log holds the leader's entries up to [m], and what was committed. *)
Lemma accepted_log n c g i j t args m rf rf' :
  0 <= n -> ginv n c g -> won c t i -> node_ok n c g j rf -> sent_ok n c g t args m ->
  accepted args rf rf' ->
  (Log rf' = Log rf \/ Log rf' = upto g t m) /\ upto g t m `prefix_of` Log rf' /\
  take (S (Z.to_nat (commitIndex rf))) (Log rf') = take (S (Z.to_nat (commitIndex rf))) (Log rf) /\
  commitIndex rf < zlen (Log rf').
Proof.
  intros Hn Hg Hw Hno [Ht HP Hpt Hlast Hmlen Hel Hent HLC HLCok] [[HT _] _ Hprev Hlog _].
  destruct (nk_commit _ _ _ _ _ Hno) as [Hcr Hcom]. set (ci := commitIndex rf) in *.
  set (P := PrevLogIndex args) in *. set (keep := Z.max ci P) in *. cbv zeta in Hlog.
  destruct (gi_won _ _ _ Hg _ _ Hw) as (_ & _ & _ & _ & _ & Hwf & _).
  assert (take (S (Z.to_nat P)) (Log rf) = take (S (Z.to_nat P)) (llog g t) /\ P < zlen (Log rf)) as [HtP HPlen].
  { destruct (Log rf !! Z.to_nat P) as [e|] eqn:E1; [|done].
    destruct (llog g t !! Z.to_nat P) as [e'|] eqn:E2; [|done]. cbn in Hprev, Hpt.
    split; [|apply lookup_lt_Some in E1; unfold zlen; lia].
    eapply log_match; [apply Hno|exact Hwf|done|done|congruence]. }
  assert (take (S (Z.to_nat keep)) (Log rf) = take (S (Z.to_nat keep)) (llog g t)) as Hkeep.
  { unfold keep. destruct (decide (ci <= P)); [by rewrite Z.max_r by lia|]. rewrite Z.max_l by lia.
    destruct Hcom as [?|(t' & k & Ht' & Hc & Hk & Hp)]; [lia|].
    apply take_prefix_le; [|unfold zlen in Hcr; lia].
    etransitivity; [|eapply (completeness_le n c g Hn Hg t' k t); [done|done|lia]].
    eapply prefix_le; [exact Hp|apply take_prefix_of|]. rewrite upto_length, length_take by (by eapply committed_length). lia. }
  assert (forall q, (q <= S (Z.to_nat keep))%nat -> take q (Log rf) = take q (llog g t)) as Hq.
  { intros q Hq. rewrite <- (Nat.min_l q (S (Z.to_nat keep))) by done. rewrite <- !take_take. by rewrite Hkeep. }
  destruct Hlog as [[HL Hle]|[HL Hle]].
  - split_and!; [by left| |by rewrite HL|rewrite HL; lia]. rewrite HL. unfold upto.
    rewrite <- Hq by lia. apply take_prefix_of.
  - assert (Log rf' = upto g t m) as Hup.
    { rewrite HL, Hent, drop_drop, Hkeep.
      replace (S (Z.to_nat P) + Z.to_nat (keep - P))%nat with (S (Z.to_nat keep)) by lia.
      rewrite <- (take_drop (S (Z.to_nat keep)) (upto g t m)) at 2. f_equal.
      unfold upto. rewrite take_take. f_equal. lia. }
    split_and!; [by right|by rewrite Hup| |].
    + rewrite Hup, Hq by lia. unfold upto. rewrite take_take. f_equal. lia.
    + rewrite Hup. unfold zlen. rewrite upto_length by done. lia.
Qed.

(** The receiver of an accepted message has agreed with the leader up to [m]. *)
Definition with_ack (v t : Z) (m : nat) (g : history) : history :=
  MkHistory (llog g) (llog0 g) (clog g) (vlog g)
    (fun v' t' k => ack g v' t' k \/ v' = v /\ t' = t /\ (k <= m)%nat).

Lemma with_ack_ext c c' g v t m :
  (forall t x, won c t x -> won c' t x) ->
  (forall i, CurrentTerm (nodes c i) <= CurrentTerm (nodes c' i)) -> ext c g c' (with_ack v t m g).
Proof. intros Hw Ht. split; try done. intros v' t' k Hk. by left. Qed.

(** The agreements of the receiver, with its new log. *)
Lemma accepted_acks n c g i j t args m rj c' :
  0 <= n -> ginv n c g -> 0 <= j < n -> won c t i -> won c' t i -> sent_ok n c g t args m ->
  ext c g c' (with_ack j t m g) ->
  (forall k, ack g j t k -> (k <= m)%nat) -> accepted args (nodes c j) rj ->
  forall t' k, ack (with_ack j t m g) j t' k ->
    t' <= t /\ (k < length (llog g t'))%nat /\ (exists x, won c' t' x) /\
    (upto g t' k `prefix_of` Log rj \/ lost_between c' (with_ack j t m g) t' k t).
Proof.
  intros Hn Hg Hj Hw Hw' Hso He Hm Hac t' k Hk. pose proof (gi_node _ _ _ Hg j Hj) as Hno.
  destruct (accepted_log _ _ _ _ _ _ _ _ _ _ Hn Hg Hw Hno Hso Hac) as (Hlog & Hup & _).
  destruct Hac as [[HT _] _ _ _ _]. rewrite (so_term _ _ _ _ _ _ Hso) in HT.
  destruct Hk as [Hk|(_ & -> & Hk)].
  2: { pose proof (so_length _ _ _ _ _ _ Hso). split_and!; [lia|lia|by exists i|left].
       etransitivity; [by apply upto_mono|done]. }
  destruct (acks_ext _ _ _ _ He j _ t (Log (nodes c j)) HT (nk_acks _ _ _ _ _ Hno) t' k Hk)
    as (Ht' & Hlen & Hx & Hor).
  split_and!; [done|done|done|]. destruct Hor as [Hp|?]; [|by right].
  destruct Hlog as [->|Hlog]; [by left|].
  destruct (decide (t' = t)) as [->|Hne].
  { left. etransitivity; [|exact Hup]. by apply upto_mono, Hm. }
  destruct (decide (upto g t' k `prefix_of` llog0 g t)) as [H0|H0].
  - left. etransitivity; [|exact Hup]. destruct (gi_won _ _ _ Hg _ _ Hw) as (_ & _ & _ & W & _).
    etransitivity; [exact H0|]. eapply prefix_le; [exact W|apply take_prefix_of|].
    pose proof (so_elected _ _ _ _ _ _ Hso). rewrite upto_length by apply Hso. lia.
  - right. exists t, i. split_and!; [done|lia|lia|done].
Qed.

Lemma accepted_node n c g i j t args m rj c' :
  0 <= n -> ginv n c g -> 0 <= j < n -> won c t i -> won c' t i -> sent_ok n c g t args m ->
  ext c g c' (with_ack j t m g) ->
  (forall k, ack g j t k -> (k <= m)%nat) -> accepted args (nodes c j) rj ->
  node_ok n c' (with_ack j t m g) j rj.
Proof.
  intros Hn Hg Hj Hw Hw' Hso He Hm Hac. pose proof (gi_node _ _ _ Hg j Hj) as Hno.
  pose proof (accepted_acks _ _ _ _ _ _ _ _ _ _ Hn Hg Hj Hw Hw' Hso He Hm Hac) as Hacks.
  destruct (accepted_log _ _ _ _ _ _ _ _ _ _ Hn Hg Hw Hno Hso Hac) as (Hlog & Hup & Htake & Hci).
  destruct Hac as [(HT & HT' & Hst) HS _ _ Hcommit]. rewrite (so_term _ _ _ _ _ _ Hso) in HT, HT'.
  pose proof (gi_won _ _ _ Hg _ _ Hw) as (_ & Ht1 & _ & W2 & W3 & W4 & _).
  pose proof (so_length _ _ _ _ _ _ Hso) as Hml.
  assert (wflog c g (upto g t m)) as Hwfu by (eapply wflog_prefix; [exact W4|apply take_prefix_of]).
  destruct (nk_commit _ _ _ _ _ Hno) as [Hcr Hcom].
  split; rewrite ?HT'; try done.
  - rewrite HS. apply Hno.
  - destruct Hlog as [-> | ->]; [apply Hno|]. unfold upto. rewrite lookup_take_lt by lia.
    by eapply prefix_lookup_Some.
  - apply (wflog_ext _ _ _ _ He). destruct Hlog as [-> | ->]; [apply Hno|done].
  - intros e. destruct Hlog as [-> | ->].
    + intros He'. pose proof (nk_terms _ _ _ _ _ Hno e He'). lia.
    + intros He'. eapply (llog_terms n c g Hg); [exact Hw|]. by eapply elem_of_prefix, take_prefix_of.
  - lia.
  - congruence.
  - congruence.
  - intros id _ Hnw. by apply Hnw in Hw'.
  - destruct Hcommit as [-> | [Hlt ->]].
    + split; [lia|]. destruct (commit_ok_ext _ _ _ _ _ He _ t _ _ HT (conj Hcr Hcom)) as [_ [?|H]]; [by left|right].
      by rewrite Htake.
    + pose proof (so_commit _ _ _ _ _ _ Hso) as HLC. pose proof (prefix_length _ _ Hup) as Hpl.
      rewrite upto_length in Hpl by done. unfold Loglen. rewrite HS, (nk_snap _ _ _ _ _ Hno).
      assert (Z.min (LeaderCommit args) (zlen (Log rj) + 0 - 1) = LeaderCommit args) as -> by (unfold zlen; lia).
      destruct (commit_ok_ext _ _ _ _ _ He _ t _ _ ltac:(reflexivity) (so_commit_ok _ _ _ _ _ _ Hso)) as [Hr H].
      split; [unfold zlen; lia|]. destruct H as [?|(t' & k & Ht' & Hc & Hk & Hp)]; [by left|right].
      exists t', k. split_and!; [done|done|done|].
      replace (take (S (Z.to_nat (LeaderCommit args))) (Log rj)) with
        (take (S (Z.to_nat (LeaderCommit args))) (llog g t)); [done|].
      rewrite <- (prefix_take _ _ _ Hup) by (rewrite upto_length by done; lia).
      unfold upto. rewrite take_take. f_equal. lia.
Qed.

Lemma ginv_accept n c g i j t args m rj :
  0 <= n -> inv n c -> ginv n c g -> 0 <= j < n -> won c t i -> sent_ok n c g t args m ->
  (forall k, ack g j t k -> (k <= m)%nat) -> accepted args (nodes c j) rj ->
  ginv n (with_node j rj c) (with_ack j t m g) /\ ext c g (with_node j rj c) (with_ack j t m g).
Proof.
  intros Hn Hinv Hg Hj Hw Hso Hm Hac. set (c' := with_node j rj c).
  pose proof Hac as [(HT & HT' & Hst) _ _ _ _]. rewrite (so_term _ _ _ _ _ _ Hso) in HT, HT'.
  assert (ext c g c' (with_ack j t m g)) as He.
  { apply with_ack_ext; [done|]. intros v. subst c'. cbn. node_cases j v; lia. }
  split; [|done]. eapply ginv_ext; [exact Hg|exact He|..]; auto.
  - intros v Hv. subst c'. cbn [nodes with_node]. node_cases j v.
    + by eapply accepted_node.
    + eapply node_ok_ext; [exact He|by apply Hg|done| |done|done].
      intros t' k [?|(-> & _)]; done.
  - intros v t' k [?|(-> & -> & _)]; [by left|right]. subst c'. cbn. by rewrite fn_lookup_insert.
  - apply Hg.
  - apply Hg.
  - apply Hg.
  - intros v t' k k' [Hk|(-> & -> & Hk)] Hle; [left; by eapply (gi_down _ _ _ Hg)|right]. split_and!; [done|done|lia].
Qed.

(** *** The reply *)

(** [rf] takes a success of [server]: its new match index is [m]. *)
Record matched (server m : Z) (rf rf' : Raft) : Prop := {
  ma_log : Log rf' = Log rf;
  ma_snap : SnapshotIndex rf' = SnapshotIndex rf;
  ma_term : CurrentTerm rf' = CurrentTerm rf;
  ma_commit : commitIndex rf' = commitIndex rf;
  ma_state : state rf = Leader /\ state rf' = Leader;
  ma_match : matchIndex rf' = <[Z.to_nat server := m]> (matchIndex rf);
  ma_next : forall j, 0 <= j -> j <> server ->
    nextIndex rf' !! Z.to_nat j = nextIndex rf !! Z.to_nat j;
}.

Lemma on_AE_success_cases server c term args rf rf' n :
  on_AE_success server c term args rf = Ret (rf', n) ->
  calm None rf rf' \/
  0 <= server /\ CurrentTerm rf = term /\ exists x, nextIndex rf !! Z.to_nat server = Some x /\
    matched server (Z.max x (PrevLogIndex args + zlen (Entries args) + 1) - 1) rf rf'.
Proof.
  unfold on_AE_success, still_leader. intros H. case_decide as Hst; [inv_res; left; calm_done|].
  case_decide as HT; [inv_res; by left|]. right. inv_res. fields.
  pose proof E as [? Ex]%idx_Ret. apply set_idx_Ret in E0 as [? ->], E2 as [? ->].
  apply idx_Ret in E1 as [_ E1]. rewrite list_lookup_insert_eq in E1 by (unfold zlen in *; lia).
  injection E1 as <-. split_and!; [lia|done|]. exists a. split; [done|].
  split; fields; try done. intros j Hj Hne. apply list_lookup_insert_ne. lia.
Qed.

Lemma ginv_matched n c g i j k ri :
  inv n c -> ginv n c g -> 0 <= i < n -> 0 <= j < n -> i <> j ->
  matched j (Z.of_nat k) (nodes c i) ri -> ack g j (CurrentTerm (nodes c i)) k ->
  follows n (Some (i, j)) c g (with_node i ri c) g.
Proof.
  intros Hinv Hg Hi Hj Hij [EL ES ET EC [Est Est'] EM EN] Hk. set (c' := with_node i ri c).
  pose proof (gi_node _ _ _ Hg i Hi) as Hno.
  assert (ext c g c' g) as He by (apply ext_same; [done|]; intros v; subst c'; cbn; node_cases i v; lia).
  split; [|done|by left|].
  2: { intros i' j' Hi' Hj' Hne. subst c'. cbn [nodes with_node]. node_cases i i'; [|done].
       intros _ _. split_and!; [done|done|]. apply EN; [done|]. intros ->. by apply Hne. }
  eapply ginv_ext; [exact Hg|exact He|..]; auto.
  - intros v Hv. subst c'. cbn [nodes with_node]. node_cases i v.
    + eapply node_ok_ext; [exact He| |done|done|done|done].
      destruct Hno as [H1 H2 H3 H4 H5 H6 H7 H8 H9 H10].
      split; rewrite ?EL, ?ES, ?ET, ?EC; try done; [|congruence].
      intros _. destruct (H6 Est) as (HL & Hlen & Hm). split_and!; [done|by rewrite EM, zlen_insert|].
      intros j' m Hj' Hne. rewrite EM. destruct (decide (j' = j)) as [->|].
      * intros Hx. right. exists k. split; [|done].
        apply list_lookup_insert_Some in Hx as [(_ & <- & _)|[? _]]; [done|lia].
      * rewrite list_lookup_insert_ne by lia. by apply Hm.
    + eapply node_ok_ext; [exact He|by apply Hg|done|done|done|done].
  - apply Hg.
  - apply Hg.
  - apply Hg.
  - apply Hg.
Qed.

Lemma reply_ok n c g i j t ctx args reply ri next :
  inv n c -> ginv n c g -> attempt_ok n c g i j t (MkAttempt ctx args (Handled reply)) ->
  CurrentTerm (nodes c i) = t -> on_AE_reply j ctx t args reply (nodes c i) = Ret (ri, next) ->
  follows n (Some (i, j)) c g (with_node i ri c) g.
Proof.
  intros Hinv Hg (Hi & Hj & Hij & Hw & m & Hso & Hnx & Hr) HT H. unfold on_AE_reply in H. cbn [at_args at_progress] in *.
  destruct (Success reply) eqn:Hs.
  - apply on_AE_success_cases in H as [Hc|(_ & _ & x & Hx & Hm)].
    + apply (ginv_calm (Some j)); eauto using calm_any.
    + pose proof (Hnx (proj1 (ma_state _ _ _ _ Hm)) HT _ Hx) as Hle. pose proof (so_last _ _ _ _ _ _ Hso) as Hlast.
      replace (Z.max x _ - 1) with (Z.of_nat m) in Hm by lia.
      eapply ginv_matched; [done..|exact Hm|]. rewrite HT. by apply Hr.
  - apply on_AE_failure_calm in H. apply (ginv_calm (Some j)); eauto.
Qed.

(** ** The invariant of the whole system *)

Definition sys_inv (n : Z) (s : system) (g : history) : Prop :=
  inv n (peers s) /\ ginv n (peers s) g /\
  forall i j t a, attempts s !! (i, j, t) = Some a -> attempt_ok n (peers s) g i j t a.

Lemma attempts_follow n sv s g c' g' :
  0 <= n -> sys_inv n s g -> follows n sv (peers s) g c' g' ->
  forall i j t a, attempts s !! (i, j, t) = Some a ->
  (sv = Some (i, j) -> state (nodes c' i) = Leader -> CurrentTerm (nodes c' i) <> t) ->
  attempt_ok n c' g' i j t a.
Proof. intros Hn (Hinv & _ & Ha) Hf i j t a Hat Hsv. eapply attempt_follows; [done|exact Hinv|exact Hf|exact Hsv|by apply Ha]. Qed.


Lemma on_timeout_calm server c term rf : calm None rf (on_timeout server c term rf).1.
Proof. unfold on_timeout. etransitivity; [|apply still_leader_calm]. calm_done. Qed.

Lemma deliver_step (n : Z) (c : cluster) (g : history) (ats : gmap (Z * Z * Z) attempt) (i j t : Z) ctx args rj reply :
  0 <= n -> inv n c -> ginv n c g ->
  (forall i j t a, ats !! (i, j, t) = Some a -> attempt_ok n c g i j t a) ->
  ats !! (i, j, t) = Some (MkAttempt ctx args Sent) ->
  handle_AE args (nodes c j) = Ret (rj, reply) ->
  let c' := with_node j rj c in
  exists g', ginv n c' g' /\ ext c g c' g' /\
    forall i' j' t' a, <[(i, j, t) := MkAttempt ctx args (Handled reply)]> ats !! (i', j', t') = Some a ->
      attempt_ok n c' g' i' j' t' a.
Proof.
  intros Hn Hinv Hg Hats Hat Hh c'.
  pose proof (Hats _ _ _ _ Hat) as (Hi & Hj & Hij & Hw & m & Hso & Hnx & Hack). cbn [at_args at_progress] in *.
  pose proof (gi_node _ _ _ Hg j Hj) as Hno. pose proof (nk_snap _ _ _ _ _ Hno) as Hs0.
  destruct (nk_commit _ _ _ _ _ Hno) as [Hcr _].
  assert (commitIndex (nodes c j) < Loglen (nodes c j)) as Hcl by (unfold Loglen; lia).
  pose proof (handle_AE_cases _ _ _ _ (node_wf _ _ _ _ Hinv Hg Hj) Hs0 (so_prev _ _ _ _ _ _ Hso) Hcl Hh) as Hcases.
  destruct (Success reply) eqn:Hsu.
  - destruct (ginv_accept _ _ _ _ _ _ _ _ _ Hn Hinv Hg Hj Hw Hso Hack Hcases) as [Hg' He].
    exists (with_ack j t m g). split_and!; [done|done|].
    assert (forall i' j' t', state (nodes c' i') = Leader -> CurrentTerm (nodes c' i') = t' ->
      state (nodes c i') = Leader /\ CurrentTerm (nodes c i') = t' /\
      nextIndex (nodes c' i') !! Z.to_nat j' = nextIndex (nodes c i') !! Z.to_nat j') as Hnext.
    { intros i' j' t'. subst c'. cbn. node_cases j i'; [|done].
      destruct (ac_term _ _ _ Hcases) as (_ & _ & ->). done. }
    intros i' j' t' a [[[= <- <- <-] <-]|[Hne Ha]]%lookup_insert_Some.
    + split_and!; try done; try lia. exists m. cbn [at_args at_progress]. split_and!.
      * eapply sent_ok_ext; [exact He|by exists i|done].
      * intros Hst HT x. destruct (Hnext i j t Hst HT) as (? & ? & ->). by apply Hnx.
      * intros _. right. split_and!; done.
    + pose proof (Hats _ _ _ _ Ha) as (_ & _ & _ & Hw' & _).
      eapply attempt_ok_ext; [exact He| |apply Hnext|by apply Hats].
      intros _ k [?|(-> & -> & _)]; [done|]. destruct Hne.
      by rewrite (won_unique n c t i i' Hn Hinv Hw Hw').
  - assert (follows n None c g c' g) as Hf by (apply (ginv_calm None); eauto).
    exists g. split_and!; [apply Hf|apply Hf|].
    assert (forall i' j' t' a, ats !! (i', j', t') = Some a -> attempt_ok n c' g i' j' t' a) as Hold
      by (intros; eapply attempt_follows; eauto; done).
    intros i' j' t' a [[[= <- <- <-] <-]|[_ Ha]]%lookup_insert_Some; [|by apply Hold].
    destruct (Hold _ _ _ _ Hat) as (? & ? & ? & ? & m' & ? & ? & _). split_and!; try done; try lia.
    exists m'. cbn [at_progress]. rewrite Hsu. done.
Qed.

Lemma sys_inv_step n s s' g :
  0 <= n -> Z.Odd n -> sys_inv n s g -> sstep prompt n s s' ->
  exists g', sys_inv n s' g' /\ ext (peers s) g (peers s') g'.
Proof.
  intros Hn Hodd Hsys Hstep. pose proof Hsys as (Hinv & Hg & Ha).
  pose proof (sstep_inv _ _ _ _ Hinv Hstep) as Hinv'.
  assert (forall c' g' ats' ms' hs' sn', inv n c' -> follows n None (peers s) g c' g' ->
    (forall k a, ats' !! k = Some a -> attempts s !! k = Some a) ->
    exists g', sys_inv n (MkSystem c' ats' ms' hs' sn') g' /\ ext (peers s) g c' g') as Hplain.
  { intros c' g' ats' ms' hs' sn' Hi' Hf Hsub. exists g'. split; [|apply Hf]. split; [done|]. split; [apply Hf|].
    intros i j t a Hat%Hsub. by eapply attempts_follow. }
  destruct Hstep as [c c' ats ms hs sn Hl|c ats ms hs sn i j t ctx isRetry ri term args Hi Hj Hij Hnone Hp
    |c ats ms hs sn i j t ctx args rj reply Hj Hat Hh|c ats ms hs sn i j t ctx args reply ri next Hi Hat Hl Hr
    |c ats ms hs sn i j t a Hi Hat|c ats ms hs sn i j t a Hat| | | | | |c ats ms hs hs' sn sn' _ _| | | | |];
    cbn [peers attempts] in *; try done.
  - destruct (gstep_follows _ _ _ _ Hn Hodd Hinv Hinv' Hg Hl) as [g' Hf]. by eapply Hplain.
  - destruct (send_ok _ _ _ _ _ _ _ _ _ _ _ Hn Hinv Hg Hi Hj Hij Hp) as (Hf & HT & Hok).
    exists g. split; [|apply Hf]. split; [done|]. split; [apply Hf|]. cbn [peers attempts].
    intros i' j' t' a [[[= <- <- <-] <-]|[Hne Hat]]%lookup_insert_Some; [done|].
    eapply (attempts_follow n _ (MkSystem c ats ms hs sn)); [done|exact Hsys|exact Hf|exact Hat|].
    intros [= <- <-] _ HT'. apply Hne. congruence.
  - destruct (deliver_step _ _ _ _ _ _ _ _ _ _ _ Hn Hinv Hg Ha Hat Hh) as (g' & Hg' & He & Ha').
    exists g'. done.
  - destruct Hl as [?|HT]; [done|]. pose proof (reply_ok _ _ _ _ _ _ _ _ _ _ _ Hinv Hg (Ha _ _ _ _ Hat) HT Hr) as Hf.
    exists g. split; [|apply Hf]. split; [done|]. split; [apply Hf|]. cbn [peers attempts].
    intros i' j' t' a [Hne Hat']%lookup_delete_Some.
    eapply (attempts_follow n _ (MkSystem c ats ms hs sn)); [done|exact Hsys|exact Hf|exact Hat'|].
    intros [= <- <-]. cbn. rewrite fn_lookup_insert.
    intros [_ ->]%(ok_leader _ _ (on_AE_reply_ok _ _ _ _ _ _ _ _ Hr)) HT'. apply Hne. congruence.
  - eapply Hplain; [done| |by intros k a' [_ ?]%lookup_delete_Some].
    apply (ginv_calm None); eauto. apply on_timeout_calm.
  - exists g. split; [|by apply ext_same]. split; [done|]. split; [done|]. cbn [peers attempts].
    intros i' j' t' a' [_ Hat']%lookup_delete_Some. by apply Ha.
  - exists g. split; [done|]. by apply ext_same.
Qed.

(** *** Runs *)

Lemma ext_trans c g c1 g1 c2 g2 : ext c g c1 g1 -> ext c1 g1 c2 g2 -> ext c g c2 g2.
Proof.
  intros H1 H2. split.
  - intros t x Hx. by apply (e_won _ _ _ _ H2), (e_won _ _ _ _ H1).
  - intros t Ht. etransitivity; [by apply (e_llog _ _ _ _ H1)|].
    apply (e_llog _ _ _ _ H2). by eapply (legit_ext _ _ _ _ H1).
  - intros t x Hx. rewrite (e_llog0 _ _ _ _ H2 t x) by by apply (e_won _ _ _ _ H1).
    by apply (e_llog0 _ _ _ _ H1 t x).
  - intros t x Hx. pose proof (e_term _ _ _ _ H1 x). rewrite (e_clog _ _ _ _ H2) by lia.
    by apply (e_clog _ _ _ _ H1).
  - intros i. pose proof (e_term _ _ _ _ H1 i). pose proof (e_term _ _ _ _ H2 i). lia.
  - intros v t k Hk. by apply (e_ack _ _ _ _ H2), (e_ack _ _ _ _ H1).
Qed.

Definition history0 : history :=
  MkHistory (fun _ => [base]) (fun _ => [base]) (fun _ _ => [base]) (fun _ _ _ _ => False) (fun _ _ _ => False).

Lemma sys_inv_init n s : sinit n s -> sys_inv n s history0.
Proof.
  intros (Hi & Ha & _). split; [by apply inv_init|]. split; [|by intros i j t a; rewrite Ha].
  destruct Hi as (Hm & Hw & Hf & He & Hs & Hv & Hwon). split; try done.
  - intros i Hi. specialize (Hm i Hi). cbn in Hm. injection Hm as <-. split; try done.
    + intros k e Hk. cbn [Log fresh] in Hk. apply list_lookup_singleton_Some in Hk as [-> <-].
      split; [by left|done].
    + intros e ->%list_elem_of_singleton. done.
    + split; [by vm_compute|by left].
  - by intros id p a ?%Hs.
  - by intros v t x _ ?%Hv.
  - by intros t x ?%Hwon.
  - by intros t x ?%Hwon.
  - intros id i T. by rewrite He.
Qed.

Section safety.
Context (n : Z) (Hn : 0 <= n) (Hodd : Z.Odd n).

Lemma reachable_sys_inv s : reachable (sstep prompt n) (sinit n) s -> exists g, sys_inv n s g.
Proof.
  induction 1 as [s Hs|s s' _ [g Hg] Hstep]; [eexists; by apply sys_inv_init|].
  destruct (sys_inv_step _ _ _ _ Hn Hodd Hg Hstep) as (g' & ? & _). by exists g'.
Qed.

Lemma run_sys_inv s s' g :
  sys_inv n s g -> rtc (sstep prompt n) s s' ->
  exists g', sys_inv n s' g' /\ ext (peers s) g (peers s') g'.
Proof.
  intros Hg Hr. revert g Hg. induction Hr as [s|s s1 s' Hstep _ IH]; intros g Hg.
  { exists g. split; [done|]. by apply ext_same. }
  destruct (sys_inv_step _ _ _ _ Hn Hodd Hg Hstep) as (g1 & Hg1 & He1).
  destruct (IH g1 Hg1) as (g' & Hg' & He'). exists g'. split; [done|]. by eapply ext_trans.
Qed.

(** The two ends of a run, with one history. *)
Lemma run_states s s' :
  reachable (sstep prompt n) (sinit n) s -> rtc (sstep prompt n) s s' ->
  exists g', sys_inv n s' g' /\ forall i, 0 <= i < n ->
    Log (nodes (peers s) i) !! 0%nat = Some base /\ SnapshotIndex (nodes (peers s) i) = 0 /\
    commit_ok n (peers s') g' (CurrentTerm (nodes (peers s) i)) (Log (nodes (peers s) i))
      (commitIndex (nodes (peers s) i)).
Proof.
  intros [g Hg]%reachable_sys_inv Hr. destruct (run_sys_inv _ _ _ Hg Hr) as (g' & Hg' & He).
  exists g'. split; [done|]. intros i Hi. destruct Hg as (_ & Hg & _).
  pose proof (gi_node _ _ _ Hg i Hi) as Hno. split_and!; [apply Hno|apply Hno|].
  eapply (commit_ok_ext _ _ _ _ _ He); [reflexivity|apply Hno].
Qed.

Lemma entry_at_nat rf k : SnapshotIndex rf = 0 -> 0 <= k -> entry_at rf k = Log rf !! Z.to_nat k.
Proof. intros Hs Hk. unfold entry_at. rewrite Hs. case_decide; [f_equal; lia|lia]. Qed.

(** What was committed by [i] then, and by [j] now. *)
Lemma committed_agree s s' i j k :
  reachable (sstep prompt n) (sinit n) s -> rtc (sstep prompt n) s s' ->
  0 <= i < n -> 0 <= j < n -> 0 <= k ->
  k <= commitIndex (nodes (peers s) i) -> k <= commitIndex (nodes (peers s') j) ->
  entry_at (nodes (peers s) i) k = entry_at (nodes (peers s') j) k.
Proof.
  intros Hs Hr Hi Hj Hk Hki Hkj. destruct (run_states _ _ Hs Hr) as (g' & (_ & Hg' & _) & Hends).
  destruct (Hends i Hi) as (Hb & Hsn & Hc). pose proof (gi_node _ _ _ Hg' j Hj) as Hno.
  rewrite !entry_at_nat by (done || apply Hno).
  eapply (commit_agree n (peers s') g' Hn Hg'); [exact Hc|apply Hno|done|apply Hno|lia|lia].
Qed.

Lemma leader_has_committed s s' i j k :
  reachable (sstep prompt n) (sinit n) s -> rtc (sstep prompt n) s s' ->
  0 <= i < n -> 0 <= j < n -> 0 <= k <= commitIndex (nodes (peers s) i) ->
  state (nodes (peers s') j) = Leader ->
  CurrentTerm (nodes (peers s) i) <= CurrentTerm (nodes (peers s') j) ->
  entry_at (nodes (peers s') j) k = entry_at (nodes (peers s) i) k.
Proof.
  intros Hs Hr Hi Hj Hk Hst HT. destruct (run_states _ _ Hs Hr) as (g' & (Hinv' & Hg' & _) & Hends).
  destruct (Hends i Hi) as (Hb & Hsn & [Hcr Hcom]). pose proof (gi_node _ _ _ Hg' j Hj) as Hno.
  rewrite !entry_at_nat by (done || lia || apply Hno).
  destruct Hcom as [Hc0|(t & q & Ht & Hc & Hq & Hp)].
  { assert (k = 0) as -> by lia. etransitivity; [apply Hno|done]. }
  destruct (nk_leader _ _ _ _ _ Hno Hst) as (HL & _).
  assert (won (peers s') (CurrentTerm (nodes (peers s') j)) j) as Hw by by apply (inv_node _ _ Hinv' j Hj).
  pose proof (committed_length _ _ _ _ _ Hc) as Hqlen.
  assert (take (S (Z.to_nat (commitIndex (nodes (peers s) i)))) (Log (nodes (peers s) i))
    `prefix_of` Log (nodes (peers s') j)) as Hpre.
  { rewrite HL. etransitivity; [|eapply (completeness_le n _ g' Hn Hg' t q); [done|done|lia]].
    eapply prefix_le; [exact Hp|apply take_prefix_of|]. rewrite upto_length, length_take by done. lia. }
  unfold zlen in Hcr. destruct (lookup_lt_is_Some_2 (Log (nodes (peers s) i)) (Z.to_nat k)) as [e He]; [lia|].
  rewrite He. eapply prefix_lookup_Some; [|exact Hpre]. by rewrite lookup_take_lt by lia.
Qed.

End safety.

(** A command sent to the service is the one at its index in the log, and is committed. *)
Lemma apply_step_command pc rf rf' m pc' :
  SnapshotIndex rf = 0 -> apply_step pc rf = Ret (rf', Some m, pc') -> CommandValid m = true ->
  0 <= CommandIndex m <= commitIndex rf' /\
  exists e, entry_at rf' (CommandIndex m) = Some e /\ Command e = am_Command m.
Proof.
  intros Hs H Hv.
  assert (forall rf1, SnapshotIndex rf1 = 0 -> apply_loop rf1 = Ret (rf', Some m, pc') ->
    0 <= CommandIndex m <= commitIndex rf' /\
    exists e, entry_at rf' (CommandIndex m) = Some e /\ Command e = am_Command m) as Hloop.
  { intros rf1 Hs1 Hl. unfold apply_loop in Hl. case_decide; [|by inv_res]. case_decide; [done|]. inv_res.
    unfold command_msg. cbn [CommandIndex am_Command]. fields. unfold idxInLog in E. fields.
    rewrite Hs1, Z.sub_0_r in E. apply idx_Ret in E as [? E]. split; [lia|]. exists a.
    split; [|done]. rewrite entry_at_nat by (done || lia). done. }
  assert (forall rf1, SnapshotIndex rf1 = 0 -> apply_body rf1 = Ret (rf', Some m, pc') ->
    0 <= CommandIndex m <= commitIndex rf' /\
    exists e, entry_at rf' (CommandIndex m) = Some e /\ Command e = am_Command m) as Hbody.
  { intros rf1 Hs1 Hb. unfold apply_body in Hb. case_decide; [by eapply Hloop|]. inv_res.
    case_decide; [|by inv_res]. inv_res. case_decide; [by inv_res|].
    eapply (Hloop (rf1 <| commitIndex := a |>)); [done|exact Hb]. }
  destruct pc; cbn in H.
  - case_decide; [by inv_res|]. by eapply (Hbody (rf <| notifyApply := false |>)).
  - by eapply (Hbody (rf <| lastApplied := Z.max (lastApplied rf) applySi |>)).
  - by eapply Hloop.
Qed.

(** ** Concrete runs *)

(** A step, by its parameters. *)
Inductive event :=
| EvElect (i : Z) (id : nat)            (* [i] starts election [id] *)
| EvCall (id : nat) (p : Z)             (* its call to [p] *)
| EvVote (id : nat) (p : Z)             (* [p] handles it and replies *)
| EvTake (i p : Z)                      (* the worker of [i] takes the reply *)
| EvStart (i : Z) (command : any)
| EvSend (i j t : Z) (ctx : nat)
| EvDeliver (i j t : Z)
| EvReply (i j t : Z)
| EvCheck (i j t : Z)                   (* the handler of [j] releases the lock *)
| EvStore (i j t : Z)                   (* and takes it again *)
| EvTimeout (i j t : Z)
| EvApply (i : Z)                       (* the apply worker, at its [select] *)
| EvLate (k : nat).                     (* the [k]-th last message arrives late *)

(** The system with peer [i] in state [rf]. *)
Definition update (i : Z) (rf : Raft) (s : system) : system :=
  MkSystem (with_node i rf (peers s)) (attempts s) (messages s) (loose s) (snaps s).

Definition ret {A} (m : res A) : option A := match m with Ret a => Some a | Panic _ => None end.

Definition peer_ok (n i : Z) : option unit := if decide (0 <= i < n) then Some tt else None.

Definition exec (sc : scope) (n : Z) (e : event) (s : system) : option system :=
  let c := peers s in
  match e with
  | EvElect i id =>
      _ ← peer_ok n i;
      match worker c i, elections c !! id with
      | None, None =>
          rf' ← start_election (nodes c i);
          Some (MkSystem (MkCluster (<[i := rf']> (nodes c))
            (<[i := Some (MkElection id (CurrentTerm rf') 1 (length (others n i)))]> (worker c))
            (launch id (others n i) (flights c)) (<[id := (i, CurrentTerm rf')]> (elections c)) (sent c)
            (fun v t x => votes c v t x \/ v = i /\ t = CurrentTerm rf' /\ x = i) (won c))
            (attempts s) (messages s) (loose s) (snaps s))
      | _, _ => None
      end
  | EvCall id p =>
      '(i, _) ← elections c !! id;
      match flights c !! (id, p), GetVote_args (nodes c i) with
      | Some Pending, Ret (Some args) =>
          Some (MkSystem (MkCluster (nodes c) (worker c) (<[(id, p) := Called args]> (flights c))
            (elections c) (fun id' p' a => sent c id' p' a \/ id' = id /\ p' = p /\ a = args)
            (votes c) (won c)) (attempts s) (messages s) (loose s) (snaps s))
      | _, _ => None
      end
  | EvVote id p =>
      _ ← peer_ok n p;
      match flights c !! (id, p) with
      | Some (Called args) =>
          '(rf', reply) ← ret (RequestVote args (nodes c p));
          Some (MkSystem (MkCluster (<[p := rf']> (nodes c)) (worker c)
            (<[(id, p) := Replied reply]> (flights c)) (elections c) (sent c)
            (fun v t x => votes c v t x \/
               VoteGranted reply = true /\ v = p /\ t = rv_Term args /\ x = CandidateId args) (won c))
            (attempts s) (messages s) (loose s) (snaps s))
      | _ => None
      end
  | EvTake i p =>
      _ ← peer_ok n i;
      el ← worker c i;
      match el_left el, flights c !! (el_id el, p) with
      | S _, Some (Replied reply) =>
          '(rf', next) ← ret (on_reply (ElectionTerm el) (voteCount el) reply (nodes c i));
          Some (MkSystem (MkCluster (<[i := rf']> (nodes c))
            (<[i := match next with
                    | ECount v => Some (MkElection (el_id el) (ElectionTerm el) v (pred (el_left el)))
                    | _ => None
                    end]> (worker c))
            (delete (el_id el, p) (flights c)) (elections c) (sent c) (votes c)
            (fun t x => won c t x \/ next = EWon /\ t = ElectionTerm el /\ x = i))
            (attempts s) (messages s) (loose s) (snaps s))
      | _, _ => None
      end
  | EvStart i command =>
      _ ← peer_ok n i;
      Some (update i (Start command (nodes c i)).1 s)
  | EvSend i j t ctx =>
      _ ← peer_ok n i; _ ← peer_ok n j;
      if decide (i = j) then None
      else
        match attempts s !! (i, j, t), prepare j t ctx false (nodes c i) with
        | None, Ret (ri, SendAE term args) =>
            Some (MkSystem (with_node i ri c) (<[(i, j, t) := MkAttempt ctx args Sent]> (attempts s))
              ((j, args) :: messages s) (loose s) (snaps s))
        | _, _ => None
        end
  | EvDeliver i j t =>
      _ ← peer_ok n j;
      match attempts s !! (i, j, t) with
      | Some (MkAttempt ctx args Sent) =>
          '(rj, reply) ← ret (handle_AE args (nodes c j));
          Some (MkSystem (with_node j rj c) (<[(i, j, t) := MkAttempt ctx args (Handled reply)]> (attempts s))
            (messages s) (loose s) (snaps s))
      | _ => None
      end
  | EvReply i j t =>
      _ ← peer_ok n i;
      match attempts s !! (i, j, t) with
      | Some (MkAttempt ctx args (Handled reply)) =>
          if decide (CurrentTerm (nodes c i) = t) then
            '(ri, _) ← ret (on_AE_reply j ctx t args reply (nodes c i));
            Some (MkSystem (with_node i ri c) (delete (i, j, t) (attempts s)) (messages s) (loose s) (snaps s))
          else None
      | _ => None
      end
  | EvCheck i j t =>
      _ ← peer_ok n j;
      match attempts s !! (i, j, t) with
      | Some (MkAttempt ctx args Sent) =>
          '(rj, reply, go) ← ret (AE_check args (nodes c j));
          if decide (interrupted sc = true /\ go = true /\ zlen (Entries args) > 0) then
            Some (MkSystem (with_node j rj c) (<[(i, j, t) := MkAttempt ctx args (Halfway reply)]> (attempts s))
              (messages s) (loose s) (snaps s))
          else None
      | _ => None
      end
  | EvStore i j t =>
      _ ← peer_ok n j;
      match attempts s !! (i, j, t) with
      | Some (MkAttempt ctx args (Halfway reply)) =>
          rj ← ret (AE_store args (nodes c j));
          if interrupted sc then
            Some (MkSystem (with_node j rj c) (<[(i, j, t) := MkAttempt ctx args (Handled reply)]> (attempts s))
              (messages s) (loose s) (snaps s))
          else None
      | _ => None
      end
  | EvTimeout i j t =>
      _ ← peer_ok n i;
      a ← attempts s !! (i, j, t);
      Some (MkSystem (with_node i (on_timeout j (at_ctx a) t (nodes c i)).1 c) (delete (i, j, t) (attempts s))
        (messages s) (let_loose j a (loose s)) (snaps s))
  | EvApply i =>
      _ ← peer_ok n i;
      '(rf', _, _) ← ret (apply_step ApWait (nodes c i));
      Some (update i rf' s)
  | EvLate k =>
      '(j, args) ← messages s !! k;
      _ ← peer_ok n j;
      if late sc then
        '(rj, _) ← ret (handle_AE args (nodes c j));
        Some (update j rj s)
      else None
  end.

Fixpoint exec_all (sc : scope) (n : Z) (es : list event) (s : system) : option system :=
  match es with
  | [] => Some s
  | e :: es => s' ← exec sc n e s; exec_all sc n es s'
  end.

Lemma ret_Some {A} (m : res A) a : ret m = Some a -> m = Ret a.
Proof. destruct m; naive_solver. Qed.

Lemma peer_ok_Some n i u : peer_ok n i = Some u -> 0 <= i < n.
Proof. unfold peer_ok. by case_decide. Qed.

Ltac exec_inv :=
  repeat match goal with
  | H : _ ≫= _ = Some _ |- _ => apply bind_Some in H as (? & ? & H)
  | H : peer_ok _ _ = Some _ |- _ => apply peer_ok_Some in H
  | H : ret _ = Some _ |- _ => apply ret_Some in H
  | H : Some _ = Some _ |- _ => injection H as <-
  | H : match ?x with _ => _ end = Some _ |- _ => destruct x eqn:?; try discriminate H
  end; subst.

Lemma exec_step sc n e s s' : inv n (peers s) -> exec sc n e s = Some s' -> sstep sc n s s'.
Proof.
  intros Hinv H. destruct s as [c ats ms hs sn]. cbn [peers] in Hinv.
  destruct e as [i id|id p|id p|i p|i command|i j t ctx|i j t|i j t|i j t|i j t|i j t|i|k];
    unfold exec in H; cbn [peers attempts messages] in H; exec_inv.
  - apply ss_local. by eapply st_start.
  - apply ss_local. by eapply st_call.
  - apply ss_local. eapply st_handle_reply; try done.
    destruct (inv_ids _ _ Hinv id p) as [[i T] He]; [by eexists|].
    by eapply ci_called; [apply (inv_call _ _ Hinv _ _ _ He)|].
  - apply ss_local. match goal with H : el_left ?el = S ?k |- _ =>
      pose proof (st_reply (P := local_step) n i el p) as Hstep; rewrite H in Hstep; eapply Hstep end; try done; lia.
  - apply ss_local. by apply (st_peer _ _ i _ c); [|constructor].
  - by eapply ss_send.
  - by eapply ss_deliver.
  - eapply ss_reply; try done. by right.
  - destruct_and!. subst. by eapply ss_check.
  - by eapply ss_store.
  - by eapply ss_timeout.
  - apply ss_local. by eapply (st_peer _ _ i _ c); [|eapply ls_apply].
  - eapply ss_late; try done. by eapply list_elem_of_lookup_2.
Qed.

Lemma exec_all_run sc n es s s' :
  inv n (peers s) -> exec_all sc n es s = Some s' -> rtc (sstep sc n) s s'.
Proof.
  revert s. induction es as [|e es IH]; intros s Hinv H; cbn in H; [by injection H as <-|].
  apply bind_Some in H as (s1 & H1 & H2). apply exec_step in H1; [|done].
  eapply rtc_l; [exact H1|]. apply IH; [by eapply sstep_inv|done].
Qed.

Definition system0 : system := MkSystem cluster0 ∅ [] [] [].

Lemma system0_init : sinit 3 system0.
Proof. split; [apply cluster0_init|done]. Qed.

Lemma reachable_peers_inv sc s : reachable (sstep sc 3) (sinit 3) s -> inv 3 (peers s).
Proof. induction 1 as [s [Hi _]|]; [by apply inv_init|by eapply sstep_inv]. Qed.

(** The system after the events, when they are possible. *)
Definition possible (sc : scope) (es : list event) (s : system) : bool :=
  match exec_all sc 3 es s with Some _ => true | None => false end.
Definition after (sc : scope) (es : list event) (s : system) : system := default s (exec_all sc 3 es s).

Lemma after_run sc es s :
  reachable (sstep sc 3) (sinit 3) s -> possible sc es s = true ->
  rtc (sstep sc 3) s (after sc es s).
Proof.
  intros Hs%reachable_peers_inv. unfold possible, after. destruct (exec_all sc 3 es s) as [s'|] eqn:E; [|done].
  intros _. by eapply exec_all_run.
Qed.

Lemma after_reachable sc es s :
  reachable (sstep sc 3) (sinit 3) s -> possible sc es s = true ->
  reachable (sstep sc 3) (sinit 3) (after sc es s).
Proof. intros Hs Hp. eapply reachable_rtc; [exact Hs|by apply after_run]. Qed.

Lemma system0_reachable sc : reachable (sstep sc 3) (sinit 3) system0.
Proof. constructor. apply system0_init. Qed.

(** A step of the apply worker of a peer. *)
Lemma apply_sstep sc n i pc s rf m pc' :
  0 <= i < n -> apply_step pc (nodes (peers s) i) = Ret (rf, m, pc') -> sstep sc n s (update i rf s).
Proof.
  intros Hi Ha. destruct s as [c ats ms hs sn]. apply ss_local. apply (st_peer _ _ i rf c); [done|by eapply ls_apply].
Qed.

(** The peer after its apply worker's step. *)
Definition applied (i : Z) (s : system) : Raft :=
  (get (nodes (peers s) i, None, ApWait) (apply_step ApWait (nodes (peers s) i))).1.1.

(** Peer 0 is elected in term 1 with the vote of peer 1. *)
Definition elect_0 : list event := [EvElect 0 0; EvCall 0 1; EvVote 0 1; EvTake 0 1].

(** It replicates a command to peer 1, commits it, and peer 1 learns that. *)
Definition send_0_1 : list event := [EvSend 0 1 1 1; EvDeliver 0 1 1; EvReply 0 1 1].
Definition stored_7 : system := after prompt (elect_0 ++ EvStart 0 (AnyInt 7) :: send_0_1) system0.
Definition committed_7 : system := update 0 (applied 0 stored_7) stored_7.
Definition learnt_7 : system := after prompt send_0_1 committed_7.

Lemma stored_7_reachable : reachable (sstep prompt 3) (sinit 3) stored_7.
Proof. apply after_reachable; [apply system0_reachable|by vm_compute]. Qed.

Lemma stored_7_applies :
  apply_step ApWait (nodes (peers stored_7) 0) =
    Ret (applied 0 stored_7, Some (command_msg (AnyInt 7) 1), ApCmd).
Proof. by vm_compute. Qed.

Lemma committed_7_reachable : reachable (sstep prompt 3) (sinit 3) committed_7.
Proof.
  eapply reach_step; [apply stored_7_reachable|]. by eapply apply_sstep; [|apply stored_7_applies].
Qed.

Lemma learnt_7_run : rtc (sstep prompt 3) committed_7 learnt_7.
Proof. apply after_run; [apply committed_7_reachable|by vm_compute]. Qed.

(** ** Safety *)

(** The states a cluster reaches in the scope [prompt]: an AppendEntries is handled, and its reply taken, only
    while its sender waits for it in its term; no other step of the receiver comes into the gap of
    the handler's lock; no snapshots.  And what comes after one of them. *)
Definition reached (n : Z) : system -> Prop := reachable (sstep prompt n) (sinit n).
Definition later (n : Z) : system -> system -> Prop := rtc (sstep prompt n).

(** C1 (state machine safety, in the scope [prompt]).  For an odd number of peers, without snapshots, when
    an AppendEntries is handled and its reply taken only while its sender waits for it in its term, and no
    handler of AppendEntries is interrupted in the gap of its lock; whatever else interleaves, is lost or
    crashes, with votes delayed at will: when a peer sends a command to its service and, later in the run,
    a peer sends one with the same index, it is the same command.  ([late_messages_unsafe] and [gap_unsafe]: the
    conditions on AppendEntries are needed.) *)
Theorem state_machine_safety n s s' i j pc pc' ri rj m m' pc1 pc1' :
  0 <= n -> Z.Odd n -> reached n s ->
  0 <= i < n -> apply_step pc (nodes (peers s) i) = Ret (ri, Some m, pc1) -> CommandValid m = true ->
  later n (update i ri s) s' ->
  0 <= j < n -> apply_step pc' (nodes (peers s') j) = Ret (rj, Some m', pc1') ->
  CommandValid m' = true -> CommandIndex m' = CommandIndex m -> am_Command m' = am_Command m.
Proof.
  unfold reached, later. intros Hn Hodd Hr Hi Ha Hv Hrun Hj Ha' Hv' Hidx.
  pose proof (reach_step _ _ _ _ Hr (apply_sstep prompt n _ _ _ _ _ _ Hi Ha)) as Hr1.
  pose proof (rtc_r _ _ _ Hrun (apply_sstep prompt n _ _ _ _ _ _ Hj Ha')) as Hrun'.
  destruct (reachable_sys_inv n Hn Hodd _ Hr) as [g (_ & Hg & _)].
  destruct (reachable_sys_inv n Hn Hodd _ (reachable_rtc _ _ _ _ Hr1 Hrun)) as [g' (_ & Hg' & _)].
  destruct (apply_step_command _ _ _ _ _ (nk_snap _ _ _ _ _ (gi_node _ _ _ Hg i Hi)) Ha Hv) as (Hb & e & He & <-).
  destruct (apply_step_command _ _ _ _ _ (nk_snap _ _ _ _ _ (gi_node _ _ _ Hg' j Hj)) Ha' Hv')
    as (Hb' & e' & He' & <-).
  pose proof (committed_agree n Hn Hodd _ _ i j (CommandIndex m) Hr1 Hrun' Hi Hj) as Hagree.
  cbn [peers nodes with_node update] in Hagree. rewrite !fn_lookup_insert in Hagree.
  rewrite Hidx in He', Hb'. rewrite Hagree in He by lia. congruence.
Qed.

Lemma state_machine_safety_witness :
  apply_step ApWait (nodes (peers stored_7) 0) =
    Ret (applied 0 stored_7, Some (command_msg (AnyInt 7) 1), ApCmd) /\
  apply_step ApWait (nodes (peers learnt_7) 1) =
    Ret (applied 1 learnt_7, Some (command_msg (AnyInt 7) 1), ApCmd) /\
  am_Command (command_msg (AnyInt 7) 1) = am_Command (command_msg (AnyInt 7) 1).
Proof.
  assert (apply_step ApWait (nodes (peers learnt_7) 1) =
    Ret (applied 1 learnt_7, Some (command_msg (AnyInt 7) 1), ApCmd)) as H1 by by vm_compute.
  split; [apply stored_7_applies|]. split; [exact H1|].
  apply (state_machine_safety 3 stored_7 learnt_7 0 1 ApWait ApWait (applied 0 stored_7) (applied 1 learnt_7)
    _ _ ApCmd ApCmd); [lia|exists 1; reflexivity|exact stored_7_reachable|lia|exact stored_7_applies|reflexivity|
    exact learnt_7_run|lia|exact H1|reflexivity|reflexivity].
Defined.

(** C2 (leader completeness, in the scope [prompt]).  Under the same conditions (an odd number of peers, no
    snapshots, AppendEntries handled in one piece and, like its reply, only while its sender waits in its
    term) what was committed stays: an entry a peer has committed is, from then on, at its index in the
    log of every leader of that term or a later one. *)
Theorem leader_completeness n s s' i j k :
  0 <= n -> Z.Odd n -> reached n s -> later n s s' ->
  0 <= i < n -> 0 <= j < n -> 0 <= k <= commitIndex (nodes (peers s) i) ->
  state (nodes (peers s') j) = Leader ->
  CurrentTerm (nodes (peers s) i) <= CurrentTerm (nodes (peers s') j) ->
  entry_at (nodes (peers s') j) k = entry_at (nodes (peers s) i) k /\
  exists e, entry_at (nodes (peers s) i) k = Some e.
Proof.
  unfold reached, later. intros Hn Hodd Hr Hrun Hi Hj Hk Hst HT. split; [by apply (leader_has_committed n)|].
  destruct (reachable_sys_inv n Hn Hodd _ Hr) as [g (_ & Hg & _)].
  pose proof (gi_node _ _ _ Hg i Hi) as Hno. destruct (nk_commit _ _ _ _ _ Hno) as [Hc _].
  apply entry_at_Some. unfold Loglen. rewrite (nk_snap _ _ _ _ _ Hno). lia.
Qed.

(** Peer 0 then is deposed by peer 1, which peer 2 votes for. *)
Definition elect_1 : list event := [EvElect 1 1; EvCall 1 2; EvVote 1 2; EvTake 1 2].
Definition deposed_0 : system := after prompt elect_1 learnt_7.

Lemma deposed_0_run : rtc (sstep prompt 3) committed_7 deposed_0.
Proof.
  etransitivity; [apply learnt_7_run|]. apply after_run; [|by vm_compute].
  eapply reachable_rtc; [apply committed_7_reachable|apply learnt_7_run].
Qed.

Lemma leader_completeness_witness :
  commitIndex (nodes (peers committed_7) 0) = 1 /\ state (nodes (peers deposed_0) 1) = Leader /\
  CurrentTerm (nodes (peers deposed_0) 1) = 2 /\
  entry_at (nodes (peers deposed_0) 1) 1 = entry_at (nodes (peers committed_7) 0) 1 /\
  exists e, entry_at (nodes (peers committed_7) 0) 1 = Some e.
Proof.
  assert (commitIndex (nodes (peers committed_7) 0) = 1 /\ state (nodes (peers deposed_0) 1) = Leader /\
    CurrentTerm (nodes (peers deposed_0) 1) = 2 /\ CurrentTerm (nodes (peers committed_7) 0) = 1)
    as (Hc & Hst & HT & HT0) by (by vm_compute).
  split; [exact Hc|]. split; [exact Hst|]. split; [exact HT|].
  apply (leader_completeness 3 committed_7 deposed_0 0 1 1); [lia|exists 1; reflexivity|exact committed_7_reachable|
    exact deposed_0_run|lia|lia|rewrite Hc; lia|exact Hst|rewrite HT, HT0; lia].
Defined.

(** C4 (log matching, in the scope [prompt]).  Under the same conditions (an odd number of peers, no
    snapshots, AppendEntries handled in one piece and, like its reply, only while its sender waits in its
    term) two logs with an entry of the same term at an index agree at that index and at all before it. *)
Theorem log_matching n s i j k e e' :
  0 <= n -> Z.Odd n -> reached n s -> 0 <= i < n -> 0 <= j < n ->
  entry_at (nodes (peers s) i) k = Some e -> entry_at (nodes (peers s) j) k = Some e' -> Term e = Term e' ->
  forall k', k' <= k -> entry_at (nodes (peers s) i) k' = entry_at (nodes (peers s) j) k'.
Proof.
  unfold reached, later. intros Hn Hodd [g (_ & Hg & _)]%(reachable_sys_inv n Hn Hodd) Hi Hj He He' Ht k' Hk'.
  pose proof (gi_node _ _ _ Hg i Hi) as Hni. pose proof (gi_node _ _ _ Hg j Hj) as Hnj.
  pose proof (entry_at_lt _ _ _ He) as Hk. rewrite (nk_snap _ _ _ _ _ Hni) in Hk.
  rewrite entry_at_nat in He, He' by (lia || apply Hni || apply Hnj).
  pose proof (log_match _ _ _ _ _ _ _ (nk_wf _ _ _ _ _ Hni) (nk_wf _ _ _ _ _ Hnj) He He' Ht) as Hm.
  destruct (decide (0 <= k')).
  - rewrite !entry_at_nat by (lia || apply Hni || apply Hnj).
    rewrite <- (lookup_take_lt (Log (nodes (peers s) i)) (S (Z.to_nat k))) by lia.
    rewrite Hm. by rewrite lookup_take_lt by lia.
  - unfold entry_at. rewrite (nk_snap _ _ _ _ _ Hni), (nk_snap _ _ _ _ _ Hnj). by case_decide; [lia|].
Qed.

Lemma log_matching_witness :
  let e := MkLogEntry 1 (AnyInt 7) in
  entry_at (nodes (peers committed_7) 0) 1 = Some e /\ entry_at (nodes (peers committed_7) 1) 1 = Some e /\
  forall k', k' <= 1 -> entry_at (nodes (peers committed_7) 0) k' = entry_at (nodes (peers committed_7) 1) k'.
Proof.
  assert (entry_at (nodes (peers committed_7) 0) 1 = Some (MkLogEntry 1 (AnyInt 7)) /\
    entry_at (nodes (peers committed_7) 1) 1 = Some (MkLogEntry 1 (AnyInt 7))) as [H0 H1] by by vm_compute.
  split; [exact H0|]. split; [exact H1|].
  apply (log_matching 3 committed_7 0 1 1 (MkLogEntry 1 (AnyInt 7)) (MkLogEntry 1 (AnyInt 7)));
    [lia|exists 1; reflexivity|exact committed_7_reachable|lia|lia|exact H0|exact H1|reflexivity].
Defined.

(** ** A message that arrives late *)

(** The handler cuts the log after the entries of any message it accepts, also of one that was
    overtaken.  Leader 0 sends command 7 to peer 1 and stops waiting, sends commands 7 and 8,
    which peer 1 acknowledges, and applies both.  Then the first message arrives: peer 1 drops
    command 8.  With the vote of peer 2 it becomes the leader and replicates command 9. *)
Definition overtaken : list event :=
  elect_0 ++ [EvStart 0 (AnyInt 7); EvSend 0 1 1 1; EvTimeout 0 1 1; EvStart 0 (AnyInt 8)] ++ send_0_1.
Definition send_1_2 : list event := [EvSend 1 2 2 1; EvDeliver 1 2 2; EvReply 1 2 2].
Definition late_9 : list event :=
  EvLate 1 :: elect_1 ++ EvStart 1 (AnyInt 9) :: send_1_2 ++ send_1_2.
Definition system_8 : system := after (MkScope true false false) overtaken system0.
Definition system_9 : system := after (MkScope true false false) late_9 (update 0 (applied 0 system_8) system_8).

(** With late messages two peers apply different commands at one index: 8 and 9, at index 2. *)
Theorem late_messages_unsafe :
  reachable (sstep (MkScope true false false) 3) (sinit 3) system_8 /\
  rtc (sstep (MkScope true false false) 3) (update 0 (applied 0 system_8) system_8) system_9 /\
  entry_at (applied 0 system_8) 2 = Some (MkLogEntry 1 (AnyInt 8)) /\
  commitIndex (applied 0 system_8) = 2 /\
  entry_at (applied 1 system_9) 2 = Some (MkLogEntry 2 (AnyInt 9)) /\
  commitIndex (applied 1 system_9) = 2.
Proof.
  assert (reachable (sstep (MkScope true false false) 3) (sinit 3) system_8) as H8
    by (apply after_reachable; [apply system0_reachable|by vm_compute]).
  split; [exact H8|]. split; [|by vm_compute].
  apply after_run; [|by vm_compute]. eapply reach_step; [exact H8|].
  assert (exists m pc, apply_step ApWait (nodes (peers system_8) 0) = Ret (applied 0 system_8, m, pc)) as (m & pc & Ha)
    by (eexists _, _; by vm_compute).
  apply (apply_sstep (MkScope true false false) 3 0 ApWait system_8 (applied 0 system_8) m pc); [lia|exact Ha].
Qed.

(** ** A handler that is interrupted

    AppendEntries releases its lock between its checks and the store, and does not check again.  Peer 0,
    elected in term 1 by peer 2, sends command 7 to peer 1, whose handler stops in the gap.  Peer 1 votes
    for peer 2 in term 2, stores command 8 of the new leader, and its first handler goes on: it puts command
    7 in the place of command 8, which peer 2 has committed.  Peer 1 is elected by peer 0 and commits
    command 7.  Every sender still waits for its replies. *)
Definition gap_only : scope := MkScope false true false.
Definition overwritten : list event :=
  [EvElect 0 0; EvCall 0 2; EvVote 0 2; EvTake 0 2; EvStart 0 (AnyInt 7); EvSend 0 1 1 1; EvCheck 0 1 1;
   EvElect 2 1; EvCall 1 1; EvVote 1 1; EvTake 2 1; EvStart 2 (AnyInt 8);
   EvSend 2 1 2 1; EvDeliver 2 1 2; EvReply 2 1 2].
Definition revived : list event :=
  [EvStore 0 1 1; EvElect 1 2; EvCall 2 0; EvVote 2 0; EvTake 1 0; EvStart 1 (AnyInt 9);
   EvSend 1 0 3 1; EvDeliver 1 0 3; EvReply 1 0 3].
Definition gap_8 : system := after gap_only overwritten system0.
Definition gap_7 : system := after gap_only revived (update 2 (applied 2 gap_8) gap_8).

(** Two peers send different commands for index 1 to their services: 8 and 7. *)
Theorem gap_unsafe :
  reachable (sstep gap_only 3) (sinit 3) gap_8 /\
  apply_step ApWait (nodes (peers gap_8) 2) = Ret (applied 2 gap_8, Some (command_msg (AnyInt 8) 1), ApCmd) /\
  rtc (sstep gap_only 3) (update 2 (applied 2 gap_8) gap_8) gap_7 /\
  apply_step ApWait (nodes (peers gap_7) 1) = Ret (applied 1 gap_7, Some (command_msg (AnyInt 7) 1), ApCmd).
Proof.
  assert (reachable (sstep gap_only 3) (sinit 3) gap_8) as H8
    by (apply after_reachable; [apply system0_reachable|by vm_compute]).
  assert (apply_step ApWait (nodes (peers gap_8) 2) =
    Ret (applied 2 gap_8, Some (command_msg (AnyInt 8) 1), ApCmd)) as Ha by by vm_compute.
  split_and!; [exact H8|exact Ha| |by vm_compute].
  apply after_run; [|by vm_compute]. eapply reach_step; [exact H8|].
  exact (apply_sstep gap_only 3 2 ApWait gap_8 (applied 2 gap_8) _ _ ltac:(lia) Ha).
Qed.

(** ** A reply taken after the term *)

(** A failure is handled without the test that the peer still leads in the term of the message:
    the reply to a message of term 1, taken once the peer leads in term 3, moves the next index
    of the peer it is from, and the success it then takes for an empty message after index 1 is
    recorded as a match up to 4. *)
Definition leader_of_3 : Raft :=
  (fresh 3 0 MakePersister) <| state := Leader |> <| CurrentTerm := 3 |> <| ctx := Some 2%nat |>
    <| Log := [base; MkLogEntry 1 (AnyInt 5)] |> <| nextIndex := [0; 2; 2] |> <| matchIndex := [0; 0; 0] |>.

Theorem stale_failure_breaks_match :
  exists rf1 n1 rf2 n2,
    on_AE_reply 1 1 1 (MkAppendEntriesArgs 1 0 7 1 [] 0) (MkAppendEntriesReply 1 false 0 0 5) leader_of_3 =
      Ret (rf1, n1) /\
    on_AE_reply 1 2 3 (MkAppendEntriesArgs 3 0 1 1 [] 0) (MkAppendEntriesReply 3 true 0 0 0) rf1 =
      Ret (rf2, n2) /\
    matchIndex rf2 = [0; 4; 0] /\ Loglen rf2 = 2.
Proof. eexists _, _, _, _. split; [vm_compute; reflexivity|]. split; [vm_compute; reflexivity|]. by vm_compute. Qed.
End RaftSafety.
