(* ===== verification/RaftApply.v ===== *)
(** * RaftApply: what a peer sends on its apply channel (src/src/raft1/raft.go)

    The critical sections of one peer, in any interleaving: the apply worker with the place
    where it is, the handlers of AppendEntries that are in the gap between their two parts,
    InstallSnapshot with any arguments, and all the other goroutines.  The steps are labelled: a
    [careful] run installs no snapshot that makes the peer lose committed entries; the properties are
    about careful runs, any run is careful up to the first such snapshot ([careful_or_lossy]), and
    [old_snapshot_loses_committed] shows what it does. *)
From S2P Require Import Prelude Persister Raft RaftLeader RaftElection.
Import Raft Replication Election.
Local Open Scope Z_scope.
Local Open Scope go_scope.

Module RaftApply.

(** The critical sections that do not touch the log or the indices. *)
Inductive background : Raft -> Raft -> Prop :=
| bg_RequestVote args rf rf' reply : RequestVote args rf = Ret (rf', reply) -> background rf rf'
| bg_start_election rf rf' : start_election rf = Some rf' -> background rf rf'
| bg_on_reply T v reply rf rf' next : on_reply T v reply rf = Ret (rf', next) -> background rf rf'
| bg_on_abort rf : background rf (on_abort rf)
| bg_stay_follower rf : background rf (stay_follower rf)
| bg_Kill rf : background rf (Kill rf)
| bg_sender_head server t c rf : background rf (sender_head server t c rf).1
| bg_sender_wait server isRetry rf rf' :
    sender_wait server isRetry rf = Some rf' -> background rf rf'
| bg_prepare server t c isRetry rf rf' msg :
    prepare server t c isRetry rf = Ret (rf', msg) -> background rf rf'
| bg_IS_reply server c term reply rf rf' n :
    on_IS_reply server c term reply rf = Ret (rf', n) -> background rf rf'
| bg_AE_reply server c term args reply rf rf' n :
    on_AE_reply server c term args reply rf = Ret (rf', n) -> background rf rf'
| bg_timeout server c term rf : background rf (on_timeout server c term rf).1
| bg_boardcast rf rf' : boardcastLogEntries rf = Ret rf' -> background rf rf'
| bg_take_rst i rf : background rf (take_rst i rf)
| bg_heartbeat i rf : background rf (heartbeat i rf)
| bg_ticker rf : background rf (ticker_fire rf).1.

(** A peer: its apply worker's place and what it has sent, and the messages whose handlers
    are between [AE_check] and [AE_store]. *)
Record peer := MkPeer {
  p_rf : Raft;
  p_pc : apply_pc;
  p_sent : list ApplyMsg;
  p_gap : list AppendEntriesArgs;
}.

(** What must not be lost: the entries up to this index. *)
Definition stable (rf : Raft) : Z := Z.max (commitIndex rf) (SnapshotIndex rf).

(** A snapshot that is installed although the peer has more: it replaces another one of the same
    index, or covers less than is committed and the whole log is dropped for it. *)
Definition lossy (args : InstallSnapshotArgs) (rf : Raft) : Prop :=
  CurrentTerm rf <= is_Term args /\ ~ ignored args rf /\
  (LastIncludedIndex args <= SnapshotIndex rf \/ LastIncludedIndex args < stable rf /\ drops_log args rf).

#[export] Instance lossy_dec args rf : Decision (lossy args rf).
Proof. unfold lossy. apply _. Defined.

(** The steps of a peer; the label says whether the step installs such a snapshot.  The service
    calls Snapshot only for what it has applied. *)
Inductive step : bool -> peer -> peer -> Prop :=
| ra_apply rf pc sent gap rf' msg pc' :
    apply_step pc rf = Ret (rf', msg, pc') ->
    step false (MkPeer rf pc sent gap) (MkPeer rf' pc' (sent ++ option_list msg) gap)
| ra_AE_refuse rf pc sent gap args rf' reply :
    AE_check args rf = Ret (rf', reply, false) ->
    step false (MkPeer rf pc sent gap) (MkPeer rf' pc sent gap)
| ra_AE_heartbeat rf pc sent gap args rf1 reply rf' :
    AE_check args rf = Ret (rf1, reply, true) -> zlen (Entries args) = 0 ->
    AE_store args rf1 = Ret rf' ->
    step false (MkPeer rf pc sent gap) (MkPeer rf' pc sent gap)
| ra_AE_check rf pc sent gap args rf' reply :
    AE_check args rf = Ret (rf', reply, true) -> zlen (Entries args) > 0 ->
    step false (MkPeer rf pc sent gap) (MkPeer rf' pc sent (args :: gap))
| ra_AE_store rf pc sent gap gap' args rf' :
    gap ≡ₚ args :: gap' -> AE_store args rf = Ret rf' ->
    step false (MkPeer rf pc sent gap) (MkPeer rf' pc sent gap')
| ra_InstallSnapshot rf pc sent gap tpc args rf' reply :
    InstallSnapshot tpc args rf = Ret (rf', reply) ->
    step (bool_decide (lossy args rf)) (MkPeer rf pc sent gap) (MkPeer rf' pc sent gap)
| ra_Snapshot rf pc sent gap index s rf' :
    index <= Z.max (lastApplied rf) (SnapshotIndex rf) -> Snapshot index s rf = Ret rf' ->
    step false (MkPeer rf pc sent gap) (MkPeer rf' pc sent gap)
| ra_Start rf pc sent gap command :
    step false (MkPeer rf pc sent gap) (MkPeer (Start command rf).1 pc sent gap)
| ra_background rf pc sent gap rf' :
    background rf rf' -> step false (MkPeer rf pc sent gap) (MkPeer rf' pc sent gap).

(** A whole run, and one in which no such snapshot is installed. *)
Definition runs : peer -> peer -> Prop := rtc (fun p p' => exists l, step l p p').
Definition careful : peer -> peer -> Prop := rtc (step false).

(** A peer that has just been made, perhaps from what a crash left. *)
Definition booted (p : peer) : Prop :=
  (exists n i ps, Make n i ps = Ret (p_rf p)) /\ Log (p_rf p) <> [] /\ 0 <= SnapshotIndex (p_rf p) /\
  p_pc p = ApWait /\ p_sent p = [] /\ p_gap p = [].

(** What the reader of the channel has after a message: the next command after those it had,
    or a snapshot of more. *)
Definition deliver (pos : option Z) (m : ApplyMsg) : option Z :=
  match pos with
  | None => None
  | Some i =>
      if CommandValid m then (if decide (CommandIndex m = i + 1) then Some (i + 1) else None)
      else if SnapshotValid m then (if decide (i < am_SnapshotIndex m) then Some (am_SnapshotIndex m) else None)
      else None
  end.
Definition delivered (msgs : list ApplyMsg) : option Z := foldl deliver (Some 0) msgs.

(** ** Steps that leave the log alone *)

Definition quiet (rf rf' : Raft) : Prop :=
  Log rf' = Log rf /\ SnapshotIndex rf' = SnapshotIndex rf /\ commitIndex rf' = commitIndex rf /\
  lastApplied rf' = lastApplied rf.

#[export] Instance quiet_preorder : PreOrder quiet.
Proof.
  split; [done|]. intros a b c (?&?&?&?) (?&?&?&?). unfold quiet. split_and!; congruence.
Qed.

Ltac quiet_done := unfold quiet; split_and!; reflexivity.

Lemma cancel_quiet rf rf' : cancel_if_leader rf = Ret rf' -> quiet rf rf'.
Proof. intros [cs ->]%cancel_if_leader_eq. quiet_done. Qed.

Lemma see_term_quiet t rf : quiet rf (see_term t rf).
Proof. unfold see_term. case_decide; [quiet_done|done]. Qed.

Lemma RequestVote_quiet args rf rf' reply : RequestVote args rf = Ret (rf', reply) -> quiet rf rf'.
Proof.
  unfold RequestVote. intros H. case_decide; [by inv_res|]. case_decide.
  - inv_res. destruct a; inv_res; [done|]. case_decide; inv_res; [quiet_done|done].
  - inv_res. assert (quiet rf a) as Hq.
    { case_decide; [unfold cancel in E; destruct (ctx _) in E|]; inv_res; quiet_done. }
    etransitivity; [exact Hq|]. destruct a0; inv_res; quiet_done.
Qed.

Lemma win_loop_quiet ids rf rf' : win_loop ids rf = Ret rf' -> quiet rf rf'.
Proof.
  revert rf. induction ids as [|i ids IH]; intros rf; cbn; [by intros [= <-]|].
  case_decide; [apply IH|]. intros. inv_res. destruct a; inv_res.
  apply IH in H0. etransitivity; [|exact H0]. quiet_done.
Qed.

Lemma on_reply_quiet T v reply rf rf' next : on_reply T v reply rf = Ret (rf', next) -> quiet rf rf'.
Proof.
  unfold on_reply. intros H. case_decide; [by inv_res|]. case_decide; [inv_res; quiet_done|].
  destruct (VoteGranted reply); [|by inv_res]. case_decide; inv_res; [|done].
  unfold become_leader in E. case_decide; [done|]. apply win_loop_quiet in E.
  etransitivity; [|exact E]. quiet_done.
Qed.

Lemma still_leader_quiet c term rf : quiet rf (still_leader c term rf).1.
Proof. unfold still_leader. case_decide; [quiet_done|]. by case_decide. Qed.

Lemma step_down_quiet c term t rf : quiet rf (step_down c term t rf).
Proof. unfold step_down. case_decide; [quiet_done|done]. Qed.

Lemma prepare_quiet server t c isRetry rf rf' msg :
  prepare server t c isRetry rf = Ret (rf', msg) -> quiet rf rf'.
Proof.
  unfold prepare, prepare_entries. intros. case_decide; [by inv_res|]. case_decide; [by inv_res|]. inv_res.
  transitivity a0.
  { clear H. case_decide; inv_res; [|done]. quiet_done. }
  clear E0. case_decide; inv_res; [done|]. case_decide; inv_res; [quiet_done|].
  destruct isRetry; [quiet_done|done].
Qed.

Lemma on_IS_reply_quiet server c term reply rf rf' n :
  on_IS_reply server c term reply rf = Ret (rf', n) -> quiet rf rf'.
Proof.
  unfold on_IS_reply. intros H. case_decide; [inv_res; apply step_down_quiet|].
  pose proof (still_leader_quiet c term rf) as Hq. destruct (still_leader c term rf) as [rf1 []]; inv_res; [done|].
  etransitivity; [exact Hq|]. quiet_done.
Qed.

Lemma on_AE_reply_quiet server c term args reply rf rf' n :
  on_AE_reply server c term args reply rf = Ret (rf', n) -> quiet rf rf'.
Proof.
  unfold on_AE_reply, on_AE_success, on_AE_failure. intros H. destruct (Success reply).
  - pose proof (still_leader_quiet c term rf) as Hq. destruct (still_leader c term rf) as [rf1 []]; inv_res; [done|].
    etransitivity; [exact Hq|]. quiet_done.
  - case_decide; inv_res; [apply step_down_quiet|quiet_done].
Qed.

Lemma boardcast_loop_quiet ids rf rf' : boardcast_loop ids rf = Ret rf' -> quiet rf rf'.
Proof.
  revert rf. induction ids as [|i ids IH]; intros rf; cbn; [by intros [= <-]|].
  case_decide; [apply IH|]. intros. inv_res. destruct a; inv_res; [done|].
  apply IH in H0. etransitivity; [|exact H0]. quiet_done.
Qed.

Lemma background_quiet rf rf' : background rf rf' -> quiet rf rf'.
Proof.
  destruct 1 as [| rf rf' H| | | | |server t c rf|server isRetry rf rf' H| | | |server c term rf|rf rf' H| |i rf|rf];
    eauto using RequestVote_quiet, on_reply_quiet, prepare_quiet, on_IS_reply_quiet, on_AE_reply_quiet;
    try quiet_done.
  - unfold start_election in H. case_decide; simplify_eq. quiet_done.
  - unfold sender_head. destruct (killed rf); [done|]. repeat case_decide; (done || quiet_done).
  - unfold sender_wait in H. destruct (_ || _); simplify_eq. quiet_done.
  - unfold on_timeout. etransitivity; [|apply still_leader_quiet]. quiet_done.
  - unfold boardcastLogEntries in H. case_decide.
    + unfold cancel in H. destruct (ctx rf); inv_res. quiet_done.
    + apply boardcast_loop_quiet in H. etransitivity; [|exact H]. quiet_done.
  - unfold heartbeat. case_decide; [quiet_done|done].
  - unfold ticker_fire. case_decide; [|done]. cbn. case_decide; [quiet_done|done].
Qed.

(** ** Steps that keep what is stable *)

Record safe (rf rf' : Raft) : Prop := {
  s_stable : stable rf <= stable rf';
  s_snap : SnapshotIndex rf <= SnapshotIndex rf';
  s_entries : forall i, SnapshotIndex rf' < i <= stable rf -> entry_at rf' i = entry_at rf i;
  s_applied : lastApplied rf' = lastApplied rf;
  s_len : stable rf' < Loglen rf';
  s_commit : SnapshotIndex rf' <= commitIndex rf' \/
             SnapshotIndex rf' = SnapshotIndex rf /\ commitIndex rf <= commitIndex rf';
}.

Lemma quiet_safe rf rf' : quiet rf rf' -> stable rf < Loglen rf -> safe rf rf'.
Proof.
  intros (HL & HS & Hc & Ha) Hs. assert (stable rf' = stable rf) as E by (unfold stable; by rewrite Hc, HS).
  split; rewrite ?E, ?HS, ?Hc; try done; [|unfold Loglen; by rewrite HL, HS|by right].
  intros i _. by apply entry_at_frame.
Qed.

(** A message whose entries may still be stored. *)
Definition gap_ok (rf : Raft) (args : AppendEntriesArgs) : Prop :=
  SnapshotIndex rf <= commitIndex rf \/ SnapshotIndex rf <= PrevLogIndex args.

Lemma safe_gap rf rf' args : safe rf rf' -> gap_ok rf args -> gap_ok rf' args.
Proof. intros [_ _ _ _ _ Hc] Hg. unfold gap_ok in *. lia. Qed.

Lemma AE_check_safe args rf rf' reply go :
  stable rf < Loglen rf -> AE_check args rf = Ret (rf', reply, go) ->
  quiet rf rf' /\ (go = true -> SnapshotIndex rf <= PrevLogIndex args).
Proof.
  intros Hs H. unfold AE_check in H. case_decide; [by inv_res|].
  destruct (cancel_if_leader rf) as [a|] eqn:E; cbn [res_bind] in H; [|done].
  apply cancel_quiet in E. cbv zeta in H. set (rf1 := see_term _ _) in H.
  assert (quiet rf rf1) as Hq.
  { etransitivity; [exact E|]. etransitivity; [|apply see_term_quiet]. quiet_done. }
  clearbody rf1. set (rf2 := try_rst (me rf1) rf1) in H.
  assert (quiet rf rf2) as Hq2 by (etransitivity; [exact Hq|quiet_done]). clearbody rf2.
  pose proof Hq2 as (HL & HS & _). case_decide as Hlong; [by inv_res|].
  inv_res. destruct (decide (zlen (Log rf2) > _)) as [Hlen|Hlen] in E0; inv_res.
  - destruct (bool_decide _) eqn:Hb; inv_res; [done|]. split; [done|]. intros _.
    apply idx_range in E1. unfold idxInLog in E1. lia.
  - exfalso. unfold Loglen, idxInLog in *. lia.
Qed.

Lemma AE_commit_safe args rf : stable rf < Loglen rf -> safe rf (AE_commit args rf).
Proof.
  intros Hs. destruct (AE_commit_frame args rf) as (HL & HS & _ & _ & HLL).
  pose proof (AE_commit_bounds args rf) as Hb. unfold stable in *.
  assert (lastApplied (AE_commit args rf) = lastApplied rf) as Ha by (unfold AE_commit; by case_decide).
  assert (commitIndex rf <= commitIndex (AE_commit args rf) < Loglen rf) by (apply Hb; lia).
  split; unfold stable; rewrite ?HS, ?HLL; try done; try lia. intros i _. by apply entry_at_frame.
Qed.

Lemma AE_entries_safe args rf rf' :
  stable rf < Loglen rf -> gap_ok rf args -> AE_entries args rf = Ret (Some rf') -> safe rf rf'.
Proof.
  intros Hs Hg H. unfold stable in Hs. unfold AE_entries in H.
  assert (exists keep, SnapshotIndex rf <= keep < Loglen rf /\ commitIndex rf <= keep /\ PrevLogIndex args <= keep /\
    rf' = persist (rf <| Log := take (Z.to_nat (keep + 1 - SnapshotIndex rf)) (Log rf) ++
                              drop (Z.to_nat (keep - PrevLogIndex args)) (Entries args) |>))
    as (keep & Hk1 & Hk2 & Hk3 & ->).
  { unfold gap_ok, Loglen in *. case_decide.
    - case_decide; [done|]. inv_res. apply slice_to_Ret in E as [? ->]. apply slice_from_Ret in E0 as [? ->].
      exists (commitIndex rf). split_and!; try lia. done.
    - inv_res. apply slice_to_Ret in E as [? ->]. exists (PrevLogIndex args). split_and!; try lia.
      by rewrite Z.sub_diag. }
  set (rf1 := persist _).
  destruct (entry_at_splice rf rf1 keep (PrevLogIndex args) (Entries args)) as (He & _ & Hl); [done..|].
  assert (SnapshotIndex rf1 = SnapshotIndex rf /\ commitIndex rf1 = commitIndex rf /\
    lastApplied rf1 = lastApplied rf) as (HS & Hc & Ha) by done. clearbody rf1.
  split; unfold stable; rewrite ?HS, ?Hc; try done; try lia. intros i Hi. apply He. lia.
Qed.

#[export] Instance safe_trans : Transitive safe.
Proof.
  intros a b c [H1 H2 H3 H4 H5 H6] [K1 K2 K3 K4 K5 K6]. split; try lia.
  - intros i Hi. rewrite K3 by lia. apply H3. lia.
Qed.

Lemma AE_store_safe args rf rf' :
  stable rf < Loglen rf -> gap_ok rf args -> AE_store args rf = Ret rf' -> safe rf rf'.
Proof.
  intros Hs Hg H. unfold AE_store in H. case_decide; [|inv_res; by apply AE_commit_safe]. inv_res.
  destruct a as [rf1|]; inv_res; [|by apply quiet_safe].
  pose proof (AE_entries_safe args rf rf1 Hs Hg E) as Hs1.
  etransitivity; [exact Hs1|]. apply AE_commit_safe. apply Hs1.
Qed.

Lemma Start_safe command rf : 0 <= SnapshotIndex rf -> stable rf < Loglen rf -> safe rf (Start command rf).1.
Proof.
  intros H0 Hs. unfold Start. destruct (killed rf); [by apply quiet_safe|]. case_decide; [by apply quiet_safe|].
  cbn [fst]. set (rf1 := persist _).
  assert (SnapshotIndex rf1 = SnapshotIndex rf /\ commitIndex rf1 = commitIndex rf /\
    lastApplied rf1 = lastApplied rf /\ Log rf1 = Log rf ++ [MkLogEntry (CurrentTerm rf) command])
    as (HS & Hc & Ha & HL) by done. clearbody rf1.
  split; unfold stable, Loglen in *; rewrite ?HS, ?Hc, ?HL; try done; try lia.
  - intros i Hi. unfold entry_at. rewrite HS, HL. case_decide; [|done]. unfold zlen in *.
    rewrite lookup_app_l; [done|lia].
  - rewrite zlen_app. pose proof (zlen_nonneg [MkLogEntry (CurrentTerm rf) command]). lia.
Qed.

Lemma Snapshot_safe index s rf rf' :
  0 <= SnapshotIndex rf -> stable rf < Loglen rf -> lastApplied rf <= stable rf ->
  index <= Z.max (lastApplied rf) (SnapshotIndex rf) -> Snapshot index s rf = Ret rf' -> safe rf rf'.
Proof.
  intros H0 Hs Ha Hi H. unfold Snapshot in H. case_decide as Hd; [inv_res; by apply quiet_safe|].
  apply Decidable.not_or in Hd as [Hd1 Hd2]. inv_res. apply slice_from_Ret in E as [Hr ->]. fields.
  unfold stable in *.
  match goal with |- safe _ ?r => set (rf1 := r) end.
  assert (SnapshotIndex rf1 = index /\ commitIndex rf1 = Z.max (commitIndex rf) index /\
    lastApplied rf1 = Z.max (lastApplied rf) index /\
    Log rf1 = drop (Z.to_nat (index - SnapshotIndex rf)) (Log rf)) as (HS & Hc & Hla & HL) by done.
  clearbody rf1. split; unfold stable; rewrite ?HS, ?Hc, ?Hla; try lia.
  - intros i Hii. unfold entry_at. rewrite HS, HL. repeat case_decide; try lia.
    rewrite lookup_drop. f_equal. lia.
  - unfold Loglen in *. rewrite HL, HS. unfold zlen in *. rewrite length_drop. lia.
Qed.

Lemma InstallSnapshot_safe tpc args rf rf' reply :
  0 <= SnapshotIndex rf -> stable rf < Loglen rf ->
  InstallSnapshot tpc args rf = Ret (rf', reply) ->
  ~ lossy args rf -> safe rf rf'.
Proof.
  intros H0 Hs H Hcase. unfold InstallSnapshot in H. case_decide as HT; [inv_res; by apply quiet_safe|].
  cbv zeta in H. set (rf0 := see_term _ _) in H.
  assert (quiet rf rf0 /\ SnapshotByte rf0 = SnapshotByte rf /\ SnapshotTerm rf0 = SnapshotTerm rf) as (Hq0 & HB0 & HT0).
  { subst rf0. split; [etransitivity; [|apply see_term_quiet]; quiet_done|]. unfold see_term. by case_decide. }
  clearbody rf0. destruct (cancel_if_leader rf0) as [a|] eqn:E; cbn [res_bind] in H; [|done].
  apply cancel_if_leader_eq in E as [cs ->].
  destruct (send_rst _ _) as [rf1|] eqn:E; cbn [res_bind] in H; [|done].
  assert (quiet rf rf1 /\ SnapshotByte rf1 = SnapshotByte rf /\ SnapshotTerm rf1 = SnapshotTerm rf) as (Hq1 & HB1 & HT1).
  { unfold send_rst in E. destruct (decide _) in E; [destruct tpc|]; inv_res; fields;
      (split; [etransitivity; [exact Hq0|quiet_done]|done]). }
  clear E HB0 HT0 Hq0. pose proof Hq1 as (HL & HS & Hc & Ha).
  rewrite HB1, HS, HT1 in H. destruct (decide (_ \/ _)) as [Hign|Hign] in H; [inv_res; by apply quiet_safe|].
  assert (SnapshotIndex rf < LastIncludedIndex args /\
    (stable rf <= LastIncludedIndex args \/ ~ drops_log args rf)) as [Hlt Hst].
  { unfold lossy, ignored in Hcase. destruct (decide (LastIncludedIndex args <= SnapshotIndex rf));
      [destruct Hcase; split_and!; [lia|done|by left]|]. split; [lia|].
    destruct (decide (drops_log args rf)); [|by right]. left. apply Z.nlt_ge. intros ?.
    apply Hcase. split_and!; [lia|done|by right]. }
  destruct (decide (_ /\ _)) as [[? _]|_] in H; [lia|]. inv_res.
  destruct (IS_install_spec args rf1) as (rf2 & Hr & HS' & _ & _ & Hc' & Ha' & _ & Hdrop & Hkeep & Hlen & _);
    [|lia|].
  { intros Hnil. unfold stable, Loglen in *. rewrite HL, Hnil in *. change (zlen []) with 0 in Hs. lia. }
  assert (rf2 = rf') as -> by congruence.
  assert (drops_log args rf1 <-> drops_log args rf) as Hd by (unfold drops_log, Loglen; by rewrite HL, HS).
  rewrite <- Hd in Hst. assert (Loglen rf1 = Loglen rf) as Hl1 by (unfold Loglen; by rewrite HL, HS).
  unfold stable in *. split; unfold stable; rewrite ?HS', ?Hc', ?Ha'; try lia.
  - intros i Hi. destruct Hst as [?|Hst]; [lia|]. destruct (Hkeep Hst) as [_ He]. rewrite He by lia.
    by apply entry_at_frame.
  - destruct Hst as [?|Hst]; [lia|]. destruct (Hkeep Hst) as [He _]. lia.
Qed.

(** ** The apply worker *)

(** How far the reader of the channel is. *)
Definition position (p : peer) : Z :=
  match p_pc p with ApSnap si => si | _ => lastApplied (p_rf p) end.

(** The command messages are the log's entries. *)
Definition in_log (rf : Raft) (msgs : list ApplyMsg) : Prop :=
  Forall (fun m => CommandValid m = true ->
    CommandIndex m <= lastApplied rf /\
    (SnapshotIndex rf < CommandIndex m ->
       exists e, entry_at rf (CommandIndex m) = Some e /\ Command e = am_Command m)) msgs.

Record ok (p : peer) : Prop := {
  ok_snap : 0 <= SnapshotIndex (p_rf p);
  ok_len : stable (p_rf p) < Loglen (p_rf p);
  ok_applied : lastApplied (p_rf p) <= stable (p_rf p);
  ok_gap : Forall (gap_ok (p_rf p)) (p_gap p);
  ok_pc : forall si, p_pc p = ApSnap si -> lastApplied (p_rf p) <= si <= SnapshotIndex (p_rf p);
  ok_sent : delivered (p_sent p) = Some (position p);
  ok_log : in_log (p_rf p) (p_sent p);
}.

(** A step of another goroutine. *)
Lemma ok_other rf rf' pc sent gap gap' :
  ok (MkPeer rf pc sent gap) -> safe rf rf' -> Forall (fun args => gap_ok rf args \/ args ∈ gap) gap' ->
  ok (MkPeer rf' pc sent gap').
Proof.
  intros [H0 Hl Ha Hg Hpc Hs Hlog] Hsafe Hgap. pose proof Hsafe as [K1 K2 K3 K4 K5 K6]. cbn [p_rf p_pc p_sent p_gap] in *.
  split; cbn [p_rf p_pc p_sent p_gap]; try lia.
  - eapply Forall_impl; [exact Hgap|]. intros args [Hx|Hx]; eapply safe_gap; try done.
    by apply (proj1 (Forall_forall _ _) Hg).
  - intros si Hsi. pose proof (Hpc si Hsi). lia.
  - rewrite Hs. unfold position. cbn. by rewrite K4.
  - eapply Forall_impl; [exact Hlog|]. intros m Hm Hv. destruct (Hm Hv) as [Hi He]. rewrite K4. split; [done|].
    intros Hsn. destruct He as (e & He & Hce); [lia|]. exists e. split; [|done]. rewrite K3; [done|lia].
Qed.

(** The worker between two messages: it has sent everything up to [lastApplied]. *)
Record between (rf : Raft) (sent : list ApplyMsg) : Prop := {
  bt_snap : 0 <= SnapshotIndex rf;
  bt_len : stable rf < Loglen rf;
  bt_applied : lastApplied rf <= stable rf;
  bt_sent : delivered sent = Some (lastApplied rf);
  bt_log : in_log rf sent;
}.

(** What a turn of the worker leaves. *)
Definition turned (rf rf' : Raft) (sent : list ApplyMsg) (msg : option ApplyMsg) (pc : apply_pc) : Prop :=
  between rf' (sent ++ option_list msg) /\ (forall si, pc <> ApSnap si) /\
  SnapshotIndex rf' = SnapshotIndex rf /\ Log rf' = Log rf /\ commitIndex rf <= commitIndex rf' /\
  lastApplied rf <= lastApplied rf'.

Lemma delivered_snoc msgs m i :
  delivered msgs = Some i -> delivered (msgs ++ option_list (Some m)) = deliver (Some i) m.
Proof. unfold delivered. rewrite foldl_app. cbn. by intros ->. Qed.

Lemma apply_loop_turned rf rf' sent msg pc :
  between rf sent -> apply_loop rf = Ret (rf', msg, pc) -> turned rf rf' sent msg pc.
Proof.
  intros [H0 Hl Ha Hs Hlog] H. unfold apply_loop in H. case_decide as Hlt.
  2: { inv_res. unfold turned. cbn [option_list]. rewrite app_nil_r. split_and!; try done; lia. }
  case_decide as Hsn; [done|]. inv_res. fields.
  set (rf1 := rf <| lastApplied := lastApplied rf + 1 |>) in *.
  assert (SnapshotIndex rf1 = SnapshotIndex rf /\ commitIndex rf1 = commitIndex rf /\ Log rf1 = Log rf /\
    lastApplied rf1 = lastApplied rf + 1) as (ES & Ec & EL & Ea) by done. clearbody rf1.
  assert (entry_at rf1 (lastApplied rf1) = Some a) as He.
  { rewrite (entry_at_frame rf), Ea by done. by apply entry_at_idx in E. }
  unfold stable, Loglen in *.
  unfold turned. split_and!; try done; try lia. split; unfold stable, Loglen; rewrite ?ES, ?Ec, ?EL, ?Ea; try lia.
  - rewrite (delivered_snoc _ _ _ Hs). cbn. by rewrite decide_True.
  - apply Forall_app. split.
    + eapply Forall_impl; [exact Hlog|]. intros m Hm Hv. destruct (Hm Hv) as [Hi Hx]. split; [lia|].
      rewrite ES. intros Hy. destruct (Hx Hy) as (e & He' & Hce). exists e.
      by rewrite (entry_at_frame rf).
    + apply Forall_singleton. cbn. intros _. rewrite ?Ea, ?ES in *. split; [lia|]. intros _. by exists a.
Qed.

Lemma between_frame rf rf' sent :
  between rf sent -> Log rf' = Log rf -> SnapshotIndex rf' = SnapshotIndex rf ->
  lastApplied rf' = lastApplied rf -> commitIndex rf <= commitIndex rf' < Loglen rf \/ commitIndex rf' = commitIndex rf ->
  between rf' sent.
Proof.
  intros [H0 Hl Ha Hs Hlog] EL ES Ea Hc. unfold stable, Loglen in *.
  split; unfold stable, Loglen; rewrite ?ES, ?EL, ?Ea; try done; try lia.
  eapply Forall_impl; [exact Hlog|]. intros m Hm Hv. destruct (Hm Hv) as [Hi Hx]. rewrite Ea, ES. split; [done|].
  intros Hy. rewrite (entry_at_frame rf) by done. by apply Hx.
Qed.

Lemma apply_body_turned rf rf' sent msg pc :
  between rf sent -> apply_body rf = Ret (rf', msg, pc) -> turned rf rf' sent msg pc.
Proof.
  intros Hb H. unfold apply_body in H. case_decide; [by apply apply_loop_turned|].
  assert (turned rf rf sent None ApWait) as Hnone.
  { unfold turned. cbn [option_list]. rewrite app_nil_r. split_and!; (done || lia). }
  inv_res. case_decide as Hm; inv_res; [|done]. case_decide; inv_res; [done|].
  apply idx_range in E0. unfold idxInLog in E0.
  apply (apply_loop_turned _ _ sent) in H.
  - destruct H as (Hb' & Hpc & HS & HL & Hc & Ha). fields. unfold turned. split_and!; try done; lia.
  - eapply between_frame; [exact Hb|done..|]. fields. left. unfold Loglen. lia.
Qed.

Lemma between_applied rf sent n :
  between rf sent -> lastApplied rf <= n <= stable rf -> delivered sent = Some n -> between (rf <| lastApplied := n |>) sent.
Proof.
  intros [H0 Hl Ha Hs Hlog] Hn Hd. split; try done; [by apply Hn|].
  eapply Forall_impl; [exact Hlog|]. intros m Hm Hv. destruct (Hm Hv) as [Hi Hx]. split; [fields; lia|exact Hx].
Qed.

Lemma between_ok rf pc sent gap :
  between rf sent -> (forall si, pc <> ApSnap si) -> Forall (gap_ok rf) gap -> ok (MkPeer rf pc sent gap).
Proof.
  intros [H0 Hl Ha Hs Hlog] Hpc Hg. split; cbn [p_rf p_pc p_sent p_gap]; try done.
  - intros si Hsi. by destruct (Hpc si).
  - rewrite Hs. unfold position. cbn. destruct pc; try done. by destruct (Hpc applySi).
Qed.

Lemma ok_between rf pc sent gap :
  ok (MkPeer rf pc sent gap) -> (forall si, pc <> ApSnap si) -> between rf sent.
Proof.
  intros [H0 Hl Ha Hg Hpc Hs Hlog] Hn. cbn [p_rf p_pc p_sent p_gap] in *. split; try done.
  rewrite Hs. unfold position. cbn. destruct pc; try done. by destruct (Hn applySi).
Qed.

Lemma ok_turned rf rf' pc sent gap msg :
  turned rf rf' sent msg pc -> Forall (gap_ok rf) gap -> ok (MkPeer rf' pc (sent ++ option_list msg) gap).
Proof.
  intros (Hb & Hpc & HS & HL & Hc & Ha) Hg. apply between_ok; [done|done|].
  eapply Forall_impl; [exact Hg|]. unfold gap_ok. intros args. rewrite HS. lia.
Qed.

Lemma ok_apply rf pc sent gap rf' msg pc' :
  ok (MkPeer rf pc sent gap) -> apply_step pc rf = Ret (rf', msg, pc') ->
  ok (MkPeer rf' pc' (sent ++ option_list msg) gap).
Proof.
  intros Hok H. pose proof (ok_gap _ Hok) as Hg. cbn [p_rf p_gap] in Hg. unfold apply_step in H. destruct pc as [|si|].
  - apply ok_between in Hok as Hb; [|done].
    assert (between (rf <| notifyApply := false |>) sent) as Hb' by (eapply between_frame; [exact Hb|done..|by right]).
    cbv zeta in H. case_decide as Hd.
    + inv_res. fields. destruct Hd as [_ Hlt]. destruct Hb' as [H0 Hl Ha Hs Hlog].
      split; cbn [p_rf p_pc p_sent p_gap]; try done.
      * intros si [= <-]. fields. lia.
      * change [snapshot_msg rf] with (option_list (Some (snapshot_msg rf))).
        rewrite (delivered_snoc _ _ _ Hs). cbn. by rewrite decide_True.
      * apply Forall_app. split; [exact Hlog|]. by apply Forall_singleton.
    + eapply ok_turned; [by eapply apply_body_turned|done].
  - destruct (ok_pc _ Hok si) as [Hsi1 Hsi2]; [done|]. cbn [p_rf] in *. rewrite Z.max_r in H by lia.
    assert (between (rf <| lastApplied := si |>) sent) as Hb.
    { destruct Hok as [H0 Hl Ha _ _ Hs Hlog]. cbn [p_rf p_pc p_sent p_gap] in *. unfold position in Hs. cbn in Hs.
      split; try done; [unfold stable in *; fields; lia|].
      eapply Forall_impl; [exact Hlog|]. intros m Hm Hv. destruct (Hm Hv) as [Hi Hx]. split; [fields; lia|exact Hx]. }
    eapply ok_turned; [by eapply apply_body_turned|done].
  - apply ok_between in Hok as Hb; [|done]. eapply ok_turned; [by eapply apply_loop_turned|done].
Qed.

(** ** Runs *)

(** Nothing up to the stable index is lost or changed, but for the base of the log. *)
Definition keeps (rf rf' : Raft) : Prop :=
  stable rf <= stable rf' /\ SnapshotIndex rf <= SnapshotIndex rf' /\
  forall i, SnapshotIndex rf' < i <= stable rf -> entry_at rf' i = entry_at rf i.

#[export] Instance keeps_preorder : PreOrder keeps.
Proof.
  split; [done|]. intros a b c (H1 & H2 & H3) (K1 & K2 & K3). split_and!; try lia.
  intros i Hi. rewrite K3 by lia. apply H3. lia.
Qed.

Lemma safe_keeps rf rf' : safe rf rf' -> keeps rf rf'.
Proof. by intros [K1 K2 K3 _ _ _]. Qed.

Lemma apply_loop_keeps rf rf' msg pc : apply_loop rf = Ret (rf', msg, pc) -> keeps rf rf'.
Proof.
  intros (Hc & HL & HS & _)%apply_loop_commit. unfold keeps, stable. rewrite Hc, HS. split_and!; try lia.
  intros i _. by apply entry_at_frame.
Qed.

Lemma apply_body_keeps rf rf' msg pc : apply_body rf = Ret (rf', msg, pc) -> keeps rf rf'.
Proof.
  unfold apply_body. intros H. case_decide; [by eapply apply_loop_keeps|]. inv_res.
  case_decide; inv_res; [|done]. case_decide; inv_res; [done|]. apply apply_loop_keeps in H.
  etransitivity; [|exact H]. unfold keeps, stable. fields. split_and!; [lia|lia|done].
Qed.

Lemma apply_step_keeps pc rf rf' msg pc' : apply_step pc rf = Ret (rf', msg, pc') -> keeps rf rf'.
Proof.
  unfold apply_step. intros H. destruct pc; [case_decide; inv_res; [done|]|..];
    (apply apply_body_keeps in H || apply apply_loop_keeps in H); exact H.
Qed.

Lemma step_ok_keeps p p' : ok p -> step false p p' -> ok p' /\ keeps (p_rf p) (p_rf p').
Proof.
  intros Hok Hstep. remember false as l eqn:Hno. destruct Hstep as [rf pc sent gap rf' msg pc' H|rf pc sent gap args rf' reply H
    |rf pc sent gap args rf1 reply rf' H He Hst|rf pc sent gap args rf' reply H He
    |rf pc sent gap gap' args rf' Hperm H|rf pc sent gap tpc args rf' reply H|rf pc sent gap index s rf' Hi H
    |rf pc sent gap command|rf pc sent gap rf' H].
  all: pose proof (ok_snap _ Hok) as H0; pose proof (ok_len _ Hok) as Hl; cbn [p_rf] in H0, Hl.
  all: assert (Forall (fun args => gap_ok rf args \/ args ∈ gap) gap) as Hsame
    by (apply Forall_forall; by right).
  1: by split; [eapply ok_apply|eapply apply_step_keeps].
  all: assert (forall rf' gap', safe rf rf' -> Forall (fun args => gap_ok rf args \/ args ∈ gap) gap' ->
    ok (MkPeer rf' pc sent gap') /\ keeps rf rf') as Hother
    by (intros; split; [by eapply ok_other|by apply safe_keeps]).
  all: apply Hother; [|try exact Hsame].
  - apply quiet_safe; [apply (AE_check_safe _ _ _ _ _ Hl H)|done].
  - destruct (AE_check_safe _ _ _ _ _ Hl H) as [Hq Hp].
    assert (safe rf rf1) as Hs by by apply quiet_safe. etransitivity; [exact Hs|].
    eapply AE_store_safe; [apply Hs| |done]. right. destruct Hq as (_ & -> & _). by apply Hp.
  - apply quiet_safe; [apply (AE_check_safe _ _ _ _ _ Hl H)|done].
  - apply Forall_cons. split; [|done]. left. right. by apply (AE_check_safe _ _ _ _ _ Hl H).
  - eapply AE_store_safe; [done| |done]. pose proof (ok_gap _ Hok) as Hg. cbn [p_rf p_gap] in Hg.
    rewrite Hperm in Hg. by apply Forall_cons in Hg as [Hg _].
  - apply Forall_forall. intros a Ha. right. rewrite Hperm. by right.
  - eapply InstallSnapshot_safe; [done|done|done|]. by apply bool_decide_eq_false in Hno.
  - eapply Snapshot_safe; [done|done|apply (ok_applied _ Hok)|done|done].
  - by apply Start_safe.
  - apply quiet_safe; [by apply background_quiet|done].
Qed.


Lemma ok_booted p : booted p -> ok p.
Proof.
  destruct p as [rf pc sent gap]. intros ((n & i & ps & HM) & Hne & H0 & Hpc & Hs & Hg).
  cbn [p_rf p_pc p_sent p_gap] in *. subst.
  assert (commitIndex rf = 0 /\ lastApplied rf = 0) as [Hc Ha].
  { unfold Make, readPersist in HM. destruct (ReadRaftState ps); [by inv_res|].
    set (rf1 := match decode_state _ with Some _ => _ | None => _ end) in HM.
    assert (commitIndex rf1 = 0 /\ lastApplied rf1 = 0) as [? ?].
    { subst rf1. by destruct (decode_state _) as [[[[??]?]?]|]. }
    clearbody rf1. case_decide; inv_res; done. }
  pose proof (zlen_pos _ Hne).
  split; unfold stable, Loglen, position; cbn [p_rf p_pc p_sent p_gap]; rewrite ?Hc, ?Ha; try done; try lia.
  by apply Forall_nil_2.
Qed.

Lemma ok_run p p' : ok p -> careful p p' -> ok p' /\ keeps (p_rf p) (p_rf p').
Proof.
  intros Hok Hrun. revert Hok. induction Hrun as [p|p p1 p' Hstep _ IH]; intros Hok; [done|].
  destruct (step_ok_keeps _ _ Hok Hstep) as [Hok1 Hk]. destruct (IH Hok1) as [? ?].
  split; [done|]. by etransitivity.
Qed.

(** Any run is careful up to the first such snapshot. *)
Lemma careful_or_lossy p p' :
  runs p p' -> careful p p' \/ exists q q', careful p q /\ step true q q' /\ runs q' p'.
Proof.
  induction 1 as [p|p p1 p' [[] Hs] Hr IH]; [by left|right; by exists p, p1|].
  destruct IH as [?|(q & q' & ? & ? & ?)]; [left; by eapply rtc_l|].
  right. exists q, q'. split_and!; [by eapply rtc_l|done..].
Qed.

(** ** Properties *)

(** C9 (applied in order).  From the start of a peer, whatever the other goroutines and the
    messages do, until a snapshot is installed for which a log that holds more committed entries
    is dropped, or that replaces another one of the same index: what the peer has sent on the apply
    channel is, in order and without a gap or a repetition, the next command or a snapshot that is
    ahead; it has never sent more than is committed or in a snapshot, that is in the log, and every
    command sent is the log's entry at its index as long as the log has it. *)
Theorem applied_in_order (p0 p : peer) (Hboot : booted p0) (Hrun : careful p0 p) :
  delivered (p_sent p) = Some (position p) /\
  lastApplied (p_rf p) <= stable (p_rf p) < Loglen (p_rf p) /\
  forall m, m ∈ p_sent p -> CommandValid m = true -> SnapshotIndex (p_rf p) < CommandIndex m ->
    exists e, entry_at (p_rf p) (CommandIndex m) = Some e /\ Command e = am_Command m.
Proof.
  destruct (ok_run _ _ (ok_booted _ Hboot) Hrun) as [[_ Hl Ha _ _ Hs Hlog] _].
  split_and!; [done|done|done|]. intros m Hm Hv. by apply (proj1 (Forall_forall _ _) Hlog m Hm Hv).
Qed.

(** C10 (what is committed stays).  Only one thing makes a running peer lose a committed entry:
    installing a snapshot that covers less than is committed when the whole log is dropped for it,
    or that replaces another one of the same index.  As long as that has not happened, between any
    two states of a peer's life without a crash the index up to which entries are committed or in a
    snapshot does not go down, and no entry up to it, above the last snapshot, is lost or changed. *)
Theorem committed_prefix_kept (p0 p p' : peer) (Hboot : booted p0) (Hrun : careful p0 p)
    (Hmore : careful p p') :
  stable (p_rf p) <= stable (p_rf p') /\ SnapshotIndex (p_rf p) <= SnapshotIndex (p_rf p') /\
  forall i, SnapshotIndex (p_rf p') < i <= stable (p_rf p) -> entry_at (p_rf p') i = entry_at (p_rf p) i.
Proof.
  destruct (ok_run _ _ (ok_booted _ Hboot) Hrun) as [Hok _]. by destruct (ok_run _ _ Hok Hmore) as [_ Hk].
Qed.

(** *** Witnesses

    A follower checks a message with two entries; in the gap it grants a vote; it stores them,
    commits, applies, takes a snapshot, and gets a shorter and a longer message. *)
Definition ex_peer : peer := MkPeer (fresh 3 1 MakePersister) ApWait [] [].
Definition e1 : logEntry := MkLogEntry 1 (AnyInt 1).
Definition e2 : logEntry := MkLogEntry 1 (AnyInt 2).
Definition e3 : logEntry := MkLogEntry 1 (AnyInt 3).
Definition ae12 : AppendEntriesArgs := MkAppendEntriesArgs 1 0 0 0 [e1; e2] 2.

Lemma ex_booted : booted ex_peer.
Proof. split_and!; try done. by exists 3, 1, MakePersister. Qed.

Lemma ex_peer_run :
  exists p p', careful ex_peer p /\ careful p p' /\
    p_sent p = [command_msg (AnyInt 1) 1; command_msg (AnyInt 2) 2] /\ stable (p_rf p) = 2 /\
    p_sent p' = [command_msg (AnyInt 1) 1; command_msg (AnyInt 2) 2; command_msg (AnyInt 3) 3] /\
    SnapshotIndex (p_rf p') = 1.
Proof.
  eexists _, _. split_and!.
  - eapply rtc_l; [eapply (ra_AE_check _ _ _ _ ae12); [vm_compute; reflexivity|done]|].
    eapply rtc_l; [eapply ra_background, (bg_RequestVote (MkRequestVoteArgs 1 2 0 0)); vm_compute; reflexivity|].
    eapply rtc_l; [eapply (ra_AE_store _ _ _ _ []); [reflexivity|vm_compute; reflexivity]|].
    do 2 (eapply rtc_l; [eapply ra_apply; vm_compute; reflexivity|]). apply rtc_refl.
  - eapply rtc_l; [eapply (ra_Snapshot _ _ _ _ 1 (Some [Byte.x01])); [done|vm_compute; reflexivity]|].
    eapply rtc_l; [eapply (ra_AE_refuse _ _ _ _ (MkAppendEntriesArgs 0 0 0 0 [e1] 0)); vm_compute; reflexivity|].
    eapply rtc_l; [eapply (ra_AE_check _ _ _ _ (MkAppendEntriesArgs 1 0 1 1 [e2; e3] 3)); [vm_compute; reflexivity|done]|].
    eapply rtc_l; [eapply (ra_AE_store _ _ _ _ []); [reflexivity|vm_compute; reflexivity]|].
    eapply rtc_l; [eapply ra_apply; vm_compute; reflexivity|]. apply rtc_refl.
  - reflexivity.
  - reflexivity.
  - reflexivity.
  - reflexivity.
Defined.

Lemma applied_in_order_witness :
  exists p, p_sent p = [command_msg (AnyInt 1) 1; command_msg (AnyInt 2) 2] /\
  (delivered (p_sent p) = Some (position p) /\
   lastApplied (p_rf p) <= stable (p_rf p) < Loglen (p_rf p) /\
   forall m, m ∈ p_sent p -> CommandValid m = true -> SnapshotIndex (p_rf p) < CommandIndex m ->
     exists e, entry_at (p_rf p) (CommandIndex m) = Some e /\ Command e = am_Command m).
Proof.
  destruct ex_peer_run as (p & p' & Hrun & _ & Hs & _). exists p. split; [exact Hs|].
  apply (applied_in_order ex_peer p ex_booted Hrun).
Defined.

Lemma committed_prefix_kept_witness :
  exists p p', stable (p_rf p) = 2 /\ SnapshotIndex (p_rf p') = 1 /\
  (stable (p_rf p) <= stable (p_rf p') /\ SnapshotIndex (p_rf p) <= SnapshotIndex (p_rf p') /\
   forall i, SnapshotIndex (p_rf p') < i <= stable (p_rf p) -> entry_at (p_rf p') i = entry_at (p_rf p) i).
Proof.
  destruct ex_peer_run as (p & p' & Hrun & Hmore & _ & Hst & _ & Hsn). exists p, p'. split_and!; [exact Hst|exact Hsn|..];
  apply (committed_prefix_kept ex_peer p p' ex_booted Hrun Hmore).
Defined.

Lemma ra_lossy rf pc sent gap tpc args rf' reply :
  InstallSnapshot tpc args rf = Ret (rf', reply) -> lossy args rf ->
  step true (MkPeer rf pc sent gap) (MkPeer rf' pc sent gap).
Proof. intros H Hl. rewrite <- (bool_decide_eq_true_2 _ Hl). by eapply ra_InstallSnapshot. Qed.

(** A delayed InstallSnapshot that covers less than is committed makes a peer, one step after a
    careful run, lose a committed entry, and its apply worker then fails on it. *)
Lemma old_snapshot_loses_committed :
  exists p p', careful ex_peer p /\ step true p p' /\
    stable (p_rf p) = 2 /\ entry_at (p_rf p) 2 = Some e2 /\
    SnapshotIndex (p_rf p') = 1 /\ entry_at (p_rf p') 2 = None /\
    apply_step (p_pc p') (p_rf p') = Panic IndexOutOfRange.
Proof.
  eexists _, _. split; [|split].
  - eapply rtc_l; [eapply (ra_AE_check _ _ _ _ ae12); [vm_compute; reflexivity|done]|].
    eapply rtc_l; [eapply (ra_AE_store _ _ _ _ []); [reflexivity|vm_compute; reflexivity]|].
    eapply rtc_l; [eapply ra_apply; vm_compute; reflexivity|]. apply rtc_refl.
  - eapply (ra_lossy _ _ _ _ TickerSelect (MkInstallSnapshotArgs 1 0 1 1 (Some [Byte.x01])));
      [vm_compute; reflexivity|apply (bool_decide_unpack _); by vm_compute].
  - by vm_compute.
Qed.
End RaftApply.
