(* ===== verification/RaftTest.v ===== *)
(** * RaftTest: the service that checks what Raft applies (src/src/raft1/server.go,
      src/src/raft1/test.go)

    [rfsrv] reads a peer's apply channel, and [Test] compares what the servers applied
    and asks for leaders, terms and agreement.  A snapshot's bytes are labgob's encoding
    of an index and a list of commands: the codec is a parameter.  Error texts are the
    values of [apply_err]; annotations and sleeps are not modelled. *)
From S2P Require Import Prelude Persister Raft RaftLeader.
Import Raft Replication.
Local Open Scope Z_scope.
Local Open Scope go_scope.

Module RaftTest.

(** ** Data *)

Definition SnapShotInterval : Z := 10.

Inductive apply_err :=
| Differs (index server : Z) (v : any) (other : nat) (old : any)
| OutOfOrder (server index : Z)
| Unexpected (server expected got : Z)
| SnapshotMismatch (server : Z).

Record rfsrv := MkRfsrv {
  rs_me : Z;
  applyErr : option apply_err;
  rs_lastApplied : Z;
  rs_persister : Persister;
  rs_raft : option Raft.Raft;
  logs : gmap Z any;
}.

Record Test := MkTest { srvs : list rfsrv; maxIndex : Z }.

(** The same server with other [logs] and [lastApplied]. *)
Definition with_logs (lg : gmap Z any) (la : Z) (rs : rfsrv) : rfsrv :=
  MkRfsrv (rs_me rs) (applyErr rs) la (rs_persister rs) (rs_raft rs) lg.

Definition Logs (i : Z) (rs : rfsrv) : option any := logs rs !! i.

Definition Kill (rs : rfsrv) : rfsrv :=
  let raftlog := ReadRaftState (rs_persister rs) in
  let snapshot := ReadSnapshot (rs_persister rs) in
  MkRfsrv (rs_me rs) (applyErr rs) (rs_lastApplied rs) (Save raftlog snapshot (rs_persister rs))
    None (logs rs).

Definition GetState (rs : rfsrv) : res (Z * bool) :=
  match rs_raft rs with Some rf => Ret (Raft.GetState rf) | None => Panic NilDereference end.

(** ** The appliers *)

(** [for j, rs := range ts.srvs]: the last server that has another value. *)
Fixpoint check_loop (i : Z) (m : ApplyMsg) (j : nat) (l : list rfsrv) (err : option apply_err)
  : option apply_err :=
  match l with
  | [] => err
  | rs :: l =>
      check_loop i m (S j) l
        (match Logs (CommandIndex m) rs with
         | Some old =>
             if decide (old <> am_Command m) then Some (Differs (CommandIndex m) i (am_Command m) j old)
             else err
         | None => err
         end)
  end.

(** The test afterwards, the error, and [prevok]. *)
Definition checkLogs (i : Z) (m : ApplyMsg) (ts : Test) : res (Test * option apply_err * bool) :=
  let! me := idx (srvs ts) i in
  let err := check_loop i m 0 (srvs ts) None in
  let prevok := bool_decide (is_Some (logs me !! (CommandIndex m - 1))) in
  let me := with_logs (<[CommandIndex m := am_Command m]> (logs me)) (rs_lastApplied me) me in
  let! l := set_idx (srvs ts) i me in
  Ret (MkTest l (if decide (CommandIndex m > maxIndex ts) then CommandIndex m else maxIndex ts),
       err, prevok).

(** [if m.CommandIndex > 1 && prevok == false] *)
Definition order_err (i : Z) (m : ApplyMsg) (prevok : bool) (err : option apply_err)
  : option apply_err :=
  if decide (CommandIndex m > 1 /\ prevok = false) then Some (OutOfOrder i (CommandIndex m)) else err.

(** One message read by [applier]; an error ends the process with [log.Fatalf]. *)
Definition applier (i : Z) (m : ApplyMsg) (ts : Test) : res Test :=
  if negb (CommandValid m) then Ret ts
  else
    let! (ts, err, prevok) := checkLogs i m ts in
    match order_err i m prevok err with
    | Some _ => Panic Fatal
    | None => Ret ts
    end.

Section snapshots.
Context (enc : Z * list any -> bytes) (dec : bytes -> option (Z * list any)).

(** [rs.logs[j] = xlog[j]] for every [j]. *)
Definition logs_of (xlog : list any) : gmap Z any :=
  map_seqZ 0 xlog.

Definition ingestSnap (snapshot : option bytes) (index : Z) (rs : rfsrv)
  : res (rfsrv * option apply_err) :=
  match snapshot with
  | None => Panic Fatal
  | Some b =>
      match dec b with
      | None => Panic Fatal
      | Some (lastIncludedIndex, xlog) =>
          if decide (index <> -1 /\ index <> lastIncludedIndex) then
            Ret (rs, Some (SnapshotMismatch (rs_me rs)))
          else Ret (with_logs (logs_of xlog) lastIncludedIndex rs, None)
      end
  end.

(** [for j := 0; j <= m.CommandIndex; j++]: a missing entry reads as nil. *)
Definition xlog_upto (lg : gmap Z any) (k : Z) : list any :=
  (fun j => default AnyNil (lg !! j)) <$> seqZ 0 (k + 1).

(** One message read by [applierSnap]: the test afterwards, and the call of
    [rs.raft.Snapshot] with its index and bytes. *)
Definition applierSnap (i : Z) (m : ApplyMsg) (ts : Test) : res (Test * option (Z * bytes)) :=
  if SnapshotValid m then
    let! rs := idx (srvs ts) i in
    let! (rs, err) := ingestSnap (am_Snapshot m) (am_SnapshotIndex m) rs in
    let! l := set_idx (srvs ts) i rs in
    match err with Some _ => Panic Fatal | None => Ret (MkTest l (maxIndex ts), None) end
  else if CommandValid m then
    let! rs := idx (srvs ts) i in
    let! (ts, err) :=
      (if decide (CommandIndex m <> rs_lastApplied rs + 1) then
         Ret (ts, Some (Unexpected i (rs_lastApplied rs + 1) (CommandIndex m)))
       else
         let! (ts, err, prevok) := checkLogs i m ts in
         Ret (ts, order_err i m prevok err)) in
    let! rs := idx (srvs ts) i in
    let! l := set_idx (srvs ts) i (with_logs (logs rs) (CommandIndex m) rs) in
    let call :=
      if decide (Z.rem (CommandIndex m + 1) SnapShotInterval = 0) then
        Some (CommandIndex m, enc (CommandIndex m, xlog_upto (logs rs) (CommandIndex m)))
      else None in
    match err with Some _ => Panic Fatal | None => Ret (MkTest l (maxIndex ts), call) end
  else Ret (ts, None).

(** A (re)started server, for [n] peers: its Raft peer, and the snapshot it starts from. *)
Definition newRfsrv (n srv : Z) (persister : Persister) (snapshot : bool) : res rfsrv :=
  let! rf := Make n srv persister in
  let s := MkRfsrv srv None 0 persister (Some rf) ∅ in
  if snapshot then
    let b := ReadSnapshot persister in
    if decide (zlen b > 0) then
      let! (s, err) := ingestSnap (Some b) (-1) s in
      match err with Some _ => Panic Fatal | None => Ret s end
    else Ret s
  else Ret s.
End snapshots.

(** ** The checkers

    What they see of each server: whether it is connected, and [GetState]. *)

Record seen := MkSeen { connected : bool; seen_term : Z; seen_leader : bool }.

(** [leaders[term] = append(leaders[term], i)] *)
Fixpoint collect (i : Z) (obs : list seen) (leaders : gmap Z (list Z)) : gmap Z (list Z) :=
  match obs with
  | [] => leaders
  | s :: obs =>
      collect (i + 1) obs
        (if connected s && seen_leader s
         then <[seen_term s := default [] (leaders !! seen_term s) ++ [i]]> leaders else leaders)
  end.

(** The range over the map: two leaders of a term, or the largest term. *)
Definition last_term (leaders : gmap Z (list Z)) : res Z :=
  if decide (map_Forall (fun _ l => zlen l <= 1) leaders) then
    Ret (map_fold (fun term _ last => if decide (term > last) then term else last) (-1) leaders)
  else Panic Fatal.

(** One observation of all servers per iteration, ten of them. *)
Fixpoint checkOneLeader (iters : list (list seen)) : res Z :=
  match iters with
  | [] => Panic Fatal
  | obs :: iters =>
      let leaders := collect 0 obs ∅ in
      let! lastTermWithLeader := last_term leaders in
      if decide (leaders <> ∅) then idx (default [] (leaders !! lastTermWithLeader)) 0
      else checkOneLeader iters
  end.

Fixpoint checkTerms_loop (obs : list seen) (term : Z) : res Z :=
  match obs with
  | [] => Ret term
  | s :: obs =>
      if connected s then
        if decide (term = -1) then checkTerms_loop obs (seen_term s)
        else if decide (term <> seen_term s) then Panic Fatal
        else checkTerms_loop obs term
      else checkTerms_loop obs term
  end.
Definition checkTerms (obs : list seen) : res Z := checkTerms_loop obs (-1).

Fixpoint checkNoLeader (obs : list seen) : res unit :=
  match obs with
  | [] => Ret tt
  | s :: obs => if connected s && seen_leader s then Panic Fatal else checkNoLeader obs
  end.

Fixpoint nCommitted_loop (index : Z) (l : list rfsrv) (count : Z) (cmd : any) : res (Z * any) :=
  match l with
  | [] => Ret (count, cmd)
  | rs :: l =>
      if decide (applyErr rs <> None) then Panic Fatal
      else match Logs index rs with
           | Some cmd1 =>
               if decide (count > 0 /\ cmd <> cmd1) then Panic Fatal
               else nCommitted_loop index l (count + 1) cmd1
           | None => nCommitted_loop index l count cmd
           end
  end.
Definition nCommitted (index : Z) (ts : Test) : res (Z * any) :=
  nCommitted_loop index (srvs ts) 0 AnyNil.

Definition checkNoAgreement (index : Z) (ts : Test) : res unit :=
  let! (n, _) := nCommitted index ts in
  if decide (n > 0) then Panic Fatal else Ret tt.

(** The polling loop of [wait]: the test and the servers' terms at each iteration;
    [true] when some server moved to a later term. *)
Fixpoint wait_loop (index n startTerm : Z) (iters : list (Test * list Z)) : res bool :=
  match iters with
  | [] => Ret false
  | (ts, terms) :: iters =>
      let! (nd, _) := nCommitted index ts in
      if decide (nd >= n) then Ret false
      else if decide (startTerm > -1 /\ Exists (fun t => t > startTerm) terms) then Ret true
      else wait_loop index n startTerm iters
  end.
Definition wait (index n startTerm : Z) (iters : list (Test * list Z)) (ts : Test) : res any :=
  let! moved := wait_loop index n startTerm iters in
  if (moved : bool) then Ret (AnyInt (-1))
  else
    let! (nd, cmd) := nCommitted index ts in
    if decide (nd < n) then Panic Fatal else Ret cmd.

(** ** Runs of the appliers *)

Section runs.
Context (enc : Z * list any -> bytes) (dec : bytes -> option (Z * list any)) (n : Z).

(** A message read by server [i]'s applier, or [i] started again on [ps]. *)
Inductive event := Applied (i : Z) (m : ApplyMsg) | Restarted (i : Z) (ps : Persister).

Definition restart (i : Z) (ps : Persister) (snapshot : bool) (ts : Test) : res Test :=
  let! s := newRfsrv dec n i ps snapshot in
  let! l := set_idx (srvs ts) i s in
  Ret (MkTest l (maxIndex ts)).

(** A test without snapshots, and one with them: the calls of [Snapshot] are collected. *)
Fixpoint run (evs : list event) (ts : Test) : res Test :=
  match evs with
  | [] => Ret ts
  | Applied i m :: evs => let! ts := applier i m ts in run evs ts
  | Restarted i ps :: evs => let! ts := restart i ps false ts in run evs ts
  end.
Fixpoint run_snap (evs : list event) (ts : Test) : res (Test * list (Z * bytes)) :=
  match evs with
  | [] => Ret (ts, [])
  | Applied i m :: evs =>
      let! (ts, call) := applierSnap enc dec i m ts in
      let! (ts, calls) := run_snap evs ts in
      Ret (ts, option_list call ++ calls)
  | Restarted i ps :: evs =>
      let! ts := restart i ps true ts in
      run_snap evs ts
  end.

End runs.

(** Nothing has been applied. *)
Definition empty_test (ts : Test) : Prop :=
  forall s, s ∈ srvs ts -> logs s = ∅ /\ rs_lastApplied s = 0.

(** *** A run without an error shows agreement *)

Definition agree (l : list rfsrv) : Prop :=
  forall s s' k v w, s ∈ l -> s' ∈ l -> logs s !! k = Some v -> logs s' !! k = Some w -> v = w.
Definition contiguous (l : list rfsrv) : Prop :=
  forall s k, s ∈ l -> is_Some (logs s !! k) -> 1 < k -> is_Some (logs s !! (k - 1)).

Lemma check_loop_None i m j l err :
  check_loop i m j l err = None <->
    err = None /\ forall s v, s ∈ l -> logs s !! CommandIndex m = Some v -> v = am_Command m.
Proof.
  revert j err. induction l as [|s l IH]; intros j err; cbn [check_loop].
  - split; [|tauto]. intros ->. split; [done|]. intros s v Hs. by apply elem_of_nil in Hs.
  - rewrite IH. unfold Logs. destruct (logs s !! CommandIndex m) as [old|] eqn:Eo.
    + case_decide as Hd.
      * split; [by intros []|]. intros [_ H]. exfalso. apply Hd. apply (H s); [left|done].
      * split.
        -- intros [-> H]. split; [done|]. intros s' v [->|Hs]%elem_of_cons Hv; [|by eapply H].
           rewrite Eo in Hv. injection Hv as <-. destruct (decide (old = am_Command m)); [done|by destruct Hd].
        -- intros [-> H]. split; [done|]. intros s' v Hs. apply H. by right.
    + split; intros [-> H]; (split; [done|]).
      * intros s' v [->|Hs]%elem_of_cons Hv; [congruence|by eapply H].
      * intros s' v Hs. apply H. by right.
Qed.

Lemma agree_insert l i me k v la :
  agree l -> me ∈ l -> (forall s w, s ∈ l -> logs s !! k = Some w -> w = v) ->
  agree (<[i := with_logs (<[k := v]> (logs me)) la me]> l).
Proof.
  intros Ha Hme Hv. assert (forall s j w, s ∈ <[i := with_logs (<[k := v]> (logs me)) la me]> l ->
    logs s !! j = Some w -> (j = k /\ w = v) \/ (exists s', s' ∈ l /\ logs s' !! j = Some w)) as Hs.
  { intros s j w [->|Hin]%elem_of_insert_list Hj; [|right; by exists s].
    cbn [with_logs logs] in Hj. apply lookup_insert_Some in Hj as [[<- <-]|[_ Hj]]; [by left|].
    right. by exists me. }
  intros s s' j w w' H1 H2 E1 E2.
  destruct (Hs s j w H1 E1) as [[Ej ->]|(t & Ht & Et)], (Hs s' j w' H2 E2) as [[Ej' ->]|(t' & Ht' & Et')].
  - done.
  - subst j. symmetry. by eapply Hv.
  - subst j. by eapply Hv.
  - by eapply (Ha t t' j).
Qed.

Lemma contiguous_insert l i me k v la :
  contiguous l -> me ∈ l -> (1 < k -> is_Some (logs me !! (k - 1))) ->
  contiguous (<[i := with_logs (<[k := v]> (logs me)) la me]> l).
Proof.
  intros Hc Hme Hk s j [->|Hs]%elem_of_insert_list Hj H1; [|by apply Hc].
  cbn [with_logs logs] in *. apply lookup_insert_is_Some.
  destruct (decide (k = j - 1)) as [|Hne]; [by left|right]. split; [done|].
  apply lookup_insert_is_Some in Hj as [<-|[_ Hj]]; [by apply Hk|by apply (Hc me)].
Qed.

Lemma checkLogs_spec i m ts ts' err prevok :
  checkLogs i m ts = Ret (ts', err, prevok) ->
  exists me, me ∈ srvs ts /\ idx (srvs ts) i = Ret me /\
    srvs ts' = <[Z.to_nat i := with_logs (<[CommandIndex m := am_Command m]> (logs me)) (rs_lastApplied me) me]> (srvs ts) /\
    err = check_loop i m 0 (srvs ts) None /\
    prevok = bool_decide (is_Some (logs me !! (CommandIndex m - 1))).
Proof.
  unfold checkLogs. intros H. apply res_bind_Ret in H as (me & Hme & H).
  apply res_bind_Ret in H as (l & Hl & H). injection H as <- <- <-. exists me.
  apply set_idx_Ret in Hl as [_ ->]. split_and!; try done.
  apply idx_Ret in Hme as [_ Hme]. by eapply list_elem_of_lookup_2.
Qed.

Lemma order_err_None i m prevok err :
  order_err i m prevok err = None <-> err = None /\ (1 < CommandIndex m -> prevok = true).
Proof.
  unfold order_err. case_decide as Hd.
  - split; [done|]. intros [_ H]. destruct Hd as [? ->]. by specialize (H ltac:(lia)).
  - split; [intros ->|by intros [-> _]]. split; [done|]. intros. destruct prevok; [done|].
    exfalso. apply Hd. split; [lia|done].
Qed.

Lemma applier_sound i m ts ts' :
  applier i m ts = Ret ts' -> agree (srvs ts) -> contiguous (srvs ts) ->
  agree (srvs ts') /\ contiguous (srvs ts').
Proof.
  unfold applier. intros H Ha Hc. case_match; [by injection H as <-|].
  apply res_bind_Ret in H as ([[ts1 err] prevok] & Hcl & H).
  destruct (order_err i m prevok err) eqn:Eo; [done|]. injection H as <-.
  apply order_err_None in Eo as [Herr Hprev].
  apply checkLogs_spec in Hcl as (me & Hme & _ & -> & Hce & Hpe).
  rewrite Herr in Hce. symmetry in Hce. apply check_loop_None in Hce as [_ Hall]. split.
  - by apply agree_insert.
  - apply contiguous_insert; [done|done|]. intros H1. specialize (Hprev H1). rewrite Hpe in Hprev.
    by apply bool_decide_eq_true in Hprev.
Qed.

Section soundness.
Context (dec : bytes -> option (Z * list any)) (n : Z).

Lemma newRfsrv_fresh i ps s : newRfsrv dec n i ps false = Ret s -> logs s = ∅ /\ rs_lastApplied s = 0.
Proof. unfold newRfsrv. intros H. apply res_bind_Ret in H as (rf & _ & H). by injection H as <-. Qed.

Lemma restart_sound i ps ts ts' :
  restart dec n i ps false ts = Ret ts' -> agree (srvs ts) -> contiguous (srvs ts) ->
  agree (srvs ts') /\ contiguous (srvs ts').
Proof.
  unfold restart. intros H Ha Hc. apply res_bind_Ret in H as (s & Hs & H).
  apply res_bind_Ret in H as (l & Hl & H). injection H as <-. apply set_idx_Ret in Hl as [_ ->].
  apply newRfsrv_fresh in Hs as [Hs _]. cbn [srvs]. split.
  - intros s1 s2 k v w [->|H1]%elem_of_insert_list [->|H2]%elem_of_insert_list E1 E2;
      rewrite ?Hs, ?lookup_empty in *; try done. by eapply (Ha s1 s2).
  - intros s1 k [->|H1]%elem_of_insert_list Hk ?; [|by apply Hc].
    rewrite Hs, lookup_empty in Hk. by destruct Hk.
Qed.

Lemma run_sound evs ts ts' :
  run dec n evs ts = Ret ts' -> agree (srvs ts) -> contiguous (srvs ts) ->
  agree (srvs ts') /\ contiguous (srvs ts').
Proof.
  revert ts. induction evs as [|[i m|i ps] evs IH]; intros ts H Ha Hc; cbn [run] in H.
  - by injection H as <-.
  - apply res_bind_Ret in H as (ts1 & H1 & H). destruct (applier_sound _ _ _ _ H1 Ha Hc). by eapply IH.
  - apply res_bind_Ret in H as (ts1 & H1 & H). destruct (restart_sound _ _ _ _ H1 Ha Hc). by eapply IH.
Qed.

End soundness.

Lemma empty_sound ts : empty_test ts -> agree (srvs ts) /\ contiguous (srvs ts).
Proof.
  intros He. split.
  - intros s s' k v w Hs _ Hk _. destruct (He s Hs) as [E _]. by rewrite E, lookup_empty in Hk.
  - intros s k Hs Hk _. destruct (He s Hs) as [E _]. rewrite E, lookup_empty in Hk. by destruct Hk.
Qed.


(** *** Servers that follow one log raise no error *)

Lemma lookup_cons_S {A} (x : A) l i : (x :: l) !! S i = l !! i.
Proof. done. Qed.

Section follow.
Context (enc : Z * list any -> bytes) (dec : bytes -> option (Z * list any)) (n : Z).
Context (L : list any).

(** The snapshot of the first [s] commands. *)
Definition snap_of (s : Z) : bytes := enc (s, AnyNil :: take (Z.to_nat s) L).

Context (codec : forall s, 0 <= s <= zlen L ->
  dec (snap_of s) = Some (s, AnyNil :: take (Z.to_nat s) L) /\ snap_of s <> []).

(** Server [i] is given, after its first [k] commands, the next command, or a snapshot
    that moves it to [s], or another message; or it starts again with no snapshot, or
    with one of the log. *)
Inductive follows_msg (k : Z) (m : ApplyMsg) : Z -> Prop :=
| fm_command : SnapshotValid m = false -> CommandValid m = true -> CommandIndex m = k + 1 ->
    L !! Z.to_nat k = Some (am_Command m) -> follows_msg k m (k + 1)
| fm_snapshot s : SnapshotValid m = true -> 0 <= s <= zlen L -> am_SnapshotIndex m = s ->
    am_Snapshot m = Some (snap_of s) -> follows_msg k m s
| fm_other : SnapshotValid m = false -> CommandValid m = false -> follows_msg k m k.

Inductive follows_restart (ps : Persister) : Z -> Prop :=
| fr_empty : Persister.snapshot ps = [] -> follows_restart ps 0
| fr_snap s : 0 <= s <= zlen L -> Persister.snapshot ps = snap_of s -> follows_restart ps s.

Inductive follows : list Z -> list event -> Prop :=
| follows_nil next : follows next []
| follows_applied next i k m k' evs :
    idx next i = Ret k -> follows_msg k m k' -> follows (<[Z.to_nat i := k']> next) evs ->
    follows next (Applied i m :: evs)
| follows_restarted next i ps k k' evs :
    idx next i = Ret k -> returns (Make n i ps) -> follows_restart ps k' ->
    follows (<[Z.to_nat i := k']> next) evs -> follows next (Restarted i ps :: evs).

Record good_srv (k : Z) (s : rfsrv) : Prop := {
  gs_last : rs_lastApplied s = k;
  gs_range : 0 <= k <= zlen L;
  gs_logs : forall j v, logs s !! j = Some v ->
    (j = 0 /\ v = AnyNil) \/ (1 <= j <= k /\ L !! Z.to_nat (j - 1) = Some v);
  gs_all : forall j, 1 <= j <= k -> logs s !! j = L !! Z.to_nat (j - 1);
}.
Definition good_test (next : list Z) (ts : Test) : Prop := Forall2 good_srv next (srvs ts).

Lemma good_idx next ts i k :
  good_test next ts -> idx next i = Ret k ->
  0 <= i < zlen (srvs ts) /\ exists s, idx (srvs ts) i = Ret s /\ good_srv k s.
Proof.
  intros Hg Hi. pose proof (idx_range _ _ _ Hi) as Hr. apply idx_Ret in Hi as [Hi Hk].
  destruct (Forall2_lookup_l _ _ _ _ _ Hg Hk) as (s & Hs & Hgs). split.
  - unfold zlen in *. by rewrite <- (Forall2_length _ _ _ Hg).
  - exists s. split; [by apply idx_Ret|done].
Qed.

Lemma good_update next ts i k s mx :
  good_test next ts -> good_srv k s ->
  good_test (<[Z.to_nat i := k]> next) (MkTest (<[Z.to_nat i := s]> (srvs ts)) mx).
Proof. intros Hg Hs. by apply Forall2_insert. Qed.

Lemma good_old next ts s j v :
  good_test next ts -> s ∈ srvs ts -> logs s !! j = Some v -> 1 <= j -> L !! Z.to_nat (j - 1) = Some v.
Proof.
  intros Hg [i Hi]%list_elem_of_lookup Hj H1. destruct (Forall2_lookup_r _ _ _ _ _ Hg Hi) as (k & _ & Hgs).
  destruct (gs_logs k s Hgs j v Hj) as [[-> _]|[_ ?]]; [lia|done].
Qed.

Lemma good_fresh i ps rf : good_srv 0 (MkRfsrv i None 0 ps rf ∅).
Proof.
  split; cbn; [done|pose proof (zlen_nonneg L); lia| |lia].
  intros j v Hj. by rewrite lookup_empty in Hj.
Qed.

Lemma good_ingest s rs :
  0 <= s <= zlen L -> good_srv s (with_logs (logs_of (AnyNil :: take (Z.to_nat s) L)) s rs).
Proof.
  intros Hs. split; cbn [with_logs rs_lastApplied logs]; [done|done|..]; unfold logs_of.
  - intros j v [Hj Hv]%lookup_map_seqZ_Some. rewrite Z.sub_0_r in Hv.
    destruct (decide (j = 0)) as [->|Hne]; [left; split; [done|by injection Hv]|right].
    replace (Z.to_nat j) with (S (Z.to_nat (j - 1))) in Hv by lia. cbn in Hv.
    apply lookup_take_Some in Hv as [Hv Hlt]. split; [lia|done].
  - intros j Hj. rewrite lookup_map_seqZ. rewrite option_guard_True by lia. rewrite Z.sub_0_r.
    replace (Z.to_nat j) with (S (Z.to_nat (j - 1))) by lia.
    rewrite lookup_cons_S. by rewrite lookup_take_lt by lia.
Qed.

Lemma good_apply k s v la :
  good_srv k s -> L !! Z.to_nat k = Some v -> la = k + 1 ->
  good_srv (k + 1) (with_logs (<[k + 1 := v]> (logs s)) la s).
Proof.
  intros [Hla Hr Hl Ha] Hv ->. pose proof (lookup_lt_Some _ _ _ Hv) as Hlt.
  split; cbn [with_logs rs_lastApplied logs]; [done|unfold zlen; lia|..].
  - intros j w [[<- <-]|[_ Hj]]%lookup_insert_Some.
    + right. split; [lia|]. by replace (k + 1 - 1) with k by lia.
    + destruct (Hl j w Hj) as [?|[? ?]]; [by left|right; split; [lia|done]].
  - intros j Hj. destruct (decide (j = k + 1)) as [->|Hne].
    + rewrite lookup_insert_eq. by replace (k + 1 - 1) with k by lia.
    + rewrite lookup_insert_ne by done. apply Ha. lia.
Qed.

(** The commands up to [k], as [applierSnap] collects them. *)
Lemma good_xlog k s : good_srv k s -> 0 <= k -> xlog_upto (logs s) k = AnyNil :: take (Z.to_nat k) L.
Proof.
  intros [Hla Hr Hl Ha] Hk. unfold xlog_upto. apply list_eq. intros i.
  rewrite list_lookup_fmap. destruct (decide (Z.of_nat i <= k)) as [Hi|Hi].
  - rewrite lookup_seqZ_lt by lia. cbn [fmap option_fmap option_map]. destruct i as [|i].
    + change (0 + Z.of_nat 0) with 0. change ((AnyNil :: ?l) !! 0%nat) with (Some AnyNil). f_equal.
      destruct (logs s !! 0) as [v|] eqn:E; [|done].
      destruct (Hl 0 v E) as [[_ ->]|[? _]]; [done|lia].
    + rewrite lookup_cons_S. rewrite lookup_take_lt by lia. rewrite Ha by lia.
      replace (Z.to_nat (0 + Z.of_nat (S i) - 1)) with i by lia.
      destruct (lookup_lt_is_Some_2 L i) as [v Hv]; [unfold zlen in Hr; lia|]. by rewrite Hv.
  - rewrite lookup_seqZ_ge by lia. symmetry. apply lookup_ge_None. cbn [length].
    rewrite length_take. lia.
Qed.

(** The calls of [Snapshot] carry the log. *)
Definition good_call (c : Z * bytes) : Prop := 1 <= c.1 <= zlen L /\ c.2 = snap_of c.1.

Lemma applierSnap_command next ts i k m :
  good_test next ts -> idx next i = Ret k -> SnapshotValid m = false -> CommandValid m = true ->
  CommandIndex m = k + 1 -> L !! Z.to_nat k = Some (am_Command m) ->
  exists ts' call, applierSnap enc dec i m ts = Ret (ts', call) /\
    good_test (<[Z.to_nat i := k + 1]> next) ts' /\ Forall good_call (option_list call).
Proof.
  intros Hg Hi Hsv Hcv Hci Hc. destruct (good_idx _ _ _ _ Hg Hi) as (Hr & s & Hs & Hgs).
  pose proof (gs_last k s Hgs) as Hla. pose proof (gs_range k s Hgs) as Hk.
  unfold applierSnap. rewrite Hsv, Hcv, Hs. cbn [res_bind]. rewrite decide_False by lia.
  set (s1 := with_logs (<[k + 1 := am_Command m]> (logs s)) (rs_lastApplied s) s).
  assert (checkLogs i m ts = Ret (MkTest (<[Z.to_nat i := s1]> (srvs ts))
    (if decide (CommandIndex m > maxIndex ts) then CommandIndex m else maxIndex ts), None,
    bool_decide (is_Some (logs s !! k)))) as ->.
  { unfold checkLogs. rewrite Hs. cbn [res_bind]. rewrite (proj2 (set_idx_Ret _ _ _ _)) by (by split).
    cbn [res_bind]. rewrite Hci. replace (k + 1 - 1) with k by lia. do 3 f_equal.
    apply (proj2 (check_loop_None i m 0 (srvs ts) None)). split; [done|]. intros s' v Hs' Hv. rewrite Hci in Hv.
    eapply good_old in Hv; [|done|done|lia]. replace (k + 1 - 1) with k in Hv by lia. congruence. }
  cbn [res_bind]. rewrite (proj2 (order_err_None _ _ _ _)).
  2:{ split; [done|]. intros H1. apply bool_decide_eq_true. rewrite (gs_all k s Hgs) by lia.
      apply lookup_lt_is_Some_2. unfold zlen in Hk. lia. }
  cbn [srvs].
  assert (idx (<[Z.to_nat i := s1]> (srvs ts)) i = Ret s1) as ->.
  { apply idx_Ret. split; [lia|]. apply list_lookup_insert_eq. unfold zlen in Hr. lia. }
  cbn [res_bind]. rewrite (proj2 (set_idx_Ret _ _ _ _)) by (split; [by rewrite zlen_insert|done]).
  cbn [res_bind]. rewrite list_insert_insert_eq. rewrite Hci.
  assert (good_srv (k + 1) (with_logs (logs s1) (k + 1) s1)) as Hgs1.
  { pose proof (good_apply k s (am_Command m) (k + 1) Hgs Hc eq_refl) as [? ? ? ?]. by split. }
  eexists _, _. split; [done|]. split; [by apply good_update|].
  case_decide; [|constructor]. constructor; [|constructor]. split; cbn [fst snd].
  - pose proof (gs_range _ _ Hgs1). lia.
  - unfold snap_of. by rewrite <- (good_xlog (k + 1) _ Hgs1) by lia.
Qed.

Lemma applierSnap_follows next ts i k m k' :
  good_test next ts -> idx next i = Ret k -> follows_msg k m k' ->
  exists ts' call, applierSnap enc dec i m ts = Ret (ts', call) /\
    good_test (<[Z.to_nat i := k']> next) ts' /\ Forall good_call (option_list call).
Proof.
  intros Hg Hi Hm. destruct (good_idx _ _ _ _ Hg Hi) as (Hr & s & Hs & Hgs).
  destruct Hm as [Hsv Hcv Hci Hc|s' Hsv Hs' Hsi Hsn|Hsv Hcv].
  - by eapply applierSnap_command.
  - unfold applierSnap. rewrite Hsv, Hs. cbn [res_bind]. unfold ingestSnap. rewrite Hsn.
    destruct (codec s' Hs') as [-> _]. rewrite decide_False by (by intros []).
    cbn [res_bind]. rewrite (proj2 (set_idx_Ret _ _ _ _)) by (by split). cbn [res_bind].
    eexists _, _. split; [done|]. split; [apply good_update; [done|by apply good_ingest]|constructor].
  - unfold applierSnap. rewrite Hsv, Hcv. eexists _, _. split; [done|]. split; [|constructor].
    apply idx_Ret in Hi as [_ Hi]. by rewrite list_insert_id.
Qed.

Lemma restart_follows next ts i k ps k' :
  good_test next ts -> idx next i = Ret k -> returns (Make n i ps) -> follows_restart ps k' ->
  exists ts', restart dec n i ps true ts = Ret ts' /\ good_test (<[Z.to_nat i := k']> next) ts'.
Proof.
  intros Hg Hi [rf Hmk] Hf. destruct (good_idx _ _ _ _ Hg Hi) as (Hr & _).
  unfold restart, newRfsrv. rewrite Hmk. cbn [res_bind]. unfold ReadSnapshot.
  assert (exists s, (if decide (zlen (Persister.snapshot ps) > 0) then
      let! (s, err) := ingestSnap dec (Some (Persister.snapshot ps)) (-1) (MkRfsrv i None 0 ps (Some rf) ∅) in
      match err with Some _ => Panic Fatal | None => Ret s end
    else Ret (MkRfsrv i None 0 ps (Some rf) ∅)) = Ret s /\ good_srv k' s) as (s & -> & Hs).
  { destruct Hf as [He|s Hs He].
    - rewrite He. rewrite decide_False by (rewrite zlen_nil; lia). eexists. split; [done|]. apply good_fresh.
    - destruct (codec s Hs) as [Hd Hne]. rewrite <- He in Hd, Hne.
      rewrite decide_True by (pose proof (zlen_pos _ Hne); lia). unfold ingestSnap. rewrite Hd.
      rewrite decide_False by (by intros []). eexists. split; [done|]. by apply good_ingest. }
  cbn [res_bind]. rewrite (proj2 (set_idx_Ret _ _ _ _)) by (by split). cbn [res_bind].
  eexists. split; [done|]. by apply good_update.
Qed.

Lemma run_snap_follows next evs ts :
  good_test next ts -> follows next evs ->
  exists ts' calls, run_snap enc dec n evs ts = Ret (ts', calls) /\ Forall good_call calls.
Proof.
  intros Hg Hf. revert ts Hg. induction Hf as [next|next i k m k' evs Hi Hm _ IH|next i ps k k' evs Hi Hmk Hr _ IH];
    intros ts Hg; cbn [run_snap].
  - by eexists _, _.
  - destruct (applierSnap_follows _ _ _ _ _ _ Hg Hi Hm) as (ts1 & call & -> & Hg1 & Hc).
    cbn [res_bind]. destruct (IH ts1 Hg1) as (ts2 & calls & -> & Hcs). eexists _, _. split; [done|].
    by apply Forall_app.
  - destruct (restart_follows _ _ _ _ _ _ Hg Hi Hmk Hr) as (ts1 & -> & Hg1). cbn [res_bind].
    by apply IH.
Qed.
End follow.

(** ** Properties *)

(** C23 (the apply checks).  With the service that takes no snapshots (applier): when any sequence of messages and
    restarts, in any interleaving of the servers, ends without an error, the servers'
    logs hold the same command wherever two of them hold one, and no log has a gap.
    With the one that does (applierSnap, which takes over the log of a snapshot without a check): servers that are given, each in its order, the commands of one log,
    snapshots of it, and restarts from such a snapshot, raise no error, and what they
    hand to Raft's Snapshot is the snapshot of that log at the index handed. *)
Theorem apply_checks enc dec n L ts :
  empty_test ts ->
  (forall s, 0 <= s <= zlen L ->
     dec (snap_of enc L s) = Some (s, AnyNil :: take (Z.to_nat s) L) /\ snap_of enc L s <> []) ->
  (forall evs ts', run dec n evs ts = Ret ts' -> agree (srvs ts') /\ contiguous (srvs ts')) /\
  (forall evs, follows enc n L (replicate (length (srvs ts)) 0) evs ->
     exists ts' calls, run_snap enc dec n evs ts = Ret (ts', calls) /\
       forall k b, (k, b) ∈ calls -> 1 <= k <= zlen L /\ b = snap_of enc L k).
Proof.
  intros He Hc. split.
  - intros evs ts' Hr. destruct (empty_sound ts He). by eapply run_sound.
  - intros evs Hf.
    assert (good_test L (replicate (length (srvs ts)) 0) ts) as Hg.
    { unfold good_test. apply Forall2_same_length_lookup. split; [by rewrite length_replicate|].
      intros i k s [-> _]%lookup_replicate Hs. destruct (He s (list_elem_of_lookup_2 _ _ _ Hs)) as [E1 E2].
      split; [done|pose proof (zlen_nonneg L); lia| |lia]. intros j v Hj. by rewrite E1, lookup_empty in Hj. }
    destruct (run_snap_follows enc dec n L Hc _ evs ts Hg Hf) as (ts' & calls & -> & Hcs).
    exists ts', calls. split; [done|]. intros k b Hin. by apply (proj1 (Forall_forall _ _) Hcs (k, b)).
Qed.

(** *** Example *)

Definition ex_log : list any := AnyInt <$> seqZ 1 12.
(** A codec for the snapshots of [ex_log]: one byte with the index. *)
Definition ex_enc (x : Z * list any) : bytes := default [] (option_map (fun b => [b]) (Byte.of_N (Z.to_N x.1))).
Definition ex_dec (b : bytes) : option (Z * list any) :=
  match b with
  | [b] => let s := Z.of_N (Byte.to_N b) in Some (s, AnyNil :: take (Z.to_nat s) ex_log)
  | _ => None
  end.
Definition ex_servers : Test :=
  MkTest ((fun i => MkRfsrv i None 0 MakePersister None ∅) <$> seqZ 0 2) 0.
Definition ex_msg (k : Z) : ApplyMsg := command_msg (AnyInt k) k.

Lemma follows_prefix enc n L k next i j evs :
  (forall m, (m < k)%nat -> L !! (j + m)%nat = Some (AnyInt (Z.of_nat (j + m) + 1))) ->
  idx next i = Ret (Z.of_nat j) -> follows enc n L (<[Z.to_nat i := Z.of_nat (j + k)]> next) evs ->
  follows enc n L next ((Applied i ∘ ex_msg <$> seqZ (Z.of_nat j + 1) (Z.of_nat k)) ++ evs).
Proof.
  revert j next. induction k as [|k IH]; intros j next HL Hi Hf.
  - cbn. rewrite Nat.add_0_r in Hf. apply idx_Ret in Hi as [_ Hi]. by rewrite list_insert_id in Hf.
  - rewrite seqZ_cons by lia. rewrite fmap_cons. cbn [app compose].
    pose proof (idx_range _ _ _ Hi) as Hr.
    apply (follows_applied _ _ _ _ _ (Z.of_nat j) _ (Z.of_nat j + 1)); [done| |].
    + apply fm_command; [done|done|done|]. rewrite Nat2Z.id. specialize (HL 0%nat ltac:(lia)).
      by rewrite Nat.add_0_r in HL.
    + replace (Z.succ (Z.of_nat j + 1)) with (Z.of_nat (S j) + 1) by lia.
      replace (Z.pred (Z.of_nat (S k))) with (Z.of_nat k) by lia. apply IH.
      * intros m Hm. replace (S j + m)%nat with (j + S m)%nat by lia. apply HL. lia.
      * apply idx_Ret. split; [lia|]. rewrite list_lookup_insert_eq by (unfold zlen in Hr; lia). f_equal. lia.
      * rewrite list_insert_insert_eq. by replace (S j + k)%nat with (j + S k)%nat by lia.
Qed.

Lemma apply_checks_witness :
  exists ts calls,
    run_snap ex_enc ex_dec 2 ((Applied 0 ∘ ex_msg <$> seqZ 1 10) ++
      [Applied 1 (MkApplyMsg false AnyNil 0 true (Some [Byte.x09]) 1 9); Applied 1 (ex_msg 10)]) ex_servers
      = Ret (ts, calls) /\ calls = [(9, [Byte.x09])].
Proof.
  destruct (apply_checks ex_enc ex_dec 2 ex_log ex_servers) as [_ H].
  - intros s (i & -> & _)%list_elem_of_fmap. done.
  - intros s Hs. change (zlen ex_log) with 12 in Hs.
    assert (s ∈ seqZ 0 13) as Hin by (apply elem_of_seqZ; lia). clear Hs.
    change (seqZ 0 13) with [0; 1; 2; 3; 4; 5; 6; 7; 8; 9; 10; 11; 12] in Hin.
    repeat (apply elem_of_cons in Hin as [->|Hin]; [by split|]). by apply elem_of_nil in Hin.
  - destruct (H ((Applied 0 ∘ ex_msg <$> seqZ 1 10) ++
      [Applied 1 (MkApplyMsg false AnyNil 0 true (Some [Byte.x09]) 1 9); Applied 1 (ex_msg 10)]))
      as (ts & calls & Hr & _).
    + apply (follows_prefix _ _ _ 10 _ 0 0).
      * intros m Hm. repeat (destruct m as [|m]; [done|]). lia.
      * done.
      * apply (follows_applied _ _ _ _ _ 0 _ 9); [done|apply fm_snapshot; done|].
        apply (follows_applied _ _ _ _ _ 9 _ 10); [done|by apply fm_command|constructor].
    + eexists ts, calls. split; [done|]. vm_compute in Hr. by injection Hr as <- <-.
Defined.

(** ** The leader check *)

(** The connected servers seen as leaders of term [t], from index [i] on. *)
Fixpoint who (t i : Z) (obs : list seen) : list Z :=
  match obs with
  | [] => []
  | s :: obs =>
      if connected s && seen_leader s && bool_decide (seen_term s = t) then i :: who t (i + 1) obs
      else who t (i + 1) obs
  end.

Lemma collect_who t i obs m :
  collect i obs m !! t =
    match m !! t, who t i obs with
    | None, [] => None
    | o, l => Some (default [] o ++ l)
    end.
Proof.
  revert i m. induction obs as [|s obs IH]; intros i m; cbn [collect who].
  - destruct (m !! t); [by rewrite app_nil_r|done].
  - rewrite IH. destruct (connected s && seen_leader s) eqn:Ecl; cbn [andb]; [|done].
    destruct (decide (seen_term s = t)) as [<-|Hne].
    + rewrite bool_decide_true, lookup_insert_eq by done. cbn [from_option].
      destruct (m !! seen_term s); cbn; by rewrite <- ?app_assoc.
    + by rewrite bool_decide_false, lookup_insert_ne by done.
Qed.

Lemma who_elem t i obs j :
  j ∈ who t i obs <-> exists s, i <= j /\ obs !! Z.to_nat (j - i) = Some s /\
    connected s = true /\ seen_leader s = true /\ seen_term s = t.
Proof.
  revert i. induction obs as [|s obs IH]; intros i; cbn [who].
  - split; [by intros ?%elem_of_nil|]. by intros (s & _ & ? & _).
  - assert ((exists s0, i + 1 <= j /\ obs !! Z.to_nat (j - (i + 1)) = Some s0 /\ connected s0 = true /\
        seen_leader s0 = true /\ seen_term s0 = t) <->
      exists s0, i < j /\ (s :: obs) !! Z.to_nat (j - i) = Some s0 /\ connected s0 = true /\
        seen_leader s0 = true /\ seen_term s0 = t) as Htail.
    { split; intros (s0 & Hj & Hl & ?); exists s0; (split; [lia|]); (split; [|done]);
        replace (Z.to_nat (j - i)) with (S (Z.to_nat (j - (i + 1)))) in * by lia; done. }
    destruct (connected s && seen_leader s && bool_decide (seen_term s = t)) eqn:E.
    + bool_to_prop. rewrite elem_of_cons, IH, Htail. split.
      * intros [->|(s0 & ? & ?)]; [exists s; rewrite Z.sub_diag; by split_and!|exists s0; split; [lia|done]].
      * intros (s0 & Hj & ?). destruct (decide (j = i)) as [|]; [by left|right].
        exists s0. split; [lia|done].
    + rewrite IH, Htail. split.
      * intros (s0 & ? & ?). exists s0. split; [lia|done].
      * intros (s0 & Hj & Hl & Hc & Hs & Ht). exists s0. split; [|done].
        destruct (decide (j = i)) as [->|]; [|lia]. rewrite Z.sub_diag in Hl. injection Hl as <-.
        rewrite Hc, Hs, bool_decide_true in E by done. done.
Qed.

Lemma last_term_Ret leaders t :
  last_term leaders = Ret t -> (forall t' l, leaders !! t' = Some l -> zlen l <= 1 /\ t' <= t) /\
    (t = -1 \/ is_Some (leaders !! t)).
Proof.
  unfold last_term. case_decide as Hone; [|done]. intros H. injection H as <-.
  enough ((forall t' l, leaders !! t' = Some l -> t' <= map_fold
      (fun term _ last => if decide (term > last) then term else last) (-1) leaders) /\
    (map_fold (fun term (_ : list Z) last => if decide (term > last) then term else last) (-1) leaders = -1 \/
      is_Some (leaders !! map_fold (fun term _ last => if decide (term > last) then term else last) (-1) leaders)))
    as [H1 H2].
  { split; [|done]. intros t' l Hl. split; [by apply (Hone t')|by eapply H1]. }
  clear Hone. apply (map_fold_weak_ind (fun r m => (forall t' l, m !! t' = Some l -> t' <= r) /\
    (r = -1 \/ is_Some (m !! r)))).
  - split; [|by left]. intros t' l Hl. by rewrite lookup_empty in Hl.
  - intros k x m r Hk [IH1 IH2]. split.
    + intros t' l Hl. apply lookup_insert_Some in Hl as [[<- _]|[_ Hl]]; [case_decide; lia|].
      pose proof (IH1 t' l Hl). case_decide; lia.
    + case_decide; [right; rewrite lookup_insert_eq; by eexists|].
      destruct IH2 as [?|Hs]; [by left|right]. apply lookup_insert_is_Some. destruct (decide (k = r)); [by left|by right].
Qed.

(** The server [checkOneLeader] returns was seen, connected, as the only leader of the
    latest term that had one. *)
Lemma checkOneLeader_Ret iters i :
  checkOneLeader iters = Ret i ->
  (forall obs s, obs ∈ iters -> s ∈ obs -> 0 <= seen_term s) ->
  exists obs s, obs ∈ iters /\ idx obs i = Ret s /\ connected s = true /\ seen_leader s = true /\
    forall j s', idx obs j = Ret s' -> connected s' = true -> seen_leader s' = true ->
      seen_term s' <= seen_term s /\ (seen_term s' = seen_term s -> j = i).
Proof.
  induction iters as [|obs iters IH]; intros H Hpos; [done|]. cbn [checkOneLeader] in H.
  apply res_bind_Ret in H as (t & Ht & H). apply last_term_Ret in Ht as [H1 H2].
  case_decide as Hne.
  2:{ destruct IH as (o & s & Ho & ?); [done|intros o s Ho; apply Hpos; by right|].
      exists o, s. split; [by right|done]. }
  assert (forall j s', idx obs j = Ret s' -> connected s' = true -> seen_leader s' = true ->
    j ∈ who (seen_term s') 0 obs) as Hwho.
  { intros j s' [Hj Hs']%idx_Ret Hc Hl. apply who_elem. exists s'. rewrite Z.sub_0_r. by split_and!. }
  assert (forall t' j, j ∈ who t' 0 obs -> exists l, collect 0 obs ∅ !! t' = Some l /\ l = who t' 0 obs) as Hcol.
  { intros t' j Hj. rewrite collect_who, lookup_empty. destruct (who t' 0 obs) eqn:E; [by apply elem_of_nil in Hj|].
    by eexists. }
  apply idx_Ret in H as [_ Hi]. rewrite collect_who, lookup_empty in Hi.
  assert (who t 0 obs !! 0%nat = Some i) as Hw by (by destruct (who t 0 obs)).
  pose proof (list_elem_of_lookup_2 _ _ _ Hw) as Hin. pose proof Hin as (s & Hi0 & Hs & Hc & Hl & Hst)%who_elem.
  rewrite Z.sub_0_r in Hs. exists obs, s. split_and!; [by left|by apply idx_Ret|done|done|].
  intros j s' Hj Hc' Hl'. pose proof (Hwho j s' Hj Hc' Hl') as Hjw.
  destruct (Hcol _ _ Hjw) as (l & Hcl & ->). destruct (H1 _ _ Hcl) as [Hlen Hle]. rewrite Hst.
  split; [done|]. intros Heq. rewrite Heq in *. destruct (who t 0 obs) as [|x [|y l]] eqn:E; [done| |].
  - apply list_elem_of_singleton in Hjw. apply list_elem_of_singleton in Hin. congruence.
  - rewrite !zlen_cons in Hlen. pose proof (zlen_nonneg l). lia.
Qed.

(** ** one *)

(** What the outer loop of [one] sees in one turn: of each server, whether it is connected and
    its peer when it is asked; then the test at each poll. *)
Record turn := MkTurn { servers : list (bool * option Raft.Raft); polls : list Test }.

(** [for range ts.srvs]: the server [starts] was left at, and the one that took the command, with
    its peer afterwards and the index. *)
Fixpoint start_loop (fuel : nat) (cmd : any) (l : list (bool * option Raft.Raft)) (starts : Z)
    : res (Z * option (Raft.Raft * Z)) :=
  match fuel with
  | O => Ret (starts, None)
  | S fuel =>
      let starts := Z.rem (starts + 1) (zlen l) in
      let! (conn, raft) := idx l starts in
      match (if (conn : bool) then raft else None) with
      | Some rf =>
          let '(rf, (index1, _, ok)) := Start cmd rf in
          if (ok : bool) then Ret (starts, Some (rf, index1)) else start_loop fuel cmd l starts
      | None => start_loop fuel cmd l starts
      end
  end.

(** The polls for agreement, [None] when there is none in time. *)
Fixpoint poll_loop (cmd : any) (expectedServers index : Z) (l : list Test) : res (option Z) :=
  match l with
  | [] => Ret None
  | ts :: l =>
      let! (nd, cmd1) := nCommitted index ts in
      if decide ((nd > 0 /\ nd >= expectedServers) /\ cmd1 = cmd) then Ret (Some index)
      else poll_loop cmd expectedServers index l
  end.

(** The turns there is time for; [finished] is what [checkFinished] says after them. *)
Fixpoint one_loop (cmd : any) (expectedServers : Z) (retry finished : bool) (turns : list turn)
    (starts : Z) : res Z :=
  match turns with
  | [] => if finished then Ret (-1) else Panic Fatal
  | t :: turns =>
      let! (starts, taken) := start_loop (length (servers t)) cmd (servers t) starts in
      match taken with
      | None => one_loop cmd expectedServers retry finished turns starts
      | Some (_, index) =>
          let! agreed := poll_loop cmd expectedServers index (polls t) in
          match agreed with
          | Some index => Ret index
          | None => if retry then one_loop cmd expectedServers retry finished turns starts else Panic Fatal
          end
      end
  end.
Definition one (cmd : any) (expectedServers : Z) (retry finished : bool) (turns : list turn) : res Z :=
  one_loop cmd expectedServers retry finished turns 0.

(** How many servers have applied [cmd] at [index]. *)
Definition n_applied (index : Z) (cmd : any) (ts : Test) : Z :=
  zlen (filter (fun rs => Logs index rs = Some cmd) (srvs ts)).

Lemma nCommitted_loop_count index l c cmd n cmd' :
  nCommitted_loop index l c cmd = Ret (n, cmd') -> 0 <= c ->
  c <= n /\ (0 < c -> cmd' = cmd) /\
  n = c + zlen (filter (fun rs => Logs index rs = Some cmd') l) /\
  forall rs, rs ∈ l -> forall v, Logs index rs = Some v -> v = cmd'.
Proof.
  revert c cmd. induction l as [|rs l IH]; intros c cmd H Hc; cbn [nCommitted_loop] in H.
  { injection H as <- <-. rewrite filter_nil. split_and!; try done; try lia.
    - rewrite zlen_nil. lia.
    - intros rs Hrs. by apply not_elem_of_nil in Hrs. }
  case_decide; [done|]. destruct (Logs index rs) as [v|] eqn:E.
  - case_decide as Hd; [done|]. destruct (IH (c + 1) v H ltac:(lia)) as (H1 & H2 & H3 & H4).
    specialize (H2 ltac:(lia)). subst cmd'. rewrite filter_cons_True by done. rewrite zlen_cons.
    split_and!; [lia| |lia|].
    + intros Hc'. destruct (decide (cmd = v)); [done|]. destruct Hd. split; [lia|done].
    + intros rs' [->|Hr]%elem_of_cons v' Hv'; [congruence|by eapply H4].
  - destruct (IH c cmd H Hc) as (H1 & H2 & H3 & H4). rewrite filter_cons_False by (rewrite E; congruence).
    split_and!; try done. intros rs' [->|Hr]%elem_of_cons v' Hv'; [congruence|by eapply H4].
Qed.

Lemma poll_loop_agreed cmd e index l i :
  poll_loop cmd e index l = Ret (Some i) ->
  i = index /\ exists ts, ts ∈ l /\ 0 < n_applied index cmd ts /\ e <= n_applied index cmd ts /\
    forall rs, rs ∈ srvs ts -> forall v, Logs index rs = Some v -> v = cmd.
Proof.
  induction l as [|ts l IH]; cbn [poll_loop]; [done|]. intros H. inv_res. destruct a as [nd cmd1].
  case_decide as Hd.
  - inv_res. destruct Hd as [[Hp He] ->].
    destruct (nCommitted_loop_count _ _ _ _ _ _ E ltac:(lia)) as (_ & _ & Hn & Hall).
    split; [done|]. exists ts. split; [by left|]. unfold n_applied. split_and!; [lia|lia|done].
  - destruct (IH H) as (-> & ts' & Hin & ?). split; [done|]. exists ts'. split; [by right|done].
Qed.

Lemma start_loop_taken fuel cmd l starts s rf' i :
  start_loop fuel cmd l starts = Ret (s, Some (rf', i)) ->
  exists rf, l !! Z.to_nat s = Some (true, Some rf) /\ state rf = Leader /\
    killed rf = false /\ i = Loglen rf /\ rf' = (Start cmd rf).1 /\
    Log rf' = Log rf ++ [MkLogEntry (CurrentTerm rf) cmd].
Proof.
  revert starts. induction fuel as [|fuel IH]; intros starts H; cbn [start_loop] in H; [done|].
  inv_res. destruct a as [conn raft]. apply idx_Ret in E as [_ E].
  destruct conn; [|by apply IH in H]. destruct raft as [rf|]; [|by apply IH in H].
  destruct (Start cmd rf) as [rf1 [[i1 t1] ok]] eqn:Es. destruct ok; [|by apply IH in H].
  injection H as <- <- <-. unfold Start in Es. destruct (killed rf) eqn:Ek; [done|].
  case_decide as Hst; [done|]. injection Es as <- <- <-. exists rf. split_and!; try done.
  unfold Start. rewrite Ek. by case_decide.
Qed.

Lemma one_loop_Ret cmd e retry finished turns starts i :
  one_loop cmd e retry finished turns starts = Ret i ->
  i = -1 /\ finished = true \/
  exists t s rf ts, t ∈ turns /\ servers t !! s = Some (true, Some rf) /\ state rf = Leader /\ i = Loglen rf /\
    ts ∈ polls t /\ 0 < n_applied i cmd ts /\ e <= n_applied i cmd ts /\
    forall rs, rs ∈ srvs ts -> forall v, Logs i rs = Some v -> v = cmd.
Proof.
  revert starts. induction turns as [|t turns IH]; intros starts H; cbn [one_loop] in H.
  { destruct finished; [|done]. injection H as <-. by left. }
  assert (forall starts, one_loop cmd e retry finished turns starts = Ret i ->
    i = -1 /\ finished = true \/
    exists t' s rf ts, t' ∈ t :: turns /\ servers t' !! s = Some (true, Some rf) /\ state rf = Leader /\ i = Loglen rf /\
      ts ∈ polls t' /\ 0 < n_applied i cmd ts /\ e <= n_applied i cmd ts /\
      forall rs, rs ∈ srvs ts -> forall v, Logs i rs = Some v -> v = cmd) as Hrest.
  { intros st Hst. destruct (IH st Hst) as [?|(t' & s & rf & ts & Ht & H')]; [by left|right].
    exists t', s, rf, ts. split; [by right|done]. }
  inv_res. destruct a as [s taken]. destruct taken as [[rf' index]|]; [|by eapply Hrest].
  apply start_loop_taken in E as (rf & Hl & Hst & _ & -> & _). inv_res. destruct a as [i'|].
  - injection H as <-. apply poll_loop_agreed in E as (-> & ts & Hin & Hagree).
    right. exists t, (Z.to_nat s), rf, ts. split; [by left|]. done.
  - destruct retry; [by eapply Hrest|done].
Qed.

(** Agreement.  [one] answers -1 only when the test is over.  Any other answer is the index
    that a connected leader gave the command, and when it was seen there at least the expected
    number of servers, one at least, had applied the command at that index, and no server anything
    else. *)
Lemma one_agreement cmd expectedServers retry finished turns i :
  one cmd expectedServers retry finished turns = Ret i ->
  i = -1 /\ finished = true \/
  exists t s rf ts, t ∈ turns /\ servers t !! s = Some (true, Some rf) /\ state rf = Leader /\ i = Loglen rf /\
    ts ∈ polls t /\ 0 < n_applied i cmd ts /\ expectedServers <= n_applied i cmd ts /\
    forall rs, rs ∈ srvs ts -> forall v, Logs i rs = Some v -> v = cmd.
Proof. apply one_loop_Ret. Qed.

(** Three servers; the second leads, and two have applied the command when it is looked for again. *)
Definition ex_leader : Raft.Raft := (fresh 3 1 MakePersister) <| state := Leader |> <| CurrentTerm := 1 |>.
Definition ex_applied (l : list (gmap Z any)) : Test :=
  MkTest ((fun lg => MkRfsrv 0 None 0 MakePersister None lg) <$> l) 0.
Definition ex_turns : list turn :=
  [MkTurn [(true, Some (fresh 3 0 MakePersister)); (true, Some ex_leader); (false, None)]
     [ex_applied [∅; {[1 := AnyInt 5]}; ∅]; ex_applied [{[1 := AnyInt 5]}; {[1 := AnyInt 5]}; ∅]]].

Lemma one_agreement_ex :
  one (AnyInt 5) 2 false false ex_turns = Ret 1 /\
  (1 = -1 /\ false = true \/
  exists t s rf ts, t ∈ ex_turns /\ servers t !! s = Some (true, Some rf) /\ state rf = Leader /\ 1 = Loglen rf /\
    ts ∈ polls t /\ 0 < n_applied 1 (AnyInt 5) ts /\ 2 <= n_applied 1 (AnyInt 5) ts /\
    forall rs, rs ∈ srvs ts -> forall v, Logs 1 rs = Some v -> v = AnyInt 5).
Proof.
  assert (one (AnyInt 5) 2 false false ex_turns = Ret 1) as H by by vm_compute.
  split; [exact H|]. exact (one_agreement (AnyInt 5) 2 false false ex_turns 1 H).
Defined.
End RaftTest.
