(* ===== verification/RaftChecks.v ===== *)
(** * RaftChecks: Raft under its tests (src/src/raft1/raft.go, server.go, test.go)

    The peers of RaftSystem with their apply workers, the channels on which these send, the
    services of the tests that read the channels, and the servers the tests start again, as
    one step relation, in any scope of RaftSystem.  In the scope [prompt], with an odd number of
    servers, the tests raise no false alarm: no reader reports an error and no count of the servers that
    applied an entry fails.  In every scope, with any number of servers, a look at the servers one after
    the other never shows two leaders of a term. *)
From stdpp Require Import functions.
From S2P Require Import Prelude Persister Raft RaftLeader RaftElection RaftSystem RaftSafety RaftTest.
Import Raft Replication Election Cluster RaftSystem RaftSafety.
Local Open Scope Z_scope.
Local Open Scope go_scope.

Module RaftChecks.

(** ** The system and its tests *)

(** Of each peer: where its apply worker is, and the messages it has sent that the reader of the
    channel has not dealt with, the oldest first. *)
Record world := MkWorld {
  sys : system;
  pcs : Z -> apply_pc;
  chans : Z -> list ApplyMsg;
  test : RaftTest.Test;
}.

(** No peer sends to its service, and none that did starts again. *)
Definition silent (n : Z) (s s' : system) : Prop :=
  forall i, 0 <= i < n -> lastApplied (nodes (peers s') i) = lastApplied (nodes (peers s) i).

Section world.
Context (sc : scope) (dec : bytes -> option (Z * list any)) (n : Z).

Inductive wstep : world -> world -> Prop :=
(* anything that happens to the peers and between them *)
| w_system s s' pc ch ts : sstep sc n s s' -> silent n s s' -> wstep (MkWorld s pc ch ts) (MkWorld s' pc ch ts)
(* the apply worker of [i]: what it sends is put on the channel *)
| w_apply i s pc ch ts rf msg pc' :
    0 <= i < n -> apply_step (pc i) (nodes (peers s) i) = Ret (rf, msg, pc') ->
    wstep (MkWorld s pc ch ts)
      (MkWorld (update i rf s) (<[i := pc']> pc) (<[i := ch i ++ option_list msg]> ch) ts)
(* the service of [i] deals with a message *)
| w_read i m rest s pc ch ts ts' :
    0 <= i < n -> ch i = m :: rest -> RaftTest.applier i m ts = Ret ts' ->
    wstep (MkWorld s pc ch ts) (MkWorld s pc (<[i := rest]> ch) ts')
(* server [i] is shut down and started again: a peer and a service made anew *)
| w_restart i c' ats ms hs sn c pc ch ts rf ts' :
    0 <= i < n -> Make n i (persister (nodes c i)) = Ret rf ->
    c' = MkCluster (<[i := rf]> (nodes c)) (<[i := None]> (worker c)) (flights c)
           (elections c) (sent c) (votes c) (won c) ->
    RaftTest.restart dec n i (persister (nodes c i)) false ts = Ret ts' ->
    wstep (MkWorld (MkSystem c ats ms hs sn) pc ch ts)
      (MkWorld (MkSystem c' ats ms hs sn) (<[i := ApWait]> pc) (<[i := []]> ch) ts').

(** The servers of a test that begins. *)
Definition winit (w : world) : Prop :=
  sinit n (sys w) /\ (forall i, pcs w i = ApWait) /\ (forall i, chans w i = []) /\
  zlen (RaftTest.srvs (test w)) = n /\ RaftTest.empty_test (test w) /\
  forall rs, rs ∈ RaftTest.srvs (test w) -> RaftTest.applyErr rs = None.

(** ** What holds of a service *)











End world.

(** ** Steps keep it *)

Section invariant.
Context (dec : bytes -> option (Z * list any)) (n : Z) (Hn : 0 <= n) (Hodd : Z.Odd n).









(** The peers of a test are a system of RaftSystem. *)
Lemma world_reached w : reachable (wstep prompt dec n) (winit n) w -> reached n (sys w).
Proof.
  induction 1 as [w [Hw _]|w w' _ IH Hstep]; [by constructor|].
  destruct Hstep as [s s' pc ch ts Hs _|i s pc ch ts rf msg pc' Hi Ha|
    |i c' ats ms hs sn c pc ch ts rf ts' Hi HM -> Hts]; cbn [sys] in *; [..|done|].
  - by eapply reach_step.
  - eapply reach_step; [exact IH|by eapply apply_sstep].
  - eapply reach_step; [exact IH|]. by apply ss_local, st_crash.
Qed.



End invariant.

(** ** Looking for the leader *)

(** What the test sees of a peer. *)
Definition look (conn : bool) (rf : Raft) : RaftTest.seen :=
  let '(term, leader) := GetState rf in RaftTest.MkSeen conn term leader.

(** The servers from [i] on are asked one after the other, while the system goes on. *)
Inductive looked (sc : scope) (n : Z) : Z -> system -> list RaftTest.seen -> system -> Prop :=
| lk_end i s s' : rtc (sstep sc n) s s' -> looked sc n i s [] s'
| lk_next i s s1 conn obs s' :
    rtc (sstep sc n) s s1 -> looked sc n (i + 1) s1 obs s' ->
    looked sc n i s (look conn (nodes (peers s1) i) :: obs) s'.

(** All [n] servers, again and again. *)
Inductive looked_often (sc : scope) (n : Z) : system -> list (list RaftTest.seen) -> Prop :=
| lo_end s : looked_often sc n s []
| lo_next s obs s' iters :
    zlen obs = n -> looked sc n 0 s obs s' -> looked_often sc n s' iters -> looked_often sc n s (obs :: iters).

(** What the check needs of the system, in any scope: the invariant of the elections, and that their terms
    are positive. *)
Record elected_ok (n : Z) (c : cluster) : Prop := {
  eo_inv : inv n c;
  eo_term : forall i, 0 <= i < n -> 0 <= CurrentTerm (nodes c i);
  eo_worker : forall i el, worker c i = Some el -> 1 <= ElectionTerm el;
  eo_won : forall t x, won c t x -> 1 <= t;
}.

Lemma terms_insert n (f : Z -> Raft) i rf :
  (forall j, 0 <= j < n -> 0 <= CurrentTerm (f j)) -> 0 <= i < n -> CurrentTerm (f i) <= CurrentTerm rf ->
  forall j, 0 <= j < n -> 0 <= CurrentTerm (<[i := rf]> f j).
Proof.
  intros Hf Hi Hle j Hj. destruct (decide (j = i)) as [->|Hne]; [rewrite fn_lookup_insert; specialize (Hf i Hi); lia|].
  rewrite fn_lookup_insert_ne by done. by apply Hf.
Qed.

Lemma worker_insert (f : Z -> option election) i w :
  (forall j el, f j = Some el -> 1 <= ElectionTerm el) -> (forall el, w = Some el -> 1 <= ElectionTerm el) ->
  forall j el, <[i := w]> f j = Some el -> 1 <= ElectionTerm el.
Proof.
  intros Hf Hw j el. destruct (decide (j = i)) as [->|Hne]; [rewrite fn_lookup_insert; apply Hw|].
  rewrite fn_lookup_insert_ne by done. apply Hf.
Qed.

Lemma on_reply_le T v reply rf rf' next :
  on_reply T v reply rf = Ret (rf', next) -> CurrentTerm rf <= CurrentTerm rf'.
Proof.
  intros (_ & _ & _ & H)%on_reply_spec. destruct next; [apply H| |by destruct H as [-> _]].
  destruct H as (_ & _ & _ & _ & (?&?&?&?&?&?) & _). lia.
Qed.

Lemma gstep_elected n c c' : elected_ok n c -> gstep local_step n c c' -> elected_ok n c'.
Proof.
  intros [Hinv Ht Hw Hwon] Hs. pose proof (gstep_inv local_step n c c' local_step_ok Hinv Hs) as Hinv'.
  assert (forall i rf, step_ok (nodes c i) rf -> CurrentTerm (nodes c i) <= CurrentTerm rf) as Hle by (intros i rf H; apply H).
  destruct Hs as [i id rf' c Hi _ _ H| | |id p args rf' reply c Hp _ H|id p args rf' reply result c Hp _ _ H _| |
    |i el p reply rf' next c Hi Hel _ _ H|i el c Hi Hel _|i el c Hi Hel _|i el c Hi Hel _|i rf' c Hi H|i rf' c Hi H];
    (split; [done|..]); cbn [nodes worker won]; try done.
  - apply terms_insert; [done|done|]. apply Hle. by eapply start_election_ok.
  - apply worker_insert; [done|]. intros el [= <-]. cbn. apply start_election_spec in H as (_ & _ & -> & _).
    specialize (Ht i Hi). lia.
  - apply terms_insert; [done|done|]. apply Hle. by eapply RequestVote_ok.
  - apply terms_insert; [done|done|]. apply Hle. by eapply RequestVote_ok.
  - apply terms_insert; [done|done|]. by eapply on_reply_le.
  - apply worker_insert; [done|]. intros el' E. destruct next; simplify_eq. exact (Hw _ _ Hel).
  - intros t x [?|(_ & -> & _)]; [by eapply Hwon|by eapply Hw].
  - apply worker_insert; [done|]. done.
  - apply terms_insert; [done|done|]. apply Hle, on_abort_ok.
  - apply worker_insert; [done|]. done.
  - apply terms_insert; [done|done|]. apply Hle, stay_follower_ok.
  - apply worker_insert; [done|]. done.
  - apply terms_insert; [done|done|]. by apply Hle, local_step_ok.
  - destruct (inv_node _ _ Hinv i Hi) as [Hn Hm Hsy Hl _ _ _ _].
    apply terms_insert; [done|done|]. destruct (Make_vote_ok _ _ _ _ Hn Hm Hsy Hl H) as [(_ & _ & ? & _) _]. done.
  - apply worker_insert; [done|]. done.
Qed.

Lemma with_node_elected n c i rf :
  elected_ok n c -> 0 <= i < n -> step_ok (nodes c i) rf -> elected_ok n (with_node i rf c).
Proof.
  intros [Hinv Ht Hw Hwon] Hi Hok. split; [by apply with_node_inv| |done|done].
  apply terms_insert; [done|done|apply Hok].
Qed.

Lemma sstep_elected sc n s s' : elected_ok n (peers s) -> sstep sc n s s' -> elected_ok n (peers s').
Proof.
  intros He Hs. destruct Hs; cbn [peers] in *; try apply with_node_elected;
    eauto using gstep_elected, local_step_ok, prepare_ok, handle_AE_ok, on_AE_reply_ok, on_timeout_ok,
      AE_check_ok, AE_store_ok, Snapshot_ok, InstallSnapshot_ok, on_IS_reply_ok.
Qed.

(** Who has won has won. *)
Lemma sstep_won sc n s s' t x : sstep sc n s s' -> won (peers s) t x -> won (peers s') t x.
Proof.
  destruct 1 as [c c' ats ms hs sn Hg| | | | | | | | | | | | | | | |]; try done. cbn [peers]. destruct Hg; cbn; auto.
Qed.

Section leaders.
Context (sc : scope) (n : Z) (Hn : 0 <= n).

Lemma reachable_elected s : reachable (sstep sc n) (sinit n) s -> elected_ok n (peers s).
Proof.
  induction 1 as [s [Hi _]|s s' _ IH Hs]; [|by eapply sstep_elected].
  pose proof Hi as (Hm & Hw & _ & _ & _ & _ & Hwon). split; [by apply inv_init|..].
  - intros i Hin. specialize (Hm i Hin). cbn in Hm. injection Hm as <-. done.
  - intros i el. by rewrite Hw.
  - by intros t x ?%Hwon.
Qed.

Lemma run_elected s s' :
  elected_ok n (peers s) -> rtc (sstep sc n) s s' ->
  elected_ok n (peers s') /\ forall t x, won (peers s) t x -> won (peers s') t x.
Proof.
  intros He Hr. induction Hr as [s|s s1 s' Hs _ IH]; [done|].
  destruct IH as [H1 H2]; [by eapply sstep_elected|]. split; [done|]. intros t x Hx. eapply H2, sstep_won; done.
Qed.

Lemma looked_won i s obs s' :
  elected_ok n (peers s) -> looked sc n i s obs s' -> 0 <= i -> i + zlen obs <= n ->
  elected_ok n (peers s') /\ (forall t x, won (peers s) t x -> won (peers s') t x) /\
    forall k sn, obs !! k = Some sn -> RaftTest.seen_leader sn = true ->
      won (peers s') (RaftTest.seen_term sn) (i + Z.of_nat k).
Proof.
  intros Hg Hl. revert Hg. induction Hl as [i s s' Hr|i s s1 conn obs s' Hr Hl IH]; intros Hg Hi Hlen.
  { destruct (run_elected _ _ Hg Hr) as (Hg' & He). by split_and!. }
  rewrite zlen_cons in Hlen. pose proof (zlen_nonneg obs).
  destruct (run_elected _ _ Hg Hr) as (Hg1 & He1).
  destruct (IH Hg1) as (Hg' & He' & Hw); [lia|lia|].
  split_and!; [done|auto|]. intros [|k] sn Hk Hs; cbn in Hk.
  - injection Hk as <-. rewrite Z.add_0_r. unfold look in *. cbn in *. apply bool_decide_eq_true in Hs.
    apply He'. by apply (inv_node _ _ (eo_inv _ _ Hg1) i ltac:(lia)).
  - replace (i + Z.of_nat (S k)) with (i + 1 + Z.of_nat k) by lia. by apply Hw.
Qed.

Lemma who_NoDup t i obs : NoDup (RaftTest.who t i obs).
Proof.
  revert i. induction obs as [|sn obs IH]; intros i; cbn [RaftTest.who]; [constructor|].
  case_match; [|done]. constructor; [|done]. intros (? & Hle & _)%RaftTest.who_elem. lia.
Qed.

(** In one look at all servers each term has one leader. *)
Lemma looked_one_leader s obs s' :
  elected_ok n (peers s) -> looked sc n 0 s obs s' -> zlen obs = n ->
  elected_ok n (peers s') /\ forall t i, i ∈ RaftTest.who t 0 obs -> 1 <= t /\ RaftTest.who t 0 obs = [i].
Proof.
  intros Hg Hl Hlen. destruct (looked_won _ _ _ _ Hg Hl) as (Hg' & _ & Hw); [lia|lia|].
  split; [done|]. pose proof (eo_inv _ _ Hg') as Hinv.
  assert (forall t i, i ∈ RaftTest.who t 0 obs -> won (peers s') t i) as Hwon.
  { intros t i (sn & Hi & Hk & _ & Hs & <-)%RaftTest.who_elem. rewrite Z.sub_0_r in Hk.
    pose proof (Hw _ _ Hk Hs) as H. by rewrite Z.add_0_l, Z2Nat.id in H by lia. }
  intros t i Hi. split; [by apply (eo_won _ _ Hg' t i), Hwon|].
  pose proof (who_NoDup t 0 obs) as Hnd.
  assert (forall j, j ∈ RaftTest.who t 0 obs -> j = i) as Hall
    by (intros j Hj; apply (won_unique n (peers s') t); eauto).
  destruct (RaftTest.who t 0 obs) as [|x [|y l]]; [by apply not_elem_of_nil in Hi|by rewrite (Hall x) by left|].
  apply NoDup_cons in Hnd as [Hx _]. destruct Hx. rewrite (Hall x), (Hall y) by (repeat constructor). left.
Qed.

Lemma last_term_found obs :
  (forall t i, i ∈ RaftTest.who t 0 obs -> 1 <= t /\ RaftTest.who t 0 obs = [i]) ->
  exists t, RaftTest.last_term (RaftTest.collect 0 obs ∅) = Ret t /\
    (RaftTest.collect 0 obs ∅ <> ∅ -> exists i, RaftTest.collect 0 obs ∅ !! t = Some [i] /\ i ∈ RaftTest.who t 0 obs).
Proof.
  intros Hone. assert (forall t l, RaftTest.collect 0 obs ∅ !! t = Some l ->
    1 <= t /\ exists i, l = [i] /\ i ∈ RaftTest.who t 0 obs) as Hcol.
  { intros t l Hl. rewrite RaftTest.collect_who, lookup_empty in Hl.
    destruct (RaftTest.who t 0 obs) as [|i l'] eqn:E; [done|].
    destruct (Hone t i) as [Ht Hi]; [rewrite E; left|]. rewrite E in Hi. injection Hi as ->.
    injection Hl as <-. split; [done|]. exists i. split; [done|left]. }
  destruct (RaftTest.last_term (RaftTest.collect 0 obs ∅)) as [t|p] eqn:Et.
  - exists t. split; [done|]. intros Hne. apply RaftTest.last_term_Ret in Et as [H1 H2].
    apply map_choose in Hne as (t' & l & Hl). destruct (H1 _ _ Hl) as [_ Hle]. destruct (Hcol _ _ Hl) as [Hpos _].
    destruct H2 as [->|[l' Hl']]; [lia|]. destruct (Hcol _ _ Hl') as (_ & i & -> & Hi). by exists i.
  - exfalso. unfold RaftTest.last_term in Et. case_decide as Hd; [done|]. apply Hd.
    intros t l Hl. destruct (Hcol _ _ Hl) as (_ & i & -> & _). by rewrite zlen_cons, zlen_nil.
Qed.

Lemma collect_empty obs :
  RaftTest.collect 0 obs ∅ = ∅ ->
  forall sn, sn ∈ obs -> RaftTest.connected sn = true -> RaftTest.seen_leader sn = false.
Proof.
  intros He sn [k Hk]%list_elem_of_lookup Hc. apply not_true_iff_false. intros Hs.
  assert (Z.of_nat k ∈ RaftTest.who (RaftTest.seen_term sn) 0 obs) as Hin.
  { apply RaftTest.who_elem. exists sn. rewrite Z.sub_0_r, Nat2Z.id. split_and!; (done || lia). }
  pose proof (RaftTest.collect_who (RaftTest.seen_term sn) 0 obs ∅) as H. rewrite He, !lookup_empty in H.
  destruct (RaftTest.who _ 0 obs); [by apply not_elem_of_nil in Hin|done].
Qed.

Lemma checkOneLeader_rounds s iters :
  elected_ok n (peers s) -> looked_often sc n s iters ->
  (exists i obs sn, RaftTest.checkOneLeader iters = Ret i /\ obs ∈ iters /\ idx obs i = Ret sn /\
     RaftTest.connected sn = true /\ RaftTest.seen_leader sn = true) \/
  RaftTest.checkOneLeader iters = Panic Fatal /\
    forall obs sn, obs ∈ iters -> sn ∈ obs -> RaftTest.connected sn = true -> RaftTest.seen_leader sn = false.
Proof.
  intros Hg Hl. revert Hg. induction Hl as [s|s obs s' iters Hlen Hl Hls IH]; intros Hg.
  { right. split; [done|]. by intros ? ? ?%not_elem_of_nil. }
  destruct (looked_one_leader _ _ _ Hg Hl Hlen) as (Hg' & Hone). cbn [RaftTest.checkOneLeader].
  destruct (last_term_found obs Hone) as (t & -> & Hfound). cbn [res_bind]. case_decide as Hne.
  - destruct (Hfound Hne) as (i & -> & (sn & Hi & Hk & Hc & Hs & _)%RaftTest.who_elem). rewrite Z.sub_0_r in Hk.
    left. exists i, obs, sn. split_and!; [done|left|by apply idx_Ret|done|done].
  - destruct (IH Hg') as [(i & o & sn & ? & ? & ? & ? & ?)|[? Hno]].
    + left. exists i, o, sn. split_and!; [done|by right|done|done|done].
    + right. split; [done|]. intros o sn [->|Ho]%elem_of_cons; [by apply collect_empty|by apply Hno].
Qed.
End leaders.

(** ** Properties *)



(** C6 (the leader check).  In any scope, any number of servers, messages handled late, handlers interrupted,
    snapshots, crashes: when the test asks the servers one after the other, while the system
    goes on, [checkOneLeader] never finds two leaders of a term: it answers with a server it saw
    lead, or fails after it saw no connected server lead in any round. *)
Theorem leader_check_exact sc n s iters :
  0 <= n -> reachable (sstep sc n) (sinit n) s -> looked_often sc n s iters ->
  (exists i obs sn, RaftTest.checkOneLeader iters = Ret i /\ obs ∈ iters /\ idx obs i = Ret sn /\
     RaftTest.connected sn = true /\ RaftTest.seen_leader sn = true) \/
  RaftTest.checkOneLeader iters = Panic Fatal /\
    forall obs sn, obs ∈ iters -> sn ∈ obs -> RaftTest.connected sn = true -> RaftTest.seen_leader sn = false.
Proof. intros Hn Hr%reachable_elected Hl. by eapply checkOneLeader_rounds. Qed.

(** *** Examples *)








(** A look at the three servers, when a message was handled twice: peer 0 leads in term 1. *)
Definition stored_any : system :=
  after anything (elect_0 ++ EvStart 0 (AnyInt 7) :: send_0_1 ++ [EvLate 0]) system0.
Lemma stored_any_reachable : reachable (sstep anything 3) (sinit 3) stored_any.
Proof. apply after_reachable; [apply system0_reachable|by vm_compute]. Qed.
Definition seen_7 : list RaftTest.seen :=
  (fun i => look true (nodes (peers stored_any) i)) <$> [0; 1; 2].

Lemma seen_7_looked : looked_often anything 3 stored_any [seen_7].
Proof.
  apply (lo_next _ _ _ _ stored_any); [reflexivity| |constructor]. unfold seen_7. cbn [fmap list_fmap].
  do 3 (eapply lk_next; [apply rtc_refl|]). apply lk_end, rtc_refl.
Qed.

Lemma leader_check_exact_witness :
  RaftTest.checkOneLeader [seen_7] = Ret 0 /\
  ((exists i obs sn, RaftTest.checkOneLeader [seen_7] = Ret i /\ obs ∈ [seen_7] /\ idx obs i = Ret sn /\
     RaftTest.connected sn = true /\ RaftTest.seen_leader sn = true) \/
  RaftTest.checkOneLeader [seen_7] = Panic Fatal /\
    forall obs sn, obs ∈ [seen_7] -> sn ∈ obs -> RaftTest.connected sn = true -> RaftTest.seen_leader sn = false).
Proof.
  split; [vm_compute; reflexivity|].
  apply (leader_check_exact anything 3 stored_any); [lia|exact stored_any_reachable|exact seen_7_looked].
Defined.
End RaftChecks.
