(* ===== verification/Tester.v ===== *)
(** * Tester: server groups and clients of the tests (src/src/tester1/group.go, srv.go,
      clnts.go)

    Groups of servers with one end per pair of servers, connecting and disconnecting
    them on the simulated network, partitions, starting and stopping servers with their
    persisters, and the clients' ends.  A name from [Randstring] and a pointer from
    [labrpc.MakeServer] are arguments.  A persister is a position in a heap, since an old
    instance of a server may go on writing to the one it was given. *)
From S2P Require Import Prelude LabRpc Persister.
Local Open Scope Z_scope.
Local Open Scope go_scope.

Module Tester.

(** ** Data *)

Definition ServerName (gid i : Z) : string := "server-" +:+ pretty gid +:+ "-" +:+ pretty i.

(** [Svc] is the type of the services ([IService]) a test's start function makes. *)
Section tester.
Context {Svc : Type}.

Record Server := MkServer {
  saved : option nat;
  svcs : list Svc;
  endNames : list string;
}.

Record ServerGrp := MkServerGrp {
  srvs : list Server;
  servernames : list string;
  gid : Z;
  connected : list bool;
}.

(** The network, the persisters, and the services that were killed. *)
Record tstate := MkState {
  net : LabRpc.Network;
  heap : list Persister;
  killed : list Svc;
}.

Definition with_net (rn : LabRpc.Network) (st : tstate) : tstate := MkState rn (heap st) (killed st).
Definition enable (endname : string) (en : bool) (st : tstate) : tstate :=
  with_net (LabRpc.Enable endname en (net st)) st.

(** ** One server *)

(** The loop of makeServer: [names] are the random names of the ends. *)
Fixpoint make_ends (gid j : Z) (names : list string) (rn : LabRpc.Network) : res LabRpc.Network :=
  match names with
  | [] => Ret rn
  | name :: names =>
      let! rn := LabRpc.MakeEnd name rn in
      make_ends gid (j + 1) names (LabRpc.Connect name (ServerName gid j) rn)
  end.
Definition makeServer (names : list string) (gid : Z) (st : tstate) : res (tstate * Server) :=
  let! rn := make_ends gid 0 names (net st) in
  Ret (with_net rn st, MkServer None [] names).

(** [ps.Copy()] of the persister at [p]: a new one. *)
Definition copy_persister (p : nat) (st : tstate) : tstate * nat :=
  (MkState (net st) (heap st ++ [Persister.Copy (default MakePersister (heap st !! p))]) (killed st),
   length (heap st)).

Definition startServer (names : list string) (gid : Z) (s : Server) (st : tstate)
  : res (tstate * Server) :=
  let! (st, srv) := makeServer names gid st in
  let '(st, p) :=
    match saved s with
    | Some p => copy_persister p st
    | None => (MkState (net st) (heap st ++ [MakePersister]) (killed st), length (heap st))
    end in
  Ret (st, MkServer (Some p) (svcs srv) (endNames srv)).

(** [conn] is [sg.connected]. *)
Fixpoint srv_connect (s : Server) (conn : list bool) (to : list Z) (st : tstate) : res tstate :=
  match to with
  | [] => Ret st
  | j :: to =>
      let! c := idx conn j in
      let! st :=
        (if (c : bool) then
           let! endname := idx (endNames s) j in
           Ret (enable endname true st)
         else Ret st) in
      srv_connect s conn to st
  end.

Fixpoint srv_disconnect (s : Server) (from : list Z) (st : tstate) : res tstate :=
  match from with
  | [] => Ret st
  | j :: from =>
      let! endname := idx (endNames s) j in
      srv_disconnect s from (enable endname false st)
  end.

Definition shutdownServer (s : Server) (st : tstate) : tstate * Server :=
  let '(st, sv) :=
    match saved s with
    | Some p => let '(st, p) := copy_persister p st in (st, Some p)
    | None => (st, None)
    end in
  (MkState (net st) (heap st) (killed st ++ svcs s), MkServer sv [] (endNames s)).

(** ** Groups *)

Definition N (sg : ServerGrp) : Z := zlen (srvs sg).
Definition SrvName (i : Z) (sg : ServerGrp) : res string := idx (servernames sg) i.
Fixpoint SrvNamesTo (to : list Z) (sg : ServerGrp) : res (list string) :=
  match to with
  | [] => Ret []
  | i :: to =>
      let! n := idx (servernames sg) i in
      let! ns := SrvNamesTo to sg in
      Ret (n :: ns)
  end.
Definition Services (sg : ServerGrp) : list (list Svc) := svcs <$> srvs sg.
Definition all (sg : ServerGrp) : list Z := seqZ 0 (N sg).
Definition IsConnected (i : Z) (sg : ServerGrp) : res bool := idx (connected sg) i.

(** [names i] are the random names of server [i]'s ends. *)
Fixpoint make_servers (names : list (list string)) (gid : Z) (st : tstate)
  : res (tstate * list Server) :=
  match names with
  | [] => Ret (st, [])
  | ns :: names =>
      let! (st, s) := makeServer ns gid st in
      let! (st, l) := make_servers names gid st in
      Ret (st, s :: l)
  end.
Definition makeSrvGrp (names : list (list string)) (gid : Z) (st : tstate)
  : res (tstate * ServerGrp) :=
  let n := length names in
  let! (st, l) := make_servers names gid st in
  Ret (st, MkServerGrp l (ServerName gid <$> seqZ 0 (Z.of_nat n)) gid (replicate n false)).

Definition set_connected (i : Z) (b : bool) (sg : ServerGrp) : res ServerGrp :=
  let! conn := set_idx (connected sg) i b in
  Ret (MkServerGrp (srvs sg) (servernames sg) (gid sg) conn).

(** The incoming ends: the end to [i] of each server of [to] (of [from]). *)
Fixpoint enable_incoming (sg : ServerGrp) (i : Z) (to : list Z) (st : tstate) : res tstate :=
  match to with
  | [] => Ret st
  | j :: to =>
      let! c := IsConnected j sg in
      let! st :=
        (if (c : bool) then
           let! s := idx (srvs sg) j in
           let! endname := idx (endNames s) i in
           Ret (enable endname true st)
         else Ret st) in
      enable_incoming sg i to st
  end.
Fixpoint disable_incoming (sg : ServerGrp) (i : Z) (from : list Z) (st : tstate) : res tstate :=
  match from with
  | [] => Ret st
  | j :: from =>
      let! s := idx (srvs sg) j in
      let! endname := idx (endNames s) i in
      disable_incoming sg i from (enable endname false st)
  end.

Definition connect (i : Z) (to : list Z) (sg : ServerGrp) (st : tstate) : res (tstate * ServerGrp) :=
  let! sg := set_connected i true sg in
  let! s := idx (srvs sg) i in
  let! st := srv_connect s (connected sg) to st in
  let! st := enable_incoming sg i to st in
  Ret (st, sg).

Definition disconnect (i : Z) (from : list Z) (sg : ServerGrp) (st : tstate) : res (tstate * ServerGrp) :=
  let! sg := set_connected i false sg in
  let! s := idx (srvs sg) i in
  let! st := srv_disconnect s from st in
  let! st := disable_incoming sg i from st in
  Ret (st, sg).

Definition ConnectOne (i : Z) (sg : ServerGrp) (st : tstate) : res (tstate * ServerGrp) :=
  connect i (all sg) sg st.
Definition DisconnectAll (i : Z) (sg : ServerGrp) (st : tstate) : res (tstate * ServerGrp) :=
  disconnect i (all sg) sg st.

(** A method called for each server in turn. *)
Fixpoint for_each (f : Z -> ServerGrp -> tstate -> res (tstate * ServerGrp)) (l : list Z)
    (sg : ServerGrp) (st : tstate) : res (tstate * ServerGrp) :=
  match l with
  | [] => Ret (st, sg)
  | i :: l => let! (st, sg) := f i sg st in for_each f l sg st
  end.
Definition ConnectAll (sg : ServerGrp) (st : tstate) : res (tstate * ServerGrp) :=
  for_each ConnectOne (all sg) sg st.

Definition cleanup (sg : ServerGrp) (st : tstate) : tstate :=
  MkState (net st) (heap st) (killed st ++ concat (svcs <$> srvs sg)).

Definition max_size (size : Persister -> Z) (sg : ServerGrp) (st : tstate) : res Z :=
  fold_left (fun acc s =>
    let! m := acc in
    match saved s ≫= (fun p => heap st !! p) with
    | Some ps => Ret (if decide (size ps > m) then size ps else m)
    | None => Panic NilDereference
    end) (srvs sg) (Ret 0).
Definition LogSize (enc_len : list gobval -> Z) := max_size (RaftStateSize enc_len).
Definition GrpSnapshotSize := max_size SnapshotSize.

(** [names] are the new ends' names, [mks] the services the start function returns for
    the persister it is given, [labsrv] the pointer to the labrpc server. *)
Definition StartServer (names : list string) (mks : nat -> list Svc) (labsrv : positive) (i : Z)
    (sg : ServerGrp) (st : tstate) : res (tstate * ServerGrp) :=
  let! s := idx (srvs sg) i in
  let! (st, srv) := startServer names (gid sg) s st in
  let srv := MkServer (saved srv) (from_option mks [] (saved srv)) (endNames srv) in
  let! l := set_idx (srvs sg) i srv in
  Ret (with_net (LabRpc.AddServer (ServerName (gid sg) i) labsrv (net st)) st,
       MkServerGrp l (servernames sg) (gid sg) (connected sg)).

Definition ShutdownServer (i : Z) (sg : ServerGrp) (st : tstate) : res (tstate * ServerGrp) :=
  let! (st, sg) := disconnect i (all sg) sg st in
  let st := with_net (LabRpc.DeleteServer (ServerName (gid sg) i) (net st)) st in
  let! s := idx (srvs sg) i in
  let '(st, s) := shutdownServer s st in
  let! l := set_idx (srvs sg) i s in
  Ret (st, MkServerGrp l (servernames sg) (gid sg) (connected sg)).
Definition Shutdown (sg : ServerGrp) (st : tstate) : res (tstate * ServerGrp) :=
  for_each ShutdownServer (all sg) sg st.

(** [for i := 0; i < n; i++]: every server but [l] goes to the next free place. *)
Fixpoint partition_loop (l : Z) (ids : list Z) (j : Z) (p1 p2 : list Z) : res (list Z * list Z) :=
  match ids with
  | [] => Ret (p1, p2)
  | i :: ids =>
      if decide (i <> l) then
        let! (p1, p2) :=
          (if decide (j < zlen p1) then let! p1 := set_idx p1 j i in Ret (p1, p2)
           else let! p2 := set_idx p2 (j - zlen p1) i in Ret (p1, p2)) in
        partition_loop l ids (j + 1) p1 p2
      else partition_loop l ids j p1 p2
  end.
Definition MakePartition (l : Z) (sg : ServerGrp) : res (list Z * list Z) :=
  let n := N sg in
  let p1 := replicate (Z.to_nat (n ÷ 2 + 1)) 0 in
  let p2 := replicate (Z.to_nat (n ÷ 2)) 0 in
  let! (p1, p2) := partition_loop l (seqZ 0 n) 0 p1 p2 in
  let! p2 := set_idx p2 (zlen p2 - 1) l in
  Ret (p1, p2).

(** A server's new ends, the services its start function makes, and its labrpc server. *)
Record newServer := MkNew { n_ends : list string; n_mks : nat -> list Svc; n_labsrv : positive }.
Fixpoint start_loop (l : list newServer) (i : Z) (sg : ServerGrp) (st : tstate)
  : res (tstate * ServerGrp) :=
  match l with
  | [] => Ret (st, sg)
  | x :: l =>
      let! (st, sg) := StartServer (n_ends x) (n_mks x) (n_labsrv x) i sg st in
      start_loop l (i + 1) sg st
  end.
(** [news] has one element per server. *)
Definition start (news : list newServer) (sg : ServerGrp) (st : tstate) : res (tstate * ServerGrp) :=
  start_loop news 0 sg st.
Definition StartServers (news : list newServer) (sg : ServerGrp) (st : tstate)
  : res (tstate * ServerGrp) :=
  let! (st, sg) := start news sg st in ConnectAll sg st.

Definition SrvNames (sg : ServerGrp) : list string := servernames sg.
Definition GetConnected (sg : ServerGrp) : list bool := connected sg.
Definition RpcCount {P W} (hp : gmap positive (LabRpc.Server (P := P) (W := W))) (server : Z)
    (sg : ServerGrp) (st : tstate) : res Z :=
  LabRpc.GetCount hp (ServerName (gid sg) server) (net st).

(** One half of Partition: each server of [p] leaves [q] and joins [p]. *)
Definition split_side (p q : list Z) (sg : ServerGrp) (st : tstate) : res (tstate * ServerGrp) :=
  for_each (fun i sg st =>
    let! (st, sg) := disconnect i q sg st in
    connect i p sg st) p sg st.
Definition Partition (p1 p2 : list Z) (sg : ServerGrp) (st : tstate) : res (tstate * ServerGrp) :=
  let! (st, sg) := split_side p1 p2 sg st in
  split_side p2 p1 sg st.

(** ** The set of groups *)

Definition newGroups : gmap Z ServerGrp := ∅.
Definition MakeGroup (names : list (list string)) (id : Z) (grps : gmap Z ServerGrp) (st : tstate)
  : res (tstate * gmap Z ServerGrp) :=
  let! (st, sg) := makeSrvGrp names id st in Ret (st, <[id := sg]> grps).
Definition lookupGroup (id : Z) (grps : gmap Z ServerGrp) : option ServerGrp := grps !! id.
Definition deleteGroup (id : Z) (grps : gmap Z ServerGrp) : gmap Z ServerGrp := delete id grps.
Definition cleanup_groups (grps : gmap Z ServerGrp) (st : tstate) : tstate :=
  map_fold (fun _ sg st => cleanup sg st) st grps.

Definition MakeGroupStart (names : list (list string)) (news : list newServer) (id : Z)
    (grps : gmap Z ServerGrp) (st : tstate) : res (tstate * gmap Z ServerGrp) :=
  let! (st, grps) := MakeGroup names id grps st in
  match lookupGroup id grps with
  | Some sg => let! (st, sg) := StartServers news sg st in Ret (st, <[id := sg]> grps)
  | None => Panic NilDereference
  end.
Definition ExitGroup (id : Z) (grps : gmap Z ServerGrp) (st : tstate)
  : res (tstate * gmap Z ServerGrp) :=
  match lookupGroup id grps with
  | Some sg => let! (st, sg) := Shutdown sg st in Ret (st, deleteGroup id grps)
  | None => Panic NilDereference
  end.
End tester.
Arguments newServer : clear implicits.
Arguments Server : clear implicits.
Arguments ServerGrp : clear implicits.
Arguments tstate : clear implicits.

(** ** Clients *)

(** [ends] gives the name of the end to each server; [c_srvs] is nil for "all". *)
Record Clnt := MkClnt { c_ends : gmap string string; c_srvs : option (list string) }.

Definition makeClntTo (srvs : option (list string)) : Clnt := MkClnt ∅ srvs.

Definition allowedL (server : string) (clnt : Clnt) : bool :=
  match c_srvs clnt with
  | None => true
  | Some srvs => existsb (fun n => bool_decide (n = server)) srvs
  end.

(** [name] is the random name of a new end. *)
Definition makeEnd (name server : string) (clnt : Clnt) (rn : LabRpc.Network)
  : res (LabRpc.Network * Clnt * string) :=
  match c_ends clnt !! server with
  | Some e => Ret (rn, clnt, e)
  | None =>
      let! rn := LabRpc.MakeEnd name rn in
      let rn := LabRpc.Connect name server rn in
      let rn := LabRpc.Enable name (allowedL server clnt) rn in
      Ret (rn, MkClnt (<[server := name]> (c_ends clnt)) (c_srvs clnt), name)
  end.

(** The ends of the servers that satisfy [p] are set to [b]. *)
Definition set_ends (p : string -> bool) (b : bool) (clnt : Clnt) (rn : LabRpc.Network) : LabRpc.Network :=
  map_fold (fun srv e rn => if p srv then LabRpc.Enable e b rn else rn) rn (c_ends clnt).

Definition ClntConnectAll (clnt : Clnt) (rn : LabRpc.Network) : LabRpc.Network * Clnt :=
  (set_ends (fun _ => true) true clnt rn, MkClnt (c_ends clnt) None).
Definition ConnectTo (srvs : option (list string)) (clnt : Clnt) (rn : LabRpc.Network)
  : LabRpc.Network * Clnt :=
  let clnt := MkClnt (c_ends clnt) srvs in
  (set_ends (fun srv => allowedL srv clnt) true clnt rn, clnt).
Definition Disconnect (srv : string) (clnt : Clnt) (rn : LabRpc.Network) : LabRpc.Network :=
  set_ends (fun s => bool_decide (s = srv)) false clnt rn.
Definition ClntDisconnectAll (clnt : Clnt) (rn : LabRpc.Network) : LabRpc.Network * Clnt :=
  (set_ends (fun _ => true) false clnt rn, MkClnt (c_ends clnt) (Some [])).

Definition remove (clnt : Clnt) (rn : LabRpc.Network) : res LabRpc.Network :=
  map_fold (fun _ e acc => let! rn := acc in LabRpc.DeleteEnd e rn) (Ret rn) (c_ends clnt).

(** [dice] and the networks are those of [LabRpc.Call]. *)
Definition clnt_Call {P W} (psize : P -> Z) (name server method : string) (args : P) d ticks rn_end
    (clnt : Clnt) (rn : LabRpc.Network) hp (w : W) :=
  let! (rn, clnt, e) := makeEnd name server clnt rn in
  let! (hp, w, r) := LabRpc.Call psize d rn ticks rn_end (LabRpc.ReqMsg e method args) hp w in
  Ret (rn, clnt, hp, w, r).

(** *** All the clients: the objects by their pointers, and the set [clerks] (a nil map
    once cleaned up). *)
Record Clnts := MkClnts { objs : gmap positive Clnt; clerks : option (gset positive) }.

Definition makeClnts : Clnts := MkClnts ∅ (Some ∅).

(** [p] is the new client's pointer. *)
Definition MakeClientTo (p : positive) (srvs : option (list string)) (cs : Clnts) : res Clnts :=
  match clerks cs with
  | Some ck => Ret (MkClnts (<[p := makeClntTo srvs]> (objs cs)) (Some ({[p]} ∪ ck)))
  | None => Panic NilMapWrite
  end.
Definition MakeClient (p : positive) (cs : Clnts) : res Clnts := MakeClientTo p None cs.

Definition remove_at (p : positive) (cs : Clnts) (rn : LabRpc.Network) : res LabRpc.Network :=
  match objs cs !! p with Some clnt => remove clnt rn | None => Panic NilDereference end.
Definition DeleteClient (p : positive) (cs : Clnts) (rn : LabRpc.Network) : res (Clnts * LabRpc.Network) :=
  if decide (p ∈ default ∅ (clerks cs)) then
    let! rn := remove_at p cs rn in
    Ret (MkClnts (objs cs) ((fun ck => ck ∖ {[p]}) <$> clerks cs), rn)
  else Ret (cs, rn).
Definition cleanup_clnts (cs : Clnts) (rn : LabRpc.Network) : res (Clnts * LabRpc.Network) :=
  let! rn := set_fold (fun p acc => let! rn := acc in remove_at p cs rn) (Ret rn) (default ∅ (clerks cs)) in
  Ret (MkClnts (objs cs) None, rn).

(** [Clnts.makeEnd]: an end that is not a client's. *)
Definition Clnts_makeEnd (name servername : string) (rn : LabRpc.Network) : res LabRpc.Network :=
  let! rn := LabRpc.MakeEnd name rn in
  Ret (LabRpc.Enable name true (LabRpc.Connect name servername rn)).

(** ** The configuration of a test (config.go) *)

Definition GRP0 : Z := 0.

(** The network is in the [tstate]; [rpcs0] and [ops] are the statistics. *)
Record Config (Svc : Type) := MkCfg {
  cf_clnts : Clnts;
  cf_groups : gmap Z (ServerGrp Svc);
  rpcs0 : Z;
  ops : Z;
}.
Arguments MkCfg {Svc} _ _ _ _.
Arguments cf_clnts {Svc} _.
Arguments cf_groups {Svc} _.
Arguments rpcs0 {Svc} _.
Arguments ops {Svc} _.

Definition MakeConfig {Svc} (names : list (list string)) (news : list (newServer Svc)) (reliable : bool)
  : res (tstate Svc * Config Svc) :=
  let! (st, grps) := MakeGroupStart names news GRP0 newGroups (MkState LabRpc.MakeNetwork [] []) in
  Ret (with_net (LabRpc.Reliable reliable (net st)) st, MkCfg makeClnts grps 0 0).

Definition SetReliable {Svc} (reliable : bool) (st : tstate Svc) : tstate Svc :=
  with_net (LabRpc.Reliable reliable (net st)) st.
Definition IsReliable {Svc} (st : tstate Svc) : bool := LabRpc.IsReliable (net st).
Definition SetLongReordering {Svc} (longrel : bool) (st : tstate Svc) : tstate Svc :=
  with_net (LabRpc.LongReordering longrel (net st)) st.
Definition SetLongDelays {Svc} (longdel : bool) (st : tstate Svc) : tstate Svc :=
  with_net (LabRpc.LongDelays longdel (net st)) st.
Definition Group {Svc} (gid : Z) (cfg : Config Svc) : option (ServerGrp Svc) := lookupGroup gid (cf_groups cfg).

(** [failed] is [t.Failed()], [elapsed] the nanoseconds since the test's start. *)
Definition CheckTimeout (failed : bool) (elapsed : Z) : res unit :=
  if negb failed && (elapsed >? 120 * 10 ^ 9) then Panic Fatal else Ret tt.

Definition RpcTotal {Svc} (st : tstate Svc) : Z := LabRpc.GetTotalCount (net st).
Definition BytesTotal {Svc} (st : tstate Svc) : Z := LabRpc.GetTotalBytes (net st).

Definition Begin {Svc} (st : tstate Svc) (cfg : Config Svc) : Config Svc :=
  MkCfg (cf_clnts cfg) (cf_groups cfg) (RpcTotal st) 0.
(** An int32. *)
Definition Op {Svc} (cfg : Config Svc) : Config Svc :=
  MkCfg (cf_clnts cfg) (cf_groups cfg) (rpcs0 cfg) ((ops cfg + 1 + 2 ^ 31) mod 2 ^ 32 - 2 ^ 31).

(** The method End: the numbers of peers, RPCs and operations that are printed. *)
Definition End_test {Svc} (failed : bool) (elapsed : Z) (st : tstate Svc) (cfg : Config Svc) : res (option (Z * Z * Z)) :=
  let! _ := CheckTimeout failed elapsed in
  if failed then Ret None
  else match Group GRP0 cfg with
       | None => Panic NilDereference
       | Some sg => Ret (Some (N sg, RpcTotal st - rpcs0 cfg, ops cfg))
       end.

(** Cleanup of the clients, the groups and the network. *)
Definition Cleanup {Svc} (st : tstate Svc) (cfg : Config Svc) : res (tstate Svc * Config Svc) :=
  let! (cs, rn) := cleanup_clnts (cf_clnts cfg) (net st) in
  let st := cleanup_groups (cf_groups cfg) (with_net rn st) in
  let! rn := LabRpc.Cleanup (net st) in
  Ret (with_net rn st, MkCfg cs (cf_groups cfg) (rpcs0 cfg) (ops cfg)).

(** [js] are the results of [rand.Intn(i + 1)]. *)
Fixpoint shuffle_loop {A} (js : list Z) (i : Z) (sa : list A) : res (list A) :=
  match js with
  | [] => Ret sa
  | j :: js =>
      let! x := idx sa j in
      let! y := idx sa i in
      let! sa := set_idx sa i x in
      let! sa := set_idx sa j y in
      shuffle_loop js (i + 1) sa
  end.
Definition random_handles {A} (js : list Z) (kvh : list A) : res (list A) := shuffle_loop js 0 kvh.

(** ** Lemmas *)

Section groups.
Context {Svc : Type}.
Implicit Types (sg : ServerGrp Svc) (st : tstate Svc) (s : Server Svc).

Definition en st (x : string) : bool := LabRpc.is_enabled (net st) x.

(** Several ends set in turn. *)
Definition enables (l : list string) (b : bool) st : tstate Svc :=
  fold_left (fun st x => enable x b st) l st.

Lemma en_enable x b st y : en (enable x b st) y = if decide (y = x) then b else en st y.
Proof.
  unfold en, LabRpc.is_enabled. cbn. case_decide as Hd.
  - subst. by rewrite lookup_insert_eq.
  - by rewrite lookup_insert_ne by done.
Qed.

Lemma en_enables l b st y : en (enables l b st) y = if decide (y ∈ l) then b else en st y.
Proof.
  revert st. induction l as [|x l IH]; intros st; cbn [enables fold_left].
  - rewrite decide_False; [done|]. apply not_elem_of_nil.
  - change (fold_left _ l ?t) with (enables l b t). rewrite IH, en_enable.
    destruct (decide (y ∈ l)) as [Hy|Hy].
    + by rewrite decide_True by (by right).
    + destruct (decide (y = x)) as [->|Hne]; [by rewrite decide_True by left|].
      rewrite decide_False; [done|]. by intros [?|?]%elem_of_cons.
Qed.

Lemma enables_app l l' b st : enables (l ++ l') b st = enables l' b (enables l b st).
Proof. unfold enables. by rewrite fold_left_app. Qed.

Lemma enables_rest l b st : heap (enables l b st) = heap st /\ killed (enables l b st) = killed st.
Proof. revert st. induction l as [|x l IH]; intros st; [done|]. apply (IH (enable x b st)). Qed.

(** Server [a] of the group, its end to [b], and whether [b] is connected. *)
Definition end_of s (b : Z) : string := default "" (endNames s !! Z.to_nat b).
Definition ename (l : list (Server Svc)) (a b : Z) : string :=
  from_option (fun s => end_of s b) "" (l !! Z.to_nat a).
Definition isconn (conn : list bool) (b : Z) : bool := default false (conn !! Z.to_nat b).

Definition in_range sg (i : Z) : Prop := 0 <= i < N sg.

Record grp_wf sg : Prop := {
  gw_conn : length (connected sg) = length (srvs sg);
  gw_ends : forall s, s ∈ srvs sg -> length (endNames s) = length (srvs sg);
  gw_inj : forall a b c d, in_range sg a -> in_range sg b -> in_range sg c -> in_range sg d ->
    ename (srvs sg) a b = ename (srvs sg) c d -> a = c /\ b = d;
}.

Lemma idx_end s j : 0 <= j < zlen (endNames s) -> idx (endNames s) j = Ret (end_of s j).
Proof.
  intros Hj. destruct (idx_ok _ _ Hj) as [x Hx]. rewrite Hx. apply idx_Ret in Hx as [_ Hx].
  unfold end_of. by rewrite Hx.
Qed.

Lemma idx_conn conn j : 0 <= j < zlen conn -> idx conn j = Ret (isconn conn j).
Proof.
  intros Hj. destruct (idx_ok _ _ Hj) as [x Hx]. rewrite Hx. apply idx_Ret in Hx as [_ Hx].
  unfold isconn. by rewrite Hx.
Qed.

Lemma srv_connect_eq s conn to st :
  (forall j, j ∈ to -> 0 <= j < zlen conn /\ 0 <= j < zlen (endNames s)) ->
  srv_connect s conn to st = Ret (enables (end_of s <$> filter (fun j => isconn conn j = true) to) true st).
Proof.
  revert st. induction to as [|j to IH]; intros st Hto; [done|]. cbn [srv_connect].
  destruct (Hto j ltac:(left)) as [H1 H2]. rewrite idx_conn by done. cbn [res_bind].
  rewrite filter_cons. destruct (isconn conn j) eqn:E.
  - rewrite idx_end by done. cbn [res_bind]. rewrite decide_True by done. rewrite fmap_cons.
    apply IH. intros k Hk. apply Hto. by right.
  - cbn [res_bind]. rewrite decide_False by done. apply IH. intros k Hk. apply Hto. by right.
Qed.

Lemma srv_disconnect_eq s from st :
  (forall j, j ∈ from -> 0 <= j < zlen (endNames s)) ->
  srv_disconnect s from st = Ret (enables (end_of s <$> from) false st).
Proof.
  revert st. induction from as [|j from IH]; intros st Hf; [done|]. cbn [srv_disconnect].
  rewrite idx_end by (apply Hf; left). cbn [res_bind]. apply IH. intros k Hk. apply Hf. by right.
Qed.

Lemma in_range_server sg j :
  grp_wf sg -> in_range sg j ->
  exists s, srvs sg !! Z.to_nat j = Some s /\ idx (srvs sg) j = Ret s /\
    forall i, in_range sg i -> 0 <= i < zlen (endNames s) /\ end_of s i = ename (srvs sg) j i.
Proof.
  intros Hwf Hj. destruct (idx_ok (srvs sg) j Hj) as [s Hs]. exists s.
  pose proof Hs as [_ Hl]%idx_Ret. split_and!; [done|done|]. intros i Hi.
  pose proof (gw_ends sg Hwf s (list_elem_of_lookup_2 _ _ _ Hl)) as Hlen.
  split; [unfold in_range, N, zlen in *; lia|]. unfold ename. by rewrite Hl.
Qed.

Lemma in_range_conn sg j : grp_wf sg -> in_range sg j -> 0 <= j < zlen (connected sg).
Proof. intros Hwf. pose proof (gw_conn sg Hwf). unfold in_range, N, zlen. lia. Qed.

Lemma enable_incoming_eq sg i to st :
  grp_wf sg -> in_range sg i -> (forall j, j ∈ to -> in_range sg j) ->
  enable_incoming sg i to st =
    Ret (enables ((fun j => ename (srvs sg) j i) <$> filter (fun j => isconn (connected sg) j = true) to) true st).
Proof.
  intros Hwf Hi. revert st. induction to as [|j to IH]; intros st Hto; [done|].
  cbn [enable_incoming]. unfold IsConnected. pose proof (Hto j ltac:(left)) as Hj.
  rewrite idx_conn by (by apply in_range_conn). cbn [res_bind]. rewrite filter_cons.
  destruct (isconn (connected sg) j) eqn:E.
  - destruct (in_range_server sg j Hwf Hj) as (s & _ & Hs & He). rewrite Hs. cbn [res_bind].
    destruct (He i Hi) as [Hlt Hen]. rewrite idx_end by done. cbn [res_bind].
    rewrite decide_True by done. rewrite fmap_cons, Hen. apply IH. intros k Hk. apply Hto. by right.
  - cbn [res_bind]. rewrite decide_False by done. apply IH. intros k Hk. apply Hto. by right.
Qed.

Lemma disable_incoming_eq sg i from st :
  grp_wf sg -> in_range sg i -> (forall j, j ∈ from -> in_range sg j) ->
  disable_incoming sg i from st = Ret (enables ((fun j => ename (srvs sg) j i) <$> from) false st).
Proof.
  intros Hwf Hi. revert st. induction from as [|j from IH]; intros st Hto; [done|].
  cbn [disable_incoming]. pose proof (Hto j ltac:(left)) as Hj.
  destruct (in_range_server sg j Hwf Hj) as (s & _ & Hs & He). rewrite Hs. cbn [res_bind].
  destruct (He i Hi) as [Hlt Hen]. rewrite idx_end by done. cbn [res_bind].
  rewrite fmap_cons, Hen. apply IH. intros k Hk. apply Hto. by right.
Qed.

(** The group with another [connected]. *)
Definition with_conn sg (conn : list bool) : ServerGrp Svc :=
  MkServerGrp (srvs sg) (servernames sg) (gid sg) conn.

Lemma set_connected_eq sg i b :
  grp_wf sg -> in_range sg i ->
  set_connected i b sg = Ret (with_conn sg (<[Z.to_nat i := b]> (connected sg))) /\
  grp_wf (with_conn sg (<[Z.to_nat i := b]> (connected sg))).
Proof.
  intros Hwf Hi. unfold set_connected. split.
  - by rewrite (proj2 (set_idx_Ret _ _ _ _)) by (split; [by apply in_range_conn|done]).
  - destruct Hwf as [H1 H2 H3]. split; [|done|done]. cbn. by rewrite length_insert.
Qed.

Lemma isconn_insert sg i b j :
  grp_wf sg -> in_range sg i -> in_range sg j ->
  isconn (<[Z.to_nat i := b]> (connected sg)) j = if decide (j = i) then b else isconn (connected sg) j.
Proof.
  intros Hwf Hi Hj. unfold isconn. pose proof (in_range_conn sg i Hwf Hi) as Hc.
  unfold in_range in *. case_decide as Hd.
  - subst. rewrite list_lookup_insert_eq; [done|]. unfold zlen in Hc. lia.
  - rewrite list_lookup_insert_ne; [done|]. lia.
Qed.

(** What [connect] does: the ends between [i] and the connected servers of [to]. *)
Lemma connect_spec sg i to st :
  grp_wf sg -> in_range sg i -> (forall j, j ∈ to -> in_range sg j) ->
  let sg' := with_conn sg (<[Z.to_nat i := true]> (connected sg)) in
  exists st', connect i to sg st = Ret (st', sg') /\ grp_wf sg' /\
    heap st' = heap st /\ killed st' = killed st /\
    forall a b, in_range sg a -> in_range sg b ->
      en st' (ename (srvs sg) a b) =
        if decide ((a = i /\ b ∈ to /\ isconn (connected sg') b = true) \/
                   (b = i /\ a ∈ to /\ isconn (connected sg') a = true)) then true
        else en st (ename (srvs sg) a b).
Proof.
  intros Hwf Hi Hto. cbv zeta. destruct (set_connected_eq sg i true Hwf Hi) as [Hset Hwf'].
  set (sg' := with_conn sg (<[Z.to_nat i := true]> (connected sg))) in *.
  destruct (in_range_server sg i Hwf Hi) as (s & _ & Hs & He).
  unfold connect. rewrite Hset. cbn [res_bind]. change (srvs sg') with (srvs sg). rewrite Hs. cbn [res_bind].
  rewrite srv_connect_eq by (intros j Hj; split; [by apply (in_range_conn sg'); [|apply Hto]|by apply He, Hto]).
  cbn [res_bind]. rewrite (enable_incoming_eq sg') by done. cbn [res_bind].
  rewrite <- enables_app. eexists. split; [done|]. destruct (enables_rest
    ((end_of s <$> filter (fun j => isconn (connected sg') j = true) to) ++
     ((fun j => ename (srvs sg') j i) <$> filter (fun j => isconn (connected sg') j = true) to)) true st) as [-> ->].
  split_and!; [done..|]. intros a b Ha Hb. rewrite en_enables. apply decide_ext.
  rewrite elem_of_app, !list_elem_of_fmap. setoid_rewrite list_elem_of_filter.
  change (srvs sg') with (srvs sg). split.
  - intros [(j & Heq & Hc & Hj)|(j & Heq & Hc & Hj)].
    + left. destruct (He j (Hto j Hj)) as [_ Hen]. rewrite Hen in Heq.
      apply (gw_inj sg Hwf) in Heq as [-> ->]; [by split_and!|done|done|done|by apply Hto].
    + right. apply (gw_inj sg Hwf) in Heq as [-> ->]; [by split_and!|done|done|by apply Hto|done].
  - intros [(-> & Hb' & Hc)|(-> & Ha' & Hc)].
    + left. exists b. split_and!; [by destruct (He b Hb)|done|done].
    + right. by exists a.
Qed.

Lemma disconnect_spec sg i from st :
  grp_wf sg -> in_range sg i -> (forall j, j ∈ from -> in_range sg j) ->
  let sg' := with_conn sg (<[Z.to_nat i := false]> (connected sg)) in
  exists st', disconnect i from sg st = Ret (st', sg') /\ grp_wf sg' /\
    heap st' = heap st /\ killed st' = killed st /\
    forall a b, in_range sg a -> in_range sg b ->
      en st' (ename (srvs sg) a b) =
        if decide ((a = i /\ b ∈ from) \/ (b = i /\ a ∈ from)) then false
        else en st (ename (srvs sg) a b).
Proof.
  intros Hwf Hi Hto. cbv zeta. destruct (set_connected_eq sg i false Hwf Hi) as [Hset Hwf'].
  set (sg' := with_conn sg (<[Z.to_nat i := false]> (connected sg))) in *.
  destruct (in_range_server sg i Hwf Hi) as (s & _ & Hs & He).
  unfold disconnect. rewrite Hset. cbn [res_bind]. change (srvs sg') with (srvs sg). rewrite Hs. cbn [res_bind].
  rewrite srv_disconnect_eq by (intros j Hj; by apply He, Hto).
  cbn [res_bind]. rewrite (disable_incoming_eq sg') by done. cbn [res_bind].
  rewrite <- enables_app. eexists. split; [done|]. destruct (enables_rest
    ((end_of s <$> from) ++ ((fun j => ename (srvs sg') j i) <$> from)) false st) as [-> ->].
  split_and!; [done..|]. intros a b Ha Hb. rewrite en_enables. apply decide_ext.
  rewrite elem_of_app, !list_elem_of_fmap. change (srvs sg') with (srvs sg). split.
  - intros [(j & Heq & Hj)|(j & Heq & Hj)].
    + left. destruct (He j (Hto j Hj)) as [_ Hen]. rewrite Hen in Heq.
      apply (gw_inj sg Hwf) in Heq as [-> ->]; [by split|done|done|done|by apply Hto].
    + right. apply (gw_inj sg Hwf) in Heq as [-> ->]; [by split|done|done|by apply Hto|done].
  - intros [(-> & Hb')|(-> & Ha')].
    + left. exists b. split; [by destruct (He b Hb)|done].
    + right. by exists a.
Qed.

(** Induction along [for_each]. *)
Lemma for_each_ind (I : list Z -> ServerGrp Svc -> tstate Svc -> Prop) f l sg st :
  I [] sg st ->
  (forall pre i post sg st, l = pre ++ i :: post -> I pre sg st ->
     exists st' sg', f i sg st = Ret (st', sg') /\ I (pre ++ [i]) sg' st') ->
  exists st' sg', for_each f l sg st = Ret (st', sg') /\ I l sg' st'.
Proof.
  intros H0 Hs. enough (forall post pre sg st, l = pre ++ post -> I pre sg st ->
    exists st' sg', for_each f post sg st = Ret (st', sg') /\ I l sg' st') as H by (by apply (H l [])).
  clear H0. induction post as [|i post IH]; intros pre sg0 st0 Hl HI; cbn [for_each].
  - exists st0, sg0. split; [done|]. by rewrite app_nil_r in Hl; subst.
  - destruct (Hs pre i post sg0 st0 Hl HI) as (st1 & sg1 & -> & HI1). cbn [res_bind].
    apply (IH (pre ++ [i])); [|done]. by rewrite <- app_assoc.
Qed.

(** After the servers [pre] of [p] were moved away from [q]. *)
Record side_inv sg st (p q pre : list Z) sg' st' : Prop := {
  si_wf : grp_wf sg';
  si_srvs : srvs sg' = srvs sg;
  si_rest : heap st' = heap st /\ killed st' = killed st;
  si_conn : forall a, in_range sg a -> isconn (connected sg') a = bool_decide (a ∈ pre) || isconn (connected sg) a;
  si_in : forall a b, a ∈ pre -> b ∈ pre -> en st' (ename (srvs sg) a b) = true;
  si_out : forall a b, a ∈ pre -> b ∈ q ->
    en st' (ename (srvs sg) a b) = false /\ en st' (ename (srvs sg) b a) = false;
  si_frame : forall a b, in_range sg a -> in_range sg b -> ~ a ∈ p -> ~ b ∈ p ->
    en st' (ename (srvs sg) a b) = en st (ename (srvs sg) a b);
}.

Lemma split_side_step sg st p q pre i post sg1 st1 :
  (forall j, j ∈ p -> in_range sg j) -> (forall j, j ∈ q -> in_range sg j) ->
  (forall j, j ∈ p -> ~ j ∈ q) -> p = pre ++ i :: post ->
  side_inv sg st p q pre sg1 st1 ->
  exists st' sg', (let! (st, sg) := disconnect i q sg1 st1 in connect i p sg st) = Ret (st', sg') /\
    side_inv sg st p q (pre ++ [i]) sg' st'.
Proof.
  intros Hp Hq Hdis Hpre [Hwf Hsrvs Hrest Hconn Hin Hout Hframe].
  assert (i ∈ p) as Hip by (rewrite Hpre; apply elem_of_app; right; left).
  assert (forall j, j ∈ pre -> j ∈ p) as Hprep by (intros j Hj; rewrite Hpre; apply elem_of_app; by left).
  assert (forall j, in_range sg1 j <-> in_range sg j) as Hr by (intros j; unfold in_range, N; by rewrite Hsrvs).
  pose proof (Hp i Hip) as Hi.
  destruct (disconnect_spec sg1 i q st1) as (st2 & Hd & Hwf2 & Hh2 & Hk2 & He2);
    [done|by apply Hr|intros; by apply Hr, Hq|].
  set (sg2 := with_conn sg1 (<[Z.to_nat i := false]> (connected sg1))) in *.
  destruct (connect_spec sg2 i p st2) as (st3 & Hc & Hwf3 & Hh3 & Hk3 & He3);
    [done|by apply Hr|intros; by apply Hr, Hp|].
  set (sg3 := with_conn sg2 (<[Z.to_nat i := true]> (connected sg2))) in *.
  change (srvs sg2) with (srvs sg1) in *. rewrite Hsrvs in He2, He3.
  assert (forall a, in_range sg a -> isconn (connected sg3) a = bool_decide (a ∈ pre ++ [i]) || isconn (connected sg) a)
    as Hconn3.
  { intros a Ha. cbn [sg3 with_conn connected]. rewrite (isconn_insert sg2) by (by try apply Hr).
    case_decide as Hai.
    - subst. by rewrite bool_decide_true by (apply elem_of_app; right; left).
    - cbn [sg2 with_conn connected]. rewrite (isconn_insert sg1) by (by try apply Hr).
      rewrite decide_False by done. rewrite Hconn by done. f_equal. apply bool_decide_ext.
      rewrite elem_of_app, list_elem_of_singleton. tauto. }
  exists st3, sg3. split; [by rewrite Hd|]. split.
  - done.
  - done.
  - split; [rewrite Hh3, Hh2|rewrite Hk3, Hk2]; apply Hrest.
  - done.
  - intros a b Ha Hb.
    assert (a ∈ p /\ b ∈ p) as [Hap Hbp].
    { split.
      - apply elem_of_app in Ha as [Ha|Ha%list_elem_of_singleton]; [by auto|by subst].
      - apply elem_of_app in Hb as [Hb|Hb%list_elem_of_singleton]; [by auto|by subst]. }
    rewrite He3 by (apply Hr, Hp; done). case_decide as Hcase; [done|].
    rewrite He2 by (apply Hr, Hp; done). rewrite decide_False.
    2:{ intros [[_ ?]|[_ ?]]; [by apply (Hdis b)|by apply (Hdis a)]. }
    assert (a <> i /\ b <> i) as [Hai Hbi].
    { split; intros ->; apply Hcase; [left|right]; (split_and!; [done|done|]);
        rewrite Hconn3 by (by apply Hp); by rewrite bool_decide_true. }
    apply elem_of_app in Ha as [Ha|Ha%list_elem_of_singleton]; [|done].
    apply elem_of_app in Hb as [Hb|Hb%list_elem_of_singleton]; [|done]. by apply Hin.
  - intros a b Ha Hb.
    assert (a ∈ p) as Hap.
    { apply elem_of_app in Ha as [Ha|Ha%list_elem_of_singleton]; [by auto|by subst]. }
    assert (~ b ∈ p) as Hbp by (intros ?; by apply (Hdis b)).
    assert (b <> i) as Hbi by (by intros ->).
    rewrite !He3 by (apply Hr; auto). rewrite !decide_False by tauto. rewrite !He2 by (apply Hr; auto).
    destruct (decide (a = i)) as [->|Hai].
    + rewrite !decide_True; [done|by right|by left].
    + rewrite !decide_False by tauto. apply elem_of_app in Ha as [Ha|Ha%list_elem_of_singleton]; [|done].
      by apply Hout.
  - intros a b Ha Hb Hap Hbp. assert (a <> i /\ b <> i) as [? ?] by (split; by intros ->).
    rewrite He3 by (by apply Hr). rewrite decide_False by tauto. rewrite He2 by (by apply Hr).
    rewrite decide_False by tauto. by apply Hframe.
Qed.

Lemma split_side_spec sg st p q :
  grp_wf sg -> (forall j, j ∈ p -> in_range sg j) -> (forall j, j ∈ q -> in_range sg j) ->
  (forall j, j ∈ p -> ~ j ∈ q) ->
  exists st' sg', split_side p q sg st = Ret (st', sg') /\ side_inv sg st p q p sg' st'.
Proof.
  intros Hwf Hp Hq Hdis. unfold split_side.
  apply (for_each_ind (fun pre sg' st' => side_inv sg st p q pre sg' st')).
  - split; try done.
    + intros a b Ha. by apply elem_of_nil in Ha.
    + intros a b Ha. by apply elem_of_nil in Ha.
  - intros pre i post sg1 st1 Hl Hinv. by eapply split_side_step.
Qed.

Definition same_side (p1 p2 : list Z) (a b : Z) : Prop := (a ∈ p1 /\ b ∈ p1) \/ (a ∈ p2 /\ b ∈ p2).

Lemma Partition_spec sg st p1 p2 :
  grp_wf sg -> p1 ++ p2 ≡ₚ all sg ->
  exists st' sg', Partition p1 p2 sg st = Ret (st', sg') /\ grp_wf sg' /\ srvs sg' = srvs sg /\
    heap st' = heap st /\ killed st' = killed st /\
    (forall a, in_range sg a -> isconn (connected sg') a = true) /\
    forall a b, in_range sg a -> in_range sg b ->
      (en st' (ename (srvs sg) a b) = true <-> same_side p1 p2 a b).
Proof.
  intros Hwf Hperm.
  assert (forall j, j ∈ p1 ++ p2 <-> in_range sg j) as Hall.
  { intros j. rewrite Hperm. unfold all, in_range. rewrite elem_of_seqZ. lia. }
  setoid_rewrite elem_of_app in Hall.
  assert (forall j, j ∈ p1 -> ~ j ∈ p2) as Hdis.
  { assert (NoDup (p1 ++ p2)) as Hnd by (rewrite Hperm; apply NoDup_seqZ).
    apply NoDup_app in Hnd as (_ & Hd & _). done. }
  destruct (split_side_spec sg st p1 p2) as (st1 & sg1 & H1 & I1); [done|firstorder..|].
  assert (forall j, in_range sg1 j <-> in_range sg j) as Hr.
  { intros j. unfold in_range, N. by rewrite (si_srvs _ _ _ _ _ _ _ I1). }
  destruct (split_side_spec sg1 st1 p2 p1) as (st2 & sg2 & H2 & I2).
  { apply I1. }
  { intros j ?. apply Hr, Hall. by right. }
  { intros j ?. apply Hr, Hall. by left. }
  { intros j ? ?. by eapply Hdis. }
  exists st2, sg2. unfold Partition. rewrite H1. cbn [res_bind].
  pose proof I1 as [_ E1 [F1 G1] C1 A1 B1 _]. pose proof I2 as [W2 E2 [F2 G2] C2 A2 B2 D2].
  rewrite E1 in A2, B2, D2. split_and!; [done|done|congruence|congruence|congruence| |].
  - intros a Ha. rewrite C2 by (by apply Hr). rewrite C1 by done. apply Hall in Ha as [Ha|Ha].
    + rewrite (bool_decide_true (a ∈ p1)) by done. by rewrite orb_true_r.
    + by rewrite bool_decide_true.
  - intros a b Ha Hb. pose proof Ha as Ha'%Hall. pose proof Hb as Hb'%Hall. unfold same_side.
    destruct Ha' as [Ha'|Ha'], Hb' as [Hb'|Hb'].
    + rewrite D2 by (by first [apply Hr|apply Hdis]). rewrite A1 by done. tauto.
    + destruct (B2 b a Hb' Ha') as [_ ->]. split; [done|]. intros [[_ ?]|[? _]]; exfalso; by eapply Hdis.
    + destruct (B2 a b Ha' Hb') as [-> _]. split; [done|]. intros [[? _]|[_ ?]]; exfalso; by eapply Hdis.
    + rewrite A2 by done. tauto.
Qed.
End groups.

(** *** MakePartition *)

(** Writing at place [j] of the two arrays seen as one. *)
Lemma set_two (p1 p2 : list Z) j i :
  0 <= j < zlen p1 + zlen p2 ->
  exists q1 q2, (if decide (j < zlen p1) then let! p1 := set_idx p1 j i in Ret (p1, p2)
           else let! p2 := set_idx p2 (j - zlen p1) i in Ret (p1, p2)) = Ret (q1, q2) /\
    length q1 = length p1 /\ length q2 = length p2 /\ q1 ++ q2 = <[Z.to_nat j := i]> (p1 ++ p2).
Proof.
  intros Hj. unfold zlen in *. case_decide as Hd.
  - rewrite (proj2 (set_idx_Ret _ _ _ _)) by (split; [unfold zlen; lia|done]). eexists _, _.
    split; [done|]. rewrite length_insert. split_and!; [done|done|]. rewrite insert_app_l; [done|lia].
  - rewrite (proj2 (set_idx_Ret _ _ _ _)) by (split; [unfold zlen; lia|done]). eexists _, _.
    split; [done|]. rewrite length_insert. split_and!; [done|done|].
    rewrite insert_app_r_alt by lia. do 2 f_equal. lia.
Qed.

Lemma partition_loop_spec l ids j p1 p2 :
  let f := filter (fun i => i <> l) ids in
  0 <= j -> j + zlen f <= zlen p1 + zlen p2 ->
  exists q1 q2, partition_loop l ids j p1 p2 = Ret (q1, q2) /\
    length q1 = length p1 /\ length q2 = length p2 /\
    q1 ++ q2 = take (Z.to_nat j) (p1 ++ p2) ++ f ++ drop (Z.to_nat j + length f) (p1 ++ p2).
Proof.
  revert j p1 p2. induction ids as [|i ids IH]; intros j p1 p2 f Hj Hf; cbn [partition_loop].
  - exists p1, p2. split_and!; try done. unfold f. cbn [filter list_filter app length].
    by rewrite Nat.add_0_r, take_drop.
  - unfold f in *. rewrite filter_cons in *. destruct (decide (i <> l)) as [Hne|He].
    + rewrite zlen_cons in Hf. pose proof (zlen_nonneg (filter (fun i => i <> l) ids)).
      destruct (set_two p1 p2 j i ltac:(lia)) as (q1 & q2 & -> & L1 & L2 & E). cbn [res_bind].
      destruct (IH (j + 1) q1 q2) as (r1 & r2 & -> & M1 & M2 & E'); [lia|unfold zlen in *; lia|].
      exists r1, r2. split_and!; [done|congruence|congruence|]. rewrite E', E.
      replace (Z.to_nat (j + 1)) with (S (Z.to_nat j)) by lia.
      assert (Z.to_nat j < length (p1 ++ p2))%nat as Hlt by (rewrite length_app; unfold zlen in *; lia).
      rewrite (take_S_r _ _ i) by (by rewrite list_lookup_insert_eq).
      rewrite take_insert_ge by lia. rewrite <- app_assoc. cbn [app length]. do 3 f_equal.
      rewrite drop_insert_lt by lia. f_equal. lia.
    + destruct (IH j p1 p2 Hj Hf) as (q1 & q2 & -> & ? & ? & ?). by exists q1, q2.
Qed.

Section make_partition.
Context {Svc : Type}.

(** With an odd number of servers: the minority, with [l], and the others. *)
Lemma MakePartition_odd (sg : ServerGrp Svc) l h :
  N sg = 2 * h + 1 -> 1 <= h -> 0 <= l < N sg ->
  exists p1 p2, MakePartition l sg = Ret (p1, p2) /\ p1 ++ p2 ≡ₚ all sg /\
    zlen p1 = h + 1 /\ zlen p2 = h /\ l ∈ p2.
Proof.
  intros HN Hh Hl. unfold MakePartition. rewrite HN in *.
  assert ((2 * h + 1) ÷ 2 = h) as ->
    by (rewrite Z.quot_div_nonneg by lia; symmetry; by apply (Z.div_unique _ 2 h 1); lia).
  set (f := filter (fun i => i <> l) (seqZ 0 (2 * h + 1))).
  assert (seqZ 0 (2 * h + 1) ≡ₚ l :: f) as Hperm.
  { unfold f. apply NoDup_Permutation; [apply NoDup_seqZ| |].
    - apply NoDup_cons. split; [|apply NoDup_filter, NoDup_seqZ]. by intros [? _]%list_elem_of_filter.
    - intros x. rewrite elem_of_cons, list_elem_of_filter, elem_of_seqZ.
      destruct (decide (x = l)) as [->|]; [|tauto]. split; [by left|intros _; lia]. }
  assert (length f = Z.to_nat (2 * h)) as Hf.
  { apply Permutation_length in Hperm. rewrite length_seqZ in Hperm. cbn in Hperm. lia. }
  destruct (partition_loop_spec l (seqZ 0 (2 * h + 1)) 0 (replicate (Z.to_nat (h + 1)) 0)
    (replicate (Z.to_nat h) 0)) as (q1 & q2 & -> & L1 & L2 & E).
  { lia. }
  { fold f. unfold zlen. rewrite !length_replicate. lia. }
  cbn [res_bind]. fold f in E. rewrite length_replicate in L1, L2. cbn [Z.to_nat take app Nat.add] in E.
  rewrite take_0 in E. cbn [app] in E.
  rewrite <- replicate_add, drop_replicate in E.
  replace (_ - _)%nat with 1%nat in E by lia. cbn [replicate] in E.
  rewrite (proj2 (set_idx_Ret _ _ _ _)) by (split; [unfold zlen; lia|done]). cbn [res_bind].
  eexists _, _. split; [done|].
  assert (q1 ++ <[Z.to_nat (zlen q2 - 1) := l]> q2 = f ++ [l]) as Hq.
  { replace (q1 ++ <[Z.to_nat (zlen q2 - 1) := l]> q2) with (<[length f := l]> (q1 ++ q2)).
    2:{ rewrite insert_app_r_alt by lia. do 2 f_equal. unfold zlen. lia. }
    rewrite E. rewrite insert_app_r_alt by lia. by rewrite Nat.sub_diag. }
  split_and!.
  - rewrite Hq. unfold all. rewrite HN, Hperm. by rewrite Permutation_app_comm.
  - unfold zlen. lia.
  - rewrite zlen_insert. unfold zlen. lia.
  - eapply list_elem_of_lookup_2. apply list_lookup_insert_eq. unfold zlen. lia.
Qed.

(** ** Properties *)

(** C38 (a partition isolates the leader).  In a well-formed group of an odd number
    [2h+1 >= 3] of servers, whatever the ends were before, MakePartition puts the leader
    [l] with [h - 1] others, a minority, and after Partition exactly the ends between
    servers of the same side are enabled, in both directions: a call over an end to the
    other side never runs a handler and fails. *)
Theorem Partition_isolates (sg : ServerGrp Svc) st l h :
  grp_wf sg -> N sg = 2 * h + 1 -> 1 <= h -> 0 <= l < N sg ->
  exists p1 p2 st' sg', MakePartition l sg = Ret (p1, p2) /\ Partition p1 p2 sg st = Ret (st', sg') /\
    zlen p1 = h + 1 /\ zlen p2 = h /\ l ∈ p2 /\ p1 ++ p2 ≡ₚ all sg /\
    srvs sg' = srvs sg /\ heap st' = heap st /\
    forall a b, in_range sg a -> in_range sg b ->
      (LabRpc.is_enabled (net st') (ename (srvs sg) a b) = true <-> same_side p1 p2 a b) /\
      (~ same_side p1 p2 a b ->
       forall P W (psize : P -> Z) d ticks rn_end req hp (w : W),
         LabRpc.rq_endname req = ename (srvs sg) a b ->
         LabRpc.Call psize d (net st') ticks rn_end req hp w = Ret (hp, w, None)).
Proof.
  intros Hwf HN Hh Hl. destruct (MakePartition_odd sg l h HN Hh Hl) as (p1 & p2 & Hmk & Hperm & L1 & L2 & Hin).
  destruct (Partition_spec sg st p1 p2 Hwf Hperm) as (st' & sg' & Hp & _ & Hs & Hheap & _ & _ & Hen).
  exists p1, p2, st', sg'. split_and!; try done. intros a b Ha Hb. split; [by apply Hen|].
  intros Hside P W psize d ticks rn_end req hp w Hreq.
  assert (LabRpc.is_enabled (net st') (ename (srvs sg) a b) = false) as Hoff.
  { apply not_true_iff_false. intros H. apply Hside. by apply Hen. }
  unfold LabRpc.Call. destruct (LabRpc.nt_done (net st')); [done|].
  unfold LabRpc.processReq, LabRpc.readEndnameInfo. rewrite Hreq, Hoff. done.
Qed.

(** With an even number a server is in both sides: 0 keeps its ends to both. *)
Lemma MakePartition_even (sg : ServerGrp Svc) :
  N sg = 4 -> MakePartition 3 sg = Ret ([0; 1; 2], [0; 3]).
Proof. intros HN. unfold MakePartition. by rewrite HN. Qed.

(** A single server has no partition: the index -1 is used. *)
Lemma MakePartition_single (sg : ServerGrp Svc) :
  N sg = 1 -> MakePartition 0 sg = Panic IndexOutOfRange.
Proof. intros HN. unfold MakePartition. by rewrite HN. Qed.

(** *** Persisters of stopped servers *)

(** After a server was shut down the persister it is started from is a copy: what the old
    instance writes to the one it was given is not seen. *)
Lemma shutdown_detaches (s : Server Svc) st st' s' p ps :
  saved s = Some p -> heap st !! p = Some ps -> shutdownServer s st = (st', s') ->
  exists p', saved s' = Some p' /\ p' <> p /\ heap st' !! p' = Some ps /\
    forall ps', (<[p := ps']> (heap st')) !! p' = Some ps.
Proof.
  intros Hs Hp. unfold shutdownServer. rewrite Hs. cbn [copy_persister]. intros [= <- <-].
  pose proof (lookup_lt_Some _ _ _ Hp). exists (length (heap st)).
  assert ((heap st ++ [Persister.Copy (default MakePersister (heap st !! p))]) !! length (heap st) = Some ps) as Hnew.
  { rewrite lookup_app_r by lia. rewrite Nat.sub_diag, Hp. by destruct ps. }
  split_and!; [done|lia|done|]. intros ps'. rewrite list_lookup_insert_ne by lia. done.
Qed.
End make_partition.

(** *** Clients *)

(** ConnectTo enables the ends to the servers named but leaves the others as they were:
    an end enabled before stays enabled though the client may not use it any more. *)
Lemma ConnectTo_keeps_others :
  let rn := LabRpc.Enable "e2" true LabRpc.MakeNetwork in
  let clnt := MkClnt {["s1" := "e1"; "s2" := "e2"]} None in
  let '(rn', clnt') := ConnectTo (Some ["s1"]) clnt rn in
  allowedL "s2" clnt' = false /\ LabRpc.is_enabled rn' "e2" = true.
Proof. vm_compute. done. Qed.

Record clnt_ok (rn : LabRpc.Network) (clnt : Clnt) : Prop := {
  co_inj : forall s1 s2 e, c_ends clnt !! s1 = Some e -> c_ends clnt !! s2 = Some e -> s1 = s2;
  co_ends : forall s e, c_ends clnt !! s = Some e -> e ∈ LabRpc.ends rn;
  co_allowed : forall s e, c_ends clnt !! s = Some e -> LabRpc.is_enabled rn e = true ->
    allowedL s clnt = true;
}.

Lemma set_ends_spec (p : string -> bool) (b : bool) clnt rn :
  (forall s1 s2 e, c_ends clnt !! s1 = Some e -> c_ends clnt !! s2 = Some e -> s1 = s2) ->
  LabRpc.ends (set_ends p b clnt rn) = LabRpc.ends rn /\
  (forall s e, c_ends clnt !! s = Some e ->
    LabRpc.is_enabled (set_ends p b clnt rn) e = if p s then b else LabRpc.is_enabled rn e) /\
  (forall e, (forall s, c_ends clnt !! s <> Some e) ->
    LabRpc.is_enabled (set_ends p b clnt rn) e = LabRpc.is_enabled rn e).
Proof.
  unfold set_ends. destruct clnt as [m srvs0]. cbn [c_ends]. clear srvs0.
  induction m as [|k e0 m Hk Hfirst IH] using map_first_key_ind; intros Hinj.
  - rewrite map_fold_empty. split_and!; [done| |done]. intros s e Hs. by rewrite lookup_empty in Hs.
  - rewrite map_fold_insert_first_key by done.
    assert (forall s, m !! s = Some e0 -> False) as Hne.
    { intros s Hs. assert (s <> k) as Hsk by congruence. apply Hsk.
      apply (Hinj s k e0); [by rewrite lookup_insert_ne|by rewrite lookup_insert_eq]. }
    destruct IH as (E & I & O).
    { intros s1 s2 e H1 H2. assert (s1 <> k /\ s2 <> k) as [? ?] by (split; congruence).
      apply (Hinj s1 s2 e); by rewrite lookup_insert_ne. }
    set (rn1 := map_fold _ rn m) in *. split_and!.
    + by destruct (p k).
    + intros s e. destruct (decide (s = k)) as [->|Hs].
      * rewrite lookup_insert_eq. intros [= <-]. destruct (p k); [|by apply O; eauto].
        unfold LabRpc.is_enabled. cbn. by rewrite lookup_insert_eq.
      * rewrite lookup_insert_ne by done. intros Hs'. rewrite <- (I s e Hs').
        destruct (p k); [|done]. unfold LabRpc.is_enabled. cbn.
        rewrite lookup_insert_ne; [done|]. intros ->. by eapply Hne.
    + intros e He. rewrite <- (O e).
      * destruct (p k); [|done]. unfold LabRpc.is_enabled. cbn. rewrite lookup_insert_ne; [done|].
        intros ->. apply (He k). by rewrite lookup_insert_eq.
      * intros s Hs. apply (He s). rewrite lookup_insert_ne; [done|]. congruence.
Qed.

Lemma set_ends_ok (p : string -> bool) (b : bool) clnt srvs' rn :
  clnt_ok rn clnt ->
  (forall s, (if p s then b else allowedL s clnt) = true -> allowedL s (MkClnt (c_ends clnt) srvs') = true) ->
  clnt_ok (set_ends p b clnt rn) (MkClnt (c_ends clnt) srvs').
Proof.
  intros [Hinj Hends Hall] Hp. destruct (set_ends_spec p b clnt rn Hinj) as (E & I & _).
  split; cbn [c_ends]; [done| |].
  - intros s e Hs. rewrite E. eauto.
  - intros s e Hs. rewrite (I s e Hs). intros Ht. apply Hp. destruct (p s); eauto.
Qed.

Lemma ClntConnectAll_ok clnt rn :
  clnt_ok rn clnt -> clnt_ok (ClntConnectAll clnt rn).1 (ClntConnectAll clnt rn).2.
Proof. intros H. apply set_ends_ok; done. Qed.
Lemma ClntDisconnectAll_ok clnt rn :
  clnt_ok rn clnt -> clnt_ok (ClntDisconnectAll clnt rn).1 (ClntDisconnectAll clnt rn).2.
Proof. intros H. by apply set_ends_ok. Qed.
Lemma Disconnect_ok srv clnt rn : clnt_ok rn clnt -> clnt_ok (Disconnect srv clnt rn) clnt.
Proof.
  intros H. unfold Disconnect. destruct clnt as [ce cs]. apply (set_ends_ok (fun s => bool_decide (s = srv)) false (MkClnt ce cs) cs rn); [done|].
  intros s. by case_bool_decide.
Qed.

Lemma makeEnd_ok name server clnt rn :
  clnt_ok rn clnt -> name ∉ LabRpc.ends rn ->
  exists rn' clnt' e, makeEnd name server clnt rn = Ret (rn', clnt', e) /\ clnt_ok rn' clnt' /\
    c_srvs clnt' = c_srvs clnt /\ c_ends clnt' !! server = Some e /\
    LabRpc.nt_done rn' = LabRpc.nt_done rn.
Proof.
  intros [Hinj Hends Hall] Hn. unfold makeEnd. destruct (c_ends clnt !! server) as [e|] eqn:He.
  { by exists rn, clnt, e. }
  unfold LabRpc.MakeEnd. rewrite decide_False by done. cbn [res_bind].
  eexists _, _, _. split; [done|]. cbn [c_srvs c_ends].
  assert (forall s, c_ends clnt !! s = Some name -> False) as Hfresh by (intros s Hs; eapply Hn; by eapply Hends).
  split; [|by rewrite lookup_insert_eq]. split; cbn [c_ends LabRpc.ends LabRpc.Enable LabRpc.Connect LabRpc.set_tables].
  - intros s1 s2 e. destruct (decide (s1 = server)) as [->|H1], (decide (s2 = server)) as [->|H2];
      rewrite ?lookup_insert_eq, ?lookup_insert_ne by done; try done.
    + intros [= <-] ?. exfalso. eauto.
    + intros ? [= <-]. exfalso. eauto.
    + apply Hinj.
  - intros s e. destruct (decide (s = server)) as [->|H1]; rewrite ?lookup_insert_eq, ?lookup_insert_ne by done.
    + intros [= <-]. set_solver.
    + intros Hs. apply elem_of_union_r. eauto.
  - intros s e. unfold LabRpc.is_enabled. cbn [LabRpc.enabled LabRpc.Enable LabRpc.Connect LabRpc.set_tables].
    destruct (decide (s = server)) as [->|H1]; rewrite ?lookup_insert_eq, ?lookup_insert_ne by done.
    + intros [= <-]. by rewrite lookup_insert_eq.
    + intros Hs. assert (name <> e) by (intros ->; eauto). rewrite !lookup_insert_ne by done. by apply Hall.
Qed.

(** A call to a server the client may not use runs no handler and fails, and every
    operation but ConnectTo keeps what makes this so ([clnt_ok]). *)
Lemma clnt_Call_confined {P W} (psize : P -> Z) name server method args d ticks rn_end clnt rn hp (w : W) :
  clnt_ok rn clnt -> name ∉ LabRpc.ends rn -> allowedL server clnt = false ->
  exists rn' clnt', clnt_Call psize name server method args d ticks rn_end clnt rn hp w =
    Ret (rn', clnt', hp, w, None) /\ clnt_ok rn' clnt'.
Proof.
  intros Hok Hn Hno. destruct (makeEnd_ok name server clnt rn Hok Hn) as (rn' & clnt' & e & Hm & Hok' & Hs & He & _).
  exists rn', clnt'. unfold clnt_Call. rewrite Hm. cbn [res_bind]. split; [|done].
  assert (LabRpc.is_enabled rn' e = false) as Hoff.
  { apply not_true_iff_false. intros Ht. pose proof (co_allowed _ _ Hok' _ _ He Ht) as Ha.
    unfold allowedL in *. rewrite Hs in Ha. congruence. }
  unfold LabRpc.Call. destruct (LabRpc.nt_done rn'); [done|].
  unfold LabRpc.processReq, LabRpc.readEndnameInfo. cbn [LabRpc.rq_endname]. by rewrite Hoff.
Qed.

(** *** Shuffling *)

Lemma shuffle_loop_perm {A} js i (sa sa' : list A) : shuffle_loop js i sa = Ret sa' -> sa' ≡ₚ sa.
Proof.
  revert i sa. induction js as [|j js IH]; intros i sa; cbn [shuffle_loop]; [by intros [= ->]|].
  intros H. inv_res. apply IH in H. rewrite H. clear H IH.
  repeat match goal with
  | H : idx _ _ = Ret _ |- _ => apply idx_Ret in H as [? ?]
  | H : set_idx _ _ _ = Ret _ |- _ => apply set_idx_Ret in H as [? ->]
  end.
  by apply Permutation_insert_swap.
Qed.

(** *** Example *)

Definition ex_server (i : Z) : Server unit :=
  MkServer None [] ((fun j => pretty i +:+ ">" +:+ pretty j) <$> seqZ 0 3).
Definition ex_grp : ServerGrp unit :=
  MkServerGrp (ex_server <$> seqZ 0 3) (ServerName 0 <$> seqZ 0 3) 0 [true; true; true].

Lemma ex_grp_wf : grp_wf ex_grp.
Proof.
  split; [done| |].
  - intros s (i & -> & _)%list_elem_of_fmap. done.
  - unfold in_range. change (N ex_grp) with 3. intros a b c d Ha Hb Hc Hd.
    assert (forall x, 0 <= x < 3 -> x = 0 \/ x = 1 \/ x = 2) as Hx by lia.
    destruct (Hx a Ha) as [->|[->| ->] ], (Hx b Hb) as [->|[->| ->] ], (Hx c Hc) as [->|[->| ->] ],
      (Hx d Hd) as [->|[->| ->] ]; vm_compute; (by intros _) || discriminate.
Qed.

Lemma Partition_isolates_witness :
  exists st' sg', Partition [0; 1] [2] ex_grp (MkState LabRpc.MakeNetwork [] []) = Ret (st', sg') /\
    LabRpc.is_enabled (net st') "0>1" = true /\ LabRpc.is_enabled (net st') "2>0" = false.
Proof.
  destruct (Partition_isolates ex_grp (MkState LabRpc.MakeNetwork [] []) 2 1) as
    (p1 & p2 & st' & sg' & Hmk & Hp & _ & _ & _ & _ & _ & _ & Hen); [apply ex_grp_wf|done|done|done|].
  vm_compute in Hmk. injection Hmk as <- <-. exists st', sg'. split; [done|]. split.
  - change "0>1" with (ename (srvs ex_grp) 0 1). apply Hen; [done|done|].
    left. split; [by left|by right; left].
  - apply not_true_iff_false. change "2>0" with (ename (srvs ex_grp) 2 0). intros H.
    apply Hen in H; [|done|done]. destruct H as [[H _]|[_ H]].
    + by repeat apply elem_of_cons in H as [?|H]; try apply elem_of_nil in H.
    + by repeat apply elem_of_cons in H as [?|H]; try apply elem_of_nil in H.
Defined.

(** ** Starting and stopping a group *)

Section start_groups.
Context {Svc : Type}.
Implicit Types (sg : ServerGrp Svc) (st : tstate Svc) (s : Server Svc).

Definition net_ends st : gset string := LabRpc.ends (net st).

(** The names are new, and no two are the same. *)
Definition fresh_names (names : list string) st : Prop :=
  NoDup names /\ forall x, x ∈ names -> x ∉ net_ends st.

Lemma fresh_names_app names names' st :
  fresh_names (names ++ names') st <->
  fresh_names names st /\ fresh_names names' st /\ forall x, x ∈ names -> x ∉ names'.
Proof. unfold fresh_names. rewrite NoDup_app. setoid_rewrite elem_of_app. naive_solver. Qed.

Lemma fresh_names_after names names' st st' :
  fresh_names (names ++ names') st -> net_ends st' = net_ends st ∪ list_to_set names -> fresh_names names' st'.
Proof.
  intros (_ & [Hn Hf] & Hd)%fresh_names_app He. split; [done|]. intros x Hx. rewrite He, not_elem_of_union.
  split; [by apply Hf|]. rewrite elem_of_list_to_set. intros Hx'. by apply (Hd x).
Qed.

Lemma make_ends_Ret gid j names rn :
  NoDup names -> (forall x, x ∈ names -> x ∉ LabRpc.ends rn) ->
  exists rn', make_ends gid j names rn = Ret rn' /\ LabRpc.ends rn' = LabRpc.ends rn ∪ list_to_set names.
Proof.
  revert j rn. induction names as [|x names IH]; intros j rn Hnd Hf; cbn [make_ends].
  { exists rn. split; [done|]. set_solver. }
  apply NoDup_cons in Hnd as [Hx Hnd]. unfold LabRpc.MakeEnd at 1.
  rewrite decide_False by (apply Hf; left). cbn [res_bind].
  match goal with |- context [make_ends _ _ names ?r] => destruct (IH (j + 1) r) as (rn' & -> & He) end; [done| |].
  - intros y Hy. cbn. assert (y <> x) by (by intros ->). pose proof (Hf y ltac:(by right)). set_solver.
  - exists rn'. split; [done|]. rewrite He. cbn. set_solver.
Qed.

Lemma makeServer_Ret names gid st :
  fresh_names names st -> exists st', makeServer names gid st = Ret (st', MkServer None [] names) /\
    net_ends st' = net_ends st ∪ list_to_set names.
Proof.
  intros [Hnd Hf]. unfold makeServer. destruct (make_ends_Ret gid 0 names (net st) Hnd Hf) as (rn & -> & He).
  by eexists.
Qed.

Lemma make_servers_Ret names gid st :
  fresh_names (concat names) st -> exists st', make_servers names gid st = Ret (st', MkServer None [] <$> names) /\
    net_ends st' = net_ends st ∪ list_to_set (concat names).
Proof.
  revert st. induction names as [|ns names IH]; intros st Hf; cbn [make_servers].
  { exists st. split; [done|]. set_solver. }
  destruct (makeServer_Ret ns gid st) as (st1 & -> & He1); [by apply fresh_names_app in Hf as [? _]|].
  cbn [res_bind]. destruct (IH st1) as (st2 & -> & He2); [by eapply fresh_names_after|].
  exists st2. split; [done|]. rewrite He2, He1. cbn [concat]. rewrite list_to_set_app_L. set_solver.
Qed.

Lemma startServer_Ret names gid s st :
  fresh_names names st -> exists st' p, startServer names gid s st = Ret (st', MkServer (Some p) [] names) /\
    net_ends st' = net_ends st ∪ list_to_set names.
Proof.
  intros Hf. unfold startServer. destruct (makeServer_Ret names gid st Hf) as (st1 & -> & He). cbn [res_bind].
  by destruct (saved s); eexists _, _.
Qed.

Lemma start_loop_Ret news i sg st :
  0 <= i -> i + zlen news = N sg -> fresh_names (concat (n_ends <$> news)) st ->
  exists st' l, start_loop news i sg st = Ret (st', MkServerGrp l (servernames sg) (gid sg) (connected sg)) /\
    net_ends st' = net_ends st ∪ list_to_set (concat (n_ends <$> news)) /\
    endNames <$> l = take (Z.to_nat i) (endNames <$> srvs sg) ++ (n_ends <$> news).
Proof.
  revert i sg st. induction news as [|x news IH]; intros i sg st Hi Hlen Hf; cbn [start_loop].
  { exists st, (srvs sg). split; [by destruct sg|]. split; [set_solver|]. rewrite zlen_nil in Hlen.
    cbn [fmap list_fmap]. rewrite app_nil_r, take_ge; [done|]. rewrite length_fmap. unfold N, zlen in Hlen. lia. }
  rewrite zlen_cons in Hlen. pose proof (zlen_nonneg news). destruct (idx_ok (srvs sg) i) as [s Hs]; [unfold N in Hlen; lia|].
  unfold StartServer. rewrite Hs. cbn [res_bind]. rewrite fmap_cons in Hf. cbn [concat] in Hf.
  destruct (startServer_Ret (n_ends x) (gid sg) s st) as (st1 & p & -> & He1); [by apply fresh_names_app in Hf as [? _]|].
  cbn [res_bind saved endNames from_option].
  rewrite (proj2 (set_idx_Ret (srvs sg) i _ _) (conj (idx_range _ _ _ Hs) eq_refl)). cbn [res_bind].
  match goal with |- context [start_loop news (i + 1) ?g ?t] => destruct (IH (i + 1) g t) as (st2 & l & -> & He2 & Hl) end.
  - lia.
  - unfold N. cbn [srvs]. rewrite zlen_insert. unfold N in Hlen. lia.
  - eapply fresh_names_after; [exact Hf|]. exact He1.
  - cbn [servernames gid connected] in *. exists st2, l. split; [done|]. split.
    + rewrite He2. change (net_ends (with_net ?r ?t)) with (LabRpc.ends r). cbn. fold (net_ends st1). rewrite He1.
      rewrite list_to_set_app_L. set_solver.
    + rewrite Hl. cbn [srvs]. replace (Z.to_nat (i + 1)) with (S (Z.to_nat i)) by lia.
      pose proof (idx_range _ _ _ Hs) as Hr. unfold zlen in Hr. rewrite list_fmap_insert.
      rewrite (take_S_r _ _ (n_ends x)) by (apply list_lookup_insert_eq; rewrite length_fmap; lia).
      rewrite take_insert_ge by lia. by rewrite <- app_assoc.
Qed.

Lemma NoDup_concat_inj {A} (L : list (list A)) a b c d la lc x :
  NoDup (concat L) -> L !! a = Some la -> la !! b = Some x -> L !! c = Some lc -> lc !! d = Some x -> a = c /\ b = d.
Proof.
  revert a c. induction L as [|l L IH]; intros a c Hnd Ha Hb Hc Hd; [done|]. cbn [concat] in Hnd.
  apply NoDup_app in Hnd as (H1 & Hdis & H2).
  assert (forall k lk j, L !! k = Some lk -> lk !! j = Some x -> x ∈ concat L) as Hin.
  { intros k lk j Hk Hj. apply list_elem_of_In, in_concat. exists lk.
    split; apply list_elem_of_In; by eapply list_elem_of_lookup_2. }
  destruct a as [|a], c as [|c]; cbn in Ha, Hc.
  - simplify_eq. split; [done|]. exact (NoDup_lookup _ _ _ _ H1 Hb Hd).
  - simplify_eq. destruct (Hdis x); [by eapply list_elem_of_lookup_2|by eapply Hin].
  - simplify_eq. destruct (Hdis x); [by eapply list_elem_of_lookup_2|by eapply Hin].
  - destruct (IH a c H2 Ha Hb Hc Hd) as [-> ->]. done.
Qed.

(** A group of servers with ends of their own. *)
Lemma group_of_ends sg :
  length (connected sg) = length (srvs sg) ->
  (forall ns, ns ∈ endNames <$> srvs sg -> length ns = length (srvs sg)) ->
  NoDup (concat (endNames <$> srvs sg)) -> grp_wf sg.
Proof.
  intros Hc He Hnd. split; [done| |].
  - intros s Hs. apply He. by apply list_elem_of_fmap_2.
  - intros a b c d Ha Hb Hc' Hd. unfold in_range, N, zlen in *.
    assert (forall i, 0 <= i < Z.of_nat (length (srvs sg)) -> exists s, srvs sg !! Z.to_nat i = Some s /\
      (endNames <$> srvs sg) !! Z.to_nat i = Some (endNames s) /\
      forall j, 0 <= j < Z.of_nat (length (srvs sg)) -> endNames s !! Z.to_nat j = Some (end_of s j)) as Hget.
    { intros i Hi. destruct (lookup_lt_is_Some_2 (srvs sg) (Z.to_nat i)) as [s Hs]; [lia|]. exists s.
      split; [done|]. split; [by rewrite list_lookup_fmap, Hs|]. intros j Hj.
      assert (length (endNames s) = length (srvs sg)) as Hlen
        by (apply He, list_elem_of_fmap_2; by eapply list_elem_of_lookup_2).
      unfold end_of. destruct (lookup_lt_is_Some_2 (endNames s) (Z.to_nat j)) as [x Hx]; [lia|]. by rewrite Hx. }
    destruct (Hget a Ha) as (s & Hs & Hls & Hes). destruct (Hget c Hc') as (s' & Hs' & Hls' & Hes').
    unfold ename. rewrite Hs, Hs'. cbn [from_option]. intros Heq.
    pose proof (Hes b Hb) as H1. pose proof (Hes' d Hd) as H2. rewrite <- Heq in H2.
    destruct (NoDup_concat_inj _ _ _ _ _ _ _ _ Hnd Hls H1 Hls' H2). lia.
Qed.

(** Connecting does not make ends. *)
Lemma enables_ends l b st : net_ends (enables l b st) = net_ends st.
Proof. revert st. induction l as [|x l IH]; intros st; [done|]. apply (IH (enable x b st)). Qed.

Lemma connect_ends i to sg st st' sg' :
  grp_wf sg -> in_range sg i -> (forall j, j ∈ to -> in_range sg j) ->
  connect i to sg st = Ret (st', sg') -> net_ends st' = net_ends st.
Proof.
  intros Hwf Hi Hto H. destruct (set_connected_eq sg i true Hwf Hi) as [Hset Hwf'].
  set (sg1 := with_conn sg (<[Z.to_nat i := true]> (connected sg))) in *.
  destruct (in_range_server sg i Hwf Hi) as (s & _ & Hs & He).
  unfold connect in H. rewrite Hset in H. cbn [res_bind] in H. change (srvs sg1) with (srvs sg) in H. rewrite Hs in H.
  cbn [res_bind] in H.
  rewrite srv_connect_eq in H by (intros j Hj; split; [by apply (in_range_conn sg1); [|apply Hto]|by apply He, Hto]).
  cbn [res_bind] in H. rewrite (enable_incoming_eq sg1) in H by done. cbn [res_bind] in H. injection H as <- _.
  by rewrite !enables_ends.
Qed.

Lemma disconnect_ends i from sg st st' sg' :
  grp_wf sg -> in_range sg i -> (forall j, j ∈ from -> in_range sg j) ->
  disconnect i from sg st = Ret (st', sg') -> net_ends st' = net_ends st.
Proof.
  intros Hwf Hi Hto H. destruct (set_connected_eq sg i false Hwf Hi) as [Hset Hwf'].
  set (sg1 := with_conn sg (<[Z.to_nat i := false]> (connected sg))) in *.
  destruct (in_range_server sg i Hwf Hi) as (s & _ & Hs & He).
  unfold disconnect in H. rewrite Hset in H. cbn [res_bind] in H. change (srvs sg1) with (srvs sg) in H. rewrite Hs in H.
  cbn [res_bind] in H. rewrite srv_disconnect_eq in H by (intros j Hj; by apply He, Hto).
  cbn [res_bind] in H. rewrite (disable_incoming_eq sg1) in H by done. cbn [res_bind] in H. injection H as <- _.
  by rewrite !enables_ends.
Qed.

Lemma servers_in_range sg j : j ∈ all sg -> in_range sg j.
Proof. unfold all, in_range. rewrite elem_of_seqZ. lia. Qed.

(** The group with other services: what Shutdown and ConnectAll keep. *)
Record same_group sg sg' : Prop := {
  sg_names : servernames sg' = servernames sg;
  sg_gid : gid sg' = gid sg;
  sg_ends : endNames <$> srvs sg' = endNames <$> srvs sg;
  sg_wf : grp_wf sg';
}.

Lemma same_group_range sg sg' i : same_group sg sg' -> in_range sg i -> in_range sg' i.
Proof.
  intros [_ _ He _]. apply (f_equal length) in He. rewrite !length_fmap in He. unfold in_range, N, zlen. by rewrite He.
Qed.

Lemma for_each_same (f : Z -> ServerGrp Svc -> tstate Svc -> res (tstate Svc * ServerGrp Svc)) sg st :
  grp_wf sg ->
  (forall i sg' st', in_range sg' i -> grp_wf sg' -> exists st'' sg'', f i sg' st' = Ret (st'', sg'') /\
     same_group sg' sg'' /\ net_ends st'' = net_ends st') ->
  exists st' sg', for_each f (all sg) sg st = Ret (st', sg') /\ same_group sg sg' /\ net_ends st' = net_ends st.
Proof.
  intros Hwf Hf. apply (for_each_ind (fun _ sg' st' => same_group sg sg' /\ net_ends st' = net_ends st)).
  - done.
  - intros pre i post sg1 st1 Hl [Hs He].
    assert (in_range sg i) as Hi by (apply servers_in_range; rewrite Hl; apply elem_of_app; right; left).
    destruct (Hf i sg1 st1 (same_group_range _ _ _ Hs Hi) (sg_wf _ _ Hs)) as (st2 & sg2 & H & Hs2 & He2).
    exists st2, sg2. split; [done|]. split; [|congruence]. destruct Hs, Hs2. by split; try congruence.
Qed.

Lemma ConnectAll_Ret sg st :
  grp_wf sg -> exists st' sg', ConnectAll sg st = Ret (st', sg') /\ same_group sg sg' /\ net_ends st' = net_ends st.
Proof.
  intros Hwf. apply for_each_same; [done|]. intros i sg' st' Hi Hwf'. unfold ConnectOne.
  destruct (connect_spec sg' i (all sg') st' Hwf' Hi (servers_in_range sg')) as (st'' & H & Hw & _).
  eexists _, _. split; [exact H|]. split; [by split|]. eapply connect_ends; [exact Hwf'|exact Hi|apply servers_in_range|exact H].
Qed.

Lemma Shutdown_Ret sg st :
  grp_wf sg -> exists st' sg', Shutdown sg st = Ret (st', sg') /\ same_group sg sg' /\ net_ends st' = net_ends st.
Proof.
  intros Hwf. apply for_each_same; [done|]. intros i sg' st' Hi Hwf'. unfold ShutdownServer.
  destruct (disconnect_spec sg' i (all sg') st' Hwf' Hi (servers_in_range sg')) as (st'' & H & Hw & _).
  pose proof (disconnect_ends _ _ _ _ _ _ Hwf' Hi (servers_in_range sg') H) as He. rewrite H. cbn [res_bind].
  set (sg1 := with_conn sg' (<[Z.to_nat i := false]> (connected sg'))) in *.
  destruct (idx_ok (srvs sg1) i Hi) as [s Hs]. rewrite Hs. cbn [res_bind].
  change (srvs sg1) with (srvs sg') in *. pose proof Hs as [_ Hl]%idx_Ret. unfold shutdownServer.
  assert (forall s', endNames s' = endNames s -> same_group sg'
    (MkServerGrp (<[Z.to_nat i := s']> (srvs sg')) (servernames sg1) (gid sg1) (connected sg1))) as Hsame.
  { intros s' Hs'. assert (endNames <$> <[Z.to_nat i := s']> (srvs sg') = endNames <$> srvs sg') as E.
    { rewrite list_fmap_insert, Hs'. apply list_insert_id. by rewrite list_lookup_fmap, Hl. }
    split; [done|done|done|]. destruct Hw as [Hw1 Hw2 Hw3]. split; cbn [connected srvs].
    - by rewrite length_insert.
    - intros x [->|Hx]%elem_of_insert_list; rewrite length_insert.
      + rewrite Hs'. apply Hw2. by eapply list_elem_of_lookup_2.
      + by apply Hw2.
    - intros a b c d. unfold in_range, N. cbn [srvs]. rewrite zlen_insert.
      assert (forall a b, ename (<[Z.to_nat i := s']> (srvs sg')) a b = ename (srvs sg') a b) as Hen.
      { intros a0 b0. unfold ename. destruct (decide (Z.to_nat i = Z.to_nat a0)) as [<-|Hne].
        - rewrite list_lookup_insert_eq by (by eapply lookup_lt_Some). rewrite Hl. cbn. unfold end_of. by rewrite Hs'.
        - by rewrite list_lookup_insert_ne. }
      rewrite !Hen. apply Hw3. }
  assert (forall x, set_idx (srvs sg') i x = Ret (<[Z.to_nat i := x]> (srvs sg'))) as Hset
    by (intros x; apply set_idx_Ret; split; [exact Hi|done]).
  destruct (saved s) as [p|]; cbn [copy_persister]; rewrite Hset; cbn [res_bind]; eexists _, _;
    (split; [reflexivity|]); (split; [by apply Hsame|]); exact He.
Qed.

(** A group that is made and started: each server has an end to each, all new. *)
Record boot_ok (names : list (list string)) (news : list (newServer Svc)) st : Prop := {
  bo_length : length news = length names;
  bo_ends : forall x, x ∈ news -> length (n_ends x) = length news;
  bo_fresh : fresh_names (concat names ++ concat (n_ends <$> news)) st;
}.

Definition group_ok (id n : Z) sg : Prop :=
  grp_wf sg /\ servernames sg = ServerName id <$> seqZ 0 n /\ gid sg = id.

Lemma MakeGroupStart_Ret names news id grps st :
  boot_ok names news st ->
  exists st' sg, MakeGroupStart names news id grps st = Ret (st', <[id := sg]> grps) /\
    group_ok id (zlen names) sg /\
    net_ends st' = net_ends st ∪ list_to_set (concat names ++ concat (n_ends <$> news)).
Proof.
  intros [Hlen Hends Hf]. unfold MakeGroupStart, MakeGroup, makeSrvGrp.
  destruct (make_servers_Ret names id st) as (st1 & -> & He1); [by apply fresh_names_app in Hf as [? _]|].
  cbn [res_bind]. unfold lookupGroup. rewrite lookup_insert_eq. unfold StartServers, start.
  match goal with |- context [start_loop news 0 ?g st1] => destruct (start_loop_Ret news 0 g st1) as (st2 & l & -> & He2 & Hl) end.
  - lia.
  - unfold N. cbn [srvs]. unfold zlen. rewrite length_fmap. lia.
  - by eapply fresh_names_after.
  - cbn [res_bind servernames gid connected srvs] in *. rewrite take_0 in Hl. cbn [app] in Hl.
    assert (length l = length news) as Hll.
    { apply (f_equal length) in Hl. by rewrite !length_fmap in Hl. }
    match goal with |- context [ConnectAll ?g st2] => destruct (ConnectAll_Ret g st2) as (st3 & sg & -> & Hsame & He3) end.
    { apply group_of_ends; cbn [connected srvs].
      - rewrite length_replicate. lia.
      - rewrite Hl. intros ns (x & -> & Hx)%list_elem_of_fmap. rewrite Hll. by apply Hends.
      - rewrite Hl. by apply fresh_names_app in Hf as (_ & [? _] & _). }
    cbn [res_bind]. eexists _, _. split; [by rewrite insert_insert_eq|]. destruct Hsame as [H1 H2 H3 H4].
    cbn [servernames gid] in *. split; [by split_and!|].
    rewrite He3, He2, He1, list_to_set_app_L. set_solver.
Qed.

Lemma ExitGroup_Ret id grps sg st :
  grps !! id = Some sg -> grp_wf sg ->
  exists st', ExitGroup id grps st = Ret (st', delete id grps) /\ net_ends st' = net_ends st.
Proof.
  intros Hg Hwf. unfold ExitGroup, lookupGroup. rewrite Hg. destruct (Shutdown_Ret sg st Hwf) as (st' & sg' & -> & _ & He).
  cbn [res_bind]. by exists st'.
Qed.

(** A test's configuration starts with its first group running. *)
Lemma MakeConfig_Ret names news reliable :
  boot_ok names news (MkState LabRpc.MakeNetwork [] []) ->
  exists st sg, MakeConfig names news reliable = Ret (st, MkCfg makeClnts {[GRP0 := sg]} 0 0) /\
    group_ok GRP0 (zlen names) sg /\ IsReliable st = reliable.
Proof.
  intros Hb. unfold MakeConfig. destruct (MakeGroupStart_Ret names news GRP0 newGroups _ Hb) as (st & sg & -> & Hok & _).
  cbn [res_bind]. by eexists _, sg.
Qed.
End start_groups.
End Tester.
