(* ===== verification/Annot.v ===== *)
(** * Annot: the annotations of a test's history (src/src/tester1/annotation.go)

    Point, interval and continuous annotations, the network faults the framework reports
    as continuous annotations, the checkers' intervals, and what is drawn at the end.
    [timestamp()] is an argument of every operation.  Opening and drawing the file is
    reduced to the list of annotations drawn. *)
From S2P Require Import Prelude.
Local Open Scope Z_scope.
Local Open Scope go_scope.

Module Annot.

(** ** Data *)

(** The fields of [porcupine.Annotation] that are set; [End] is 0 for a point. *)
Record pAnnotation := MkAnn {
  Tag : string;
  Start : Z;
  End_ : Z;
  Description : string;
  Details : string;
  BackgroundColor : string;
}.

Record Continuous := MkCont {
  ct_start : Z;
  ct_desp : string;
  ct_details : string;
  ct_bgcolor : string;
}.

Record Annotation := MkAnnotation {
  annotations : list pAnnotation;
  continuous : gmap string Continuous;
  finalized : bool;
}.

Record CheckerBegin := MkCk { ck_ts : Z; ck_details : string }.

Record FrameworkInfo := MkInfo {
  nservers : Z;
  connected : list bool;
  crashed : list bool;
  ckbegin : CheckerBegin;
}.

(** The package's variables [annotation] and [finfo]. *)
Record globals := MkGlobals { annotation : Annotation; finfo : option FrameworkInfo }.

Definition COLOR_INFO := "#FAFAFA".
Definition COLOR_NEUTRAL := "#FFECB3".
Definition COLOR_SUCCESS := "#C8E6C9".
Definition COLOR_FAILURE := "#FFCDD2".
Definition COLOR_FAULT := "#B3E5FC".
Definition COLOR_USER := "#FFF176".
Definition TAG_CHECKER := "$ Checker".
Definition TAG_PARTITION := "$ Failure".
Definition TAG_INFO := "$ Test Info".

(** ** The annotation object *)

Definition mkAnnotation : Annotation := MkAnnotation [] ∅ false.
Definition clear (an : Annotation) : Annotation := mkAnnotation.

Definition add_ann (a : pAnnotation) (an : Annotation) : Annotation :=
  MkAnnotation (annotations an ++ [a]) (continuous an) (finalized an).

Definition annotatePointColor (t : Z) (tag desp details bgcolor : string) (an : Annotation)
  : Annotation :=
  add_ann (MkAnn tag t 0 desp details bgcolor) an.

Definition annotateIntervalColor (t : Z) (tag : string) (start : Z) (desp details bgcolor : string)
    (an : Annotation) : Annotation :=
  add_ann (MkAnn tag start t desp details bgcolor) an.

(** The annotation of a continuous one that ends at [t]. *)
Definition concretize (tag : string) (t : Z) (cont : Continuous) : pAnnotation :=
  MkAnn tag (ct_start cont) t (ct_desp cont) (ct_details cont) (ct_bgcolor cont).

Definition annotateContinuousColor (t : Z) (tag desp details bgcolor : string) (an : Annotation)
  : Annotation :=
  let cont' := MkCont t desp details bgcolor in
  match continuous an !! tag with
  | None => MkAnnotation (annotations an) (<[tag := cont']> (continuous an)) (finalized an)
  | Some cont =>
      MkAnnotation (annotations an ++ [concretize tag t cont]) (<[tag := cont']> (continuous an))
        (finalized an)
  end.

(** A missing key reads as the zero [Continuous]; the [if !ok] has an empty body. *)
Definition annotateContinuousEnd (t : Z) (tag : string) (an : Annotation) : Annotation :=
  let cont := default (MkCont 0 "" "" "") (continuous an !! tag) in
  MkAnnotation (annotations an ++ [concretize tag t cont]) (delete tag (continuous an)) (finalized an).

(** The order in which a map is ranged over is one of many. *)
Definition finalize (t : Z) (an : Annotation) : list pAnnotation * Annotation :=
  (annotations an ++ ((fun '(tag, cont) => concretize tag t cont) <$> map_to_list (continuous an)),
   MkAnnotation (annotations an) (continuous an) true).

(** The annotation that marks the end of the test. *)
Definition end_mark (t : Z) (msg : string) : pAnnotation := MkAnn TAG_INFO t 0 msg msg COLOR_INFO.

Definition FinalizeAnnotations (t t' : Z) (msg : string) (an : Annotation)
  : list pAnnotation * Annotation :=
  let '(l, an) := finalize t an in (l ++ [end_mark t' msg], an).

(** [vis] is the environment's VIS_ENABLE, [opened] whether the file could be opened; the
    result is what is drawn, if anything. *)
Definition cleanup (vis : string) (opened : bool) (t t' : Z) (failed : bool) (msg : string)
    (an : Annotation) : option (list pAnnotation) * Annotation :=
  if decide (vis = "never" \/ (failed = false /\ vis <> "always") \/ finalized an = true) then
    (None, clear an)
  else
    let '(l, an) := finalize t an in
    if decide (length l = 0%nat) then (None, an)
    else ((if opened then Some (l ++ [end_mark t' msg]) else None), an).

(** ** The public functions *)

Definition on_annotation (f : Annotation -> Annotation) (g : globals) : globals :=
  MkGlobals (f (annotation g)) (finfo g).

Definition AnnotatePointColor t tag desp details bgcolor : globals -> globals :=
  on_annotation (annotatePointColor t tag desp details bgcolor).
Definition AnnotateIntervalColor t tag start desp details bgcolor : globals -> globals :=
  on_annotation (annotateIntervalColor t tag start desp details bgcolor).
Definition AnnotateContinuousColor t tag desp details bgcolor : globals -> globals :=
  on_annotation (annotateContinuousColor t tag desp details bgcolor).
Definition AnnotateContinuousEnd t tag : globals -> globals :=
  on_annotation (annotateContinuousEnd t tag).
Definition Annotate t tag desp details := AnnotatePointColor t tag desp details COLOR_USER.
Definition AnnotateInterval t tag start desp details :=
  AnnotateIntervalColor t tag start desp details COLOR_USER.
Definition AnnotateContinuous t tag desp details :=
  AnnotateContinuousColor t tag desp details COLOR_USER.
Definition AnnotateInfo t desp details := AnnotatePointColor t TAG_INFO desp details COLOR_INFO.
Definition AnnotateInfoInterval t start desp details :=
  AnnotateIntervalColor t TAG_INFO start desp details COLOR_INFO.

Definition SetAnnotationFinalized : globals -> globals :=
  on_annotation (fun an => MkAnnotation (annotations an) (continuous an) true).
Definition GetAnnotationFinalized (g : globals) : bool := finalized (annotation g).

(** [make([]bool, n)] panics for a negative [n]. *)
Definition mkFrameworkInfo (n : Z) : res FrameworkInfo :=
  if decide (0 <= n) then
    Ret (MkInfo n (replicate (Z.to_nat n) true) (replicate (Z.to_nat n) false) (MkCk 0 ""))
  else Panic MakeNegativeLen.

Definition AnnotateTest (t : Z) (desp : string) (n : Z) (g : globals) : res globals :=
  let details := desp +:+ " (" +:+ pretty n +:+ " servers)" in
  let! fi := mkFrameworkInfo n in
  Ret (AnnotateInfo t details details (MkGlobals (clear (annotation g)) (Some fi))).

(** A function that locks [finfo.mu] panics when there is no test. *)
Definition with_finfo (f : FrameworkInfo -> Annotation -> res (FrameworkInfo * Annotation))
    (g : globals) : res globals :=
  match finfo g with
  | None => Panic NilDereference
  | Some fi => let! (fi, an) := f fi (annotation g) in Ret (MkGlobals an (Some fi))
  end.

Definition AnnotateCheckerBegin (t : Z) (details : string) : globals -> res globals :=
  with_finfo (fun fi an =>
    Ret (MkInfo (nservers fi) (connected fi) (crashed fi) (MkCk t details), an)).

(** The reset at the end is of a copy of [ckbegin]. *)
Definition AnnotateCheckerEnd (t : Z) (desp details color : string) : globals -> res globals :=
  with_finfo (fun fi an =>
    if decide (ck_ts (ckbegin fi) = 0) then
      Ret (fi, annotatePointColor t TAG_CHECKER desp details color an)
    else
      let d := ck_details (ckbegin fi) +:+ ": " +:+ details in
      Ret (fi, annotateIntervalColor t TAG_CHECKER (ck_ts (ckbegin fi)) desp d color an)).
Definition AnnotateCheckerSuccess t desp details := AnnotateCheckerEnd t desp details COLOR_SUCCESS.
Definition AnnotateCheckerFailure t desp details := AnnotateCheckerEnd t desp details COLOR_FAILURE.
Definition AnnotateCheckerNeutral t desp details := AnnotateCheckerEnd t desp details COLOR_NEUTRAL.

Definition AnnotateCheckerFailureBeforeExit (vis : string) (opened : bool) (t t' t'' : Z)
    (desp details : string) (g : globals) : res (option (list pAnnotation) * globals) :=
  let! g := AnnotateCheckerFailure t desp details g in
  let '(drawn, an) := cleanup vis opened t' t'' true "test failed" (annotation g) in
  Ret (drawn, MkGlobals an (finfo g)).

(** *** Faults *)

(** [%v] of an [int], and of a slice of them. *)
Fixpoint join (sep : string) (l : list string) : string :=
  match l with
  | [] => ""
  | [x] => x
  | x :: l => x +:+ sep +:+ join sep l
  end.
Definition fmt_ints (l : list Z) : string := "[" +:+ join " " (pretty <$> l) +:+ "]".

(** The loop of annotateFault: [text] is the builder. *)
Fixpoint fault_loop (cr : list bool) (id : Z) (conns : list bool) (conn crashes : list Z)
    (text : string) : res (list Z * list Z * string) :=
  match conns with
  | [] => Ret (conn, crashes, text)
  | c :: conns =>
      let! down := idx cr id in
      if (down : bool) then fault_loop cr (id + 1) conns conn (crashes ++ [id]) text
      else if (c : bool) then fault_loop cr (id + 1) conns (conn ++ [id]) crashes text
      else fault_loop cr (id + 1) conns conn crashes (text +:+ "[" +:+ pretty id +:+ "] ")
  end.

Definition annotateFault (t : Z) (fi : FrameworkInfo) (an : Annotation) : res Annotation :=
  let trues := replicate (Z.to_nat (nservers fi)) true in
  let falses := replicate (Z.to_nat (nservers fi)) false in
  if decide (trues = connected fi /\ falses = crashed fi) then
    Ret (annotateContinuousEnd t TAG_PARTITION an)
  else
    let! (conn, crashes, text) := fault_loop (crashed fi) 0 (connected fi) [] [] "partition = " in
    let text := if decide (0 < zlen conn) then text +:+ fmt_ints conn else text in
    let text :=
      if decide (0 < zlen crashes) then text +:+ " / crash = " +:+ fmt_ints crashes else text in
    Ret (annotateContinuousColor t TAG_PARTITION text text COLOR_FAULT an).

(** [copy(dst, src)] *)
Definition go_copy {A} (dst src : list A) : list A :=
  take (length dst) src ++ drop (length src) dst.

Definition AnnotateConnection (t : Z) (connection : list bool) : globals -> res globals :=
  with_finfo (fun fi an =>
    if decide (connected fi = connection) then Ret (fi, an)
    else
      let fi := MkInfo (nservers fi) (go_copy (connected fi) connection) (crashed fi) (ckbegin fi) in
      let! an := annotateFault t fi an in
      Ret (fi, an)).

Definition AnnotateTwoPartitions (t : Z) (p1 p2 : list Z) : globals -> globals :=
  let text := "partition = " +:+ fmt_ints p1 +:+ " " +:+ fmt_ints p2 in
  AnnotateContinuousColor t TAG_PARTITION text text COLOR_FAULT.

Definition AnnotateClearFailure (t : Z) : globals -> res globals :=
  with_finfo (fun fi an =>
    let fi := MkInfo (nservers fi) ((fun _ => true) <$> connected fi) ((fun _ => false) <$> crashed fi)
                (ckbegin fi) in
    Ret (fi, annotateContinuousEnd t TAG_PARTITION an)).

(** The loop of AnnotateShutdown ([b] is [true]) and AnnotateRestart ([false]). *)
Fixpoint mark_loop (b : bool) (servers : list Z) (cr : list bool) (changed : bool)
  : res (list bool * bool) :=
  match servers with
  | [] => Ret (cr, changed)
  | id :: servers =>
      let! down := idx cr id in
      let! cr := set_idx cr id b in
      mark_loop b servers cr (changed || negb (Bool.eqb down b))
  end.

Definition mark_servers (b : bool) (t : Z) (servers : list Z) : globals -> res globals :=
  with_finfo (fun fi an =>
    let! (cr, changed) := mark_loop b servers (crashed fi) false in
    let fi := MkInfo (nservers fi) (connected fi) cr (ckbegin fi) in
    if (changed : bool) then
      let! an := annotateFault t fi an in Ret (fi, an)
    else Ret (fi, an)).
Definition AnnotateShutdown := mark_servers true.
Definition AnnotateRestart := mark_servers false.

Definition mark_all (b : bool) (t : Z) (g : globals) : res globals :=
  match finfo g with
  | None => Panic NilDereference
  | Some fi => mark_servers b t (seqZ 0 (nservers fi)) g
  end.
Definition AnnotateShutdownAll := mark_all true.
Definition AnnotateRestartAll := mark_all false.

(** ** What the fault annotations should say *)

(** The faults: who is connected, and which servers are down. *)
Record faults := MkFaults { up : list bool; down : gset Z }.

Inductive event :=
| EvConnection (connection : list bool)
| EvShutdown (servers : list Z)
| EvRestart (servers : list Z)
| EvShutdownAll
| EvRestartAll
| EvClear
| EvPoint (tag desp details bgcolor : string)
| EvInterval (tag : string) (start : Z) (desp details bgcolor : string)
| EvContinuous (tag desp details bgcolor : string)
| EvContinuousEnd (tag : string)
| EvCheckerBegin (details : string)
| EvCheckerEnd (desp details color : string).

(** An event at time [t]. *)
Definition run_event (t : Z) (e : event) (g : globals) : res globals :=
  match e with
  | EvConnection c => AnnotateConnection t c g
  | EvShutdown l => AnnotateShutdown t l g
  | EvRestart l => AnnotateRestart t l g
  | EvShutdownAll => AnnotateShutdownAll t g
  | EvRestartAll => AnnotateRestartAll t g
  | EvClear => AnnotateClearFailure t g
  | EvPoint tag desp details bgcolor => Ret (AnnotatePointColor t tag desp details bgcolor g)
  | EvInterval tag start desp details bgcolor =>
      Ret (AnnotateIntervalColor t tag start desp details bgcolor g)
  | EvContinuous tag desp details bgcolor => Ret (AnnotateContinuousColor t tag desp details bgcolor g)
  | EvContinuousEnd tag => Ret (AnnotateContinuousEnd t tag g)
  | EvCheckerBegin details => AnnotateCheckerBegin t details g
  | EvCheckerEnd desp details color => AnnotateCheckerEnd t desp details color g
  end.
Fixpoint run_events (l : list (Z * event)) (g : globals) : res globals :=
  match l with
  | [] => Ret g
  | (t, e) :: l => let! g := run_event t e g in run_events l g
  end.

(** Servers of a group of [n], and no continuous annotation of the framework's own tag. *)
Definition valid_event (n : Z) (e : event) : Prop :=
  match e with
  | EvShutdown l | EvRestart l => Forall (fun i => 0 <= i < n) l
  | EvContinuous tag _ _ _ | EvContinuousEnd tag => tag <> TAG_PARTITION
  | _ => True
  end.

Definition fault_step (n : Z) (e : event) (s : faults) : faults :=
  match e with
  | EvConnection c => MkFaults (go_copy (up s) c) (down s)
  | EvShutdown l => MkFaults (up s) (down s ∪ list_to_set l)
  | EvRestart l => MkFaults (up s) (down s ∖ list_to_set l)
  | EvShutdownAll => MkFaults (up s) (down s ∪ list_to_set (seqZ 0 n))
  | EvRestartAll => MkFaults (up s) (down s ∖ list_to_set (seqZ 0 n))
  | EvClear => MkFaults (replicate (Z.to_nat n) true) ∅
  | _ => s
  end.
Definition no_faults (n : Z) : faults := MkFaults (replicate (Z.to_nat n) true) ∅.
Definition faults_after (n : Z) (l : list event) : faults :=
  fold_left (fun s e => fault_step n e s) l (no_faults n).

Definition is_up (s : faults) (i : Z) : bool := default false (up s !! Z.to_nat i).
Definition is_down (s : faults) (i : Z) : bool := bool_decide (i ∈ down s).
Definition quiet (n : Z) (s : faults) : Prop :=
  forall i, 0 <= i < n -> is_up s i = true /\ is_down s i = false.

(** The text: the servers that run but are cut off one by one, then those connected, then
    those down. *)
Definition fault_text (n : Z) (s : faults) : string :=
  let ids := seqZ 0 n in
  let cut := filter (fun i => is_down s i = false /\ is_up s i = false) ids in
  let conn := filter (fun i => is_down s i = false /\ is_up s i = true) ids in
  let crashes := filter (fun i => is_down s i = true) ids in
  "partition = " +:+ foldr (fun i t => "[" +:+ pretty i +:+ "] " +:+ t) "" cut +:+
  (if decide (conn = []) then "" else fmt_ints conn) +:+
  (if decide (crashes = []) then "" else " / crash = " +:+ fmt_ints crashes).

(** What is reported as going on. *)
Definition reports (n : Z) (s : faults) (g : globals) : Prop :=
  (quiet n s -> continuous (annotation g) !! TAG_PARTITION = None) /\
  (~ quiet n s -> exists t, continuous (annotation g) !! TAG_PARTITION =
     Some (MkCont t (fault_text n s) (fault_text n s) COLOR_FAULT)).

(** ** Lemmas *)

Lemma lookup_seqZ_fmap {A} (f : Z -> A) n i :
  0 <= i < n -> (f <$> seqZ 0 n) !! Z.to_nat i = Some (f i).
Proof.
  intros Hi. rewrite list_lookup_fmap. assert (seqZ 0 n !! Z.to_nat i = Some i) as -> by (apply lookup_seqZ; lia). done.
Qed.

Lemma idx_seqZ {A} (f : Z -> A) n i : 0 <= i < n -> idx (f <$> seqZ 0 n) i = Ret (f i).
Proof. intros Hi. apply idx_Ret. split; [lia|]. by apply lookup_seqZ_fmap. Qed.

Lemma seqZ_fmap_ext {A} (f h : Z -> A) n :
  (forall i, 0 <= i < n -> f i = h i) -> f <$> seqZ 0 n = h <$> seqZ 0 n.
Proof. intros H. apply list_fmap_ext. intros k x [-> Hk]%lookup_seqZ. apply H. lia. Qed.

Lemma list_as_seqZ (l : list bool) n : zlen l = n -> l = (fun i => default false (l !! Z.to_nat i)) <$> seqZ 0 n.
Proof.
  intros <-. apply list_eq. intros i. rewrite list_lookup_fmap. unfold zlen.
  destruct (decide (i < length l)%nat) as [Hi|Hi].
  - destruct (lookup_lt_is_Some_2 l i Hi) as [x Hx].
    assert (seqZ 0 (Z.of_nat (length l)) !! i = Some (Z.of_nat i)) as -> by (apply lookup_seqZ; lia).
    cbn. by rewrite Nat2Z.id, Hx.
  - rewrite lookup_ge_None_2 by lia. rewrite lookup_seqZ_ge by lia. done.
Qed.

Lemma insert_seqZ {A} (f : Z -> A) n i b :
  0 <= i < n -> <[Z.to_nat i := b]> (f <$> seqZ 0 n) = (fun j => if decide (j = i) then b else f j) <$> seqZ 0 n.
Proof.
  intros Hi. apply list_eq. intros k. rewrite !list_lookup_fmap.
  destruct (decide (k = Z.to_nat i)) as [->|Hk].
  - rewrite list_lookup_insert_eq by (rewrite length_fmap, length_seqZ; lia).
    assert (seqZ 0 n !! Z.to_nat i = Some i) as -> by (apply lookup_seqZ; lia).
    cbn. by rewrite decide_True.
  - rewrite list_lookup_insert_ne, list_lookup_fmap by done. destruct (seqZ 0 n !! k) as [j|] eqn:Hj; [|done].
    apply lookup_seqZ in Hj as [-> ?]. cbn. rewrite decide_False by lia. done.
Qed.

Lemma fmap_seqZ_const (f : Z -> bool) n b :
  replicate (Z.to_nat n) b = f <$> seqZ 0 n <-> forall i, 0 <= i < n -> f i = b.
Proof.
  split.
  - intros H i Hi. pose proof (lookup_seqZ_fmap f n i Hi) as Hl. rewrite <- H in Hl.
    apply lookup_replicate in Hl as [-> _]. done.
  - intros H. rewrite (seqZ_fmap_ext f (fun _ => b) n) by done.
    rewrite (const_fmap (fun _ : Z => b) _ b) by done. by rewrite length_seqZ.
Qed.

Lemma fault_loop_spec (d c : Z -> bool) n m id conn crashes text :
  0 <= id -> id + Z.of_nat m <= n ->
  let ids := seqZ id (Z.of_nat m) in
  fault_loop (d <$> seqZ 0 n) id (c <$> ids) conn crashes text =
  Ret (conn ++ filter (fun i => d i = false /\ c i = true) ids,
       crashes ++ filter (fun i => d i = true) ids,
       text +:+ foldr (fun i t => "[" +:+ pretty i +:+ "] " +:+ t) ""
         (filter (fun i => d i = false /\ c i = false) ids)).
Proof.
  revert id conn crashes text. induction m as [|m IH]; intros id conn crashes text Hid Hm ids.
  - cbn. by rewrite !app_nil_r, app_nil_string.
  - unfold ids. rewrite (seqZ_cons id) by lia. replace (Z.pred (Z.of_nat (S m))) with (Z.of_nat m) by lia.
    rewrite fmap_cons. cbn [fault_loop]. rewrite idx_seqZ by lia. cbn [res_bind].
    change (Z.succ id) with (id + 1). rewrite !filter_cons.
    destruct (d id) eqn:Hd; [|destruct (c id) eqn:Hc]; rewrite IH by lia; repeat case_decide; try (exfalso; intuition congruence);
      cbn [foldr]; rewrite ?app_assoc_string; try done; by rewrite <- !app_assoc.
Qed.

(** The framework's record agrees with the faults. *)
Record tracks (n : Z) (s : faults) (fi : FrameworkInfo) : Prop := {
  tr_n : nservers fi = n;
  tr_up : connected fi = is_up s <$> seqZ 0 n;
  tr_len : zlen (up s) = n;
  tr_eq : up s = connected fi;
  tr_down : crashed fi = is_down s <$> seqZ 0 n;
}.

Lemma tracks_intro n s fi :
  nservers fi = n -> up s = connected fi -> zlen (up s) = n ->
  crashed fi = is_down s <$> seqZ 0 n -> tracks n s fi.
Proof. intros Hn Hu Hl Hd. split; try done. rewrite <- Hu. by apply list_as_seqZ. Qed.

Lemma annotateFault_spec t n s fi an :
  tracks n s fi ->
  exists an', annotateFault t fi an = Ret an' /\
    (quiet n s -> continuous an' !! TAG_PARTITION = None) /\
    (~ quiet n s -> continuous an' !! TAG_PARTITION =
       Some (MkCont t (fault_text n s) (fault_text n s) COLOR_FAULT)).
Proof.
  intros [Hn Hu Hl _ Hd]. unfold annotateFault. rewrite Hn, Hu, Hd.
  assert (0 <= n) as H0 by (rewrite <- Hl; apply zlen_nonneg).
  assert ((replicate (Z.to_nat n) true = is_up s <$> seqZ 0 n /\
    replicate (Z.to_nat n) false = is_down s <$> seqZ 0 n) <-> quiet n s) as Hq.
  { rewrite !fmap_seqZ_const. unfold quiet. firstorder. }
  case_decide as Hc.
  - eexists. split; [done|]. split; [intros _; apply lookup_delete_eq|]. intros Hno. by apply Hq in Hc.
  - pose proof (fault_loop_spec (is_down s) (is_up s) n (Z.to_nat n) 0 [] [] "partition = " ltac:(lia) ltac:(lia)) as H.
    rewrite Z2Nat.id in H by done. cbv zeta in H. rewrite H. cbn [res_bind app]. clear H.
    eexists. split; [done|]. split; [by intros Hx%Hq|]. intros _.
    unfold fault_text. set (conn := filter _ (seqZ 0 n)). set (crashes := filter _ (seqZ 0 n)).
    set (pre := foldr _ _ _).
    assert (forall (l : list Z) (a b : string), (if decide (0 < zlen l) then a +:+ b else a) =
      a +:+ (if decide (l = []) then "" else b)) as Hif.
    { intros l a b. destruct l as [|x l]; cbn [decide].
      - by rewrite decide_False, decide_True, app_nil_string by (done || cbn; lia).
      - rewrite decide_True, decide_False; [done..|]. rewrite zlen_cons. pose proof (zlen_nonneg l). lia. }
    rewrite !Hif, !app_assoc_string. unfold annotateContinuousColor.
    destruct (continuous an !! TAG_PARTITION); cbn [continuous]; by rewrite lookup_insert_eq.
Qed.

Lemma mark_loop_spec b n servers (d : Z -> bool) ch :
  Forall (fun i => 0 <= i < n) servers ->
  exists ch', mark_loop b servers (d <$> seqZ 0 n) ch =
    Ret ((fun i => if decide (i ∈ servers) then b else d i) <$> seqZ 0 n, ch') /\
    (ch' = false -> ch = false /\ forall i, i ∈ servers -> d i = b).
Proof.
  revert d ch. induction servers as [|x l IH]; intros d ch Hall; cbn [mark_loop].
  - exists ch. split; [done|]. intros ->. split; [done|]. intros i Hi. by apply elem_of_nil in Hi.
  - apply Forall_cons in Hall as [Hx Hall]. rewrite idx_seqZ by done. cbn [res_bind].
    rewrite (proj2 (set_idx_Ret _ _ _ _)) by (split; [unfold zlen; rewrite length_fmap, length_seqZ; lia|done]).
    cbn [res_bind]. rewrite insert_seqZ by done.
    destruct (IH (fun j => if decide (j = x) then b else d j) (ch || negb (Bool.eqb (d x) b)) Hall) as (ch' & -> & Hch).
    exists ch'. split.
    + do 2 f_equal. apply seqZ_fmap_ext. intros i _.
      destruct (decide (i ∈ l)) as [Hi|Hi]; [by rewrite decide_True by (by right)|].
      destruct (decide (i = x)) as [->|Hne]; [by rewrite decide_True by left|].
      rewrite decide_False; [done|]. by intros [?|?]%elem_of_cons.
    + intros Hf. destruct (Hch Hf) as [[-> Hxb%negb_false_iff%Bool.eqb_prop]%orb_false_iff Hrest].
      split; [done|]. intros i [->|Hi]%elem_of_cons; [done|]. specialize (Hrest i Hi).
      by case_decide; subst.
Qed.

Definition track_inv (n : Z) (s : faults) (g : globals) : Prop :=
  exists fi, finfo g = Some fi /\ tracks n s fi /\ reports n s g.

Lemma fault_changed t n s fi g :
  tracks n s fi -> exists an', annotateFault t fi (annotation g) = Ret an' /\
    track_inv n s (MkGlobals an' (Some fi)).
Proof.
  intros Htr. destruct (annotateFault_spec t n s fi (annotation g) Htr) as (an' & H & Hq & Hnq).
  exists an'. split; [done|]. exists fi. split_and!; [done|done|]. split; [done|]. intros Hn. eexists. by apply Hnq.
Qed.

Lemma zlen_go_copy {A} (dst src : list A) : zlen (go_copy dst src) = zlen dst.
Proof. unfold zlen, go_copy. rewrite length_app, length_take, length_drop. lia. Qed.

Lemma go_copy_self {A} (l : list A) : go_copy l l = l.
Proof. unfold go_copy. by rewrite take_ge, drop_ge, app_nil_r by lia. Qed.

Lemma connection_step t n s c g :
  track_inv n s g -> exists g', AnnotateConnection t c g = Ret g' /\
    track_inv n (MkFaults (go_copy (up s) c) (down s)) g'.
Proof.
  intros (fi & Hfi & Htr & Hrep). pose proof Htr as [Hn _ Hl Hu Hd].
  unfold AnnotateConnection, with_finfo. rewrite Hfi. case_decide as Hc; cbn [res_bind].
  - eexists. split; [done|]. subst c. rewrite <- Hu, go_copy_self. exists fi.
    destruct s. by split_and!.
  - edestruct (fault_changed t n (MkFaults (go_copy (up s) c) (down s))
      (MkInfo (nservers fi) (go_copy (connected fi) c) (crashed fi) (ckbegin fi)) g) as (an' & -> & Hinv).
    { apply tracks_intro; cbn [nservers connected crashed up]; [done|by rewrite Hu|by rewrite zlen_go_copy|done]. }
    cbn [res_bind]. by eexists.
Qed.

Lemma mark_step b t n s s' l g :
  track_inv n s g -> Forall (fun i => 0 <= i < n) l -> up s' = up s ->
  (forall i, is_down s' i = if decide (i ∈ l) then b else is_down s i) ->
  ((forall i, i ∈ l -> is_down s i = b) -> s' = s) ->
  exists g', mark_servers b t l g = Ret g' /\ track_inv n s' g'.
Proof.
  intros (fi & Hfi & Htr & Hrep) Hall Hup Hdn Hsame. pose proof Htr as [Hn _ Hl Hu Hd].
  unfold mark_servers, with_finfo. rewrite Hfi, Hd.
  destruct (mark_loop_spec b n l (is_down s) false Hall) as (ch & -> & Hch). cbn [res_bind].
  rewrite <- (seqZ_fmap_ext (is_down s')) by (intros; by rewrite Hdn).
  destruct ch.
  - edestruct (fault_changed t n s' (MkInfo (nservers fi) (connected fi) (is_down s' <$> seqZ 0 n) (ckbegin fi)) g)
      as (an' & -> & Hinv).
    { apply tracks_intro; cbn [nservers connected crashed]; congruence. }
    cbn [res_bind]. by eexists.
  - rewrite Hsame by (by apply Hch). cbn [res_bind]. eexists. split; [done|].
    eexists. split; [done|]. split; [|done]. apply tracks_intro; cbn [nservers connected crashed]; congruence.
Qed.

Lemma shutdown_step t n s l g :
  track_inv n s g -> Forall (fun i => 0 <= i < n) l ->
  exists g', AnnotateShutdown t l g = Ret g' /\ track_inv n (MkFaults (up s) (down s ∪ list_to_set l)) g'.
Proof.
  intros Hinv Hall. apply (mark_step true t n s); [done|done|done| |].
  - intros i. unfold is_down. cbn [down]. case_decide as Hi; [apply bool_decide_eq_true|apply bool_decide_ext]; set_solver.
  - intros H. destruct s as [u d]. cbn [up down] in *. f_equal.
    assert (forall i, i ∈ l -> i ∈ d) by (intros i Hi; by apply (bool_decide_eq_true (i ∈ d)), H). set_solver.
Qed.

Lemma restart_step t n s l g :
  track_inv n s g -> Forall (fun i => 0 <= i < n) l ->
  exists g', AnnotateRestart t l g = Ret g' /\ track_inv n (MkFaults (up s) (down s ∖ list_to_set l)) g'.
Proof.
  intros Hinv Hall. apply (mark_step false t n s); [done|done|done| |].
  - intros i. unfold is_down. cbn [down]. case_decide as Hi; [apply bool_decide_eq_false|apply bool_decide_ext]; set_solver.
  - intros H. destruct s as [u d]. cbn [up down] in *. f_equal.
    assert (forall i, i ∈ l -> ~ i ∈ d) by (intros i Hi; by apply (bool_decide_eq_false (i ∈ d)), H). set_solver.
Qed.

Lemma all_in_range n : Forall (fun i => 0 <= i < n) (seqZ 0 n).
Proof. apply Forall_forall. intros i. rewrite elem_of_seqZ. lia. Qed.

Lemma quiet_no_faults n : quiet n (no_faults n).
Proof.
  intros i Hi. unfold is_up, is_down. cbn. rewrite lookup_replicate_2 by lia. cbn. done.
Qed.

Lemma clear_step t n s g :
  track_inv n s g -> exists g', AnnotateClearFailure t g = Ret g' /\ track_inv n (no_faults n) g'.
Proof.
  intros (fi & Hfi & [Hn Hup Hl Hu Hd] & Hrep). unfold AnnotateClearFailure, with_finfo. rewrite Hfi.
  cbn [res_bind]. eexists. split; [done|]. eexists. split; [done|].
  assert (0 <= n) by (rewrite <- Hl; apply zlen_nonneg). split.
  - apply tracks_intro; cbn [nservers connected crashed].
    + done.
    + rewrite Hup, <- list_fmap_compose, (const_fmap _ _ true) by done. by rewrite length_seqZ.
    + cbn. unfold zlen. rewrite length_replicate. lia.
    + rewrite Hd, <- list_fmap_compose. by apply list_fmap_ext.
  - split; [intros _; apply lookup_delete_eq|]. intros Hno. by destruct (Hno (quiet_no_faults n)).
Qed.

(** An operation that leaves the record of the faults and the framework's tag alone. *)
Lemma other_step n s g an' ck :
  track_inv n s g -> continuous an' !! TAG_PARTITION = continuous (annotation g) !! TAG_PARTITION ->
  track_inv n s (MkGlobals an' ((fun fi => MkInfo (nservers fi) (connected fi) (crashed fi) (ck fi)) <$> finfo g)).
Proof.
  intros (fi & Hfi & [Hn Hup Hl Hu Hd] & Hq & Hnq) He. rewrite Hfi. eexists. split; [done|]. split.
  - by split.
  - unfold reports. cbn [annotation]. by rewrite He.
Qed.

Lemma other_step_same n s g an' :
  track_inv n s g -> continuous an' !! TAG_PARTITION = continuous (annotation g) !! TAG_PARTITION ->
  track_inv n s (MkGlobals an' (finfo g)).
Proof.
  intros H He. pose proof (other_step n s g an' ckbegin H He) as H'.
  destruct H as (fi & Hfi & _). rewrite Hfi in H' |- *. cbn in H'. by destruct fi.
Qed.

Lemma event_step t n s e g :
  track_inv n s g -> valid_event n e ->
  exists g', run_event t e g = Ret g' /\ track_inv n (fault_step n e s) g'.
Proof.
  intros Hinv Hv. pose proof Hinv as (fi & Hfi & Htr & _). pose proof (tr_n _ _ _ Htr) as Hn.
  destruct e; cbn [run_event fault_step valid_event] in *.
  - by apply connection_step.
  - by apply shutdown_step.
  - by apply restart_step.
  - unfold AnnotateShutdownAll, mark_all. rewrite Hfi, Hn. apply shutdown_step; [done|apply all_in_range].
  - unfold AnnotateRestartAll, mark_all. rewrite Hfi, Hn. apply restart_step; [done|apply all_in_range].
  - by eapply clear_step.
  - eexists. split; [done|]. by apply other_step_same.
  - eexists. split; [done|]. by apply other_step_same.
  - eexists. split; [done|]. apply other_step_same; [done|]. unfold annotateContinuousColor.
    destruct (continuous _ !! tag); cbn [continuous]; by rewrite lookup_insert_ne.
  - eexists. split; [done|]. apply other_step_same; [done|]. cbn [continuous annotateContinuousEnd].
    by rewrite lookup_delete_ne.
  - unfold AnnotateCheckerBegin, with_finfo. rewrite Hfi. eexists. split; [done|].
    pose proof (other_step n s g (annotation g) (fun _ => MkCk t details) Hinv eq_refl) as H.
    by rewrite Hfi in H.
  - unfold AnnotateCheckerEnd, with_finfo. rewrite Hfi. case_decide; cbn [res_bind]; rewrite <- Hfi;
      (eexists; split; [done|]; by apply other_step_same).
Qed.

Lemma events_track l n s g :
  track_inv n s g -> Forall (fun te => valid_event n te.2) l ->
  exists g', run_events l g = Ret g' /\ track_inv n (fold_left (fun s e => fault_step n e s) l.*2 s) g'.
Proof.
  revert s g. induction l as [|[t e] l IH]; intros s g Hinv Hall; [by exists g|].
  apply Forall_cons in Hall as [Hv Hall]. destruct (event_step t n s e g Hinv Hv) as (g1 & H1 & Hinv1).
  cbn [run_events]. rewrite H1. cbn [res_bind fmap list_fmap fold_left]. by apply IH.
Qed.

Lemma AnnotateTest_track t desp n g :
  0 <= n -> exists g', AnnotateTest t desp n g = Ret g' /\ track_inv n (no_faults n) g'.
Proof.
  intros Hn. unfold AnnotateTest, mkFrameworkInfo. rewrite decide_True by done. cbn [res_bind].
  eexists. split; [done|]. eexists. split; [done|]. split.
  - apply tracks_intro; cbn [nservers connected crashed]; try done.
    + cbn. unfold zlen. rewrite length_replicate. lia.
    + apply fmap_seqZ_const. intros i _. done.
  - split; [done|]. intros H. by destruct (H (quiet_no_faults n)).
Qed.

(** ** Continuous annotations *)

(** One continuous annotation after the other: each ends when the next begins. *)
Fixpoint tiles (tag : string) (c : Continuous) (l : list Continuous) (t : Z) : list pAnnotation :=
  match l with
  | [] => [concretize tag t c]
  | c' :: l => concretize tag (ct_start c') c :: tiles tag c' l t
  end.

Lemma continuous_tiles tag c l t an :
  continuous an !! tag = Some c ->
  let an' := fold_left (fun an c' =>
    annotateContinuousColor (ct_start c') tag (ct_desp c') (ct_details c') (ct_bgcolor c') an) l an in
  annotations (annotateContinuousEnd t tag an') = annotations an ++ tiles tag c l t /\
  continuous (annotateContinuousEnd t tag an') !! tag = None.
Proof.
  revert c an. induction l as [|c' l IH]; intros c an Hc; cbn [fold_left tiles].
  - unfold annotateContinuousEnd. rewrite Hc. split; [done|apply lookup_delete_eq].
  - destruct c' as [st de dt bg]. cbn [ct_start ct_desp ct_details ct_bgcolor].
    unfold annotateContinuousColor at 2 4. rewrite Hc.
    destruct (IH (MkCont st de dt bg) (MkAnnotation (annotations an ++ [concretize tag st c])
      (<[tag := MkCont st de dt bg]> (continuous an)) (finalized an))) as [E1 E2]; [apply lookup_insert_eq|].
    split; [|done]. rewrite E1. cbn [annotations]. by rewrite <- app_assoc.
Qed.

(** Ending a continuous annotation that is not going on adds one that starts at time 0 and
    says nothing. *)
Lemma continuous_end_of_none t tag an :
  continuous an !! tag = None ->
  annotations (annotateContinuousEnd t tag an) = annotations an ++ [MkAnn tag 0 t "" "" ""].
Proof. intros H. unfold annotateContinuousEnd. by rewrite H. Qed.

(** A checker that ends without a beginning of its own is drawn from the last one. *)
Lemma checker_begin_not_reset :
  exists g g', AnnotateTest 1 "T" 3 (MkGlobals mkAnnotation None) = Ret g /\
    (let! g := AnnotateCheckerBegin 5 "first" g in
     let! g := AnnotateCheckerSuccess 6 "ok" "" g in
     AnnotateCheckerSuccess 9 "second ok" "" g) = Ret g' /\
    Start <$> annotations (annotation g') = [1; 5; 5].
Proof. eexists _, _. split; [reflexivity|]. split; [reflexivity|]. reflexivity. Qed.

(** ** Properties *)

(** The fault shown is the current one.  From the start of a test of [n] servers,
    after any sequence of connection changes, shutdowns, restarts and recoveries, mixed
    with checkers' and users' annotations of other tags, nothing panicked, and the
    framework's continuous annotation is the faults of that sequence: there is none when
    every server runs and is connected, and otherwise its text lists the servers cut off,
    the connected ones and those down. *)
Lemma fault_annotation_current t desp n (l : list (Z * event)) g0 :
  0 <= n -> Forall (fun te => valid_event n te.2) l ->
  exists g g', AnnotateTest t desp n g0 = Ret g /\ run_events l g = Ret g' /\
    reports n (faults_after n l.*2) g'.
Proof.
  intros Hn Hl. destruct (AnnotateTest_track t desp n g0 Hn) as (g & Hg & Hinv).
  destruct (events_track l n (no_faults n) g Hinv Hl) as (g' & Hg' & fi & _ & _ & Hrep).
  by exists g, g'.
Qed.

Lemma fault_annotation_current_ex :
  exists g g', AnnotateTest 1 "T" 4 (MkGlobals mkAnnotation None) = Ret g /\
    run_events [(2, EvConnection [true; false; true; true]); (3, EvShutdown [3])] g = Ret g' /\
    continuous (annotation g') !! TAG_PARTITION =
      Some (MkCont 3 "partition = [1] [0 2] / crash = [3]" "partition = [1] [0 2] / crash = [3]" COLOR_FAULT).
Proof.
  set (l := [(2, EvConnection [true; false; true; true]); (3, EvShutdown [3])]).
  destruct (fault_annotation_current 1 "T" 4 l (MkGlobals mkAnnotation None)) as (g & g' & Hg & Hg' & _ & Hrep).
  { lia. }
  { repeat constructor; cbn; lia. }
  exists g, g'. split; [done|]. split; [done|]. destruct Hrep as [t Ht].
  - intros Hq. by destruct (Hq 1 ltac:(lia)).
  - vm_compute in Hg. injection Hg as <-. vm_compute in Hg'. injection Hg' as <-. reflexivity.
Defined.
End Annot.
