(* ===== verification/KvLin.v ===== *)
(** * KvLin: linearizability of the store (src/src/kvtest1/porcupine.go)

    The operation log of a test: clients call [ts.Get] and [ts.Put], which read the clock,
    run the clerk's retry loop, read the clock again, count the operation and append it to
    the log.  They interleave at the level of single RPC attempts, whose fate is arbitrary;
    the store is any [KVService].  [CheckPorcupine] hands the log to the checker, which is a
    parameter. *)
From S2P Require Import Prelude LabRpc KvSrv KvModel Tester Annot.
Local Open Scope Z_scope.
Local Open Scope go_scope.

Module KvLin.
Import Rpc KvModel.

(** ** The log *)

Definition OpLog : Type := list Operation.
Definition Len (log : OpLog) : Z := zlen log.
Definition Append (op : Operation) (log : OpLog) : OpLog := log ++ [op].
(** A copy: operations are values. *)
Definition Read (log : OpLog) : list Operation := log.

(** ** The clients of a test *)

(** A call of [ts.Get] or [ts.Put]: the client's number, the clock when it began, what it
    asks for. *)
Record call := MkCall { c_cli : Z; c_start : Z; c_req : request }.

(** Where a client is: outside a call; in the clerk ([retry] is the variable of its Put); back
    from it; with the second clock reading; with the operation counted. *)
Inductive pc :=
| Idle
| InClerk (c : call) (retry : bool)
| Back (c : call) (out : KvOutput)
| Stamped (c : call) (out : KvOutput) (stop : Z)
| Counted (c : call) (out : KvOutput) (stop : Z).

Definition req_input (q : request) : KvInput :=
  match q with RGet key => get_input key | RPut a => put_input a end.
Definition op_of (c : call) (out : KvOutput) (stop : Z) : Operation :=
  MkOperation (req_input (c_req c)) out (c_start c) stop (c_cli c).

Section system.
Context {S : Type} `{!KVService S}.

(** One RPC attempt of a client that is in the clerk. *)
Definition attempt (dl : LabRpc.delivery) (c : call) (retry : bool) (s : S) : S * pc :=
  match c_req c with
  | RGet key =>
      match LabRpc.deliver dl (svc_Get (MkGetArgs key)) s with
      | (s, None) => (s, InClerk c retry)
      | (s, Some r) => (s, Back c (get_output r))
      end
  | RPut a =>
      match LabRpc.deliver dl (svc_Put a) s with
      | (s, None) => (s, InClerk c true)
      | (s, Some r) => (s, Back c (put_output (Clerk.reply_err retry r)))
      end
  end.

(** [ts.oplog] may be nil, and then nothing is logged. *)
Definition log_op (c : call) (out : KvOutput) (stop : Z) (log : option OpLog) : option OpLog :=
  Append (op_of c out stop) <$> log.

Record state := MkState {
  server : S;
  now : Z;
  cfg : Tester.Config S;
  oplog : option OpLog;
  clients : gmap nat pc;
}.

(** The version of a request is a uint64. *)
Definition valid_request (q : request) : Prop :=
  match q with RGet _ => True | RPut a => is_u64 (pa_Version a) end.

(** [clock t t']: the clock may go from [t] to [t']. *)
Context (clock : Z -> Z -> Prop).

Inductive step : state -> state -> Prop :=
| step_begin s t g log cs i cli q :
    cs !! i = Some Idle -> valid_request q ->
    step (MkState s t g log cs) (MkState s t g log (<[i := InClerk (MkCall cli t q) false]> cs))
| step_attempt s t g log cs i c retry dl s' p :
    cs !! i = Some (InClerk c retry) -> attempt dl c retry s = (s', p) ->
    step (MkState s t g log cs) (MkState s' t g log (<[i := p]> cs))
| step_stamp s t g log cs i c out :
    cs !! i = Some (Back c out) ->
    step (MkState s t g log cs) (MkState s t g log (<[i := Stamped c out t]> cs))
| step_count s t g log cs i c out stop :
    cs !! i = Some (Stamped c out stop) ->
    step (MkState s t g log cs) (MkState s t (Tester.Op g) log (<[i := Counted c out stop]> cs))
| step_log s t g log cs i c out stop :
    cs !! i = Some (Counted c out stop) ->
    step (MkState s t g log cs) (MkState s t g (log_op c out stop log) (<[i := Idle]> cs))
| step_clock s t t' g log cs :
    clock t t' -> step (MkState s t g log cs) (MkState s t' g log cs).

(** A test begins with an empty store, an empty log and no client in a call. *)
Definition initial (st : state) : Prop :=
  (forall k, svc_lookup (server st) k = None) /\ oplog st = Some [] /\
  (forall i p, clients st !! i = Some p -> p = Idle).

Definition quiescent (st : state) : Prop := forall i p, clients st !! i = Some p -> p = Idle.

End system.
Arguments state : clear implicits.

(** ** Linearizability

    The order of a history's operations in time: one that returned before another was called
    comes first. *)
Definition may_precede (a b : Operation) : Prop := op_Call a <= op_Return b.

(** The history of one key: its operations can be put in an order that is that of time and
    legal for the model. *)
Definition linearizable (h : list Operation) : Prop :=
  exists h', h' ≡ₚ h /\ StronglySorted may_precede h' /\ legal Init h' = true.

(** ** checkPorcupine

    The checker and its picture are third-party code: [res] is the checker's result. *)
Inductive CheckResult := Unknown | Ok | Illegal.
#[export] Instance CheckResult_eq_dec : EqDecision CheckResult.
Proof. solve_decision. Defined.

(** What the check prints or draws. *)
Inductive output :=
| InfoOpenFailed (path : string)
| InfoTimedOut
| Visualized (ok : bool) (anns : list Annot.pAnnotation).

(** [opened]: whether the file could be made; [drawn]: whether Visualize returned no error;
    [t] and [t'] are clock readings. *)
Record checkEnv := MkEnv {
  enabled : string;
  fpath : string;
  opened : bool;
  drawn : bool;
  ck_t : Z;
  ck_t' : Z;
}.

Definition visualize (e : checkEnv) (msg : string) (g : Annot.globals) : output * Annot.globals :=
  let '(anns, an) := Annot.FinalizeAnnotations (ck_t e) (ck_t' e) msg (Annot.annotation g) in
  (Visualized (drawn e) anns, Annot.on_annotation (fun _ => an) g).

Definition checkPorcupine (e : checkEnv) (r : CheckResult) (g : Annot.globals)
  : list output * Annot.globals * res unit :=
  match r with
  | Illegal =>
      if negb (opened e) then ([InfoOpenFailed (fpath e)], g, Panic Fatal)
      else if decide (enabled e <> "never") then
        let '(o, g) := visualize e "test failed" g in ([o], g, Panic Fatal)
      else ([], g, Panic Fatal)
  | _ =>
      let pre := if decide (r = Unknown) then [InfoTimedOut] else [] in
      if bool_decide (enabled e = "always") && Annot.GetAnnotationFinalized g then
        if negb (opened e) then (pre ++ [InfoOpenFailed (fpath e)], g, Ret tt)
        else let '(o, g) := visualize e "test passed" g in (pre ++ [o], g, Ret tt)
      else (pre, g, Ret tt)
  end.

Definition linearizabilityCheckTimeout : Z := 1000000000.

Section check.
Context (CheckOperationsVerbose : list Operation -> Z -> CheckResult).

Definition CheckPorcupineT (e : checkEnv) (nsec : Z) (log : OpLog) (g : Annot.globals)
  : list output * Annot.globals * res unit :=
  checkPorcupine e (CheckOperationsVerbose (Read log) nsec) g.
Definition CheckPorcupine (e : checkEnv) (log : OpLog) (g : Annot.globals)
  : list output * Annot.globals * res unit :=
  CheckPorcupineT e linearizabilityCheckTimeout log g.

(** The checker reports [Illegal] only for a history one of whose parts is not linearizable;
    it may give up after [nsec]. *)
Definition sound_checker : Prop :=
  forall h nsec, CheckOperationsVerbose h nsec = Illegal ->
    exists part, part ∈ Partition h /\ ~ linearizable part.
End check.

(** ** The model and any implementation of the service *)

Section service.
Context {S : Type} `{!KVService S} `{!KVServiceLaws S}.
Implicit Types (s : S) (k : string) (a : PutArgs).

(** The model's state of one key. *)
Definition key_state s k : mstate :=
  match svc_lookup s k with Some (v, ver) => St (MkKvState v ver) | None => Init end.

Definition accepted (err : Err) : Prop := err = OK \/ err = ErrMaybe.

Lemma Get_Step s k :
  svc_Get (MkGetArgs k) s = (s, (svc_Get (MkGetArgs k) s).2) /\
  Step (key_state s k) (get_input k) (get_output (svc_Get (MkGetArgs k) s).2)
    = Ret (true, key_state s k).
Proof.
  unfold key_state. destruct (svc_lookup s k) as [[v ver]|] eqn:E.
  - rewrite (law_Get_found (MkGetArgs k) s v ver E). simpl. by rewrite bool_decide_eq_true_2.
  - by rewrite (law_Get_none (MkGetArgs k) s E).
Qed.

Lemma Put_ok_Step s a err :
  version s (pa_Key a) = pa_Version a -> accepted err ->
  Step (key_state s (pa_Key a)) (put_input a) (put_output err)
    = Ret (true, key_state (svc_Put a s).1 (pa_Key a)).
Proof.
  intros Hv Herr. destruct (law_Put_ok a s Hv) as [_ Hl]. unfold key_state. rewrite Hl, decide_True by done.
  assert (exists v, match svc_lookup s (pa_Key a) with
    | Some (v, ver) => St (MkKvState v ver) | None => Init end = St (MkKvState v (pa_Version a))) as [v ->].
  { unfold version in Hv. destruct (svc_lookup s (pa_Key a)) as [[v ver]|]; simpl in *; subst; [by eexists|].
    unfold Init. rewrite <- Hv. by eexists. }
  simpl. rewrite decide_True by done. by destruct Herr as [->| ->].
Qed.

Lemma Put_fail_Step s a err :
  version s (pa_Key a) <> pa_Version a ->
  svc_Put a s = (s, (svc_Put a s).2) /\
  Step (key_state s (pa_Key a)) (put_input a) (put_output err)
    = Ret (bool_decide (err = ErrVersion) || bool_decide (err = ErrMaybe), key_state s (pa_Key a)).
Proof.
  intros Hv. split; [by rewrite (law_Put_fail a s Hv)|].
  unfold key_state, version in *. destruct (svc_lookup s (pa_Key a)) as [[v ver]|]; simpl in *;
    by rewrite decide_False.
Qed.

Lemma Put_other_key s a k : k <> pa_Key a -> key_state (svc_Put a s).1 k = key_state s k.
Proof.
  intros Hk. unfold key_state. destruct (decide (version s (pa_Key a) = pa_Version a)) as [Hv|Hv].
  - destruct (law_Put_ok a s Hv) as [_ Hl]. by rewrite Hl, decide_False.
  - by rewrite (law_Put_fail a s Hv).
Qed.

(** Past a Put's version the key is out of its reach. *)
Lemma Put_passed s a :
  is_Some (svc_lookup s (pa_Key a)) -> version s (pa_Key a) <> pa_Version a ->
  svc_Put a s = (s, MkPutReply ErrVersion).
Proof. intros [x Hx] Hv. rewrite (law_Put_fail a s Hv). by rewrite Hx. Qed.

(** A Put fails with [ErrVersion] or [ErrNoKey]. *)
Lemma Put_fail_reply s a :
  version s (pa_Key a) <> pa_Version a ->
  (svc_Put a s).2 = MkPutReply ErrVersion \/ (svc_Put a s).2 = MkPutReply ErrNoKey.
Proof. intros Hv. rewrite (law_Put_fail a s Hv). simpl. case_match; auto. Qed.

(** *** The clerk's loops are its attempts *)

(** A client alone in its call, attempt after attempt. *)
Fixpoint drive (sched : list (@Clerk.attempt S)) (p : pc) (s : S) : S * pc :=
  match sched, p with
  | (env, dl) :: sched, InClerk c retry => let '(s, p) := attempt dl c retry (env s) in drive sched p s
  | _, _ => (s, p)
  end.

Lemma drive_back sched c out s : drive sched (Back c out) s = (s, Back c out).
Proof. by destruct sched as [|[env dl] sched]. Qed.

Lemma drive_Put sched retry c a s :
  c_req c = RPut a ->
  (drive sched (InClerk c retry) s).1 = (Clerk.Put_loop sched retry (pa_Key a) (pa_Value a) (pa_Version a) s).1 /\
  match (Clerk.Put_loop sched retry (pa_Key a) (pa_Value a) (pa_Version a) s).2 with
  | Some err => (drive sched (InClerk c retry) s).2 = Back c (put_output err)
  | None => exists retry', (drive sched (InClerk c retry) s).2 = InClerk c retry'
  end.
Proof.
  intros Hc. revert retry s. induction sched as [|[env dl] sched IH]; intros retry s; [by split; [|eexists]|].
  cbn [drive Clerk.Put_loop]. unfold attempt. rewrite Hc.
  replace (MkPutArgs (pa_Key a) (pa_Value a) (pa_Version a)) with a by by destruct a.
  destruct (LabRpc.deliver dl (svc_Put a) (env s)) as [s' [r|]]; [|apply IH]. by rewrite drive_back.
Qed.

Lemma drive_Get sched retry c key s :
  c_req c = RGet key ->
  (drive sched (InClerk c retry) s).1 = (Clerk.Get sched key s).1 /\
  match (Clerk.Get sched key s).2 with
  | Some r => (drive sched (InClerk c retry) s).2 = Back c (get_output r)
  | None => exists retry', (drive sched (InClerk c retry) s).2 = InClerk c retry'
  end.
Proof.
  intros Hc. revert s. induction sched as [|[env dl] sched IH]; intros s; [by split; [|eexists]|].
  cbn [drive Clerk.Get]. unfold attempt. rewrite Hc.
  destruct (LabRpc.deliver dl (svc_Get (MkGetArgs key)) (env s)) as [s' [r|]]; [|apply IH]. by rewrite drive_back.
Qed.
End service.

(** *** Runs of the model *)

(** A Put answered [ErrNoKey], which the model does not accept. *)
Definition nokey (op : Operation) : Prop :=
  out_Err (op_Output op) = ErrNoKey /\ in_Op (op_Input op) <> 0.

#[export] Instance nokey_dec op : Decision (nokey op).
Proof. unfold nokey. apply _. Defined.

(** The model's state after a history, if it accepts all but the Puts answered [ErrNoKey]. *)
Fixpoint replay (st : mstate) (h : list Operation) : option mstate :=
  match h with
  | [] => Some st
  | op :: h =>
      match Step st (op_Input op) (op_Output op) with
      | Ret (b, st') => if decide (b = true \/ nokey op) then replay st' h else None
      | Panic _ => None
      end
  end.

Lemma replay_one st st' op b :
  Step st (op_Input op) (op_Output op) = Ret (b, st') -> b = true \/ nokey op ->
  replay st [op] = Some st'.
Proof. intros Hs Hb. cbn [replay]. rewrite Hs. by rewrite decide_True. Qed.

Lemma replay_snoc st h op :
  replay st (h ++ [op]) = replay st h ≫= fun st' => replay st' [op].
Proof.
  revert st. induction h as [|o h IH]; intros st; [done|]. cbn [app replay].
  destruct (Step st (op_Input o) (op_Output o)) as [[b st']|]; [|done].
  case_decide; [apply IH|done].
Qed.

Lemma replay_legal st st' h :
  replay st h = Some st' -> Forall (fun op => ~ nokey op) h -> legal st h = true.
Proof.
  revert st. induction h as [|o h IH]; intros st Hr Hn; [done|]. cbn [replay legal] in *.
  apply Forall_cons in Hn as [Hno Hn]. destruct (Step st (op_Input o) (op_Output o)) as [[b st1]|]; [|done].
  case_decide as Hb; [|done]. rewrite (IH st1 Hr Hn). by destruct Hb as [->|].
Qed.

(** The operations of one key. *)
Definition on_key (k : string) (h : list Operation) : list Operation :=
  filter (fun op => in_Key (op_Input op) = k) h.

Lemma StronglySorted_filter {A} (R : relation A) (P : A -> Prop) `{!forall x, Decision (P x)} l :
  StronglySorted R l -> StronglySorted R (filter P l).
Proof.
  induction 1 as [|x l Hl IH Hx]; [constructor|]. rewrite filter_cons. case_decide; [|done].
  constructor; [done|]. apply Forall_forall. intros y [_ Hy]%list_elem_of_filter.
  by apply (proj1 (Forall_forall _ _) Hx).
Qed.

Lemma StronglySorted_snoc {A} (R : relation A) l x :
  StronglySorted R l -> Forall (fun y => R y x) l -> StronglySorted R (l ++ [x]).
Proof.
  induction 1 as [|y l Hl IH Hy]; intros Hx; cbn [app].
  - by repeat constructor.
  - apply Forall_cons in Hx as [Hyx Hx]. constructor; [by apply IH|]. apply Forall_app; split; [done|].
    by repeat constructor.
Qed.

(** ** The invariant

    The operations that have taken effect, in the order in which they did: those in the log,
    and those of clients that are still in a call.  A Put of a call takes effect when it is
    executed successfully, and otherwise, as a Get, when its reply is delivered. *)
Section invariant.
Context {S : Type} `{!KVService S} `{!KVServiceLaws S}.
Implicit Types (s : S) (st : state S).

Inductive entry := Logged (op : Operation) | Pending (i : nat).

Definition logged (e : entry) : option Operation :=
  match e with Logged op => Some op | Pending _ => None end.
Definition pending (e : entry) : option nat :=
  match e with Logged _ => None | Pending i => Some i end.

Implicit Types (L : list entry) (cs : gmap nat pc) (log : OpLog).

(** The operation a client in a call will log, as far as it is known at [t]. *)
Definition view (t : Z) (p : option pc) : Operation :=
  match p with
  | Some (InClerk c _) => op_of c (put_output ErrMaybe) t
  | Some (Back c out) => op_of c out t
  | Some (Stamped c out stop) | Some (Counted c out stop) => op_of c out stop
  | Some Idle | None => op_of (MkCall 0 t (RGet "")) (put_output OK) t
  end.
Definition entry_op (t : Z) (cs : gmap nat pc) (e : entry) : Operation :=
  match e with Logged op => op | Pending i => view t (cs !! i) end.

(** A client whose operation has taken effect; in the clerk, all that is left to come are
    version errors. *)
Definition settled s (p : pc) : Prop :=
  match p with
  | Idle => False
  | InClerk c retry =>
      retry = true /\
      exists a, c_req c = RPut a /\ is_Some (svc_lookup s (pa_Key a)) /\ pa_Version a < version s (pa_Key a)
  | _ => True
  end.
Definition in_clerk (p : pc) : bool := match p with InClerk _ _ => true | _ => false end.
Definition call_of (p : pc) : option call :=
  match p with
  | Idle => None
  | InClerk c _ | Back c _ | Stamped c _ _ | Counted c _ _ => Some c
  end.

Record inv (n : Z) st (L : list entry) : Prop := {
  i_log : exists log, oplog st = Some log /\ omap logged L ≡ₚ log;
  i_nodup : NoDup (omap pending L);
  i_pending : forall i, i ∈ omap pending L ->
    exists p, clients st !! i = Some p /\ settled (server st) p;
  i_back : forall i p, clients st !! i = Some p -> p <> Idle -> in_clerk p = false -> i ∈ omap pending L;
  i_replay : forall k, replay Init (on_key k (entry_op (now st) (clients st) <$> L))
    = Some (key_state (server st) k);
  i_time : StronglySorted may_precede (entry_op (now st) (clients st) <$> L);
  i_past : Forall (fun op => op_Call op <= now st) (entry_op (now st) (clients st) <$> L);
  i_start : forall i p c, clients st !! i = Some p -> call_of p = Some c ->
    c_start c <= now st /\ valid_request (c_req c);
  i_ver : forall k, 0 <= version (server st) k <= n;
}.

(** Operations of a list of entries that only depend on some clients. *)
Lemma entry_ops_ext t t' cs cs' L :
  (forall i, i ∈ omap pending L -> view t (cs !! i) = view t' (cs' !! i)) ->
  entry_op t cs <$> L = entry_op t' cs' <$> L.
Proof.
  intros Hv. induction L as [|[op|i] L IH]; [done|..]; rewrite !fmap_cons; f_equal.
  - apply IH. intros j Hj. by apply Hv.
  - apply (Hv i). by left.
  - apply IH. intros j Hj. apply Hv. by right.
Qed.

Lemma settled_mono s s' p :
  (forall k, version s k <= version s' k) ->
  (forall k, is_Some (svc_lookup s k) -> is_Some (svc_lookup s' k)) ->
  settled s p -> settled s' p.
Proof.
  intros Hv Hk. destruct p; [done|..|done|done|done]. intros (-> & a & Hc & Ha & Hlt).
  split; [done|]. exists a. pose proof (Hv (pa_Key a)). split_and!; [done|by apply Hk|lia].
Qed.

(** A client moves without an operation taking effect. *)
Lemma inv_move n s t g g' log cs L i p p' :
  inv n (MkState s t g (Some log) cs) L -> cs !! i = Some p ->
  (i ∈ omap pending L -> settled s p' /\ view t (Some p') = view t (Some p)) ->
  (i ∉ omap pending L -> p' = Idle \/ in_clerk p' = true) ->
  (forall c, call_of p' = Some c -> call_of p = Some c \/ c_start c <= t /\ valid_request (c_req c)) ->
  inv (n + 1) (MkState s t g' (Some log) (<[i := p']> cs)) L.
Proof.
  intros [Hlog Hnd Hpend Hback Hrep Htime Hpast Hstart Hver] Hi Hin Hout Hcall. cbn [server now oplog clients] in *.
  assert (entry_op t (<[i := p']> cs) <$> L = entry_op t cs <$> L) as Hops.
  { apply entry_ops_ext. intros j Hj. destruct (decide (i = j)) as [<-|].
    - rewrite lookup_insert_eq, Hi. by apply Hin.
    - by rewrite lookup_insert_ne. }
  split; cbn [server now oplog clients]; rewrite ?Hops; try done.
  - intros j Hj. destruct (decide (i = j)) as [<-|Hne].
    + exists p'. rewrite lookup_insert_eq. split; [done|by apply Hin].
    + rewrite lookup_insert_ne by done. by apply Hpend.
  - intros j q Hj Hq1 Hq2. destruct (decide (i = j)) as [<-|Hne].
    + rewrite lookup_insert_eq in Hj. simplify_eq. destruct (decide (i ∈ omap pending L)) as [|Hni]; [done|].
      destruct (Hout Hni) as [?|?]; congruence.
    + rewrite lookup_insert_ne in Hj by done. by eapply Hback.
  - intros j q c Hj Hq. destruct (decide (i = j)) as [<-|Hne].
    + rewrite lookup_insert_eq in Hj. simplify_eq. destruct (Hcall c Hq) as [Hc|Hc]; [by eapply Hstart|done].
    + rewrite lookup_insert_ne in Hj by done. by eapply Hstart.
  - intros k. pose proof (Hver k). lia.
Qed.

(** An operation takes effect. *)
Lemma inv_effect n s s' t g log cs L i p p' c b :
  inv n (MkState s t g (Some log) cs) L -> cs !! i = Some p ->
  i ∉ omap pending L -> call_of p = Some c -> call_of p' = Some c -> settled s' p' ->
  op_Call (view t (Some p')) = c_start c -> op_Return (view t (Some p')) = t ->
  op_Input (view t (Some p')) = req_input (c_req c) ->
  Step (key_state s (in_Key (req_input (c_req c)))) (req_input (c_req c)) (op_Output (view t (Some p')))
    = Ret (b, key_state s' (in_Key (req_input (c_req c)))) ->
  b = true \/ nokey (view t (Some p')) ->
  (forall k, k <> in_Key (req_input (c_req c)) -> key_state s' k = key_state s k) ->
  (forall k, version s k <= version s' k <= n + 1) ->
  (forall k, is_Some (svc_lookup s k) -> is_Some (svc_lookup s' k)) ->
  inv (n + 1) (MkState s' t g (Some log) (<[i := p']> cs)) (L ++ [Pending i]).
Proof.
  intros [Hlog Hnd Hpend Hback Hrep Htime Hpast Hstart Hver] Hi Hni Hc Hc' Hset Ho1 Ho2 Ho3 Hstep Hb Hother Hmono Hkeep.
  cbn [server now oplog clients] in *.
  assert (entry_op t (<[i := p']> cs) <$> (L ++ [Pending i]) = (entry_op t cs <$> L) ++ [view t (Some p')]) as Hops.
  { rewrite fmap_app. f_equal.
    - apply entry_ops_ext. intros j Hj. rewrite lookup_insert_ne; [done|]. by intros ->.
    - cbn [fmap list_fmap entry_op]. by rewrite lookup_insert_eq. }
  assert (omap pending (L ++ [Pending i]) = omap pending L ++ [i]) as Hp by by rewrite omap_app.
  split; cbn [server now oplog clients]; rewrite ?Hops, ?Hp.
  - destruct Hlog as (log' & [= <-] & Hl). exists log. rewrite omap_app. cbn. by rewrite app_nil_r.
  - apply NoDup_app. split_and!; [done|..|apply NoDup_singleton].
    intros j Hj ->%list_elem_of_singleton. done.
  - intros j Hj. destruct (decide (i = j)) as [<-|Hne].
    + exists p'. by rewrite lookup_insert_eq.
    + rewrite lookup_insert_ne by done. apply elem_of_app in Hj as [Hj|Hj%list_elem_of_singleton]; [|congruence].
      destruct (Hpend j Hj) as (q & Hq & Hs). exists q. split; [done|].
      eapply settled_mono; [|apply Hkeep|done]. intros k. apply Hmono.
  - intros j q Hj Hq1 Hq2. destruct (decide (i = j)) as [<-|Hne]; [set_solver|].
    rewrite lookup_insert_ne in Hj by done. apply elem_of_app. left. by eapply Hback.
  - intros k. unfold on_key. rewrite filter_app, filter_cons, filter_nil, Ho3. case_decide as Hk.
    + subst k. rewrite replay_snoc. unfold on_key in Hrep. rewrite Hrep. cbn [mbind option_bind].
      eapply replay_one; [by rewrite Ho3|done].
    + rewrite app_nil_r, Hother by done. apply Hrep.
  - apply StronglySorted_snoc; [done|]. eapply Forall_impl; [exact Hpast|]. intros op Hop.
    unfold may_precede. by rewrite Ho2.
  - apply Forall_app; split; [done|]. apply Forall_singleton. rewrite Ho1. by eapply Hstart.
  - intros j q c1 Hj Hq. destruct (decide (i = j)) as [<-|Hne].
    + rewrite lookup_insert_eq in Hj. simplify_eq. by eapply Hstart.
    + rewrite lookup_insert_ne in Hj by done. by eapply Hstart.
  - intros k. pose proof (Hver k). pose proof (Hmono k). lia.
Qed.

Lemma pending_split i L :
  i ∈ omap pending L -> exists L1 L2, L = L1 ++ Pending i :: L2.
Proof.
  intros (e & He & Hp)%list_elem_of_omap. destruct e as [|j]; [done|]. injection Hp as ->.
  by apply list_elem_of_split.
Qed.

(** The operation of a finished call goes to the log. *)
Lemma inv_append n s t g log cs L i c out stop :
  inv n (MkState s t g (Some log) cs) L -> cs !! i = Some (Counted c out stop) ->
  exists L', inv (n + 1) (MkState s t g (log_op c out stop (Some log)) (<[i := Idle]> cs)) L'.
Proof.
  intros [Hlog Hnd Hpend Hback Hrep Htime Hpast Hstart Hver] Hi. cbn [server now oplog clients] in *.
  pose proof (Hback i _ Hi ltac:(done) eq_refl) as Hin. apply pending_split in Hin as (L1 & L2 & ->).
  exists (L1 ++ Logged (op_of c out stop) :: L2).
  rewrite omap_app in Hnd. cbn in Hnd. apply NoDup_app in Hnd as (Hnd1 & Hnd12 & Hnd2).
  apply NoDup_cons in Hnd2 as [Hni2 Hnd2].
  assert (i ∉ omap pending L1) as Hni1 by (intros Hc; apply (Hnd12 i Hc); by left).
  assert (forall L', i ∉ omap pending L' -> entry_op t (<[i := Idle]> cs) <$> L' = entry_op t cs <$> L') as Hext.
  { intros L' Hni. apply entry_ops_ext. intros j Hj. rewrite lookup_insert_ne; [done|]. by intros ->. }
  assert (entry_op t (<[i := Idle]> cs) <$> (L1 ++ Logged (op_of c out stop) :: L2) =
    entry_op t cs <$> (L1 ++ Pending i :: L2)) as Hops.
  { rewrite !fmap_app, !fmap_cons, !Hext by done. cbn [entry_op]. by rewrite Hi. }
  assert (forall j, j ∈ omap pending (L1 ++ Logged (op_of c out stop) :: L2) ->
    j <> i /\ j ∈ omap pending (L1 ++ Pending i :: L2)) as Hsub.
  { intros j. rewrite !omap_app, !elem_of_app. cbn. set_solver. }
  split; cbn [server now oplog clients]; rewrite ?Hops; try done.
  - destruct Hlog as (log' & [= <-] & Hl). exists (log ++ [op_of c out stop]). split; [done|].
    rewrite omap_app in Hl |- *. cbn in *. rewrite <- Hl. solve_Permutation.
  - rewrite omap_app. cbn. apply NoDup_app. split_and!; [done| |done]. intros j Hj Hj2.
    apply (Hnd12 j Hj). by right.
  - intros j [Hne Hj]%Hsub. rewrite lookup_insert_ne by done. by apply Hpend.
  - intros j q Hj Hq1 Hq2. destruct (decide (i = j)) as [<-|Hne].
    + rewrite lookup_insert_eq in Hj. by simplify_eq.
    + rewrite lookup_insert_ne in Hj by done. pose proof (Hback j q Hj Hq1 Hq2) as Hb.
      rewrite omap_app, elem_of_app in Hb |- *. cbn in *. set_solver.
  - intros j q c1 Hj Hq. destruct (decide (i = j)) as [<-|Hne].
    + rewrite lookup_insert_eq in Hj. by simplify_eq.
    + rewrite lookup_insert_ne in Hj by done. by eapply Hstart.
  - intros k. pose proof (Hver k). lia.
Qed.

(** Time goes by. *)
Lemma view_time t t' p :
  op_Input (view t p) = op_Input (view t' p) /\ op_Output (view t p) = op_Output (view t' p).
Proof. by destruct p as [[]|]. Qed.

Lemma replay_ext (m : mstate) h h' :
  Forall2 (fun a b => op_Input a = op_Input b /\ op_Output a = op_Output b) h h' -> replay m h = replay m h'.
Proof.
  intros H. revert m. induction H as [|a b h h' [H1 H2] _ IH]; intros m; [done|]. cbn [replay].
  rewrite H1, H2. destruct (Step m (op_Input b) (op_Output b)) as [[x st']|]; [|done].
  assert (nokey a <-> nokey b) as Hn by (unfold nokey; by rewrite H1, H2).
  repeat case_decide; [apply IH|tauto..|done].
Qed.

Lemma Forall2_on_key k h h' :
  Forall2 (fun a b => op_Input a = op_Input b /\ op_Output a = op_Output b) h h' ->
  Forall2 (fun a b => op_Input a = op_Input b /\ op_Output a = op_Output b) (on_key k h) (on_key k h').
Proof.
  intros H. unfold on_key. induction H as [|a b h h' [H1 H2] _ IH]; [constructor|].
  rewrite !filter_cons, H1. case_decide; [by constructor|done].
Qed.

Lemma inv_clock n s t t' g log cs L :
  inv n (MkState s t g (Some log) cs) L -> t <= t' ->
  inv (n + 1) (MkState s t' g (Some log) cs) L.
Proof.
  intros [Hlog Hnd Hpend Hback Hrep Htime Hpast Hstart Hver] Ht. cbn [server now oplog clients] in *.
  assert (forall e, e ∈ L -> op_Call (entry_op t' cs e) = op_Call (entry_op t cs e) /\
    op_Return (entry_op t cs e) <= op_Return (entry_op t' cs e)) as He.
  { intros [op|i] Hin; [done|]. cbn [entry_op]. destruct (Hpend i) as (p & -> & Hp).
    { apply list_elem_of_omap. by exists (Pending i). }
    by destruct p. }
  split; cbn [server now oplog clients]; try done.
  - intros k. rewrite <- (Hrep k). apply replay_ext, Forall2_on_key.
    apply Forall2_fmap, Forall_Forall2_diag, Forall_forall. intros [op|i] _; [done|]. apply view_time.
  - clear -He Htime. induction L as [|e L IH]; [constructor|]. rewrite fmap_cons in *.
    apply StronglySorted_inv in Htime as [Hs Hf]. constructor.
    + apply IH; [done|]. intros e' He'. apply He. by right.
    + rewrite Forall_fmap, Forall_forall in Hf |- *. intros e' He'. pose proof (Hf e' He') as Hp.
      unfold may_precede in *. cbn in *. destruct (He e) as [-> _]; [by left|].
      destruct (He e') as [_ ?]; [by right|]. lia.
  - rewrite Forall_fmap, Forall_forall in Hpast |- *. intros e Hin. pose proof (Hpast e Hin) as Hp.
    cbn in *. destruct (He e Hin) as [-> _]. lia.
  - intros i p c Hi Hp. destruct (Hstart i p c Hi Hp). split; [lia|done].
  - intros k. pose proof (Hver k). lia.
Qed.

(** An attempt of a Put that has already taken effect: a version error at most. *)
Lemma attempt_settled s dl c retry :
  settled s (InClerk c retry) ->
  exists p', attempt dl c retry s = (s, p') /\ settled s p' /\ call_of p' = Some c /\
    forall t, view t (Some p') = view t (Some (InClerk c retry)).
Proof.
  intros (-> & a & Hc & Hk & Hlt). unfold attempt. rewrite Hc.
  assert (svc_Put a s = (s, MkPutReply ErrVersion)) as HP by (apply Put_passed; [done|lia]).
  destruct dl; cbn [LabRpc.deliver]; rewrite ?HP; cbn [fst]; eexists; (split; [done|]); try done;
    (split; [|done]); (split; [done|]); by eauto.
Qed.

(** The version after a Put that succeeds. *)
Lemma Put_ok_version s a k :
  version s (pa_Key a) = pa_Version a -> 0 <= version s k ->
  version s (pa_Key a) < 2 ^ 64 - 1 -> 0 <= version s (pa_Key a) ->
  version s k <= version (svc_Put a s).1 k <= Z.max (version s k) (version s (pa_Key a) + 1) /\
  (k = pa_Key a -> version (svc_Put a s).1 k = pa_Version a + 1 /\ is_Some (svc_lookup (svc_Put a s).1 k)).
Proof.
  intros Hv H0 Hb Hb0. destruct (law_Put_ok a s Hv) as [_ Hl].
  assert (version (svc_Put a s).1 k = if decide (k = pa_Key a) then pa_Version a + 1 else version s k) as ->.
  { unfold version at 1. rewrite Hl. case_decide; [|done]. cbn. rewrite u64_add_small; lia. }
  rewrite Hl. case_decide as Hk; [subst k|]; (split; [lia|]); [by eauto|done].
Qed.

Lemma inv_attempt n s t g log cs L i c retry dl s' p' :
  inv n (MkState s t g (Some log) cs) L -> n < 2 ^ 64 - 1 ->
  cs !! i = Some (InClerk c retry) -> attempt dl c retry s = (s', p') ->
  exists L', inv (n + 1) (MkState s' t g (Some log) (<[i := p']> cs)) L'.
Proof.
  intros Hinv Hn Hi Ha. pose proof (i_ver _ _ _ Hinv) as Hver. cbn [server] in Hver.
  destruct (decide (i ∈ omap pending L)) as [Hin|Hni].
  - destruct (i_pending _ _ _ Hinv i Hin) as (p & Hp & Hset). cbn [server clients] in *. simplify_eq.
    destruct (attempt_settled s dl c retry Hset) as (p & Hp & Hs & Hcall & Hview). rewrite Ha in Hp. simplify_eq.
    exists L. eapply inv_move; [done..|]. naive_solver.
  - assert (forall retry', inv (n + 1) (MkState s t g (Some log) (<[i := InClerk c retry']> cs)) L) as Hstay.
    { intros retry'. eapply inv_move; [done..|by right|]. naive_solver. }
    unfold attempt in Ha. destruct (c_req c) as [key|a] eqn:Hc.
    + destruct (Get_Step s key) as [HG Hstep].
      destruct (svc_Get (MkGetArgs key) s) as [s1 r] eqn:HGet. cbn [snd] in *. injection HG as ->.
      destruct dl; cbn [LabRpc.deliver] in Ha; rewrite ?HGet in Ha; cbn [fst] in Ha; simplify_eq; [by exists L..|].
      exists (L ++ [Pending i]). eapply inv_effect; try done; rewrite ?Hc; cbn [req_input]; try done.
      * by left.
      * intros k. pose proof (Hver k). lia.
    + destruct (decide (version s (pa_Key a) = pa_Version a)) as [E|E].
      * pose proof (proj2 (Put_OK_iff a s) E) as HOK.
        pose proof (Put_ok_version s a) as Hvs. pose proof (fun err => Put_ok_Step s a err E) as Hstep.
        pose proof (Put_other_key s a) as Hother. pose proof (fun k => Put_keeps a s k) as Hkeep.
        destruct (svc_Put a s) as [s1 [e]] eqn:HPut. cbn [snd fst pr_Err] in *. subst e.
        assert (forall k, version s k <= version s1 k <= n + 1) as Hmono.
        { intros k. pose proof (Hver k). pose proof (Hver (pa_Key a)). destruct (Hvs k); lia. }
        destruct dl; cbn [LabRpc.deliver] in Ha; rewrite ?HPut in Ha; cbn [fst] in Ha; simplify_eq;
          [by exists L|exists (L ++ [Pending i])..].
        -- eapply inv_effect; try done; rewrite ?Hc; cbn [req_input]; try done.
           ++ split; [done|]. exists a. pose proof (Hver (pa_Key a)).
              destruct (Hvs (pa_Key a)) as [_ [-> ?]]; [done|lia..|done|]. split_and!; [done..|lia].
           ++ cbn. apply Hstep. by right.
           ++ by left.
        -- eapply inv_effect; try done; rewrite ?Hc; cbn [req_input]; try done.
           ++ cbn. apply Hstep. by left.
           ++ by left.
      * destruct (Put_fail_reply s a E) as [Hr|Hr]; pose proof (fun err => Put_fail_Step s a err E) as Hf;
          destruct (Hf OK) as [Hs1 _]; rewrite Hr in Hs1; pose proof (fun err => proj2 (Hf err)) as Hstep;
          destruct dl; cbn [LabRpc.deliver] in Ha; rewrite ?Hs1 in Ha; cbn [fst] in Ha; simplify_eq;
          try (by exists L); exists (L ++ [Pending i]); 
          (eapply inv_effect; try done; rewrite ?Hc; cbn [req_input];
            [cbn; apply Hstep| |intros k; pose proof (Hver k); lia]).
        -- left. by destruct retry.
        -- right. destruct retry; by split; cbn; rewrite ?Hc.
Qed.

Lemma lin_step n st st' L :
  inv n st L -> n < 2 ^ 64 - 1 -> step Z.le st st' -> exists L', inv (n + 1) st' L'.
Proof.
  intros Hinv Hn Hstep. destruct (i_log _ _ _ Hinv) as (log & Hlog & _).
  destruct Hstep as [s t g l cs i cli q Hi Hq|s t g l cs i c retry dl s' p Hi Ha|s t g l cs i c out Hi
    |s t g l cs i c out stop Hi|s t g l cs i c out stop Hi|s t t' g l cs Ht]; cbn [oplog] in Hlog; subst l.
  - exists L. eapply inv_move; [done..| |by right|].
    + intros Hin. destruct (i_pending _ _ _ Hinv i Hin) as (p & Hp & Hs). cbn [clients] in Hp. by simplify_eq.
    + intros c [= <-]. right. by split; [reflexivity|].
  - by eapply inv_attempt.
  - exists L. pose proof (i_back _ _ _ Hinv i _ Hi ltac:(done) eq_refl). eapply inv_move; [done..|].
    intros c' [= <-]. by left.
  - exists L. pose proof (i_back _ _ _ Hinv i _ Hi ltac:(done) eq_refl). eapply inv_move; [done..|].
    intros c' [= <-]. by left.
  - by eapply inv_append.
  - exists L. by eapply inv_clock.
Qed.

Lemma lin_initial st : initial st -> inv 0 st [].
Proof.
  intros (Hs & Hlog & Hidle). split; cbn.
  - by exists [].
  - constructor.
  - by intros i ?%elem_of_nil.
  - intros i p Hi Hp. by rewrite (Hidle i p Hi) in Hp.
  - intros k. cbn. unfold key_state. by rewrite Hs.
  - constructor.
  - constructor.
  - intros i p c Hi Hc. by rewrite (Hidle i p Hi) in Hc.
  - intros k. unfold version. rewrite Hs. cbn. lia.
Qed.

Lemma inv_run n st0 st :
  initial st0 -> nsteps (step Z.le) n st0 st -> Z.of_nat n < 2 ^ 64 -> exists L, inv (Z.of_nat n) st L.
Proof.
  intros H0 Hrun Hn. eapply (nsteps_invariant _ (fun k st => exists L, inv k st L) (2 ^ 64 - 1));
    [by exists []; apply lin_initial| |done|lia].
  intros k s s' Hk [L Hinv] Hstep. eapply lin_step; [done|lia|done].
Qed.

(** When no client is in a call the operations of the log, in the order in which they took
    effect, are a run of the model, key by key. *)
Lemma inv_quiescent n st L log :
  inv n st L -> quiescent st -> oplog st = Some log -> no_nokey log ->
  exists h, h ≡ₚ log /\ StronglySorted may_precede h /\ forall k, legal Init (on_key k h) = true.
Proof.
  intros Hinv Hq Hlog Hnk. destruct (i_log _ _ _ Hinv) as (log' & Hlog' & Hperm). simplify_eq.
  assert (forall e, e ∈ L -> exists op, e = Logged op) as Hall.
  { intros [op|i] He; [by eexists|]. destruct (i_pending _ _ _ Hinv i) as (p & Hp & Hs).
    { apply list_elem_of_omap. by exists (Pending i). }
    by rewrite (Hq i p Hp) in Hs. }
  assert (entry_op (now st) (clients st) <$> L = omap logged L) as Hops.
  { clear -Hall. induction L as [|e L IH]; [done|]. destruct (Hall e) as [op ->]; [by left|].
    rewrite fmap_cons. cbn. f_equal. apply IH. intros e' He'. apply Hall. by right. }
  exists (omap logged L). split_and!; [done|rewrite <- Hops; apply (i_time _ _ _ Hinv)|].
  intros k. eapply replay_legal; [rewrite <- Hops; apply (i_replay _ _ _ Hinv)|].
  apply Forall_forall. intros op [_ Hop]%list_elem_of_filter [Hn1 Hn2].
  rewrite Hperm in Hop. destruct (proj1 (Forall_forall _ _) Hnk op Hop) as [?|?]; done.
Qed.
End invariant.

(** The parts of a history are those of its keys. *)
Lemma elem_of_Partition part h :
  part ∈ Partition h -> exists k, part = on_key k h.
Proof.
  unfold Partition. intros (k & -> & _)%list_elem_of_fmap. exists k.
  rewrite foldl_add_op, lookup_empty. done.
Qed.

Lemma parts_linearizable log h :
  h ≡ₚ log -> StronglySorted may_precede h -> (forall k, legal Init (on_key k h) = true) ->
  Forall linearizable (Partition log).
Proof.
  intros Hp Ht Hl. apply Forall_forall. intros part [k ->]%elem_of_Partition.
  exists (on_key k h). split_and!; [|by apply StronglySorted_filter|done].
  unfold on_key. by rewrite Hp.
Qed.

(** ** A reference checker

    It tries every order. *)
#[export] Instance may_precede_dec : RelDecision may_precede.
Proof. intros a b. unfold may_precede. apply _. Defined.

Fixpoint in_time (h : list Operation) : bool :=
  match h with
  | [] => true
  | op :: h => forallb (fun op' => bool_decide (may_precede op op')) h && in_time h
  end.
Definition lin_check (h : list Operation) : bool :=
  existsb (fun h' => in_time h' && legal Init h') (permutations h).
Definition reference_checker (h : list Operation) (nsec : Z) : CheckResult :=
  if forallb lin_check (Partition h) then Ok else Illegal.

Lemma in_time_spec h : in_time h = true <-> StronglySorted may_precede h.
Proof.
  induction h as [|op h IH]; cbn [in_time]; [split; [constructor|done]|].
  rewrite andb_true_iff, IH, forallb_forall. split.
  - intros [Hf Hs]. constructor; [done|]. apply Forall_forall. intros x Hx.
    apply list_elem_of_In, Hf in Hx. by apply bool_decide_eq_true in Hx.
  - intros [Hs Hf]%StronglySorted_inv. split; [|done]. intros x Hx. apply bool_decide_eq_true.
    apply (proj1 (Forall_forall _ _) Hf). by apply list_elem_of_In.
Qed.

Lemma lin_check_spec h : lin_check h = true <-> linearizable h.
Proof.
  unfold lin_check, linearizable. rewrite existsb_exists. split.
  - intros (h' & Hin & [Ht Hl]%andb_true_iff). exists h'. split_and!; [|by apply in_time_spec|done].
    symmetry. by apply permutations_Permutation, list_elem_of_In.
  - intros (h' & Hp & Ht & Hl). exists h'. split.
    + apply list_elem_of_In, permutations_Permutation. by symmetry.
    + apply andb_true_iff. split; [by apply in_time_spec|done].
Qed.

Lemma reference_checker_sound : sound_checker reference_checker.
Proof.
  intros h nsec. unfold reference_checker. destruct (forallb lin_check (Partition h)) eqn:E; [done|]. intros _.
  assert (Exists (fun part => ~ linearizable part) (Partition h)) as Hex.
  { clear nsec. induction (Partition h) as [|p l IH]; [done|]. cbn in E.
    destruct (lin_check p) eqn:Ep; [right; by apply IH|]. left. rewrite <- lin_check_spec. congruence. }
  apply Exists_exists in Hex as (part & Hp & Hn). by exists part.
Qed.

(** *** Schedules that can be run *)

Inductive action :=
| ABegin (i : nat) (cli : Z) (q : request)
| AAttempt (i : nat) (dl : LabRpc.delivery)
| AReturn (i : nat)
| AClock (t : Z).

Section exec.
Context {S : Type} `{!KVService S} (clock : Z -> Z -> Prop) `{!forall t t', Decision (clock t t')}.

#[local] Instance valid_request_dec q : Decision (valid_request q).
Proof. destruct q; unfold valid_request, is_u64; apply _. Defined.

(** One step; [AReturn] is the next of a client's steps after the clerk's return. *)
Definition run_action (a : action) (st : state S) : option (state S) :=
  let '(MkState s t g log cs) := st in
  match a with
  | ABegin i cli q =>
      match cs !! i with
      | Some Idle =>
          if decide (valid_request q) then Some (MkState s t g log (<[i := InClerk (MkCall cli t q) false]> cs))
          else None
      | _ => None
      end
  | AAttempt i dl =>
      match cs !! i with
      | Some (InClerk c retry) =>
          let '(s', p) := attempt dl c retry s in Some (MkState s' t g log (<[i := p]> cs))
      | _ => None
      end
  | AReturn i =>
      match cs !! i with
      | Some (Back c out) => Some (MkState s t g log (<[i := Stamped c out t]> cs))
      | Some (Stamped c out stop) => Some (MkState s t (Tester.Op g) log (<[i := Counted c out stop]> cs))
      | Some (Counted c out stop) => Some (MkState s t g (log_op c out stop log) (<[i := Idle]> cs))
      | _ => None
      end
  | AClock t' => if decide (clock t t') then Some (MkState s t' g log cs) else None
  end.

Fixpoint exec (l : list action) (st : state S) : option (state S) :=
  match l with
  | [] => Some st
  | a :: l => run_action a st ≫= exec l
  end.

Lemma run_action_step a st st' : run_action a st = Some st' -> step clock st st'.
Proof.
  destruct st as [s t g log cs]. unfold run_action. destruct a as [i cli q|i dl|i|t'].
  - destruct (cs !! i) as [[]|] eqn:Hi; [|done..]. case_decide; [|done]. intros [= <-]. by apply step_begin.
  - destruct (cs !! i) as [[]|] eqn:Hi; [done| |done..].
    destruct (attempt dl c retry s) as [s' p] eqn:Ha. intros [= <-]. by eapply step_attempt.
  - destruct (cs !! i) as [[]|] eqn:Hi; [done|done| | | |done]; intros [= <-];
      [by apply step_stamp|by apply step_count|by apply step_log].
  - case_decide; [|done]. intros [= <-]. by apply step_clock.
Qed.

Lemma exec_steps l st st' : exec l st = Some st' -> nsteps (step clock) (length l) st st'.
Proof.
  revert st. induction l as [|a l IH]; intros st; cbn [exec length].
  { intros [= <-]. constructor. }
  intros (st1 & Ha & Hl)%bind_Some. eapply nsteps_l; [by eapply run_action_step|by apply IH].
Defined.
End exec.

(** ** Properties *)

(** C13 (the store is linearizable).  Any clients call ts.Get and ts.Put on an empty store,
    their attempts interleave and are lost, answered or executed with the reply lost in any
    way, and their calls may still be logged in another order than they ended.  Whenever no
    client is in a call, the operations of the log can be put in one order that respects
    time (an operation that had returned before another was called comes first) and in
    which the model accepts every key's operations, provided that no Put was answered
    [ErrNoKey] (the model refuses that answer) and the run has fewer than 2^64 steps (the
    version is a uint64).  The clock must not go back. *)
Theorem store_linearizable {S} `{!KVService S} `{!KVServiceLaws S} (n : nat) (st0 st : state S) (log : OpLog)
    (Hinit : initial st0) (Hrun : nsteps (step Z.le) n st0 st) (Hn : Z.of_nat n < 2 ^ 64)
    (Hq : quiescent st) (Hlog : oplog st = Some log) (Hnk : no_nokey log) :
  exists h, h ≡ₚ log /\ StronglySorted may_precede h /\ forall k, legal Init (on_key k h) = true.
Proof.
  destruct (inv_run n st0 st Hinit Hrun Hn) as [L Hinv]. by eapply inv_quiescent.
Qed.

(** The check gives no false alarm.  Under the same conditions CheckPorcupine returns,
    whatever the environment says about the picture, if the checker calls a history illegal
    only when one of its parts is not linearizable. *)
Lemma CheckPorcupine_passes {S} `{!KVService S} `{!KVServiceLaws S}
    (check : list Operation -> Z -> CheckResult) (Hcheck : sound_checker check)
    (n : nat) (st0 st : state S) (log : OpLog) (e : checkEnv) (g : Annot.globals)
    (Hinit : initial st0) (Hrun : nsteps (step Z.le) n st0 st) (Hn : Z.of_nat n < 2 ^ 64)
    (Hq : quiescent st) (Hlog : oplog st = Some log) (Hnk : no_nokey log) :
  (CheckPorcupine check e log g).2 = Ret tt.
Proof.
  destruct (inv_run n st0 st Hinit Hrun Hn) as [L Hinv].
  destruct (inv_quiescent _ _ _ _ Hinv Hq Hlog Hnk) as (h & Hp & Ht & Hl).
  unfold CheckPorcupine, CheckPorcupineT, checkPorcupine, Read.
  destruct (check log linearizabilityCheckTimeout) eqn:E;
    [by repeat case_match..|]. exfalso.
  destruct (Hcheck _ _ E) as (part & Hpart & Hnot). apply Hnot.
  exact (proj1 (Forall_forall _ _) (parts_linearizable log h Hp Ht Hl) part Hpart).
Qed.

(** *** Witnesses *)

Definition ex_state : state KvServer.KVServer :=
  MkState KvServer.MakeKVServer 0 (Tester.MkCfg Tester.makeClnts ∅ 0 0) (Some []) {[ 0%nat := Idle; 1%nat := Idle; 2%nat := Idle ]}.

(** Client 0 puts; the reply to its executed attempt is lost, and client 1 reads the value and
    puts the next one before the resend, which is answered [ErrVersion].  Client 2 reads
    meanwhile and logs late. *)
Definition ex_actions : list action :=
  [ABegin 0 0 (RPut (MkPutArgs "k" "a" 0)); ABegin 2 2 (RGet "k"); AClock 10; AAttempt 2 LabRpc.Lost;
   AAttempt 0 LabRpc.ReplyLost; ABegin 1 1 (RGet "k"); AAttempt 1 LabRpc.Delivered; AClock 20; AReturn 1;
   AReturn 1; AReturn 1; ABegin 1 1 (RPut (MkPutArgs "k" "b" 1)); AAttempt 1 LabRpc.Delivered; AClock 30;
   AAttempt 2 LabRpc.Delivered; AReturn 2; AReturn 1; AReturn 1; AReturn 1; AClock 40;
   AAttempt 0 LabRpc.Delivered; AReturn 0; AReturn 0; AReturn 0; AReturn 2; AReturn 2].

Definition ex_log : OpLog :=
  [get_op "k" (MkGetReply "a" 1 OK) 10 20 1; put_op (MkPutArgs "k" "b" 1) OK 20 30 1;
   put_op (MkPutArgs "k" "a" 0) ErrMaybe 0 40 0; get_op "k" (MkGetReply "b" 2 OK) 0 30 2].

Definition ex_globals : Annot.globals := Annot.MkGlobals Annot.mkAnnotation None.

Lemma ex_state_initial : initial ex_state.
Proof.
  split_and!; [done|done|]. intros i p. cbn [clients ex_state]. intros Hi.
  apply lookup_insert_Some in Hi as [[_ <-]|[_ Hi]]; [done|].
  apply lookup_insert_Some in Hi as [[_ <-]|[_ Hi]]; [done|]. by apply lookup_singleton_Some in Hi as [_ <-].
Qed.

Lemma ex_run : exists st, exec Z.le ex_actions ex_state = Some st /\ oplog st = Some ex_log /\ quiescent st.
Proof.
  eexists. split; [vm_compute; reflexivity|]. split; [reflexivity|].
  apply (map_Forall_to_list (fun (_ : nat) p => p = Idle)). vm_compute. by repeat constructor.
Qed.

Lemma store_linearizable_witness :
  exists h, h ≡ₚ ex_log /\ StronglySorted may_precede h /\ forall k, legal Init (on_key k h) = true.
Proof.
  destruct ex_run as (st & He & Hlog & Hq).
  apply (store_linearizable (length ex_actions) ex_state st ex_log).
  - exact ex_state_initial.
  - by eapply exec_steps.
  - done.
  - exact Hq.
  - exact Hlog.
  - unfold no_nokey. vm_compute. repeat apply Forall_cons_2; try apply Forall_nil_2; solve [by left | by right].
Defined.

Lemma CheckPorcupine_passes_ex :
  (CheckPorcupine reference_checker (MkEnv "always" "" true true 50 60) ex_log ex_globals).2 = Ret tt.
Proof.
  destruct ex_run as (st & He & Hlog & Hq).
  apply (CheckPorcupine_passes reference_checker reference_checker_sound (length ex_actions) ex_state st ex_log).
  - exact ex_state_initial.
  - by eapply exec_steps.
  - done.
  - exact Hq.
  - exact Hlog.
  - unfold no_nokey. vm_compute. repeat apply Forall_cons_2; try apply Forall_nil_2; solve [by left | by right].
Defined.

(** The check is not idle: it fails on a stale read. *)
Example stale_read_fails :
  (CheckPorcupine reference_checker (MkEnv "" "" true true 0 0)
    [put_op (MkPutArgs "k" "a" 0) OK 0 1 0; get_op "k" (MkGetReply "" 0 ErrNoKey) 2 3 1]
    ex_globals).2 = Panic Fatal.
Proof. vm_compute. reflexivity. Qed.

(** With a clock that may go back the check can fail on a correct store. *)
Lemma clock_back_fails :
  exists n st log, nsteps (step (fun _ _ => True)) n ex_state st /\ quiescent st /\ oplog st = Some log /\
    no_nokey log /\ (CheckPorcupine reference_checker (MkEnv "never" "" true true 0 0) log ex_globals).2 = Panic Fatal.
Proof.
  set (l := [AClock 10; ABegin 0 0 (RPut (MkPutArgs "k" "a" 0)); AAttempt 0 LabRpc.Delivered; AReturn 0; AReturn 0;
    AReturn 0; AClock 2; ABegin 1 1 (RGet "k"); AAttempt 1 LabRpc.Delivered; AReturn 1; AReturn 1; AReturn 1]).
  destruct (exec (fun _ _ => True) l ex_state) as [st|] eqn:E; [|vm_compute in E; done].
  exists (length l), st. eexists. split; [by eapply exec_steps|].
  vm_compute in E. injection E as <-. split_and!.
  - apply (map_Forall_to_list (fun (_ : nat) p => p = Idle)). vm_compute. by repeat constructor.
  - reflexivity.
  - unfold no_nokey. repeat apply Forall_cons_2; try apply Forall_nil_2; solve [by left | by right].
  - vm_compute. reflexivity.
Qed.
End KvLin.
