(* ===== verification/KvTest.v ===== *)
(** * KvTest: the clients and checks of the store's tests (src/src/kvtest1/kvtest.go)

    Clients that put to one key, or append to the list kept under it, through clerks until
    they are told to stop, and what the test then checks on the store.  The clients
    interleave at the level of single RPC attempts, whose fate is arbitrary; the store is
    any [KVService].  [Fatalf] is a panic.  The operation log is in the file KvModel. *)
From S2P Require Import Prelude GoText LabRpc KvSrv Persister Tester.
Local Open Scope Z_scope.
Local Open Scope go_scope.

(** ** JSON

    The text [json.Marshal] makes of the tests' values (structs of two integers, slices of
    them), and the reading of such texts; other texts, which Go might accept, are refused. *)
Module Json.

Definition dq : string := String "034" "".
Definition field (name : string) (v : Z) : string := dq +:+ name +:+ dq +:+ ":" +:+ pretty v.
Definition marshal_pair (n1 n2 : string) (p : Z * Z) : string :=
  "{" +:+ field n1 p.1 +:+ "," +:+ field n2 p.2 +:+ "}".
Fixpoint marshal_elems (n1 n2 : string) (l : list (Z * Z)) : string :=
  match l with
  | [] => ""
  | [p] => marshal_pair n1 n2 p
  | p :: l => marshal_pair n1 n2 p +:+ "," +:+ marshal_elems n1 n2 l
  end.
Definition marshal_list (n1 n2 : string) (l : list (Z * Z)) : string :=
  "[" +:+ marshal_elems n1 n2 l +:+ "]".

(** [s] after the prefix [p]. *)
Fixpoint expect (p s : string) : option string :=
  match p, s with
  | "", _ => Some s
  | String a p, String b s => if decide (a = b) then expect p s else None
  | _, _ => None
  end.

Definition digit (a : ascii) : option Z :=
  let n := Z.of_nat (nat_of_ascii a) - 48 in
  if decide (0 <= n <= 9) then Some n else None.
(** The digits at the head of [s], after the digits that make [acc]. *)
Fixpoint digits (acc : Z) (s : string) : Z * string :=
  match s with
  | String a s' =>
      match digit a with
      | Some d => digits (acc * 10 + d) s'
      | None => (acc, s)
      end
  | "" => (acc, "")
  end.
Definition number (s : string) : option (Z * string) :=
  match s with
  | String a s' =>
      if decide (a = "-"%char) then let '(n, r) := digits 0 s' in Some (- n, r)
      else match digit a with Some _ => Some (digits 0 s) | None => None end
  | "" => None
  end.
Definition parse_field (name s : string) : option (Z * string) :=
  expect (dq +:+ name +:+ dq +:+ ":") s ≫= number.
Definition parse_pair (n1 n2 s : string) : option (Z * Z * string) :=
  s ← expect "{" s;
  '(a, s) ← parse_field n1 s;
  s ← expect "," s;
  '(b, s) ← parse_field n2 s;
  s ← expect "}" s;
  Some (a, b, s).
(** The elements up to the closing bracket; every element takes a step of [fuel]. *)
Fixpoint parse_elems (fuel : nat) (n1 n2 s : string) : option (list (Z * Z) * string) :=
  match fuel with
  | O => None
  | S fuel =>
      '(p, s) ← parse_pair n1 n2 s;
      match expect "]" s with
      | Some s => Some ([p], s)
      | None =>
          s ← expect "," s;
          '(l, s) ← parse_elems fuel n1 n2 s;
          Some (p :: l, s)
      end
  end.
Definition all_read {A} (o : option (A * string)) : option A :=
  match o with Some (x, "") => Some x | _ => None end.
Definition unmarshal_pair (n1 n2 s : string) : option (Z * Z) := all_read (parse_pair n1 n2 s).
Definition unmarshal_list (n1 n2 s : string) : option (list (Z * Z)) :=
  s ← expect "[" s;
  match expect "]" s with
  | Some "" => Some []
  | Some _ => None
  | None => all_read (parse_elems (String.length s) n1 n2 s)
  end.

(** *** Round trips *)

Lemma expect_app p s : expect p (p +:+ s) = Some s.
Proof.
  induction p as [|a p IH]; [by destruct s|]. change (String a p +:+ s) with (String a (p +:+ s)).
  cbn [expect]. by rewrite decide_True.
Qed.

Lemma digits_go x s : digits 0 (pretty_N_go x s) = digits (Z.of_N x) s.
Proof.
  revert s. induction x as [x IH] using (well_founded_induction N.lt_wf_0). intros s.
  destruct (decide (x = 0)%N) as [->|Hx]; [done|].
  rewrite pretty_N_go_step by lia. rewrite IH by (apply N.div_lt; lia). cbn [digits].
  assert (x `mod` 10 < 10)%N as Hm by (apply N.mod_lt; lia).
  assert (digit (pretty_N_char (x `mod` 10)) = Some (Z.of_N (x `mod` 10))) as ->.
  { assert (forall d, (d < 10)%N -> digit (pretty_N_char d) = Some (Z.of_N d)) as Hd; [|by apply Hd].
    intros d Hd. assert (d = 0 \/ d = 1 \/ d = 2 \/ d = 3 \/ d = 4 \/ d = 5 \/ d = 6 \/ d = 7 \/ d = 8 \/ d = 9)%N
      as Hc by lia. by destruct_or! Hc; subst. }
  f_equal. rewrite (N.div_mod x 10) at 3 by lia. lia.
Qed.

Lemma pretty_N_go_app x s r : pretty_N_go x s +:+ r = pretty_N_go x (s +:+ r).
Proof.
  revert s. induction x as [x IH] using (well_founded_induction N.lt_wf_0). intros s.
  destruct (decide (x = 0)%N) as [->|Hx]; [done|].
  rewrite !(pretty_N_go_step x) by lia. by rewrite IH by (apply N.div_lt; lia).
Qed.

(** The first character of a number's digits. *)
Lemma pretty_N_go_head x s :
  (0 < x)%N -> exists a s', pretty_N_go x s = String a s' /\ a <> "-"%char /\ is_Some (digit a).
Proof.
  revert s. induction x as [x IH] using (well_founded_induction N.lt_wf_0). intros s Hx.
  rewrite pretty_N_go_step by done. destruct (decide (0 < x `div` 10)%N) as [Hd|Hd].
  - apply IH; [by apply N.div_lt|done].
  - assert ((x `div` 10)%N = 0%N) as -> by (apply N.le_0_r, N.nlt_ge; exact Hd). rewrite pretty_N_go_0. eexists _, _. split; [done|].
    unfold pretty_N_char. repeat case_match; (split; [done|by eexists]).
Qed.

(** What follows a number. *)
Definition stops (s : string) : Prop :=
  match s with "" => True | String a _ => digit a = None end.

Lemma digits_stops x s : stops s -> digits x s = (x, s).
Proof. destruct s as [|a s]; cbn; [done|]. by intros ->. Qed.

Lemma number_pos p s :
  stops s -> number (pretty (Zpos p) +:+ s) = Some (Zpos p, s).
Proof.
  intros Hs. change (pretty (Zpos p)) with (pretty_N_go (N.pos p) ""). rewrite pretty_N_go_app.
  change ("" +:+ s) with s.
  destruct (pretty_N_go_head (N.pos p) s) as (a & s' & Hg & Ha & [d Hd]); [lia|].
  assert (digits 0 (pretty_N_go (N.pos p) s) = (Z.pos p, s)) as Hdig.
  { rewrite digits_go. by apply digits_stops. }
  rewrite Hg in *. unfold number. by rewrite decide_False, Hd, Hdig.
Qed.

Lemma number_pretty z s : stops s -> number (pretty z +:+ s) = Some (z, s).
Proof.
  intros Hs. destruct z as [|p|p].
  - change (number (String "0" s) = Some (0, s)). unfold number. cbn [digits].
    rewrite decide_False by done. change (Some (digits 0 s) = Some (0, s)). by rewrite digits_stops.
  - by apply number_pos.
  - change (pretty (Zneg p) +:+ s) with (String "-" (pretty_N_go (N.pos p) "" +:+ s)).
    unfold number. rewrite decide_True by done. rewrite pretty_N_go_app. change ("" +:+ s) with s.
    by rewrite digits_go, digits_stops.
Qed.

Lemma parse_field_app name v s :
  stops s -> parse_field name (field name v +:+ s) = Some (v, s).
Proof.
  intros Hs. unfold parse_field, field.
  replace ((dq +:+ name +:+ dq +:+ ":" +:+ pretty v) +:+ s) with
    ((dq +:+ name +:+ dq +:+ ":") +:+ (pretty v +:+ s)) by by rewrite !app_assoc_string.
  rewrite expect_app. by apply number_pretty.
Qed.

Lemma parse_pair_app n1 n2 p s : parse_pair n1 n2 (marshal_pair n1 n2 p +:+ s) = Some (p, s).
Proof.
  destruct p as [a b]. unfold parse_pair, marshal_pair. cbn [fst snd].
  rewrite !app_assoc_string, expect_app. cbn [mbind option_bind].
  rewrite parse_field_app by done. cbn [mbind option_bind]. rewrite expect_app. cbn [mbind option_bind].
  rewrite parse_field_app by done. cbn [mbind option_bind]. by rewrite expect_app.
Qed.

Lemma unmarshal_marshal_pair n1 n2 p : unmarshal_pair n1 n2 (marshal_pair n1 n2 p) = Some p.
Proof.
  unfold unmarshal_pair. rewrite <- (app_nil_string (marshal_pair n1 n2 p)). by rewrite parse_pair_app.
Qed.

Lemma parse_elems_app fuel n1 n2 l s :
  l <> [] -> (length l <= fuel)%nat ->
  parse_elems fuel n1 n2 (marshal_elems n1 n2 l +:+ "]" +:+ s) = Some (l, s).
Proof.
  revert fuel. induction l as [|p l IH]; intros fuel Hl Hf; [done|].
  destruct fuel as [|fuel]; cbn [length] in Hf; [lia|]. destruct l as [|p' l].
  - cbn [marshal_elems parse_elems]. rewrite parse_pair_app. cbn [mbind option_bind]. by rewrite expect_app.
  - set (l' := p' :: l) in *. change (marshal_elems n1 n2 (p :: l')) with
      (marshal_pair n1 n2 p +:+ "," +:+ marshal_elems n1 n2 l').
    rewrite !app_assoc_string. cbn [parse_elems]. rewrite parse_pair_app. cbn [mbind option_bind].
    change (expect "]" ("," +:+ marshal_elems n1 n2 l' +:+ "]" +:+ s)) with (@None string). cbv iota.
    rewrite expect_app. cbn [mbind option_bind]. by rewrite IH by (done || lia).
Qed.

Lemma length_append (a b : string) : String.length (a +:+ b) = (String.length a + String.length b)%nat.
Proof. induction a as [|x a IH]; [done|]. change (S (String.length (a +:+ b)) = S (String.length a + String.length b)). by rewrite IH. Qed.

Lemma marshal_elems_length n1 n2 l : (length l <= String.length (marshal_elems n1 n2 l))%nat.
Proof.
  induction l as [|p l IH]; [done|]. assert (1 <= String.length (marshal_pair n1 n2 p))%nat as Hp.
  { unfold marshal_pair. rewrite length_append. cbn. lia. }
  destruct l as [|p' l]; [done|]. set (l' := p' :: l) in *.
  change (marshal_elems n1 n2 (p :: l')) with (marshal_pair n1 n2 p +:+ "," +:+ marshal_elems n1 n2 l').
  rewrite !length_append. cbn [length]. lia.
Qed.

Lemma unmarshal_marshal_list n1 n2 l : unmarshal_list n1 n2 (marshal_list n1 n2 l) = Some l.
Proof.
  unfold unmarshal_list, marshal_list. rewrite expect_app. cbn [mbind option_bind].
  destruct l as [|p l]; [done|].
  assert (expect "]" (marshal_elems n1 n2 (p :: l) +:+ "]") = None) as ->.
  { cbn [marshal_elems]. by destruct l. }
  pose proof (parse_elems_app (String.length (marshal_elems n1 n2 (p :: l) +:+ "]")) n1 n2 (p :: l) "") as H.
  rewrite app_nil_string in H. rewrite H; [done|done|].
  rewrite length_append. pose proof (marshal_elems_length n1 n2 (p :: l)). lia.
Qed.
End Json.

Module KvTest.
Import Rpc.

(** ** Data *)

Record ClntRes := MkRes { Nok : Z; Nmaybe : Z }.
Record EntryV := MkEntryV { ev_Id : Z; ev_V : Tversion }.
(** [entry], which the clients write, and [EntryN], which the check reads. *)
Record EntryN := MkEntryN { en_Id : Z; en_N : Z }.

Definition marshal_EntryV (e : EntryV) : string := Json.marshal_pair "Id" "V" (ev_Id e, ev_V e).
Definition unmarshal_EntryV (s : string) : option EntryV :=
  (fun p => MkEntryV p.1 p.2) <$> Json.unmarshal_pair "Id" "V" s.
Definition marshal_entries (es : list EntryN) : string :=
  Json.marshal_list "Id" "N" ((fun e => (en_Id e, en_N e)) <$> es).
Definition unmarshal_entries (s : string) : option (list EntryN) :=
  (fun l : list (Z * Z) => (fun p => MkEntryN p.1 p.2) <$> l) <$> Json.unmarshal_list "Id" "N" s.

(** What GetJson makes of the clerk's answer. *)
Definition GetJson {A} (unmarshal : string -> option A) (r : GetReply) : res (A * Tversion) :=
  if decide (gr_Err r = OK) then
    match unmarshal (gr_Value r) with
    | Some v => Ret (v, gr_Version r)
    | None => Panic Fatal
    end
  else Panic Fatal.

(** *** Small helpers *)

Definition letterBytes : string := "abcdefghijklmnopqrstuvwxyzABCDEFGHIJKLMNOPQRSTUVWXYZ".
(** [rs] are the results of [rand.Int63()]. *)
Fixpoint RandValue (rs : list Z) : string :=
  match rs with
  | [] => ""
  | r :: rs =>
      String (default "000"%char (String.get (Z.to_nat (r mod Z.of_nat (String.length letterBytes))) letterBytes))
        (RandValue rs)
  end.

Definition MakeKeys (n : Z) : res (list string) :=
  if decide (0 <= n) then Ret ((fun i => "k" +:+ pretty i) <$> seqZ 0 n) else Panic MakeNegativeLen.

(** [answers] are the clerk's answers, call by call, to a Put at a version; the result is
    [None] as long as no answer ends the loop. *)
Fixpoint PutAtLeastOnce (answers : list (Tversion -> Err)) (ver : Tversion) : res (option Tversion) :=
  match answers with
  | [] => Ret None
  | a :: answers =>
      let err := a ver in
      if decide (err = OK) then Ret (Some (u64_add ver 1))
      else if decide (err = ErrMaybe \/ err = ErrVersion) then PutAtLeastOnce answers (u64_add ver 1)
      else if decide (ver <> 0) then Panic Fatal
      else PutAtLeastOnce answers ver
  end.
(** The version passed to PutJson is the constant 0. *)
Fixpoint PutAtLeastOnceJson (answers : list (Tversion -> Err)) (ver : Tversion) : option Tversion :=
  match answers with
  | [] => None
  | a :: answers =>
      if decide (a 0 <> ErrMaybe) then Some ver else PutAtLeastOnceJson answers (u64_add ver 1)
  end.

Definition CheckGet (value : string) (version : Tversion) (r : GetReply) : res unit :=
  if decide (gr_Err r <> OK) then Panic Fatal
  else if decide (gr_Value r <> value \/ gr_Version r <> version) then Panic Fatal
  else Ret tt.

(** One round of Partitioner: server [j] is on side [a[j]], which is [rand.Int() % 2]. *)
Definition partition_side (a : list Z) (i : Z) : list Z :=
  filter (fun j => a !! Z.to_nat j = Some i) (seqZ 0 (zlen a)).
Definition Partitioner_round {Svc} (a : list Z) (sg : Tester.ServerGrp Svc) (st : Tester.tstate Svc)
  : res (Tester.tstate Svc * Tester.ServerGrp Svc) :=
  Tester.Partition (partition_side a 0) (partition_side a 1) sg st.

(** ** The clients of a test

    SpawnClientsAndWait starts one goroutine per client.  A client is at the top of its
    loop, where it looks for the signal to stop, or waits for an attempt of a clerk's call;
    [Panic] is a client whose check failed. *)
Section system.
Context {S C : Type}.
(** [top None]: told to stop; [top (Some r)]: a new iteration, [r] being [rand.Int()]. *)
Context (top : option Z -> C -> res C) (attempt : LabRpc.delivery -> C -> S -> S * res C).
Context (allowed : LabRpc.delivery -> Prop).

Record state := MkState { server : S; clients : list (res C) }.

Inductive step : state -> state -> Prop :=
| step_top s cs i c d :
    cs !! i = Some (Ret c) ->
    step (MkState s cs) (MkState s (<[i := top d c]> cs))
| step_attempt s cs i c dl s' rc :
    cs !! i = Some (Ret c) -> allowed dl -> attempt dl c s = (s', rc) ->
    step (MkState s cs) (MkState s' (<[i := rc]> cs)).

(** SpawnClientsAndWait: the results, once every client has sent its own. *)
Definition spawn (s : S) (fresh : Z -> C) (nclnt : nat) : state :=
  MkState s ((fun i => Ret (fresh i)) <$> seqZ 0 (Z.of_nat nclnt)).
Definition wait_results (result : C -> option ClntRes) (cs : list (res C)) : option (list ClntRes) :=
  mapM (fun rc => match rc with Ret c => result c | Panic _ => None end) cs.
End system.
Arguments state : clear implicits.

Section clients.
Context {S : Type} `{!KVService S}.

(** *** OneClientPut *)

Inductive ppc :=
| PTop
| PPut (k : string) (ver : Tversion) (retry : bool)   (* in PutJson of OnePut *)
| PGet (k : string) (ver : Tversion) (err : Err)      (* in GetJson of OnePut *)
| PDone.

Record pclient := MkPc {
  p_me : Z;
  p_verm : gmap string Tversion;
  p_res : ClntRes;
  p_pc : ppc;
}.
Definition p_at (pc : ppc) (c : pclient) : pclient := MkPc (p_me c) (p_verm c) (p_res c) pc.
Definition new_pclient (ka : list string) (me : Z) : pclient :=
  MkPc me (list_to_map ((fun k => (k, 0)) <$> ka)) (MkRes 0 0) PTop.

Definition pick_key (randomkeys : bool) (r : Z) (ka : list string) : res string :=
  let! k := idx ka 0 in
  if randomkeys then idx ka (r mod zlen ka) else Ret k.

Definition put_top (randomkeys : bool) (ka : list string) (d : option Z) (c : pclient) : res pclient :=
  match p_pc c, d with
  | PTop, None => Ret (p_at PDone c)
  | PTop, Some r =>
      let! k := pick_key randomkeys r ka in
      Ret (p_at (PPut k (default 0 (p_verm c !! k)) false) c)
  | _, _ => Ret c
  end.

(** PutJson of OnePut has returned [err]. *)
Definition put_replied (c : pclient) (k : string) (ver : Tversion) (err : Err) : res pclient :=
  if decide (err = OK \/ err = ErrVersion \/ err = ErrMaybe) then Ret (p_at (PGet k ver err) c)
  else Panic Fatal.

(** OnePut returns [ver] and whether its Put was answered OK. *)
Definition put_done (c : pclient) (k : string) (ver : Tversion) (ok : bool) : pclient :=
  let r := p_res c in
  MkPc (p_me c) (<[k := ver]> (p_verm c))
    (if ok then MkRes (Nok r + 1) (Nmaybe r) else MkRes (Nok r) (Nmaybe r + 1)) PTop.

(** The Get of GetJson has been answered [r]. *)
Definition put_read (c : pclient) (k : string) (ver : Tversion) (err : Err) (r : GetReply) : res pclient :=
  let! (e, ver0) := GetJson unmarshal_EntryV r in
  if decide (err = OK /\ ver0 = u64_add ver 1 /\ ev_Id e <> p_me c /\ ev_V e <> ver) then Panic Fatal
  else if decide (err = OK \/ err = ErrMaybe) then Ret (put_done c k ver0 (bool_decide (err = OK)))
  else Ret (p_at (PPut k ver0 false) c).

Definition put_attempt (dl : LabRpc.delivery) (c : pclient) (s : S) : S * res pclient :=
  match p_pc c with
  | PPut k ver retry =>
      match LabRpc.deliver dl (svc_Put (MkPutArgs k (marshal_EntryV (MkEntryV (p_me c) ver)) ver)) s with
      | (s, None) => (s, Ret (p_at (PPut k ver true) c))
      | (s, Some r) => (s, put_replied c k ver (Clerk.reply_err retry r))
      end
  | PGet k ver err =>
      match LabRpc.deliver dl (svc_Get (MkGetArgs k)) s with
      | (s, None) => (s, Ret c)
      | (s, Some r) => (s, put_read c k ver err r)
      end
  | PTop | PDone => (s, Ret c)
  end.

Definition put_result (c : pclient) : option ClntRes :=
  match p_pc c with PDone => Some (p_res c) | _ => None end.

(** [r] is the answer to the Get; [acc] is [*res]. *)
Definition add_res (acc : ClntRes) (rs : list ClntRes) : ClntRes :=
  fold_left (fun a r => MkRes (Nok a + Nok r) (Nmaybe a + Nmaybe r)) rs acc.
Definition CheckPutConcurrent (r : GetReply) (rs : list ClntRes) (acc : ClntRes) (reliable : bool)
  : res ClntRes :=
  let! (_, ver0) := GetJson unmarshal_EntryV r in
  let acc := add_res acc rs in
  if reliable then if decide (ver0 <> wrap 64 (Nok acc)) then Panic Fatal else Ret acc
  else if decide (ver0 > wrap 64 (Nok acc + Nmaybe acc)) then Panic Fatal else Ret acc.

(** *** OneClientAppend *)

Inductive apc :=
| ATop
| AGet
| APut (es : list EntryN) (ver : Tversion) (retry : bool)
| ADone.

Record aclient := MkAc { a_me : Z; a_i : Z; a_nok : Z; a_nmay : Z; a_pc : apc }.
Definition a_at (pc : apc) (c : aclient) : aclient := MkAc (a_me c) (a_i c) (a_nok c) (a_nmay c) pc.
Definition new_aclient (me : Z) : aclient := MkAc me 0 0 0 ATop.

Definition append_top (d : option Z) (c : aclient) : res aclient :=
  match a_pc c, d with
  | ATop, None => Ret (a_at ADone c)
  | ATop, Some _ => Ret (a_at AGet c)
  | _, _ => Ret c
  end.

Definition append_read (c : aclient) (r : GetReply) : res aclient :=
  let! (es, ver) := GetJson unmarshal_entries r in
  Ret (a_at (APut (es ++ [MkEntryN (a_me c) (a_i c)]) ver false) c).

Definition append_replied (c : aclient) (err : Err) : aclient :=
  if decide (err = OK) then MkAc (a_me c) (a_i c + 1) (a_nok c + 1) (a_nmay c) ATop
  else if decide (err = ErrMaybe) then MkAc (a_me c) (a_i c + 1) (a_nok c) (a_nmay c + 1) ATop
  else a_at AGet c.

Definition append_attempt (dl : LabRpc.delivery) (c : aclient) (s : S) : S * res aclient :=
  match a_pc c with
  | AGet =>
      match LabRpc.deliver dl (svc_Get (MkGetArgs "k")) s with
      | (s, None) => (s, Ret c)
      | (s, Some r) => (s, append_read c r)
      end
  | APut es ver retry =>
      match LabRpc.deliver dl (svc_Put (MkPutArgs "k" (marshal_entries es) ver)) s with
      | (s, None) => (s, Ret (a_at (APut es ver true) c))
      | (s, Some r) => (s, Ret (append_replied c (Clerk.reply_err retry r)))
      end
  | ATop | ADone => (s, Ret c)
  end.

Definition append_result (c : aclient) : option ClntRes :=
  match a_pc c with ADone => Some (MkRes (a_nok c) (a_nmay c)) | _ => None end.
End clients.

(** *** CheckAppends *)

Definition get0 (m : gmap Z Z) (k : Z) : Z := default 0 (m !! k).

Fixpoint appends_loop (es : list EntryN) (expect skipped : gmap Z Z) : res (gmap Z Z * gmap Z Z) :=
  match es with
  | [] => Ret (expect, skipped)
  | e :: es =>
      let n := get0 expect (en_Id e) in
      if decide (n > en_N e) then Panic Fatal
      else if decide (n = en_N e) then appends_loop es (<[en_Id e := n + 1]> expect) skipped
      else
        appends_loop es (<[en_Id e := en_N e + 1]> expect)
          (<[en_Id e := get0 skipped (en_Id e) + (en_N e - n)]> skipped)
  end.

(** One element of [expect]. *)
Definition check_one (skipped : gmap Z Z) (rs : list ClntRes) (c n : Z) : res unit :=
  let! r := idx rs c in
  if decide (get0 skipped c > Nmaybe r) then Panic Fatal
  else if decide (n > Nok r + Nmaybe r) then Panic Fatal
  else Ret tt.

Definition CheckAppends (es : list EntryN) (nclnt : Z) (rs : list ClntRes) (ver : Tversion) : res unit :=
  let zeros : gmap Z Z := list_to_map ((fun i => (i, 0)) <$> seqZ 0 nclnt) in
  let! (expect, skipped) := appends_loop es zeros zeros in
  if decide (zlen es + 1 <> ver) then Panic Fatal
  else
    map_fold (fun c n acc => let! _ := acc in check_one skipped rs c n) (Ret tt) expect.

(** ** Lemmas *)

Lemma unmarshal_marshal_EntryV e : unmarshal_EntryV (marshal_EntryV e) = Some e.
Proof. unfold unmarshal_EntryV, marshal_EntryV. rewrite Json.unmarshal_marshal_pair. by destruct e. Qed.

Lemma unmarshal_marshal_entries es : unmarshal_entries (marshal_entries es) = Some es.
Proof.
  unfold unmarshal_entries, marshal_entries. rewrite Json.unmarshal_marshal_list. cbn [fmap option_fmap option_map].
  f_equal. induction es as [|[i n] es IH]; [done|]. rewrite !fmap_cons, IH. done.
Qed.

Lemma reply_err_cases retry e :
  Clerk.reply_err retry (MkPutReply e) = if decide (e = ErrVersion /\ retry = true) then ErrMaybe else e.
Proof.
  unfold Clerk.reply_err. cbn [pr_Err]. case_decide as H.
  - destruct H as [-> ->]. by rewrite bool_decide_true.
  - case_bool_decide; [|done]. destruct retry; [|done]. naive_solver.
Qed.

(** *** Puts to one key *)

Section puts.
Context {S : Type} `{!KVService S} `{!KVServiceLaws S} (key : string).
Implicit Types (s : S) (c : pclient).

Lemma put_cases s v ver :
  0 <= version s key < 2 ^ 64 - 1 ->
  (version s key = ver /\ exists s', svc_Put (MkPutArgs key v ver) s = (s', MkPutReply OK) /\
     svc_lookup s' key = Some (v, ver + 1) /\ version s' key = ver + 1) \/
  (version s key <> ver /\ svc_Put (MkPutArgs key v ver) s =
     (s, MkPutReply (if svc_lookup s key is Some _ then ErrVersion else ErrNoKey))).
Proof.
  intros Hb. destruct (decide (version s key = ver)) as [E|E]; [left|right]; (split; [done|]).
  - destruct (law_Put_ok (MkPutArgs key v ver) s E) as [HOK Hl].
    destruct (svc_Put _ s) as [s' r] eqn:Ep. cbn [fst snd pa_Key pa_Value pa_Version] in *.
    exists s'. subst r. specialize (Hl key). rewrite decide_True in Hl by done.
    rewrite u64_add_small in Hl by lia. unfold version. by rewrite Hl.
  - apply (law_Put_fail (MkPutArgs key v ver) s E).
Qed.

Definition store_ok s : Prop :=
  (svc_lookup s key = None /\ version s key = 0) \/
  (exists e, svc_lookup s key = Some (marshal_EntryV e, version s key) /\ 1 <= version s key).

Lemma GetJson_store s :
  store_ok s -> 1 <= version s key ->
  exists e, svc_lookup s key = Some (marshal_EntryV e, version s key) /\
    svc_Get (MkGetArgs key) s = (s, MkGetReply (marshal_EntryV e) (version s key) OK) /\
    GetJson unmarshal_EntryV (MkGetReply (marshal_EntryV e) (version s key) OK) = Ret (e, version s key).
Proof.
  intros [[_ H]|(e & He & _)] Hv; [lia|]. exists e. split; [done|]. split.
  - by apply (law_Get_found (MkGetArgs key)).
  - unfold GetJson. cbn [gr_Err gr_Value gr_Version]. by rewrite decide_True, unmarshal_marshal_EntryV.
Qed.

Record pc_ok (lossless : bool) s c : Prop := {
  po_nok : 0 <= Nok (p_res c);
  po_nmaybe : 0 <= Nmaybe (p_res c) /\ (lossless = true -> Nmaybe (p_res c) = 0);
  po_verm : 0 <= default 0 (p_verm c !! key) <= version s key;
  po_pc : match p_pc c with
    | PTop | PDone => True
    | PPut k ver retry => k = key /\ 0 <= ver <= version s key /\ (lossless = true -> retry = false)
    | PGet k ver err =>
        k = key /\ 0 <= ver /\ 1 <= version s key /\ (lossless = true -> err <> ErrMaybe) /\
        (err = OK -> ver < version s key /\
           (version s key = ver + 1 ->
            svc_lookup s key = Some (marshal_EntryV (MkEntryV (p_me c) ver), version s key)))
    end;
}.

(** How many of the store's Puts the client can be sure of, and how many may be its own. *)
Definition lo c : Z :=
  Nok (p_res c) + match p_pc c with PGet _ _ err => if decide (err = OK) then 1 else 0 | _ => 0 end.
Definition hi s c : Z :=
  Nok (p_res c) + Nmaybe (p_res c) +
  match p_pc c with
  | PGet _ _ err => if decide (err = OK \/ err = ErrMaybe) then 1 else 0
  | PPut _ ver true => if decide (ver < version s key) then 1 else 0
  | _ => 0
  end.
Definition total c : Z := Nok (p_res c) + Nmaybe (p_res c).

(** The store may have taken one step: the key is the same or has the next version. *)
Definition grows s s' : Prop :=
  svc_lookup s' key = svc_lookup s key \/ version s' key = version s key + 1.

Lemma grows_version s s' : grows s s' -> version s key <= version s' key <= version s key + 1.
Proof. intros [H|H]; [unfold version; rewrite H|]; lia. Qed.

Lemma pc_ok_grows ll s s' c : grows s s' -> pc_ok ll s c -> pc_ok ll s' c.
Proof.
  intros Hg [H1 H2 H3 H4]. pose proof (grows_version s s' Hg) as Hv. split; [done|done|lia|].
  destruct (p_pc c) as [|k ver retry|k ver err|]; [done| | |done].
  - destruct H4 as (?&?&?). split_and!; [done|lia|lia|done].
  - destruct H4 as (?&?&?&?&H4). split_and!; [done|lia|lia|done|]. intros Herr. destruct (H4 Herr) as [Hlt Hval].
    split; [lia|]. intros Heq. destruct Hg as [Hg|Hg]; [|lia].
    assert (version s' key = version s key) as Hsame by (unfold version; by rewrite Hg).
    rewrite Hg, Hsame in *. auto.
Qed.

Lemma hi_grows s s' c : grows s s' -> hi s c <= hi s' c.
Proof.
  intros Hg%grows_version. unfold hi. destruct (p_pc c) as [|k ver []|k ver err|]; try lia.
  repeat case_decide; lia.
Qed.

(** What one attempt of a client does. *)
Definition step_ok (ll : bool) s c s' (rc : res pclient) : Prop :=
  grows s s' /\ store_ok s' /\
  exists c', rc = Ret c' /\ pc_ok ll s' c' /\
    lo c' - lo c <= version s' key - version s key <= hi s' c' - hi s c /\
    total c' <= total c + 1.

Lemma step_ok_intro ll s c s' pc :
  pc_ok ll s c -> grows s s' -> store_ok s' -> pc_ok ll s' (p_at pc c) ->
  lo (p_at pc c) - lo c <= version s' key - version s key <= hi s' (p_at pc c) - hi s c ->
  step_ok ll s c s' (Ret (p_at pc c)).
Proof.
  intros Hok Hg Hs Hc Hlh. split_and!; [done|done|]. exists (p_at pc c). split_and!; try done; try lia.
  change (total (p_at pc c)) with (total c). lia.
Qed.

(** The client's record after an attempt, with another place in its code. *)
Lemma pc_ok_at ll s s' c pc :
  pc_ok ll s c -> grows s s' ->
  match pc with
  | PTop | PDone => True
  | PPut k ver retry => k = key /\ 0 <= ver <= version s' key /\ (ll = true -> retry = false)
  | PGet k ver err =>
      k = key /\ 0 <= ver /\ 1 <= version s' key /\ (ll = true -> err <> ErrMaybe) /\
      (err = OK -> ver < version s' key /\
         (version s' key = ver + 1 ->
          svc_lookup s' key = Some (marshal_EntryV (MkEntryV (p_me c) ver), version s' key)))
  end -> pc_ok ll s' (p_at pc c).
Proof. intros [H1 H2 H3 _] Hg%grows_version Hpc. split; [done|done|cbn; lia|done]. Qed.

Ltac same_store := by left.

Lemma put_put_ok ll dl c s s' rc ver retry :
  0 <= version s key < 2 ^ 64 - 1 -> store_ok s -> pc_ok ll s c -> p_pc c = PPut key ver retry ->
  (ll = true -> dl = LabRpc.Delivered) -> put_attempt dl c s = (s', rc) -> step_ok ll s c s' rc.
Proof.
  intros Hb Hst Hok Hpc Hll. pose proof Hok as [_ _ _ H4]. rewrite Hpc in H4.
  destruct H4 as (_ & Hver & Hr). unfold put_attempt. rewrite Hpc.
  assert (forall pc, pc = PPut key ver true -> dl <> LabRpc.Delivered -> step_ok ll s c s (Ret (p_at pc c))) as Hlost.
  { intros pc -> Hdl. apply step_ok_intro; [done|same_store|done| |].
    - apply (pc_ok_at ll s); [done|same_store|]. split_and!; [done|lia|lia|]. intros Hl. by destruct Hdl, Hll.
    - unfold lo, hi. rewrite Hpc. cbn [p_at p_pc p_res]. destruct retry; repeat case_decide; lia. }
  destruct (put_cases s (marshal_EntryV (MkEntryV (p_me c) ver)) ver Hb) as
    [(Hv & s1 & Hput & Hl1 & Hv1)|(Hv & Hput)].
  - assert (grows s s1) as Hg by (right; lia).
    assert (store_ok s1) as Hst1 by (right; exists (MkEntryV (p_me c) ver); rewrite Hv1; split; [done|lia]).
    destruct dl; cbn [LabRpc.deliver]; rewrite ?Hput; cbn [fst].
    + intros [= <- <-]. by apply Hlost.
    + intros [= <- <-]. apply step_ok_intro; [done|done|done| |].
      * apply (pc_ok_at ll s); [done|done|]. split_and!; [done|lia|lia|]. intros Hl. by specialize (Hll Hl).
      * unfold lo, hi. rewrite Hpc. cbn [p_at p_pc p_res]. destruct retry; repeat case_decide; lia.
    + rewrite reply_err_cases, decide_False by naive_solver. unfold put_replied. rewrite decide_True by auto.
      intros [= <- <-]. apply step_ok_intro; [done|done|done| |].
      * apply (pc_ok_at ll s); [done|done|]. split_and!; [done|lia|lia|done|]. intros _. rewrite Hv1. split; [lia|].
        intros _. done.
      * unfold lo, hi. rewrite Hpc. cbn [p_at p_pc p_res]. rewrite !decide_True by auto.
        destruct retry; repeat case_decide; lia.
  - destruct Hst as [[Hno H0]|(e & He & H1)]; [lia|].
    destruct dl; cbn [LabRpc.deliver]; rewrite ?Hput; cbn [fst].
    1,2: intros [= <- <-]; by apply Hlost.
    rewrite He, reply_err_cases. unfold put_replied. rewrite decide_True by (case_decide; auto).
    intros [= <- <-]. apply step_ok_intro; [done|same_store|by right; eauto| |].
    + apply (pc_ok_at ll s); [done|same_store|]. split_and!; [done|lia|lia| |].
      * intros Hl. rewrite decide_False; [done|]. intros [_ Hrt]. by rewrite Hr in Hrt.
      * case_decide; done.
    + unfold lo, hi. rewrite Hpc. cbn [p_at p_pc p_res].
      destruct retry; [rewrite (decide_True (P := ErrVersion = ErrVersion /\ true = true)) by done
                      |rewrite (decide_False (P := ErrVersion = ErrVersion /\ false = true)) by naive_solver];
        repeat case_decide; naive_solver lia.
Qed.

Lemma put_get_ok ll dl c s s' rc ver err :
  0 <= version s key < 2 ^ 64 - 1 -> store_ok s -> pc_ok ll s c -> p_pc c = PGet key ver err ->
  put_attempt dl c s = (s', rc) -> step_ok ll s c s' rc.
Proof.
  intros Hb Hst Hok Hpc. pose proof Hok as [N1 [N2 N3] _ H4]. rewrite Hpc in H4.
  destruct H4 as (_ & H0 & H1 & Hmb & Hval). unfold put_attempt. rewrite Hpc.
  destruct (GetJson_store s Hst H1) as (e & He & Hget & Hjson).
  assert (step_ok ll s c s (Ret c)) as Hsame.
  { split_and!; [same_store|done|]. exists c. split_and!; try done; lia. }
  destruct dl; cbn [LabRpc.deliver]; rewrite ?Hget; cbn [fst]; [by intros [= <- <-]..|].
  unfold put_read. rewrite Hjson. cbn [res_bind]. rewrite decide_False.
  2:{ intros (-> & Heq & Hid & _). destruct (Hval eq_refl) as [Hlt Hv]. rewrite u64_add_small in Heq by lia.
      specialize (Hv Heq). rewrite He in Hv.
      apply (f_equal (fun o => o ≫= (fun p => unmarshal_EntryV p.1))) in Hv. cbn [mbind option_bind fst] in Hv.
      rewrite !unmarshal_marshal_EntryV in Hv. apply Hid. by injection Hv as ->. }
  case_decide as Hc; intros [= <- <-].
  - split_and!; [same_store|done|]. eexists. split; [done|]. split_and!.
    + split; cbn [put_done p_res p_verm p_pc]; [case_bool_decide; cbn; lia| |by rewrite lookup_insert_eq; cbn; lia|done].
      case_bool_decide as Ho; cbn [Nmaybe]; [done|]. split; [lia|]. intros Hl. destruct Hc as [?|Hc]; [done|].
      by destruct (Hmb Hl).
    + unfold lo. rewrite Hpc. cbn [put_done p_res p_pc]. case_bool_decide; case_decide; cbn [Nok]; lia || done.
    + unfold hi. rewrite Hpc. cbn [put_done p_res p_pc]. rewrite decide_True by done.
      case_bool_decide; cbn [Nok Nmaybe]; lia.
    + unfold total. cbn [put_done p_res]. case_bool_decide; cbn [Nok Nmaybe]; lia.
  - apply step_ok_intro; [done|same_store|done| |].
    + apply (pc_ok_at ll s); [done|same_store|]. split_and!; [done|lia|lia|done].
    + unfold lo, hi. rewrite Hpc. cbn [p_at p_pc p_res]. rewrite !decide_False by tauto. lia.
Qed.

Lemma put_attempt_ok ll dl c s s' rc :
  0 <= version s key < 2 ^ 64 - 1 -> store_ok s -> pc_ok ll s c ->
  (ll = true -> dl = LabRpc.Delivered) -> put_attempt dl c s = (s', rc) -> step_ok ll s c s' rc.
Proof.
  intros Hb Hst Hok Hll Ha. pose proof (po_pc _ _ _ Hok) as H4.
  destruct (p_pc c) as [|k ver retry|k ver err|] eqn:Hpc.
  2:{ destruct H4 as (-> & _). by eapply put_put_ok. }
  2:{ destruct H4 as (-> & _). by eapply put_get_ok. }
  all: unfold put_attempt in Ha; rewrite Hpc in Ha; injection Ha as <- <-; (split_and!; [same_store|done|]);
    exists c; split_and!; try done; lia.
Qed.
End puts.

Section put_runs.
Context {S : Type} `{!KVService S} `{!KVServiceLaws S} (key : string).

Definition on {C} (f : C -> Z) (rc : res C) : Z := match rc with Ret c => f c | Panic _ => 0 end.

Record put_inv (ll : bool) (n : Z) (st : state S pclient) : Prop := {
  pi_ver : 0 <= version (server st) key <= n;
  pi_store : store_ok key (server st);
  pi_client : forall i rc, clients st !! i = Some rc -> exists c, rc = Ret c /\ pc_ok key ll (server st) c;
  pi_lo : zsum (on lo) (clients st) <= version (server st) key;
  pi_hi : version (server st) key <= zsum (on (hi key (server st))) (clients st);
  pi_total : zsum (on total) (clients st) <= n;
}.

Lemma put_inv_update ll n s cs i c s' rc :
  put_inv ll n (MkState s cs) -> cs !! i = Some (Ret c) -> step_ok key ll s c s' rc ->
  put_inv ll (n + 1) (MkState s' (<[i := rc]> cs)).
Proof.
  intros [Hv Hs Hc Hlo Hhi Ht] Hi (Hg & Hs' & c' & -> & Hok & Hlh & Htot). cbn [server clients] in *.
  pose proof (grows_version key s s' Hg) as Hv'. split; cbn [server clients].
  - lia.
  - done.
  - intros j rc [(<- & <- & _)|[Hj Hrc]]%list_lookup_insert_Some; [by exists c'|].
    destruct (Hc j rc Hrc) as (d & -> & Hd). exists d. split; [done|]. by eapply pc_ok_grows.
  - rewrite (zsum_insert _ _ _ _ _ Hi). cbn [on]. lia.
  - rewrite (zsum_insert _ _ _ _ _ Hi). cbn [on].
    assert (zsum (on (hi key s)) cs - hi key s c <= zsum (on (hi key s')) cs - hi key s' c); [|lia].
    pose proof (zsum_insert (on (hi key s)) cs i _ (Panic Fatal) Hi) as E1.
    pose proof (zsum_insert (on (hi key s')) cs i _ (Panic Fatal) Hi) as E2.
    assert (zsum (on (hi key s)) (<[i := Panic Fatal]> cs) <= zsum (on (hi key s')) (<[i := Panic Fatal]> cs)) as Hle.
    { apply zsum_le. intros [d|] _; [|done]. by apply hi_grows. }
    rewrite E1, E2 in Hle. cbn [on] in Hle. lia.
  - rewrite (zsum_insert _ _ _ _ _ Hi). cbn [on]. lia.
Qed.

Lemma pick_single randomkeys r : pick_key randomkeys r [key] = Ret key.
Proof.
  unfold pick_key. cbn [res_bind idx]. destruct randomkeys; [|done].
  change (zlen [key]) with 1. by rewrite Z.mod_1_r.
Qed.

Lemma put_top_ok ll randomkeys d c s rc :
  store_ok key s -> pc_ok key ll s c -> put_top randomkeys [key] d c = rc -> step_ok key ll s c s rc.
Proof.
  intros Hs Hok <-. pose proof (po_verm _ _ _ _ Hok) as Hvm.
  assert (step_ok key ll s c s (Ret c)) as Hsame.
  { split_and!; [by left|done|]. exists c. split_and!; try done; lia. }
  unfold put_top. destruct (p_pc c) eqn:Hpc; try done. destruct d as [r|].
  - rewrite pick_single. cbn [res_bind]. apply step_ok_intro; [done|by left|done| |].
    + apply (pc_ok_at _ _ s); [done|by left|]. split_and!; [done|lia|lia|done].
    + unfold lo, hi. rewrite Hpc. cbn [p_at p_pc p_res]. lia.
  - apply step_ok_intro; [done|by left|done| |].
    + by apply (pc_ok_at _ _ s); [|left|].
    + unfold lo, hi. rewrite Hpc. cbn [p_at p_pc p_res]. lia.
Qed.

(** In a run without losses every attempt is delivered. *)
Definition lossy (ll : bool) (dl : LabRpc.delivery) : Prop := ll = true -> dl = LabRpc.Delivered.

Lemma put_inv_spawn ll s nclnt :
  svc_lookup s key = None -> put_inv ll 0 (spawn s (new_pclient [key]) nclnt).
Proof.
  intros Hno. assert (version s key = 0) as Hv by (unfold version; by rewrite Hno).
  assert (forall f rc, rc ∈ (fun i => Ret (new_pclient [key] i)) <$> seqZ 0 (Z.of_nat nclnt) ->
    (forall i, f (new_pclient [key] i) = 0) -> on f rc = 0) as Hz.
  { intros f rc (i & -> & _)%list_elem_of_fmap Hf. apply Hf. }
  split; cbn [spawn server clients]; rewrite ?Hv.
  - lia.
  - left. done.
  - intros i rc (x & -> & _)%list_lookup_fmap_Some. eexists. split; [done|].
    split; cbn; try done; try lia. rewrite Hv. destruct (decide (key = key)); [|done].
    rewrite lookup_insert_eq. cbn. lia.
  - rewrite zsum_zero; [done|]. intros rc Hrc. by apply Hz.
  - rewrite zsum_zero; [done|]. intros rc Hrc. by apply Hz.
  - rewrite zsum_zero; [done|]. intros rc Hrc. by apply Hz.
Qed.

Lemma put_inv_run ll randomkeys nclnt n s0 st :
  svc_lookup s0 key = None -> Z.of_nat n < 2 ^ 63 ->
  nsteps (step (put_top randomkeys [key]) put_attempt (lossy ll)) n (spawn s0 (new_pclient [key]) nclnt) st ->
  put_inv ll (Z.of_nat n) st.
Proof.
  intros Hno Hn Hrun. eapply (nsteps_invariant _ (put_inv ll) (2 ^ 63 - 1));
    [by apply put_inv_spawn| |done|lia].
  intros k st1 st2 Hk Hinv Hstep. pose proof (pi_ver _ _ _ Hinv) as Hver.
  destruct Hstep as [s cs i c d Hi|s cs i c dl s' rc Hi Hdl Ha]; cbn [server] in *;
    destruct (pi_client _ _ _ Hinv i _ Hi) as (c0 & [= <-] & Hok).
  - eapply put_inv_update; [done|done|]. eapply put_top_ok; [|done|done]. apply (pi_store _ _ _ Hinv).
  - eapply put_inv_update; [done|done|].
    eapply put_attempt_ok; [|apply (pi_store _ _ _ Hinv)|done|done|done]. cbn [server] in *. lia.
Qed.

(** The results of clients that are done. *)
Lemma wait_results_sum {C} (result : C -> option ClntRes) (f : C -> Z) (g : ClntRes -> Z) cs rs :
  wait_results result cs = Some rs ->
  (forall c r, Ret c ∈ cs -> result c = Some r -> f c = g r) -> zsum (on f) cs = zsum g rs.
Proof.
  unfold wait_results. intros H%mapM_Some. induction H as [|rc r cs rs Hr H IH]; intros Hf; [done|].
  rewrite !zsum_cons. rewrite IH by (intros c' r' ?; apply Hf; by right).
  destruct rc as [c|]; [|done]. cbn [on]. by rewrite (Hf c r) by (done || left).
Qed.

Lemma add_res_sum acc rs :
  Nok (add_res acc rs) = Nok acc + zsum Nok rs /\ Nmaybe (add_res acc rs) = Nmaybe acc + zsum Nmaybe rs.
Proof.
  revert acc. induction rs as [|r rs IH]; intros acc; [cbn; lia|]. cbn [add_res fold_left].
  rewrite !zsum_cons. destruct (IH (MkRes (Nok acc + Nok r) (Nmaybe acc + Nmaybe r))) as [E1 E2].
  unfold add_res in *. rewrite E1, E2. cbn. lia.
Qed.

End put_runs.

(** *** Appends *)

Section appends.
Context {S : Type} `{!KVService S} `{!KVServiceLaws S}.
Implicit Types (s : S) (c : aclient) (es : list EntryN).

(** The store holds the list [es]: one version per entry, after the first Put of the
    empty list. *)
Definition astore es s : Prop := svc_lookup s "k" = Some (marshal_entries es, zlen es + 1).

(** The numbers client [me] has in the list. *)
Definition mine es (me : Z) : list Z := en_N <$> filter (fun e => en_Id e = me) es.

Lemma mine_app es e me :
  mine (es ++ [e]) me = mine es me ++ (if decide (en_Id e = me) then [en_N e] else []).
Proof.
  unfold mine. rewrite filter_app, fmap_app, filter_cons, filter_nil. by case_decide.
Qed.

Record ac_ok es c : Prop := {
  ac_sum : a_nok c + a_nmay c = a_i c;
  ac_pos : 0 <= a_nok c /\ 0 <= a_nmay c;
  ac_sorted : StronglySorted Z.lt (mine es (a_me c));
  ac_nonneg : Forall (Z.le 0) (mine es (a_me c));
  ac_count : a_nok c <= zlen (mine es (a_me c));
  ac_at : match a_pc c with
    | APut es' ver retry =>
        1 <= ver <= zlen es + 1 /\
        (ver = zlen es + 1 -> es' = es ++ [MkEntryN (a_me c) (a_i c)]) /\
        Forall (fun x => x < a_i c + 1) (mine es (a_me c)) /\
        (retry = false \/ ver = zlen es + 1 -> Forall (fun x => x < a_i c) (mine es (a_me c)))
    | _ => Forall (fun x => x < a_i c) (mine es (a_me c))
    end;
}.

Lemma sorted_snoc (l : list Z) x :
  StronglySorted Z.lt l -> Forall (fun y => y < x) l -> StronglySorted Z.lt (l ++ [x]).
Proof.
  induction 1 as [|y l Hs IH Hy]; intros Hall; cbn; [repeat constructor|].
  apply Forall_cons in Hall as [Hyx Hall]. constructor; [by apply IH|].
  apply Forall_app. split; [done|]. by constructor.
Qed.

Lemma below_mono (l : list Z) x y : x <= y -> Forall (fun z => z < x) l -> Forall (fun z => z < y) l.
Proof. intros Hxy H. eapply Forall_impl; [done|]. cbn. lia. Qed.

(** The list another client's attempt leaves. *)
Lemma ac_ok_other es e c : en_Id e <> a_me c -> ac_ok es c -> ac_ok (es ++ [e]) c.
Proof.
  intros Hne [H1 H2 H3 H4 H5 H6].
  assert (mine (es ++ [e]) (a_me c) = mine es (a_me c)) as Hm
    by (rewrite mine_app, decide_False by done; apply app_nil_r).
  split; rewrite ?Hm; try done. destruct (a_pc c) as [| |es' ver retry|]; try done.
  destruct H6 as (Hv & He & Hw & Hf). rewrite zlen_app, zlen_cons, zlen_nil. split_and!; [lia|lia|lia|done|].
  intros [->|?]; [by apply Hf; left|lia].
Qed.

Lemma astore_version es s : astore es s -> version s "k" = zlen es + 1.
Proof. unfold astore, version. by intros ->. Qed.

Lemma append_get_ok dl es c s s' rc :
  astore es s -> ac_ok es c -> a_pc c = AGet -> append_attempt dl c s = (s', rc) ->
  s' = s /\ exists c', rc = Ret c' /\ a_me c' = a_me c /\ ac_ok es c'.
Proof.
  intros Hst Hok Hpc. pose proof Hok as [H1 H2 H3 H4 H5 H6]. rewrite Hpc in H6.
  pose proof (zlen_nonneg es). unfold append_attempt. rewrite Hpc.
  pose proof (law_Get_found (MkGetArgs "k") s _ _ Hst) as Hg.
  destruct dl; cbn [LabRpc.deliver]; rewrite ?Hg; cbn [fst].
  1,2: intros [= <- <-]; split; [done|]; by exists c.
  unfold append_read, GetJson. cbn [gr_Err gr_Value gr_Version]. rewrite decide_True by done.
  rewrite unmarshal_marshal_entries. cbn [res_bind]. intros [= <- <-]. split; [done|]. eexists. split; [done|].
  split; [done|]. split; try done. cbn [a_pc a_at a_me a_i]. split_and!; [lia|lia|done| |done].
  apply (below_mono _ (a_i c)); [lia|done].
Qed.

Lemma append_put_ok dl es c s s' rc es0 ver retry :
  astore es s -> zlen es + 1 < 2 ^ 64 - 1 -> ac_ok es c -> a_pc c = APut es0 ver retry ->
  append_attempt dl c s = (s', rc) ->
  exists es' c', rc = Ret c' /\ a_me c' = a_me c /\ astore es' s' /\ ac_ok es' c' /\
    (es' = es \/ exists x, es' = es ++ [MkEntryN (a_me c) x]).
Proof.
  intros Hst Hb Hok Hpc. pose proof Hok as [H1 [H2 H2'] H3 H4 H5 H6]. rewrite Hpc in H6.
  destruct H6 as (Hv & He & Hw & Hf). pose proof (astore_version es s Hst) as Hver.
  unfold append_attempt. rewrite Hpc.
  destruct (put_cases "k" s (marshal_entries es0) ver) as
    [(Hvv & s1 & Hput & Hl1 & _)|(Hvv & Hput)]; [lia| |].
  - rewrite Hver in Hvv. symmetry in Hvv. specialize (He Hvv). specialize (Hf (or_intror Hvv)).
    assert (astore es0 s1) as Hst1.
    { unfold astore. rewrite Hl1, He, zlen_app, zlen_cons, zlen_nil. do 2 f_equal. lia. }
    assert (mine es0 (a_me c) = mine es (a_me c) ++ [a_i c]) as Hm.
    { rewrite He, mine_app. cbn [en_Id en_N]. by rewrite decide_True. }
    assert (forall pc ok, let c' := MkAc (a_me c) (a_i c + 1) (a_nok c + ok) (a_nmay c + (1 - ok)) pc in
      pc = ATop -> 0 <= ok <= 1 -> ac_ok es0 c') as Hdone.
    { intros pc ok c' -> Hk. assert (0 <= a_i c) by lia.
      split; subst c'; cbn [a_me a_i a_nok a_nmay a_pc]; rewrite ?Hm, ?zlen_app, ?zlen_cons, ?zlen_nil; try lia.
      - by apply sorted_snoc.
      - apply Forall_app. split; [done|]. by constructor.
      - apply Forall_app. split; [by apply (below_mono _ (a_i c)); [lia|]|]. constructor; [lia|done]. }
    destruct dl; cbn [LabRpc.deliver]; rewrite ?Hput; cbn [fst].
    + intros [= <- <-]. exists es. eexists. split; [done|]. split_and!; [done|done| |by left].
      split; try done; cbn [a_pc a_at a_me a_i]; split_and!; try done; lia.
    + intros [= <- <-]. exists es0. eexists. split; [done|]. split_and!; [done|done| |by right; exists (a_i c)].
      destruct (Hdone ATop 0 eq_refl ltac:(lia)) as [E1 E2 E3 E4 E5 E6]. cbn [a_me a_i a_nok a_nmay a_pc] in *.
      split; cbn [a_pc a_at a_me a_i a_nok a_nmay]; [done|done|done|done|lia|].
      assert (zlen es0 = zlen es + 1) as Hlen by (rewrite He, zlen_app, zlen_cons, zlen_nil; lia).
      split_and!; [lia|lia|lia|done|]. intros [?|?]; [done|lia].
    + rewrite reply_err_cases, decide_False by naive_solver. intros [= <- <-].
      exists es0. eexists. split; [done|]. unfold append_replied. rewrite decide_True by done.
      split_and!; [done|done| |by right; exists (a_i c)].
      pose proof (Hdone ATop 1 eq_refl ltac:(lia)) as Hd. cbn in Hd. by rewrite Z.add_0_r in Hd.
  - rewrite Hver in Hvv.
    destruct dl; cbn [LabRpc.deliver]; rewrite ?Hput; cbn [fst].
    1,2: intros [= <- <-]; exists es; eexists; split; [done|]; (split_and!; [done|done| |by left]);
      (split; try done); cbn [a_pc a_at a_me a_i]; (split_and!; try done; first [lia|intros ?; exfalso; lia|intros [?|?]; [done|lia]]).
    rewrite Hst, reply_err_cases. unfold append_replied. rewrite (decide_False (P := _ = OK)) by (by case_decide).
    intros [= <- <-]. exists es. eexists. split; [done|]. split_and!; [by repeat case_decide|done| |by left].
    destruct retry.
    + rewrite decide_True by (by rewrite decide_True). split; cbn [a_me a_i a_nok a_nmay a_pc]; try done; lia.
    + rewrite decide_False by (by rewrite decide_False by naive_solver). split; try done.
      cbn [a_pc a_at a_me a_i]. apply Hf. by left.
Qed.
End appends.

Lemma mine_cons e es me :
  mine (e :: es) me = (if decide (en_Id e = me) then [en_N e] else []) ++ mine es me.
Proof. unfold mine. rewrite filter_cons. by case_decide. Qed.

Lemma get0_insert m k v j : get0 (<[k := v]> m) j = if decide (k = j) then v else get0 m j.
Proof. unfold get0. rewrite lookup_insert. by case_decide. Qed.

(** The loop of CheckAppends on a list in which every client's numbers increase. *)
Lemma appends_loop_spec es expect skipped :
  (forall id, StronglySorted Z.lt (mine es id)) ->
  (forall id, Forall (Z.le (get0 expect id)) (mine es id)) ->
  exists expect' skipped', appends_loop es expect skipped = Ret (expect', skipped') /\
    (forall id, get0 expect' id - get0 skipped' id =
       get0 expect id - get0 skipped id + zlen (mine es id)) /\
    (forall id b, get0 expect id <= b -> Forall (fun x => x < b) (mine es id) -> get0 expect' id <= b) /\
    (forall id, id ∈ dom expect' -> id ∈ dom expect \/ exists e, e ∈ es /\ en_Id e = id).
Proof.
  revert expect skipped. induction es as [|e es IH]; intros expect skipped Hs Hlow; cbn [appends_loop].
  { exists expect, skipped. split_and!; [done| |done|by left]. intros id. change (mine [] id) with (@nil Z). rewrite zlen_nil. lia. }
  set (n := get0 expect (en_Id e)).
  assert (n <= en_N e) as Hn.
  { specialize (Hlow (en_Id e)). rewrite mine_cons, decide_True in Hlow by done. by apply Forall_inv in Hlow. }
  rewrite decide_False by lia.
  assert (forall id, StronglySorted Z.lt (mine es id)) as Hs'.
  { intros id. specialize (Hs id). rewrite mine_cons in Hs. case_decide; [|done]. by apply StronglySorted_inv in Hs as [? _]. }
  assert (forall id, Forall (Z.le (get0 (<[en_Id e := en_N e + 1]> expect) id)) (mine es id)) as Hlow'.
  { intros id. rewrite get0_insert. specialize (Hs id). specialize (Hlow id). rewrite mine_cons in Hs, Hlow.
    case_decide as Hid; [|done]. apply StronglySorted_inv in Hs as [_ Hs]. eapply Forall_impl; [done|]. cbn. lia. }
  assert (forall skipped1 expect1, expect1 = <[en_Id e := en_N e + 1]> expect ->
    (forall id, get0 skipped1 id = if decide (en_Id e = id) then get0 skipped id + (en_N e - n) else get0 skipped id) ->
    exists expect' skipped', appends_loop es expect1 skipped1 = Ret (expect', skipped') /\
    (forall id, get0 expect' id - get0 skipped' id =
       get0 expect id - get0 skipped id + zlen (mine (e :: es) id)) /\
    (forall id b, get0 expect id <= b -> Forall (fun x => x < b) (mine (e :: es) id) -> get0 expect' id <= b) /\
    (forall id, id ∈ dom expect' -> id ∈ dom expect \/ exists e', e' ∈ e :: es /\ en_Id e' = id)) as Hgen.
  { intros sk1 ex1 -> Hsk. destruct (IH (<[en_Id e := en_N e + 1]> expect) sk1 Hs' Hlow') as (ex' & sk' & -> & E1 & E2 & E3).
    exists ex', sk'. split_and!; [done| | |].
    - intros id. rewrite E1, get0_insert, Hsk, mine_cons, zlen_app.
      case_decide as Hid; [subst id; rewrite zlen_cons, zlen_nil|rewrite zlen_nil]; subst n; lia.
    - intros id b Hb Hall. rewrite mine_cons in Hall. apply Forall_app in Hall as [Hhd Htl].
      apply E2; [|done]. rewrite get0_insert. case_decide; [|done]. apply Forall_inv in Hhd. lia.
    - intros id [Hid|(e' & He' & Hid)]%E3; [|right; exists e'; split; [by right|done]].
      rewrite dom_insert in Hid. apply elem_of_union in Hid as [->%elem_of_singleton|Hid]; [|by left].
      right. exists e. split; [by left|done]. }
  case_decide as Heq.
  - apply Hgen; [by rewrite Heq|]. intros id. case_decide; [lia|done].
  - apply Hgen; [done|]. intros id. rewrite get0_insert. case_decide; [by subst|done].
Qed.

Lemma map_fold_checks (m : gmap Z Z) (f : Z -> Z -> res unit) :
  (forall c n, m !! c = Some n -> f c n = Ret tt) ->
  map_fold (fun c n acc => let! _ := acc in f c n) (Ret tt) m = Ret tt.
Proof.
  induction m as [|k v m Hk Hfirst IH] using map_first_key_ind; intros H; [by rewrite map_fold_empty|].
  rewrite map_fold_insert_first_key by done. rewrite IH.
  - cbn [res_bind]. apply H. by rewrite lookup_insert_eq.
  - intros c n Hc. apply H. rewrite lookup_insert_ne; [done|]. intros ->. congruence.
Qed.

Section append_runs.
Context {S : Type} `{!KVService S} `{!KVServiceLaws S}.

Record append_inv (n : Z) (es : list EntryN) (st : state S aclient) : Prop := {
  ai_store : astore es (server st);
  ai_len : zlen es <= n;
  ai_client : forall i rc, clients st !! i = Some rc ->
    exists c, rc = Ret c /\ a_me c = Z.of_nat i /\ ac_ok es c;
  ai_ids : Forall (fun e => 0 <= en_Id e < zlen (clients st)) es;
}.

Lemma append_inv_update n es es' s s' cs i c c' :
  append_inv n es (MkState s cs) -> cs !! i = Some (Ret c) -> a_me c = Z.of_nat i ->
  a_me c' = a_me c -> astore es' s' -> ac_ok es' c' ->
  (es' = es \/ exists x, es' = es ++ [MkEntryN (a_me c) x]) ->
  append_inv (n + 1) es' (MkState s' (<[i := Ret c']> cs)).
Proof.
  intros [H1 H2 H3 H4] Hi Hme Hme' Hst Hok Hes. cbn [server clients] in *.
  pose proof (lookup_lt_Some _ _ _ Hi) as Hlt. split; cbn [server clients].
  - done.
  - destruct Hes as [->|[x ->]]; [lia|]. rewrite zlen_app, zlen_cons, zlen_nil. lia.
  - intros j rc [(<- & <- & _)|[Hj Hrc]]%list_lookup_insert_Some.
    + exists c'. split_and!; [done|congruence|done].
    + destruct (H3 j rc Hrc) as (d & -> & Hd & Hdok). exists d. split_and!; [done|done|].
      destruct Hes as [->|[x ->]]; [done|]. apply ac_ok_other; [|done]. cbn [en_Id]. lia.
  - rewrite zlen_insert. destruct Hes as [->|[x ->]]; [done|]. apply Forall_app. split; [done|].
    constructor; [|done]. cbn [en_Id]. unfold zlen. lia.
Qed.

Lemma append_step_inv n es st st' allowed :
  0 <= n < 2 ^ 63 - 1 -> append_inv n es st -> step append_top append_attempt allowed st st' ->
  exists es', append_inv (n + 1) es' st'.
Proof.
  intros Hn Hinv Hstep. pose proof (ai_len _ _ _ Hinv) as Hlen.
  destruct Hstep as [s cs i c d Hi|s cs i c dl s' rc Hi _ Ha]; pose proof (ai_store _ _ _ Hinv) as Hst;
    destruct (ai_client _ _ _ Hinv i _ Hi) as (c0 & [= <-] & Hme & Hok).
  - exists es. assert (exists c', append_top d c = Ret c' /\ a_me c' = a_me c /\ ac_ok es c') as (c' & -> & Hm & Hok').
    { unfold append_top. destruct (a_pc c) eqn:Hpc; try (by exists c). pose proof Hok as [? ? ? ? ? H6].
      rewrite Hpc in H6. destruct d; (eexists; split; [done|]; split; [done|]; by split). }
    eapply append_inv_update; try done. by left.
  - destruct (a_pc c) as [| |es0 ver retry|] eqn:Hpc.
    2:{ destruct (append_get_ok dl es c s s' rc Hst Hok Hpc Ha) as (-> & c' & -> & Hm & Hok').
        exists es. eapply append_inv_update; try done. by left. }
    2:{ destruct (append_put_ok dl es c s s' rc es0 ver retry) as (es' & c' & -> & Hm & Hst' & Hok' & Hes);
          [done|lia|done|done|done|]. exists es'. by eapply append_inv_update. }
    all: unfold append_attempt in Ha; rewrite Hpc in Ha; injection Ha as <- <-; exists es;
      eapply append_inv_update; try done; by left.
Qed.

Lemma append_inv_spawn s nclnt :
  astore [] s -> append_inv 0 [] (spawn s new_aclient nclnt).
Proof.
  intros Hs. split; cbn [spawn server clients]; [done|done| |done].
  intros i rc (x & -> & [-> _]%lookup_seqZ)%list_lookup_fmap_Some. eexists. split; [done|].
  split; [done|]. split; cbn; try done; try lia; constructor.
Qed.

Lemma append_inv_run allowed nclnt n s0 st :
  astore [] s0 -> Z.of_nat n < 2 ^ 63 ->
  nsteps (step append_top append_attempt allowed) n (spawn s0 new_aclient nclnt) st ->
  exists es, append_inv (Z.of_nat n) es st.
Proof.
  intros Hs Hn Hrun.
  eapply (nsteps_invariant _ (fun k st => exists es, append_inv k es st) (2 ^ 63 - 1));
    [eexists; by apply append_inv_spawn| |done|lia].
  intros k st1 st2 Hk (es & Hinv) Hstep. by eapply append_step_inv.
Qed.

Lemma wait_results_lookup {C} (result : C -> option ClntRes) cs rs i :
  wait_results result cs = Some rs -> (i < length cs)%nat ->
  exists c r, cs !! i = Some (Ret c) /\ result c = Some r /\ rs !! i = Some r.
Proof.
  unfold wait_results. intros H%mapM_Some Hi. destruct (lookup_lt_is_Some_2 cs i Hi) as [rc Hrc].
  destruct (Forall2_lookup_l _ _ _ _ _ H Hrc) as (r & Hr & Hres). destruct rc as [c|]; [|done]. by exists c, r.
Qed.

Lemma CheckAppends_ok n es st rs :
  append_inv n es st -> wait_results append_result (clients st) = Some rs ->
  CheckAppends es (zlen (clients st)) rs (zlen es + 1) = Ret tt.
Proof.
  intros Hinv Hrs. unfold CheckAppends. set (cs := clients st) in *.
  set (zeros := list_to_map _ : gmap Z Z).
  assert (forall id, get0 zeros id = 0) as Hz.
  { intros id. unfold get0, zeros. destruct (_ !! id) as [x|] eqn:E; [|done].
    apply elem_of_list_to_map_2, list_elem_of_fmap in E as (y & [= _ ->] & _). done. }
  (* what the invariant says of a client's numbers *)
  assert (forall id, 0 <= id < zlen cs -> exists c r, append_result c = Some r /\ ac_ok es c /\ a_me c = id /\
    rs !! Z.to_nat id = Some r) as Hcl.
  { intros id Hid. destruct (wait_results_lookup _ _ _ (Z.to_nat id) Hrs) as (c & r & Hc & Hr & Hl).
    { unfold zlen in Hid. fold cs. lia. }
    destruct (ai_client _ _ _ Hinv _ _ Hc) as (c' & [= <-] & Hme & Hok). exists c, r. split_and!; try done. lia. }
  assert (forall id, ~ 0 <= id < zlen cs -> mine es id = []) as Hout.
  { intros id Hid. unfold mine. assert (filter (fun e => en_Id e = id) es = []) as ->; [|done].
    apply elem_of_nil_inv. intros e [Heq He]%list_elem_of_filter.
    pose proof (ai_ids _ _ _ Hinv) as Hall. rewrite Forall_forall in Hall. apply Hid. rewrite <- Heq. by apply Hall. }
  destruct (appends_loop_spec es zeros zeros) as (ex & sk & -> & E1 & E2 & E3).
  - intros id. destruct (decide (0 <= id < zlen cs)) as [Hid|Hid]; [|rewrite Hout by done; constructor].
    destruct (Hcl id Hid) as (c & r & _ & Hok & <- & _). apply Hok.
  - intros id. rewrite Hz. destruct (decide (0 <= id < zlen cs)) as [Hid|Hid]; [|rewrite Hout by done; constructor].
    destruct (Hcl id Hid) as (c & r & _ & Hok & <- & _). apply Hok.
  - cbn [res_bind]. rewrite decide_False by lia. apply map_fold_checks. intros id n' Hn'.
    assert (0 <= id < zlen cs) as Hid.
    { destruct (E3 id) as [Hd|(e & He & <-)]; [by apply elem_of_dom; eexists| |].
      - unfold zeros in Hd. apply elem_of_dom in Hd as [x Hx].
        apply elem_of_list_to_map_2, list_elem_of_fmap in Hx as (y & [= -> _] & Hy%elem_of_seqZ). lia.
      - pose proof (ai_ids _ _ _ Hinv) as Hall. rewrite Forall_forall in Hall. by apply Hall. }
    destruct (Hcl id Hid) as (c & r & Hr & [A1 A2 A3 A4 A5 A6] & Hme & Hl). unfold append_result in Hr.
    destruct (a_pc c) eqn:Hpc; try done. injection Hr as <-. rewrite Hme in *.
    assert (get0 ex id = n') as Hg by (unfold get0; by rewrite Hn').
    specialize (E1 id). rewrite !Hz in E1. specialize (E2 id (a_i c)). rewrite Hz in E2.
    specialize (E2 ltac:(lia) A6). unfold check_one.
    rewrite (proj2 (idx_Ret _ _ _)) by (split; [lia|done]). cbn [res_bind Nok Nmaybe].
    rewrite !decide_False by lia. done.
Qed.
End append_runs.

(** *** A round of the partitioner *)

Lemma partition_sides (a : list Z) :
  Forall (fun x => x = 0 \/ x = 1) a ->
  partition_side a 0 ++ partition_side a 1 ≡ₚ seqZ 0 (zlen a).
Proof.
  intros Ha. apply NoDup_Permutation; [|apply NoDup_seqZ|].
  - apply NoDup_app. split_and!; [apply NoDup_filter, NoDup_seqZ| |apply NoDup_filter, NoDup_seqZ].
    intros j [H1 _]%list_elem_of_filter [H2 _]%list_elem_of_filter. congruence.
  - intros j. unfold partition_side. rewrite elem_of_app, !list_elem_of_filter. split; [tauto|]. intros Hj.
    pose proof Hj as Hr%elem_of_seqZ. destruct (lookup_lt_is_Some_2 a (Z.to_nat j)) as [x Hx].
    { unfold zlen in Hr. lia. }
    rewrite Forall_forall in Ha. destruct (Ha x) as [->| ->]; [by eapply list_elem_of_lookup_2|by left|by right].
Qed.

(** After a round exactly the ends between servers of the same side are enabled. *)
Lemma Partitioner_round_spec {Svc} (sg : Tester.ServerGrp Svc) st a :
  Tester.grp_wf sg -> zlen a = Tester.N sg -> Forall (fun x => x = 0 \/ x = 1) a ->
  exists st' sg', Partitioner_round a sg st = Ret (st', sg') /\
    forall i j, Tester.in_range sg i -> Tester.in_range sg j ->
      (LabRpc.is_enabled (Tester.net st') (Tester.ename (Tester.srvs sg) i j) = true <->
       a !! Z.to_nat i = a !! Z.to_nat j).
Proof.
  intros Hwf Hlen Ha. destruct (Tester.Partition_spec sg st (partition_side a 0) (partition_side a 1)) as
    (st' & sg' & Hp & _ & _ & _ & _ & _ & Hen); [done|unfold Tester.all; rewrite <- Hlen; by apply partition_sides|].
  exists st', sg'. split; [done|]. intros i j Hi Hj. rewrite (Hen i j Hi Hj).
  unfold Tester.same_side, partition_side. rewrite !list_elem_of_filter, !elem_of_seqZ.
  unfold Tester.in_range in *. rewrite <- Hlen in *.
  destruct (lookup_lt_is_Some_2 a (Z.to_nat i)) as [x Hx]; [unfold zlen in *; lia|].
  destruct (lookup_lt_is_Some_2 a (Z.to_nat j)) as [y Hy]; [unfold zlen in *; lia|].
  rewrite Hx, Hy. rewrite Forall_forall in Ha.
  destruct (Ha x) as [->| ->]; [by eapply list_elem_of_lookup_2| |];
    (destruct (Ha y) as [->| ->]; [by eapply list_elem_of_lookup_2| |]); naive_solver lia.
Qed.

(** *** Schedules *)

Section schedules.
Context {S C : Type} (top : option Z -> C -> res C) (attempt : LabRpc.delivery -> C -> S -> S * res C).

(** The client that runs next, and what it meets: the top of its loop or an attempt. *)
Definition action : Type := nat * (option Z + LabRpc.delivery).

Fixpoint exec (l : list action) (st : state S C) : option (state S C) :=
  match l with
  | [] => Some st
  | (i, a) :: l =>
      match clients st !! i with
      | Some (Ret c) =>
          match a with
          | inl d => exec l (MkState (server st) (<[i := top d c]> (clients st)))
          | inr dl =>
              let '(s', rc) := attempt dl c (server st) in
              exec l (MkState s' (<[i := rc]> (clients st)))
          end
      | _ => None
      end
  end.

Lemma exec_nsteps (allowed : LabRpc.delivery -> Prop) l st st' :
  exec l st = Some st' -> (forall i dl, (i, inr dl) ∈ l -> allowed dl) ->
  nsteps (step top attempt allowed) (length l) st st'.
Proof.
  revert st. induction l as [|[i a] l IH]; intros [s cs] He Hdl; cbn [exec length clients server] in *.
  { injection He as ->. constructor. }
  destruct (cs !! i) as [[c|]|] eqn:Hc; [|done..]. destruct a as [d|dl].
  - eapply nsteps_l; [by apply step_top|]. apply IH; [done|]. intros j dl Hj. apply (Hdl j). by right.
  - destruct (attempt dl c s) as [s' rc] eqn:Ha. eapply nsteps_l.
    + eapply step_attempt; [done| |done]. apply (Hdl i). by left.
    + apply IH; [done|]. intros j dl' Hj. apply (Hdl j). by right.
Defined.

Lemma run_length (allowed : LabRpc.delivery -> Prop) n st st' :
  nsteps (step top attempt allowed) n st st' -> length (clients st') = length (clients st).
Proof.
  induction 1 as [|n st1 st2 st3 Hs _ IH]; [done|]. rewrite IH. destruct Hs; cbn [clients]; apply length_insert.
Qed.
End schedules.

(** ** Properties *)

Section properties.
Context {S : Type} `{!KVService S} `{!KVServiceLaws S}.

(** The put check gives no false alarm.  Clients run OneClientPut on one key, absent
    before, with their attempts interleaved in any way: no check inside OnePut fails, and
    once all are done and some Put was executed, CheckPutConcurrent passes: the key's
    version is between the Puts answered OK and those answered OK or ErrMaybe, and, when
    no message was lost, exactly those answered OK. *)
Lemma put_check_passes (key : string) (randomkeys reliable : bool) (nclnt n : nat) (s0 : S) st :
  svc_lookup s0 key = None -> Z.of_nat n < 2 ^ 63 ->
  nsteps (step (put_top randomkeys [key]) put_attempt (lossy reliable)) n
    (spawn s0 (new_pclient [key]) nclnt) st ->
  (forall i rc, clients st !! i = Some rc -> exists c, rc = Ret c) /\
  forall rs, wait_results put_result (clients st) = Some rs -> svc_lookup (server st) key <> None ->
    CheckPutConcurrent (svc_Get (MkGetArgs key) (server st)).2 rs (MkRes 0 0) reliable =
      Ret (add_res (MkRes 0 0) rs).
Proof.
  intros Hno Hn Hrun. pose proof (put_inv_run key reliable randomkeys nclnt n s0 st Hno Hn Hrun) as
    [Hver Hst Hcl Hlo Hhi Htot].
  split; [intros i rc Hi; destruct (Hcl i rc Hi) as (c & -> & _); by exists c|].
  intros rs Hrs Hex. assert (1 <= version (server st) key) as Hv.
  { destruct Hst as [[? _]|(? & _ & ?)]; [done|lia]. }
  destruct (GetJson_store key (server st) Hst Hv) as (e & _ & -> & Hj).
  unfold CheckPutConcurrent. cbn [snd]. rewrite Hj. cbn [res_bind].
  assert (forall c r, Ret c ∈ clients st -> put_result c = Some r -> p_pc c = PDone /\ r = p_res c) as Hdone.
  { intros c r _. unfold put_result. destruct (p_pc c); try done. by intros [= <-]. }
  assert (forall f g, (forall c, p_pc c = PDone -> f c = g (p_res c)) ->
    zsum (on f) (clients st) = zsum g rs) as Hsum.
  { intros f g Hfg. apply (wait_results_sum put_result); [done|]. intros c r Hc Hr.
    destruct (Hdone c r Hc Hr) as [Hpc ->]. by apply Hfg. }
  rewrite (Hsum lo Nok) in Hlo by (intros c Hc; unfold lo; rewrite Hc; lia).
  rewrite (Hsum _ (fun r => Nok r + Nmaybe r)) in Hhi by (intros c Hc; unfold hi; rewrite Hc; lia).
  rewrite (Hsum total (fun r => Nok r + Nmaybe r)) in Htot by done.
  destruct (add_res_sum (MkRes 0 0) rs) as [-> ->]. cbn [Nok Nmaybe].
  assert (Forall (fun r => 0 <= Nok r /\ 0 <= Nmaybe r /\ (reliable = true -> Nmaybe r = 0)) rs) as Hrs0.
  { apply Forall_forall. intros r [i Hr]%list_elem_of_lookup_1.
    pose proof Hrs as HF%mapM_Some. destruct (Forall2_lookup_r _ _ _ _ _ HF Hr) as (rc & Hrc & Hres).
    destruct (Hcl i rc Hrc) as (c & -> & Hok). destruct (Hdone c r) as [_ ->]; [by eapply list_elem_of_lookup_2|done|].
    destruct Hok as [? [? ?] _ _]. done. }
  assert (zsum (fun r => Nok r + Nmaybe r) rs = zsum Nok rs + zsum Nmaybe rs /\ 0 <= zsum Nok rs /\
    0 <= zsum Nmaybe rs /\ (reliable = true -> zsum Nmaybe rs = 0)) as (E & P1 & P2 & P3).
  { clear -Hrs0. induction Hrs0 as [|r rs (A & B & D) _ (E & P1 & P2 & P3)]; [done|]. rewrite !zsum_cons.
    split_and!; [lia|lia|lia|]. intros Hr. specialize (D Hr). specialize (P3 Hr). lia. }
  unfold wrap. destruct reliable.
  - rewrite Z.mod_small by lia. rewrite decide_False; [done|]. specialize (P3 eq_refl). lia.
  - rewrite Z.mod_small by lia. rewrite decide_False; [done|]. lia.
Qed.

(** C37 (the append check gives no false alarm).  Clients run OneClientAppend on a store
    whose key "k" holds the empty list at version 1, with any losses and interleavings: no
    client's read fails, and once all are done the list in the store passes CheckAppends:
    every client's numbers increase, the skipped ones are not more than its ErrMaybe
    answers, none is beyond its last iteration, and the version counts the entries. *)
Theorem append_check_passes (nclnt n : nat) (s0 : S) st :
  astore [] s0 -> Z.of_nat n < 2 ^ 63 ->
  nsteps (step append_top append_attempt (fun _ => True)) n (spawn s0 new_aclient nclnt) st ->
  (forall i rc, clients st !! i = Some rc -> exists c, rc = Ret c) /\
  forall rs, wait_results append_result (clients st) = Some rs ->
    exists es ver, GetJson unmarshal_entries (svc_Get (MkGetArgs "k") (server st)).2 = Ret (es, ver) /\
      CheckAppends es (Z.of_nat nclnt) rs ver = Ret tt.
Proof.
  intros Hs Hn Hrun. destruct (append_inv_run _ nclnt n s0 st Hs Hn Hrun) as (es & Hinv).
  split; [intros i rc Hi; destruct (ai_client _ _ _ Hinv i rc Hi) as (c & -> & _); by exists c|].
  intros rs Hrs. exists es, (zlen es + 1). split.
  - rewrite (law_Get_found (MkGetArgs "k") (server st) _ _ (ai_store _ _ _ Hinv)). unfold GetJson.
    cbn [snd gr_Err gr_Value gr_Version]. by rewrite decide_True, unmarshal_marshal_entries.
  - pose proof (CheckAppends_ok _ _ _ _ Hinv Hrs) as H. unfold zlen at 1 in H.
    rewrite (run_length _ _ _ _ _ _ Hrun) in H. cbn [spawn clients] in H. by rewrite length_fmap, length_seqZ, Nat2Z.id in H.
Qed.
End properties.

(** *** Witnesses *)

(** Client 0's reply is lost and client 1 puts in between. *)
Definition ex_puts : list action :=
  [(0%nat, inl (Some 0)); (1%nat, inl (Some 0)); (0%nat, inr LabRpc.ReplyLost);
   (1%nat, inr LabRpc.Delivered); (1%nat, inr LabRpc.Delivered); (1%nat, inr LabRpc.Delivered);
   (1%nat, inr LabRpc.Delivered); (0%nat, inr LabRpc.Delivered); (0%nat, inr LabRpc.Delivered);
   (0%nat, inl None); (1%nat, inl None)].

Lemma put_check_passes_ex :
  exists st, exec (put_top false ["k"]) put_attempt ex_puts
      (spawn KvServer.MakeKVServer (new_pclient ["k"]) 2) = Some st /\
    CheckPutConcurrent (svc_Get (MkGetArgs "k") (server st)).2 [MkRes 0 1; MkRes 1 0] (MkRes 0 0) false =
      Ret (MkRes 1 1).
Proof.
  eexists. split; [vm_compute; reflexivity|].
  eapply (put_check_passes "k" false false 2 (length ex_puts) KvServer.MakeKVServer).
  - done.
  - done.
  - apply exec_nsteps; [vm_compute; reflexivity|done].
  - reflexivity.
  - done.
Defined.

Definition ex_appends : list action :=
  [(0%nat, inl (Some 0)); (1%nat, inl (Some 0)); (0%nat, inr LabRpc.Delivered); (1%nat, inr LabRpc.Delivered);
   (0%nat, inr LabRpc.ReplyLost); (1%nat, inr LabRpc.Delivered); (1%nat, inr LabRpc.Delivered);
   (1%nat, inr LabRpc.Delivered); (0%nat, inr LabRpc.Delivered); (0%nat, inl None); (1%nat, inl None)].
Definition ex_astore : KvServer.KVServer :=
  KvServer.MkKVServer {[ "k" := KvServer.MkStoreValue (marshal_entries []) 1 ]}.

Lemma append_check_passes_witness :
  exists st es ver, exec append_top append_attempt ex_appends (spawn ex_astore new_aclient 2) = Some st /\
    GetJson unmarshal_entries (svc_Get (MkGetArgs "k") (server st)).2 = Ret (es, ver) /\
    CheckAppends es 2 [MkRes 0 1; MkRes 1 0] ver = Ret tt.
Proof.
  destruct (exec append_top append_attempt ex_appends (spawn ex_astore new_aclient 2)) as [st|] eqn:E.
  2:{ vm_compute in E. discriminate E. }
  destruct (append_check_passes 2 (length ex_appends) ex_astore st) as [_ H].
  - reflexivity.
  - done.
  - apply exec_nsteps; [exact E|done].
  - destruct (H [MkRes 0 1; MkRes 1 0]) as (es & ver & H1 & H2).
    { vm_compute in E. injection E as <-. reflexivity. }
    by exists st, es, ver.
Defined.

(** ** Spreading keys over the shards *)

(** tester.Randstring, [b] being the random bytes. *)
Definition Randstring (b : list Z) (n : Z) : res string :=
  if decide (n < 0) then Panic MakeNegativeLen
  else
    let s := Base64.encode b in
    if decide (n <= Z.of_nat (String.length s)) then Ret (Base64.prefix (Z.to_nat n) s) else Panic SliceOutOfRange.

Lemma Randstring_Ret b n :
  0 <= n -> zlen b = 2 * n ->
  exists s, Randstring b n = Ret s /\ Z.of_nat (String.length s) = n /\ Base64.digits s.
Proof.
  intros Hn Hb. destruct (Base64.encode_prefix (Z.to_nat n) b) as [H1 H2]; [lia|].
  unfold Randstring. rewrite decide_False by lia.
  assert (String.length (Base64.prefix (Z.to_nat n) (Base64.encode b)) <= String.length (Base64.encode b))%nat as Hle.
  { clear. generalize (Base64.encode b). induction (Z.to_nat n) as [|k IH]; intros s; [cbn; lia|].
    destruct s as [|c s]; [done|]. cbn. specialize (IH s). lia. }
  rewrite decide_True by lia. eexists. split; [done|]. split; [lia|done].
Qed.

Section spread.
Context {S : Type} `{!KVService S}.

(** The calls of the loop, each with its attempts; [None] when a call does not return. *)
Fixpoint put_all (kvs : list (string * string)) (scheds : list (list (@Clerk.attempt S))) (s : S) : S * option unit :=
  match kvs, scheds with
  | [], _ => (s, Some tt)
  | (k, v) :: kvs, sched :: scheds =>
      match Clerk.Put sched k v 0 s with
      | (s, Some _) => put_all kvs scheds s
      | (s, None) => (s, None)
      end
  | _, [] => (s, None)
  end.
Fixpoint check_all (kvs : list (string * string)) (scheds : list (list (@Clerk.attempt S))) (s : S)
    : S * option (res unit) :=
  match kvs, scheds with
  | [], _ => (s, Some (Ret tt))
  | (k, v) :: kvs, sched :: scheds =>
      match Clerk.Get sched k s with
      | (s, Some reply) =>
          match CheckGet v 1 reply with
          | Ret _ => check_all kvs scheds s
          | Panic p => (s, Some (Panic p))
          end
      | (s, None) => (s, None)
      end
  | _, [] => (s, None)
  end.

(** [va[i] = tester.Randstring(valsz)], [bs] being the random bytes of each. *)
Fixpoint rand_values (bs : list (list Z)) (valsz : Z) : res (list string) :=
  match bs with
  | [] => Ret []
  | b :: bs => let! v := Randstring b valsz in let! va := rand_values bs valsz in Ret (v :: va)
  end.

(** [bs] has [n] elements. *)
Definition SpreadPutsSize (n valsz : Z) (bs : list (list Z)) puts gets (s : S)
    : res (S * option (list string * list string)) :=
  let! ka := MakeKeys n in
  let! va := rand_values bs valsz in
  match put_all (zip ka va) puts s with
  | (s, None) => Ret (s, None)
  | (s, Some _) =>
      match check_all (zip ka va) gets s with
      | (s, None) => Ret (s, None)
      | (s, Some ok) => let! _ := ok in Ret (s, Some (ka, va))
      end
  end.
Definition SpreadPuts (n : Z) bs puts gets (s : S) := SpreadPutsSize n 20 bs puts gets s.

Context `{!KVServiceLaws S}.

(** Attempts with nobody else about, one of which is answered. *)
Definition alone (sched : list (@Clerk.attempt S)) : Prop :=
  (forall a s, a ∈ sched -> a.1 s = s) /\ exists a, a ∈ sched /\ a.2 = LabRpc.Delivered.

Definition has (s : S) (k v : string) : Prop := svc_lookup s k = Some (v, 1).

Lemma Put_alone sched retry k v s s0 :
  (forall a s, a ∈ sched -> a.1 s = s) ->
  (s = s0 /\ svc_lookup s k = None \/ has s k v /\ forall k', k' <> k -> svc_lookup s k' = svc_lookup s0 k') ->
  (exists a, a ∈ sched /\ a.2 = LabRpc.Delivered) ->
  exists s' r, Clerk.Put_loop sched retry k v 0 s = (s', Some r) /\ has s' k v /\
    forall k', k' <> k -> svc_lookup s' k' = svc_lookup s0 k'.
Proof.
  revert retry s. induction sched as [|[env dl] sched IH]; intros retry s Henv Hs (a & Ha & Hd);
    [by apply not_elem_of_nil in Ha|].
  cbn [Clerk.Put_loop]. rewrite (Henv (env, dl) s ltac:(left) : env s = s). set (arg := MkPutArgs k v 0).
  assert (has (svc_Put arg s).1 k v /\ forall k', k' <> k -> svc_lookup (svc_Put arg s).1 k' = svc_lookup s0 k') as [H1 H2].
  { destruct Hs as [[<- Hn]|[Hh Ho]].
    - destruct (law_Put_ok arg s) as [_ Hl]; [cbn; by rewrite Hn|]. unfold has. split.
      + rewrite Hl. by rewrite decide_True by done.
      + intros k' Hk. rewrite Hl. by rewrite decide_False by done.
    - rewrite (law_Put_fail arg s); [done|]. cbn. unfold has in Hh. by rewrite Hh. }
  assert (dl = LabRpc.Delivered \/ exists a, a ∈ sched /\ a.2 = LabRpc.Delivered) as Hd'.
  { apply elem_of_cons in Ha as [->|Ha]; [by left|right; by exists a]. }
  assert (forall a s, a ∈ sched -> a.1 s = s) as Henv' by (intros; apply Henv; by right).
  destruct dl; cbn [LabRpc.deliver].
  - destruct Hd' as [?|Hd']; [done|]. by apply IH.
  - destruct Hd' as [?|Hd']; [done|]. apply IH; [done|by right|done].
  - destruct (svc_Put arg s) as [s' r]. by exists s', (Clerk.reply_err retry r).
Qed.

Lemma Get_alone sched k v s :
  alone sched -> has s k v -> Clerk.Get sched k s = (s, Some (MkGetReply v 1 OK)).
Proof.
  intros [Henv (a & Ha & Hd)] Hh. induction sched as [|[env dl] sched IH]; [by apply not_elem_of_nil in Ha|].
  cbn [Clerk.Get]. rewrite (Henv (env, dl) s ltac:(left) : env s = s).
  pose proof (law_Get_found (MkGetArgs k) s v 1 Hh) as Hg.
  assert (dl = LabRpc.Delivered \/ a ∈ sched) as Hd' by (apply elem_of_cons in Ha as [->|Ha]; [by left|by right]).
  assert (forall a s, a ∈ sched -> a.1 s = s) as Henv' by (intros; apply Henv; by right).
  destruct dl; cbn [LabRpc.deliver]; rewrite ?Hg; [..|done]; (destruct Hd' as [?|Hd']; [done|by apply IH]).
Qed.

Lemma put_all_alone kvs scheds s :
  length scheds = length kvs -> Forall alone scheds -> NoDup kvs.*1 ->
  (forall k, k ∈ kvs.*1 -> svc_lookup s k = None) ->
  exists s', put_all kvs scheds s = (s', Some tt) /\ (forall k v, (k, v) ∈ kvs -> has s' k v) /\
    forall k, ~ k ∈ kvs.*1 -> svc_lookup s' k = svc_lookup s k.
Proof.
  revert scheds s. induction kvs as [|[k v] kvs IH]; intros [|sched scheds] s Hlen Hal Hnd Hno; try done.
  - exists s. split_and!; [done| |done]. intros k v Hk. by apply not_elem_of_nil in Hk.
  - apply Forall_cons in Hal as [[Henv Hd] Hal]. rewrite fmap_cons in *. cbn [fst] in *.
    apply NoDup_cons in Hnd as [Hk Hnd].
    cbn [put_all]. unfold Clerk.Put. destruct (Put_alone sched false k v s s Henv) as (s1 & r & -> & Hh & Ho).
    { left. split; [done|]. apply Hno. by left. }
    { done. }
    destruct (IH scheds s1) as (s' & -> & Hall & Hrest).
    { by injection Hlen. }
    { done. }
    { done. }
    { intros k' Hk'. rewrite Ho by (by intros ->). apply Hno. by right. }
    exists s'. split_and!; [done|..].
    + intros k' v' [[= -> ->]|Hin]%elem_of_cons; [|by apply Hall]. unfold has. by rewrite Hrest.
    + intros k' Hk'. rewrite elem_of_cons in Hk'. rewrite Hrest by tauto. apply Ho. tauto.
Qed.

Lemma check_all_alone kvs scheds s :
  length scheds = length kvs -> Forall alone scheds -> (forall k v, (k, v) ∈ kvs -> has s k v) ->
  check_all kvs scheds s = (s, Some (Ret tt)).
Proof.
  revert scheds. induction kvs as [|[k v] kvs IH]; intros [|sched scheds] Hlen Hal Hh; try done.
  apply Forall_cons in Hal as [Ha Hal]. cbn [check_all]. rewrite (Get_alone _ _ v) by (done || apply Hh; left).
  unfold CheckGet. cbn. rewrite decide_False by (by intros H). rewrite decide_False by (by intros [?|?]).
  apply IH; [by injection Hlen|done|]. intros k' v' Hin. apply Hh. by right.
Qed.

Lemma rand_values_Ret bs valsz :
  0 <= valsz -> (forall b, b ∈ bs -> zlen b = 2 * valsz) ->
  exists va, rand_values bs valsz = Ret va /\ length va = length bs /\
    forall v, v ∈ va -> Z.of_nat (String.length v) = valsz.
Proof.
  intros Hv. induction bs as [|b bs IH]; intros Hb; cbn [rand_values].
  { exists []. split_and!; [done|done|]. by intros v ?%not_elem_of_nil. }
  destruct (Randstring_Ret b valsz Hv) as (v & -> & Hl & _); [apply Hb; left|].
  destruct IH as (va & -> & Hlen & Hall); [intros; apply Hb; by right|]. cbn [res_bind].
  exists (v :: va). split_and!; [done|cbn; lia|]. intros v' [->|Hin]%elem_of_cons; [done|by apply Hall].
Qed.

(** SpreadPuts passes its own checks.  On a store that has none of the keys, which nobody else uses,
    it puts each key once, whatever messages are lost, and every check finds the value put, at version 1. *)
Lemma SpreadPutsSize_passes n valsz bs puts gets s :
  0 <= n -> 0 <= valsz -> zlen bs = n -> (forall b, b ∈ bs -> zlen b = 2 * valsz) ->
  zlen puts = n -> zlen gets = n -> Forall alone puts -> Forall alone gets ->
  (forall i, 0 <= i < n -> svc_lookup s ("k" +:+ pretty i) = None) ->
  exists s' ka va, SpreadPutsSize n valsz bs puts gets s = Ret (s', Some (ka, va)) /\
    ka = (fun i => "k" +:+ pretty i) <$> seqZ 0 n /\ length va = length ka /\
    (forall v, v ∈ va -> Z.of_nat (String.length v) = valsz) /\
    forall i k v, ka !! i = Some k -> va !! i = Some v -> svc_lookup s' k = Some (v, 1).
Proof.
  intros Hn Hv Hbs Hb Hp Hg Hap Hag Hno. unfold SpreadPutsSize, MakeKeys. rewrite decide_True by done. cbn [res_bind].
  set (ka := (fun i => "k" +:+ pretty i) <$> seqZ 0 n).
  destruct (rand_values_Ret bs valsz Hv Hb) as (va & -> & Hlen & Hall). cbn [res_bind].
  assert (length ka = Z.to_nat n) as Hka by (unfold ka; by rewrite length_fmap, length_seqZ).
  assert ((zip ka va).*1 = ka) as Hfst by (apply fst_zip; unfold zlen in Hbs; lia).
  assert (length (zip ka va) = Z.to_nat n) as Hzl by (rewrite length_zip_with; unfold zlen in Hbs; lia).
  destruct (put_all_alone (zip ka va) puts s) as (s' & -> & Hhas & _).
  - unfold zlen in Hp. lia.
  - done.
  - rewrite Hfst. apply NoDup_fmap_2_strong; [|apply NoDup_seqZ]. intros i j _ _ [= E]. by apply (inj pretty).
  - rewrite Hfst. intros k (i & -> & Hi%elem_of_seqZ)%list_elem_of_fmap. apply Hno. lia.
  - rewrite check_all_alone; [|unfold zlen in Hg; lia|done|done]. cbn [res_bind].
    exists s', ka, va. split_and!; [done|done|unfold zlen in Hbs; lia|done|].
    intros i k v Hk Hv'. apply Hhas. apply list_elem_of_lookup. exists i. by rewrite lookup_zip_Some.
Qed.
End spread.
End KvTest.
