(* ===== verification/MrCoord.v ===== *)
(** * MrCoord: the MapReduce coordinator (src/src/mr/coordinator.go, src/src/mr/rpc.go)

    The RPC handlers GetTask and FinishTask, [Done], [MakeCoordinator] and the two ends
    of [TaskMonitor], each under [c.mu], and the coordinator as a step relation: any
    number of workers, late or repeated reports and timeouts are its steps. *)
From S2P Require Import Prelude.
Local Open Scope Z_scope.
Local Open Scope go_scope.

Module MrCoord.

(** ** Data *)

Record MapTask := MkMapTask { FileName : string; mt_TaskId : Z; mt_done : bool }.
Record ReduceTask := MkReduceTask { rt_TaskId : Z; rt_done : bool }.

(** What the two kinds of tasks share. *)
Class TaskOps (T : Type) := {
  TaskId : T -> Z;
  task_done : T -> bool;
  set_task_done : T -> T;
}.
Class TaskLaws (T : Type) `{TaskOps T} := {
  set_done_id t : TaskId (set_task_done t) = TaskId t;
  set_done_done t : task_done (set_task_done t) = true;
}.

#[export] Instance MapTask_ops : TaskOps MapTask := {|
  TaskId := mt_TaskId; task_done := mt_done;
  set_task_done t := MkMapTask (FileName t) (mt_TaskId t) true |}.
#[export] Instance MapTask_laws : TaskLaws MapTask.
Proof. by split. Qed.
#[export] Instance ReduceTask_ops : TaskOps ReduceTask := {|
  TaskId := rt_TaskId; task_done := rt_done;
  set_task_done t := MkReduceTask (rt_TaskId t) true |}.
#[export] Instance ReduceTask_laws : TaskLaws ReduceTask.
Proof. by split. Qed.

(** The three fields the coordinator has for one kind: [MapTasks], [RunningMapTasks],
    [FinishedMapTasks], and the same for reduce tasks.  A channel is a number. *)
Record pool (T : Type) := MkPool {
  Tasks : list T;
  Running : gmap Z nat;
  Finished : Z;
}.
Arguments MkPool {T} _ _ _.
Arguments Tasks {T} _.
Arguments Running {T} _.
Arguments Finished {T} _.

Inductive task_type := TMap | TReduce.

#[export] Instance task_type_eq_dec : EqDecision task_type.
Proof. solve_decision. Defined.

(** A [TaskMonitor] goroutine that still waits: its task and its [cancelCh], [None]
    for a nil channel. *)
Record monitor := MkMonitor { mon_type : task_type; mon_id : Z; cancelCh : option nat }.

#[export] Instance monitor_eq_dec : EqDecision monitor.
Proof. solve_decision. Defined.

(** The coordinator, with the channels made ([next_ch] is the next one) and closed, and
    the monitors. *)
Record Coordinator := MkCoordinator {
  nReduce : Z;
  maps : pool MapTask;
  reduces : pool ReduceTask;
  next_ch : nat;
  closed : gset nat;
  monitors : list monitor;
}.

(** [reply.TaskType], a string in the code; [""] is [TNone]. *)
Inductive reply_type := RMap | RReduce | RWait | RDone | RNone.

Record GetTaskReply := MkGetTaskReply {
  r_FileName : string; r_NReduce : Z; r_TaskType : reply_type; r_TaskId : Z }.

(** [args.TaskType]: [None] for any other string. *)
Record FinishTaskArgs := MkFinishTaskArgs { f_TaskType : option task_type; f_TaskId : Z }.

(** ** Operations *)

Definition MakeCoordinator (files : list string) (nReduce : Z) : res Coordinator :=
  if decide (nReduce < 0) then Panic MakeNegativeLen
  else Ret (MkCoordinator nReduce
    (MkPool (imap (fun i file => MkMapTask file (Z.of_nat i) false) files) ∅ 0)
    (MkPool ((fun i => MkReduceTask i false) <$> seqZ 0 nReduce) ∅ 0) 0 ∅ []).

Definition Done (c : Coordinator) : bool :=
  bool_decide (Finished (maps c) = zlen (Tasks (maps c))) &&
  bool_decide (Finished (reduces c) = zlen (Tasks (reduces c))).

Section pools.
Context {T : Type} `{TaskOps T}.

(** [for _, task := range tasks { if not running and not done ... break }] *)
Fixpoint pick (running : gmap Z nat) (tasks : list T) : option T :=
  match tasks with
  | [] => None
  | task :: tasks =>
      if decide (running !! TaskId task = None /\ task_done task = false) then Some task
      else pick running tasks
  end.

(** [len(tasks) > len(running) + finished] *)
Definition has_left (p : pool T) : bool :=
  bool_decide (zlen (Tasks p) > Z.of_nat (size (Running p)) + Finished p).

(** A task is handed out: the pool, the task, and the channel the monitor is given,
    [running[reply.TaskId]], where the id is 0 when no task was found. *)
Definition assign (ch : nat) (p : pool T) : pool T * option T * option nat :=
  match pick (Running p) (Tasks p) with
  | Some task =>
      let running := <[TaskId task := ch]> (Running p) in
      (MkPool (Tasks p) running (Finished p), Some task, running !! TaskId task)
  | None => (p, None, Running p !! 0)
  end.

(** [close(ch)] when the key is there. *)
Definition close_running (closed : gset nat) (running : gmap Z nat) (id : Z) : res (gset nat) :=
  match running !! id with
  | None => Ret closed
  | Some ch => if decide (ch ∈ closed) then Panic CloseOfClosedChannel else Ret ({[ch]} ∪ closed)
  end.

(** One case of FinishTask. *)
Definition finish (closed : gset nat) (id : Z) (p : pool T) : res (pool T * gset nat) :=
  let ok := bool_decide (is_Some (Running p !! id)) in
  let! closed := close_running closed (Running p) id in
  let running := delete id (Running p) in
  if ok then
    let! task := idx (Tasks p) id in
    let! tasks := set_idx (Tasks p) id (set_task_done task) in
    Ret (MkPool tasks running (Finished p + 1), closed)
  else Ret (MkPool (Tasks p) running (Finished p), closed).

(** One case of a monitor's timeout. *)
Definition evict (closed : gset nat) (id : Z) (p : pool T) : res (pool T * gset nat) :=
  let! closed := close_running closed (Running p) id in
  Ret (MkPool (Tasks p) (delete id (Running p)) (Finished p), closed).
End pools.

Definition GetTask (c : Coordinator) : Coordinator * GetTaskReply :=
  if decide (Z.of_nat (size (Running (maps c))) > 0 \/ has_left (maps c) = true) then
    if has_left (maps c) then
      let '(p, task, ch) := assign (next_ch c) (maps c) in
      let id := match task with Some t => TaskId t | None => 0 end in
      (MkCoordinator (nReduce c) p (reduces c) (S (next_ch c)) (closed c)
         (MkMonitor TMap id ch :: monitors c),
       match task with
       | Some t => MkGetTaskReply (FileName t) (nReduce c) RMap id
       | None => MkGetTaskReply "" (nReduce c) RNone 0
       end)
    else (c, MkGetTaskReply "" 0 RWait 0)
  else
    if has_left (reduces c) then
      let '(p, task, ch) := assign (next_ch c) (reduces c) in
      let id := match task with Some t => TaskId t | None => 0 end in
      (MkCoordinator (nReduce c) (maps c) p (S (next_ch c)) (closed c)
         (MkMonitor TReduce id ch :: monitors c),
       match task with
       | Some _ => MkGetTaskReply "" (nReduce c) RReduce id
       | None => MkGetTaskReply "" (nReduce c) RNone 0
       end)
    else if decide (Z.of_nat (size (Running (reduces c))) > 0) then
      (c, MkGetTaskReply "" 0 RWait 0)
    else (c, MkGetTaskReply "" 0 RDone 0).

Definition FinishTask (args : FinishTaskArgs) (c : Coordinator) : res Coordinator :=
  match f_TaskType args with
  | Some TMap =>
      let! (p, cl) := finish (closed c) (f_TaskId args) (maps c) in
      Ret (MkCoordinator (nReduce c) p (reduces c) (next_ch c) cl (monitors c))
  | Some TReduce =>
      let! (p, cl) := finish (closed c) (f_TaskId args) (reduces c) in
      Ret (MkCoordinator (nReduce c) (maps c) p (next_ch c) cl (monitors c))
  | None => Ret c
  end.

(** [TaskMonitor], its timer fired: the task may be assigned again. *)
Definition TaskMonitor_timeout (m : monitor) (c : Coordinator) : res Coordinator :=
  match mon_type m with
  | TMap =>
      let! (p, cl) := evict (closed c) (mon_id m) (maps c) in
      Ret (MkCoordinator (nReduce c) p (reduces c) (next_ch c) cl (monitors c))
  | TReduce =>
      let! (p, cl) := evict (closed c) (mon_id m) (reduces c) in
      Ret (MkCoordinator (nReduce c) (maps c) p (next_ch c) cl (monitors c))
  end.

(** The monitor at position [k] returns. *)
Definition drop_monitor (k : nat) (c : Coordinator) : Coordinator :=
  MkCoordinator (nReduce c) (maps c) (reduces c) (next_ch c) (closed c)
    (delete k (monitors c)).

(** [TaskMonitor], its channel closed. *)
Definition TaskMonitor_cancelled (m : monitor) (c : Coordinator) : bool :=
  match cancelCh m with Some ch => bool_decide (ch ∈ closed c) | None => false end.

(** ** Runs *)

Inductive step : Coordinator -> Coordinator -> Prop :=
| step_GetTask c : step c (GetTask c).1
| step_FinishTask args c c' : FinishTask args c = Ret c' -> step c c'
| step_timeout k m c c' :
    monitors c !! k = Some m -> TaskMonitor_timeout m c = Ret c' -> step c (drop_monitor k c')
| step_cancelled k m c :
    monitors c !! k = Some m -> TaskMonitor_cancelled m c = true -> step c (drop_monitor k c).

Definition initial (files : list string) (n : Z) (c : Coordinator) : Prop :=
  MakeCoordinator files n = Ret c.

(** One round of a worker alone: it gets a task and reports it. *)
Definition round (c : Coordinator) : res Coordinator :=
  let '(c, reply) := GetTask c in
  match r_TaskType reply with
  | RMap => FinishTask (MkFinishTaskArgs (Some TMap) (r_TaskId reply)) c
  | RReduce => FinishTask (MkFinishTaskArgs (Some TReduce) (r_TaskId reply)) c
  | _ => Ret c
  end.

Fixpoint rounds (k : nat) (c : Coordinator) : res Coordinator :=
  match k with
  | O => Ret c
  | S k => let! c := round c in rounds k c
  end.

(** ** One pool *)

Section pool_lemmas.
Context {T : Type} `{TaskLaws T}.
Implicit Types (p : pool T) (t : T).

Definition doneP t : Prop := task_done t = true.
Definition todoP t : Prop := task_done t = false.

#[local] Instance doneP_dec t : Decision (doneP t).
Proof. unfold doneP. apply _. Defined.
#[local] Instance todoP_dec t : Decision (todoP t).
Proof. unfold todoP. apply _. Defined.

Definition n_done p : nat := length (filter doneP (Tasks p)).

(** A task's id is its position, a running task is not done, [Finished] counts the
    tasks done, and each running task has a channel of its own that is open. *)
Record pool_wf (cl : gset nat) (next : nat) p : Prop := {
  pw_ids : forall i t, Tasks p !! i = Some t -> TaskId t = Z.of_nat i;
  pw_running : forall id ch, Running p !! id = Some ch ->
    0 <= id /\ exists t, Tasks p !! Z.to_nat id = Some t /\ todoP t;
  pw_finished : Finished p = Z.of_nat (n_done p);
  pw_open : forall id ch, Running p !! id = Some ch -> ~ (ch ∈ cl) /\ (ch < next)%nat;
  pw_inj : forall i j ch, Running p !! i = Some ch -> Running p !! j = Some ch -> i = j;
}.

Lemma pick_Some r tasks t :
  pick r tasks = Some t -> t ∈ tasks /\ r !! TaskId t = None /\ todoP t.
Proof.
  induction tasks as [|u tasks IH]; [done|]. cbn. case_decide as Hu.
  - intros [= <-]. destruct Hu. by split_and!; [left|..].
  - intros (? & ? & ?)%IH. by split_and!; [right|..].
Qed.

Lemma pick_None r tasks t :
  pick r tasks = None -> t ∈ tasks -> todoP t -> is_Some (r !! TaskId t).
Proof.
  induction tasks as [|u tasks IH]; [by intros _ []%not_elem_of_nil|]. cbn.
  case_decide as Hu; [done|]. intros Hp [->|Ht]%elem_of_cons Htodo; [|by apply IH].
  destruct (r !! TaskId u) eqn:E; [done|]. by destruct Hu.
Qed.

Lemma length_done_todo (l : list T) :
  length l = (length (filter doneP l) + length (filter todoP l))%nat.
Proof.
  induction l as [|t l IH]; [done|]. rewrite !filter_cons.
  repeat case_decide; unfold doneP, todoP in *; cbn [length] in *; try lia.
  - congruence.
  - by destruct (task_done t).
Qed.

(** The ids of the tasks not done. *)
Definition todo_ids p : list Z := TaskId <$> filter todoP (Tasks p).

Lemma todo_ids_NoDup cl next p : pool_wf cl next p -> NoDup (todo_ids p).
Proof.
  intros Hwf. assert (NoDup (TaskId <$> Tasks p)) as Hnd.
  { apply NoDup_alt. intros i j x. rewrite !list_lookup_fmap.
    intros (t & Ht & ->)%fmap_Some (u & Hu & Heq)%fmap_Some.
    rewrite (pw_ids _ _ _ Hwf i t Ht), (pw_ids _ _ _ Hwf j u Hu) in Heq. lia. }
  unfold todo_ids. clear Hwf. revert Hnd.
  induction (Tasks p) as [|t l IH]; [done|]. rewrite fmap_cons. intros [Hni Hnd]%NoDup_cons.
  rewrite filter_cons. case_decide; [|by apply IH]. cbn. apply NoDup_cons. split; [|by apply IH].
  intros (u & Heq & Hu)%list_elem_of_fmap. apply list_elem_of_filter in Hu as [_ Hu].
  apply Hni, list_elem_of_fmap. by exists u.
Qed.

Lemma todo_ids_elem cl next p id :
  pool_wf cl next p ->
  id ∈ todo_ids p <-> 0 <= id /\ exists t, Tasks p !! Z.to_nat id = Some t /\ todoP t.
Proof.
  intros Hwf. unfold todo_ids. rewrite list_elem_of_fmap. split.
  - intros (t & -> & [Ht Hin]%list_elem_of_filter).
    apply list_elem_of_lookup in Hin as [i Hi]. rewrite (pw_ids _ _ _ Hwf i t Hi).
    split; [lia|]. exists t. by rewrite Nat2Z.id.
  - intros (Hid & t & Ht & Htodo). exists t. split.
    + rewrite (pw_ids _ _ _ Hwf _ _ Ht). lia.
    + apply list_elem_of_filter. split; [done|]. by eapply list_elem_of_lookup_2.
Qed.

Lemma todo_count cl next p :
  pool_wf cl next p -> zlen (Tasks p) - Finished p = zlen (todo_ids p).
Proof.
  intros Hwf. rewrite (pw_finished _ _ _ Hwf). unfold n_done, zlen, todo_ids.
  rewrite length_fmap. pose proof (length_done_todo (Tasks p)). lia.
Qed.

Lemma dom_running cl next p :
  pool_wf cl next p -> dom (Running p) ⊆ list_to_set (C:=gset Z) (todo_ids p).
Proof.
  intros Hwf id [ch Hid]%elem_of_dom. apply elem_of_list_to_set.
  apply (todo_ids_elem _ _ _ _ Hwf). by eapply pw_running.
Qed.

Lemma size_todo cl next p :
  pool_wf cl next p -> size (list_to_set (C:=gset Z) (todo_ids p)) = length (todo_ids p).
Proof. intros Hwf. apply size_list_to_set. by eapply todo_ids_NoDup. Qed.

Lemma running_le cl next p :
  pool_wf cl next p -> (size (Running p) <= length (todo_ids p))%nat.
Proof.
  intros Hwf. rewrite <- size_dom, <- (size_todo _ _ _ Hwf).
  by apply subseteq_size, (dom_running cl next).
Qed.

(** The test on the counters says whether a task can be handed out. *)
Lemma has_left_pick cl next p :
  pool_wf cl next p -> has_left p = true <-> is_Some (pick (Running p) (Tasks p)).
Proof.
  intros Hwf. unfold has_left. rewrite bool_decide_eq_true.
  pose proof (todo_count _ _ _ Hwf) as Hc. unfold zlen in *. split.
  - intros Hl. destruct (pick _ _) eqn:E; [by eexists|]. exfalso.
    assert (list_to_set (C:=gset Z) (todo_ids p) ⊆ dom (Running p)) as Hsub.
    { intros id Hid%elem_of_list_to_set. unfold todo_ids in Hid.
      apply list_elem_of_fmap in Hid as (t & -> & [Ht Hin]%list_elem_of_filter).
      apply elem_of_dom. by eapply pick_None. }
    apply subseteq_size in Hsub. rewrite (size_todo _ _ _ Hwf), size_dom in Hsub. lia.
  - intros [t (Hin & Hr & Htodo)%pick_Some].
    assert ({[TaskId t]} ∪ dom (Running p) ⊆ list_to_set (C:=gset Z) (todo_ids p)) as Hsub.
    { apply union_subseteq. split; [|by eapply dom_running].
      apply singleton_subseteq_l, elem_of_list_to_set, list_elem_of_fmap. exists t. split; [done|].
      by apply list_elem_of_filter. }
    apply subseteq_size in Hsub. rewrite size_union, size_singleton, size_dom in Hsub.
    + rewrite (size_todo _ _ _ Hwf) in Hsub. lia.
    + apply disjoint_singleton_l, not_elem_of_dom. done.
Qed.

(** Every task is done. *)
Definition all_done p : Prop := forall t, t ∈ Tasks p -> doneP t.

Lemma all_done_finished cl next p :
  pool_wf cl next p -> Finished p = zlen (Tasks p) <-> all_done p.
Proof.
  intros Hwf. pose proof (todo_count _ _ _ Hwf) as Hc. unfold zlen, todo_ids in Hc.
  rewrite length_fmap in Hc. split.
  - intros Hf t Ht. unfold doneP. destruct (task_done t) eqn:E; [done|]. exfalso.
    assert (t ∈ filter todoP (Tasks p)) as Hin by (by apply list_elem_of_filter).
    destruct (filter todoP (Tasks p)); [by apply not_elem_of_nil in Hin|].
    unfold zlen in Hf. cbn in Hc. lia.
  - intros Hd. rewrite (pw_finished _ _ _ Hwf). unfold n_done, zlen.
    rewrite length_filter_all; [done|]. by apply Forall_forall.
Qed.

Lemma pool_wf_next cl next next' p :
  pool_wf cl next p -> (next <= next')%nat -> pool_wf cl next' p.
Proof.
  intros [? ? ? Ho ?] ?. split; try done. intros id ch [? ?]%Ho. split; [done|lia].
Qed.

Lemma pool_wf_close cl next p ch :
  pool_wf cl next p -> (forall id, Running p !! id <> Some ch) -> pool_wf ({[ch]} ∪ cl) next p.
Proof.
  intros [? ? ? Ho ?] Hch. split; try done. intros id ch' Hid. destruct (Ho id ch' Hid).
  split; [|done]. intros [->%elem_of_singleton|?]%elem_of_union; [by eapply Hch|done].
Qed.

Lemma pool_wf_assign cl next p t :
  pool_wf cl next p -> (forall ch, ch ∈ cl -> (ch < next)%nat) ->
  pick (Running p) (Tasks p) = Some t ->
  pool_wf cl (S next) (MkPool (Tasks p) (<[TaskId t := next]> (Running p)) (Finished p)).
Proof.
  intros [Hids Hr Hf Ho Hi] Hcl (Hin & Hn & Htodo)%pick_Some.
  apply list_elem_of_lookup in Hin as [i Hit]. pose proof (Hids _ _ Hit) as Hid.
  split; cbn; try done.
  - intros id ch [[<- _]|[_ Hid']]%lookup_insert_Some; [|by eapply Hr].
    rewrite Hid. split; [lia|]. exists t. by rewrite Nat2Z.id.
  - intros id ch [[_ <-]|[_ Hid']]%lookup_insert_Some.
    + split; [|lia]. intros ?%Hcl. lia.
    + destruct (Ho _ _ Hid'). split; [done|lia].
  - intros a b ch [[<- <-]|[? Ha]]%lookup_insert_Some [[<- Hb]|[? Hb]]%lookup_insert_Some.
    + done.
    + apply Ho in Hb. lia.
    + apply Ho in Ha. lia.
    + by eapply Hi.
Qed.

Lemma pool_wf_delete cl next p id ch :
  pool_wf cl next p -> Running p !! id = Some ch ->
  pool_wf ({[ch]} ∪ cl) next (MkPool (Tasks p) (delete id (Running p)) (Finished p)).
Proof.
  intros Hwf Hid. apply pool_wf_close.
  - destruct Hwf as [Hids Hr Hf Ho Hi]. split; cbn; try done.
    + intros j c [_ Hj]%lookup_delete_Some. by eapply Hr.
    + intros j c [_ Hj]%lookup_delete_Some. by eapply Ho.
    + intros i j c [_ ?]%lookup_delete_Some [_ ?]%lookup_delete_Some. by eapply Hi.
  - cbn. intros j [Hne Hj]%lookup_delete_Some. apply Hne. by eapply pw_inj.
Qed.

Lemma n_done_insert (l : list T) i t :
  l !! i = Some t -> todoP t ->
  length (filter doneP (<[i := set_task_done t]> l)) = S (length (filter doneP l)).
Proof.
  intros Hi Ht. rewrite (insert_take_drop l i) by (by eapply lookup_lt_Some).
  rewrite <- (take_drop_middle l i t Hi) at 3.
  rewrite !length_filter_app, (filter_cons_True doneP), (filter_cons_False doneP).
  - cbn. lia.
  - unfold doneP, todoP in *. congruence.
  - apply set_done_done.
Qed.

(** FinishTask's case, and a timeout's, on a well-formed pool. *)
Lemma finish_spec cl next p id :
  pool_wf cl next p ->
  (Running p !! id = None /\ finish cl id p = Ret (p, cl)) \/
  (exists ch t, Running p !! id = Some ch /\ Tasks p !! Z.to_nat id = Some t /\ todoP t /\ 0 <= id /\
     finish cl id p = Ret (MkPool (<[Z.to_nat id := set_task_done t]> (Tasks p))
       (delete id (Running p)) (Finished p + 1), {[ch]} ∪ cl)).
Proof.
  intros Hwf. unfold finish, close_running. destruct (Running p !! id) as [ch|] eqn:E.
  - right. destruct (pw_running _ _ _ Hwf _ _ E) as (Hid & t & Ht & Htodo).
    destruct (pw_open _ _ _ Hwf _ _ E) as [Ho _]. exists ch, t. split_and!; try done.
    case_decide; [done|]. cbn [res_bind]. rewrite bool_decide_eq_true_2 by done.
    assert (idx (Tasks p) id = Ret t) as Hx by (by apply idx_Ret).
    pose proof (idx_range _ _ _ Hx). rewrite Hx. cbn [res_bind].
    assert (set_idx (Tasks p) id (set_task_done t) =
            Ret (<[Z.to_nat id := set_task_done t]> (Tasks p))) as -> by (by apply set_idx_Ret).
    done.
  - left. split; [done|]. cbn. rewrite delete_id by done. by destruct p.
Qed.

Lemma finish_wf cl next p id ch t :
  pool_wf cl next p -> Running p !! id = Some ch -> Tasks p !! Z.to_nat id = Some t -> todoP t ->
  pool_wf ({[ch]} ∪ cl) next
    (MkPool (<[Z.to_nat id := set_task_done t]> (Tasks p)) (delete id (Running p))
       (Finished p + 1)).
Proof.
  intros Hwf Hid Ht Htodo. pose proof (pool_wf_delete _ _ _ _ _ Hwf Hid) as [Hids Hr Hf Ho Hi].
  split; cbn in *; try done.
  - intros i u [(<- & <- & _)|[_ Hu]]%list_lookup_insert_Some; [|by apply Hids].
    rewrite set_done_id. by apply Hids.
  - intros j c Hj. destruct (Hr j c Hj) as (Hj0 & u & Hu & Hutodo). split; [done|]. exists u.
    split; [|done]. rewrite list_lookup_insert_ne; [done|].
    apply lookup_delete_Some in Hj as [Hne _]. destruct (pw_running _ _ _ Hwf _ _ Hid). lia.
  - rewrite Hf. unfold n_done. cbn. rewrite n_done_insert by done. lia.
Qed.

Lemma evict_spec cl next p id :
  pool_wf cl next p ->
  (Running p !! id = None /\ evict cl id p = Ret (p, cl)) \/
  (exists ch, Running p !! id = Some ch /\
     evict cl id p = Ret (MkPool (Tasks p) (delete id (Running p)) (Finished p), {[ch]} ∪ cl)).
Proof.
  intros Hwf. unfold evict, close_running. destruct (Running p !! id) as [ch|] eqn:E.
  - right. exists ch. split; [done|]. destruct (pw_open _ _ _ Hwf _ _ E) as [Ho _].
    by case_decide.
  - left. split; [done|]. cbn. rewrite delete_id by done. by destruct p.
Qed.
End pool_lemmas.

(** ** The coordinator *)

(** What a waiting monitor's run is: still under way, or reported. *)
Definition mon_ok {T} `{TaskOps T} (cl : gset nat) (p : pool T) (id : Z) (ch : nat) : Prop :=
  Running p !! id = Some ch \/
  (ch ∈ cl /\ 0 <= id /\ exists t, Tasks p !! Z.to_nat id = Some t /\ doneP t).

Definition monitor_ok (c : Coordinator) (m : monitor) : Prop :=
  exists ch, cancelCh m = Some ch /\ (ch < next_ch c)%nat /\
    match mon_type m with
    | TMap => mon_ok (closed c) (maps c) (mon_id m) ch
    | TReduce => mon_ok (closed c) (reduces c) (mon_id m) ch
    end.

Record coord_wf (c : Coordinator) : Prop := {
  cw_maps : pool_wf (closed c) (next_ch c) (maps c);
  cw_reduces : pool_wf (closed c) (next_ch c) (reduces c);
  cw_disjoint : forall i j ch, Running (maps c) !! i = Some ch ->
    Running (reduces c) !! j <> Some ch;
  cw_closed : forall ch, ch ∈ closed c -> (ch < next_ch c)%nat;
  cw_phase : (exists id, is_Some (Running (reduces c) !! id)) \/ 0 < Finished (reduces c) ->
    all_done (maps c);
  cw_monitors : Forall (monitor_ok c) (monitors c);
  cw_unique : NoDup (cancelCh <$> monitors c);
  cw_watched_map : forall id ch, Running (maps c) !! id = Some ch ->
    MkMonitor TMap id (Some ch) ∈ monitors c;
  cw_watched_reduce : forall id ch, Running (reduces c) !! id = Some ch ->
    MkMonitor TReduce id (Some ch) ∈ monitors c;
}.

Lemma all_done_not_running {T} `{TaskLaws T} cl next (p : pool T) id :
  pool_wf cl next p -> all_done p -> Running p !! id = None.
Proof.
  intros Hwf Hd. destruct (Running p !! id) as [ch|] eqn:E; [|done].
  destruct (pw_running _ _ _ Hwf _ _ E) as (_ & t & Ht & Htodo).
  apply list_elem_of_lookup_2, Hd in Ht. unfold doneP, todoP in *. congruence.
Qed.

(** *** Closing a channel of one kind *)

Lemma mon_ok_close {T} `{TaskOps T} cl (p : pool T) id ch ch' :
  mon_ok cl p id ch' -> mon_ok ({[ch]} ∪ cl) p id ch'.
Proof. intros [?|(? & ?)]; [by left|right]. split; [set_solver|done]. Qed.

(** A run of [p] reported: the monitors of [p] stay right. *)
Lemma mon_ok_finish {T} `{TaskLaws T} cl next (p : pool T) id ch t id' ch' :
  pool_wf cl next p -> Running p !! id = Some ch -> Tasks p !! Z.to_nat id = Some t ->
  todoP t -> mon_ok cl p id' ch' ->
  mon_ok ({[ch]} ∪ cl) (MkPool (<[Z.to_nat id := set_task_done t]> (Tasks p))
    (delete id (Running p)) (Finished p + 1)) id' ch'.
Proof.
  intros Hwf Hid Ht Htodo Hm. destruct (pw_running _ _ _ Hwf _ _ Hid) as [Hid0 _].
  assert (doneP (set_task_done t)) as Hd by apply set_done_done.
  pose proof (lookup_lt_Some _ _ _ Ht) as Hlt.
  destruct (decide (id' = id)) as [->|Hne].
  - right. cbn. split.
    + destruct Hm as [Hm|[? _]]; [|set_solver]. rewrite Hid in Hm. injection Hm as ->. set_solver.
    + split; [done|]. exists (set_task_done t). split; [|done]. by apply list_lookup_insert_eq.
  - destruct Hm as [Hm|(Hcl & Hid' & u & Hu & Hud)]; [left|right]; cbn.
    + by rewrite lookup_delete_ne.
    + split; [set_solver|]. split; [done|]. exists u. split; [|done].
      rewrite list_lookup_insert_ne; [done|lia].
Qed.

Lemma all_done_finish {T} `{TaskLaws T} (p : pool T) i t running f :
  all_done p -> all_done (MkPool (<[i := set_task_done t]> (Tasks p)) running f).
Proof.
  intros Hd u Hu. cbn in Hu. apply list_elem_of_lookup in Hu as [j Hj].
  apply list_lookup_insert_Some in Hj as [(_ & <- & _)|[_ Hj]]; [apply set_done_done|].
  apply Hd. by eapply list_elem_of_lookup_2.
Qed.

(** *** The operations keep the invariant *)

Ltac ccbn := cbn [nReduce maps reduces next_ch closed monitors fst snd Tasks Running Finished
  cancelCh mon_type mon_id fmap list_fmap].


Lemma GetTask_wf c : coord_wf c -> coord_wf (GetTask c).1.
Proof.
  intros Hwf. pose proof Hwf as [Hm Hr Hdj Hcl Hph Hmon Hu Hwm Hwr]. unfold GetTask.
  assert (~ Some (next_ch c) ∈ (cancelCh <$> monitors c)) as Hnew.
  { intros (m & Heq & Hin)%list_elem_of_fmap.
    destruct (proj1 (Forall_forall _ _) Hmon m Hin) as (ch & Hc & Hlt & _). rewrite Hc in Heq.
    injection Heq as Heq. lia. }
  destruct (decide (_ \/ _)) as [_|Hno].
  - destruct (has_left (maps c)) eqn:Hl; [|done].
    apply (has_left_pick _ _ _ Hm) in Hl as [t Ht]. unfold assign. rewrite Ht.
    rewrite lookup_insert_eq. ccbn.
    destruct (pick_Some _ _ _ Ht) as (Hin & Hnr & Htodo).
    split; ccbn; try done.
    + by apply pool_wf_assign.
    + eapply pool_wf_next; [done|lia].
    + intros i j ch [[_ <-]|[_ Hi]]%lookup_insert_Some Hj; [|by eapply Hdj].
      apply (pw_open _ _ _ Hr) in Hj. lia.
    + intros ch Hc. apply Hcl in Hc. lia.
    + apply Forall_cons. split.
      * exists (next_ch c). ccbn. split_and!; [done|lia|]. left. ccbn. by rewrite lookup_insert_eq.
      * eapply Forall_impl; [done|]. intros m (ch & Hc & Hlt & Hok). exists ch.
        split_and!; [done|ccbn; lia|]. destruct (mon_type m); [|done].
        destruct Hok as [Hok|Hok]; [left|by right]. ccbn. rewrite lookup_insert_ne; [done|].
        intros Heq. rewrite Heq in Hnr. congruence.
    + apply NoDup_cons. done.
    + intros id ch [[<- <-]|[_ Hi]]%lookup_insert_Some; [by left|right; auto].
    + intros id ch Hi. right. auto.
  - destruct (has_left (reduces c)) eqn:Hl; [|by case_decide].
    apply (has_left_pick _ _ _ Hr) in Hl as [t Ht]. unfold assign. rewrite Ht.
    rewrite lookup_insert_eq. ccbn.
    destruct (pick_Some _ _ _ Ht) as (Hin & Hnr & Htodo).
    assert (all_done (maps c)) as Hall.
    { apply (all_done_finished _ _ _ Hm). destruct (has_left (maps c)) eqn:Hlm; [tauto|].
      unfold has_left in Hlm. apply bool_decide_eq_false in Hlm.
      pose proof (todo_count _ _ _ Hm). pose proof (zlen_nonneg (todo_ids (maps c))). lia. }
    split; ccbn; try done.
    + eapply pool_wf_next; [done|lia].
    + by apply pool_wf_assign.
    + intros i j ch Hi [[_ <-]|[_ Hj]]%lookup_insert_Some; [|by eapply Hdj].
      apply (pw_open _ _ _ Hm) in Hi. lia.
    + intros ch Hc. apply Hcl in Hc. lia.
    + apply Forall_cons. split.
      * exists (next_ch c). ccbn. split_and!; [done|lia|]. left. ccbn. by rewrite lookup_insert_eq.
      * eapply Forall_impl; [done|]. intros m (ch & Hc & Hlt & Hok). exists ch.
        split_and!; [done|ccbn; lia|]. destruct (mon_type m); [done|].
        destruct Hok as [Hok|Hok]; [left|by right]. ccbn. rewrite lookup_insert_ne; [done|].
        intros Heq. rewrite Heq in Hnr. congruence.
    + apply NoDup_cons. done.
    + intros id ch Hi. right. auto.
    + intros id ch [[<- <-]|[_ Hi]]%lookup_insert_Some; [by left|right; auto].
Qed.

Lemma FinishTask_wf args c :
  coord_wf c -> exists c', FinishTask args c = Ret c' /\ coord_wf c'.
Proof.
  intros Hwf. pose proof Hwf as [Hm Hr Hdj Hcl Hph Hmon Hu Hwm Hwr].
  unfold FinishTask. destruct (f_TaskType args) as [[]|]; [| |by exists c].
  - destruct (finish_spec _ _ _ (f_TaskId args) Hm)
      as [[_ ->]|(ch & t & Hid & Ht & Htodo & Hid0 & ->)]; cbn [res_bind].
    { exists c. split; [by destruct c|done]. }
    eexists. split; [reflexivity|]. split; ccbn; try done.
    + by apply finish_wf.
    + apply pool_wf_close; [done|]. intros j. by eapply Hdj.
    + intros i j ch' [_ Hi]%lookup_delete_Some. by eapply Hdj.
    + intros ch' [->%elem_of_singleton|?]%elem_of_union; [|auto]. exact (proj2 (pw_open _ _ _ Hm _ _ Hid)).
    + intros Hp. by apply all_done_finish, Hph.
    + eapply Forall_impl; [done|]. intros m (ch' & Hc & Hlt & Hok). exists ch'.
      split_and!; [done|done|]. destruct (mon_type m); [by eapply mon_ok_finish|].
      by apply mon_ok_close.
    + intros id ch' [_ ?]%lookup_delete_Some. auto.
  - destruct (finish_spec _ _ _ (f_TaskId args) Hr)
      as [[_ ->]|(ch & t & Hid & Ht & Htodo & Hid0 & ->)]; cbn [res_bind].
    { exists c. split; [by destruct c|done]. }
    eexists. split; [reflexivity|]. split; ccbn; try done.
    + apply pool_wf_close; [done|]. intros j Hj. by eapply Hdj.
    + by apply finish_wf.
    + intros i j ch' Hi [_ Hj]%lookup_delete_Some. by eapply Hdj.
    + intros ch' [->%elem_of_singleton|?]%elem_of_union; [|auto]. exact (proj2 (pw_open _ _ _ Hr _ _ Hid)).
    + intros _. apply Hph. left. exists (f_TaskId args). by eexists.
    + eapply Forall_impl; [done|]. intros m (ch' & Hc & Hlt & Hok). exists ch'.
      split_and!; [done|done|]. destruct (mon_type m); [by apply mon_ok_close|].
      by eapply mon_ok_finish.
    + intros id ch' [_ ?]%lookup_delete_Some. auto.
Qed.

(** Dropping a monitor whose channel no other has. *)
Lemma delete_elem {A B} (f : A -> B) (l : list A) k m :
  l !! k = Some m -> NoDup (f <$> l) ->
  NoDup (f <$> delete k l) /\ forall x, x ∈ delete k l <-> x ∈ l /\ f x <> f m.
Proof.
  intros Hk Hnd. rewrite delete_take_drop. rewrite <- (take_drop_middle l k m Hk) in Hnd.
  rewrite fmap_app, fmap_cons in *. apply NoDup_app in Hnd as (H1 & H2 & H3).
  apply NoDup_cons in H3 as [H3 H4]. split.
  { apply NoDup_app. split_and!; try done. intros x Hx Hx'. by eapply H2; [|right]. }
  assert (l = take k l ++ m :: drop (S k) l) as Hl by (symmetry; by apply take_drop_middle).
  intros x. rewrite Hl at 3. rewrite !elem_of_app, elem_of_cons. split.
  - intros [Hx|Hx]; (split; [tauto|]); intros Heq.
    + apply (H2 (f x)); [by apply list_elem_of_fmap_2|]. rewrite Heq. by left.
    + apply H3. rewrite <- Heq. by apply list_elem_of_fmap_2.
  - intros [[?|[->|?]] ?]; auto. done.
Qed.

(** A timeout that finds its task running finds its own run. *)
Lemma timeout_own_run {T} `{TaskLaws T} cl next (p : pool T) id ch ch' :
  pool_wf cl next p -> mon_ok cl p id ch -> Running p !! id = Some ch' -> ch' = ch.
Proof.
  intros Hwf [Hok|(_ & _ & t & Ht & Hd)] Hid; [congruence|].
  destruct (pw_running _ _ _ Hwf _ _ Hid) as (_ & u & Hu & Htodo).
  unfold doneP, todoP in *. congruence.
Qed.

(** A task evicted: the monitors of the other runs stay right. *)
Lemma mon_ok_evict {T} `{TaskOps T} cl (p : pool T) id ch id' ch' :
  Running p !! id = Some ch -> ch' <> ch -> mon_ok cl p id' ch' ->
  mon_ok ({[ch]} ∪ cl) (MkPool (Tasks p) (delete id (Running p)) (Finished p)) id' ch'.
Proof.
  intros Hid Hne [Hok|(? & ?)]; [left|right]; cbn.
  - rewrite lookup_delete_ne; [done|]. intros <-. congruence.
  - split; [set_solver|done].
Qed.

Lemma drop_monitor_wf c k m :
  coord_wf c -> monitors c !! k = Some m ->
  (forall id ch, cancelCh m = Some ch -> Running (maps c) !! id <> Some ch /\
     Running (reduces c) !! id <> Some ch) ->
  coord_wf (drop_monitor k c).
Proof.
  intros [Hm Hr Hdj Hcl Hph Hmon Hu Hwm Hwr] Hk Hnr.
  destruct (delete_elem cancelCh _ _ _ Hk Hu) as [Hu' Hel].
  split; ccbn; try done.
  - apply Forall_forall. intros m' [Hin _]%Hel.
    exact (proj1 (Forall_forall _ _) Hmon m' Hin).
  - intros id ch Hid. apply Hel. split; [auto|]. cbn. intros Heq. symmetry in Heq.
    by destruct (Hnr id ch Heq).
  - intros id ch Hid. apply Hel. split; [auto|]. cbn. intros Heq. symmetry in Heq.
    by destruct (Hnr id ch Heq).
Qed.

Lemma cancelled_wf c k m :
  coord_wf c -> monitors c !! k = Some m -> TaskMonitor_cancelled m c = true ->
  coord_wf (drop_monitor k c).
Proof.
  intros Hwf Hk Hc. eapply drop_monitor_wf; [done|done|]. intros id ch Heq.
  unfold TaskMonitor_cancelled in Hc. rewrite Heq in Hc. apply bool_decide_eq_true in Hc.
  split; intros Hid.
  - by destruct (pw_open _ _ _ (cw_maps _ Hwf) _ _ Hid).
  - by destruct (pw_open _ _ _ (cw_reduces _ Hwf) _ _ Hid).
Qed.

(** What a timeout does to the pool of its kind, and the monitors left. *)
Lemma timeout_monitors c k m ch P :
  coord_wf c -> monitors c !! k = Some m -> cancelCh m = Some ch ->
  (forall m', m' ∈ monitors c -> monitor_ok c m' -> cancelCh m' <> Some ch -> P m') ->
  Forall P (delete k (monitors c)).
Proof.
  intros Hwf Hk Hc HP. destruct (delete_elem cancelCh _ _ _ Hk (cw_unique _ Hwf)) as [_ Hel].
  apply Forall_forall. intros m' [Hin Hne]%Hel. rewrite Hc in Hne. apply HP; [done| |done].
  exact (proj1 (Forall_forall _ _) (cw_monitors _ Hwf) m' Hin).
Qed.

Lemma timeout_wf c k m :
  coord_wf c -> monitors c !! k = Some m ->
  exists c', TaskMonitor_timeout m c = Ret c' /\ coord_wf (drop_monitor k c').
Proof.
  intros Hwf Hk. pose proof Hwf as [Hm Hr Hdj Hcl Hph Hmon Hu Hwm Hwr].
  pose proof (proj1 (Forall_forall _ _) Hmon m (list_elem_of_lookup_2 _ _ _ Hk))
    as (ch & Hc & Hlt & Hok).
  destruct (delete_elem cancelCh _ _ _ Hk Hu) as [Hu' Hel]. rewrite Hc in Hel.
  unfold TaskMonitor_timeout. destruct (mon_type m).
  - destruct (evict_spec _ _ _ (mon_id m) Hm) as [[Hn ->]|(ch' & Hid & ->)]; cbn [res_bind].
    + exists c. split; [by destruct c|]. eapply drop_monitor_wf; [done|done|].
      intros id ch' Heq. rewrite Hc in Heq. injection Heq as <-.
      destruct Hok as [Hok|(Hcld & _)]; [congruence|].
      split; intros Hid; [by destruct (pw_open _ _ _ Hm _ _ Hid)|
                          by destruct (pw_open _ _ _ Hr _ _ Hid)].
    + pose proof (timeout_own_run _ _ _ _ _ _ Hm Hok Hid) as ->.
      eexists. split; [reflexivity|]. unfold drop_monitor. split; ccbn; try done.
      * by apply pool_wf_delete.
      * apply pool_wf_close; [done|]. intros j. by eapply Hdj.
      * intros i j c' [_ Hi]%lookup_delete_Some. by eapply Hdj.
      * intros c' [->%elem_of_singleton|?]%elem_of_union; auto.
      * eapply timeout_monitors; [done|done|done|].
        intros m' _ (c' & Hc' & Hlt' & Hok') Hne. exists c'. split_and!; [done|done|]. ccbn.
        destruct (mon_type m'); [|by apply mon_ok_close].
        apply mon_ok_evict; [done|congruence|done].
      * intros id c' [Hne Hi]%lookup_delete_Some. apply Hel. split; [auto|].
        intros Heq. injection Heq as ->. apply Hne. by eapply (pw_inj _ _ _ Hm).
      * intros id c' Hi. apply Hel. split; [auto|]. intros Heq. injection Heq as ->.
        by eapply Hdj.
  - destruct (evict_spec _ _ _ (mon_id m) Hr) as [[Hn ->]|(ch' & Hid & ->)]; cbn [res_bind].
    + exists c. split; [by destruct c|]. eapply drop_monitor_wf; [done|done|].
      intros id ch' Heq. rewrite Hc in Heq. injection Heq as <-.
      destruct Hok as [Hok|(Hcld & _)]; [congruence|].
      split; intros Hid; [by destruct (pw_open _ _ _ Hm _ _ Hid)|
                          by destruct (pw_open _ _ _ Hr _ _ Hid)].
    + pose proof (timeout_own_run _ _ _ _ _ _ Hr Hok Hid) as ->.
      eexists. split; [reflexivity|]. unfold drop_monitor. split; ccbn; try done.
      * apply pool_wf_close; [done|]. intros j Hj. by eapply Hdj.
      * by apply pool_wf_delete.
      * intros i j c' Hi [_ Hj]%lookup_delete_Some. by eapply Hdj.
      * intros c' [->%elem_of_singleton|?]%elem_of_union; auto.
      * intros [[id [c' [_ Hi]%lookup_delete_Some]]|Hf]; apply Hph; [left|by right].
        exists id. by eexists.
      * eapply timeout_monitors; [done|done|done|].
        intros m' _ (c' & Hc' & Hlt' & Hok') Hne. exists c'. split_and!; [done|done|]. ccbn.
        destruct (mon_type m'); [by apply mon_ok_close|].
        apply mon_ok_evict; [done|congruence|done].
      * intros id c' Hi. apply Hel. split; [auto|]. intros Heq. injection Heq as ->.
        by eapply Hdj.
      * intros id c' [Hne Hi]%lookup_delete_Some. apply Hel. split; [auto|].
        intros Heq. injection Heq as ->. apply Hne. by eapply (pw_inj _ _ _ Hr).
Qed.

Lemma initial_wf files n c : initial files n c -> coord_wf c.
Proof.
  unfold initial, MakeCoordinator. intros. case_decide; inv_res.
  split; ccbn; try (intros; by rewrite lookup_empty in * ); try done.
  - split; ccbn; try (intros ??; by rewrite lookup_empty); try (intros ???; by rewrite lookup_empty).
    + intros i t. rewrite list_lookup_imap. intros (f & _ & ->)%fmap_Some. done.
    + unfold n_done. cbn. rewrite length_filter_none; [done|].
      apply Forall_forall. intros t [i Hi]%list_elem_of_lookup. rewrite list_lookup_imap in Hi.
      apply fmap_Some in Hi as (f & _ & ->). done.
  - split; ccbn; try (intros ??; by rewrite lookup_empty); try (intros ???; by rewrite lookup_empty).
    + intros i t. rewrite list_lookup_fmap. intros (j & Hj & ->)%fmap_Some.
      apply lookup_seqZ in Hj as [-> _]. cbn. lia.
    + unfold n_done. cbn. rewrite length_filter_none; [done|].
      apply Forall_forall. intros t (j & -> & _)%list_elem_of_fmap. done.
  - intros [[id [? Hx]]|Hx]; [by rewrite lookup_empty in Hx|lia].
  - constructor.
Qed.

Lemma step_wf c c' : coord_wf c -> step c c' -> coord_wf c'.
Proof.
  intros Hwf Hs. destruct Hs as [c|args c c' H|k m c c' Hk H|k m c Hk H].
  - by apply GetTask_wf.
  - destruct (FinishTask_wf args c Hwf) as (c1 & H1 & ?). by rewrite H1 in H; inv_res.
  - destruct (timeout_wf c k m Hwf Hk) as (c1 & H1 & ?). by rewrite H1 in H; inv_res.
  - by eapply cancelled_wf.
Qed.

Lemma reachable_wf files n c : reachable step (initial files n) c -> coord_wf c.
Proof. apply reachable_invariant; [apply initial_wf|apply step_wf]. Qed.

(** ** What the coordinator guarantees *)

(** C28 (the coordinator's invariant).  In every state the coordinator reaches, however
    the workers' requests, late and repeated reports and timeouts interleave, no
    operation stops the process (no channel is closed twice, no index is out of range);
    each counter is the number of the tasks done; a running task is not done, and a
    timeout will hand it out again if its worker is lost. *)
Theorem coordinator_invariant files n c :
  reachable step (initial files n) c ->
  (forall args, returns (FinishTask args c)) /\
  (forall k m, monitors c !! k = Some m -> returns (TaskMonitor_timeout m c)) /\
  Finished (maps c) = Z.of_nat (n_done (maps c)) /\
  Finished (reduces c) = Z.of_nat (n_done (reduces c)) /\
  (forall id ch, Running (maps c) !! id = Some ch ->
     (exists t, Tasks (maps c) !! Z.to_nat id = Some t /\ mt_done t = false) /\
     MkMonitor TMap id (Some ch) ∈ monitors c) /\
  (forall id ch, Running (reduces c) !! id = Some ch ->
     (exists t, Tasks (reduces c) !! Z.to_nat id = Some t /\ rt_done t = false) /\
     MkMonitor TReduce id (Some ch) ∈ monitors c).
Proof.
  intros Hwf%reachable_wf. split_and!.
  - intros args. destruct (FinishTask_wf args c Hwf) as (c' & -> & _). by eexists.
  - intros k m Hk. destruct (timeout_wf c k m Hwf Hk) as (c' & -> & _). by eexists.
  - eapply pw_finished. apply Hwf.
  - eapply pw_finished. apply Hwf.
  - intros id ch Hid. destruct (pw_running _ _ _ (cw_maps _ Hwf) _ _ Hid) as (_ & t & ? & ?).
    split; [by exists t|by apply Hwf].
  - intros id ch Hid. destruct (pw_running _ _ _ (cw_reduces _ Hwf) _ _ Hid) as (_ & t & ? & ?).
    split; [by exists t|by apply Hwf].
Qed.

(** A task that can be handed out. *)
Definition assignable {T} `{TaskOps T} (p : pool T) (t : T) : Prop :=
  t ∈ Tasks p /\ Running p !! TaskId t = None /\ todoP t.

Definition GetTask_spec (c c' : Coordinator) (reply : GetTaskReply) : Prop :=
  match r_TaskType reply with
  | RMap => exists t, assignable (maps c) t /\ r_TaskId reply = TaskId t /\
      r_FileName reply = FileName t /\ r_NReduce reply = nReduce c /\
      is_Some (Running (maps c') !! TaskId t)
  | RReduce => all_done (maps c) /\ exists t, assignable (reduces c) t /\
      r_TaskId reply = TaskId t /\ r_NReduce reply = nReduce c /\
      is_Some (Running (reduces c') !! TaskId t)
  | RWait => c' = c /\ ((forall t, ~ assignable (maps c) t) /\ Running (maps c) <> ∅ \/
      all_done (maps c) /\ (forall t, ~ assignable (reduces c) t) /\ Running (reduces c) <> ∅)
  | RDone => c' = c /\ all_done (maps c) /\ all_done (reduces c)
  | RNone => False
  end.

Lemma no_assignable {T} `{TaskLaws T} cl next (p : pool T) :
  pool_wf cl next p -> has_left p = false -> forall t, ~ assignable p t.
Proof.
  intros Hwf Hl t (Hin & Hr & Htodo).
  destruct (pick (Running p) (Tasks p)) eqn:E.
  - rewrite (proj2 (has_left_pick _ _ _ Hwf)) in Hl; [done|by eexists].
  - destruct (pick_None _ _ _ E Hin Htodo). congruence.
Qed.

Lemma no_left_all_done {T} `{TaskLaws T} cl next (p : pool T) :
  pool_wf cl next p -> has_left p = false -> size (Running p) = 0%nat -> all_done p.
Proof.
  intros Hwf Hl Hs. apply (all_done_finished _ _ _ Hwf). unfold has_left in Hl.
  apply bool_decide_eq_false in Hl. pose proof (todo_count _ _ _ Hwf).
  pose proof (zlen_nonneg (todo_ids p)). lia.
Qed.

Lemma size_pos_nonempty (r : gmap Z nat) : Z.of_nat (size r) > 0 -> r <> ∅.
Proof. intros Hs ->. rewrite map_size_empty in Hs. lia. Qed.

Lemma GetTask_meets_spec c : coord_wf c -> GetTask_spec c (GetTask c).1 (GetTask c).2.
Proof.
  intros Hwf. destruct Hwf as [Hm Hr _ _ _ _ _ _ _]. unfold GetTask.
  destruct (decide (_ \/ _)) as [Hsome|Hno].
  - destruct (has_left (maps c)) eqn:Hl.
    + apply (has_left_pick _ _ _ Hm) in Hl as [t Ht]. unfold assign. rewrite Ht.
      exists t. destruct (pick_Some _ _ _ Ht) as (? & ? & ?). cbn. split_and!; try done.
      rewrite lookup_insert_eq. by eexists.
    + split; [done|]. left. split; [by eapply no_assignable|].
      destruct Hsome as [?|?]; [by apply size_pos_nonempty|done].
  - assert (has_left (maps c) = false) as Hlm by (destruct (has_left (maps c)); tauto).
    assert (all_done (maps c)) as Hall.
    { eapply no_left_all_done; [exact Hm|done|]. lia. }
    destruct (has_left (reduces c)) eqn:Hl.
    + apply (has_left_pick _ _ _ Hr) in Hl as [t Ht]. unfold assign. rewrite Ht.
      split; [done|]. exists t. destruct (pick_Some _ _ _ Ht) as (? & ? & ?). cbn.
      split_and!; try done. rewrite lookup_insert_eq. by eexists.
    + case_decide as Hrun; cbn.
      * split; [done|]. right. split; [done|]. split; [by eapply no_assignable|].
        by apply size_pos_nonempty.
      * split_and!; [done|done|]. eapply no_left_all_done; [exact Hr|done|]. lia.
Qed.

(** GetTask.  In every reachable state the reply is a map task that was not done nor
    running, with its file; or, only when every map task is done, such a reduce task; or
    "wait" when every task of the phase is done or running; or "done" when all tasks are
    done.  The task handed out is then running. *)
Lemma GetTask_answers files n c :
  reachable step (initial files n) c -> GetTask_spec c (GetTask c).1 (GetTask c).2.
Proof. intros Hwf%reachable_wf. by apply GetTask_meets_spec. Qed.

(** Done.  [Done] is true exactly when every task is done, which is exactly when a
    worker is told so. *)
Lemma Done_when_all_done files n c :
  reachable step (initial files n) c ->
  (Done c = true <-> all_done (maps c) /\ all_done (reduces c)) /\
  (r_TaskType (GetTask c).2 = RDone <-> Done c = true).
Proof.
  intros Hwf%reachable_wf. pose proof Hwf as [Hm Hr _ _ _ _ _ _ _].
  assert (Done c = true <-> all_done (maps c) /\ all_done (reduces c)) as Hd.
  { unfold Done. rewrite andb_true_iff, !bool_decide_eq_true.
    by rewrite (all_done_finished _ _ _ Hm), (all_done_finished _ _ _ Hr). }
  split; [done|]. rewrite Hd. pose proof (GetTask_meets_spec c Hwf) as Hspec.
  unfold GetTask_spec in Hspec. split.
  - intros Heq. rewrite Heq in Hspec. tauto.
  - intros [Ham Har]. destruct (r_TaskType (GetTask c).2); try done; exfalso.
    + destruct Hspec as (t & (Hin & _ & Htodo) & _). apply Ham in Hin.
      unfold doneP, todoP in *. congruence.
    + destruct Hspec as (_ & t & (Hin & _ & Htodo) & _). apply Har in Hin.
      unfold doneP, todoP in *. congruence.
    + destruct Hspec as [_ [[_ Hne]|(_ & _ & Hne)]]; apply Hne, map_empty; intros id;
        by eapply all_done_not_running.
Qed.

(** A timeout takes back the run its monitor was started for and no
    other; when that run was reported in time it changes nothing. *)
Lemma timeout_takes_own_run files n c k m :
  reachable step (initial files n) c -> monitors c !! k = Some m ->
  exists ch c', cancelCh m = Some ch /\ TaskMonitor_timeout m c = Ret c' /\
    Tasks (maps c') = Tasks (maps c) /\ Tasks (reduces c') = Tasks (reduces c) /\
    match mon_type m with
    | TMap => Running (reduces c') = Running (reduces c) /\
        Running (maps c') = (if decide (Running (maps c) !! mon_id m = Some ch)
                             then delete (mon_id m) (Running (maps c)) else Running (maps c))
    | TReduce => Running (maps c') = Running (maps c) /\
        Running (reduces c') = (if decide (Running (reduces c) !! mon_id m = Some ch)
                                then delete (mon_id m) (Running (reduces c))
                                else Running (reduces c))
    end.
Proof.
  intros Hwf%reachable_wf Hk. pose proof Hwf as [Hm Hr _ _ _ Hmon _ _ _].
  destruct (proj1 (Forall_forall _ _) Hmon m (list_elem_of_lookup_2 _ _ _ Hk))
    as (ch & Hc & _ & Hok).
  exists ch. unfold TaskMonitor_timeout. destruct (mon_type m).
  - destruct (evict_spec _ _ _ (mon_id m) Hm) as [[Hn ->]|(ch' & Hid & ->)];
      eexists; (split; [done|]); (split; [reflexivity|]); cbn; split_and!; try done.
    + rewrite Hn. by case_decide.
    + pose proof (timeout_own_run _ _ _ _ _ _ Hm Hok Hid) as ->. by case_decide.
  - destruct (evict_spec _ _ _ (mon_id m) Hr) as [[Hn ->]|(ch' & Hid & ->)];
      eexists; (split; [done|]); (split; [reflexivity|]); cbn; split_and!; try done.
    + rewrite Hn. by case_decide.
    + pose proof (timeout_own_run _ _ _ _ _ _ Hr Hok Hid) as ->. by case_decide.
Qed.

(** *** A worker alone finishes the job *)

Definition remaining (c : Coordinator) : nat :=
  length (todo_ids (maps c)) + length (todo_ids (reduces c)).

Definition idle (c : Coordinator) : Prop := Running (maps c) = ∅ /\ Running (reduces c) = ∅.

(** A task handed out by an idle pool and reported. *)
Lemma assign_finish {T} `{TaskLaws T} cl next (p : pool T) t :
  pool_wf cl next p -> Running p = ∅ -> ~ (next ∈ cl) -> pick (Running p) (Tasks p) = Some t ->
  finish cl (TaskId t) (MkPool (Tasks p) (<[TaskId t := next]> (Running p)) (Finished p)) =
    Ret (MkPool (<[Z.to_nat (TaskId t) := set_task_done t]> (Tasks p)) ∅ (Finished p + 1),
         {[next]} ∪ cl) /\
  zlen (Tasks p) - (Finished p + 1) = zlen (todo_ids p) - 1 /\ todo_ids p <> [].
Proof.
  intros Hwf Hr Hn Hpick. destruct (pick_Some _ _ _ Hpick) as (Hin & _ & Htodo).
  pose proof (todo_count _ _ _ Hwf).
  apply list_elem_of_lookup in Hin as [i Hi]. pose proof (pw_ids _ _ _ Hwf _ _ Hi) as Hid.
  split_and!; [|lia|].
  - unfold finish, close_running. cbn [Running Tasks Finished]. rewrite lookup_insert_eq.
    case_decide; [done|]. cbn [res_bind]. rewrite bool_decide_eq_true_2 by (by eexists).
    assert (idx (Tasks p) (TaskId t) = Ret t) as Hx.
    { apply idx_Ret. rewrite Hid, Nat2Z.id. split; [lia|done]. }
    pose proof (idx_range _ _ _ Hx). rewrite Hx. cbn [res_bind].
    assert (set_idx (Tasks p) (TaskId t) (set_task_done t) =
            Ret (<[Z.to_nat (TaskId t) := set_task_done t]> (Tasks p))) as ->
      by (by apply set_idx_Ret).
    cbn [res_bind]. rewrite Hr, delete_insert_eq, delete_empty. done.
  - intros Hnil. apply (not_elem_of_nil (TaskId t)). rewrite <- Hnil.
    apply list_elem_of_fmap. exists t. split; [done|]. apply list_elem_of_filter.
    split; [done|]. by eapply list_elem_of_lookup_2.
Qed.

Lemma round_progress c :
  coord_wf c -> idle c -> remaining c <> 0%nat ->
  exists c', round c = Ret c' /\ coord_wf c' /\ idle c' /\ S (remaining c') = remaining c.
Proof.
  intros Hwf [Hrm Hrr] Hrem. pose proof (GetTask_wf c Hwf) as Hwf1.
  pose proof Hwf as [Hm Hr _ Hcl _ _ _ _ _].
  assert (~ (next_ch c ∈ closed c)) as Hfresh by (intros ?%Hcl; lia).
  unfold round, GetTask in *. rewrite Hrm, Hrr, map_size_empty in *.
  destruct (decide (_ \/ _)) as [[?|Hlm]|Hno]; [lia| |].
  - rewrite Hlm in *. apply (has_left_pick _ _ _ Hm) in Hlm as [t Ht].
    unfold assign in *. rewrite Ht in *. cbn [fst r_TaskType r_TaskId] in *.
    destruct (assign_finish _ _ _ _ Hm Hrm Hfresh Ht) as (Hf & Hcount & Hne).
    destruct (FinishTask_wf (MkFinishTaskArgs (Some TMap) (TaskId t)) _ Hwf1)
      as (c' & HF & Hwf'). exists c'. split; [done|]. split; [done|].
    cbn in HF. rewrite Hrm in Hf. change (mt_TaskId t) with (TaskId t) in HF. rewrite Hrm in HF.
    rewrite Hf in HF. cbn in HF. injection HF as <-. split; [by split|].
    pose proof (todo_count _ _ _ (cw_maps _ Hwf')) as Hc'. cbn in Hc'.
    unfold remaining. cbn. unfold zlen in *. rewrite length_insert in Hc'.
    destruct (todo_ids (maps c)); [done|]. cbn [length] in *. lia.
  - assert (has_left (maps c) = false) as Hlm by (destruct (has_left (maps c)); tauto).
    destruct (has_left (reduces c)) eqn:Hlr.
    + apply (has_left_pick _ _ _ Hr) in Hlr as [t Ht].
      unfold assign in *. rewrite Ht in *. cbn [fst r_TaskType r_TaskId] in *.
      destruct (assign_finish _ _ _ _ Hr Hrr Hfresh Ht) as (Hf & Hcount & Hne).
      destruct (FinishTask_wf (MkFinishTaskArgs (Some TReduce) (TaskId t)) _ Hwf1)
        as (c' & HF & Hwf'). exists c'. split; [done|]. split; [done|].
      cbn in HF. rewrite Hrr in Hf. change (rt_TaskId t) with (TaskId t) in HF. rewrite Hrr in HF.
      rewrite Hf in HF. cbn in HF. injection HF as <-. split; [by split|].
      pose proof (todo_count _ _ _ (cw_reduces _ Hwf')) as Hc'. cbn in Hc'.
      unfold remaining. cbn. unfold zlen in *. rewrite length_insert in Hc'.
      destruct (todo_ids (reduces c)); [done|]. cbn [length] in *. lia.
    + exfalso. unfold remaining, has_left in *. rewrite Hrm in Hlm. rewrite Hrr in Hlr.
      apply bool_decide_eq_false in Hlm, Hlr. rewrite map_size_empty in *.
      pose proof (todo_count _ _ _ Hm). pose proof (todo_count _ _ _ Hr). unfold zlen in *. lia.
Qed.

(** When no task is left and none is out, the worker is told so. *)
Lemma GetTask_done c :
  coord_wf c -> idle c -> remaining c = 0%nat ->
  GetTask c = (c, MkGetTaskReply "" 0 RDone 0) /\ Done c = true.
Proof.
  intros Hwf [Hrm Hrr] H0. unfold GetTask, Done, has_left, remaining in *.
  pose proof (todo_count _ _ _ (cw_maps _ Hwf)). pose proof (todo_count _ _ _ (cw_reduces _ Hwf)).
  unfold zlen in *. rewrite Hrm, Hrr, map_size_empty.
  rewrite !bool_decide_eq_false_2 by (unfold zlen; lia). rewrite !bool_decide_eq_true_2 by (unfold zlen; lia).
  split; [|done]. by repeat (case_decide; [naive_solver lia|]).
Qed.

(** While one is left it gets a task. *)
Lemma GetTask_left c :
  coord_wf c -> idle c -> remaining c <> 0%nat ->
  r_TaskType (GetTask c).2 = RMap \/ r_TaskType (GetTask c).2 = RReduce.
Proof.
  intros Hwf Hi Hrem. destruct (round_progress c Hwf Hi Hrem) as (c' & Hr & _ & _ & Hc').
  pose proof (GetTask_meets_spec c Hwf) as Hs. unfold GetTask_spec in Hs. unfold round in Hr.
  destruct Hi as [Hrm Hrr]. destruct (GetTask c) as [c1 reply]. cbn [fst snd] in *.
  destruct (r_TaskType reply); [by left|by right|by naive_solver| |done].
  exfalso. destruct Hs as [-> _]. injection Hr as <-. lia.
Qed.

Lemma rounds_done k c :
  coord_wf c -> idle c -> (remaining c <= k)%nat ->
  exists c', rounds k c = Ret c' /\ Done c' = true.
Proof.
  revert c. induction k as [|k IH]; intros c Hwf Hidle Hk;
    (destruct (decide (remaining c = 0%nat)) as [H0|Hn]; [|try lia]).
  - exists c. split; [done|]. by apply GetTask_done.
  - assert (round c = Ret c) as Hround by (unfold round; by rewrite (proj1 (GetTask_done c Hwf Hidle H0))).
    cbn [rounds]. rewrite Hround. cbn [res_bind]. apply IH; [done|done|lia].
  - destruct (round_progress c Hwf Hidle Hn) as (c' & Hr & Hwf' & Hidle' & Hrem).
    cbn [rounds]. rewrite Hr. cbn [res_bind]. apply IH; [done|done|lia].
Qed.

(** Progress.  From every reachable state in which no task is out, a worker alone
    that asks and reports completes the job in as many rounds as there are tasks not
    done, or any larger number. *)
Theorem worker_alone_completes files n c k :
  reachable step (initial files n) c -> idle c -> (remaining c <= k)%nat ->
  exists c', rounds k c = Ret c' /\ Done c' = true.
Proof. intros Hwf%reachable_wf. by apply rounds_done. Qed.

(** *** Examples *)

Definition ex0 : Coordinator :=
  MkCoordinator 1 (MkPool [MkMapTask "a" 0 false; MkMapTask "b" 1 false] ∅ 0)
    (MkPool [MkReduceTask 0 false] ∅ 0) 0 ∅ [].

Lemma ex0_reachable : reachable step (initial ["a"; "b"]%string 1) ex0.
Proof. apply reach_init. by vm_compute. Qed.

(** One map task handed out. *)
Definition ex1 : Coordinator := (GetTask ex0).1.

Lemma ex1_reachable : reachable step (initial ["a"; "b"]%string 1) ex1.
Proof. eapply reach_step; [apply ex0_reachable|constructor]. Qed.

Lemma coordinator_invariant_witness :
  (forall args, returns (FinishTask args ex1)) /\
  (forall k m, monitors ex1 !! k = Some m -> returns (TaskMonitor_timeout m ex1)) /\
  Finished (maps ex1) = Z.of_nat (n_done (maps ex1)) /\
  Finished (reduces ex1) = Z.of_nat (n_done (reduces ex1)) /\
  (forall id ch, Running (maps ex1) !! id = Some ch ->
     (exists t, Tasks (maps ex1) !! Z.to_nat id = Some t /\ mt_done t = false) /\
     MkMonitor TMap id (Some ch) ∈ monitors ex1) /\
  (forall id ch, Running (reduces ex1) !! id = Some ch ->
     (exists t, Tasks (reduces ex1) !! Z.to_nat id = Some t /\ rt_done t = false) /\
     MkMonitor TReduce id (Some ch) ∈ monitors ex1).
Proof. apply (coordinator_invariant ["a"; "b"]%string 1 ex1). apply ex1_reachable. Defined.

Lemma GetTask_answers_ex :
  r_FileName (GetTask ex1).2 = "b"%string /\ GetTask_spec ex1 (GetTask ex1).1 (GetTask ex1).2.
Proof.
  split; [by vm_compute|]. apply (GetTask_answers ["a"; "b"]%string 1 ex1). apply ex1_reachable.
Defined.

Lemma Done_when_all_done_ex :
  (Done ex1 = true <-> all_done (maps ex1) /\ all_done (reduces ex1)) /\
  (r_TaskType (GetTask ex1).2 = RDone <-> Done ex1 = true).
Proof. apply (Done_when_all_done ["a"; "b"]%string 1 ex1). apply ex1_reachable. Defined.

Lemma timeout_takes_own_run_ex :
  exists ch c', Some 0%nat = Some ch /\
    TaskMonitor_timeout (MkMonitor TMap 0 (Some 0%nat)) ex1 = Ret c' /\
    Tasks (maps c') = Tasks (maps ex1) /\ Tasks (reduces c') = Tasks (reduces ex1) /\
    (Running (reduces c') = Running (reduces ex1) /\
     Running (maps c') = (if decide (Running (maps ex1) !! 0 = Some ch)
                          then delete 0 (Running (maps ex1)) else Running (maps ex1))).
Proof.
  apply (timeout_takes_own_run ["a"; "b"]%string 1 ex1 0 (MkMonitor TMap 0 (Some 0%nat)));
    [apply ex1_reachable|by vm_compute].
Defined.

Lemma worker_alone_completes_witness :
  exists c', rounds 3 ex0 = Ret c' /\ Done c' = true.
Proof.
  apply (worker_alone_completes ["a"; "b"]%string 1 ex0 3); [apply ex0_reachable|done|].
  by vm_compute.
Defined.
End MrCoord.
