(* ===== verification/MrWorker.v ===== *)
(** * MrWorker: the MapReduce worker and the sequential program (src/src/mr/worker.go,
      src/src/main/mrsequential.go)

    A task run is a sequence of steps on the directory the workers share: the map run
    reads its input, writes one temporary file per reduce task and renames them; the
    reduce run reads the intermediate files it finds, writes its output to a temporary
    file and renames it.  A worker that dies (or calls [log.Fatal]) stops between two
    steps. *)
From S2P Require Import Prelude GoText.
Local Open Scope Z_scope.
Local Open Scope go_scope.

Module MrWorker.
Import Fnv.

(** ** Data *)

Record KeyValue := MkKV { Key : string; Value : string }.
#[export] Instance KeyValue_eq_dec : EqDecision KeyValue.
Proof. solve_decision. Defined.

(** [ByKey.Less] *)
Definition Less (a b : KeyValue) : bool := String.ltb (Key a) (Key b).

(** [sort.Sort]: the order of equal elements is not specified. *)
Class SortOps := sort_ByKey : list KeyValue -> list KeyValue.
Class SortLaws `{SortOps} := {
  sort_perm l : sort_ByKey l ≡ₚ l;
  sort_sorted l : StronglySorted (fun a b => Less b a = false) (sort_ByKey l);
}.

Definition ihash (key : string) : Z := Z.land (fnv32a key) 0x7fffffff.

(** [ihash(kv.Key) % reply.NReduce] *)
Definition bucket (n : Z) (kv : KeyValue) : res Z :=
  if decide (n = 0) then Panic DivideByZero else Ret (Z.rem (ihash (Key kv)) n).

(** ** The directory

    A file holds what was written to it in turn: a text, a JSON value, a line. *)
Inductive chunk := Raw (s : string) | Json (kv : KeyValue) | Line (s : string).

(** [os.Create] (which truncates), a write at the end of an open file, [os.Rename]. *)
Inductive op :=
| Create (name : string)
| Write (name : string) (c : chunk)
| Rename (old new : string).

(** An error ends the process with [log.Fatal]. *)
Definition exec (o : op) (fs : gmap string (list chunk)) : res (gmap string (list chunk)) :=
  match o with
  | Create name => Ret (<[name := []]> fs)
  | Write name c =>
      match fs !! name with
      | Some f => Ret (<[name := f ++ [c]]> fs)
      | None => Panic Fatal
      end
  | Rename old new =>
      match fs !! old with
      | Some f => Ret (<[new := f]> (delete old fs))
      | None => Panic Fatal
      end
  end.

(** [os.ReadFile] of an input, which is a text and not a file a worker wrote. *)
Definition ReadFile (fs : gmap string (list chunk)) (name : string) : res string :=
  match fs !! name with Some [Raw s] => Ret s | _ => Panic Fatal end.

(** The decoding loop: every value of the file, strings as JSON keeps them. *)
Definition json_kv (kv : KeyValue) : KeyValue :=
  MkKV (Utf8.json_string (Key kv)) (Utf8.json_string (Value kv)).
Fixpoint decode_file (f : list chunk) : res (list KeyValue) :=
  match f with
  | [] => Ret []
  | Json kv :: f => let! kvs := decode_file f in Ret (json_kv kv :: kvs)
  | _ :: _ => Panic Fatal
  end.

(** ** File names *)

(** [fmt.Sprintf("mr-%d-%d", id, i)]; with [+timeStr] the temporary name. *)
Definition inter_name (id i : Z) : string := "mr-" +:+ pretty id +:+ "-" +:+ pretty i.
Definition inter_tmp (timeStr : string) (id i : Z) : string := inter_name id i +:+ timeStr.
Definition out_name (id : Z) : string := "mr-out-" +:+ pretty id.
Definition out_tmp (timeStr : string) (id : Z) : string := out_name id +:+ timeStr.

Definition is_digit (c : ascii) : bool := Utf8.rng 48 57 c.

(** What is left after the digits at the start. *)
Fixpoint skip_digits (s : string) : string :=
  match s with
  | String c s' => if is_digit c then skip_digits s' else s
  | EmptyString => EmptyString
  end.
Definition starts_digit (s : string) : bool :=
  match s with String c _ => is_digit c | EmptyString => false end.
Fixpoint strip_prefix (p s : string) : option string :=
  match p, s with
  | EmptyString, _ => Some s
  | String a p, String b s => if decide (a = b) then strip_prefix p s else None
  | _, _ => None
  end.

(** [MatchString] of the pattern "^mr-(\d+)-<id>$". *)
Definition matches (id : Z) (name : string) : bool :=
  match strip_prefix "mr-" name with
  | Some s => starts_digit s && bool_decide (skip_digits s = "-" +:+ pretty id)
  | None => false
  end.

(** [filepath.Glob], which gives the names in order, and the filter by the pattern. *)
Definition glob (fs : gmap string (list chunk)) (id : Z) : list string :=
  merge_sort String.le (filter (fun name => matches id name = true) (elements (dom fs))).

(** ** The reduce loop *)

Section reduce.
Context (reducef : string -> list string -> string).
Implicit Types M : list KeyValue.

(** [for j < len(M) && M[j].Key == M[i].Key { j++ }] *)
Fixpoint group_end (fuel : nat) M (i j : Z) : res Z :=
  match fuel with
  | O => Panic OutOfFuel
  | S fuel =>
      if decide (j < zlen M) then
        let! a := idx M j in
        let! b := idx M i in
        if decide (Key a = Key b) then group_end fuel M i (j + 1) else Ret j
      else Ret j
  end.

(** [for k := i; k < j; k++ { values = append(values, M[k].Value) }] *)
Fixpoint group_values (fuel : nat) M (k j : Z) (values : list string) : res (list string) :=
  match fuel with
  | O => Panic OutOfFuel
  | S fuel =>
      if decide (k < j) then
        let! a := idx M k in
        group_values fuel M (k + 1) j (values ++ [Value a])
      else Ret values
  end.

(** [fmt.Fprintf(ofile, "%v %v\n", key, output)] *)
Definition format_line (key output : string) : string :=
  key +:+ " " +:+ output +:+ String "010" "".

(** The outer loop; [out] is what has been printed. *)
Fixpoint reduce_loop (fuel : nat) M (i : Z) (out : list string) : res (list string) :=
  match fuel with
  | O => Panic OutOfFuel
  | S fuel =>
      if decide (i < zlen M) then
        let! j := group_end (S (length M)) M i (i + 1) in
        let! values := group_values (S (length M)) M i j [] in
        let! a := idx M i in
        reduce_loop fuel M j (out ++ [format_line (Key a) (reducef (Key a) values)])
      else Ret out
  end.

Definition reduce_lines M : res (list string) := reduce_loop (S (length M)) M 0 [].
End reduce.

(** ** The sequential program *)

Section programs.
Context (mapf : string -> string -> list KeyValue) (reducef : string -> list string -> string).
Context `{SortOps}.

(** The loop over the input files of mrsequential. *)
Fixpoint read_inputs (fs : gmap string (list chunk)) (names : list string) (intermediate : list KeyValue)
  : res (list KeyValue) :=
  match names with
  | [] => Ret intermediate
  | filename :: names =>
      let! content := ReadFile fs filename in
      read_inputs fs names (intermediate ++ mapf filename content)
  end.

(** mrsequential's main: the lines of mr-out-0. *)
Definition mrsequential (fs : gmap string (list chunk)) (names : list string) : res (list string) :=
  let! intermediate := read_inputs fs names [] in
  reduce_lines reducef (sort_ByKey intermediate).

(** ** The task runs *)

Definition creates (outs : list (string * string)) : list op := Create ∘ fst <$> outs.
Definition writes (body : list (string * chunk)) : list op := (fun x => Write x.1 x.2) <$> body.
Definition renames (outs : list (string * string)) : list op := (fun x => Rename x.1 x.2) <$> outs.

(** A run that writes: it creates its temporary files, fills them and renames them. *)
Definition writer_ops (outs : list (string * string)) (body : list (string * chunk)) : list op :=
  creates outs ++ writes body ++ renames outs.

(** [for i := 0; i < reply.NReduce; i++]: temporary and final names of a map run. *)
Definition map_outs (timeStr : string) (id n : Z) : list (string * string) :=
  (fun i => (inter_tmp timeStr id i, inter_name id i)) <$> seqZ 0 n.

(** [for _, kv := range keyValues]: each pair goes to its bucket's file. *)
Fixpoint map_body (timeStr : string) (id n : Z) (kvs : list KeyValue)
  : res (list (string * chunk)) :=
  match kvs with
  | [] => Ret []
  | kv :: kvs =>
      let! b := bucket n kv in
      let! _ := idx (seqZ 0 n) b in        (* files[bucket] *)
      let! body := map_body timeStr id n kvs in
      Ret ((inter_tmp timeStr id b, Json kv) :: body)
  end.

Definition map_ops (timeStr : string) (id n : Z) (kvs : list KeyValue) : res (list op) :=
  if decide (n < 0) then Panic MakeNegativeLen else
  let! body := map_body timeStr id n kvs in Ret (writer_ops (map_outs timeStr id n) body).

(** A reduce run that has read the pairs [MapResults]. *)
Definition reduce_ops (timeStr : string) (id : Z) (MapResults : list KeyValue)
  : res (list op) :=
  let! lines := reduce_lines reducef (sort_ByKey MapResults) in
  Ret (writer_ops [(out_tmp timeStr id, out_name id)]
         ((fun s => (out_tmp timeStr id, Line s)) <$> lines)).
End programs.

(** ** The hash *)

Lemma ihash_range key : 0 <= ihash key < 2 ^ 31.
Proof.
  unfold ihash. change 0x7fffffff with (Z.ones 31). rewrite Z.land_ones by lia.
  apply Z.mod_pos_bound. lia.
Qed.

Lemma ihash_low key : ihash key = fnv32a key mod 2 ^ 31.
Proof. unfold ihash. change 0x7fffffff with (Z.ones 31). by rewrite Z.land_ones by lia. Qed.

(** The bucket of a key, when there is one. *)
Definition hash_bucket (n : Z) (key : string) : Z := ihash key mod n.

Lemma bucket_Ret n kv : 0 < n -> bucket n kv = Ret (hash_bucket n (Key kv)).
Proof.
  intros Hn. unfold bucket, hash_bucket. case_decide; [lia|]. pose proof (ihash_range (Key kv)).
  by rewrite Z.rem_mod_nonneg by lia.
Qed.

Lemma hash_bucket_range n key : 0 < n -> 0 <= hash_bucket n key < n.
Proof. intros. by apply Z.mod_pos_bound. Qed.

(** ** The reduce loop *)

Section groups.
Implicit Types M g r : list KeyValue.

Definition values_of (k : string) M : list string := Value <$> filter (fun kv => Key kv = k) M.
Definition keys_of M : list string := remove_dups (Key <$> M).
Lemma values_of_app k M M' : values_of k (M ++ M') = values_of k M ++ values_of k M'.
Proof. unfold values_of. by rewrite filter_app, fmap_app. Qed.

Lemma values_of_none k M : (forall kv, kv ∈ M -> Key kv <> k) -> values_of k M = [].
Proof.
  intros Hk. unfold values_of. induction M as [|kv M IH]; [done|].
  rewrite filter_cons_False by (apply Hk; left). apply IH. intros. apply Hk. by right.
Qed.

Lemma values_of_all k M : (forall kv, kv ∈ M -> Key kv = k) -> values_of k M = Value <$> M.
Proof.
  intros Hk. unfold values_of. induction M as [|kv M IH]; [done|].
  rewrite filter_cons_True by (apply Hk; left). rewrite !fmap_cons. f_equal. apply IH.
  intros. apply Hk. by right.
Qed.

Lemma keys_of_elem k M : k ∈ keys_of M <-> exists kv, kv ∈ M /\ Key kv = k.
Proof.
  unfold keys_of. rewrite elem_of_remove_dups, list_elem_of_fmap. naive_solver.
Qed.

Lemma keys_of_group k g r :
  g <> [] -> (forall kv, kv ∈ g -> Key kv = k) -> (forall kv, kv ∈ r -> Key kv <> k) ->
  keys_of (g ++ r) = k :: keys_of r.
Proof.
  intros Hne Hg Hr. unfold keys_of. induction g as [|kv g IH]; [done|].
  rewrite <- app_comm_cons, fmap_cons. cbn [remove_dups].
  assert (Key kv = k) as Hk by (apply Hg; left). rewrite Hk.
  destruct g as [|kv' g].
  - cbn [app]. case_decide as Hin; [|done]. apply list_elem_of_fmap in Hin as (x & -> & Hx).
    by destruct (Hr x Hx).
  - case_decide as Hin.
    + apply IH; [done|]. intros. apply Hg. by right.
    + destruct Hin. apply list_elem_of_fmap. exists kv'.
      split; [symmetry; apply Hg; by right; left|by left].
Qed.

End groups.

Section reduce_loop.
Context (reducef : string -> list string -> string).
Implicit Types M g r : list KeyValue.

Definition line_of M (k : string) : string := format_line k (reducef k (values_of k M)).

(** One line per distinct key, with all the values of that key. *)
Definition lines_of M : list string := line_of M <$> keys_of M.

Lemma lines_of_group k g r :
  g <> [] -> (forall kv, kv ∈ g -> Key kv = k) -> (forall kv, kv ∈ r -> Key kv <> k) ->
  lines_of (g ++ r) = format_line k (reducef k (Value <$> g)) :: lines_of r.
Proof.
  intros Hne Hg Hr. unfold lines_of. rewrite (keys_of_group k) by done. rewrite fmap_cons. f_equal.
  - unfold line_of. rewrite values_of_app, (values_of_all _ g Hg), (values_of_none _ r Hr).
    by rewrite app_nil_r.
  - apply list_fmap_ext. intros i k' Hk'. unfold line_of. rewrite values_of_app.
    rewrite (values_of_none k' g); [done|]. intros kv Hkv Heq.
    apply list_elem_of_lookup_2, keys_of_elem in Hk' as (kv' & Hin & Hk').
    apply (Hr kv' Hin). rewrite Hk', <- Heq. by apply Hg.
Qed.

(** Equal keys are next to each other. *)
Definition grouped M : Prop :=
  forall i j k a b c, (i <= j <= k)%nat -> M !! i = Some a -> M !! j = Some b -> M !! k = Some c ->
    Key a = Key c -> Key b = Key a.

Lemma group_end_spec fuel M i j a :
  (0 <= i < j)%Z -> j <= zlen M -> M !! Z.to_nat i = Some a -> zlen M - j < Z.of_nat fuel ->
  exists j', group_end fuel M i j = Ret j' /\ j <= j' <= zlen M /\
    (forall m b, (Z.to_nat j <= m < Z.to_nat j')%nat -> M !! m = Some b -> Key b = Key a) /\
    (forall b, M !! Z.to_nat j' = Some b -> Key b <> Key a).
Proof.
  revert j. induction fuel as [|fuel IH]; intros j Hij Hj Ha Hf; [lia|]. cbn [group_end].
  case_decide as Hlt.
  - destruct (idx_ok M j ltac:(lia)) as [b Hb]. rewrite Hb. cbn [res_bind].
    rewrite (proj2 (idx_Ret M i a)) by (split; [lia|done]). cbn [res_bind].
    apply idx_Ret in Hb as [_ Hb]. case_decide as Hk.
    + destruct (IH (j + 1)) as (j' & -> & Hr & Hall & Hend); [lia|lia|done|lia|].
      exists j'. split_and!; [done|lia|lia| |done]. intros m b' Hm Hb'.
      destruct (decide (m = Z.to_nat j)) as [->|]; [congruence|].
      apply (Hall m); [lia|done].
    + exists j. split_and!; [done|lia|lia|intros m b' ?; lia|]. intros b' Hb'. congruence.
  - exists j. split_and!; [done|lia|lia|intros m b' ?; lia|].
    intros b Hb%lookup_lt_Some. unfold zlen in *. lia.
Qed.

Lemma group_values_spec fuel M k j values :
  0 <= k <= j -> j <= zlen M -> j - k < Z.of_nat fuel ->
  group_values fuel M k j values =
    Ret (values ++ (Value <$> take (Z.to_nat (j - k)) (drop (Z.to_nat k) M))).
Proof.
  revert k values. induction fuel as [|fuel IH]; intros k values Hk Hj Hf; [lia|].
  cbn [group_values]. case_decide as Hlt.
  - destruct (idx_ok M k ltac:(lia)) as [b Hb]. rewrite Hb. cbn [res_bind].
    apply idx_Ret in Hb as [_ Hb]. rewrite IH by lia. rewrite <- app_assoc. do 2 f_equal.
    rewrite (drop_S M b (Z.to_nat k)) by done.
    replace (Z.to_nat (j - k)) with (S (Z.to_nat (j - (k + 1)))) by lia.
    replace (Z.to_nat (k + 1)) with (S (Z.to_nat k)) by lia. done.
  - replace (Z.to_nat (j - k)) with 0%nat by lia. by rewrite take_0, app_nil_r.
Qed.

Lemma reduce_loop_spec fuel M i out :
  grouped M -> 0 <= i <= zlen M -> zlen M - i < Z.of_nat fuel ->
  reduce_loop reducef fuel M i out = Ret (out ++ lines_of (drop (Z.to_nat i) M)).
Proof.
  intros Hg. revert i out. induction fuel as [|fuel IH]; intros i out Hi Hf; [lia|].
  cbn [reduce_loop]. case_decide as Hlt.
  2:{ rewrite drop_ge by (unfold zlen in *; lia). by rewrite app_nil_r. }
  destruct (idx_ok M i ltac:(lia)) as [a Ha]. pose proof Ha as [_ Hia]%idx_Ret.
  destruct (group_end_spec (S (length M)) M i (i + 1) a) as (j & -> & Hj & Hall & Hend);
    [lia|lia|done|unfold zlen; lia|].
  cbn [res_bind]. rewrite group_values_spec by (unfold zlen in *; lia).
  cbn [res_bind app]. rewrite Ha. cbn [res_bind]. rewrite IH by lia.
  rewrite <- app_assoc. do 2 f_equal. cbn [app].
  set (g := take (Z.to_nat (j - i)) (drop (Z.to_nat i) M)).
  replace (drop (Z.to_nat i) M) with (g ++ drop (Z.to_nat j) M).
  2:{ replace (Z.to_nat j) with (Z.to_nat i + Z.to_nat (j - i))%nat by lia.
      rewrite <- drop_drop. apply take_drop. }
  symmetry. apply lines_of_group.
  - unfold g. rewrite (drop_S M a) by done.
    replace (Z.to_nat (j - i)) with (S (Z.to_nat (j - i - 1))) by lia. done.
  - intros kv Hin. unfold g in Hin. apply list_elem_of_lookup in Hin as [m Hm].
    apply lookup_take_Some in Hm as [Hm Hlt']. rewrite lookup_drop in Hm.
    destruct (decide (m = 0%nat)) as [->|].
    + rewrite Nat.add_0_r in Hm. congruence.
    + apply (Hall (Z.to_nat i + m)%nat); [lia|done].
  - intros kv Hin Hk. apply list_elem_of_lookup in Hin as [m Hm]. rewrite lookup_drop in Hm.
    destruct (M !! Z.to_nat j) as [b|] eqn:Eb.
    + apply (Hend b eq_refl). eapply (Hg (Z.to_nat i) (Z.to_nat j) (Z.to_nat j + m)%nat);
        [lia|done..|congruence].
    + apply lookup_ge_None in Eb. apply lookup_lt_Some in Hm. lia.
Qed.

Lemma reduce_lines_spec M : grouped M -> reduce_lines reducef M = Ret (lines_of M).
Proof.
  intros. unfold reduce_lines. rewrite reduce_loop_spec; [done|done|pose proof (zlen_nonneg M); lia|].
  unfold zlen. lia.
Qed.

Lemma sorted_grouped M : StronglySorted (fun a b => Less b a = false) M -> grouped M.
Proof.
  intros Hs i j k a b c Hijk Ha Hb Hc Hac.
  assert (forall m n x y, (m < n)%nat -> M !! m = Some x -> M !! n = Some y -> Less y x = false)
    as Hlt.
  { clear -Hs. induction Hs as [|z M Hs IH Hz]; [done|]. intros [|m] [|n] x y Hmn Hx Hy; try lia;
      cbn in Hx, Hy.
    - simplify_eq. eapply Forall_forall in Hz; [done|]. by eapply list_elem_of_lookup_2.
    - eapply (IH m n); [lia|done..]. }
  destruct (decide (i = j)) as [->|]; [congruence|].
  destruct (decide (j = k)) as [->|]; [congruence|].
  pose proof (Hlt i j a b ltac:(lia) Ha Hb) as H1.
  pose proof (Hlt j k b c ltac:(lia) Hb Hc) as H2.
  unfold Less in *. rewrite <- Hac in H2. clear -H1 H2.
  destruct (decide (Key b = Key a)) as [|Hne]; [done|exfalso].
  unfold String.ltb in *. rewrite String.compare_antisym in H2.
  destruct (String.compare (Key b) (Key a)) eqn:E; [|done|done].
  by apply String.compare_eq_iff in E.
Qed.
End reduce_loop.

(** ** The lines, up to order *)

Lemma list_fmap_bind_out {A B C} (g : B -> C) (f : A -> list B) (l : list A) :
  g <$> (a ← l; f a) = (a ← l; g <$> f a).
Proof. induction l as [|a l IH]; [done|]. by rewrite !bind_cons, fmap_app, IH. Qed.

Section lines_perm.
Context (reducef : string -> list string -> string).
Context (reducef_perm : forall k vs vs', vs ≡ₚ vs' -> reducef k vs = reducef k vs').
Implicit Types M : list KeyValue.

#[local] Instance values_of_proper k : Proper ((≡ₚ) ==> (≡ₚ)) (values_of k).
Proof. intros M M' H. unfold values_of. by rewrite H. Qed.

Lemma keys_of_perm M M' : M ≡ₚ M' -> keys_of M ≡ₚ keys_of M'.
Proof.
  intros H. apply NoDup_Permutation; [apply NoDup_remove_dups..|].
  intros k. rewrite !keys_of_elem.
  split; intros (kv & Hkv & Hk); exists kv; split; [by rewrite <- H|done|by rewrite H|done].
Qed.

Lemma lines_of_perm M M' : M ≡ₚ M' -> lines_of reducef M ≡ₚ lines_of reducef M'.
Proof.
  intros H. unfold lines_of. rewrite (keys_of_perm M M' H).
  assert (line_of reducef M <$> keys_of M' = line_of reducef M' <$> keys_of M') as ->; [|done].
  apply list_fmap_ext. intros i k _. unfold line_of. f_equal. apply reducef_perm. by rewrite H.
Qed.

(** The pairs of one bucket. *)
Definition in_bucket (n i : Z) M : list KeyValue := filter (fun kv => hash_bucket n (Key kv) = i) M.

Lemma in_bucket_app n i M M' : in_bucket n i (M ++ M') = in_bucket n i M ++ in_bucket n i M'.
Proof. apply filter_app. Qed.

#[local] Instance in_bucket_proper n i : Proper ((≡ₚ) ==> (≡ₚ)) (in_bucket n i).
Proof. intros M M' H. unfold in_bucket. by rewrite H. Qed.

Lemma values_in_bucket n k M : values_of k (in_bucket n (hash_bucket n k) M) = values_of k M.
Proof.
  unfold values_of, in_bucket. f_equal. induction M as [|kv M IH]; [done|].
  rewrite !(filter_cons _ kv M).
  destruct (decide (Key kv = k)) as [Hk|Hk].
  - rewrite decide_True by congruence. by rewrite filter_cons_True, IH.
  - case_decide; [|done]. by rewrite filter_cons_False.
Qed.

Lemma keys_in_bucket n i k M :
  k ∈ keys_of (in_bucket n i M) <-> k ∈ keys_of M /\ hash_bucket n k = i.
Proof.
  rewrite !keys_of_elem. unfold in_bucket. setoid_rewrite list_elem_of_filter. naive_solver.
Qed.

(** All the lines are the lines of the buckets. *)
Lemma lines_of_buckets n M :
  0 < n ->
  (i ← seqZ 0 n; lines_of reducef (in_bucket n i M)) ≡ₚ lines_of reducef M.
Proof.
  intros Hn.
  transitivity (line_of reducef M <$> (i ← seqZ 0 n; keys_of (in_bucket n i M))).
  - rewrite list_fmap_bind_out. apply Permutation_refl', list_bind_ext; [|done].
    intros i. unfold lines_of. apply list_fmap_ext.
    intros j k Hk%list_elem_of_lookup_2%keys_in_bucket. destruct Hk as [_ <-].
    unfold line_of. by rewrite values_in_bucket.
  - unfold lines_of. apply fmap_Permutation. apply NoDup_Permutation.
    + apply NoDup_bind; [|intros; apply NoDup_remove_dups|apply NoDup_seqZ].
      intros i i' k _ _ [_ <-]%keys_in_bucket [_ <-]%keys_in_bucket. done.
    + apply NoDup_remove_dups.
    + intros k. rewrite list_elem_of_bind. split.
      * intros (i & [? _]%keys_in_bucket & _). done.
      * intros Hk. exists (hash_bucket n k). split; [by apply keys_in_bucket|].
        apply elem_of_seqZ. pose proof (hash_bucket_range n k Hn). lia.
Qed.
End lines_perm.

(** ** File names *)

Definition all_digits (s : string) : Prop := skip_digits s = "".

Lemma all_digits_cons c s : all_digits (String c s) <-> is_digit c = true /\ all_digits s.
Proof. unfold all_digits. cbn. destruct (is_digit c); naive_solver. Qed.

Lemma digits_cancel a b c c' r r' :
  all_digits a -> all_digits b -> is_digit c = false -> is_digit c' = false ->
  a +:+ String c r = b +:+ String c' r' -> a = b /\ String c r = String c' r'.
Proof.
  revert b. induction a as [|x a IH]; intros [|y b] Ha Hb Hc Hc'.
  - done.
  - apply all_digits_cons in Hb as [Hy _].
    change (String c r = String y (b +:+ String c' r') -> "" = String y b /\ String c r = String c' r').
    intros [= -> _]. congruence.
  - apply all_digits_cons in Ha as [Hx _].
    change (String x (a +:+ String c r) = String c' r' -> String x a = "" /\ String c r = String c' r').
    intros [= -> _]. congruence.
  - apply all_digits_cons in Ha as [_ Ha]. apply all_digits_cons in Hb as [_ Hb].
    change (String x (a +:+ String c r) = String y (b +:+ String c' r') ->
      String x a = String y b /\ String c r = String c' r').
    intros [= -> Heq]. destruct (IH b Ha Hb Hc Hc' Heq) as [-> ->]. done.
Qed.

Lemma skip_digits_app a c r :
  all_digits a -> is_digit c = false -> skip_digits (a +:+ String c r) = String c r.
Proof.
  intros Ha Hc. induction a as [|x a IH].
  - change (skip_digits (String c r) = String c r). cbn. by rewrite Hc.
  - apply all_digits_cons in Ha as [Hx Ha].
    change (skip_digits (String x (a +:+ String c r)) = String c r). cbn. rewrite Hx. by apply IH.
Qed.

Lemma all_digits_app_not a c r : is_digit c = false -> ~ all_digits (a +:+ String c r).
Proof.
  intros Hc. induction a as [|x a IH].
  - change (~ all_digits (String c r)). rewrite all_digits_cons. intros []. congruence.
  - change (~ all_digits (String x (a +:+ String c r))). rewrite all_digits_cons. by intros [].
Qed.

Lemma pretty_N_char_digit x : is_digit (pretty_N_char x) = true.
Proof. unfold pretty_N_char. by repeat case_match. Qed.

Lemma pretty_N_go_digits x s :
  all_digits s -> all_digits (pretty_N_go x s) /\ (starts_digit s = true \/ (0 < x)%N -> starts_digit (pretty_N_go x s) = true).
Proof.
  revert s. induction (N.lt_wf_0 x) as [x _ IH]. intros s Hs.
  destruct (decide (0 < x)%N) as [Hx|Hx].
  - rewrite pretty_N_go_step by done.
    destruct (IH (x `div` 10)%N) with (s := String (pretty_N_char (x mod 10)) s) as [H1 H2].
    + apply N.div_lt; lia.
    + apply all_digits_cons. split; [apply pretty_N_char_digit|done].
    + split; [done|]. intros _. apply H2. left. apply pretty_N_char_digit.
  - replace x with 0%N by lia. rewrite pretty_N_go_0. split; [done|]. intros [?|?]; [done|lia].
Qed.

Lemma pretty_digits (z : Z) :
  0 <= z -> all_digits (pretty z) /\ starts_digit (pretty z) = true.
Proof.
  intros Hz. destruct z as [|p|p]; [done| |lia].
  change (pretty (Z.pos p)) with (pretty_N_go (N.pos p) "").
  destruct (pretty_N_go_digits (N.pos p) "") as [H1 H2]; [done|]. split; [done|].
  apply H2. right. lia.
Qed.
#[local] Hint Resolve pretty_digits : core.

(** A time stamp starts with "-" (the layout is "-01-02_15-04-05"). *)
Definition stamp (ts : string) : Prop := exists t, ts = String "-" t.

(** What follows "mr-" in the names of intermediate files, final and temporary. *)
Lemma inter_name_eq id i : inter_name id i = "mr-" +:+ (pretty id +:+ String "-" (pretty i)).
Proof. done. Qed.
Lemma inter_tmp_eq ts id i :
  inter_tmp ts id i = "mr-" +:+ (pretty id +:+ String "-" (pretty i +:+ ts)).
Proof. unfold inter_tmp, inter_name. by rewrite !app_assoc_string. Qed.
Lemma out_tmp_eq ts id : out_tmp ts id = "mr-out-" +:+ (pretty id +:+ ts).
Proof. unfold out_tmp, out_name. by rewrite app_assoc_string. Qed.

Lemma inter_parts id id' r r' :
  0 <= id -> 0 <= id' ->
  "mr-" +:+ (pretty id +:+ String "-" r) = "mr-" +:+ (pretty id' +:+ String "-" r') ->
  id = id' /\ r = r'.
Proof.
  intros H1 H2 Heq%(inj _). apply digits_cancel in Heq as [Heq Heq']; try done; try (by apply pretty_digits).
  apply (inj pretty) in Heq. by injection Heq'.
Qed.

Lemma inter_name_inj id id' i i' :
  0 <= id -> 0 <= id' -> inter_name id i = inter_name id' i' -> id = id' /\ i = i'.
Proof.
  rewrite !inter_name_eq. intros ?? Heq%inter_parts; [|done..]. destruct Heq as [-> Heq].
  by apply (inj pretty) in Heq.
Qed.

Lemma inter_tmp_inj ts ts' id id' i i' :
  stamp ts -> stamp ts' -> 0 <= id -> 0 <= id' -> 0 <= i -> 0 <= i' ->
  inter_tmp ts id i = inter_tmp ts' id' i' -> ts = ts' /\ id = id' /\ i = i'.
Proof.
  rewrite !inter_tmp_eq. intros [t ->] [t' ->] ???? Heq%inter_parts; [|done..].
  destruct Heq as [-> Heq]. apply digits_cancel in Heq as [Heq Heq']; try done; try (by apply pretty_digits).
  by apply (inj pretty) in Heq.
Qed.

Lemma inter_tmp_name ts id id' i i' :
  stamp ts -> 0 <= id -> 0 <= id' -> 0 <= i' -> inter_tmp ts id i <> inter_name id' i'.
Proof.
  rewrite inter_tmp_eq, inter_name_eq. intros [t ->] ??? Heq%inter_parts; [|done..].
  destruct Heq as [_ Heq]. apply (all_digits_app_not (pretty i) "-" t); [done|].
  rewrite Heq. by apply pretty_digits.
Qed.

Lemma out_name_inj id id' : out_name id = out_name id' -> id = id'.
Proof. unfold out_name. by intros Heq%(inj (String.app "mr-out-"))%(inj pretty). Qed.

Lemma out_tmp_inj ts ts' id id' :
  stamp ts -> stamp ts' -> 0 <= id -> 0 <= id' ->
  out_tmp ts id = out_tmp ts' id' -> ts = ts' /\ id = id'.
Proof.
  rewrite !out_tmp_eq. intros [t ->] [t' ->] ?? Heq%(inj _).
  apply digits_cancel in Heq as [Heq Heq']; try done; try (by apply pretty_digits).
  by apply (inj pretty) in Heq.
Qed.

Lemma out_tmp_name ts id id' : stamp ts -> 0 <= id' -> out_tmp ts id <> out_name id'.
Proof.
  rewrite out_tmp_eq. intros [t ->] ? Heq%(inj (String.app "mr-out-")).
  apply (all_digits_app_not (pretty id) "-" t); [done|]. rewrite Heq. by apply pretty_digits.
Qed.

Lemma strip_prefix_app p s : strip_prefix p (p +:+ s) = Some s.
Proof.
  induction p as [|x p IH]; [done|].
  change ((if decide (x = x) then strip_prefix p (p +:+ s) else None) = Some s).
  by rewrite decide_True.
Qed.

(** The names of workers' files start with "mr-". *)
Definition ours (name : string) : bool := bool_decide (is_Some (strip_prefix "mr-" name)).

Lemma ours_mr s : ours ("mr-" +:+ s) = true.
Proof. unfold ours. by rewrite strip_prefix_app, bool_decide_true by done. Qed.
Lemma ours_inter_name id i : ours (inter_name id i) = true.
Proof. apply ours_mr. Qed.
Lemma ours_inter_tmp ts id i : ours (inter_tmp ts id i) = true.
Proof. rewrite inter_tmp_eq. apply ours_mr. Qed.
Lemma ours_out_name id : ours (out_name id) = true.
Proof. apply (ours_mr ("out-" +:+ pretty id)). Qed.
Lemma ours_out_tmp ts id : ours (out_tmp ts id) = true.
Proof. rewrite out_tmp_eq. apply (ours_mr ("out-" +:+ (pretty id +:+ ts))). Qed.

Lemma starts_digit_app a b : starts_digit a = true -> starts_digit (a +:+ b) = true.
Proof. by destruct a. Qed.

Lemma inter_not_out id r s : 0 <= id -> "mr-" +:+ (pretty id +:+ r) <> "mr-out-" +:+ s.
Proof.
  intros Hid Heq. change ("mr-out-" +:+ s) with ("mr-" +:+ ("out-" +:+ s)) in Heq.
  apply (inj _) in Heq. apply (f_equal starts_digit) in Heq.
  rewrite starts_digit_app in Heq by (by apply pretty_digits). done.
Qed.

Lemma matches_inter id j r :
  0 <= id -> matches j ("mr-" +:+ (pretty id +:+ String "-" r)) = bool_decide (r = pretty j).
Proof.
  intros Hid. unfold matches. rewrite strip_prefix_app.
  destruct (pretty_digits id Hid) as [Hd Hs]. rewrite starts_digit_app by done.
  rewrite skip_digits_app by done. cbn [andb]. apply bool_decide_ext.
  change ("-" +:+ pretty j) with (String "-" (pretty j)). naive_solver.
Qed.

Lemma matches_inter_name id i j : 0 <= id -> matches j (inter_name id i) = bool_decide (i = j).
Proof.
  intros. rewrite inter_name_eq, matches_inter by done. apply bool_decide_ext.
  split; [by intros ?%(inj pretty)|congruence].
Qed.

Lemma matches_inter_tmp ts id i j : stamp ts -> 0 <= id -> 0 <= j -> matches j (inter_tmp ts id i) = false.
Proof.
  intros [t ->] ??. rewrite inter_tmp_eq, matches_inter by done. apply bool_decide_eq_false.
  intros Heq. apply (all_digits_app_not (pretty i) "-" t); [done|]. rewrite Heq. by apply pretty_digits.
Qed.

Lemma matches_out j s : matches j ("mr-out-" +:+ s) = false.
Proof. done. Qed.
Lemma matches_out_tmp ts j id : matches j (out_tmp ts id) = false.
Proof. rewrite out_tmp_eq. apply matches_out. Qed.

Lemma matches_ours j name : matches j name = true -> ours name = true.
Proof.
  unfold matches, ours. destruct (strip_prefix "mr-" name); [|done].
  intros _. by rewrite bool_decide_true.
Qed.

(** ** Runs that write *)

Section writer.
Context (outs : list (string * string)) (body : list (string * chunk)).
Implicit Types fs : gmap string (list chunk).

(** What the writes [l] put into the file [t]. *)
Definition content (t : string) (l : list (string * chunk)) : list chunk :=
  snd <$> filter (fun x => x.1 = t) l.

Lemma content_snoc t l x :
  content t (l ++ [x]) = content t l ++ (if decide (x.1 = t) then [x.2] else []).
Proof.
  unfold content. rewrite filter_app, fmap_app. f_equal. rewrite filter_cons. by case_decide.
Qed.

(** After [k] operations: the files created hold what was written so far, until they
    are renamed. *)
Definition writer_inv fs (k : nat) : Prop :=
  (k <= length outs + length body + length outs)%nat /\
  forall j t f, outs !! j = Some (t, f) -> (j < k)%nat ->
    ((k <= length outs + length body + j)%nat ->
       fs !! t = Some (content t (take (k - length outs) body))) /\
    ((length outs + length body + j < k)%nat -> is_Some (fs !! f)).

(** The temporary names are distinct, no final name is one, and every write goes to one. *)
Record writer_wf : Prop := {
  ww_temps : NoDup (outs.*1);
  ww_finals : forall t f t' f', (t, f) ∈ outs -> (t', f') ∈ outs -> t <> f';
  ww_body : forall t c, (t, c) ∈ body -> t ∈ outs.*1;
}.

Lemma writer_inv_0 fs : writer_inv fs 0.
Proof. split; [lia|]. intros. lia. Qed.

Lemma length_writer_ops : length (writer_ops outs body) = (length outs + length body + length outs)%nat.
Proof. unfold writer_ops, creates, writes, renames. rewrite !length_app, !length_fmap. lia. Qed.

(** Steps of others, which keep the temporary files and remove no final file. *)
Lemma writer_inv_other fs fs' k :
  writer_inv fs k ->
  (forall t, t ∈ outs.*1 -> fs' !! t = fs !! t) ->
  (forall f, f ∈ outs.*2 -> is_Some (fs !! f) -> is_Some (fs' !! f)) ->
  writer_inv fs' k.
Proof.
  intros [Hk Hi] Ht Hf. split; [done|]. intros j t f Hj Hjk.
  destruct (Hi j t f Hj Hjk) as [H1 H2]. apply list_elem_of_lookup_2 in Hj. split.
  - intros. rewrite Ht; [by apply H1|]. by apply (list_elem_of_fmap_2 fst) in Hj.
  - intros. apply Hf; [by apply (list_elem_of_fmap_2 snd) in Hj|by apply H2].
Qed.

(** What one operation of the run does to the directory. *)
Definition writer_frame fs fs' : Prop :=
  (forall name, ~ name ∈ outs.*1 -> ~ name ∈ outs.*2 -> fs' !! name = fs !! name) /\
  (forall f, f ∈ outs.*2 -> fs' !! f = fs !! f \/
     exists t, (t, f) ∈ outs /\ fs' !! f = Some (content t body)).

Lemma outs_inj (Hwf : writer_wf) j j' t f f' :
  outs !! j = Some (t, f) -> outs !! j' = Some (t, f') -> j = j'.
Proof.
  intros H1 H2. eapply (NoDup_lookup (outs.*1) j j' t); [apply Hwf|..];
    by rewrite list_lookup_fmap, ?H1, ?H2.
Qed.

Lemma temp_not_final (Hwf : writer_wf) t : t ∈ outs.*1 -> ~ t ∈ outs.*2.
Proof.
  intros ([t1 f1] & -> & H1)%list_elem_of_fmap ([t2 f2] & Heq & H2)%list_elem_of_fmap.
  by apply (ww_finals Hwf t1 f1 t2 f2).
Qed.

Lemma create_step (Hwf : writer_wf) fs k t f :
  writer_inv fs k -> outs !! k = Some (t, f) ->
  writer_inv (<[t := []]> fs) (S k) /\ writer_frame fs (<[t := []]> fs).
Proof.
  intros [Hk Hi] Hkt. pose proof (lookup_lt_Some _ _ _ Hkt) as Hlt.
  pose proof (list_elem_of_lookup_2 _ _ _ Hkt) as Hin.
  pose proof (list_elem_of_fmap_2 fst _ _ Hin) as Hin1.
  split; [split; [lia|]|split].
  - intros j t' f' Hj Hjk. split; [|lia]. intros _.
    replace (S k - length outs)%nat with 0%nat by lia.
    destruct (decide (j = k)) as [->|Hne].
    + simplify_eq. by rewrite lookup_insert_eq.
    + rewrite lookup_insert_ne by (intros <-; by pose proof (outs_inj Hwf _ _ _ _ _ Hj Hkt)).
      destruct (Hi j t' f' Hj ltac:(lia)) as [H1 _]. rewrite H1 by lia.
      by replace (k - length outs)%nat with 0%nat by lia.
  - intros name H1 _. rewrite lookup_insert_ne; [done|]. by intros <-.
  - intros f' Hf'. left. rewrite lookup_insert_ne; [done|]. intros <-.
    by apply (temp_not_final Hwf t).
Qed.

Lemma write_step (Hwf : writer_wf) fs m t c :
  writer_inv fs (length outs + m) -> body !! m = Some (t, c) ->
  exists fs', exec (Write t c) fs = Ret fs' /\
    writer_inv fs' (S (length outs + m)) /\ writer_frame fs fs'.
Proof.
  intros [Hk Hi] Hm. pose proof (lookup_lt_Some _ _ _ Hm) as Hlt.
  pose proof (ww_body Hwf _ _ (list_elem_of_lookup_2 _ _ _ Hm)) as Ht.
  apply list_elem_of_fmap in Ht as ([t0 f0] & Heq & Hin). cbn in Heq. subst t0.
  pose proof (list_elem_of_fmap_2 fst _ _ Hin) as Hin1.
  apply list_elem_of_lookup in Hin as [j0 Hj0]. pose proof (lookup_lt_Some _ _ _ Hj0) as Hlt0.
  destruct (Hi j0 t f0 Hj0 ltac:(lia)) as [H1 _]. rewrite (Nat.add_comm (length outs) m) in H1.
  rewrite Nat.add_sub in H1. cbn [exec]. rewrite H1 by lia. eexists. split; [done|].
  split; [split; [lia|]|split].
  - intros j t' f' Hj Hjk. split; [|lia]. intros _.
    replace (S (length outs + m) - length outs)%nat with (S m) by lia.
    rewrite (take_S_r _ _ _ Hm), content_snoc. cbn [fst snd].
    destruct (decide (t = t')) as [<-|Hne].
    + by rewrite lookup_insert_eq.
    + rewrite lookup_insert_ne, app_nil_r by done. pose proof (lookup_lt_Some _ _ _ Hj).
      destruct (Hi j t' f' Hj ltac:(lia)) as [H2 _]. rewrite H2 by lia.
      by replace (length outs + m - length outs)%nat with m by lia.
  - intros name H2 _. rewrite lookup_insert_ne; [done|]. by intros <-.
  - intros f' Hf'. left. rewrite lookup_insert_ne; [done|]. intros <-.
    by apply (temp_not_final Hwf t).
Qed.

Lemma rename_step (Hwf : writer_wf) fs m t f :
  writer_inv fs (length outs + length body + m) -> outs !! m = Some (t, f) ->
  exists fs', exec (Rename t f) fs = Ret fs' /\
    writer_inv fs' (S (length outs + length body + m)) /\ writer_frame fs fs'.
Proof.
  intros [Hk Hi] Hm. pose proof (lookup_lt_Some _ _ _ Hm) as Hlt.
  pose proof (list_elem_of_lookup_2 _ _ _ Hm) as Hin.
  pose proof (list_elem_of_fmap_2 fst _ _ Hin) as Hin1.
  pose proof (list_elem_of_fmap_2 snd _ _ Hin) as Hin2.
  destruct (Hi m t f Hm ltac:(lia)) as [H1 _].
  rewrite take_ge in H1 by lia. cbn [exec]. rewrite H1 by lia. eexists. split; [done|].
  assert (t <> f) as Htf by (by eapply (ww_finals Hwf)).
  assert (forall name, name ∈ outs.*2 -> delete t fs !! name = fs !! name) as Hdel.
  { intros name Hn. rewrite lookup_delete_ne; [done|]. intros <-.
    by apply (temp_not_final Hwf t). }
  split; [split; [lia|]|split].
  - intros j t' f' Hj Hjk. pose proof (list_elem_of_lookup_2 _ _ _ Hj) as Hin'. split.
    + intros Hle. rewrite lookup_insert_ne 
        by (intros Heq; by apply (ww_finals Hwf t' f' t f)).
      rewrite lookup_delete_ne.
      2:{ intros <-. pose proof (outs_inj Hwf _ _ _ _ _ Hj Hm). lia. }
      pose proof (lookup_lt_Some _ _ _ Hj).
      destruct (Hi j t' f' Hj ltac:(lia)) as [H2 _]. rewrite H2 by lia.
      by rewrite !take_ge by lia.
    + intros Hlt'. destruct (decide (f = f')) as [<-|Hne]; [by rewrite lookup_insert_eq|].
      rewrite lookup_insert_ne by done.
      rewrite Hdel by (by apply (list_elem_of_fmap_2 snd) in Hin').
      destruct (decide (j = m)) as [->|]; [simplify_eq|]. apply (Hi j t' f' Hj); lia.
  - intros name H2 H3. rewrite lookup_insert_ne by (by intros <-).
    rewrite lookup_delete_ne; [done|]. by intros <-.
  - intros f' Hf'. destruct (decide (f = f')) as [<-|Hne].
    + right. exists t. by rewrite lookup_insert_eq.
    + left. rewrite lookup_insert_ne by done. by apply Hdel.
Qed.

(** Every operation of a run succeeds and touches only the run's files. *)
Lemma writer_step (Hwf : writer_wf) fs k o :
  writer_inv fs k -> writer_ops outs body !! k = Some o ->
  exists fs', exec o fs = Ret fs' /\ writer_inv fs' (S k) /\ writer_frame fs fs'.
Proof.
  intros Hi Ho. unfold writer_ops, creates, writes, renames in Ho.
  apply lookup_app_Some in Ho as [Ho|[Hk Ho]].
  - apply list_lookup_fmap_Some in Ho as ([t f] & -> & Hj). eexists. split; [done|].
    by eapply create_step.
  - rewrite length_fmap in Hk, Ho. apply lookup_app_Some in Ho as [Ho|[Hk2 Ho]].
    + apply list_lookup_fmap_Some in Ho as ([t c] & -> & Hj).
      replace k with (length outs + (k - length outs))%nat in Hi |- * by lia. by apply write_step.
    + rewrite length_fmap in Hk2, Ho. apply list_lookup_fmap_Some in Ho as ([t f] & -> & Hj).
      replace k with (length outs + length body + (k - length outs - length body))%nat
        in Hi |- * by lia. by apply rename_step.
Qed.

(** A finished run left all its final files. *)
Lemma writer_finished fs t f :
  writer_inv fs (length (writer_ops outs body)) -> (t, f) ∈ outs -> is_Some (fs !! f).
Proof.
  rewrite length_writer_ops. intros [_ Hi] Hin. apply list_elem_of_lookup in Hin as [j Hj].
  pose proof (lookup_lt_Some _ _ _ Hj). apply (Hi j t f Hj); lia.
Qed.
End writer.

(** ** The runs of the two kinds *)

(** What a map run writes, for [n] reduce tasks. *)
Definition map_writes (ts : string) (id n : Z) (kvs : list KeyValue) : list (string * chunk) :=
  (fun kv => (inter_tmp ts id (hash_bucket n (Key kv)), Json kv)) <$> kvs.

Lemma map_body_Ret ts id n kvs : 0 < n -> map_body ts id n kvs = Ret (map_writes ts id n kvs).
Proof.
  intros Hn. induction kvs as [|kv kvs IH]; [done|]. cbn [map_body].
  rewrite bucket_Ret by done. cbn [res_bind].
  pose proof (hash_bucket_range n (Key kv) Hn).
  destruct (idx_ok (seqZ 0 n) (hash_bucket n (Key kv))) as [x ->].
  { unfold zlen. rewrite length_seqZ. lia. }
  cbn [res_bind]. by rewrite IH.
Qed.

Lemma map_ops_Ret ts id n kvs :
  0 < n -> map_ops ts id n kvs = Ret (writer_ops (map_outs ts id n) (map_writes ts id n kvs)).
Proof. intros. unfold map_ops. rewrite decide_False by lia. by rewrite map_body_Ret. Qed.

Lemma map_outs_elem ts id n t f :
  (t, f) ∈ map_outs ts id n <-> exists i, 0 <= i < n /\ t = inter_tmp ts id i /\ f = inter_name id i.
Proof.
  unfold map_outs. rewrite list_elem_of_fmap. setoid_rewrite elem_of_seqZ. split.
  - intros (i & [= -> ->] & ?). exists i. split_and!; [lia|lia|done..].
  - intros (i & ? & -> & ->). exists i. split; [done|lia].
Qed.

Lemma map_temps_elem ts id n t :
  t ∈ (map_outs ts id n).*1 <-> exists i, 0 <= i < n /\ t = inter_tmp ts id i.
Proof.
  rewrite list_elem_of_fmap. split.
  - intros ([t' f'] & -> & (i & ? & -> & ->)%map_outs_elem). by exists i.
  - intros (i & ? & ->). exists (inter_tmp ts id i, inter_name id i).
    split; [done|]. apply map_outs_elem. by exists i.
Qed.

Lemma map_finals_elem ts id n f :
  f ∈ (map_outs ts id n).*2 <-> exists i, 0 <= i < n /\ f = inter_name id i.
Proof.
  rewrite list_elem_of_fmap. split.
  - intros ([t' f'] & -> & (i & ? & -> & ->)%map_outs_elem). by exists i.
  - intros (i & ? & ->). exists (inter_tmp ts id i, inter_name id i).
    split; [done|]. apply map_outs_elem. by exists i.
Qed.

Lemma map_writer_wf ts id n kvs :
  stamp ts -> 0 <= id -> 0 < n -> writer_wf (map_outs ts id n) (map_writes ts id n kvs).
Proof.
  intros Hts Hid Hn. split.
  - unfold map_outs. rewrite <- list_fmap_compose. apply NoDup_fmap_2_strong; [|apply NoDup_seqZ].
    intros i j ?%elem_of_seqZ ?%elem_of_seqZ Heq. cbn in Heq.
    apply inter_tmp_inj in Heq as (_ & _ & ?); try done; lia.
  - intros t f t' f' (i & ? & -> & ->)%map_outs_elem (j & ? & -> & ->)%map_outs_elem.
    apply inter_tmp_name; (done || lia).
  - intros t c (kv & [= -> ->] & _)%list_elem_of_fmap. apply map_temps_elem.
    eexists. split; [|done]. by apply hash_bucket_range.
Qed.

Lemma map_content ts id n kvs i :
  stamp ts -> 0 <= id -> 0 < n -> 0 <= i < n ->
  content (inter_tmp ts id i) (map_writes ts id n kvs) = Json <$> in_bucket n i kvs.
Proof.
  intros Hts Hid Hn Hi. unfold content, map_writes, in_bucket.
  induction kvs as [|kv kvs IH]; [done|]. rewrite fmap_cons, !filter_cons. cbn [fst].
  pose proof (hash_bucket_range n (Key kv) Hn).
  destruct (decide (hash_bucket n (Key kv) = i)) as [<-|Hne].
  - rewrite decide_True by done. rewrite !fmap_cons. cbn [snd]. by rewrite IH.
  - rewrite decide_False; [done|]. intros Heq.
    apply inter_tmp_inj in Heq as (_ & _ & ?); try done; lia.
Qed.

(** What a reduce run writes. *)
Definition reduce_outs (ts : string) (id : Z) : list (string * string) :=
  [(out_tmp ts id, out_name id)].
Definition reduce_writes (ts : string) (id : Z) (lines : list string) : list (string * chunk) :=
  (fun s => (out_tmp ts id, Line s)) <$> lines.

Lemma reduce_ops_Ret `{SortLaws} reducef ts id M :
  reduce_ops reducef ts id M =
    Ret (writer_ops (reduce_outs ts id)
           (reduce_writes ts id (lines_of reducef (sort_ByKey M)))).
Proof. unfold reduce_ops. rewrite reduce_lines_spec; [done|]. apply sorted_grouped, sort_sorted. Qed.

Lemma reduce_writer_wf ts id lines :
  stamp ts -> 0 <= id -> writer_wf (reduce_outs ts id) (reduce_writes ts id lines).
Proof.
  intros Hts Hid. split.
  - apply NoDup_singleton.
  - intros t f t' f' Heq%list_elem_of_singleton Heq'%list_elem_of_singleton. simplify_eq.
    by apply out_tmp_name.
  - intros t c (s & [= -> ->] & _)%list_elem_of_fmap. by left.
Qed.

Lemma reduce_content ts id lines :
  content (out_tmp ts id) (reduce_writes ts id lines) = Line <$> lines.
Proof.
  unfold content, reduce_writes. induction lines as [|s l IH]; [done|].
  rewrite fmap_cons, filter_cons_True by done. rewrite !fmap_cons. by rewrite IH.
Qed.

(** *** Reading *)

Lemma decode_file_Json kvs : decode_file (Json <$> kvs) = Ret (json_kv <$> kvs).
Proof. induction kvs as [|kv kvs IH]; [done|]. rewrite !fmap_cons. cbn [decode_file]. by rewrite IH. Qed.

Lemma json_kvs_id (kvs : list KeyValue) : (forall kv, kv ∈ kvs -> json_kv kv = kv) -> json_kv <$> kvs = kvs.
Proof.
  induction kvs as [|kv kvs IH]; [done|]. intros H. rewrite fmap_cons, (H kv) by left.
  f_equal. apply IH. intros. apply H. by right.
Qed.

Lemma read_inputs_spec mapf fs (names : list string) acc text :
  (forall f, f ∈ names -> fs !! f = Some [Raw (text f)]) ->
  read_inputs mapf fs names acc = Ret (acc ++ (f ← names; mapf f (text f))).
Proof.
  revert acc. induction names as [|f names IH]; intros acc Hf; cbn [read_inputs].
  - by rewrite app_nil_r.
  - unfold ReadFile. rewrite Hf by left. cbn [res_bind]. rewrite IH by (intros; apply Hf; by right).
    by rewrite bind_cons, app_assoc.
Qed.

(** The sequential program prints one line per distinct key. *)
Lemma mrsequential_lines `{SortLaws} mapf reducef fs (names : list string) text :
  (forall f, f ∈ names -> fs !! f = Some [Raw (text f)]) ->
  mrsequential mapf reducef fs names =
    Ret (lines_of reducef (sort_ByKey (f ← names; mapf f (text f)))).
Proof.
  intros Hf. unfold mrsequential. rewrite (read_inputs_spec _ _ _ _ text) by done.
  cbn [res_bind app]. rewrite reduce_lines_spec; [done|]. apply sorted_grouped, sort_sorted.
Qed.

(** *** The intermediate files of one reduce task *)

Lemma glob_spec fs id (ids : list Z) :
  NoDup ids -> (forall x, x ∈ ids -> 0 <= x) ->
  (forall x, x ∈ ids -> is_Some (fs !! inter_name x id)) ->
  (forall name, is_Some (fs !! name) -> matches id name = true ->
     exists x, x ∈ ids /\ name = inter_name x id) ->
  glob fs id ≡ₚ (fun x => inter_name x id) <$> ids.
Proof.
  intros Hnd Hpos Hin Hout. unfold glob. rewrite merge_sort_Permutation.
  apply NoDup_Permutation.
  - apply NoDup_filter, NoDup_elements.
  - apply NoDup_fmap_2_strong; [|done]. intros x y Hx Hy Heq.
    apply inter_name_inj in Heq as [? _]; [done|by apply Hpos..].
  - intros name. rewrite list_elem_of_filter, elem_of_elements, elem_of_dom, list_elem_of_fmap. split.
    + intros [Hm Hs]. destruct (Hout name Hs Hm) as (x & Hx & ->). by exists x.
    + intros (x & -> & Hx). split; [|by apply Hin].
      rewrite matches_inter_name by (by apply Hpos). by apply bool_decide_true.
Qed.

(** ** A sort *)

Definition key_le (a b : KeyValue) : Prop := String.le (Key a) (Key b).
#[export] Instance key_le_dec : RelDecision key_le.
Proof. intros a b. unfold key_le. apply _. Defined.
#[export] Instance key_le_total : Total key_le.
Proof. intros a b. apply (total String.le). Qed.
#[export] Instance key_le_trans : Transitive key_le.
Proof. intros a b c. unfold key_le. apply transitivity. Qed.

(** Go's sort is not stable; this one is an order it may give. *)
Definition merge_sort_ops : SortOps := merge_sort key_le.
Lemma merge_sort_laws : @SortLaws merge_sort_ops.
Proof.
  split; intros l; unfold sort_ByKey, merge_sort_ops.
  - apply merge_sort_Permutation.
  - pose proof (StronglySorted_merge_sort key_le l) as Hs. induction Hs as [|a M _ IH HM]; constructor;
      [done|]. eapply Forall_impl; [done|]. intros b Hab. unfold Less, String.ltb, key_le, String.le, String.leb in *.
    rewrite String.compare_antisym. by destruct (String.compare (Key a) (Key b)).
Qed.

(** ** Properties *)

(** C34 (the reduce loop).  On pairs sorted by key the loop of the worker and of the
    sequential program, with its two indices, ends within the slice and prints one line
    per distinct key, in the order of the keys, with all the values of that key and only
    those, in the order they have. *)
Theorem reduce_loop_reference reducef M :
  StronglySorted (fun a b => Less b a = false) M ->
  reduce_lines reducef M =
    Ret ((fun k => format_line k (reducef k (Value <$> filter (fun kv => Key kv = k) M)))
           <$> remove_dups (Key <$> M)) /\
  NoDup (remove_dups (Key <$> M)) /\
  (forall k, k ∈ remove_dups (Key <$> M) <-> exists kv, kv ∈ M /\ Key kv = k).
Proof.
  intros Hs. split_and!.
  - rewrite reduce_lines_spec by (by apply sorted_grouped). done.
  - apply NoDup_remove_dups.
  - intros k. apply keys_of_elem.
Qed.

(** Buckets.  The hash is in [0, 2^31), also for keys with bytes above 127, so the
    bucket of a pair is one of the files of the map run and depends on its key only;
    with no reduce task the run ends with a division by zero. *)
Lemma bucket_bounds n kv :
  0 <= n ->
  (0 <= ihash (Key kv) < 2 ^ 31) /\
  (bucket n kv = Panic DivideByZero <-> n = 0) /\
  (0 < n -> exists b, bucket n kv = Ret b /\ 0 <= b < n /\
     (forall kv', Key kv' = Key kv -> bucket n kv' = Ret b) /\
     forall ts id i, returns (map_ops ts id n [kv]) /\ (seqZ 0 n !! i = Some b -> Z.of_nat i = b)).
Proof.
  intros Hn. split_and!; try apply ihash_range.
  - unfold bucket. case_decide; [done|]. done.
  - intros Hn'. exists (hash_bucket n (Key kv)). split_and!.
    + by apply bucket_Ret.
    + by apply hash_bucket_range.
    + by apply hash_bucket_range.
    + intros kv' Heq. by rewrite bucket_Ret, Heq.
    + intros ts id i. rewrite map_ops_Ret by done. split; [by eexists|].
      rewrite lookup_seqZ. lia.
Qed.

Definition ex_pairs : list KeyValue := [MkKV "a" "1"; MkKV "a" "2"; MkKV "b" "3"].

Example ex_reduce_lines : reduce_lines (fun _ vs => pretty (length vs)) ex_pairs =
  Ret [format_line "a" "2"; format_line "b" "1"].
Proof. vm_compute. reflexivity. Qed.

Lemma reduce_loop_reference_witness :
  reduce_lines (fun _ vs => pretty (length vs)) ex_pairs = Ret [format_line "a" "2"; format_line "b" "1"] /\
  NoDup (remove_dups (Key <$> ex_pairs)).
Proof.
  destruct (reduce_loop_reference (fun _ vs => pretty (length vs)) ex_pairs) as (H1 & H2 & _).
  - repeat constructor.
  - split; [|exact H2]. rewrite H1. reflexivity.
Defined.

Lemma bucket_bounds_ex :
  bucket 3 (MkKV "a" "") = Ret 2 /\ bucket 0 (MkKV "a" "") = Panic DivideByZero.
Proof.
  split; [reflexivity|]. apply (bucket_bounds 0 (MkKV "a" "")); lia.
Defined.
End MrWorker.
