(* ===== verification/MrSystem.v ===== *)
(** * MrSystem: coordinator, workers and directory together (src/src/mr/worker.go)

    [Worker]'s loop, one task run at a time: the world is the coordinator, the shared
    directory and the runs that were started.  [Worker] is the loop of one worker alone.  In the step
    relation a run that stops for ever is a worker that died; a run may go on after the coordinator gave its task to another worker. *)
From S2P Require Import Prelude GoText MrCoord MrWorker.
Local Open Scope Z_scope.
Local Open Scope go_scope.

Module MrSystem.
Import MrCoord MrWorker.

(** ** Runs of tasks *)

Inductive phase :=
| Started
| Reading (names : list string) (MapResults : list KeyValue)
| Writing (k : nat) (ops : list op)     (* [k] operations are done *)
| Reported.

Record run := MkRun { r_reply : GetTaskReply; r_timeStr : string; r_phase : phase }.

(** The switch on the reply: a run, or none ("wait", "done", or a fatal error). *)
Definition Worker_start (reply : GetTaskReply) (timeStr : string) : option run :=
  match r_TaskType reply with
  | RMap | RReduce => Some (MkRun reply timeStr Started)
  | RWait | RDone | RNone => None
  end.

Definition open_file (fs : gmap string (list chunk)) (name : string) : res (list chunk) :=
  match fs !! name with Some f => Ret f | None => Panic Fatal end.

Section programs.
Context (mapf : string -> string -> list KeyValue) (reducef : string -> list string -> string).
Context `{SortOps}.

(** The next step of a run; none is left to one that only has to report. *)
Definition run_step (fs : gmap string (list chunk)) (r : run)
  : res (gmap string (list chunk) * run) :=
  let reply := r_reply r in
  let ts := r_timeStr r in
  let to ph := MkRun reply ts ph in
  match r_phase r, r_TaskType reply with
  | Started, RMap =>
      let! fileContent := ReadFile fs (r_FileName reply) in
      let! ops := map_ops ts (r_TaskId reply) (r_NReduce reply)
                    (mapf (r_FileName reply) fileContent) in
      Ret (fs, to (Writing 0 ops))
  | Started, RReduce => Ret (fs, to (Reading (glob fs (r_TaskId reply)) []))
  | Reading (filename :: names) MapResults, RReduce =>
      let! f := open_file fs filename in
      let! kvs := decode_file f in
      Ret (fs, to (Reading names (MapResults ++ kvs)))
  | Reading [] MapResults, RReduce =>
      let! ops := reduce_ops reducef ts (r_TaskId reply) MapResults in
      Ret (fs, to (Writing 0 ops))
  | Writing k ops, _ =>
      match ops !! k with
      | Some o => let! fs := exec o fs in Ret (fs, to (Writing (S k) ops))
      | None => Ret (fs, r)
      end
  | _, _ => Ret (fs, r)
  end.

(** The call of FinishTask at the end of a run. *)
Definition report (r : run) : option FinishTaskArgs :=
  match r_phase r with
  | Writing k ops =>
      if decide (k = length ops) then
        match r_TaskType (r_reply r) with
        | RMap => Some (MkFinishTaskArgs (Some TMap) (r_TaskId (r_reply r)))
        | RReduce => Some (MkFinishTaskArgs (Some TReduce) (r_TaskId (r_reply r)))
        | _ => None
        end
      else None
  | _ => None
  end.
Definition reported (r : run) : run := MkRun (r_reply r) (r_timeStr r) Reported.

(** The steps of a run up to its report. *)
Fixpoint to_report (fuel : nat) (fs : gmap string (list chunk)) (r : run)
  : res (gmap string (list chunk) * run * FinishTaskArgs) :=
  match report r with
  | Some args => Ret (fs, r, args)
  | None =>
      match fuel with
      | O => Panic OutOfFuel
      | S fuel => let! (fs, r) := run_step fs r in to_report fuel fs r
      end
  end.

(** ** The world *)

Record world := MkWorld {
  coord : Coordinator;
  fs : gmap string (list chunk);
  runs : list run;
}.

(** [Worker]'s loop, alone: it asks for a task, runs it, reports it, and asks again, until it is told
    that the job is done.  [clock]: the time stamps of its turns; [turns] and [fuel] bound the turns and
    the steps of a run. *)
Fixpoint Worker (turns fuel : nat) (clock : nat -> string) (w : world) : res world :=
  match turns with
  | O => Panic OutOfFuel
  | S turns =>
      let '(c, reply) := GetTask (coord w) in
      let timeStr := clock 0%nat in
      let later := fun i => clock (S i) in
      match Worker_start reply timeStr with
      | Some r =>
          let! (d, r, args) := to_report fuel (fs w) r in
          let! c := FinishTask args c in
          Worker turns fuel later (MkWorld c d (runs w ++ [reported r]))
      | None =>
          match r_TaskType reply with
          | RWait => Worker turns fuel later (MkWorld c (fs w) (runs w))
          | RDone => Ret (MkWorld c (fs w) (runs w))
          | _ => Panic Fatal
          end
      end
  end.

(** Two runs of one task are taken to start in different seconds: the coordinator gives a task out
    again only after a timeout of ten seconds.  (A worker that is held up between the reply and
    its [time.Now()] could break this; the files would then be shared.)  A time stamp starts
    with "-". *)
Definition run_key (r : run) : reply_type * Z * string :=
  (r_TaskType (r_reply r), r_TaskId (r_reply r), r_timeStr r).
Definition fresh (rs : list run) (r : option run) : Prop :=
  match r with
  | Some r => stamp (r_timeStr r) /\ ~ run_key r ∈ run_key <$> rs
  | None => True
  end.

Inductive step : world -> world -> Prop :=
| step_GetTask w ts c' reply :
    GetTask (coord w) = (c', reply) -> fresh (runs w) (Worker_start reply ts) ->
    step w (MkWorld c' (fs w) (runs w ++ option_list (Worker_start reply ts)))
| step_run w k r fs' r' :
    runs w !! k = Some r -> run_step (fs w) r = Ret (fs', r') ->
    step w (MkWorld (coord w) fs' (<[k := r']> (runs w)))
| step_FinishTask w k r args c' :
    runs w !! k = Some r -> report r = Some args -> FinishTask args (coord w) = Ret c' ->
    step w (MkWorld c' (fs w) (<[k := reported r]> (runs w)))
| step_timeout w k m c' :
    monitors (coord w) !! k = Some m -> TaskMonitor_timeout m (coord w) = Ret c' ->
    step w (MkWorld (drop_monitor k c') (fs w) (runs w))
| step_cancelled w k m :
    monitors (coord w) !! k = Some m -> TaskMonitor_cancelled m (coord w) = true ->
    step w (MkWorld (drop_monitor k (coord w)) (fs w) (runs w)).

(** The start: a directory without worker files. *)
Definition initial (files : list string) (n : Z) (fs0 : gmap string (list chunk)) (w : world)
  : Prop :=
  MakeCoordinator files n = Ret (coord w) /\ fs w = fs0 /\ runs w = [].
End programs.

(** ** The coordinator's tasks along the steps *)

Definition same_tasks (c c' : Coordinator) : Prop :=
  nReduce c' = nReduce c /\ Tasks (maps c') = Tasks (maps c) /\
  Tasks (reduces c') = Tasks (reduces c).

Lemma GetTask_same c : same_tasks c (GetTask c).1.
Proof.
  unfold GetTask, assign, same_tasks.
  repeat (case_match; try case_decide; simplify_eq/=); done.
Qed.

Lemma evict_same {T} cl id (p p' : pool T) cl' :
  evict cl id p = Ret (p', cl') -> Tasks p' = Tasks p.
Proof. unfold evict. intros. by inv_res. Qed.

Lemma timeout_same m c c' : TaskMonitor_timeout m c = Ret c' -> same_tasks c c'.
Proof.
  unfold TaskMonitor_timeout, same_tasks. intros H. case_match; inv_res;
    by match goal with E : evict _ _ _ = Ret ?a |- _ =>
         destruct a; inv_res; apply evict_same in E end.
Qed.

Lemma drop_same k c : same_tasks c (drop_monitor k c).
Proof. done. Qed.

Lemma same_tasks_trans a b c : same_tasks a b -> same_tasks b c -> same_tasks a c.
Proof. intros (? & ? & ?) (? & ? & ?). unfold same_tasks. split_and!; congruence. Qed.

(** The task [id] of one kind is done. *)
Definition task_is_done (c : Coordinator) (ty : task_type) (id : Z) : Prop :=
  match ty with
  | TMap => exists t, Tasks (maps c) !! Z.to_nat id = Some t /\ doneP t
  | TReduce => exists t, Tasks (reduces c) !! Z.to_nat id = Some t /\ doneP t
  end.

Lemma insert_done {T} `{TaskOps T} (l : list T) i j t u :
  l !! i = Some t -> doneP u ->
  (exists v, <[i := u]> l !! j = Some v /\ doneP v) <->
  (exists v, l !! j = Some v /\ doneP v) \/ j = i.
Proof.
  intros Hi Hu. pose proof (lookup_lt_Some _ _ _ Hi). destruct (decide (j = i)) as [->|Hne].
  - rewrite list_lookup_insert_eq by done. split; [by right|]. intros _. by eexists.
  - rewrite list_lookup_insert_ne by done. split; [by left|]. by intros [?|?].
Qed.

(** FinishTask sets the task reported to done when it was running, and only that. *)
Lemma FinishTask_done ty id c c' :
  coord_wf c -> FinishTask (MkFinishTaskArgs (Some ty) id) c = Ret c' ->
  nReduce c' = nReduce c /\
  FileName <$> Tasks (maps c') = FileName <$> Tasks (maps c) /\
  length (Tasks (reduces c')) = length (Tasks (reduces c)) /\
  (forall ty' id', 0 <= id' -> task_is_done c' ty' id' ->
     task_is_done c ty' id' \/ (ty' = ty /\ id' = id)) /\
  (all_done (maps c) -> all_done (maps c')).
Proof.
  intros [Hm Hr _ _ _ _ _ _ _]. unfold FinishTask. cbn [f_TaskType f_TaskId]. destruct ty; intros H.
  - destruct (finish_spec _ _ _ id Hm) as [[_ Hf]|(ch & t & Hid & Ht & Htodo & Hid0 & Hf)];
      rewrite Hf in H; inv_res; cbn [maps reduces Tasks nReduce].
    + split_and!; try done. intros. by left.
    + split_and!; try done.
      * rewrite list_fmap_insert. cbn. apply list_insert_id.
        by rewrite list_lookup_fmap, Ht.
      * intros [] id' Hpos Hd; [|by left]. cbn in Hd.
        eapply insert_done in Hd as [?|?]; [by left| |exact Ht|done]. right. split; [done|lia].
      * intros Hall. exact (all_done_finish (maps c) (Z.to_nat id) t _ _ Hall).
  - destruct (finish_spec _ _ _ id Hr) as [[_ Hf]|(ch & t & Hid & Ht & Htodo & Hid0 & Hf)];
      rewrite Hf in H; inv_res; cbn [maps reduces Tasks nReduce].
    + split_and!; try done. intros. by left.
    + split_and!; try done.
      * by rewrite length_insert.
      * intros [] id' Hpos Hd; [by left|]. cbn in Hd.
        eapply insert_done in Hd as [?|?]; [by left| |exact Ht|done]. right. split; [done|lia].
Qed.

(** ** What the directory must hold *)

Section system.
Context (mapf : string -> string -> list KeyValue) (reducef : string -> list string -> string).
Context `{SortLaws}.
Context (files : list string) (n : Z) (text : string -> string).
Context (Hn : 0 < n).
Context (json_safe : forall f kv, f ∈ files -> kv ∈ mapf f (text f) -> json_kv kv = kv).

(** The pairs of one map task, of all, and the map tasks. *)
Definition emitted (X : Z) : list KeyValue :=
  match files !! Z.to_nat X with Some f => mapf f (text f) | None => [] end.
Definition all_pairs : list KeyValue := f ← files; mapf f (text f).
Definition ids : list Z := seqZ 0 (zlen files).

Lemma ids_elem X : X ∈ ids <-> 0 <= X < zlen files.
Proof. unfold ids. rewrite elem_of_seqZ. lia. Qed.

Lemma emitted_all : (X ← ids; emitted X) = all_pairs.
Proof.
  unfold ids, all_pairs, emitted, seqZ, zlen. rewrite Nat2Z.id, list_fmap_bind.
  enough (forall k l, (forall i, l !! i = files !! (k + i)%nat) ->
    (seq k (length l) ≫= ((fun X => match files !! Z.to_nat X with Some f => mapf f (text f) | None => [] end)
       ∘ (fun i => Z.of_nat i + 0)%Z)) = (f ← l; mapf f (text f))) as Hk by (by apply (Hk 0%nat)).
  intros k l. revert k. induction l as [|f l IH]; intros k Hl; [done|].
  cbn [length seq]. rewrite !bind_cons. f_equal.
  - unfold compose. replace (Z.to_nat (Z.of_nat k + 0)) with k by lia.
    pose proof (Hl 0%nat) as Hl0. rewrite Nat.add_0_r in Hl0. by rewrite <- Hl0.
  - apply IH. intros i. rewrite (Nat.add_succ_comm k i). apply (Hl (S i)).
Qed.

(** The pairs for one reduce task. *)
Definition pairs (Y : Z) : list KeyValue := X ← ids; in_bucket n Y (emitted X).

Lemma pairs_all Y : pairs Y = in_bucket n Y all_pairs.
Proof.
  unfold pairs. rewrite <- emitted_all. induction ids as [|X l IH]; [done|].
  by rewrite !bind_cons, in_bucket_app, IH.
Qed.

(** Lines that are right for one reduce task. *)
Definition good_lines (Y : Z) (l : list string) : Prop :=
  exists M, M ≡ₚ in_bucket n Y all_pairs /\ l = lines_of reducef M.

(** A worker's final file holds what it must. *)
Definition good (name : string) (f : list chunk) : Prop :=
  (forall X Y, X ∈ ids -> 0 <= Y < n -> name = inter_name X Y ->
     f = Json <$> in_bucket n Y (emitted X)) /\
  (forall Y, 0 <= Y < n -> name = out_name Y -> exists l, f = Line <$> l /\ good_lines Y l).

Record dir_ok (c : Coordinator) (d : gmap string (list chunk)) : Prop := {
  do_inputs : forall f, f ∈ files -> ours f = false /\ d !! f = Some [Raw (text f)];
  do_good : forall name f, d !! name = Some f -> good name f;
  do_names : forall name Y, is_Some (d !! name) -> 0 <= Y < n -> matches Y name = true ->
    exists X, X ∈ ids /\ name = inter_name X Y;
  do_maps : forall X Y, X ∈ ids -> 0 <= Y < n -> task_is_done c TMap X ->
    is_Some (d !! inter_name X Y);
  do_reduces : forall Y, 0 <= Y < n -> task_is_done c TReduce Y -> is_Some (d !! out_name Y);
}.

(** The files of a run. *)
Definition run_outs (r : run) : list (string * string) :=
  match r_TaskType (r_reply r) with
  | RMap => map_outs (r_timeStr r) (r_TaskId (r_reply r)) n
  | RReduce => reduce_outs (r_timeStr r) (r_TaskId (r_reply r))
  | _ => []
  end.

Definition map_run_ok (d : gmap string (list chunk)) (r : run) : Prop :=
  let id := r_TaskId (r_reply r) in
  id ∈ ids /\ r_NReduce (r_reply r) = n /\ files !! Z.to_nat id = Some (r_FileName (r_reply r)) /\
  match r_phase r with
  | Started | Reported => True
  | Reading _ _ => False
  | Writing k ops =>
      let body := map_writes (r_timeStr r) id n (emitted id) in
      ops = writer_ops (run_outs r) body /\ writer_inv (run_outs r) body d k
  end.

Definition reduce_run_ok (c : Coordinator) (d : gmap string (list chunk)) (r : run) : Prop :=
  let id := r_TaskId (r_reply r) in
  0 <= id < n /\ all_done (maps c) /\
  match r_phase r with
  | Started | Reported => True
  | Reading names MapResults => exists rd lf, rd ++ lf ≡ₚ ids /\
      names = (fun X => inter_name X id) <$> lf /\
      MapResults = (X ← rd; in_bucket n id (emitted X))
  | Writing k ops => exists l, good_lines id l /\
      let body := reduce_writes (r_timeStr r) id l in
      ops = writer_ops (run_outs r) body /\ writer_inv (run_outs r) body d k
  end.

Definition run_ok (c : Coordinator) (d : gmap string (list chunk)) (r : run) : Prop :=
  stamp (r_timeStr r) /\
  match r_TaskType (r_reply r) with
  | RMap => map_run_ok d r
  | RReduce => reduce_run_ok c d r
  | _ => False
  end.

Record world_ok (w : world) : Prop := {
  wo_coord : coord_wf (coord w);
  wo_n : nReduce (coord w) = n;
  wo_files : FileName <$> Tasks (maps (coord w)) = files;
  wo_reduces : length (Tasks (reduces (coord w))) = Z.to_nat n;
  wo_dir : dir_ok (coord w) (fs w);
  wo_runs : Forall (run_ok (coord w) (fs w)) (runs w);
  wo_keys : NoDup (run_key <$> runs w);
}.

Lemma all_done_eq {T} `{TaskOps T} (p p' : pool T) :
  Tasks p' = Tasks p -> all_done p' <-> all_done p.
Proof. intros Heq. unfold all_done. by rewrite Heq. Qed.

(** *** Steps of runs *)

Definition run_shape (r : run) : Prop :=
  stamp (r_timeStr r) /\
  ((r_TaskType (r_reply r) = RMap /\ r_TaskId (r_reply r) ∈ ids) \/
   (r_TaskType (r_reply r) = RReduce /\ 0 <= r_TaskId (r_reply r) < n)).

Lemma run_ok_shape c d r : run_ok c d r -> run_shape r.
Proof.
  intros [Hs Hr]. split; [done|]. destruct (r_TaskType (r_reply r)) eqn:E; try done.
  - left. by destruct Hr as (? & _).
  - right. by destruct Hr as (? & _).
Qed.

(** The names a run uses. *)
Lemma run_temps r t :
  run_shape r -> t ∈ (run_outs r).*1 ->
  (exists X Y, r_TaskType (r_reply r) = RMap /\ X = r_TaskId (r_reply r) /\ 0 <= X /\ 0 <= Y < n /\
     t = inter_tmp (r_timeStr r) X Y) \/
  (exists Y, r_TaskType (r_reply r) = RReduce /\ Y = r_TaskId (r_reply r) /\ 0 <= Y /\
     t = out_tmp (r_timeStr r) Y).
Proof.
  unfold run_outs. intros [_ [[Ht Hid%ids_elem]|[Ht Hid]]]; rewrite Ht.
  - intros (i & ? & ->)%map_temps_elem. left. eexists _, i. split_and!; try done; lia.
  - intros ->%list_elem_of_singleton. right. eexists. split_and!; [done..|lia|done].
Qed.

Lemma run_finals r f :
  run_shape r -> f ∈ (run_outs r).*2 ->
  (exists X Y, X ∈ ids /\ 0 <= Y < n /\ f = inter_name X Y) \/ (exists Y, 0 <= Y < n /\ f = out_name Y).
Proof.
  unfold run_outs. intros [_ [[Ht Hid]|[Ht Hid]]]; rewrite Ht.
  - intros (i & ? & ->)%map_finals_elem. left. by eexists _, i.
  - intros ->%list_elem_of_singleton. right. eexists. by split.
Qed.

Lemma inter_tmp_not_out ts X Y s : 0 <= X -> inter_tmp ts X Y <> "mr-out-" +:+ s.
Proof. intros. rewrite inter_tmp_eq. by apply inter_not_out. Qed.
Lemma inter_name_not_out X Y s : 0 <= X -> inter_name X Y <> "mr-out-" +:+ s.
Proof. intros. rewrite inter_name_eq. by apply inter_not_out. Qed.

(** A temporary name is neither an input, nor a final name, nor read by anyone. *)
Lemma temp_names r t :
  run_shape r -> t ∈ (run_outs r).*1 ->
  ours t = true /\ (forall Y, 0 <= Y -> matches Y t = false) /\
  (forall X Y, X ∈ ids -> 0 <= Y -> t <> inter_name X Y) /\ (forall Y, 0 <= Y -> t <> out_name Y).
Proof.
  intros Hsh Ht. pose proof Hsh as [Hts _].
  destruct (run_temps r t Hsh Ht) as [(X & Y & _ & _ & HX & HY & ->)|(Y & _ & _ & HY & ->)];
    split_and!.
  - apply ours_inter_tmp.
  - intros. by apply matches_inter_tmp.
  - intros X' Y' ?%ids_elem ?. apply inter_tmp_name; (done || lia).
  - intros. by apply inter_tmp_not_out.
  - apply ours_out_tmp.
  - intros. apply matches_out_tmp.
  - intros X' Y' ?%ids_elem ? Heq. rewrite out_tmp_eq in Heq. symmetry in Heq.
    apply inter_name_not_out in Heq; [done|lia].
  - intros. by apply out_tmp_name.
Qed.

Lemma temps_disjoint r r' t :
  run_shape r -> run_shape r' -> run_key r <> run_key r' ->
  t ∈ (run_outs r).*1 -> ~ t ∈ (run_outs r').*1.
Proof.
  intros Hsh Hsh' Hk Ht Ht'. pose proof Hsh as [Hts _]. pose proof Hsh' as [Hts' _].
  destruct (run_temps r t Hsh Ht) as [(X & Y & E1 & E2 & HX & HY & ->)|(Y & E1 & E2 & HY & ->)];
    destruct (run_temps r' _ Hsh' Ht') as [(X' & Y' & E1' & E2' & HX' & HY' & Heq)|(Y' & E1' & E2' & HY' & Heq)].
  - apply inter_tmp_inj in Heq as (? & ? & ?); try done; try lia. apply Hk. unfold run_key. congruence.
  - rewrite out_tmp_eq in Heq. by apply inter_tmp_not_out in Heq.
  - rewrite out_tmp_eq in Heq. symmetry in Heq. by apply inter_tmp_not_out in Heq.
  - apply out_tmp_inj in Heq as (? & ?); try done. apply Hk. unfold run_key. congruence.
Qed.

Lemma temp_not_finals r r' t :
  run_shape r -> run_shape r' -> t ∈ (run_outs r).*1 -> ~ t ∈ (run_outs r').*2.
Proof.
  intros Hsh Hsh' Ht Hf. destruct (temp_names r t Hsh Ht) as (_ & _ & H1 & H2).
  destruct (run_finals r' t Hsh' Hf) as [(X & Y & HX & HY & Heq)|(Y & HY & Heq)].
  - eapply H1; [exact HX| |exact Heq]. lia.
  - eapply H2; [|exact Heq]. lia.
Qed.

(** A final file of the job stays once it is there. *)
Lemma frame_present r body d d' name :
  run_shape r -> writer_frame (run_outs r) body d d' -> ~ name ∈ (run_outs r).*1 ->
  is_Some (d !! name) -> is_Some (d' !! name).
Proof.
  intros Hsh [Hf1 Hf2] Hnt Hs. destruct (decide (name ∈ (run_outs r).*2)) as [Hin|Hin].
  - destruct (Hf2 name Hin) as [->|(t & _ & ->)]; [done|by eexists].
  - by rewrite Hf1.
Qed.

Lemma frame_run_ok c r r2 body d d' :
  run_shape r -> writer_frame (run_outs r) body d d' -> run_key r2 <> run_key r ->
  run_ok c d r2 -> run_ok c d' r2.
Proof.
  intros Hsh Hf Hk Hr2. pose proof (run_ok_shape _ _ _ Hr2) as Hsh2.
  assert (forall body2 k, writer_inv (run_outs r2) body2 d k -> writer_inv (run_outs r2) body2 d' k) as Hw.
  { intros body2 k Hi. eapply writer_inv_other; [exact Hi|..].
    - intros t Ht. apply Hf; [|by apply (temp_not_finals r2)].
      eapply temps_disjoint; [exact Hsh2|exact Hsh|done|done].
    - intros f Hin. apply (frame_present r body); [done..|]. intros Hin1.
      by apply (temp_not_finals r r2 f). }
  destruct Hr2 as [Hs Hr2]. split; [done|]. destruct (r_TaskType (r_reply r2)); try done.
  - destruct Hr2 as (? & ? & ? & Hp). split_and!; try done. destruct (r_phase r2); try done.
    destruct Hp as [? ?]. split; [done|by apply Hw].
  - destruct Hr2 as (? & ? & Hp). split; [done|split; [done|]]. destruct (r_phase r2); try exact Hp.
    destruct Hp as (l & ? & ? & ?). exists l. split; [done|]. cbv zeta. split; [done|by apply Hw].
Qed.

Lemma frame_dir_ok c r body d d' :
  run_shape r -> writer_frame (run_outs r) body d d' ->
  (forall t f, (t, f) ∈ run_outs r -> good f (content t body)) ->
  dir_ok c d -> dir_ok c d'.
Proof.
  intros Hsh Hf Hgood [Hin Hg Hnames Hmaps Hreds]. pose proof Hf as [Hf1 Hf2]. split.
  - intros f Hff. destruct (Hin f Hff) as [Ho Hd]. split; [done|]. rewrite Hf1; [done|..].
    + intros Ht. destruct (temp_names r f Hsh Ht). congruence.
    + intros Ht. destruct (run_finals r f Hsh Ht) as [(X & Y & _ & _ & ->)|(Y & _ & ->)].
      * by rewrite ours_inter_name in Ho.
      * by rewrite ours_out_name in Ho.
  - intros name f Hd. destruct (decide (name ∈ (run_outs r).*1)) as [Ht|Ht].
    + destruct (temp_names r name Hsh Ht) as (_ & _ & H1 & H2). split.
      * intros X Y HX HY ->. destruct (H1 X Y HX); [lia|done].
      * intros Y HY ->. destruct (H2 Y); [lia|done].
    + destruct (decide (name ∈ (run_outs r).*2)) as [Hfin|Hfin].
      * destruct (Hf2 name Hfin) as [Heq|(t & Htf & Heq)]; [by apply Hg; rewrite <- Heq|].
        rewrite Hd in Heq. simplify_eq. by apply Hgood.
      * apply Hg. by rewrite <- Hf1.
  - intros name Y Hs HY Hm. destruct (decide (name ∈ (run_outs r).*1)) as [Ht|Ht].
    { destruct (temp_names r name Hsh Ht) as (_ & H1 & _). rewrite H1 in Hm; [done|lia]. }
    destruct (decide (name ∈ (run_outs r).*2)) as [Hfin|Hfin].
    + destruct (run_finals r name Hsh Hfin) as [(X & Y' & HX & HY' & ->)|(Y' & HY' & ->)].
      * exists X. split; [done|]. pose proof HX as ?%ids_elem.
        rewrite matches_inter_name in Hm by lia. bool_to_prop. congruence.
      * by unfold out_name in Hm; rewrite matches_out in Hm.
    + apply Hnames; [|done..]. by rewrite <- Hf1.
  - intros X Y HX HY Hd. eapply frame_present; [done..| |by apply Hmaps].
    intros Ht. destruct (temp_names r _ Hsh Ht) as (_ & _ & H1 & _). apply (H1 X Y); [done|lia|done].
  - intros Y HY Hd. eapply frame_present; [done..| |by apply Hreds].
    intros Ht. destruct (temp_names r _ Hsh Ht) as (_ & _ & _ & H1). apply (H1 Y); [lia|done].
Qed.

Lemma map_content_good ts X t f :
  stamp ts -> X ∈ ids -> (t, f) ∈ map_outs ts X n -> good f (content t (map_writes ts X n (emitted X))).
Proof.
  intros Hts HX (i & Hi & -> & ->)%map_outs_elem. pose proof HX as HX'%ids_elem.
  rewrite map_content by (done || lia). split.
  - intros X' Y HX2%ids_elem HY Heq. apply inter_name_inj in Heq as [-> ->]; [done|lia..].
  - intros Y HY Heq. unfold out_name in Heq. by apply inter_name_not_out in Heq; [|lia].
Qed.

Lemma reduce_content_good ts Y l t f :
  0 <= Y < n -> good_lines Y l -> (t, f) ∈ reduce_outs ts Y -> good f (content t (reduce_writes ts Y l)).
Proof.
  intros HY Hl Heq%list_elem_of_singleton. simplify_eq. rewrite reduce_content. split.
  - intros X Y' HX%ids_elem HY' Heq. symmetry in Heq. unfold out_name in Heq.
    by apply inter_name_not_out in Heq; [|lia].
  - intros Y' HY' ->%out_name_inj. by exists l.
Qed.

Lemma emitted_safe X kv : X ∈ ids -> kv ∈ emitted X -> json_kv kv = kv.
Proof.
  intros HX. unfold emitted. destruct (files !! Z.to_nat X) as [f|] eqn:E; [|by intros ?%elem_of_nil].
  apply json_safe. by eapply list_elem_of_lookup_2.
Qed.

(** What one step of a run must do. *)
Definition step_good (c : Coordinator) (d : gmap string (list chunk)) (r : run) : Prop :=
  exists d' r', run_step mapf reducef d r = Ret (d', r') /\ run_key r' = run_key r /\
    run_ok c d' r' /\ dir_ok c d' /\
    (forall r2, run_key r2 <> run_key r -> run_ok c d r2 -> run_ok c d' r2).

(** A step that leaves the directory alone. *)
Lemma step_good_same c d r ph :
  dir_ok c d -> run_step mapf reducef d r = Ret (d, MkRun (r_reply r) (r_timeStr r) ph) ->
  run_ok c d (MkRun (r_reply r) (r_timeStr r) ph) -> step_good c d r.
Proof. intros Hd Hs Hr. eexists _, _. by split_and!. Qed.

Lemma step_good_noop c d r :
  dir_ok c d -> run_ok c d r -> run_step mapf reducef d r = Ret (d, r) -> step_good c d r.
Proof. intros Hd Hr Hs. by exists d, r. Qed.

(** A step of a run that writes. *)
Lemma step_good_write c d r k body :
  run_shape r -> writer_wf (run_outs r) body ->
  (forall t f, (t, f) ∈ run_outs r -> good f (content t body)) ->
  r_phase r = Writing k (writer_ops (run_outs r) body) ->
  run_ok c d r -> dir_ok c d -> writer_inv (run_outs r) body d k ->
  (forall d', writer_inv (run_outs r) body d' (S k) ->
     run_ok c d' (MkRun (r_reply r) (r_timeStr r) (Writing (S k) (writer_ops (run_outs r) body)))) ->
  step_good c d r.
Proof.
  intros Hsh Hwf Hgood Hph Hr Hd Hi Hnext.
  destruct (writer_ops (run_outs r) body !! k) as [o|] eqn:Eo.
  - destruct (writer_step _ _ Hwf _ _ _ Hi Eo) as (d' & He & Hi' & Hf).
    eexists d', _. split_and!.
    + unfold run_step. rewrite Hph, Eo, He. by destruct (r_TaskType (r_reply r)).
    + done.
    + by apply Hnext.
    + by eapply frame_dir_ok.
    + intros r2 Hk. by eapply frame_run_ok.
  - apply step_good_noop; [done|done|]. unfold run_step. rewrite Hph, Eo.
    by destruct (r_TaskType (r_reply r)).
Qed.

Lemma map_step_good c d r :
  run_ok c d r -> r_TaskType (r_reply r) = RMap -> dir_ok c d -> step_good c d r.
Proof.
  intros Hr Ht Hd. pose proof (run_ok_shape _ _ _ Hr) as Hsh. pose proof Hr as [Hs Hm].
  rewrite Ht in Hm. destruct Hm as (Hid & Hnn & Hfile & Hp). pose proof Hid as ?%ids_elem.
  destruct (r_phase r) as [| |k ops|] eqn:Eph; [|done| |].
  - assert (r_FileName (r_reply r) ∈ files) as Hin by (by eapply list_elem_of_lookup_2).
    destruct (do_inputs _ _ Hd _ Hin) as [_ Hread].
    eapply step_good_same with (ph := Writing 0 _); [done|..].
    + unfold run_step. rewrite Eph, Ht. unfold ReadFile. rewrite Hread, Hnn. cbn [res_bind].
      rewrite map_ops_Ret by done. done.
    + split; [done|]. cbn [r_reply r_TaskType r_timeStr]. rewrite Ht. unfold map_run_ok, run_outs.
      cbn [r_reply r_phase r_timeStr]. rewrite Ht. split_and!; try done.
      * unfold emitted. by rewrite Hfile.
      * apply writer_inv_0.
  - destruct Hp as [-> Hi]. eapply step_good_write; try done.
    + unfold run_outs. rewrite Ht. apply map_writer_wf; [done|lia|done].
    + intros t f. unfold run_outs. rewrite Ht. by apply map_content_good.
    + intros d' Hi'. split; [done|]. cbn [r_reply r_TaskType r_timeStr]. rewrite Ht.
      unfold map_run_ok. cbn [r_reply r_phase r_timeStr]. by split_and!.
  - apply step_good_noop; [done|done|]. unfold run_step. by rewrite Eph.
Qed.

Lemma reduce_read_good c d Y X acc rd lf :
  dir_ok c d -> 0 <= Y < n -> (forall X, X ∈ ids -> task_is_done c TMap X) ->
  rd ++ X :: lf ≡ₚ ids -> acc = (X ← rd; in_bucket n Y (emitted X)) ->
  exists f kvs, d !! inter_name X Y = Some f /\ decode_file f = Ret kvs /\
    (rd ++ [X]) ++ lf ≡ₚ ids /\ acc ++ kvs = (X ← rd ++ [X]; in_bucket n Y (emitted X)).
Proof.
  intros Hd HY Hdone Hperm ->.
  assert (X ∈ ids) as HX by (rewrite <- Hperm; apply elem_of_app; right; left).
  destruct (do_maps _ _ Hd X Y HX HY (Hdone X HX)) as [f Hf].
  destruct (do_good _ _ Hd _ _ Hf) as [Hg _]. rewrite (Hg X Y HX HY eq_refl) in Hf.
  eexists _, _. split_and!; [done|apply decode_file_Json| |].
  - by rewrite <- app_assoc.
  - rewrite bind_app, bind_singleton. f_equal. apply json_kvs_id.
    intros kv [_ Hkv]%list_elem_of_filter. by eapply emitted_safe.
Qed.

Lemma glob_good c d Y :
  dir_ok c d -> 0 <= Y < n -> (forall X, X ∈ ids -> task_is_done c TMap X) ->
  exists lf, lf ≡ₚ ids /\ glob d Y = (fun X => inter_name X Y) <$> lf.
Proof.
  intros Hd HY Hdone.
  assert (glob d Y ≡ₚ (fun X => inter_name X Y) <$> ids) as Hg.
  { apply glob_spec.
    - apply NoDup_seqZ.
    - intros X ?%ids_elem. lia.
    - intros X HX. apply (do_maps _ _ Hd); [done..|by apply Hdone].
    - intros name Hs Hm. by apply (do_names _ _ Hd). }
  apply Permutation_map_inv in Hg as (lf & Heq & Hp). exists lf. by split.
Qed.

Lemma reduce_step_good c d r :
  run_ok c d r -> r_TaskType (r_reply r) = RReduce -> dir_ok c d ->
  (all_done (maps c) -> forall X, X ∈ ids -> task_is_done c TMap X) -> step_good c d r.
Proof.
  intros Hr Ht Hd Hdone. pose proof (run_ok_shape _ _ _ Hr) as Hsh. pose proof Hr as [Hs Hm].
  rewrite Ht in Hm. destruct Hm as (Hid & Hall & Hp). specialize (Hdone Hall).
  destruct (r_phase r) as [|names acc|k ops|] eqn:Eph.
  - destruct (glob_good _ _ _ Hd Hid Hdone) as (lf & Hlf & Hg).
    eapply step_good_same with (ph := Reading _ []); [done|..].
    + unfold run_step. rewrite Eph, Ht. done.
    + split; [done|]. cbn [r_reply r_TaskType r_timeStr]. rewrite Ht. unfold reduce_run_ok.
      cbn [r_reply r_phase r_timeStr]. split; [done|split; [done|]]. exists [], lf. by split_and!.
  - destruct Hp as (rd & lf & Hperm & -> & Hacc). destruct lf as [|X lf].
    + eapply step_good_same with (ph := Writing 0 _); [done|..].
      * unfold run_step. rewrite Eph, Ht. cbn [fmap list_fmap]. rewrite reduce_ops_Ret. done.
      * split; [done|]. cbn [r_reply r_TaskType r_timeStr]. rewrite Ht. unfold reduce_run_ok, run_outs.
        cbn [r_reply r_phase r_timeStr]. rewrite Ht. split; [done|split; [done|]].
        exists (lines_of reducef (sort_ByKey acc)). split; [|split; [done|apply writer_inv_0]].
        exists (sort_ByKey acc). split; [|done]. rewrite sort_perm, Hacc, <- pairs_all.
        rewrite app_nil_r in Hperm. unfold pairs. by rewrite Hperm.
    + destruct (reduce_read_good _ _ _ _ _ _ _ Hd Hid Hdone Hperm Hacc)
        as (f & kvs & Hf & Hdec & Hperm' & Hacc').
      eapply step_good_same with (ph := Reading _ _); [done|..].
      * unfold run_step. rewrite Eph, Ht. rewrite fmap_cons. unfold open_file. rewrite Hf.
        cbn [res_bind]. rewrite Hdec. done.
      * split; [done|]. cbn [r_reply r_TaskType r_timeStr]. rewrite Ht. unfold reduce_run_ok.
        cbn [r_reply r_phase r_timeStr]. split; [done|split; [done|]].
        exists (rd ++ [X]), lf. by split_and!.
  - destruct Hp as (l & Hl & -> & Hi). eapply step_good_write; try done.
    + unfold run_outs. rewrite Ht. apply reduce_writer_wf; [done|lia].
    + intros t f. unfold run_outs. rewrite Ht. by apply reduce_content_good.
    + intros d' Hi'. split; [done|]. cbn [r_reply r_TaskType r_timeStr]. rewrite Ht.
      unfold reduce_run_ok. cbn [r_reply r_phase r_timeStr]. split; [done|split; [done|]]. by exists l.
  - apply step_good_noop; [done|done|]. unfold run_step. by rewrite Eph.
Qed.

(** *** Steps of the world *)

Lemma same_tasks_done c c' ty X : same_tasks c c' -> task_is_done c' ty X -> task_is_done c ty X.
Proof. intros (_ & Hm & Hr). unfold task_is_done. by rewrite Hm, Hr. Qed.

Lemma dir_ok_coord c c' d :
  (forall ty X, 0 <= X -> task_is_done c' ty X -> task_is_done c ty X) -> dir_ok c d -> dir_ok c' d.
Proof.
  intros Hd [? ? ? Hm Hr]. split; try done.
  - intros X Y HX HY Hdone. apply Hm; [done..|]. apply Hd; [|done]. apply ids_elem in HX. lia.
  - intros Y HY Hdone. apply Hr; [done..|]. apply Hd; [|done]. lia.
Qed.

Lemma run_ok_coord c c' d r :
  (all_done (maps c) -> all_done (maps c')) -> run_ok c d r -> run_ok c' d r.
Proof.
  intros Hall [Hs Hr]. split; [done|]. destruct (r_TaskType (r_reply r)); try done.
  destruct Hr as (? & ? & Hp). split; [done|split; [by apply Hall|done]].
Qed.

Lemma all_done_ids w X : world_ok w -> all_done (maps (coord w)) -> X ∈ ids -> task_is_done (coord w) TMap X.
Proof.
  intros Hw Hall HX%ids_elem. pose proof (wo_files w Hw) as Hf.
  destruct (lookup_lt_is_Some_2 (Tasks (maps (coord w))) (Z.to_nat X)) as [t Ht].
  { rewrite <- (length_fmap FileName), Hf. unfold zlen in HX. lia. }
  exists t. split; [done|]. apply Hall. by eapply list_elem_of_lookup_2.
Qed.

(** A coordinator step that changes no task. *)
Lemma world_ok_same w c' :
  world_ok w -> coord_wf c' -> same_tasks (coord w) c' -> world_ok (MkWorld c' (fs w) (runs w)).
Proof.
  intros [Hc Hwn Hf Hr Hd Hruns Hk] Hc' Hs. pose proof Hs as (E1 & E2 & E3).
  split; cbn [coord fs runs]; rewrite ?E1, ?E2, ?E3; try done.
  - eapply dir_ok_coord; [|done]. intros ty X _. by apply same_tasks_done.
  - eapply Forall_impl; [done|]. intros r. apply run_ok_coord. by rewrite (all_done_eq _ _ E2).
Qed.

Lemma started_ok w c' reply ts r :
  world_ok w -> GetTask (coord w) = (c', reply) -> stamp (r_timeStr r) ->
  Worker_start reply ts = Some r -> run_ok (coord w) (fs w) r.
Proof.
  intros Hw Hg Hts Hst. pose proof (GetTask_meets_spec _ (wo_coord w Hw)) as Hspec.
  rewrite Hg in Hspec. cbn [fst snd] in Hspec. unfold GetTask_spec in Hspec. unfold Worker_start in Hst.
  destruct (wo_coord w Hw) as [Hm Hr _ _ _ _ _ _ _].
  destruct (r_TaskType reply) eqn:Ht; simplify_eq; split; try done; cbn [r_reply]; rewrite Ht.
  - destruct Hspec as (t & (Hin & _) & Hid & Hfn & Hnn & _).
    apply list_elem_of_lookup in Hin as [i Hi]. pose proof (pw_ids _ _ _ Hm i t Hi) as Hti.
    pose proof (wo_files w Hw) as Hf.
    assert (files !! i = Some (FileName t)) as Hfi by (by rewrite <- Hf, list_lookup_fmap, Hi).
    unfold map_run_ok. cbn [r_reply r_phase]. rewrite Hid, Hti, Nat2Z.id, Hfn, Hnn, Hfi.
    split_and!; [|by apply wo_n|done|done].
    apply ids_elem. apply lookup_lt_Some in Hfi. unfold zlen. lia.
  - destruct Hspec as (Hall & t & (Hin & _) & Hid & _).
    apply list_elem_of_lookup in Hin as [i Hi]. pose proof (pw_ids _ _ _ Hr i t Hi) as Hti.
    unfold reduce_run_ok. cbn [r_reply r_phase]. split; [|by split].
    apply lookup_lt_Some in Hi. rewrite (wo_reduces w Hw) in Hi. rewrite Hid, Hti. lia.
Qed.

Lemma GetTask_step_ok w ts c' reply :
  world_ok w -> GetTask (coord w) = (c', reply) -> fresh (runs w) (Worker_start reply ts) ->
  world_ok (MkWorld c' (fs w) (runs w ++ option_list (Worker_start reply ts))).
Proof.
  intros Hw Hg Hfresh. pose proof (GetTask_same (coord w)) as Hs. rewrite Hg in Hs. cbn [fst] in Hs.
  pose proof (GetTask_wf _ (wo_coord w Hw)) as Hc'. rewrite Hg in Hc'. cbn [fst] in Hc'.
  destruct (world_ok_same w c' Hw Hc' Hs) as [? ? ? ? ? Hruns Hk]. cbn [coord fs runs] in *.
  destruct (Worker_start reply ts) as [r|] eqn:Est.
  2:{ cbn [option_list]. rewrite app_nil_r. by split. }
  destruct Hfresh as [Hts Hnew]. split; cbn [coord fs runs option_list]; try done.
  - apply Forall_app. split; [done|]. constructor; [|done].
    eapply run_ok_coord; [|by eapply started_ok]. destruct Hs as (_ & E & _). by rewrite (all_done_eq _ _ E).
  - rewrite fmap_app. apply NoDup_app. split_and!; [done| |apply NoDup_singleton].
    intros x Hx ->%list_elem_of_singleton. done.
Qed.

Lemma keys_insert (rs : list run) k r r' :
  rs !! k = Some r -> run_key r' = run_key r -> run_key <$> <[k := r']> rs = run_key <$> rs.
Proof.
  intros Hk Heq. rewrite list_fmap_insert, Heq. apply list_insert_id. by rewrite list_lookup_fmap, Hk.
Qed.

Lemma keys_differ (rs : list run) k j r r2 :
  NoDup (run_key <$> rs) -> rs !! k = Some r -> rs !! j = Some r2 -> j <> k -> run_key r2 <> run_key r.
Proof.
  intros Hnd Hk Hj Hne Heq. apply Hne. apply (NoDup_lookup _ j k (run_key r2) Hnd).
  - by rewrite list_lookup_fmap, Hj.
  - by rewrite list_lookup_fmap, Hk, Heq.
Qed.

Lemma run_step_ok w k r :
  world_ok w -> runs w !! k = Some r -> step_good (coord w) (fs w) r.
Proof.
  intros Hw Hk. pose proof (Forall_lookup_1 _ _ _ _ (wo_runs w Hw) Hk) as Hr.
  destruct (run_ok_shape _ _ _ Hr) as [_ [[Ht _]|[Ht _]]].
  - apply map_step_good; [done|done|apply Hw].
  - apply reduce_step_good; [done|done|apply Hw|]. intros Hall X. by apply all_done_ids.
Qed.

Lemma run_world_ok w k r fs' r' :
  world_ok w -> runs w !! k = Some r -> run_step mapf reducef (fs w) r = Ret (fs', r') ->
  world_ok (MkWorld (coord w) fs' (<[k := r']> (runs w))).
Proof.
  intros Hw Hk Hs. destruct (run_step_ok w k r Hw Hk) as (d & r2 & Hs' & Hkey & Hr & Hd & Hoth).
  rewrite Hs' in Hs. injection Hs as -> ->. destruct Hw as [? ? ? ? ? Hruns Hkeys]. split; cbn [coord fs runs]; try done.
  - apply Forall_lookup. intros j x Hj. apply list_lookup_insert_Some in Hj as [(-> & <- & _)|[Hne Hj]]; [done|].
    apply Hoth; [|by eapply Forall_lookup_1]. by eapply keys_differ.
  - by rewrite (keys_insert _ _ _ _ Hk Hkey).
Qed.

Lemma reported_finals c d r args :
  run_ok c d r -> report r = Some args ->
  exists ty, args = MkFinishTaskArgs (Some ty) (r_TaskId (r_reply r)) /\
    match ty with
    | TMap => r_TaskType (r_reply r) = RMap /\
        forall Y, 0 <= Y < n -> is_Some (d !! inter_name (r_TaskId (r_reply r)) Y)
    | TReduce => r_TaskType (r_reply r) = RReduce /\ is_Some (d !! out_name (r_TaskId (r_reply r)))
    end.
Proof.
  unfold report. intros [Hs Hr] Hrep. destruct (r_phase r) as [| |k ops|] eqn:Eph; try done.
  case_decide; [subst k|done]. destruct (r_TaskType (r_reply r)) eqn:Et; simplify_eq.
  - exists TMap. split; [done|]. split; [done|]. intros Y HY.
    destruct Hr as (_ & _ & _ & Hp). rewrite Eph in Hp. destruct Hp as [-> Hi].
    eapply writer_finished; [exact Hi|]. unfold run_outs. rewrite Et. apply map_outs_elem. by exists Y.
  - exists TReduce. split; [done|]. split; [done|].
    destruct Hr as (_ & _ & Hp). rewrite Eph in Hp. destruct Hp as (l & _ & -> & Hi).
    eapply writer_finished; [exact Hi|]. unfold run_outs. rewrite Et. by left.
Qed.

Lemma FinishTask_step_ok w k r args c' :
  world_ok w -> runs w !! k = Some r -> report r = Some args -> FinishTask args (coord w) = Ret c' ->
  world_ok (MkWorld c' (fs w) (<[k := reported r]> (runs w))).
Proof.
  intros [Hc Hwn Hf Hl Hd Hruns Hk] Hkr Hrep Hfin.
  pose proof (Forall_lookup_1 _ _ _ _ Hruns Hkr) as Hr.
  destruct (reported_finals _ _ _ _ Hr Hrep) as (ty & -> & Hty).
  destruct (FinishTask_wf (MkFinishTaskArgs (Some ty) (r_TaskId (r_reply r))) _ Hc) as (c2 & Hfin2 & Hc2).
  rewrite Hfin2 in Hfin. inv_res.
  destruct (FinishTask_done _ _ _ _ Hc Hfin2) as (E1 & E2 & E3 & Hdone & Hall).
  split; cbn [coord fs runs]; try congruence; try done.
  - destruct Hd as [? ? ? Hm Hrd]. split; try done.
    + intros X Y HX HY HXd. apply Hdone in HXd as [HXd|[<- ->]]; [by apply Hm|by apply Hty|].
      apply ids_elem in HX. lia.
    + intros Y HY HYd. apply Hdone in HYd as [HYd|[<- ->]]; [by apply Hrd|by apply Hty|lia].
  - apply Forall_lookup. intros j x Hj. apply list_lookup_insert_Some in Hj as [(-> & <- & _)|[Hne Hj]].
    + apply run_ok_coord with (c := coord w); [done|]. destruct Hr as [Hs Hr]. split; [done|].
      cbn [reported r_reply]. destruct (r_TaskType (r_reply r)); try done.
      * destruct Hr as (? & ? & ? & _). by split_and!.
      * destruct Hr as (? & ? & _). by split; [|split].
    + eapply run_ok_coord; [done|]. by eapply Forall_lookup_1.
  - by rewrite (keys_insert _ _ _ (reported r) Hkr eq_refl).
Qed.

Lemma step_ok w w' : world_ok w -> step mapf reducef w w' -> world_ok w'.
Proof.
  intros Hw Hs. destruct Hs as [w ts c' reply Hg Hf|w k r fs' r' Hk Hs|w k r args c' Hk Hr Hf
    |w k m c' Hk Ht|w k m Hk Ht].
  - by apply GetTask_step_ok.
  - by eapply run_world_ok.
  - by eapply FinishTask_step_ok.
  - destruct (timeout_wf _ _ _ (wo_coord w Hw) Hk) as (c2 & Ht2 & Hc2). rewrite Ht2 in Ht. inv_res.
    apply world_ok_same; [done|done|]. apply timeout_same in Ht2.
    by eapply same_tasks_trans, drop_same.
  - apply world_ok_same; [done|by eapply cancelled_wf; [apply Hw|..]|]. apply drop_same.
Qed.

Lemma initial_ok fs0 w :
  initial files n fs0 w -> (forall f, f ∈ files -> fs0 !! f = Some [Raw (text f)]) ->
  (forall name, is_Some (fs0 !! name) -> ours name = false) -> world_ok w.
Proof.
  intros (Hc & Hfs & Hr) Hin Hours. destruct w as [c d rs]. cbn [coord fs runs] in *. subst d rs.
  pose proof (initial_wf files n c Hc) as Hwf. unfold MakeCoordinator in Hc.
  rewrite decide_False in Hc by lia. inv_res.
  assert (forall ty X, ~ task_is_done (MkCoordinator n
    (MkPool (imap (fun i file => MkMapTask file (Z.of_nat i) false) files) ∅ 0)
    (MkPool ((fun i => MkReduceTask i false) <$> seqZ 0 n) ∅ 0) 0 ∅ []) ty X) as Hnd.
  { intros [] X (t & Ht & Hdt); cbn in Ht.
    - rewrite list_lookup_imap in Ht. apply fmap_Some in Ht as (f & _ & ->). done.
    - apply list_lookup_fmap_Some in Ht as (i & -> & _). done. }
  split; cbn [coord fs runs nReduce maps reduces Tasks]; try done.
  - apply list_eq. intros i. rewrite list_lookup_fmap, list_lookup_imap. by destruct (files !! i).
  - by rewrite length_fmap, length_seqZ.
  - split.
    + intros f Hf. split; [|by apply Hin]. apply Hours. rewrite Hin by done. by eexists.
    + intros name f Hf. assert (ours name = false) as Ho by (apply Hours; by eexists). split.
      * intros X Y _ _ ->. by rewrite ours_inter_name in Ho.
      * intros Y _ ->. by rewrite ours_out_name in Ho.
    + intros name Y Hs _ Hm%matches_ours. by rewrite Hours in Hm.
    + intros X Y _ _ Hd. by apply Hnd in Hd.
    + intros Y _ Hd. by apply Hnd in Hd.
  - constructor.
Qed.

Lemma reachable_ok fs0 w :
  (forall f, f ∈ files -> fs0 !! f = Some [Raw (text f)]) ->
  (forall name, is_Some (fs0 !! name) -> ours name = false) ->
  reachable (step mapf reducef) (initial files n fs0) w -> world_ok w.
Proof.
  intros H1 H2. apply reachable_invariant; [intros; by eapply initial_ok|intros; by eapply step_ok].
Qed.

(** *** Runs end *)

Lemma wsteps_ok w w' : world_ok w -> rtc (step mapf reducef) w w' -> world_ok w'.
Proof. intros Hw Hs. revert Hw. induction Hs; [done|]. intros. by apply IHHs, (step_ok x y). Qed.

(** What is left of a run until it can report. *)
Definition ready (r : run) : Prop := exists ops, r_phase r = Writing (length ops) ops.

Lemma run_one w k r fs' r' :
  runs w !! k = Some r -> run_step mapf reducef (fs w) r = Ret (fs', r') ->
  exists w', rtc (step mapf reducef) w w' /\ coord w' = coord w /\ runs w' = <[k := r']> (runs w) /\ fs w' = fs'.
Proof. intros Hk Hs. eexists. split; [apply rtc_once; by eapply step_run|done]. Qed.

(** [w'] is [w] after steps of run [k] only, which lead to its report. *)
Definition advanced (k : nat) (r : run) (w w' : world) (r' : run) : Prop :=
  rtc (step mapf reducef) w w' /\ coord w' = coord w /\ runs w' = <[k := r']> (runs w) /\
  r_reply r' = r_reply r /\ r_timeStr r' = r_timeStr r /\
  forall m x, to_report mapf reducef m (fs w') r' = Ret x -> exists m', to_report mapf reducef m' (fs w) r = Ret x.

Lemma advanced_trans k r w w1 r1 w2 r2 :
  advanced k r w w1 r1 -> advanced k r1 w1 w2 r2 -> advanced k r w w2 r2.
Proof.
  intros (H1 & H2 & H3 & H4 & H5 & H6) (G1 & G2 & G3 & G4 & G5 & G6).
  split_and!; [by etrans|congruence| |congruence|congruence|].
  - by rewrite G3, H3, list_insert_insert_eq.
  - intros m x [m1 Hm]%G6. by eapply H6.
Qed.

Lemma advanced_lookup k r w w' r' : runs w !! k = Some r -> advanced k r w w' r' -> runs w' !! k = Some r'.
Proof.
  intros Hk (_ & _ & -> & _). apply list_lookup_insert_eq. by eapply lookup_lt_Some.
Qed.

Lemma advance_once w k r :
  world_ok w -> runs w !! k = Some r -> report r = None ->
  exists d r' w', run_step mapf reducef (fs w) r = Ret (d, r') /\ advanced k r w w' r' /\ world_ok w'.
Proof.
  intros Hw Hk Hnr. destruct (run_step_ok w k r Hw Hk) as (d & r' & Hs & Hkey & _).
  destruct (run_one w k r d r' Hk Hs) as (w' & Hst & Hc & Hr & Hf).
  exists d, r', w'. split_and!; [done| |by eapply wsteps_ok].
  assert (r_reply r' = r_reply r /\ r_timeStr r' = r_timeStr r) as [? ?].
  { clear -Hs. unfold run_step in Hs. repeat (case_match; simplify_eq/=; try done); by inv_res. }
  split_and!; try done. intros m x Hx. exists (S m). cbn [to_report]. rewrite Hnr, Hs. cbn [res_bind].
  by rewrite <- Hf.
Qed.

Lemma writing_ends w k r m ops :
  world_ok w -> runs w !! k = Some r -> r_phase r = Writing m ops -> (m <= length ops)%nat ->
  exists w' r', advanced k r w w' r' /\ ready r' /\ world_ok w'.
Proof.
  remember (length ops - m)%nat as x eqn:Hx. revert w r m Hx.
  induction x as [|x IH]; intros w r m Hx Hw Hk Hp Hm.
  - exists w, r. split_and!; [|exists ops; rewrite Hp; f_equal; lia|done].
    split_and!; [done|done|by rewrite list_insert_id|done|done|by eauto].
  - destruct (advance_once w k r Hw Hk) as (d & r' & w' & Hs & Hadv & Hw').
    { unfold report. rewrite Hp. by rewrite decide_False by lia. }
    destruct (lookup_lt_is_Some_2 ops m ltac:(lia)) as [o Ho].
    assert (r_phase r' = Writing (S m) ops) as Hp'.
    { unfold run_step in Hs. rewrite Hp, Ho in Hs. destruct (r_TaskType (r_reply r)); by inv_res. }
    destruct (IH w' r' (S m)) as (w2 & r2 & Hadv2 & Hr2 & Hw2); [lia|done| |done|lia|].
    { by eapply advanced_lookup. }
    exists w2, r2. split; [by eapply advanced_trans|done].
Qed.

Lemma reading_ends w k r names acc :
  world_ok w -> runs w !! k = Some r -> r_TaskType (r_reply r) = RReduce ->
  r_phase r = Reading names acc ->
  exists w' r', advanced k r w w' r' /\ ready r' /\ world_ok w'.
Proof.
  revert w r acc. induction names as [|name names IH]; intros w r acc Hw Hk Ht Hp;
    (destruct (advance_once w k r Hw Hk) as (d & r' & w' & Hs & Hadv & Hw'); [unfold report; by rewrite Hp|]);
    pose proof (advanced_lookup _ _ _ _ _ Hk Hadv) as Hk'; unfold run_step in Hs; rewrite Hp, Ht in Hs.
  - destruct (writing_ends w' k r' 0 (match r_phase r' with Writing _ ops => ops | _ => [] end))
      as (w2 & r2 & Hadv2 & Hr2 & Hw2); [done|done| |lia|].
    { by inv_res. }
    exists w2, r2. split; [by eapply advanced_trans|done].
  - assert (exists acc', r_phase r' = Reading names acc') as [acc' Hp'] by (inv_res; by eexists).
    destruct (IH w' r' acc') as (w2 & r2 & Hadv2 & Hr2 & Hw2); [done|done| |done|].
    { destruct Hadv as (_ & _ & _ & E & _). by rewrite E. }
    exists w2, r2. split; [by eapply advanced_trans|done].
Qed.

Lemma run_ends w k r :
  world_ok w -> runs w !! k = Some r -> r_phase r = Started ->
  exists w' r', advanced k r w w' r' /\ ready r' /\ world_ok w'.
Proof.
  intros Hw Hk Hp. destruct (advance_once w k r Hw Hk) as (d & r' & w' & Hs & Hadv & Hw'); [unfold report; by rewrite Hp|].
  pose proof (advanced_lookup _ _ _ _ _ Hk Hadv) as Hk'.
  pose proof (Forall_lookup_1 _ _ _ _ (wo_runs w Hw) Hk) as Hr.
  unfold run_step in Hs. rewrite Hp in Hs.
  destruct (run_ok_shape _ _ _ Hr) as [_ [[Ht _]|[Ht _]]]; rewrite Ht in Hs.
  - destruct (writing_ends w' k r' 0 (match r_phase r' with Writing _ ops => ops | _ => [] end))
      as (w2 & r2 & Hadv2 & Hr2 & Hw2); [done|done| |lia|].
    { by inv_res. }
    exists w2, r2. split; [by eapply advanced_trans|done].
  - destruct (reading_ends w' k r' (match r_phase r' with Reading l _ => l | _ => [] end) [])
      as (w2 & r2 & Hadv2 & Hr2 & Hw2); [done|done| | |].
    { destruct Hadv as (_ & _ & _ & E & _). by rewrite E. }
    { by inv_res. }
    exists w2, r2. split; [by eapply advanced_trans|done].
Qed.

Lemma to_report_more m m' d r x :
  (m <= m')%nat -> to_report mapf reducef m d r = Ret x -> to_report mapf reducef m' d r = Ret x.
Proof.
  revert m' d r. induction m as [|m IH]; intros m' d r Hle Hm; destruct m' as [|m']; cbn [to_report] in *;
    try lia; destruct (report r); try done.
  apply res_bind_Ret in Hm as ([d1 r1] & -> & Hr). cbn [res_bind]. apply IH; [lia|done].
Qed.

(** *** A worker alone *)

(** The time stamps of a worker's turns: never twice the same, and none that a run has. *)
Definition clock_ok (clock : nat -> string) (rs : list run) : Prop :=
  (forall i, stamp (clock i)) /\ (forall i j, clock i = clock j -> i = j) /\
  forall i r, r ∈ rs -> r_timeStr r <> clock i.

Lemma clock_fresh clock rs reply : clock_ok clock rs -> fresh rs (Worker_start reply (clock 0%nat)).
Proof.
  intros (Hst & _ & Hnew). unfold fresh, Worker_start. destruct (r_TaskType reply); try done; (split; [apply Hst|]);
    intros (r & Heq & Hr)%list_elem_of_fmap; apply (Hnew 0%nat r Hr); by injection Heq.
Qed.

Lemma stamps_later clock rs r :
  clock_ok clock rs -> r_timeStr r = clock 0%nat -> clock_ok (fun i => clock (S i)) (rs ++ [reported r]).
Proof.
  intros (Hst & Hinj & Hnew) Hr. split_and!; [done|intros i j Hij%Hinj; lia|].
  intros i r0 [Hin|Hin]%elem_of_app; [by apply Hnew|]. apply list_elem_of_singleton in Hin as ->.
  cbn. rewrite Hr. by intros ?%Hinj.
Qed.

(** One turn with a task: the run ends with its report, and the coordinator goes through a [round]. *)
Lemma turn_ends w c1 reply ts r c' :
  world_ok w -> GetTask (coord w) = (c1, reply) -> Worker_start reply ts = Some r ->
  fresh (runs w) (Some r) -> MrCoord.round (coord w) = Ret c' ->
  exists m d r2 args, to_report mapf reducef m (fs w) r = Ret (d, r2, args) /\ FinishTask args c1 = Ret c' /\
    r_timeStr r2 = ts /\ rtc (step mapf reducef) w (MkWorld c' d (runs w ++ [reported r2])).
Proof.
  intros Hw Hg Hst Hfresh Hround. rewrite <- Hst in Hfresh.
  pose proof (step_GetTask mapf reducef w ts c1 reply Hg Hfresh) as Hs1.
  pose proof (GetTask_step_ok w ts c1 reply Hw Hg Hfresh) as Hw1. rewrite Hst in Hs1, Hw1.
  set (w1 := MkWorld c1 (fs w) (runs w ++ option_list (Some r))) in *.
  assert (r = MkRun reply ts Started) as -> by (unfold Worker_start in Hst; by destruct (r_TaskType reply); simplify_eq).
  assert (runs w1 !! length (runs w) = Some (MkRun reply ts Started)) as Hk
    by (cbn [w1 runs]; by rewrite lookup_app_r, Nat.sub_diag by lia).
  destruct (run_ends w1 _ _ Hw1 Hk eq_refl) as (w2 & r2 & Hadv & [ops Hp] & Hw2).
  pose proof (advanced_lookup _ _ _ _ _ Hk Hadv) as Hk2.
  destruct Hadv as (Hs2 & Hc2 & Hr2 & Hrep & Hts & Hto). cbn [r_reply r_timeStr] in *.
  assert (exists args, report r2 = Some args /\ FinishTask args c1 = Ret c') as (args & Hargs & Hfin).
  { unfold MrCoord.round in Hround. rewrite Hg in Hround. unfold report. rewrite Hp, Hrep, decide_True by done.
    unfold Worker_start in Hst. destruct (r_TaskType reply); try done; by eexists. }
  destruct (Hto 0%nat (fs w2, r2, args)) as [m Hm]; [cbn [to_report]; by rewrite Hargs|].
  exists m, (fs w2), r2, args. split_and!; [exact Hm|done|done|].
  eapply rtc_l; [exact Hs1|]. etrans; [exact Hs2|]. apply rtc_once.
  assert (runs w ++ [reported r2] = <[length (runs w) := reported r2]> (runs w2)) as ->.
  { rewrite Hr2. cbn [w1 runs option_list]. rewrite list_insert_insert_eq.
    rewrite <- (Nat.add_0_r (length (runs w))), insert_app_r. done. }
  apply (step_FinishTask mapf reducef w2 _ r2 args); [done|done|by rewrite Hc2].
Qed.

Lemma Worker_completes x clock w :
  world_ok w -> idle (coord w) -> remaining (coord w) = x -> clock_ok clock (runs w) ->
  exists m w', (forall fuel, (m <= fuel)%nat -> Worker mapf reducef (S x) fuel clock w = Ret w') /\
    rtc (step mapf reducef) w w' /\ Done (coord w') = true.
Proof.
  revert clock w. induction x as [|x IH]; intros clock w Hw Hi Hx Hclock.
  - destruct (GetTask_done (coord w)) as [Hg Hd]; [apply Hw|done|done|].
    exists 0%nat, w. split_and!; [|done|done]. intros fuel _. cbn [Worker]. rewrite Hg. by destruct w.
  - destruct (round_progress (coord w)) as (c' & Hround & _ & Hi' & Hrem); [apply Hw|done|lia|].
    pose proof (GetTask_left (coord w)) as Hleft. destruct (GetTask (coord w)) as [c1 reply] eqn:Hg.
    cbn [fst snd] in Hleft. pose proof (clock_fresh clock (runs w) reply Hclock) as Hfresh.
    destruct (Worker_start reply (clock 0%nat)) as [r|] eqn:Hst.
    2: { unfold Worker_start in Hst. destruct Hleft as [E|E]; [apply Hw|done|lia|..]; by rewrite E in Hst. }
    destruct (turn_ends w c1 reply (clock 0%nat) r c') as (m1 & d & r2 & args & Hto & Hfin & Hts & Hs); [done..|].
    set (w2 := MkWorld c' d (runs w ++ [reported r2])) in *.
    destruct (IH (fun i => clock (S i)) w2) as (m2 & w' & Hwork & Hs2 & Hd);
      [by eapply wsteps_ok|done|cbn [w2 coord]; lia|by apply stamps_later|].
    exists (Nat.max m1 m2), w'. split_and!; [|by etrans|done]. intros fuel Hf.
    change (Worker mapf reducef (S (S x)) fuel clock w) with
      (let '(c, reply) := GetTask (coord w) in
       match Worker_start reply (clock 0%nat) with
       | Some r =>
           let! (d, r, args) := to_report mapf reducef fuel (fs w) r in
           let! c := FinishTask args c in
           Worker mapf reducef (S x) fuel (fun i => clock (S i)) (MkWorld c d (runs w ++ [reported r]))
       | None =>
           match r_TaskType reply with
           | RWait => Worker mapf reducef (S x) fuel (fun i => clock (S i)) (MkWorld c (fs w) (runs w))
           | RDone => Ret (MkWorld c (fs w) (runs w))
           | _ => Panic Fatal
           end
       end).
    rewrite Hg, Hst, (to_report_more m1 fuel _ _ _ ltac:(lia) Hto). cbn [res_bind]. rewrite Hfin. cbn [res_bind].
    apply Hwork. lia.
Qed.

Lemma reachable_steps (I : world -> Prop) w w' :
  reachable (step mapf reducef) I w -> rtc (step mapf reducef) w w' -> reachable (step mapf reducef) I w'.
Proof. intros Hr Hs. revert Hr. induction Hs; [done|]. intros. apply IHHs. by eapply reach_step. Qed.

(** A finished world can be reached. *)
Lemma job_completes_reach fs0 clock w :
  (forall f, f ∈ files -> fs0 !! f = Some [Raw (text f)]) ->
  (forall name, is_Some (fs0 !! name) -> ours name = false) ->
  reachable (step mapf reducef) (initial files n fs0) w -> idle (coord w) -> clock_ok clock (runs w) ->
  exists w', reachable (step mapf reducef) (initial files n fs0) w' /\ Done (coord w') = true.
Proof.
  intros Hin Hours Hr Hi Hc. destruct (Worker_completes (remaining (coord w)) clock w) as (m & w' & _ & Hs & Hd);
    [by eapply reachable_ok|done..|]. exists w'. split; [by eapply reachable_steps|done].
Qed.

(** *** The outputs *)

Lemma bind_perm {A B} (f g : A -> list B) (l : list A) :
  (forall x, x ∈ l -> f x ≡ₚ g x) -> (x ← l; f x) ≡ₚ (x ← l; g x).
Proof.
  induction l as [|x l IH]; intros Hfg; [done|]. rewrite !bind_cons. f_equiv; [apply Hfg; left|].
  apply IH. intros. apply Hfg. by right.
Qed.

(** The lines of an output file. *)
Definition file_lines (f : list chunk) : list string :=
  omap (fun c => match c with Line s => Some s | _ => None end) f.

Lemma file_lines_Line l : file_lines (Line <$> l) = l.
Proof. induction l as [|s l IH]; [done|]. rewrite fmap_cons. cbn. by f_equal. Qed.

Definition output (d : gmap string (list chunk)) (Y : Z) : list string :=
  match d !! out_name Y with Some f => file_lines f | None => [] end.

Context (reducef_perm : forall k vs vs', vs ≡ₚ vs' -> reducef k vs = reducef k vs').

Lemma done_outputs w Y :
  world_ok w -> Done (coord w) = true -> 0 <= Y < n ->
  exists l, fs w !! out_name Y = Some (Line <$> l) /\ good_lines Y l.
Proof.
  intros Hw Hd HY. pose proof Hw as [Hc Hwn Hf Hl Hdir _ _]. destruct Hc as [_ Hr _ _ _ _ _ _ _].
  unfold Done in Hd. bool_to_prop.
  match goal with H : Finished (reduces _) = _ |- _ => apply (all_done_finished _ _ _ Hr) in H as Hall end.
  destruct (lookup_lt_is_Some_2 (Tasks (reduces (coord w))) (Z.to_nat Y)) as [t Ht]; [lia|].
  destruct (do_reduces _ _ Hdir Y HY) as [f Hfile].
  { exists t. split; [done|]. apply Hall. by eapply list_elem_of_lookup_2. }
  destruct (do_good _ _ Hdir _ _ Hfile) as [_ Hg].
  destruct (Hg Y HY eq_refl) as (l & -> & Hgl). by exists l.
Qed.

Lemma outputs_ok w M :
  world_ok w -> Done (coord w) = true -> M ≡ₚ all_pairs ->
  (forall Y, 0 <= Y < n -> fs w !! out_name Y = Some (Line <$> output (fs w) Y)) /\
  (Y ← seqZ 0 n; output (fs w) Y) ≡ₚ lines_of reducef M.
Proof.
  intros Hw Hd HM.
  assert (forall Y, 0 <= Y < n -> exists l, fs w !! out_name Y = Some (Line <$> l) /\ output (fs w) Y = l /\
    good_lines Y l) as Hout.
  { intros Y HY. destruct (done_outputs w Y Hw Hd HY) as (l & Hf & Hg). exists l.
    split_and!; [done| |done]. unfold output. by rewrite Hf, file_lines_Line. }
  split.
  - intros Y HY. by destruct (Hout Y HY) as (l & -> & -> & _).
  - rewrite <- (lines_of_buckets reducef n M Hn). apply bind_perm. intros Y HY%elem_of_seqZ.
    destruct (Hout Y ltac:(lia)) as (l & _ & -> & M' & HM' & ->). apply lines_of_perm; [done|].
    rewrite HM'. unfold in_bucket. by rewrite HM.
Qed.

End system.

(** ** The claims *)

(** C24 (the job's result).  When [Done] says that the job is finished, after any
    interleaving of any number of workers, with workers that died, were slow or were
    replaced at any step, every output file is there, and together they hold exactly the
    lines that the sequential program prints, up to the order of the lines.  This needs
    a reduce function that does not depend on the order of its values, map output that
    JSON keeps, and a directory without files named like the workers' files. *)
Theorem mapreduce_correct `{SortLaws} mapf reducef files n text fs0 w :
  0 < n ->
  (forall f kv, f ∈ files -> kv ∈ mapf f (text f) -> json_kv kv = kv) ->
  (forall k vs vs', vs ≡ₚ vs' -> reducef k vs = reducef k vs') ->
  (forall f, f ∈ files -> fs0 !! f = Some [Raw (text f)]) ->
  (forall name, is_Some (fs0 !! name) -> ours name = false) ->
  reachable (step mapf reducef) (initial files n fs0) w -> Done (coord w) = true ->
  exists seq, mrsequential mapf reducef fs0 files = Ret seq /\
    (forall Y, 0 <= Y < n -> fs w !! out_name Y = Some (Line <$> output (fs w) Y)) /\
    (Y ← seqZ 0 n; output (fs w) Y) ≡ₚ seq.
Proof.
  intros Hn Hjson Hperm Hin Hours Hr Hd. eexists. split; [by apply mrsequential_lines|].
  eapply outputs_ok; try done; [by eapply reachable_ok|apply sort_perm].
Qed.

(** C25 (no partial file is seen).  In every reachable world a file with the name of an
    intermediate file holds exactly the pairs of its map task for its reduce task, and an
    output file the lines of all pairs of its reduce task, however many workers wrote
    them or died writing; and no step of a run ends its worker. *)
Theorem files_never_partial `{SortLaws} mapf reducef files n text fs0 w :
  0 < n ->
  (forall f kv, f ∈ files -> kv ∈ mapf f (text f) -> json_kv kv = kv) ->
  (forall f, f ∈ files -> fs0 !! f = Some [Raw (text f)]) ->
  (forall name, is_Some (fs0 !! name) -> ours name = false) ->
  reachable (step mapf reducef) (initial files n fs0) w ->
  (forall X Y f name, files !! X = Some name -> 0 <= Y < n ->
     fs w !! inter_name (Z.of_nat X) Y = Some f ->
     f = Json <$> in_bucket n Y (mapf name (text name))) /\
  (forall Y f, 0 <= Y < n -> fs w !! out_name Y = Some f ->
     exists M, M ≡ₚ in_bucket n Y (f ← files; mapf f (text f)) /\ f = Line <$> lines_of reducef M) /\
  (forall r, r ∈ runs w -> returns (run_step mapf reducef (fs w) r)).
Proof.
  intros Hn Hjson Hin Hours Hr.
  pose proof (reachable_ok _ _ _ _ _ Hn Hjson _ _ Hin Hours Hr) as Hw. split_and!.
  - intros X Y f name Hx HY Hf. destruct (do_good _ _ _ _ _ _ _ (wo_dir _ _ _ _ _ _ Hw) _ _ Hf) as [Hg _].
    rewrite (Hg (Z.of_nat X) Y); [|apply ids_elem; apply lookup_lt_Some in Hx; unfold zlen; lia|done|done].
    unfold emitted. by rewrite Nat2Z.id, Hx.
  - intros Y f HY Hf. destruct (do_good _ _ _ _ _ _ _ (wo_dir _ _ _ _ _ _ Hw) _ _ Hf) as [_ Hg].
    destruct (Hg Y HY eq_refl) as (l & -> & M & HM & ->). by exists M.
  - intros r [k Hk]%list_elem_of_lookup.
    destruct (run_step_ok _ _ _ _ _ Hn Hjson w k r Hw Hk) as (d & r' & Hs & _). by eexists.
Qed.

(** C26 (one worker completes the job).  From every reachable world in which no task is out, a
    worker whose time stamps are its own, alone from then on, completes the job: [Worker], in which
    every run must end with a report that the coordinator takes, returns within one turn for each task
    that is left and one in which it is told that the job is done, for any sufficient bound on the
    steps of a run; no timeout and no other worker takes part; what it did is a run of the step
    relation, and the job is done. *)
Theorem job_completes `{SortLaws} mapf reducef files n text fs0 clock w :
  0 < n ->
  (forall f kv, f ∈ files -> kv ∈ mapf f (text f) -> json_kv kv = kv) ->
  (forall f, f ∈ files -> fs0 !! f = Some [Raw (text f)]) ->
  (forall name, is_Some (fs0 !! name) -> ours name = false) ->
  reachable (step mapf reducef) (initial files n fs0) w -> idle (coord w) -> clock_ok clock (runs w) ->
  exists steps w',
    (forall fuel, (steps <= fuel)%nat ->
       Worker mapf reducef (S (remaining (coord w))) fuel clock w = Ret w') /\
    rtc (step mapf reducef) w w' /\ Done (coord w') = true.
Proof.
  intros Hn Hjson Hin Hours Hr Hi Hc. eapply Worker_completes; try done. by eapply reachable_ok.
Qed.

(** *** Examples *)

#[local] Existing Instance merge_sort_ops.
#[local] Existing Instance merge_sort_laws.

Definition ex_map (_ contents : string) : list KeyValue := [MkKV contents "1"].
Definition ex_reduce (_ : string) (vs : list string) : string := pretty (length vs).
Definition ex_files : list string := ["x"; "y"].
Definition ex_text (name : string) : string := if decide (name = "x") then "a" else "b".
Definition ex_dir : gmap string (list chunk) := {["x" := [Raw "a"]; "y" := [Raw "b"]]}.
Definition ex_world : world :=
  MkWorld (MkCoordinator 2
    (MkPool [MkMapTask "x" 0 false; MkMapTask "y" 1 false] ∅ 0)
    (MkPool [MkReduceTask 0 false; MkReduceTask 1 false] ∅ 0) 0 ∅ []) ex_dir [].

Lemma ex_reachable :
  reachable (step ex_map ex_reduce) (initial ex_files 2 ex_dir) ex_world.
Proof. by apply reach_init. Qed.

Lemma ex_json f kv : f ∈ ex_files -> kv ∈ ex_map f (ex_text f) -> json_kv kv = kv.
Proof.
  intros Hf ->%list_elem_of_singleton. repeat apply elem_of_cons in Hf as [->|Hf]; [done|done|].
  by apply elem_of_nil in Hf.
Qed.
Lemma ex_inputs f : f ∈ ex_files -> ex_dir !! f = Some [Raw (ex_text f)].
Proof.
  intros Hf. repeat apply elem_of_cons in Hf as [->|Hf]; [done|done|]. by apply elem_of_nil in Hf.
Qed.
Lemma ex_ours name : is_Some (ex_dir !! name) -> ours name = false.
Proof.
  unfold ex_dir. intros [f Hf]. apply lookup_insert_Some in Hf as [[<- _]|[_ Hf]]; [done|].
  apply lookup_singleton_Some in Hf as [<- _]. done.
Qed.
Lemma ex_perm k vs vs' : vs ≡ₚ vs' -> ex_reduce k vs = ex_reduce k vs'.
Proof. intros H. unfold ex_reduce. by rewrite H. Qed.

(** Stamps for the turns of one worker. *)
Definition ticks (i : nat) : string := "-" +:+ pretty i.
Lemma ticks_ok : clock_ok ticks [].
Proof.
  split_and!; [intros i; by exists (pretty i)| |by intros i r ?%not_elem_of_nil].
  intros i j [=]. by apply (inj pretty).
Qed.

(** A run of the whole job. *)
Lemma ex_done :
  exists w, reachable (step ex_map ex_reduce) (initial ex_files 2 ex_dir) w /\
    Done (coord w) = true.
Proof.
  by apply (job_completes_reach ex_map ex_reduce ex_files 2 ex_text ltac:(lia) ex_json ex_dir ticks ex_world
    ex_inputs ex_ours ex_reachable); [|apply ticks_ok].
Qed.

Lemma mapreduce_correct_witness :
  exists w, Done (coord w) = true /\
    is_Some (fs w !! "mr-out-0") /\ is_Some (fs w !! "mr-out-1") /\
    (Y ← seqZ 0 2; output (fs w) Y) ≡ₚ [format_line "a" "1"; format_line "b" "1"].
Proof.
  destruct ex_done as (w & Hr & Hd). exists w.
  destruct (mapreduce_correct ex_map ex_reduce ex_files 2 ex_text ex_dir w)
    as (seq & Hseq & Hout & Hperm); [lia|apply ex_json|apply ex_perm|apply ex_inputs|apply ex_ours|done..|].
  vm_compute in Hseq. injection Hseq as <-. split_and!; [done|..|done].
  - change "mr-out-0" with (out_name 0). by rewrite (Hout 0) by lia.
  - change "mr-out-1" with (out_name 1). by rewrite (Hout 1) by lia.
Defined.

Lemma files_never_partial_witness :
  exists w, Done (coord w) = true /\
    (forall f, fs w !! "mr-0-0" = Some f -> f = Json <$> in_bucket 2 0 [MkKV "a" "1"]) /\
    (forall r, r ∈ runs w -> returns (run_step ex_map ex_reduce (fs w) r)).
Proof.
  destruct ex_done as (w & Hr & Hd). exists w.
  destruct (files_never_partial ex_map ex_reduce ex_files 2 ex_text ex_dir w)
    as (H1 & _ & H3); [lia|apply ex_json|apply ex_inputs|apply ex_ours|done|].
  split_and!; [done| |done]. intros f Hf. by apply (H1 0%nat 0 f "x").
Defined.

Lemma job_completes_witness :
  remaining (coord ex_world) = 4%nat /\
  exists steps w',
    (forall fuel, (steps <= fuel)%nat -> Worker ex_map ex_reduce 5 fuel ticks ex_world = Ret w') /\
    rtc (step ex_map ex_reduce) ex_world w' /\ Done (coord w') = true.
Proof.
  split; [reflexivity|].
  apply (job_completes ex_map ex_reduce ex_files 2 ex_text ex_dir ticks
    ex_world); [lia|apply ex_json|apply ex_inputs|apply ex_ours|apply ex_reachable|done|apply ticks_ok].
Defined.

(** The program itself, run: nine steps are enough for each run here. *)
Lemma worker_runs :
  exists w', Worker ex_map ex_reduce 5 9 ticks ex_world = Ret w' /\ Done (coord w') = true.
Proof. eexists. split; [vm_compute; reflexivity|reflexivity]. Qed.
End MrSystem.
