(* ===== verification/MrApps.v ===== *)
(** * MrApps: MapReduce applications (src/src/mrapps)

    The Map and Reduce functions of wc.go, indexer.go, nocrash.go, crash.go and
    early_exit.go, and the word count of a finished job.  The table of
    [unicode.IsLetter] is a parameter; of it only that U+FFFD is not a letter is used. *)
From S2P Require Import Prelude GoText MrCoord MrWorker MrSystem.
Local Open Scope Z_scope.
Local Open Scope go_scope.

Module MrApps.
Import MrWorker.

(** [strconv.Itoa], [strings.Join]; [sort.Strings] sorts by a total order, so its result
    does not depend on the algorithm. *)
Definition Itoa (z : Z) : string := pretty z.
Fixpoint Join (l : list string) (sep : string) : string :=
  match l with
  | [] => ""
  | [s] => s
  | s :: l => s +:+ sep +:+ Join l sep
  end.
Definition sort_Strings (l : list string) : list string := merge_sort String.le l.
Definition strlen (s : string) : Z := Z.of_nat (String.length s).

Section apps.
Context (IsLetter : Z -> bool).

(** The words of a text. *)
Definition words (contents : string) : list string :=
  Utf8.FieldsFunc (fun r => negb (IsLetter r)) contents.

(** ** wc *)

Definition wc_Map (filename contents : string) : list KeyValue :=
  (fun w => MkKV w "1") <$> words contents.
Definition wc_Reduce (key : string) (values : list string) : string := Itoa (zlen values).

(** ** indexer

    [order] is the order in which the range loop visits the map [m]. *)
Definition indexer_Map (order : gset string -> list string) (document value : string)
  : list KeyValue :=
  let m := list_to_set (words value) : gset string in
  (fun w => MkKV w document) <$> order m.
Definition indexer_Reduce (key : string) (values : list string) : string :=
  let values := sort_Strings values in
  Itoa (zlen values) +:+ " " +:+ Join values ",".

(** ** nocrash, crash, early_exit *)

Definition nocrash_Map (filename contents : string) : list KeyValue :=
  [MkKV "a" filename; MkKV "b" (Itoa (strlen filename)); MkKV "c" (Itoa (strlen contents));
   MkKV "d" "xyzzy"].
Definition nocrash_Reduce (key : string) (values : list string) : string :=
  Join (sort_Strings values) " ".

(** [rr] is the random number drawn from [0, 1000); the delay is not modelled. *)
Definition crash_maybeCrash (rr : Z) : res unit :=
  if decide (rr < 330) then Panic Fatal else Ret tt.
Definition crash_Map (rr : Z) (filename contents : string) : res (list KeyValue) :=
  let! _ := crash_maybeCrash rr in
  Ret [MkKV "a" filename; MkKV "b" (Itoa (strlen filename)); MkKV "c" (Itoa (strlen contents));
       MkKV "d" "xyzzy"].
Definition crash_Reduce (rr : Z) (key : string) (values : list string) : res string :=
  let! _ := crash_maybeCrash rr in
  Ret (Join (sort_Strings values) " ").

Definition early_exit_Map (filename contents : string) : list KeyValue := [MkKV filename "1"].
(** It sleeps on some keys before it returns. *)
Definition early_exit_Reduce (key : string) (values : list string) : string := Itoa (zlen values).

(** ** Lemmas *)

Lemma sort_Strings_perm l l' : l ≡ₚ l' -> sort_Strings l = sort_Strings l'.
Proof.
  intros Hp. unfold sort_Strings. apply (StronglySorted_unique String.le).
  - apply (StronglySorted_merge_sort String.le l).
  - apply (StronglySorted_merge_sort String.le l').
  - by rewrite !merge_sort_Permutation.
Qed.

Lemma zlen_perm {A} (l l' : list A) : l ≡ₚ l' -> zlen l = zlen l'.
Proof. intros Hp. unfold zlen. by rewrite Hp. Qed.

Lemma wc_Reduce_perm k vs vs' : vs ≡ₚ vs' -> wc_Reduce k vs = wc_Reduce k vs'.
Proof. intros Hp. unfold wc_Reduce. by rewrite (zlen_perm _ _ Hp). Qed.

Lemma indexer_Reduce_perm k vs vs' : vs ≡ₚ vs' -> indexer_Reduce k vs = indexer_Reduce k vs'.
Proof. intros Hp. unfold indexer_Reduce. by rewrite (sort_Strings_perm _ _ Hp). Qed.

Lemma nocrash_Reduce_perm k vs vs' : vs ≡ₚ vs' -> nocrash_Reduce k vs = nocrash_Reduce k vs'.
Proof. intros Hp. unfold nocrash_Reduce. by rewrite (sort_Strings_perm _ _ Hp). Qed.

(** The index has every word of the document once, whatever the order of the map. *)
Lemma indexer_Map_keys order document value :
  (forall m, order m ≡ₚ elements m) ->
  NoDup (Key <$> indexer_Map order document value) /\
  forall w, MkKV w document ∈ indexer_Map order document value <-> w ∈ words value.
Proof.
  intros Ho. unfold indexer_Map. rewrite <- list_fmap_compose. split.
  - rewrite list_fmap_id, Ho. apply NoDup_elements.
  - intros w. rewrite list_elem_of_fmap. setoid_rewrite Ho.
    setoid_rewrite elem_of_elements. setoid_rewrite elem_of_list_to_set. naive_solver.
Qed.

(** crash either dies or does what nocrash does. *)
Lemma crash_like_nocrash rr filename contents key values :
  (crash_Map rr filename contents = Panic Fatal \/
   crash_Map rr filename contents = Ret (nocrash_Map filename contents)) /\
  (crash_Reduce rr key values = Panic Fatal \/
   crash_Reduce rr key values = Ret (nocrash_Reduce key values)).
Proof. unfold crash_Map, crash_Reduce, crash_maybeCrash. case_decide; naive_solver. Qed.

Context (IsLetter_error : IsLetter Utf8.RuneError = false).

Lemma words_json contents w : w ∈ words contents -> Utf8.json_string w = w.
Proof. intros Hw. eapply Utf8.FieldsFunc_json; [|exact Hw]. cbn. by rewrite IsLetter_error. Qed.

Lemma wc_json f contents kv : kv ∈ wc_Map f contents -> json_kv kv = kv.
Proof.
  intros (w & -> & Hw)%list_elem_of_fmap. unfold json_kv. cbn [Key Value].
  by rewrite (words_json _ _ Hw).
Qed.

(** The number of occurrences of a word. *)
Definition count (w : string) (l : list string) : Z := zlen (filter (fun x => x = w) l).

Lemma wc_lines reducef' (l : list string) :
  (forall k vs, reducef' k vs = wc_Reduce k vs) ->
  lines_of reducef' ((fun w => MkKV w "1") <$> l) =
    (fun w => format_line w (Itoa (count w l))) <$> remove_dups l.
Proof.
  intros Hred. unfold lines_of, keys_of. rewrite <- list_fmap_compose.
  change (Key ∘ (fun w => MkKV w "1")) with (fun w : string => w). rewrite list_fmap_id.
  apply list_fmap_ext. intros _ w _. unfold line_of. rewrite Hred. unfold wc_Reduce, count, values_of.
  do 2 f_equal. unfold zlen. rewrite length_fmap. f_equal.
  induction l as [|x l IH]; [done|]. rewrite fmap_cons, !filter_cons. cbn.
  case_decide; cbn; by rewrite IH.
Qed.
End apps.

(** C27 (word count).  When a job with wc's functions is finished, however its workers
    ran, the output files together hold one line per distinct word of the input files,
    with the number of its occurrences in all of them. *)
Theorem wc_counts `{SortLaws} IsLetter files n text fs0 w :
  0 < n -> IsLetter Utf8.RuneError = false ->
  (forall f, f ∈ files -> fs0 !! f = Some [Raw (text f)]) ->
  (forall name, is_Some (fs0 !! name) -> ours name = false) ->
  reachable (MrSystem.step (wc_Map IsLetter) wc_Reduce) (MrSystem.initial files n fs0) w ->
  MrCoord.Done (MrSystem.coord w) = true ->
  let all := f ← files; words IsLetter (text f) in
  (Y ← seqZ 0 n; MrSystem.output (MrSystem.fs w) Y) ≡ₚ
    (fun x => format_line x (Itoa (count x all))) <$> remove_dups all.
Proof.
  intros Hn Herr Hin Hours Hr Hd all.
  assert (forall f kv, f ∈ files -> kv ∈ wc_Map IsLetter f (text f) -> json_kv kv = kv) as Hjson.
  { intros f kv _. by apply wc_json. }
  pose proof (MrSystem.reachable_ok _ _ _ _ _ Hn Hjson _ _ Hin Hours Hr) as Hw.
  destruct (MrSystem.outputs_ok _ _ _ _ _ Hn wc_Reduce_perm w _ Hw Hd (Permutation_refl _)) as [_ Hout].
  rewrite Hout. unfold MrSystem.all_pairs, wc_Map.
  rewrite <- (wc_lines wc_Reduce all) by done. unfold all.
  by rewrite <- list_fmap_bind_out.
Qed.

(** *** Examples *)

Definition ascii_letter (r : Z) : bool :=
  ((65 <=? r) && (r <=? 90)) || ((97 <=? r) && (r <=? 122)).

Example ex_words : words ascii_letter "to be, or not to be" = ["to"; "be"; "or"; "not"; "to"; "be"].
Proof. vm_compute. reflexivity. Qed.
Example ex_indexer : indexer_Reduce "k" ["b"; "a"] = "2 a,b".
Proof. vm_compute. reflexivity. Qed.

#[local] Existing Instance merge_sort_ops.
#[local] Existing Instance merge_sort_laws.

Definition wc_ex_text (name : string) : string := if decide (name = "x") then "to be or" else "not to be".
Definition wc_ex_dir : gmap string (list chunk) := {["x" := [Raw "to be or"]; "y" := [Raw "not to be"]]}.

Lemma wc_ex_inputs f : f ∈ ["x"; "y"] -> wc_ex_dir !! f = Some [Raw (wc_ex_text f)].
Proof.
  intros Hf. repeat apply elem_of_cons in Hf as [->|Hf]; [done|done|]. by apply elem_of_nil in Hf.
Qed.
Lemma wc_ex_ours name : is_Some (wc_ex_dir !! name) -> ours name = false.
Proof.
  unfold wc_ex_dir. intros [f Hf]. apply lookup_insert_Some in Hf as [[<- _]|[_ Hf]]; [done|].
  apply lookup_singleton_Some in Hf as [<- _]. done.
Qed.

(** A worker alone counts the words of two files, with three reduce tasks. *)
Lemma wc_ex_done :
  exists w, reachable (MrSystem.step (wc_Map ascii_letter) wc_Reduce)
      (MrSystem.initial ["x"; "y"] 3 wc_ex_dir) w /\ MrCoord.Done (MrSystem.coord w) = true.
Proof.
  assert (exists w, MrSystem.initial ["x"; "y"] 3 wc_ex_dir w /\ MrCoord.idle (MrSystem.coord w) /\
    MrSystem.runs w = []) as (w0 & Hi & Hidle & Hruns).
  { destruct (MrCoord.MakeCoordinator ["x"; "y"] 3) as [c|] eqn:E; [|done].
    exists (MrSystem.MkWorld c wc_ex_dir []). split; [by split|]. split; [|done]. vm_compute in E. by inv_res. }
  assert (forall f kv, f ∈ ["x"; "y"] -> kv ∈ wc_Map ascii_letter f (wc_ex_text f) -> json_kv kv = kv)
    as Hjson by (intros f kv _; by apply wc_json).
  apply (MrSystem.job_completes_reach (wc_Map ascii_letter) wc_Reduce ["x"; "y"] 3 wc_ex_text
    ltac:(lia) Hjson wc_ex_dir MrSystem.ticks w0 wc_ex_inputs wc_ex_ours);
    [by apply reach_init|done|]. rewrite Hruns. apply MrSystem.ticks_ok.
Qed.

Lemma wc_counts_witness :
  exists w, MrCoord.Done (MrSystem.coord w) = true /\
    (Y ← seqZ 0 3; MrSystem.output (MrSystem.fs w) Y) ≡ₚ
      [format_line "or" "1"; format_line "not" "1"; format_line "to" "2"; format_line "be" "2"].
Proof.
  destruct wc_ex_done as (w & Hr & Hd). exists w. split; [done|].
  apply (wc_counts ascii_letter ["x"; "y"] 3 wc_ex_text wc_ex_dir w);
    [lia|done|apply wc_ex_inputs|apply wc_ex_ours|done|done].
Defined.

End MrApps.
