(* ===== verification/MrTiming.v ===== *)
(** * MrTiming: MapReduce applications that observe the run (src/src/mrapps)

    mtiming.go and rtiming.go count the workers that run at the same time: each leaves a file
    with its process id in the shared directory, lists the directory and asks the system which of the
    processes named there live.  jobcount.go counts the Map invocations by the files they leave.
    Processes start, run and exit in any order, as one step relation. *)
From S2P Require Import Prelude GoText KvTest MrCoord MrWorker MrSystem MrApps.
Local Open Scope Z_scope.
Local Open Scope go_scope.

Module MrTiming.
Import MrWorker MrApps.

(** ** fmt.Sscanf with one %d at the end *)

Definition is_blank (a : ascii) : bool := Utf8.rng 9 9 a || Utf8.rng 11 13 a || Utf8.rng 32 32 a.
Fixpoint skip_blanks (s : string) : string :=
  match s with
  | String a s' => if is_blank a then skip_blanks s' else s
  | "" => ""
  end.
(** Digits, after the sign; what follows them is not read.  The number is an int. *)
Definition scan_digits (neg : bool) (s : string) : option Z :=
  match s with
  | String a _ =>
      match Json.digit a with
      | Some _ =>
          let z := (Json.digits 0 s).1 in
          let z := if neg then - z else z in
          if decide (- 2 ^ 63 <= z < 2 ^ 63) then Some z else None
      | None => None
      end
  | "" => None
  end.
Definition scan_int (s : string) : option Z :=
  match skip_blanks s with
  | String a s' =>
      if decide (a = "-"%char) then scan_digits true s'
      else if decide (a = "+"%char) then scan_digits false s'
      else scan_digits false (String a s')
  | "" => None
  end.
(** The prefix of the pattern and the number; [None] unless [n == 1 && err == nil]. *)
Definition Sscanf (prefix name : string) : option Z := strip_prefix prefix name ≫= scan_int.

(** ** nparallel *)

Definition worker_prefix (phase : string) : string := "mr-worker-" +:+ phase +:+ "-".
Definition myfilename (phase : string) (pid : Z) : string := worker_prefix phase +:+ Itoa pid.

(** A call: it is to create its file; to list the directory; it looks at the names, [all] of
    them and those still [todo], and has counted [ret]; it sleeps before it removes its file. *)
Inductive call :=
| Creating
| Listing
| Scanning (all todo : list string) (ret : Z)
| Sleeping (all : list string) (ret : Z)
| Returned (ret : Z).

(** The directory, the processes to which a signal can be sent ([syscall.Kill(pid, 0)] succeeds),
    and the calls of nparallel under way. *)
Record world := MkWorld {
  files : gset string;
  live : Z -> bool;
  calls : gmap Z call;
}.

Section nparallel.
Context (phase : string).

(** One iteration of the loop over the names. *)
Definition look_at (live : Z -> bool) (name : string) (ret : Z) : Z :=
  match Sscanf (worker_prefix phase) name with
  | Some xpid => if live xpid then ret + 1 else ret
  | None => ret
  end.

(** The next step of the call of [pid]; [names] is what Readdirnames answers.  The file that is
    removed must be there. *)
Definition call_step (pid : Z) (c : call) (names : list string) (live : Z -> bool) (files : gset string)
    : res (gset string * call) :=
  match c with
  | Creating => Ret ({[myfilename phase pid]} ∪ files, Listing)
  | Listing => Ret (files, Scanning names names 0)
  | Scanning all (name :: todo) ret => Ret (files, Scanning all todo (look_at live name ret))
  | Scanning all [] ret => Ret (files, Sleeping all ret)
  | Sleeping all ret =>
      if decide (myfilename phase pid ∈ files) then Ret (files ∖ {[myfilename phase pid]}, Returned ret)
      else Panic Fatal
  | Returned ret => Ret (files, Returned ret)
  end.

(** Readdirnames(1000000): the names in some order, not more than that. *)
Definition listed (files : gset string) (names : list string) : Prop :=
  exists l, l ≡ₚ elements files /\ names = take (Z.to_nat 1000000) l.

Definition step_live (pid : Z) (b : bool) (live : Z -> bool) : Z -> bool :=
  fun q => if decide (q = pid) then b else live q.

Inductive step : world -> world -> Prop :=
(* a process starts; it calls nparallel, perhaps again *)
| s_spawn pid w :
    0 < pid < 2 ^ 63 -> live w pid = false ->
    step w (MkWorld (files w) (step_live pid true (live w)) (calls w))
| s_call pid w :
    0 < pid < 2 ^ 63 -> live w pid = true ->
    (calls w !! pid = None \/ exists ret, calls w !! pid = Some (Returned ret)) ->
    step w (MkWorld (files w) (live w) (<[pid := Creating]> (calls w)))
(* a step of a call *)
| s_step pid c c' names fs w :
    calls w !! pid = Some c -> listed (files w) names ->
    call_step pid c names (live w) (files w) = Ret (fs, c') ->
    step w (MkWorld fs (live w) (<[pid := c']> (calls w)))
(* a process exits, wherever it is; its file stays *)
| s_exit pid w :
    step w (MkWorld (files w) (step_live pid false (live w)) (delete pid (calls w))).

(** The directory has no file of an earlier run. *)
Definition initial (w : world) : Prop :=
  (forall name, name ∈ files w -> Sscanf (worker_prefix phase) name = None) /\ calls w = ∅.
End nparallel.

(** The two copies of nparallel: mtiming's Map calls its own with "map", rtiming's Reduce its own, the
    same text, with "reduce".  They use different files and do not disturb each other. *)
Definition mtiming_step : world -> world -> Prop := step "map".
Definition rtiming_step : world -> world -> Prop := step "reduce".

(** ** The applications *)

(** [ts] is the time as it is printed, [n] what nparallel returned. *)
Definition mtiming_Map (pid : Z) (ts : string) (n : Z) (filename contents : string) : list KeyValue :=
  [MkKV ("times-" +:+ Itoa pid) ts; MkKV ("parallel-" +:+ Itoa pid) (Itoa n)].
Definition mtiming_Reduce (key : string) (values : list string) : string := Join (sort_Strings values) " ".

Definition rtiming_Map (filename contents : string) : list KeyValue :=
  (fun k => MkKV k "1") <$> ["a"; "b"; "c"; "d"; "e"; "f"; "g"; "h"; "i"; "j"].
Definition rtiming_Reduce (n : Z) (key : string) (values : list string) : string := Itoa n.

(** jobcount: [count] is the process's variable; the directory and the variable afterwards. *)
Definition jobcount_prefix : string := "mr-worker-jobcount".
Definition jobcount_Map (me count : Z) (files : gset string) (filename contents : string)
    : gset string * Z * list KeyValue :=
  let f := "mr-worker-jobcount-" +:+ Itoa me +:+ "-" +:+ Itoa count in
  ({[f]} ∪ files, swrap 64 (count + 1), [MkKV "a" "x"]).
Definition HasPrefix (s prefix : string) : bool := bool_decide (is_Some (strip_prefix prefix s)).
Definition jobcount_Reduce (files : gset string) (key : string) (values : list string) : string :=
  Itoa (fold_left (fun invocations f => if HasPrefix f jobcount_prefix then invocations + 1 else invocations)
          (elements files) 0).

(** ** Scanning the names *)

Lemma scan_int_pos p : Zpos p < 2 ^ 63 -> scan_int (Itoa (Zpos p)) = Some (Zpos p).
Proof.
  intros Hp. unfold Itoa. pose proof (Json.number_pos p "" I) as Hn. rewrite app_nil_string in Hn.
  destruct (Json.pretty_N_go_head (N.pos p) "") as (a & s' & Hg & Ha & [d Hd]); [lia|].
  assert (pretty (Zpos p) = String a s') as E by (change (pretty (Zpos p)) with (pretty_N_go (N.pos p) ""); exact Hg).
  rewrite E in *. unfold Json.number in Hn. rewrite decide_False, Hd in Hn by done. injection Hn as Hn.
  unfold scan_int. cbn [skip_blanks].
  assert (is_blank a = false /\ a <> "+"%char) as [-> Hplus].
  { unfold Json.digit in Hd. case_decide as Hr; [|done]. unfold is_blank, Utf8.rng, Utf8.code.
    unfold nat_of_ascii in Hr. rewrite N_nat_Z in Hr. split; [|by intros ->].
    repeat (apply orb_false_iff; split); apply andb_false_iff; lia. }
  rewrite !decide_False by done. unfold scan_digits. rewrite Hd.
  assert (Json.digits 0 (String a s') = (Zpos p, "")) as -> by exact Hn. cbn [fst]. by rewrite decide_True by lia.
Qed.

Section names.
Context (phase : string).

Lemma Sscanf_file pid : 0 < pid < 2 ^ 63 -> Sscanf (worker_prefix phase) (myfilename phase pid) = Some pid.
Proof.
  intros Hp. unfold Sscanf, myfilename. rewrite strip_prefix_app. cbn [mbind option_bind].
  destruct pid as [|p|p]; [lia| |lia]. apply scan_int_pos, Hp.
Qed.

Definition pids (names : list string) : gset Z := list_to_set (omap (Sscanf (worker_prefix phase)) names).

(** Every file of the directory that is taken for a worker's is one. *)
Definition workers_only (names : list string) : Prop :=
  forall name q, name ∈ names -> Sscanf (worker_prefix phase) name = Some q -> name = myfilename phase q.

Lemma workers_only_cons name names :
  workers_only (name :: names) ->
  workers_only names /\ forall q, Sscanf (worker_prefix phase) name = Some q -> name = myfilename phase q.
Proof. intros Hw. split; [intros n q Hn; apply Hw; by right|intros q; apply Hw; left]. Qed.

Lemma size_pids_app names name :
  NoDup (names ++ [name]) -> workers_only (names ++ [name]) ->
  size (pids (names ++ [name])) =
    (size (pids names) + match Sscanf (worker_prefix phase) name with Some _ => 1 | None => 0 end)%nat.
Proof.
  intros Hnd Hw. unfold pids. rewrite omap_app, list_to_set_app_L. cbn [omap list_omap].
  destruct (Sscanf (worker_prefix phase) name) as [q|] eqn:E; cbn [list_to_set].
  - rewrite union_empty_r_L, size_union, size_singleton; [done|].
    intros x Hx ->%elem_of_singleton. apply elem_of_list_to_set, list_elem_of_omap in Hx as (n & Hn & Hq).
    assert (n = name) as -> by (transitivity (myfilename phase q); [|symmetry]; apply Hw; set_solver).
    apply NoDup_app in Hnd as (_ & Hnd & _). apply (Hnd name Hn). left.
  - rewrite union_empty_r_L. lia.
Qed.

Lemma elem_of_pids q names :
  q ∈ pids names <-> exists name, name ∈ names /\ Sscanf (worker_prefix phase) name = Some q.
Proof. unfold pids. by rewrite elem_of_list_to_set, list_elem_of_omap. Qed.
End names.

(** ** What holds while workers run *)

Section invariant.
Context (phase : string).
Implicit Types w : world.

(** [names] were looked at, [ret] is the count: one for each process named, at most, and the own
    process, which lives, is counted. *)
Definition counted (pid : Z) (names : list string) (ret : Z) : Prop :=
  0 <= ret <= Z.of_nat (size (pids phase names)) /\ (myfilename phase pid ∈ names -> 1 <= ret).

Definition call_ok (fs : gset string) (pid : Z) (c : call) : Prop :=
  match c with
  | Creating | Returned _ => True
  | Listing => myfilename phase pid ∈ fs
  | Scanning all todo ret =>
      myfilename phase pid ∈ fs /\ NoDup all /\ workers_only phase all /\
      exists seen, all = seen ++ todo /\ counted pid seen ret
  | Sleeping all ret =>
      myfilename phase pid ∈ fs /\ NoDup all /\ workers_only phase all /\ counted pid all ret
  end.

Record world_ok w : Prop := {
  wo_files : workers_only phase (elements (files w));
  wo_pids : forall pid c, calls w !! pid = Some c ->
    0 < pid < 2 ^ 63 /\ live w pid = true /\ call_ok (files w) pid c;
}.

Lemma world_initial_ok w : initial phase w -> world_ok w.
Proof.
  intros [Hf Hc]. split; [|by rewrite Hc].
  intros name q Hn%elem_of_elements Hq. rewrite Hf in Hq by done. done.
Qed.

Lemma listed_sublist fs names :
  listed fs names -> NoDup names /\ forall name, name ∈ names -> name ∈ elements fs.
Proof.
  intros (l & Hl & ->). split.
  - eapply sublist_NoDup; [|apply sublist_take]. rewrite Hl. apply NoDup_elements.
  - intros name Hn. rewrite <- Hl. by eapply subseteq_take.
Qed.

(** A call's file is removed by no other call. *)
Lemma call_ok_other fs fs' pid c :
  (myfilename phase pid ∈ fs -> myfilename phase pid ∈ fs') -> call_ok fs pid c -> call_ok fs' pid c.
Proof. intros Hf. destruct c; cbn; naive_solver. Qed.

Lemma look_counted pid seen name ret live :
  0 < pid < 2 ^ 63 -> live pid = true ->
  NoDup (seen ++ [name]) -> workers_only phase (seen ++ [name]) -> counted pid seen ret ->
  counted pid (seen ++ [name]) (look_at phase live name ret).
Proof.
  intros Hpid Hl Hnd Hw [Hr H1]. split.
  - rewrite size_pids_app by done. unfold look_at. repeat case_match; lia.
  - intros [Hn%H1|Hn%list_elem_of_singleton]%elem_of_app.
    + unfold look_at. repeat case_match; lia.
    + unfold look_at. rewrite <- Hn, Sscanf_file, Hl by done. lia.
Qed.

Lemma call_step_ok pid c names lv fs fs' c' :
  0 < pid < 2 ^ 63 -> lv pid = true -> workers_only phase (elements fs) -> listed fs names ->
  call_ok fs pid c -> call_step phase pid c names lv fs = Ret (fs', c') ->
  call_ok fs' pid c' /\ workers_only phase (elements fs') /\
  forall q, q <> pid -> 0 < q < 2 ^ 63 -> myfilename phase q ∈ fs -> myfilename phase q ∈ fs'.
Proof.
  intros Hpid Hlv Hw Hn Hok Hs. destruct c as [| |all [|name todo] ret|all ret|ret]; cbn in Hs; cbn in Hok.
  - injection Hs as <- <-. split_and!; [set_solver| |set_solver].
    intros name q. rewrite elem_of_elements. intros [->%elem_of_singleton|Hin]%elem_of_union Hq.
    + rewrite Sscanf_file in Hq by done. by injection Hq as <-.
    + apply Hw; [by apply elem_of_elements|done].
  - injection Hs as <- <-. apply listed_sublist in Hn as [Hnd Hsub]. split_and!; [|done|done].
    cbn. split_and!; [done|done|intros name q Hin; apply Hw; by apply Hsub|].
    exists []. split; [done|]. split; [cbn; lia|]. by intros ?%not_elem_of_nil.
  - injection Hs as <- <-. split_and!; [|done|done].
    destruct Hok as (? & ? & ? & seen & -> & ?). rewrite app_nil_r in *. done.
  - injection Hs as <- <-. split_and!; [|done|done]. destruct Hok as (? & Hnd & Hwa & seen & -> & Hc).
    change (name :: todo) with ([name] ++ todo) in *. rewrite (app_assoc seen) in *.
    split_and!; [done|done|done|]. exists (seen ++ [name]). split; [done|].
    apply look_counted; try done; [by apply NoDup_app in Hnd as [? _]|]. intros n q Hin. apply Hwa, elem_of_app. by left.
  - case_decide; [|done]. injection Hs as <- <-. split_and!; [done| |].
    + intros name q. rewrite elem_of_elements. intros [Hin _]%elem_of_difference. apply Hw. by apply elem_of_elements.
    + intros q Hq Hq0 Hin. apply elem_of_difference. split; [done|]. intros E%elem_of_singleton. apply Hq.
      apply (f_equal (Sscanf (worker_prefix phase))) in E. rewrite !Sscanf_file in E by done. congruence.
  - injection Hs as <- <-. by split_and!.
Qed.

Lemma world_step_ok w w' : step phase w w' -> world_ok w -> world_ok w'.
Proof.
  intros Hs [Hf Hc]. destruct Hs as [pid w Hp Hl|pid w Hp Hl _|pid c c' names fs w Hcp Hn Hcs|pid w]; cbn.
  - split; [done|]. cbn. intros q c (? & ? & ?)%Hc. unfold step_live. by case_decide.
  - split; [done|]. cbn. intros q c [[<- <-]|[_ ?%Hc]]%lookup_insert_Some; [|done]. split; [exact Hp|by split].
  - destruct (Hc pid c Hcp) as (Hp & Hl & Hok).
    destruct (call_step_ok pid c names (live w) (files w) fs c') as (Hok' & Hf' & Hother); try done.
    split; [done|]. cbn. intros q d [[<- <-]|[Hq (Hq0 & ? & Hd)%Hc]]%lookup_insert_Some; [done|]. split_and!; try lia; [done|].
    eapply call_ok_other; [|exact Hd]. by apply Hother.
  - split; [done|]. cbn. intros q c [Hq (? & ? & ?)%Hc]%lookup_delete_Some. unfold step_live. by rewrite decide_False.
Qed.

(** A call never panics, and what it answers is between one, when its own file was listed, and the number of
    processes whose files were listed. *)
Lemma nparallel_counts w pid c names :
  reachable (step phase) (initial phase) w -> calls w !! pid = Some c ->
  returns (call_step phase pid c names (live w) (files w)) /\
  forall all ret, c = Sleeping all ret ->
    0 <= ret <= Z.of_nat (size (pids phase all)) /\ (myfilename phase pid ∈ all -> 1 <= ret).
Proof.
  intros Hr Hc. assert (world_ok w) as [_ Hw].
  { revert w Hr Hc. intros w Hr _. revert w Hr. apply reachable_invariant; [apply world_initial_ok|].
    intros w w' H Hs. by eapply world_step_ok. }
  destruct (Hw pid c Hc) as (_ & _ & Hok). split.
  - destruct c as [| |all [|name todo] ret|all ret|ret]; cbn; try by eexists. destruct Hok as [Hin _].
    rewrite decide_True by done. by eexists.
  - intros all ret ->. by destruct Hok as (_ & _ & _ & Hok).
Qed.

(** *** Workers that overlap *)

(** A step in which the processes of [Q] live. *)
Definition step_with (Q : gset Z) (w w' : world) : Prop :=
  step phase w w' /\ forall q, q ∈ Q -> live w q = true.

(** The processes of [Q] whose files were seen are counted. *)
Definition at_least (Q : gset Z) (c : option call) : Prop :=
  match c with
  | Some (Scanning all todo ret) =>
      exists seen, all = seen ++ todo /\ Z.of_nat (size (Q ∩ pids phase seen)) <= ret
  | Some (Sleeping all ret) => Z.of_nat (size (Q ∩ pids phase all)) <= ret
  | _ => True
  end.

Lemma look_at_least Q seen name ret lv :
  (forall q, q ∈ Q -> lv q = true) -> Z.of_nat (size (Q ∩ pids phase seen)) <= ret ->
  Z.of_nat (size (Q ∩ pids phase (seen ++ [name]))) <= look_at phase lv name ret.
Proof.
  intros HQ Hr. unfold pids. rewrite omap_app, list_to_set_app_L. unfold look_at. cbn [omap list_omap].
  destruct (Sscanf _ name) as [q|]; cbn [list_to_set].
  - rewrite union_empty_r_L, intersection_union_l_L. destruct (decide (q ∈ Q)) as [Hq|Hq].
    + rewrite HQ by done.
      pose proof (size_union_alt (Q ∩ list_to_set (omap (Sscanf (worker_prefix phase)) seen)) (Q ∩ {[q]})) as Hs.
      pose proof (subseteq_size ((Q ∩ {[q]}) ∖ (Q ∩ list_to_set (omap (Sscanf (worker_prefix phase)) seen))) {[q]} ltac:(set_solver)) as H1.
      rewrite size_singleton in H1. unfold pids in Hr. lia.
    + assert (Q ∩ {[q]} = ∅) as -> by set_solver. rewrite union_empty_r_L. unfold pids in Hr. case_match; lia.
  - by rewrite union_empty_r_L.
Qed.

Lemma step_at_least Q pid w w' :
  step_with Q w w' -> at_least Q (calls w !! pid) -> at_least Q (calls w' !! pid).
Proof.
  intros [Hs HQ] Hc. destruct Hs as [p w _ _|p w _ _ _|p c c' names fs w Hp _ Hcs|p w]; cbn in *; [done|..].
  - destruct (decide (p = pid)) as [->|]; [by rewrite lookup_insert_eq|by rewrite lookup_insert_ne].
  - destruct (decide (p = pid)) as [->|]; [|by rewrite lookup_insert_ne]. rewrite lookup_insert_eq.
    rewrite Hp in Hc. destruct c as [| |all [|name todo] ret|all ret|ret]; cbn in Hcs.
    + by injection Hcs as <- <-.
    + injection Hcs as <- <-. exists []. split; [done|]. cbn. rewrite intersection_empty_r_L, size_empty. done.
    + injection Hcs as <- <-. destruct Hc as (seen & -> & Hr). cbn. by rewrite app_nil_r.
    + injection Hcs as <- <-. destruct Hc as (seen & -> & Hr). exists (seen ++ [name]). split; [by rewrite <- app_assoc|].
      by apply look_at_least.
    + case_decide; [|done]. by injection Hcs as <- <-.
    + by injection Hcs as <- <-.
  - destruct (decide (p = pid)) as [->|]; [by rewrite lookup_delete_eq|by rewrite lookup_delete_ne].
Qed.

(** Processes that live from before a call lists the directory until it has looked at the names are all
    counted, if their files were listed. *)
Lemma overlapping_workers_counted Q pid w w' all ret :
  calls w !! pid = Some Listing -> rtc (step_with Q) w w' -> calls w' !! pid = Some (Sleeping all ret) ->
  Z.of_nat (size (Q ∩ pids phase all)) <= ret.
Proof.
  intros Hl Hr Hs. assert (at_least Q (calls w !! pid)) as H0 by by rewrite Hl.
  assert (at_least Q (calls w' !! pid)) as H1; [|by rewrite Hs in H1].
  clear Hl Hs. induction Hr as [|w w1 w' Hs Hr IH]; [done|]. apply IH. by eapply step_at_least.
Qed.
End invariant.

(** ** jobcount *)

Definition job_file (job : Z * Z) : string := "mr-worker-jobcount-" +:+ Itoa job.1 +:+ "-" +:+ Itoa job.2.

Lemma job_file_inj job job' : job_file job = job_file job' -> job = job'.
Proof.
  destruct job as [p n], job' as [p' n']. unfold job_file, Itoa. cbn [fst snd]. intros E.
  apply (f_equal (Json.expect "mr-worker-jobcount-")) in E. rewrite !Json.expect_app in E. injection E as E.
  apply (f_equal Json.number) in E. rewrite !Json.number_pretty in E by done. injection E as -> E.
  apply (f_equal Json.number) in E. pose proof (Json.number_pretty n "" I) as H1. pose proof (Json.number_pretty n' "" I) as H2.
  rewrite app_nil_string in H1, H2.
  change ("" +:+ pretty n) with (pretty n) in E. change ("" +:+ pretty n') with (pretty n') in E. congruence.
Qed.

Lemma job_file_prefix job : HasPrefix (job_file job) jobcount_prefix = true.
Proof. apply bool_decide_eq_true. by eexists. Qed.

(** Map invocations by different processes, or of different numbers at one. *)
Definition run_jobs (jobs : list (Z * Z)) (files : gset string) : gset string :=
  foldr (fun job files => (jobcount_Map job.1 job.2 files "" "").1.1) files jobs.

Lemma run_jobs_spec jobs files : run_jobs jobs files = list_to_set (job_file <$> jobs) ∪ files.
Proof.
  induction jobs as [|job jobs IH]; [cbn; by rewrite union_empty_l_L|]. cbn [run_jobs foldr]. unfold run_jobs in IH. rewrite IH.
  cbn [jobcount_Map fst fmap list_fmap list_to_set]. by rewrite union_assoc_L.
Qed.

Lemma fold_count (P : string -> bool) l a :
  fold_left (fun n f => if P f then n + 1 else n) l a = a + zlen (filter (fun f => P f = true) l).
Proof.
  revert a. induction l as [|f l IH]; intros a; cbn [fold_left]; [rewrite filter_nil, zlen_nil; lia|].
  rewrite IH, filter_cons. destruct (P f) eqn:E; [rewrite decide_True by done; rewrite zlen_cons; lia|by rewrite decide_False].
Qed.

(** Reduce counts the invocations of Map. *)
Lemma jobcount_counts jobs files key values :
  NoDup jobs -> (forall f, f ∈ files -> HasPrefix f jobcount_prefix = false) ->
  jobcount_Reduce (run_jobs jobs files) key values = Itoa (zlen jobs).
Proof.
  intros Hnd Hf. unfold jobcount_Reduce. rewrite fold_count, run_jobs_spec. f_equal. rewrite Z.add_0_l. unfold zlen.
  f_equal. rewrite <- (length_fmap job_file jobs). apply Permutation_length.
  apply NoDup_Permutation.
  - apply NoDup_filter, NoDup_elements.
  - by apply NoDup_fmap; [intros ??; apply job_file_inj|].
  - intros f. rewrite list_elem_of_filter, elem_of_elements, elem_of_union, elem_of_list_to_set. split.
    + intros [Hp [Hj|Hj]]; [done|]. rewrite Hf in Hp by done. done.
    + intros Hj. split; [|by left]. apply list_elem_of_fmap in Hj as (job & -> & _). apply job_file_prefix.
Qed.

Lemma jobcount_ex :
  jobcount_Reduce (run_jobs [(10, 0); (10, 1); (12, 0)] {["mr-0-0"]}) "a" [] = "3".
Proof. vm_compute. reflexivity. Qed.

End MrTiming.
