(* ===== verification/Gob.v ===== *)
(** * Gob: the checks labgob makes before it encodes or decodes (src/src/labgob/labgob.go)

    [checkType] warns about lower-case fields of every type a value can contain, once per
    type; [checkDefault] warns when a value is decoded into a variable that is not at its
    default.  What reflection says of types and values is an argument: [kind_of] and
    [name_of] of a type, and the tree of a value.  The codec of encoding/gob is a
    parameter. *)
From S2P Require Import Prelude GoText.
Local Open Scope Z_scope.
Local Open Scope go_scope.

Module Gob.

(** ** Data *)

Inductive message :=
| LowerCase (field tname : string)
| NonDefault (what : string).

Section gob.
Context {T : Type} `{Countable T}.

(** The kinds [checkType] distinguishes. *)
Inductive kind :=
| Struct (fields : list (string * T))
| SliceOf (elem : T)
| ArrayOf (elem : T)
| PtrTo (elem : T)
| MapOf (elem key : T)
| OtherKind.

Context (kind_of : T -> kind) (name_of : T -> string).
(** [unicode.IsUpper] *)
Context (IsUpper : Z -> bool).

(** The package's variables (a nil [checked] reads as the empty map), and what was
    printed. *)
Record gstate := MkG { checked : gset T; errorCount : Z; printed : list message }.

Definition lower (name : string) : bool :=
  negb (IsUpper (Utf8.DecodeRune (String.list_ascii_of_string name)).1).

(** ** checkType *)

(** The loop over the fields; [rec] is the recursive call. *)
Fixpoint fields_loop (rec : T -> gstate -> res gstate) (t : T) (fields : list (string * T)) (st : gstate)
  : res gstate :=
  match fields with
  | [] => Ret st
  | (name, ft) :: fields =>
      let st :=
        if lower name then
          MkG (checked st) (errorCount st + 1) (printed st ++ [LowerCase name (name_of t)])
        else st in
      let! st := rec ft st in
      fields_loop rec t fields st
  end.

Fixpoint checkType (fuel : nat) (t : T) (st : gstate) : res gstate :=
  match fuel with
  | O => Panic OutOfFuel
  | S fuel =>
      if decide (t ∈ checked st) then Ret st
      else
        let st := MkG ({[t]} ∪ checked st) (errorCount st) (printed st) in
        match kind_of t with
        | Struct fields => fields_loop (checkType fuel) t fields st
        | SliceOf e | ArrayOf e | PtrTo e => checkType fuel e st
        | MapOf e k => let! st := checkType fuel e st in checkType fuel k st
        | OtherKind => Ret st
        end
  end.

(** [TypeOf] of a nil interface is nil, and its [Kind] panics. *)
Definition checkValue (fuel : nat) (t : option T) (st : gstate) : res gstate :=
  match t with Some t => checkType fuel t st | None => Panic NilDereference end.

(** ** checkDefault *)

(** A value as reflection shows it: a basic one is at its default or not. *)
Inductive value :=
| VStruct (tname : string) (fields : list (string * value))
| VPtr (tname : string) (target : option value)
| VBasic (tname : string) (default : bool)
| VOther.

(** [ro]: the value was reached through a field that is not exported, so that its
    [Interface] panics. *)
Fixpoint checkDefault1 (ro : bool) (v : value) (depth : Z) (name : string) (st : gstate) {struct v}
  : res gstate :=
  if decide (depth > 3) then Ret st
  else
    match v with
    | VStruct _ fields =>
        (fix go (fields : list (string * value)) (st : gstate) : res gstate :=
           match fields with
           | [] => Ret st
           | (n, vv) :: fields =>
               let name1 := if decide (name = "") then n else name +:+ "." +:+ n in
               let! st := checkDefault1 (ro || lower n) vv (depth + 1) name1 st in
               go fields st
           end) fields st
    | VPtr _ None => Ret st
    | VPtr _ (Some v) => checkDefault1 ro v (depth + 1) name st
    | VBasic tname dflt =>
        if ro then Panic ReflectUnexported
        else if dflt then Ret st
        else
          let what := if decide (name = "") then tname else name in
          let out := if decide (errorCount st < 1) then printed st ++ [NonDefault what] else printed st in
          Ret (MkG (checked st) (errorCount st + 1) out)
    | VOther => Ret st
    end.

Definition checkDefault (v : option value) (st : gstate) : res gstate :=
  match v with Some v => checkDefault1 false v 1 "" st | None => Ret st end.

(** ** The encoder and the decoder *)

Section codec.
Context {D B : Type} (gobEncode : D -> B) (gobDecode : B -> D).

Definition Encode (fuel : nat) (t : option T) (e : D) (st : gstate) : res (gstate * B) :=
  let! st := checkValue fuel t st in Ret (st, gobEncode e).
Definition Decode (fuel : nat) (t : option T) (into : option value) (b : B) (st : gstate)
  : res (gstate * D) :=
  let! st := checkValue fuel t st in
  let! st := checkDefault into st in
  Ret (st, gobDecode b).
Definition Register (fuel : nat) (t : option T) (st : gstate) : res gstate := checkValue fuel t st.
End codec.

(** ** Lemmas *)

(** What a type's own description contains. *)
Definition children (t : T) : list T :=
  match kind_of t with
  | Struct fields => fields.*2
  | SliceOf e | ArrayOf e | PtrTo e => [e]
  | MapOf e k => [e; k]
  | OtherKind => []
  end.
Definition child (t u : T) : Prop := u ∈ children t.
Definition n_lower (fields : list (string * T)) : Z := zlen (filter (fun f => lower f.1 = true) fields).
Definition lower_fields (t : T) : Z := match kind_of t with Struct fields => n_lower fields | _ => 0 end.

(** The types [new] were checked on the way from [st] to [st'], with [n] warnings besides
    their own. *)
Definition visited (l : list T) (n : Z) (st st' : gstate) (new : list T) : Prop :=
  NoDup new /\ (forall u, u ∈ new -> u ∉ checked st) /\
  checked st' = checked st ∪ list_to_set new /\
  errorCount st' = errorCount st + n + zsum lower_fields new /\
  (forall t, t ∈ l -> t ∈ checked st') /\
  (forall u, u ∈ new -> (exists t, t ∈ l /\ rtc child t u) /\ forall v, child u v -> v ∈ checked st').

Lemma visited_nil st : visited [] 0 st st [].
Proof.
  split_and!; [constructor|by intros ? ?%elem_of_nil|set_solver|cbn; lia|by intros ? ?%elem_of_nil|by intros ? ?%elem_of_nil].
Qed.

Lemma visited_cons t l m n st1 st2 st3 new1 new2 :
  visited [t] m st1 st2 new1 -> visited l n st2 st3 new2 -> visited (t :: l) (m + n) st1 st3 (new1 ++ new2).
Proof.
  intros (D1 & F1 & C1 & E1 & I1 & R1) (D2 & F2 & C2 & E2 & I2 & R2).
  assert (checked st2 ⊆ checked st3) as Hsub by set_solver.
  split_and!.
  - apply NoDup_app. split_and!; [done| |done]. intros u H1 H2. apply (F2 u H2). rewrite C1. set_solver.
  - intros u [H1|H2]%elem_of_app; [by apply F1|]. intros Hin. apply (F2 u H2). rewrite C1. set_solver.
  - rewrite C2, C1, list_to_set_app_L. set_solver.
  - rewrite E2, E1, zsum_app. lia.
  - intros u [->|Hu]%elem_of_cons; [|by apply I2]. apply Hsub, I1. by left.
  - intros u [Hu|Hu]%elem_of_app.
    + destruct (R1 u Hu) as [(x & ->%list_elem_of_singleton & Hx) Hch]. split; [exists t; split; [by left|done]|].
      intros v Hv. by apply Hsub, Hch.
    + destruct (R2 u Hu) as [(x & Hx & Hr) Hch]. split; [exists x; split; [by right|done]|done].
Qed.

Lemma visited_top t st st' new :
  t ∉ checked st ->
  visited (children t) (lower_fields t) (MkG ({[t]} ∪ checked st) (errorCount st) (printed st)) st' new ->
  visited [t] 0 st st' (t :: new).
Proof.
  intros Ht (D & F & C & E & I & R). cbn [checked errorCount] in *. split_and!.
  - constructor; [|done]. intros Hin. apply (F t Hin). set_solver.
  - intros u [->|Hu]%elem_of_cons; [done|]. specialize (F u Hu). set_solver.
  - rewrite C, list_to_set_cons. set_solver.
  - rewrite E, zsum_cons. lia.
  - intros u ->%list_elem_of_singleton. rewrite C. set_solver.
  - intros u [->|Hu]%elem_of_cons.
    + split; [exists t; split; [by left|done]|]. intros v Hv. by apply I.
    + destruct (R u Hu) as [(x & Hx & Hr) Hch]. split; [|done]. exists t. split; [by left|]. by eapply rtc_l.
Qed.

Lemma n_lower_cons f fields : n_lower (f :: fields) = (if lower f.1 then 1 else 0) + n_lower fields.
Proof. unfold n_lower. rewrite filter_cons. case_decide as Hl; [rewrite Hl, zlen_cons; lia|]. by destruct (lower f.1). Qed.

(** The loop over the fields, given what the recursive call does to a type of [U]. *)
Lemma fields_loop_visits (U : gset T) rec t fields st :
  (forall x st1, x ∈ U -> checked st ⊆ checked st1 ->
     exists st2 new, rec x st1 = Ret st2 /\ visited [x] 0 st1 st2 new) ->
  (forall x, x ∈ fields.*2 -> x ∈ U) ->
  exists st' new, fields_loop rec t fields st = Ret st' /\ visited (fields.*2) (n_lower fields) st st' new.
Proof.
  revert st. induction fields as [|[name ft] fields IH]; intros st Hrec HU; cbn [fields_loop].
  { exists st, []. split; [done|apply visited_nil]. }
  set (st1 := if lower name then _ else st).
  assert (checked st1 = checked st) as Hc1 by (unfold st1; by destruct (lower name)).
  destruct (Hrec ft st1) as (st2 & new & -> & Hv); [apply HU; by left|by rewrite Hc1|]. cbn [res_bind].
  assert (checked st ⊆ checked st2) as Hsub by (destruct Hv as (_ & _ & C & _); rewrite C, Hc1; set_solver).
  destruct (IH st2) as (st3 & new2 & -> & Hv2).
  { intros x st4 Hx Hx4. apply Hrec; [done|]. by etrans. }
  { intros x Hx. apply HU. by right. }
  exists st3, (new ++ new2). split; [done|]. rewrite n_lower_cons. cbn [fst fmap list_fmap].
  eapply visited_cons; [|done]. destruct Hv as (D & F & C & E & I & R). split_and!; try done.
  - by rewrite Hc1 in F.
  - by rewrite Hc1 in C.
  - rewrite E. unfold st1. destruct (lower name); cbn [errorCount]; lia.
Qed.

Lemma checkType_visits (U : gset T) fuel t st :
  (forall x y, x ∈ U -> child x y -> y ∈ U) -> t ∈ U -> (size (U ∖ checked st) < fuel)%nat ->
  exists st' new, checkType fuel t st = Ret st' /\ visited [t] 0 st st' new.
Proof.
  intros HU. revert t st. induction fuel as [|fuel IH]; intros t st Ht Hf; [lia|]. cbn [checkType].
  case_decide as Hin.
  { exists st, []. split; [done|]. destruct (visited_nil st) as (? & ? & ? & ? & ? & ?). split_and!; try done.
    - by intros u ->%list_elem_of_singleton.
    - by intros u ?%elem_of_nil. }
  set (st0 := MkG ({[t]} ∪ checked st) (errorCount st) (printed st)).
  assert (forall x st1, x ∈ U -> checked st0 ⊆ checked st1 ->
    exists st2 new, checkType fuel x st1 = Ret st2 /\ visited [x] 0 st1 st2 new) as Hrec.
  { intros x st1 Hx Hsub. apply IH; [done|].
    assert (size (U ∖ checked st1) < size (U ∖ checked st))%nat; [|lia].
    apply subset_size. split; [cbn in Hsub; set_solver|]. intros Hs. cbn in Hsub.
    assert (t ∈ U ∖ checked st1) as Hbad by (apply Hs; set_solver). set_solver. }
  assert (forall y, y ∈ children t -> y ∈ U) as Hch by (intros y Hy; by eapply HU).
  assert (exists st' new, match kind_of t with
      | Struct fields => fields_loop (checkType fuel) t fields st0
      | SliceOf e | ArrayOf e | PtrTo e => checkType fuel e st0
      | MapOf e k => let! st := checkType fuel e st0 in checkType fuel k st
      | OtherKind => Ret st0
      end = Ret st' /\ visited (children t) (lower_fields t) st0 st' new) as (st' & new & -> & Hv).
  { unfold children, lower_fields in *. destruct (kind_of t) as [fields|e|e|e|e k|].
    - by apply (fields_loop_visits U).
    - apply Hrec; [apply Hch; by left|done].
    - apply Hrec; [apply Hch; by left|done].
    - apply Hrec; [apply Hch; by left|done].
    - destruct (Hrec e st0) as (st1 & new1 & -> & Hv1); [apply Hch; by left|done|]. cbn [res_bind].
      destruct (Hrec k st1) as (st2 & new2 & -> & Hv2); [apply Hch; by right; left| |].
      { destruct Hv1 as (_ & _ & C & _). rewrite C. set_solver. }
      exists st2, (new1 ++ new2). split; [done|]. by eapply (visited_cons e [k] 0 0).
    - exists st0, []. split; [done|apply visited_nil]. }
  exists st', (t :: new). split; [done|]. by apply visited_top.
Qed.

(** *** checkDefault *)

(** The basic values that are not at their default, of those the check reaches. *)
Fixpoint non_defaults (v : value) (depth : Z) : Z :=
  if decide (depth > 3) then 0
  else
    match v with
    | VStruct _ fields => foldr (fun f a => non_defaults f.2 (depth + 1) + a) 0 fields
    | VPtr _ (Some v) => non_defaults v (depth + 1)
    | VBasic _ false => 1
    | _ => 0
    end.
(** Every field that is reached is exported. *)
Fixpoint exported (v : value) : Prop :=
  match v with
  | VStruct _ fields => foldr (fun f P => lower f.1 = false /\ exported f.2 /\ P) True fields
  | VPtr _ (Some v) => exported v
  | _ => True
  end.

Lemma value_nested_ind (P : value -> Prop) :
  (forall n fields, Forall (fun f => P f.2) fields -> P (VStruct n fields)) ->
  (forall n v, P v -> P (VPtr n (Some v))) -> (forall n, P (VPtr n None)) ->
  (forall n b, P (VBasic n b)) -> P VOther -> forall v, P v.
Proof.
  intros Hs Hp Hn Hb Ho. fix IH 1. intros [n fields|n [v|]|n b|].
  - apply Hs. induction fields as [|[k v] fields IHf]; constructor; [apply IH|done].
  - apply Hp, IH.
  - apply Hn.
  - apply Hb.
  - apply Ho.
Qed.

Lemma checkDefault1_counts v : exported v -> forall depth name st,
  exists out, checkDefault1 false v depth name st =
    Ret (MkG (checked st) (errorCount st + non_defaults v depth) out).
Proof.
  induction v as [n fields IH|n v IH|n|n b|] using value_nested_ind; intros Hex depth name st;
    cbn [checkDefault1 non_defaults]; (destruct (decide (depth > 3)); [exists (printed st); destruct st; cbn; by rewrite Z.add_0_r|]).
  - cbn [exported] in Hex. revert st. induction IH as [|[k v] fields Hv _ IHf]; intros st.
    + exists (printed st). destruct st. cbn. by rewrite Z.add_0_r.
    + cbn [foldr] in Hex |- *. destruct Hex as (Hk & Hexv & Hex). cbn [fst snd] in *. replace (false || lower k) with false by (by rewrite Hk).
      destruct (Hv Hexv (depth + 1) (if decide (name = "") then k else name +:+ "." +:+ k) st) as [out1 ->].
      cbn [res_bind]. destruct (IHf Hex (MkG (checked st) (errorCount st + non_defaults v (depth + 1)) out1)) as [out2 ->].
      exists out2. cbn [checked errorCount]. do 2 f_equal. lia.
  - cbn [exported] in Hex. by apply IH.
  - exists (printed st). destruct st. cbn. by rewrite Z.add_0_r.
  - destruct b; [exists (printed st); destruct st; cbn; by rewrite Z.add_0_r|]. eexists. done.
  - exists (printed st). destruct st. cbn. by rewrite Z.add_0_r.
Qed.

(** ** Properties *)

(** Between calls the types checked contain the types they are made of. *)
Definition closed (C : gset T) : Prop := forall x y, x ∈ C -> child x y -> y ∈ C.

(** C39 (each type is checked once).  On types of a finite universe [U] that is closed under
    the parts of a type (recursive types included), checkType returns; it has then checked
    exactly the types checked before and those that the type is made of, directly or not,
    and has counted every lower-case field of the types checked for the first time once. *)
Theorem checkType_exact (U : gset T) fuel t st :
  closed U -> t ∈ U -> (size U < fuel)%nat -> closed (checked st) ->
  exists st' new, checkType fuel t st = Ret st' /\ closed (checked st') /\
    (forall u, u ∈ checked st' <-> u ∈ checked st \/ rtc child t u) /\
    NoDup new /\ (forall u, u ∈ new <-> u ∈ checked st' /\ u ∉ checked st) /\
    errorCount st' = errorCount st + zsum lower_fields new.
Proof.
  intros HU Ht Hf Hst. destruct (checkType_visits U fuel t st HU Ht) as (st' & new & -> & D & F & C & E & I & R).
  { assert (size (U ∖ checked st) <= size U)%nat; [apply subseteq_size; set_solver|lia]. }
  exists st', new. assert (closed (checked st')) as Hcl.
  { intros x y Hx Hxy. rewrite C in Hx. apply elem_of_union in Hx as [Hx|Hx%elem_of_list_to_set].
    - rewrite C. apply elem_of_union_l. by eapply Hst.
    - by destruct (R x Hx) as [_ Hch]; apply Hch. }
  split_and!; [done|done| |done| |lia].
  - intros u. split.
    + rewrite C, elem_of_union, elem_of_list_to_set. intros [?|Hu]; [by left|right].
      destruct (R u Hu) as [(x & ->%list_elem_of_singleton & Hx) _]. done.
    + intros [Hu|Hu]; [rewrite C; by apply elem_of_union_l|].
      assert (t ∈ checked st') as Ht' by (apply I; by left). clear -Hu Ht' Hcl.
      induction Hu as [|x y z Hxy _ IH]; [done|]. apply IH. by eapply Hcl.
  - intros u. rewrite C, elem_of_union, elem_of_list_to_set. split; [|tauto].
    intros Hu. split; [by right|by apply F].
Qed.
End gob.
Arguments kind : clear implicits.

(** *** Examples *)

Definition ascii_upper (r : Z) : bool := (65 <=? r) && (r <=? 90).
(** A list node: [type node struct { Val int; next *node }]. *)
Definition ex_kind (t : nat) : kind nat :=
  match t with 0%nat => Struct [("Val", 1%nat); ("next", 2%nat)] | 2%nat => PtrTo 0%nat | _ => OtherKind end.
Definition ex_st : gstate (T := nat) := MkG ∅ 0 [].

Lemma checkType_exact_witness :
  exists st', checkType ex_kind (fun _ => "node") ascii_upper 4 2%nat ex_st = Ret st' /\
    errorCount st' = 1 /\ printed st' = [LowerCase "next" "node"] /\ 1%nat ∈ checked st'.
Proof.
  destruct (checkType_exact ex_kind (fun _ => "node") ascii_upper {[0; 1; 2]}%nat 4 2%nat ex_st) as
    (st' & new & H1 & _ & H3 & _).
  - intros x y Hx. unfold child, children. assert (x = 0 \/ x = 1 \/ x = 2)%nat as [->|[->| ->]] by set_solver;
      cbn; set_solver.
  - set_solver.
  - vm_compute. lia.
  - intros x y Hx. set_solver.
  - exists st'. split; [done|]. split_and!; [by vm_compute in H1; injection H1 as <-..|].
    apply H3. right. eapply rtc_l; [|eapply rtc_l; [|done]].
    + instantiate (1 := 0%nat). by left.
    + by left.
Defined.

(** Decoding into a struct with a lower-case field of a basic kind does not stop at the
    warning: reading the field's value panics. *)
Lemma lower_case_field_panics :
  checkDefault ascii_upper (Some (VPtr "" (Some (VStruct "T" [("no", VBasic "int" true)])))) ex_st =
    Panic ReflectUnexported.
Proof. reflexivity. Qed.
End Gob.
