(* ===== verification/JsonText.v ===== *)
(** * JsonText: the texts of encoding/json

    Go's library for JSON as the sources use it, for any text: the values that a text denotes, the
    decoder (white space, literals, numbers, strings with their escapes and surrogate pairs, arrays and
    objects), and the encoder, which escapes what HTML gives a meaning and what is not UTF-8.
    A text is a list of bytes.  [parse_print] is the round trip. *)
From S2P Require Import Prelude GoText.
Local Open Scope Z_scope.
Local Open Scope go_scope.

Module JsonText.
Import Utf8.

Notation bytes := (list ascii).

(** A number is kept as it is written. *)
Inductive json :=
| JNull
| JBool (b : bool)
| JNum (text : bytes)
| JStr (s : bytes)
| JArr (l : list json)
| JObj (l : list (bytes * json)).

Definition chr (n : Z) : ascii := ascii_of_N (Z.to_N n).
Definition quote : ascii := "034"%char.
Definition backslash : ascii := "092"%char.
Definition text (s : string) : bytes := String.list_ascii_of_string s.

(** ** Reading *)

Definition is_space (c : ascii) : bool :=
  bool_decide (code c = 32) || bool_decide (code c = 9) || bool_decide (code c = 10) || bool_decide (code c = 13).
Fixpoint skip_ws (p : bytes) : bytes :=
  match p with
  | c :: p' => if is_space c then skip_ws p' else p
  | [] => []
  end.

(** [p] after the bytes [w]. *)
Fixpoint after (w p : bytes) : option bytes :=
  match w, p with
  | [], _ => Some p
  | a :: w, b :: p => if decide (a = b) then after w p else None
  | _, _ => None
  end.

Definition hexval (c : ascii) : option Z :=
  let n := code c in
  if decide (48 <= n <= 57) then Some (n - 48)
  else if decide (97 <= n <= 102) then Some (n - 87)
  else if decide (65 <= n <= 70) then Some (n - 55)
  else None.
(** Four hexadecimal digits. *)
Definition getu4 (p : bytes) : option (Z * bytes) :=
  match p with
  | a :: b :: c :: d :: p =>
      a ← hexval a; b ← hexval b; c ← hexval c; d ← hexval d;
      Some (((a * 16 + b) * 16 + c) * 16 + d, p)
  | _ => None
  end.

Definition cont (r : Z) : ascii := chr (Z.lor 0x80 (Z.land r 0x3F)).
Definition EncodeRune (r : Z) : bytes :=
  if decide (0 <= r <= 0x7F) then [chr r]
  else if decide (0 <= r <= 0x7FF) then [chr (Z.lor 0xC0 (Z.shiftr r 6)); cont r]
  else if decide (r < 0 \/ 0x10FFFF < r \/ 0xD800 <= r <= 0xDFFF) then replacement
  else if decide (r <= 0xFFFF) then [chr (Z.lor 0xE0 (Z.shiftr r 12)); cont (Z.shiftr r 6); cont r]
  else [chr (Z.lor 0xF0 (Z.shiftr r 18)); cont (Z.shiftr r 12); cont (Z.shiftr r 6); cont r].

(** utf16.DecodeRune, for two surrogates. *)
Definition surrogates (r1 r2 : Z) : option Z :=
  if decide (0xD800 <= r1 < 0xDC00 /\ 0xDC00 <= r2 < 0xE000) then
    Some (Z.lor (Z.shiftl (r1 - 0xD800) 10) (r2 - 0xDC00) + 0x10000)
  else None.

(** What the letter after a backslash stands for, [u] apart. *)
Definition escape (e : ascii) : option ascii :=
  if decide (e = quote) then Some quote
  else if decide (e = backslash) then Some backslash
  else if decide (e = "/"%char) then Some "/"%char
  else if decide (e = "b"%char) then Some (chr 8)
  else if decide (e = "f"%char) then Some (chr 12)
  else if decide (e = "n"%char) then Some (chr 10)
  else if decide (e = "r"%char) then Some (chr 13)
  else if decide (e = "t"%char) then Some (chr 9)
  else None.

(** The rune of an escape [\uXXXX] whose digits are at the head of [p], and perhaps of a second one. *)
Definition unicode (p : bytes) : option (bytes * bytes) :=
  '(r, p1) ← getu4 p;
  if decide (0xD800 <= r < 0xE000) then
    match after [backslash; "u"%char] p1 ≫= getu4 with
    | Some (r2, p2) =>
        match surrogates r r2 with
        | Some rr => Some (EncodeRune rr, p2)
        | None => Some (replacement, p1)
        end
    | None => Some (replacement, p1)
    end
  else Some (EncodeRune r, p1).

(** The rest of a string after its quote: its bytes, and what follows the closing quote.  Each piece takes
    a step of [fuel]. *)
Fixpoint unquote (fuel : nat) (p : bytes) : option (bytes * bytes) :=
  match fuel, p with
  | S fuel, c :: p' =>
      if decide (c = quote) then Some ([], p')
      else
        '(piece, rest) ←
          (if decide (c = backslash) then
             match p' with
             | [] => None
             | e :: p'' =>
                 if decide (e = "u"%char) then unicode p''
                 else b ← escape e; Some ([b], p'')
             end
           else if decide (code c < 0x20) then None
           else
             let '(r, n) := DecodeRune p in
             Some (if invalid (r, take n p) then replacement else take n p, drop n p));
        '(s, rest) ← unquote fuel rest;
        Some (piece ++ s, rest)
  | _, _ => None
  end.

Definition is_digit (c : ascii) : bool := rng 48 57 c.
Fixpoint span_digits (p : bytes) : bytes * bytes :=
  match p with
  | c :: p' => if is_digit c then let '(d, r) := span_digits p' in (c :: d, r) else ([], p)
  | [] => ([], [])
  end.
(** One digit at least. *)
Definition some_digits (p : bytes) : option (bytes * bytes) :=
  let '(d, r) := span_digits p in if decide (d = []) then None else Some (d, r).

(** The parts of a number: its integer, with no zero before other digits, its fraction and exponent. *)
Definition int_part (p : bytes) : option (bytes * bytes) :=
  match p with
  | c :: p' => if decide (c = "0"%char) then Some ([c], p') else some_digits p
  | [] => None
  end.
Definition frac_part (p : bytes) : option (bytes * bytes) :=
  match p with
  | c :: p' => if decide (c = "."%char) then '(d, r) ← some_digits p'; Some (c :: d, r) else Some ([], p)
  | [] => Some ([], p)
  end.
Definition exp_part (p : bytes) : option (bytes * bytes) :=
  match p with
  | c :: p' =>
      if decide (c = "e"%char \/ c = "E"%char) then
        match p' with
        | s :: p'' =>
            if decide (s = "+"%char \/ s = "-"%char) then '(d, r) ← some_digits p''; Some (c :: s :: d, r)
            else '(d, r) ← some_digits p'; Some (c :: d, r)
        | [] => None
        end
      else Some ([], p)
  | [] => Some ([], p)
  end.
Definition number (p : bytes) : option (bytes * bytes) :=
  let '(sign, p) := match p with c :: p' => if decide (c = "-"%char) then ([c], p') else ([], p) | [] => ([], p) end in
  '(i, p) ← int_part p;
  '(f, p) ← frac_part p;
  '(e, p) ← exp_part p;
  Some (sign ++ i ++ f ++ e, p).

(** A value, the elements after a bracket, the members after a brace; a bracket or a brace that closes at
    once is read with the one that opens.  [fuel] is for the depth and the length. *)
Fixpoint parse_value (fuel : nat) (p : bytes) : option (json * bytes) :=
  match fuel with
  | O => None
  | S fuel =>
      match skip_ws p with
      | [] => None
      | c :: p' =>
          if decide (c = "{"%char) then
            match after (text "}") (skip_ws p') with
            | Some r => Some (JObj [], r)
            | None => '(l, r) ← parse_members fuel p'; Some (JObj l, r)
            end
          else if decide (c = "["%char) then
            match after (text "]") (skip_ws p') with
            | Some r => Some (JArr [], r)
            | None => '(l, r) ← parse_elems fuel p'; Some (JArr l, r)
            end
          else if decide (c = quote) then '(s, r) ← unquote (length p') p'; Some (JStr s, r)
          else if decide (c = "t"%char) then r ← after (text "rue") p'; Some (JBool true, r)
          else if decide (c = "f"%char) then r ← after (text "alse") p'; Some (JBool false, r)
          else if decide (c = "n"%char) then r ← after (text "ull") p'; Some (JNull, r)
          else '(n, r) ← number (c :: p'); Some (JNum n, r)
      end
  end
with parse_elems (fuel : nat) (p : bytes) : option (list json * bytes) :=
  match fuel with
  | O => None
  | S fuel =>
      '(v, r) ← parse_value fuel p;
      match skip_ws r with
      | c :: r =>
          if decide (c = "]"%char) then Some ([v], r)
          else if decide (c = ","%char) then '(l, r) ← parse_elems fuel r; Some (v :: l, r)
          else None
      | [] => None
      end
  end
with parse_members (fuel : nat) (p : bytes) : option (list (bytes * json) * bytes) :=
  match fuel with
  | O => None
  | S fuel =>
      p ← after [quote] (skip_ws p);
      '(k, r) ← unquote (length p) p;
      r ← after (text ":") (skip_ws r);
      '(v, r) ← parse_value fuel r;
      match skip_ws r with
      | c :: r =>
          if decide (c = "}"%char) then Some ([(k, v)], r)
          else if decide (c = ","%char) then '(l, r) ← parse_members fuel r; Some ((k, v) :: l, r)
          else None
      | [] => None
      end
  end.

(** A value takes at most two steps for each of its bytes. *)
Definition parse (p : bytes) : option json :=
  '(v, r) ← parse_value (S (2 * length p)) p;
  match skip_ws r with [] => Some v | _ => None end.

(** ** Writing *)

Definition hexdigit (n : Z) : ascii := if decide (n < 10) then chr (48 + n) else chr (87 + n).

Definition safe (c : ascii) : bool :=
  bool_decide (0x20 <= code c) &&
  negb (existsb (fun d => bool_decide (c = d)) [quote; backslash; "<"; ">"; "&"]%char).

(** A rune with its bytes. *)
Definition escaped (x : Z * bytes) : bytes :=
  if invalid x then text "\ufffd"
  else
    match x.2 with
    | [c] =>
        if safe c then [c]
        else if decide (c = quote \/ c = backslash) then [backslash; c]
        else if decide (code c = 8) then [backslash; "b"%char]
        else if decide (code c = 12) then [backslash; "f"%char]
        else if decide (code c = 10) then [backslash; "n"%char]
        else if decide (code c = 13) then [backslash; "r"%char]
        else if decide (code c = 9) then [backslash; "t"%char]
        else text "\u00" ++ [hexdigit (Z.shiftr (code c) 4); hexdigit (Z.land (code c) 0xF)]
    | _ =>
        if decide (x.1 = 0x2028 \/ x.1 = 0x2029) then text "\u202" ++ [hexdigit (Z.land x.1 0xF)]
        else x.2
    end.
Definition print_string (s : bytes) : bytes := [quote] ++ concat (escaped <$> runes s) ++ [quote].

(** The pieces with commas between them. *)
Fixpoint commas (l : list bytes) : bytes :=
  match l with
  | [] => []
  | [p] => p
  | p :: l => p ++ text "," ++ commas l
  end.

Fixpoint print (v : json) : bytes :=
  match v with
  | JNull => text "null"
  | JBool true => text "true"
  | JBool false => text "false"
  | JNum n => n
  | JStr s => print_string s
  | JArr l => text "[" ++ commas (print <$> l) ++ text "]"
  | JObj l => text "{" ++ commas ((fun m => print_string m.1 ++ text ":" ++ print m.2) <$> l) ++ text "}"
  end.

(** What comes back from a round trip: strings are made valid UTF-8. *)
Fixpoint clean (v : json) : json :=
  match v with
  | JStr s => JStr (json_bytes s)
  | JArr l => JArr (clean <$> l)
  | JObj l => JObj ((fun m => (json_bytes m.1, clean m.2)) <$> l)
  | _ => v
  end.

Example print_ex :
  print (JObj [(text "a<b", JArr [JNum (text "-1"); JStr (chr 10 :: chr 200 :: text "x")])]) =
  [("{"%char); quote] ++ text "a\u003cb" ++ [quote] ++ text ":[-1," ++ [quote] ++ text "\n\ufffdx" ++ [quote] ++ text "]}".
Proof. vm_compute. reflexivity. Qed.

(** ** Strings come back *)

Lemma code_range c : 0 <= code c < 256.
Proof. unfold code. pose proof (N_ascii_bounded c). lia. Qed.

(** What a piece of a string stands for when it is read. *)
Definition meaning (x : Z * bytes) : bytes := if invalid x then replacement else x.2.

(** The first byte of a rune, and its size. *)
Lemma piece_ascii c r : piece (r, [c]) -> code c < 0x80 /\ r = code c.
Proof.
  intros (_ & Hi & Hd). specialize (Hd []). cbn [fst snd app length] in *. unfold DecodeRune in Hd.
  destruct (accept (code c)) as [lo hi]. destruct (code c <? 0x80) eqn:E; [injection Hd as <-; apply Z.ltb_lt in E; done|].
  exfalso. assert (r = RuneError) as ->; [repeat case_match; congruence|done].
Qed.

Lemma piece_long r c c' p : piece (r, c :: c' :: p) -> 0x80 <= code c.
Proof.
  intros (_ & _ & Hd). specialize (Hd []). cbn [fst snd app length] in *. unfold DecodeRune in Hd.
  destruct (accept (code c)) as [lo hi]. destruct (code c <? 0x80) eqn:E; [discriminate|by apply Z.ltb_ge].
Qed.

Lemma unquote_ascii c f q :
  code c < 0x80 -> unquote (S f) (escaped (code c, [c]) ++ q) = '(s, r) ← unquote f q; Some ([c] ++ s, r).
Proof.
  intros Hc. destruct c as [[] [] [] [] [] [] [] []]; try (exfalso; vm_compute in Hc; discriminate Hc);
    cbn -[unquote]; reflexivity.
Qed.

Lemma unquote_invalid f q :
  unquote (S f) (text "\ufffd" ++ q) = '(s, r) ← unquote f q; Some (replacement ++ s, r).
Proof. reflexivity. Qed.

(** A sum of disjoint bit fields. *)
Lemma lor_field a b n : 0 <= n -> 0 <= b < 2 ^ n -> Z.lor (Z.shiftl a n) b = a * 2 ^ n + b.
Proof.
  intros Hn Hb. pose proof (Z.add_lor_land (Z.shiftl a n) b) as H.
  assert (Z.land (Z.shiftl a n) b = 0) as E; [|rewrite E in H; rewrite <- Z.shiftl_mul_pow2 by done; lia].
  apply Z.bits_inj'. intros k Hk. rewrite Z.land_spec, Z.bits_0. destruct (decide (k < n)).
  - by rewrite Z.shiftl_spec_low.
  - destruct (decide (b = 0)) as [->|]; [by rewrite Z.bits_0, andb_false_r|].
    rewrite (Z.bits_above_log2 b k), andb_false_r; [done|lia|]. apply Z.log2_lt_pow2; [lia|].
    eapply Z.lt_le_trans; [apply Hb|]. apply Z.pow_le_mono_r; lia.
Qed.

Lemma low6_range c : 0 <= low6 c < 64.
Proof. unfold low6. change 0x3F with (Z.ones 6). rewrite Z.land_ones by lia. by apply Z.mod_pos_bound. Qed.

Lemma land_range a n : 0 <= n -> 0 <= Z.land a (Z.ones n) < 2 ^ n.
Proof. intros Hn. rewrite Z.land_ones by done. apply Z.mod_pos_bound. lia. Qed.

Ltac bad_rune H := exfalso; apply (f_equal fst) in H; cbn [fst] in H; unfold RuneError in H; lia.

(** Only three bytes decode to U+2028 or U+2029. *)
Lemma separator_bytes r p :
  piece (r, p) -> r = 0x2028 \/ r = 0x2029 -> p = [chr 0xE2; chr 0x80; chr (0xA8 + (r - 0x2028))].
Proof.
  intros (Hne & Hi & Hd) Hr. destruct p as [|c0 p]; [done|]. specialize (Hd []). rewrite app_nil_r in Hd. cbn [fst snd] in Hd, Hi.
  unfold DecodeRune in Hd. destruct (accept (code c0)) as [lo hi] eqn:Ha. pose proof (code_range c0) as Hc0.
  destruct (code c0 <? 0x80) eqn:E1; [apply Z.ltb_lt in E1; injection Hd as Hd _; lia|].
  destruct ((code c0 <? 0xC2) || (0xF4 <? code c0)) eqn:E2; [bad_rune Hd|].
  destruct p as [|c1 p]; [bad_rune Hd|].
  destruct (rng lo hi c1) eqn:R1; cbn [negb] in Hd; [|bad_rune Hd].
  pose proof (low6_range c1) as L1.
  destruct (code c0 <? 0xE0) eqn:E3.
  { injection Hd as Hd _. rewrite lor_field in Hd by lia. change 0x1F with (Z.ones 5) in Hd. pose proof (land_range (code c0) 5). lia. }
  destruct p as [|c2 p]; [bad_rune Hd|].
  destruct (rng 0x80 0xBF c2) eqn:R2; cbn [negb] in Hd; [|bad_rune Hd].
  pose proof (low6_range c2) as L2.
  destruct (code c0 <? 0xF0) eqn:E4.
  - injection Hd as Hd Hl. destruct p as [|]; [|done]. rewrite (lor_field (low6 c1)), lor_field in Hd by lia.
    change 0x0F with (Z.ones 4) in Hd. pose proof (land_range (code c0) 4) as L0.
    assert (Z.land (code c0) (Z.ones 4) = 2 /\ low6 c1 = 0 /\ low6 c2 = 0x28 + (r - 0x2028)) as (H0 & H1 & H2) by lia.
    assert (c0 = chr 0xE2) as ->.
    { apply Z.ltb_ge in E3. apply Z.ltb_lt in E4. clear -H0 E3 E4.
      destruct c0 as [[] [] [] [] [] [] [] []]; try done; exfalso; vm_compute in H0, E3, E4; congruence. }
    assert (c1 = chr 0x80) as ->.
    { vm_compute in Ha. injection Ha as <- <-. clear -H1 R1. destruct c1 as [[] [] [] [] [] [] [] []]; try done; exfalso; vm_compute in H1, R1; congruence. }
    assert (c2 = chr (0xA8 + (r - 0x2028))) as ->; [|done].
    clear -H2 R2 Hr. destruct Hr as [-> | ->]; destruct c2 as [[] [] [] [] [] [] [] []]; try done; exfalso; vm_compute in H2, R2; congruence.
  - destruct p as [|c3 p]; [bad_rune Hd|].
    destruct (rng 0x80 0xBF c3) eqn:R3; cbn [negb] in Hd; [|bad_rune Hd].
    pose proof (low6_range c3) as L3. injection Hd as Hd _.
    rewrite (lor_field (low6 c2)), (lor_field (low6 c1)), lor_field in Hd by lia.
    change 0x07 with (Z.ones 3) in Hd. pose proof (land_range (code c0) 3) as L0.
    assert (Z.land (code c0) (Z.ones 3) = 0 /\ low6 c1 < 16) as [H0 H1] by lia.
    assert (code c0 = 0xF0) as Hf0.
    { apply Z.ltb_ge in E4. apply orb_false_iff in E2 as [_ E2]. apply Z.ltb_ge in E2. clear -H0 E4 E2.
      destruct c0 as [[] [] [] [] [] [] [] []]; try done; exfalso; vm_compute in H0, E4, E2; congruence. }
    rewrite Hf0 in Ha. vm_compute in Ha. injection Ha as <- <-.
    exfalso. clear -H1 R1. destruct c1 as [[] [] [] [] [] [] [] []]; vm_compute in H1, R1; congruence.
Qed.

Lemma unquote_piece x f q :
  invalid x = true \/ piece x ->
  unquote (S f) (escaped x ++ q) = '(s, r) ← unquote f q; Some (meaning x ++ s, r).
Proof.
  intros Hx. unfold meaning. destruct (invalid x) eqn:Hi; [unfold escaped; rewrite Hi; apply unquote_invalid|].
  destruct Hx as [|Hp]; [done|]. destruct x as [r p]. cbn [snd]. destruct p as [|c [|c' p]].
  - by destruct Hp.
  - destruct (piece_ascii c r Hp) as [Hc ->]. by apply unquote_ascii.
  - pose proof (piece_long _ _ _ _ Hp) as Hc. unfold escaped. rewrite Hi. cbn [snd fst]. case_decide as Hsep.
    + apply (separator_bytes _ _ Hp) in Hsep as E. rewrite E. by destruct Hsep as [-> | ->].
    + destruct Hp as (_ & _ & Hd). cbn [fst snd] in Hd. specialize (Hd q).
      change ((c :: c' :: p) ++ q) with (c :: (c' :: p) ++ q) in *. cbn [unquote].
      rewrite decide_False by (intros ->; vm_compute in Hc; by apply Hc).
      rewrite decide_False by (intros ->; vm_compute in Hc; by apply Hc).
      rewrite decide_False by lia. rewrite Hd.
      change (c :: (c' :: p) ++ q) with ((c :: c' :: p) ++ q). rewrite take_app_length, drop_app_length, Hi. done.
Qed.

Lemma unquote_pieces l f rest :
  Forall (fun x => invalid x = true \/ piece x) l -> (length l < f)%nat ->
  unquote f (concat (escaped <$> l) ++ quote :: rest) = Some (concat (meaning <$> l), rest).
Proof.
  intros Hl. revert f. induction Hl as [|x l Hx Hl IH]; intros f Hf; (destruct f as [|f]; [cbn in Hf; lia|]).
  - done.
  - rewrite !fmap_cons. cbn [concat]. rewrite <- app_assoc, unquote_piece by done. rewrite IH by (cbn in Hf; lia). done.
Qed.

(** The encoder's string, read back. *)
Lemma unquote_print s f rest :
  (length (concat (escaped <$> runes s)) < f)%nat ->
  unquote f (concat (escaped <$> runes s) ++ quote :: rest) = Some (json_bytes s, rest).
Proof.
  intros Hf. apply unquote_pieces; [apply runes_pieces|]. eapply Nat.le_lt_trans; [|exact Hf].
  assert (Forall (fun x => invalid x = true \/ piece x) (runes s)) as Hl by apply runes_pieces. revert Hl. generalize (runes s) as l. clear.
  intros l. induction 1 as [|x l Hx Hl IH]; [done|]. rewrite fmap_cons. cbn [concat length]. rewrite length_app.
  assert (1 <= length (escaped x))%nat; [|lia]. unfold escaped. destruct (invalid x); [cbn; lia|].
  destruct Hx as [|(Hne & _)]; [done|]. destruct x as [r [|c [|c' p]]]; [done| |]; cbn [snd fst].
  - repeat case_match; cbn; lia.
  - case_match; cbn; lia.
Qed.

(** ** Values come back *)

Lemma json_nested_ind (P : json -> Prop) :
  P JNull -> (forall b, P (JBool b)) -> (forall n, P (JNum n)) -> (forall s, P (JStr s)) ->
  (forall l, Forall P l -> P (JArr l)) -> (forall l, Forall (fun m => P m.2) l -> P (JObj l)) ->
  forall v, P v.
Proof.
  intros H1 H2 H3 H4 H5 H6. fix IH 1. intros [|b|n|s|l|l]; [done|done|done|done| |].
  - apply H5. induction l as [|v l IHl]; constructor; [apply IH|exact IHl].
  - apply H6. induction l as [|[k v] l IHl]; constructor; [apply IH|exact IHl].
Qed.

(** What may follow a value without being taken for a part of it. *)
Definition stops (p : bytes) : Prop :=
  match p with
  | [] => True
  | c :: _ => is_digit c = false /\ c <> "."%char /\ c <> "e"%char /\ c <> "E"%char
  end.
(** The text of a number. *)
Definition wf_num (n : bytes) : Prop := forall q, stops q -> number (n ++ q) = Some (n, q).
Fixpoint wf (v : json) : Prop :=
  match v with
  | JNum n => wf_num n
  | JArr l => foldr (fun v P => wf v /\ P) True l
  | JObj l => foldr (fun m P => wf m.2 /\ P) True l
  | _ => True
  end.
(** The steps the parser takes. *)
Fixpoint cost (v : json) : nat :=
  match v with
  | JArr l => S (foldr (fun v n => S (cost v + n)) 0%nat l)
  | JObj l => S (foldr (fun m n => S (cost m.2 + n)) 0%nat l)
  | _ => 1%nat
  end.

Lemma skip_ws_head c p : is_space c = false -> skip_ws (c :: p) = c :: p.
Proof. intros H. cbn. by rewrite H. Qed.

(** The first byte of a number, and of any value. *)
Definition num_start (c : ascii) : Prop := c = "-"%char \/ is_digit c = true.
Definition starts (p : bytes) : Prop :=
  exists c p', p = c :: p' /\ is_space c = false /\ c <> "]"%char /\ c <> "}"%char.

Lemma some_digits_head c p d r : some_digits (c :: p) = Some (d, r) -> is_digit c = true.
Proof. unfold some_digits. cbn [span_digits]. destruct (is_digit c); [done|]. by rewrite decide_True. Qed.

Lemma wf_num_head n : wf_num n -> exists c p, n = c :: p /\ num_start c.
Proof.
  intros Hn. specialize (Hn [] I). rewrite app_nil_r in Hn. destruct n as [|c p]; [done|]. exists c, p. split; [done|].
  unfold number in Hn. case_decide as Hc; [by left|right]. unfold int_part in Hn. case_decide as H0; [by subst|].
  destruct (some_digits (c :: p)) as [[d r]|] eqn:E; [|done]. by eapply some_digits_head.
Qed.

Lemma num_start_plain c : num_start c ->
  is_space c = false /\ c <> "]"%char /\ c <> "}"%char /\ c <> "{"%char /\ c <> "["%char /\ c <> quote /\
  c <> "t"%char /\ c <> "f"%char /\ c <> "n"%char.
Proof.
  intros [-> |Hd]; [done|]. unfold is_digit in Hd. split_and!; try (intros ->; done).
  destruct c as [[] [] [] [] [] [] [] []]; try done; vm_compute in Hd; discriminate.
Qed.

Lemma print_starts v : wf v -> starts (print v).
Proof.
  destruct v as [|[]|n|s|l|l]; intros Hw; try (eexists _, _; split; [reflexivity|done]).
  destruct (wf_num_head n Hw) as (c & p & -> & Hc). exists c, p. split; [done|]. pose proof (num_start_plain c Hc). tauto.
Qed.

(** The value comes back, whatever follows. *)
Definition comes_back (v : json) : Prop :=
  forall fuel rest, (cost v <= fuel)%nat -> stops rest -> parse_value fuel (print v ++ rest) = Some (clean v, rest).

Lemma commas_cons p l : l <> [] -> commas (p :: l) = p ++ text "," ++ commas l.
Proof. by destruct l. Qed.

Lemma elems_come_back l fuel rest :
  l <> [] -> Forall (fun v => wf v -> comes_back v) l -> foldr (fun v P => wf v /\ P) True l ->
  (foldr (fun v n => S (cost v + n)) 0 l <= fuel)%nat ->
  parse_elems fuel (commas (print <$> l) ++ text "]" ++ rest) = Some (clean <$> l, rest).
Proof.
  intros Hne Hl. revert fuel Hne. induction Hl as [|v l Hv Hl IH]; intros fuel Hne; [done|]. cbn [foldr]. intros [Hw Hws] Hf.
  destruct fuel as [|fuel]; [lia|]. specialize (Hv Hw). destruct l as [|v' l].
  - cbn [commas fmap list_fmap parse_elems]. rewrite Hv by (cbn; lia || done). done.
  - rewrite fmap_cons, commas_cons by done. rewrite <- !app_assoc. cbn [parse_elems].
    rewrite Hv by (cbn; lia || done). cbn [mbind option_bind text String.list_ascii_of_string app].
    rewrite skip_ws_head by done. rewrite decide_False, decide_True by done.
    rewrite IH; [done|done|done|lia].
Qed.

Definition print_member (m : bytes * json) : bytes := print_string m.1 ++ text ":" ++ print m.2.

Lemma print_obj l : print (JObj l) = text "{" ++ commas (print_member <$> l) ++ text "}".
Proof. done. Qed.

Lemma string_comes_back s rest :
  unquote (length (concat (escaped <$> runes s) ++ quote :: rest)) (concat (escaped <$> runes s) ++ quote :: rest) =
  Some (json_bytes s, rest).
Proof. apply unquote_print. rewrite length_app. cbn. lia. Qed.

Lemma members_come_back l fuel rest :
  l <> [] -> Forall (fun m => wf m.2 -> comes_back m.2) l -> foldr (fun m P => wf m.2 /\ P) True l ->
  (foldr (fun m n => S (cost m.2 + n)) 0 l <= fuel)%nat ->
  parse_members fuel (commas (print_member <$> l) ++ text "}" ++ rest) =
    Some ((fun m => (json_bytes m.1, clean m.2)) <$> l, rest).
Proof.
  intros Hne Hl. revert fuel Hne. induction Hl as [|[k v] l Hv Hl IH]; intros fuel Hne; [done|]. cbn [foldr snd]. intros [Hw Hws] Hf.
  destruct fuel as [|fuel]; [lia|]. cbn [snd] in Hv. specialize (Hv Hw).
  assert (forall q, stops q -> parse_members (S fuel) (print_member (k, v) ++ q) =
    match skip_ws q with
    | c :: r =>
        if decide (c = "}"%char) then Some ([(json_bytes k, clean v)], r)
        else if decide (c = ","%char) then '(l, r) ← parse_members fuel r; Some ((json_bytes k, clean v) :: l, r)
        else None
    | [] => None
    end) as Hm.
  { intros q Hq. unfold print_member, print_string. cbn [fst snd]. rewrite <- !app_assoc. cbn [parse_members app].
    rewrite skip_ws_head by done. cbn [after]. rewrite decide_True by done. cbn [mbind option_bind].
    rewrite string_comes_back. cbn [mbind option_bind text String.list_ascii_of_string app]. rewrite skip_ws_head by done.
    cbn [after]. rewrite decide_True by done. cbn [mbind option_bind]. rewrite Hv by (lia || done). done. }
  destruct l as [|m l].
  - cbn [commas fmap list_fmap]. rewrite Hm by done. done.
  - rewrite fmap_cons, commas_cons by done. rewrite <- !app_assoc, Hm by done.
    cbn [text String.list_ascii_of_string app]. rewrite skip_ws_head by done. rewrite decide_False, decide_True by done.
    rewrite IH; [done|done|done|lia].
Qed.

Lemma value_comes_back v : wf v -> comes_back v.
Proof.
  induction v as [|b|n|s|l IH|l IH] using json_nested_ind; intros Hw fuel rest Hf Hs;
    (destruct fuel as [|fuel]; [cbn in Hf; lia|]).
  - done.
  - by destruct b.
  - destruct (wf_num_head n Hw) as (c & p & E & Hc). pose proof (num_start_plain c Hc) as (H1 & _ & _ & H4 & H5 & H6 & H7 & H8 & H9).
    specialize (Hw rest Hs). cbn [print parse_value clean]. rewrite E in *. cbn [app] in *.
    rewrite skip_ws_head, !decide_False by done. by rewrite Hw.
  - cbn [print clean parse_value]. unfold print_string. rewrite <- !app_assoc. cbn [app]. rewrite skip_ws_head by done.
    rewrite !decide_False, decide_True by done. by rewrite string_comes_back.
  - cbn [print clean]. rewrite <- !app_assoc. cbn [text String.list_ascii_of_string app parse_value].
    rewrite skip_ws_head by done. rewrite decide_False, decide_True by done. destruct l as [|v l].
    + done.
    + assert (exists c p, commas (print <$> v :: l) ++ "]"%char :: rest = c :: p /\ is_space c = false /\ c <> "]"%char)
        as (c & p & E & H1 & H2).
      { destruct (print_starts v (proj1 Hw)) as (c & p & E & H1 & H2 & _). rewrite fmap_cons. exists c. destruct l as [|v' l].
        - cbn [fmap list_fmap commas]. rewrite E. by eexists.
        - rewrite commas_cons, E by done. by eexists. }
      rewrite E, skip_ws_head by done. cbn [after]. rewrite decide_False by congruence. rewrite <- E.
      change ("]"%char :: rest) with (text "]" ++ rest). rewrite elems_come_back; [done|done|done|done|].
      cbn [cost] in Hf. lia.
  - cbn [clean]. rewrite print_obj, <- !app_assoc. cbn [text String.list_ascii_of_string app parse_value].
    rewrite skip_ws_head by done. rewrite decide_True by done. destruct l as [|m l].
    + done.
    + assert (exists p, commas (print_member <$> m :: l) ++ "}"%char :: rest = quote :: p) as [p E].
      { rewrite fmap_cons. destruct l as [|m' l].
        - by eexists.
        - rewrite commas_cons by done. by eexists. }
      rewrite E, skip_ws_head by done. cbn [after]. rewrite decide_False by done. rewrite <- E.
      change ("}"%char :: rest) with (text "}" ++ rest). rewrite members_come_back; [done|done|done|done|].
      cbn [cost] in Hf. lia.
Qed.

Lemma length_commas l : l <> [] -> (length (commas l) + 1 = foldr (fun p n => length p + 1 + n) 0 l)%nat.
Proof.
  induction l as [|p l IH]; intros Hne; [done|]. destruct l as [|p' l]; [cbn; lia|].
  rewrite commas_cons by done. rewrite !length_app. cbn [foldr length text String.list_ascii_of_string] in *.
  specialize (IH ltac:(done)). lia.
Qed.

Lemma cost_print v : wf v -> (cost v <= 2 * length (print v))%nat.
Proof.
  induction v as [|b|n|s|l IH|l IH] using json_nested_ind; intros Hw.
  - cbn. lia.
  - destruct b; cbn; lia.
  - destruct (wf_num_head n Hw) as (c & p & -> & _). cbn. lia.
  - cbn. lia.
  - cbn [cost print]. rewrite !length_app. cbn [length text String.list_ascii_of_string].
    destruct l as [|v l]; [cbn; lia|]. assert (print <$> v :: l <> []) as Hlen%length_commas by done.
    assert (foldr (fun v n => S (cost v + n)) 0 (v :: l) <= 2 * foldr (fun p n => length p + 1 + n) 0 (print <$> v :: l))%nat; [|lia].
    clear Hlen. induction IH as [|w l' Hw' IH' IHl]; [cbn; lia|]. destruct Hw as [Hww Hws].
    rewrite fmap_cons. cbn [foldr]. specialize (IHl Hws). specialize (Hw' Hww). lia.
  - cbn [cost]. rewrite print_obj, !length_app. cbn [length text String.list_ascii_of_string].
    destruct l as [|m l]; [cbn; lia|]. assert (print_member <$> m :: l <> []) as Hlen%length_commas by done.
    assert (foldr (fun m n => S (cost m.2 + n)) 0 (m :: l) <= 2 * foldr (fun p n => length p + 1 + n) 0 (print_member <$> m :: l))%nat; [|lia].
    clear Hlen. induction IH as [|w l' Hw' IH' IHl]; [cbn; lia|]. destruct Hw as [Hww Hws].
    rewrite fmap_cons. cbn [foldr]. specialize (IHl Hws). specialize (Hw' Hww). unfold print_member at 1. rewrite !length_app. lia.
Qed.

(** The decoder reads what the encoder writes: the same value, with its strings in valid UTF-8. *)
Lemma parse_print v : wf v -> parse (print v) = Some (clean v).
Proof.
  intros Hw. unfold parse. pose proof (value_comes_back v Hw (S (2 * length (print v))) []) as H.
  rewrite app_nil_r in H. rewrite H; [done| |done]. pose proof (cost_print v Hw). lia.
Qed.
End JsonText.
