(* ===== verification/ShardCfg.v ===== *)
(** * ShardCfg: shard configurations (src/src/shardkv1/shardcfg/shardcfg.go)

    Which group serves which shard, and how groups join and leave.  A map is ranged over
    in an order Go does not specify: where the order matters (Join) it is an argument. *)
From S2P Require Import Prelude GoText.
Local Open Scope Z_scope.
Local Open Scope go_scope.

Module ShardCfg.
Import Fnv.

(** ** Data *)

Definition NShards : Z := 12.
Definition NumFirst : Z := 1.
Definition Gid1 : Z := 1.

(** The array [Shards] has length [NShards]. *)
Record ShardConfig := MkShardConfig {
  Num : Z;
  Shards : list Z;
  Groups : gmap Z (list string);
}.

Definition Key2Shard (key : string) : Z := Z.rem (fnv32a key) NShards.

Definition MakeShardConfig : ShardConfig :=
  MkShardConfig 0 (replicate (Z.to_nat NShards) 0) ∅.

(** A configuration of its own, with slices of its own. *)
Definition Copy (cfg : ShardConfig) : ShardConfig :=
  MkShardConfig (Num cfg) (Shards cfg)
    (map_fold (fun k srvs groups => <[k := srvs]> groups) (Groups MakeShardConfig) (Groups cfg)).

(** ** Balancing *)

(** [counts[g]], 0 for a group that is not a key. *)
Definition get (counts : gmap Z Z) (g : Z) : Z := default 0 (counts !! g).

(** [for _, g := range c.Shards { counts[g] += 1 }] *)
Definition count_shards (shards : list Z) : gmap Z Z :=
  fold_left (fun counts g => <[g := get counts g + 1]> counts) shards ∅.

(** The loop over the sorted groups: [mg, mn, lg, ln]. *)
Fixpoint analyze_loop (counts : gmap Z Z) (groups : list Z) (mg mn lg ln : Z) : Z * Z * Z * Z :=
  match groups with
  | [] => (mg, mn, lg, ln)
  | g :: groups =>
      let '(ln, lg) := if decide (get counts g < ln) then (get counts g, g) else (ln, lg) in
      let '(mn, mg) := if decide (get counts g > mn) then (get counts g, g) else (mn, mg) in
      analyze_loop counts groups mg mn lg ln
  end.

Definition sorted_groups (c : ShardConfig) : list Z := merge_sort Z.le (elements (dom (Groups c))).

Definition analyze (c : ShardConfig) : Z * Z * Z * Z :=
  analyze_loop (count_shards (Shards c)) (sorted_groups c) (-1) (-1) (-1) 257.

Definition least (c : ShardConfig) : Z :=
  let '(_, _, lg, _) := analyze c in lg.

Definition set_shards (c : ShardConfig) (shards : list Z) : ShardConfig :=
  MkShardConfig (Num c) shards (Groups c).

(** [for s, g := range c.Shards]: the range is over a copy of the array, [l] from its
    position [s] on. *)
Fixpoint assign_loop (s : nat) (l : list Z) (c : ShardConfig) : ShardConfig :=
  match l with
  | [] => c
  | g :: l =>
      assign_loop (S s) l
        (match Groups c !! g with
         | Some _ => c
         | None => set_shards c (<[s := least c]> (Shards c))
         end)
  end.

(** The first shard of [mg] is given to [lg]. *)
Fixpoint move_shard (mg lg : Z) (shards : list Z) : list Z :=
  match shards with
  | [] => []
  | g :: shards => if decide (g = mg) then lg :: shards else g :: move_shard mg lg shards
  end.

Fixpoint balance_loop (fuel : nat) (c : ShardConfig) : res ShardConfig :=
  match fuel with
  | O => Panic OutOfFuel
  | S fuel =>
      let '(mg, mn, lg, ln) := analyze c in
      if decide (mn < ln + 2) then Ret c
      else balance_loop fuel (set_shards c (move_shard mg lg (Shards c)))
  end.

(** Each move takes at least one pair of shards of one group apart, and there are at most
    the square of their number. *)
Definition balance_fuel (c : ShardConfig) : nat := S (length (Shards c) * length (Shards c)).

Definition Rebalance (c : ShardConfig) : res ShardConfig :=
  if decide (Z.of_nat (size (Groups c)) < 1) then Ret (set_shards c ((fun _ => 0) <$> Shards c))
  else
    let c := assign_loop 0 (Shards c) c in
    balance_loop (balance_fuel c) c.

(** ** Groups join and leave

    The result is the configuration as the method leaves it, and its answer. *)

(** A server of [servers] is already in a group. *)
Definition shares_server (groups : gmap Z (list string)) (servers : list string) : bool :=
  existsb (fun g => existsb (fun s1 => existsb (fun s2 => bool_decide (s1 = s2)) servers) g.2)
    (map_to_list groups).

(** The range over the map [servers], in some order; [changed] as in the code. *)
Fixpoint Join_loop (servers : list (Z * list string)) (changed : bool) (cfg : ShardConfig)
  : res (ShardConfig * bool) :=
  match servers with
  | [] =>
      if changed then Ret (MkShardConfig (swrap 64 (Num cfg + 1)) (Shards cfg) (Groups cfg), true)
      else Panic Fatal
  | (gid, srvs) :: servers =>
      match Groups cfg !! gid with
      | Some _ => Ret (cfg, false)
      | None =>
          if shares_server (Groups cfg) srvs then Panic Fatal
          else Join_loop servers true
                 (MkShardConfig (Num cfg) (Shards cfg) (<[gid := srvs]> (Groups cfg)))
      end
  end.
Definition Join (servers : list (Z * list string)) (cfg : ShardConfig) : res (ShardConfig * bool) :=
  Join_loop servers false cfg.

Fixpoint Leave_loop (gids : list Z) (changed : bool) (cfg : ShardConfig)
  : res (ShardConfig * bool) :=
  match gids with
  | [] =>
      if changed then Ret (MkShardConfig (swrap 64 (Num cfg + 1)) (Shards cfg) (Groups cfg), true)
      else Panic Fatal
  | gid :: gids =>
      match Groups cfg !! gid with
      | None => Ret (cfg, false)
      | Some _ => Leave_loop gids true
                    (MkShardConfig (Num cfg) (Shards cfg) (delete gid (Groups cfg)))
      end
  end.
Definition Leave (gids : list Z) (cfg : ShardConfig) : res (ShardConfig * bool) :=
  Leave_loop gids false cfg.

Definition JoinBalance (servers : list (Z * list string)) (cfg : ShardConfig)
  : res (ShardConfig * bool) :=
  let! (cfg, ok) := Join servers cfg in
  if ok then let! cfg := Rebalance cfg in Ret (cfg, true) else Ret (cfg, false).

Definition LeaveBalance (gids : list Z) (cfg : ShardConfig) : res (ShardConfig * bool) :=
  let! (cfg, ok) := Leave gids cfg in
  if ok then let! cfg := Rebalance cfg in Ret (cfg, true) else Ret (cfg, false).

(** ** Queries *)

Definition GidServers (sh : Z) (cfg : ShardConfig) : res (Z * list string * bool) :=
  let! gid := idx (Shards cfg) sh in
  Ret (gid, default [] (Groups cfg !! gid), bool_decide (is_Some (Groups cfg !! gid))).

Definition IsMember (gid : Z) (cfg : ShardConfig) : bool :=
  existsb (fun g => bool_decide (g = gid)) (Shards cfg).

(** [t.Fatalf] ends the test. *)
Definition require (b : bool) : res unit := if b then Ret tt else Panic Fatal.

(** The loop over the groups: the largest and the smallest count. *)
Definition min_max (counts : gmap Z Z) (groups : list Z) : Z * Z :=
  fold_left (fun '(min, max) g =>
    (if decide (get counts g < min) then get counts g else min,
     if decide (get counts g > max) then get counts g else max)) groups (257, 0).

Definition CheckConfig (groups : list Z) (cfg : ShardConfig) : res unit :=
  let! _ := require (bool_decide (size (Groups cfg) = length groups)) in
  let! _ := require (forallb (fun g => bool_decide (is_Some (Groups cfg !! g))) groups) in
  let! _ := require (bool_decide (groups = []) ||
                     forallb (fun g => bool_decide (is_Some (Groups cfg !! g))) (Shards cfg)) in
  let '(min, max) := min_max (count_shards (Shards cfg)) (elements (dom (Groups cfg))) in
  require (bool_decide (~ max > min + 1)).

(** ** Counting shards *)

Definition cnt (g : Z) (l : list Z) : Z := zlen (filter (fun x => x = g) l).

Lemma cnt_cons g x l : cnt g (x :: l) = (if decide (x = g) then 1 else 0) + cnt g l.
Proof. unfold cnt. rewrite filter_cons. case_decide; [by rewrite zlen_cons|lia]. Qed.

Lemma cnt_app g l l' : cnt g (l ++ l') = cnt g l + cnt g l'.
Proof. unfold cnt. by rewrite filter_app, zlen_app. Qed.

Lemma cnt_range g l : 0 <= cnt g l <= zlen l.
Proof. unfold cnt, zlen. pose proof (length_filter (fun x => x = g) l). lia. Qed.

Lemma cnt_elem g l : 0 < cnt g l -> g ∈ l.
Proof.
  induction l as [|x l IH]; [done|]. rewrite cnt_cons. case_decide as Hx; [subst; by left|].
  intros. right. by apply IH.
Qed.

Lemma count_shards_get l g : get (count_shards l) g = cnt g l.
Proof.
  unfold count_shards. enough (forall m, get (fold_left (fun counts g => <[g := get counts g + 1]> counts) l m) g
    = get m g + cnt g l) as H by (rewrite H; unfold get; by rewrite lookup_empty).
  induction l as [|x l IH]; intros m; cbn [fold_left]; [change (cnt g []) with 0; lia|].
  rewrite IH, cnt_cons. unfold get. case_decide as Hx.
  - subst x. rewrite lookup_insert_eq. cbn. lia.
  - by rewrite lookup_insert_ne.
Qed.

Section analyze.
Context (counts : gmap Z Z).

Lemma analyze_loop_spec groups mg mn lg ln mg' mn' lg' ln' :
  analyze_loop counts groups mg mn lg ln = (mg', mn', lg', ln') ->
  mn <= mn' /\ ln' <= ln /\
  (forall g, g ∈ groups -> ln' <= get counts g <= mn') /\
  ((mg' = mg /\ mn' = mn) \/ (mg' ∈ groups /\ mn' = get counts mg')) /\
  ((lg' = lg /\ ln' = ln) \/ (lg' ∈ groups /\ ln' = get counts lg')).
Proof.
  revert mg mn lg ln. induction groups as [|g groups IH]; intros mg mn lg ln H; cbn in H.
  - simplify_eq. split_and!; try lia; intros g Hg; by apply elem_of_nil in Hg.
  - set (a := if decide (get counts g < ln) then (get counts g, g) else (ln, lg)) in H.
    set (b := if decide (get counts g > mn) then (get counts g, g) else (mn, mg)) in H.
    destruct a as [ln1 lg1] eqn:Ea. destruct b as [mn1 mg1] eqn:Eb. unfold a in Ea. unfold b in Eb.
    apply IH in H as (H1 & H2 & H3 & H4 & H5). clear a b IH.
    assert (ln1 <= ln /\ ln1 <= get counts g /\ ((ln1 = ln /\ lg1 = lg) \/ (ln1 = get counts g /\ lg1 = g)))
      as (? & ? & Hl).
    { clear Eb. case_decide; simplify_eq; (split_and!; [lia|lia|]); [by right|by left]. }
    assert (mn <= mn1 /\ get counts g <= mn1 /\ ((mn1 = mn /\ mg1 = mg) \/ (mn1 = get counts g /\ mg1 = g)))
      as (? & ? & Hm).
    { clear Ea. case_decide; simplify_eq; (split_and!; [lia|lia|]); [by right|by left]. }
    clear Ea Eb. split_and!; try lia.
    + intros x [->|Hx]%elem_of_cons; [lia|by apply H3].
    + destruct H4 as [[-> ->]|[? ->]]; [|right; by split; [right|]].
      destruct Hm as [[-> ->]|[-> ->]]; [by left|right]. by split; [left|].
    + destruct H5 as [[-> ->]|[? ->]]; [|right; by split; [right|]].
      destruct Hl as [[-> ->]|[-> ->]]; [by left|right]. by split; [left|].
Qed.
End analyze.

Lemma sorted_groups_elem c g : g ∈ sorted_groups c <-> g ∈ dom (Groups c).
Proof. unfold sorted_groups. by rewrite merge_sort_Permutation, elem_of_elements. Qed.

(** A configuration whose array has the right length, with some group. *)
Definition sized (c : ShardConfig) : Prop := zlen (Shards c) = NShards.
Definition nonempty (c : ShardConfig) : Prop := exists g, g ∈ dom (Groups c).

(** [analyze] finds a group with the most shards and one with the fewest. *)
Lemma analyze_spec c mg mn lg ln :
  sized c -> nonempty c -> analyze c = (mg, mn, lg, ln) ->
  mg ∈ dom (Groups c) /\ lg ∈ dom (Groups c) /\
  mn = cnt mg (Shards c) /\ ln = cnt lg (Shards c) /\
  forall g, g ∈ dom (Groups c) -> ln <= cnt g (Shards c) <= mn.
Proof.
  intros Hs [g0 Hg0] H. apply analyze_loop_spec in H as (H1 & H2 & H3 & H4 & H5).
  setoid_rewrite sorted_groups_elem in H3. setoid_rewrite count_shards_get in H3.
  rewrite sorted_groups_elem in H4, H5. rewrite !count_shards_get in *.
  pose proof (H3 g0 Hg0). pose proof (cnt_range g0 (Shards c)). unfold sized, NShards in Hs.
  destruct H4 as [[? ?]|[? ?]]; [lia|]. destruct H5 as [[? ?]|[? ?]]; [lia|]. by split_and!.
Qed.

Lemma least_group c : sized c -> nonempty c -> least c ∈ dom (Groups c).
Proof.
  intros Hs Hn. unfold least. destruct (analyze c) as [[[mg mn] lg] ln] eqn:E.
  by apply analyze_spec in E as (_ & ? & _).
Qed.

(** ** Assigning the shards without a group *)

Definition valid (c : ShardConfig) (g : Z) : Prop := g ∈ dom (Groups c).

Lemma assign_loop_spec s l c :
  sized c -> nonempty c -> l = drop s (Shards c) ->
  let c' := assign_loop s l c in
  Num c' = Num c /\ Groups c' = Groups c /\ sized c' /\
  (forall i, (i < s)%nat -> Shards c' !! i = Shards c !! i) /\
  (forall i g, (s <= i)%nat -> Shards c !! i = Some g ->
     exists g', Shards c' !! i = Some g' /\ valid c g' /\ (valid c g -> g' = g)).
Proof.
  intros Hs Hn. revert s c Hs Hn. induction l as [|g l IH]; intros s c Hs Hn Hl; cbn [assign_loop].
  - split_and!; try done. intros i g Hi Hg%lookup_lt_Some.
    apply (f_equal length) in Hl. rewrite length_drop in Hl. cbn in Hl. lia.
  - set (c1 := match Groups c !! g with Some _ => c | None => set_shards c (<[s := least c]> (Shards c)) end).
    assert (Shards c !! s = Some g) as Hg.
    { rewrite <- (Nat.add_0_r s), <- lookup_drop, <- Hl. done. }
    assert (exists g1, Shards c1 = <[s := g1]> (Shards c) /\ Num c1 = Num c /\ Groups c1 = Groups c /\
      valid c g1 /\ (valid c g -> g1 = g)) as (g1 & E1 & E2 & E3 & Hv & Hkeep).
    { unfold c1, valid. destruct (Groups c !! g) as [x|] eqn:E.
      - exists g. split_and!; [by rewrite list_insert_id|done|done| |done].
        apply elem_of_dom. by eexists.
      - exists (least c). split_and!; [done..|by apply least_group|].
        rewrite elem_of_dom, E. by intros [? ?]. }
    assert (s < length (Shards c))%nat as Hlt by (by eapply lookup_lt_Some).
    destruct (IH (S s) c1) as (F1 & F2 & F3 & F4 & F5).
    + unfold sized. by rewrite E1, zlen_insert.
    + unfold nonempty. by rewrite E3.
    + rewrite E1, drop_insert_lt by lia. rewrite (drop_S _ _ _ Hg) in Hl. by injection Hl.
    + cbv zeta. split_and!; [congruence|congruence|done|..].
      * intros i Hi. rewrite F4 by lia. rewrite E1, list_lookup_insert_ne by lia. done.
      * intros i x Hi Hx. destruct (decide (i = s)) as [->|Hne].
        -- exists g1. rewrite F4 by lia. rewrite E1, list_lookup_insert_eq by done.
           split_and!; [done|done|]. simplify_eq. done.
        -- destruct (F5 i x) as (g' & ? & Hv' & Hk'); [lia| |].
           { by rewrite E1, list_lookup_insert_ne by done. }
           unfold valid in *. rewrite E3 in *. by exists g'.
Qed.

(** ** Moving shards *)

Lemma move_shard_split mg lg l :
  mg ∈ l -> exists l1 l2, l = l1 ++ mg :: l2 /\ move_shard mg lg l = l1 ++ lg :: l2.
Proof.
  induction l as [|x l IH]; [by intros ?%elem_of_nil|]. cbn [move_shard]. intros Hin.
  case_decide as Hx; [subst x; by exists [], l|].
  apply elem_of_cons in Hin as [?|Hin]; [done|]. destruct (IH Hin) as (l1 & l2 & -> & ->).
  by exists (x :: l1), l2.
Qed.

(** The number of pairs of shards of one group. *)
Fixpoint energy (l : list Z) : Z :=
  match l with [] => 0 | x :: l => energy l + 2 * cnt x l + 1 end.

Lemma cnt_perm g l l' : l ≡ₚ l' -> cnt g l = cnt g l'.
Proof. intros Hp. unfold cnt, zlen. by rewrite Hp. Qed.

Lemma energy_perm l l' : l ≡ₚ l' -> energy l = energy l'.
Proof.
  induction 1 as [|x l l' Hp IH|x y l|]; cbn [energy]; [done| | |congruence].
  - by rewrite IH, (cnt_perm x l l' Hp).
  - rewrite !cnt_cons. repeat case_decide; simplify_eq; lia.
Qed.

Lemma energy_bound l : 0 <= energy l <= zlen l * zlen l.
Proof.
  induction l as [|x l IH]; [done|]. cbn [energy]. rewrite zlen_cons. pose proof (cnt_range x l). nia.
Qed.

Lemma move_energy mg lg l :
  mg ∈ l -> mg <> lg -> energy (move_shard mg lg l) = energy l - 2 * (cnt mg l - 1) + 2 * cnt lg l.
Proof.
  intros Hin Hne. destruct (move_shard_split mg lg l Hin) as (l1 & l2 & -> & ->).
  rewrite (energy_perm (l1 ++ lg :: l2) (lg :: (l1 ++ l2))) by (by rewrite Permutation_middle).
  rewrite (energy_perm (l1 ++ mg :: l2) (mg :: (l1 ++ l2))) by (by rewrite Permutation_middle).
  rewrite !(cnt_perm _ (l1 ++ mg :: l2) (mg :: (l1 ++ l2))) by (by rewrite Permutation_middle).
  cbn [energy]. rewrite !cnt_cons. rewrite decide_True by done. rewrite decide_False by done. lia.
Qed.

(** What balancing must reach. *)
Definition all_valid (c : ShardConfig) : Prop := forall g, g ∈ Shards c -> valid c g.
Definition balanced (c : ShardConfig) : Prop :=
  forall g g', valid c g -> valid c g' -> cnt g (Shards c) <= cnt g' (Shards c) + 1.

Lemma analyze_balanced c mg mn lg ln :
  sized c -> nonempty c -> analyze c = (mg, mn, lg, ln) -> mn < ln + 2 <-> balanced c.
Proof.
  intros Hs Hn Ha. apply analyze_spec in Ha as (Hmg & Hlg & -> & -> & Hb); [|done..]. split.
  - intros Hlt g g' Hg Hg'. pose proof (Hb g Hg). pose proof (Hb g' Hg'). lia.
  - intros Hbal. pose proof (Hbal mg lg Hmg Hlg). lia.
Qed.

Lemma balance_loop_spec fuel c :
  sized c -> nonempty c -> all_valid c -> energy (Shards c) < Z.of_nat fuel ->
  exists c', balance_loop fuel c = Ret c' /\ Num c' = Num c /\ Groups c' = Groups c /\ sized c' /\
    all_valid c' /\ balanced c' /\ (balanced c -> c' = c).
Proof.
  revert c. induction fuel as [|fuel IH]; intros c Hs Hn Hv Hf;
    [pose proof (energy_bound (Shards c)); lia|].
  cbn [balance_loop]. destruct (analyze c) as [[[mg mn] lg] ln] eqn:Ha.
  pose proof (analyze_balanced _ _ _ _ _ Hs Hn Ha) as Hb.
  case_decide as Hlt.
  - exists c. split_and!; try done. by apply Hb.
  - apply analyze_spec in Ha as (Hmg & Hlg & -> & -> & _); [|done..].
    assert (mg <> lg) as Hne by (intros ->; lia).
    assert (mg ∈ Shards c) as Hin.
    { apply cnt_elem. pose proof (cnt_range lg (Shards c)). lia. }
    pose proof (move_energy mg lg _ Hin Hne) as He.
    pose proof (move_shard_split mg lg _ Hin) as (l1 & l2 & E1 & E2).
    destruct (IH (set_shards c (move_shard mg lg (Shards c)))) as (c' & -> & ? & ? & ? & ? & ? & _).
    + unfold sized in *. cbn [set_shards Shards]. rewrite E2. rewrite E1 in Hs.
      rewrite zlen_app, zlen_cons in Hs |- *. lia.
    + done.
    + intros g. cbn [set_shards Shards]. rewrite E2. intros Hg. change (valid c g).
      apply elem_of_app in Hg as [Hg|[->|Hg]%elem_of_cons]; [|done|];
        apply Hv; rewrite E1; apply elem_of_app; [by left|right; by right].
    + cbn [set_shards Shards]. lia.
    + exists c'. split_and!; try done. intros Hbal. by apply Hb in Hbal.
Qed.

(** ** Rebalance *)

(** What Rebalance does to [c]. *)
Definition rebalanced (c c' : ShardConfig) : Prop :=
  Num c' = Num c /\ Groups c' = Groups c /\ sized c' /\
  (Groups c = ∅ -> forall g, g ∈ Shards c' -> g = 0) /\
  (Groups c <> ∅ -> all_valid c') /\ balanced c' /\
  (all_valid c -> balanced c -> Groups c <> ∅ -> c' = c).

Lemma nonempty_groups c : Groups c <> ∅ <-> nonempty c.
Proof.
  unfold nonempty. split.
  - intros Hne. apply map_choose in Hne as (g & x & Hg). exists g. apply elem_of_dom. by eexists.
  - intros [g Hg] He. rewrite He, dom_empty in Hg. by apply not_elem_of_empty in Hg.
Qed.

Lemma assign_all_valid c :
  sized c -> nonempty c ->
  let c' := assign_loop 0 (Shards c) c in
  Num c' = Num c /\ Groups c' = Groups c /\ sized c' /\ all_valid c' /\ (all_valid c -> c' = c).
Proof.
  intros Hs Hn. destruct (assign_loop_spec 0 (Shards c) c Hs Hn) as (H1 & H2 & H3 & _ & H5); [done|].
  cbv zeta. assert (length (Shards (assign_loop 0 (Shards c) c)) = length (Shards c)) as Hl.
  { unfold sized, zlen in *. lia. }
  split_and!; try done.
  - intros g [i Hi]%list_elem_of_lookup.
    destruct (lookup_lt_is_Some_2 (Shards c) i) as [x Hx].
    { rewrite <- Hl. by eapply lookup_lt_Some. }
    destruct (H5 i x ltac:(lia) Hx) as (g' & Hg' & Hv & _). unfold valid in *. rewrite H2.
    by simplify_eq.
  - intros Hv. assert (Shards (assign_loop 0 (Shards c) c) = Shards c) as Heq.
    { apply list_eq. intros i. destruct (Shards c !! i) as [x|] eqn:Hx.
      - destruct (H5 i x ltac:(lia) Hx) as (g' & -> & _ & Hk). f_equal. apply Hk, Hv.
        by eapply list_elem_of_lookup_2.
      - apply lookup_ge_None. rewrite Hl. by apply lookup_ge_None. }
    destruct c, (assign_loop 0 _ _); cbn in *. congruence.
Qed.

(** A group that has a shard, and is still there, keeps one. *)
Lemma assign_keeps c g :
  sized c -> nonempty c -> valid c g -> g ∈ Shards c -> g ∈ Shards (assign_loop 0 (Shards c) c).
Proof.
  intros Hs Hn Hv [i Hi]%list_elem_of_lookup. destruct (assign_loop_spec 0 (Shards c) c Hs Hn) as (_ & _ & _ & _ & H5); [done|].
  destruct (H5 i g ltac:(lia) Hi) as (g' & Hg' & _ & Hk). rewrite Hk in Hg' by done. by eapply list_elem_of_lookup_2.
Qed.

Lemma balance_loop_keeps fuel c c' g :
  sized c -> nonempty c -> balance_loop fuel c = Ret c' -> g ∈ Shards c -> g ∈ Shards c'.
Proof.
  revert c. induction fuel as [|fuel IH]; intros c Hs Hn Hr Hg; [done|]. cbn [balance_loop] in Hr.
  destruct (analyze c) as [[[mg mn] lg] ln] eqn:Ha. case_decide; [by simplify_eq|].
  apply analyze_spec in Ha as (_ & _ & -> & -> & _); [|done..].
  pose proof (cnt_range lg (Shards c)).
  destruct (move_shard_split mg lg (Shards c)) as (l1 & l2 & E1 & E2); [apply cnt_elem; lia|].
  apply (IH _) in Hr; [done|..].
  - unfold sized in *. cbn [set_shards Shards]. rewrite E2. rewrite E1, zlen_app, zlen_cons in Hs. by rewrite zlen_app, zlen_cons.
  - done.
  - cbn [set_shards Shards]. rewrite E2. destruct (decide (g = mg)) as [->|Hne].
    + assert (mg ∈ l1 ++ l2) as Hin.
      { apply cnt_elem. rewrite E1, !cnt_app, !cnt_cons, decide_True in * by done. case_decide; lia. }
      set_solver.
    + rewrite E1 in Hg. set_solver.
Qed.

Lemma Rebalance_keeps c c' g :
  sized c -> Rebalance c = Ret c' -> valid c g -> g ∈ Shards c -> g ∈ Shards c'.
Proof.
  intros Hs Hr Hv Hg. assert (nonempty c) as Hn by (by exists g). unfold Rebalance in Hr. case_decide as Hsz.
  - apply nonempty_groups in Hn. destruct Hn. apply map_size_empty_inv. lia.
  - destruct (assign_all_valid c Hs Hn) as (_ & HG & Hs1 & _). eapply balance_loop_keeps; [exact Hs1| |exact Hr|].
    + unfold nonempty. by rewrite HG.
    + by apply assign_keeps.
Qed.

Lemma Rebalance_spec c : sized c -> exists c', Rebalance c = Ret c' /\ rebalanced c c'.
Proof.
  intros Hs. unfold Rebalance. case_decide as Hsz.
  - assert (Groups c = ∅) as He by (apply map_size_empty_inv; lia).
    eexists. split; [done|]. split_and!; try done.
    + unfold sized, zlen. cbn [set_shards Shards]. rewrite length_fmap. done.
    + intros _ g (x & -> & _)%list_elem_of_fmap. done.
    + intros g g' Hg. unfold valid in Hg. cbn [set_shards Groups] in Hg. rewrite He, dom_empty in Hg.
      by apply not_elem_of_empty in Hg.
  - assert (nonempty c) as Hn.
    { apply nonempty_groups. intros He. rewrite He, map_size_empty in Hsz. lia. }
    destruct (assign_all_valid c Hs Hn) as (H1 & H2 & H3 & H4 & H5).
    set (c1 := assign_loop 0 (Shards c) c) in *.
    destruct (balance_loop_spec (balance_fuel c1) c1) as (c' & -> & ? & ? & ? & ? & ? & Hsame).
    + done.
    + unfold nonempty. by rewrite H2.
    + done.
    + pose proof (energy_bound (Shards c1)). unfold balance_fuel, zlen in *. lia.
    + exists c'. split; [done|]. apply nonempty_groups in Hn. split_and!; try done; try congruence.
      intros Hv Hb _. rewrite <- (H5 Hv). apply Hsame. by rewrite (H5 Hv).
Qed.

(** ** CheckConfig *)

Section min_max.
Context (counts : gmap Z Z).

Lemma min_max_spec groups min max min' max' :
  fold_left (fun '(min, max) g =>
    (if decide (get counts g < min) then get counts g else min,
     if decide (get counts g > max) then get counts g else max)) groups (min, max) = (min', max') ->
  min' <= min /\ max <= max' /\ (forall g, g ∈ groups -> min' <= get counts g <= max') /\
  (min' = min \/ exists g, g ∈ groups /\ min' = get counts g) /\
  (max' = max \/ exists g, g ∈ groups /\ max' = get counts g).
Proof.
  revert min max. induction groups as [|g groups IH]; intros min max H; cbn [fold_left] in H.
  - simplify_eq. split_and!; [lia|lia| |by left|by left]. intros g Hg. by apply elem_of_nil in Hg.
  - apply IH in H as (H1 & H2 & H3 & H4 & H5). split_and!.
    + clear -H1. case_decide; lia.
    + clear -H2. case_decide; lia.
    + intros x [->|Hx]%elem_of_cons; [|by apply H3]. split.
      * clear -H1. case_decide; lia.
      * clear -H2. case_decide; lia.
    + destruct H4 as [->|(x & ? & ->)]; [|right; exists x; by split; [right|]].
      clear -groups. case_decide; [right; exists g; by split; [left|]|by left].
    + destruct H5 as [->|(x & ? & ->)]; [|right; exists x; by split; [right|]].
      clear -groups. case_decide; [right; exists g; by split; [left|]|by left].
Qed.
End min_max.

Lemma min_max_balanced c min max :
  sized c -> min_max (count_shards (Shards c)) (elements (dom (Groups c))) = (min, max) ->
  ~ max > min + 1 <-> balanced c.
Proof.
  intros Hs H. apply min_max_spec in H as (H1 & H2 & H3 & H4 & H5).
  setoid_rewrite elem_of_elements in H3. setoid_rewrite elem_of_elements in H4.
  setoid_rewrite elem_of_elements in H5. setoid_rewrite count_shards_get in H3.
  setoid_rewrite count_shards_get in H4. setoid_rewrite count_shards_get in H5.
  unfold balanced, valid. split.
  - intros Hb g g' Hg Hg'. pose proof (H3 g Hg). pose proof (H3 g' Hg'). lia.
  - intros Hb. destruct H5 as [->|(g & Hg & ->)], H4 as [->|(g' & Hg' & ->)].
    + lia.
    + pose proof (cnt_range g' (Shards c)). lia.
    + pose proof (cnt_range g (Shards c)). unfold sized, NShards in Hs. lia.
    + pose proof (Hb g g' Hg Hg'). lia.
Qed.

Lemma require_Ret b : require b = Ret tt <-> b = true.
Proof. by destruct b. Qed.

Lemma forallb_valid c l :
  forallb (fun g => bool_decide (is_Some (Groups c !! g))) l = true <-> forall g, g ∈ l -> valid c g.
Proof.
  rewrite forallb_forall. unfold valid. setoid_rewrite elem_of_dom. setoid_rewrite bool_decide_eq_true.
  split; intros H g Hg; apply H; by apply list_elem_of_In.
Qed.

(** The check passes exactly on the configurations it describes. *)
Lemma CheckConfig_spec groups c :
  sized c ->
  CheckConfig groups c = Ret tt <->
    size (Groups c) = length groups /\ (forall g, g ∈ groups -> valid c g) /\
    (groups = [] \/ all_valid c) /\ balanced c.
Proof.
  intros Hs. unfold CheckConfig.
  destruct (min_max _ _) as [min max] eqn:Hmm. pose proof (min_max_balanced _ _ _ Hs Hmm) as Hb.
  rewrite res_bind_Ret. setoid_rewrite res_bind_Ret. setoid_rewrite res_bind_Ret.
  split.
  - intros ([] & H1 & [] & H2 & [] & H3 & H4). rewrite require_Ret in *.
    rewrite orb_true_iff, forallb_valid in *. rewrite !bool_decide_eq_true in *.
    by rewrite <- Hb.
  - intros (H1 & H2 & H3 & H4). do 3 (exists tt; split;
      [by rewrite require_Ret, ?orb_true_iff, ?forallb_valid, ?bool_decide_eq_true|]).
    rewrite require_Ret, bool_decide_eq_true. by apply Hb.
Qed.

Lemma check_list (groups : list Z) c :
  NoDup groups -> (forall g, g ∈ groups <-> g ∈ dom (Groups c)) ->
  (Groups c <> ∅ -> all_valid c) -> balanced c ->
  size (Groups c) = length groups /\ (forall g, g ∈ groups -> valid c g) /\
  (groups = [] \/ all_valid c) /\ balanced c.
Proof.
  intros Hnd Hel Hv Hb. split_and!; [| | |done].
  - rewrite <- size_dom. rewrite <- (size_list_to_set (C:=gset Z) groups) by done. f_equal.
    apply set_eq. intros g. by rewrite elem_of_list_to_set, Hel.
  - intros g Hg. by apply Hel.
  - destruct (decide (Groups c = ∅)) as [He|He]; [left|right; by apply Hv].
    destruct groups as [|g groups]; [done|]. pose proof (proj1 (Hel g) (list_elem_of_here _ _)) as Hg.
    rewrite He, dom_empty in Hg. by apply not_elem_of_empty in Hg.
Qed.

(** ** Join and Leave *)

Definition add_groups (servers : list (Z * list string)) (groups : gmap Z (list string)) :=
  fold_left (fun groups x => <[x.1 := x.2]> groups) servers groups.
Definition remove_groups (gids : list Z) (groups : gmap Z (list string)) :=
  fold_left (fun groups gid => delete gid groups) gids groups.
Definition with_groups (c : ShardConfig) (groups : gmap Z (list string)) : ShardConfig :=
  MkShardConfig (Num c) (Shards c) groups.
Definition next_config (c : ShardConfig) (groups : gmap Z (list string)) : ShardConfig :=
  MkShardConfig (swrap 64 (Num c + 1)) (Shards c) groups.

Lemma dom_add_groups servers groups :
  dom (add_groups servers groups) = list_to_set servers.*1 ∪ dom groups.
Proof.
  revert groups. induction servers as [|x servers IH]; intros groups; cbn [add_groups fold_left].
  - cbn. set_solver.
  - change (fold_left _ servers ?g) with (add_groups servers g). rewrite IH. rewrite fmap_cons. set_solver.
Qed.

Lemma dom_remove_groups gids groups :
  dom (remove_groups gids groups) = dom groups ∖ list_to_set gids.
Proof.
  revert groups. induction gids as [|x gids IH]; intros groups; cbn [remove_groups fold_left].
  - cbn. set_solver.
  - change (fold_left _ gids ?g) with (remove_groups gids g). rewrite IH. set_solver.
Qed.

(** The outcomes of Join, by the group at which its loop stops. *)
Definition Join_outcome (servers : list (Z * list string)) (cfg : ShardConfig)
    (r : res (ShardConfig * bool)) : Prop :=
  (r = Ret (next_config cfg (add_groups servers (Groups cfg)), true) /\
     NoDup servers.*1 /\ forall g, g ∈ servers.*1 -> ~ g ∈ dom (Groups cfg)) \/
  (exists pre gid srvs post, servers = pre ++ (gid, srvs) :: post /\
     ((r = Ret (with_groups cfg (add_groups pre (Groups cfg)), false) /\
         gid ∈ dom (add_groups pre (Groups cfg))) \/
      (r = Panic Fatal /\ shares_server (add_groups pre (Groups cfg)) srvs = true))).

Lemma Join_loop_outcome servers cfg changed :
  changed = true \/ servers <> [] -> Join_outcome servers cfg (Join_loop servers changed cfg).
Proof.
  revert cfg changed. induction servers as [|[gid srvs] servers IH]; intros cfg changed Hc; cbn [Join_loop].
  - destruct Hc as [->|]; [|done]. left. split_and!; [done|constructor|]. intros g Hg. by apply elem_of_nil in Hg.
  - destruct (Groups cfg !! gid) as [x|] eqn:Eg.
    + right. exists [], gid, srvs, servers. split; [done|]. left. split; [by destruct cfg|].
      apply elem_of_dom. by eexists.
    + destruct (shares_server (Groups cfg) srvs) eqn:Esh.
      { right. exists [], gid, srvs, servers. split; [done|]. by right. }
      destruct (IH (with_groups cfg (<[gid := srvs]> (Groups cfg))) true) as
        [(Hr & Hnd & Hnew)|(pre & gid' & srvs' & post & -> & Hcase)]; [by left|..].
      * left. unfold with_groups in Hr. rewrite Hr. split_and!; [done|..].
        -- apply NoDup_cons. split; [|done]. intros Hin. apply (Hnew _ Hin).
           cbn [with_groups Groups]. set_solver.
        -- intros g [->|Hg]%elem_of_cons; [by apply not_elem_of_dom|].
           intros Hd. apply (Hnew _ Hg). cbn [with_groups Groups]. set_solver.
      * right. exists ((gid, srvs) :: pre), gid', srvs', post. by split.
Qed.

(** The same for Leave. *)
Definition Leave_outcome (gids : list Z) (cfg : ShardConfig) (r : res (ShardConfig * bool)) : Prop :=
  (r = Ret (next_config cfg (remove_groups gids (Groups cfg)), true) /\
     NoDup gids /\ forall g, g ∈ gids -> g ∈ dom (Groups cfg)) \/
  (exists pre gid post, gids = pre ++ gid :: post /\
     r = Ret (with_groups cfg (remove_groups pre (Groups cfg)), false) /\
     ~ gid ∈ dom (remove_groups pre (Groups cfg))).

Lemma Leave_loop_outcome gids cfg changed :
  changed = true \/ gids <> [] -> Leave_outcome gids cfg (Leave_loop gids changed cfg).
Proof.
  revert cfg changed. induction gids as [|gid gids IH]; intros cfg changed Hc; cbn [Leave_loop].
  - destruct Hc as [->|]; [|done]. left. split_and!; [done|constructor|]. intros g Hg. by apply elem_of_nil in Hg.
  - destruct (Groups cfg !! gid) as [x|] eqn:Eg.
    + destruct (IH (with_groups cfg (delete gid (Groups cfg))) true) as
        [(Hr & Hnd & Hold)|(pre & gid' & post & -> & Hr & Hn)]; [by left|..].
      * left. unfold with_groups in Hr. rewrite Hr. split_and!; [done|..].
        -- apply NoDup_cons. split; [|done]. intros Hin. pose proof (Hold _ Hin) as Hd.
           cbn [with_groups Groups] in Hd. set_solver.
        -- intros g [->|Hg]%elem_of_cons; [apply elem_of_dom; by eexists|].
           pose proof (Hold _ Hg) as Hd. cbn [with_groups Groups] in Hd. set_solver.
      * right. exists (gid :: pre), gid', post. split; [done|]. split; [exact Hr|exact Hn].
    + right. exists [], gid, gids. split; [done|]. split; [by destruct cfg|]. by apply not_elem_of_dom.
Qed.

(** ** Properties *)

(** C29 (Rebalance).  On a configuration of the right size Rebalance ends, keeps number and
    groups, gives every shard to a group of the configuration (to group 0 when there is
    none), and leaves any two groups' counts at most one apart; on a configuration that
    already is so it changes nothing. *)
Theorem Rebalance_balances c :
  sized c ->
  exists c', Rebalance c = Ret c' /\ rebalanced c c' /\ Rebalance c' = Ret c'.
Proof.
  intros Hs. destruct (Rebalance_spec c Hs) as (c' & Hr & Hc). exists c'. split_and!; [done..|].
  pose proof Hc as (H1 & H2 & H3 & H4 & H5 & H6 & _).
  destruct (Rebalance_spec c' H3) as (c2 & Hr2 & G1 & G2 & G3 & G4 & G5 & G6 & G7).
  rewrite Hr2. f_equal. destruct (decide (Groups c = ∅)) as [He|He].
  - clear G7. destruct c' as [n1 s1 g1], c2 as [n2 s2 g2]; cbn in *. f_equal; [congruence| |congruence].
    assert (forall l, (forall g, g ∈ l -> g = 0) -> l = replicate (length l) 0) as Hz.
    { induction l as [|x l IH]; [done|]. intros Hl. cbn. rewrite (Hl x) by left. f_equal.
      apply IH. intros. apply Hl. by right. }
    rewrite (Hz s1) by (by apply H4). rewrite (Hz s2) by (apply G4; congruence).
    unfold sized, zlen in *. cbn in *. f_equal. lia.
  - apply G7; [by apply H5|done|congruence].
Qed.

(** C30 (joining and leaving).  JoinBalance with groups that are new and share no server,
    and LeaveBalance of groups that are members, answer true with the next number, the
    groups wanted, and a configuration that CheckConfig accepts for exactly these groups.
    They answer false at the first group that is already (no longer) a member; the
    shards and the number are then unchanged but the groups before it have been added
    (removed).  Join of a server that is in another group stops the process. *)
Theorem config_changes_check servers gids cfg :
  sized cfg -> servers <> [] -> gids <> [] ->
  ((exists c', JoinBalance servers cfg = Ret (c', true) /\ Num c' = swrap 64 (Num cfg + 1) /\
      Groups c' = add_groups servers (Groups cfg) /\
      CheckConfig (servers.*1 ++ elements (dom (Groups cfg))) c' = Ret tt) \/
   (exists pre gid srvs post, servers = pre ++ (gid, srvs) :: post /\
      ((JoinBalance servers cfg = Ret (with_groups cfg (add_groups pre (Groups cfg)), false) /\
          gid ∈ dom (add_groups pre (Groups cfg))) \/
       (JoinBalance servers cfg = Panic Fatal /\ shares_server (add_groups pre (Groups cfg)) srvs = true)))) /\
  ((exists c', LeaveBalance gids cfg = Ret (c', true) /\ Num c' = swrap 64 (Num cfg + 1) /\
      Groups c' = remove_groups gids (Groups cfg) /\
      CheckConfig (elements (dom (Groups cfg) ∖ list_to_set gids)) c' = Ret tt) \/
   (exists pre gid post, gids = pre ++ gid :: post /\
      LeaveBalance gids cfg = Ret (with_groups cfg (remove_groups pre (Groups cfg)), false) /\
      ~ gid ∈ dom (remove_groups pre (Groups cfg)))).
Proof.
  intros Hs Hsv Hg. split.
  - unfold JoinBalance, Join.
    destruct (Join_loop_outcome servers cfg false ltac:(by right)) as
      [(-> & Hnd & Hnew)|(pre & gid & srvs & post & -> & Hcase)].
    + left. cbn [res_bind]. set (c1 := next_config cfg (add_groups servers (Groups cfg))).
      destruct (Rebalance_spec c1 Hs) as (c' & -> & H1 & H2 & H3 & H4 & H5 & H6 & _).
      exists c'. split_and!; [done|done|done|]. apply CheckConfig_spec; [done|].
      apply check_list; try done.
      * apply NoDup_app. split_and!; [done| |apply NoDup_elements].
        intros g Hin Hd%elem_of_elements. by apply (Hnew g).
      * intros g. rewrite H2. cbn [c1 next_config Groups]. rewrite dom_add_groups.
        by rewrite elem_of_app, elem_of_elements, elem_of_union, elem_of_list_to_set.
      * intros Hne. apply H5. by rewrite <- H2.
    + right. exists pre, gid, srvs, post. split; [done|].
      destruct Hcase as [[-> ?]|[-> ?]]; [by left|by right].
  - unfold LeaveBalance, Leave.
    destruct (Leave_loop_outcome gids cfg false ltac:(by right)) as
      [(-> & Hnd & Hold)|(pre & gid & post & -> & -> & ?)].
    + left. cbn [res_bind]. set (c1 := next_config cfg (remove_groups gids (Groups cfg))).
      destruct (Rebalance_spec c1 Hs) as (c' & -> & H1 & H2 & H3 & H4 & H5 & H6 & _).
      exists c'. split_and!; [done|done|done|]. apply CheckConfig_spec; [done|].
      apply check_list; try done.
      * apply NoDup_elements.
      * intros g. rewrite H2. cbn [c1 next_config Groups]. by rewrite dom_remove_groups, elem_of_elements.
      * intros Hne. apply H5. by rewrite <- H2.
    + right. by exists pre, gid, post.
Qed.

(** *** Examples *)

Example ex_join : exists c,
  JoinBalance [(1, ["x"; "y"; "z"]); (2, ["a"])] MakeShardConfig = Ret (c, true) /\
  Shards c = [1; 2; 1; 2; 1; 2; 1; 2; 1; 2; 1; 2].
Proof. eexists. split; [vm_compute; reflexivity|reflexivity]. Qed.

Definition ex_cfg : ShardConfig :=
  MkShardConfig 1 (replicate 12 1) {[1 := ["x"]; 2 := ["y"]; 7 := ["z"]]}.

Lemma Rebalance_balances_witness :
  exists c', Rebalance ex_cfg = Ret c' /\ Rebalance c' = Ret c' /\
    Shards c' = [2; 7; 2; 7; 2; 7; 2; 7; 1; 1; 1; 1].
Proof.
  destruct (Rebalance_balances ex_cfg) as (c' & H1 & _ & H3); [done|].
  exists c'. split_and!; [done|done|]. vm_compute in H1. injection H1 as <-. done.
Defined.

(** A second group that is already a member: the first has been added. *)
Lemma config_changes_check_witness :
  exists c', JoinBalance [(3, ["b"]); (1, ["c"])] ex_cfg = Ret (c', false) /\
    Groups c' !! 3 = Some ["b"] /\ IsMember 3 c' = false /\
    exists c2, LeaveBalance [1; 2] ex_cfg = Ret (c2, true) /\ CheckConfig [7] c2 = Ret tt.
Proof.
  destruct (config_changes_check [(3, ["b"]); (1, ["c"])] [1; 2] ex_cfg) as (HJ & HL); [done..|].
  eexists. split; [vm_compute; reflexivity|]. split; [reflexivity|]. split; [reflexivity|].
  destruct HL as [(c2 & H1 & _ & _ & H2)|(pre & gid & post & _ & H & _)].
  - exists c2. split; [done|]. vm_compute in H1. injection H1 as <-. reflexivity.
  - vm_compute in H. discriminate H.
Defined.

(** [Copy] gives an equal configuration. *)
Lemma Copy_equal c : Copy c = c.
Proof.
  destruct c as [num shards groups]. unfold Copy. cbn. f_equal.
  apply (map_fold_weak_ind (fun r m => r = m)); [done|]. by intros k x m r _ ->.
Qed.

Lemma Key2Shard_range key : 0 <= Key2Shard key < NShards.
Proof.
  unfold Key2Shard, NShards. pose proof (fnv32a_range key).
  rewrite Z.rem_mod_nonneg by lia. by apply Z.mod_pos_bound.
Qed.
End ShardCfg.
