(* ===== verification/ShardText.v ===== *)
(** * ShardText: a shard configuration as a string (src/src/shardkv1/shardcfg/shardcfg.go: String, FromString)

    The controllers keep a configuration in the store as its JSON text.  String is encoding/json's
    Marshal of the struct, FromString its Unmarshal, for any text: members in any order, in any case of
    their letters, repeated, unknown or null. *)
From S2P Require Import Prelude GoText JsonText Tester ShardCfg.
Local Open Scope Z_scope.
Local Open Scope go_scope.

Module ShardText.
Import Utf8 JsonText ShardCfg.

Notation bytes := (list ascii).
Definition untext (p : bytes) : string := String.string_of_list_ascii p.

(** ** Marshal *)

(** strconv.FormatInt *)
Definition itoa (z : Z) : bytes := text (pretty z).

(** The members of a map are sorted by their keys, as texts. *)
Definition key_le (a b : string * list string) : Prop := String.le a.1 b.1.
#[export] Instance key_le_dec : RelDecision key_le.
Proof. intros a b. unfold key_le. apply _. Defined.

Definition marshal_names (srvs : list string) : json := JArr (JStr ∘ text <$> srvs).
Definition marshal_groups (groups : gmap Z (list string)) : json :=
  JObj ((fun g => (text g.1, marshal_names g.2)) <$>
    merge_sort key_le ((fun g => (pretty g.1, g.2)) <$> map_to_list groups)).
Definition marshal (cfg : ShardConfig) : json :=
  JObj [(text "Num", JNum (itoa (Num cfg)));
        (text "Shards", JArr (JNum ∘ itoa <$> Shards cfg));
        (text "Groups", marshal_groups (Groups cfg))].

Definition String_ (cfg : ShardConfig) : string := untext (print (marshal cfg)).

(** ** Unmarshal *)

(** strconv.ParseInt, base 10, 64 bits *)
Definition value (d : bytes) : Z := fold_left (fun n c => n * 10 + (code c - 48)) d 0.
Definition ParseInt (p : bytes) : option Z :=
  let '(neg, p) :=
    match p with
    | c :: p' => if decide (c = "-"%char) then (true, p') else if decide (c = "+"%char) then (false, p') else (false, p)
    | [] => (false, [])
    end in
  '(d, r) ← some_digits p;
  let z := if neg then - value d else value d in
  if decide (r = [] /\ - 2 ^ 63 <= z < 2 ^ 63) then Some z else None.

(** Into an int, a string and a slice of strings that is new; [cur] is what is there, which null leaves. *)
Definition decode_int (cur : Z) (v : json) : option Z :=
  match v with JNull => Some cur | JNum n => ParseInt n | _ => None end.
Definition decode_str (v : json) : option string :=
  match v with JNull => Some "" | JStr s => Some (untext s) | _ => None end.
Definition decode_names (v : json) : option (list string) :=
  match v with JNull => Some [] | JArr l => mapM decode_str l | _ => None end.

(** Into an array: elements that are too many are skipped, those that are missing are zero. *)
Fixpoint decode_ints (cur : list Z) (l : list json) : option (list Z) :=
  match cur, l with
  | [], _ => Some []
  | _ :: cur, [] => Some (0 :: ((fun _ => 0) <$> cur))
  | x :: cur, v :: l => x ← decode_int x v; xs ← decode_ints cur l; Some (x :: xs)
  end.
Definition decode_shards (cur : list Z) (v : json) : option (list Z) :=
  match v with JNull => Some cur | JArr l => decode_ints cur l | _ => None end.

(** Into a map; null makes it nil. *)
Definition decode_member (m : option (gmap Z (list string))) (kv : bytes * json) : option (gmap Z (list string)) :=
  m ← m; srvs ← decode_names kv.2; gid ← ParseInt kv.1; Some (<[gid := srvs]> m).
Definition decode_groups (cur : gmap Z (list string)) (v : json) : option (gmap Z (list string)) :=
  match v with JNull => Some ∅ | JObj l => fold_left decode_member l (Some cur) | _ => None end.

(** A member's field: by its name, or else by its name with letters folded (two letters beyond ASCII fold
    to letters of ASCII). *)
Inductive field := FNum | FShards | FGroups.
Definition fold_rune (x : Z * bytes) : bytes :=
  if decide (97 <= x.1 <= 122) then [chr (x.1 - 32)]
  else if decide (x.1 = 0x17F) then text "S"
  else if decide (x.1 = 0x212A) then text "K"
  else x.2.
Definition foldName (k : bytes) : bytes := concat (fold_rune <$> runes k).
Definition field_of (k : bytes) : option field :=
  if decide (k = text "Num") then Some FNum
  else if decide (k = text "Shards") then Some FShards
  else if decide (k = text "Groups") then Some FGroups
  else if decide (foldName k = text "NUM") then Some FNum
  else if decide (foldName k = text "SHARDS") then Some FShards
  else if decide (foldName k = text "GROUPS") then Some FGroups
  else None.

Definition decode_field (cfg : option ShardConfig) (kv : bytes * json) : option ShardConfig :=
  cfg ← cfg;
  match field_of kv.1 with
  | Some FNum => n ← decode_int (Num cfg) kv.2; Some (MkShardConfig n (Shards cfg) (Groups cfg))
  | Some FShards => s ← decode_shards (Shards cfg) kv.2; Some (MkShardConfig (Num cfg) s (Groups cfg))
  | Some FGroups => g ← decode_groups (Groups cfg) kv.2; Some (MkShardConfig (Num cfg) (Shards cfg) g)
  | None => Some cfg
  end.
(** An error in one member does not stop Unmarshal, but it is returned in the end. *)
Definition decode (cfg : ShardConfig) (v : json) : option ShardConfig :=
  match v with JNull => Some cfg | JObj l => fold_left decode_field l (Some cfg) | _ => None end.

Definition FromString (s : string) : res ShardConfig :=
  let scfg := MkShardConfig 0 (replicate (Z.to_nat NShards) 0) ∅ in
  match parse (text s) ≫= decode scfg with
  | Some scfg => Ret scfg
  | None => Panic Fatal
  end.

Example from_any_order :
  FromString (untext (text "{ " ++ [quote] ++ text "groups" ++ [quote] ++ text ":{" ++ [quote] ++ text "7" ++ [quote] ++ text ":[" ++
    [quote] ++ text "a\u0041" ++ [quote] ++ text "]}, " ++ [quote] ++ text "x" ++ [quote] ++ text ": [1e3, null], " ++
    [quote] ++ text "NUM" ++ [quote] ++ text " : -3 }")) =
  Ret (MkShardConfig (-3) (replicate 12 0) {[7 := ["aA"]]}).
Proof. vm_compute. reflexivity. Qed.

(** ** Integers come back *)

Lemma value_app d d' : value (d ++ d') = fold_left (fun n c => n * 10 + (code c - 48)) d' (value d).
Proof. unfold value. by rewrite fold_left_app. Qed.

Lemma digit_char d : (d < 10)%N ->
  is_digit (pretty_N_char d) = true /\ code (pretty_N_char d) - 48 = Z.of_N d /\ (d <> 0%N -> pretty_N_char d <> "0"%char).
Proof.
  intros Hd. assert (d = 0 \/ d = 1 \/ d = 2 \/ d = 3 \/ d = 4 \/ d = 5 \/ d = 6 \/ d = 7 \/ d = 8 \/ d = 9)%N as Hc by lia.
  destruct_or! Hc; subst; done.
Qed.

(** The digits of a positive number. *)
Record digits_of (x : N) (d : bytes) : Prop := {
  do_digits : Forall (fun c => is_digit c = true) d;
  do_value : value d = Z.of_N x;
  do_head : exists c p, d = c :: p /\ c <> "0"%char;
}.

Lemma pretty_digits_of x s : (0 < x)%N -> exists d, text (pretty_N_go x s) = d ++ text s /\ digits_of x d.
Proof.
  revert s. induction x as [x IH] using (well_founded_induction N.lt_wf_0). intros s Hx.
  rewrite pretty_N_go_step by done. assert (x `mod` 10 < 10)%N as Hm by (apply N.mod_lt; lia).
  destruct (digit_char _ Hm) as (H1 & H2 & H3). pose proof (N.div_mod x 10 ltac:(lia)) as Hdm.
  destruct (decide (0 < x `div` 10)%N) as [Hd|Hd].
  - destruct (IH (x `div` 10)%N ltac:(by apply N.div_lt) (String (pretty_N_char (x `mod` 10)) s) Hd) as (d & E & [D1 D2 (c & p & -> & D3)]).
    exists ((c :: p) ++ [pretty_N_char (x `mod` 10)]). rewrite E, <- app_assoc. split; [done|]. split.
    + apply Forall_app. split; [done|]. by constructor.
    + rewrite value_app, D2. cbn [fold_left]. lia.
    + by exists c, (p ++ [pretty_N_char (x `mod` 10)]).
  - assert (x `div` 10 = 0)%N as E0 by lia. rewrite E0, pretty_N_go_0. exists [pretty_N_char (x `mod` 10)]. split; [done|]. split.
    + by constructor.
    + unfold value. cbn [fold_left]. lia.
    + eexists _, _. split; [done|]. apply H3. lia.
Qed.

Lemma span_digits_all d q :
  Forall (fun c => is_digit c = true) d -> stops q -> span_digits (d ++ q) = (d, q).
Proof.
  intros Hd Hq. induction Hd as [|c d Hc Hd IH].
  - destruct q as [|c q]; [done|]. destruct Hq as [Hc _]. cbn. by rewrite Hc.
  - cbn. by rewrite Hc, IH.
Qed.

Lemma some_digits_all x d q : digits_of x d -> stops q -> some_digits (d ++ q) = Some (d, q).
Proof.
  intros [H1 _ (c & p & -> & _)] Hq. unfold some_digits. rewrite span_digits_all by done. by rewrite decide_False.
Qed.

(** The text of an int: a zero, the digits of a number, or a minus before them. *)
Lemma itoa_cases z :
  (z = 0 /\ itoa z = text "0") \/
  (exists p d, z = Zpos p /\ itoa z = d /\ digits_of (N.pos p) d) \/
  (exists p d, z = Zneg p /\ itoa z = "-"%char :: d /\ digits_of (N.pos p) d).
Proof.
  destruct z as [|p|p]; [by left|right; left|right; right].
  - destruct (pretty_digits_of (N.pos p) "" ltac:(lia)) as (d & E & Hd). exists p, d. rewrite app_nil_r in E. by split.
  - destruct (pretty_digits_of (N.pos p) "" ltac:(lia)) as (d & E & Hd). exists p, d. rewrite app_nil_r in E.
    split; [done|]. split; [|done]. rewrite <- E. done.
Qed.

Lemma frac_stops q : stops q -> frac_part q = Some ([], q).
Proof. destruct q as [|c q]; [done|]. intros (_ & Hc & _). cbn. by rewrite decide_False. Qed.
Lemma exp_stops q : stops q -> exp_part q = Some ([], q).
Proof. destruct q as [|c q]; [done|]. intros (_ & _ & H1 & H2). cbn. by rewrite decide_False by tauto. Qed.

Lemma digit_plain c : is_digit c = true -> c <> "-"%char /\ c <> "+"%char.
Proof. intros Hc. split; intros ->; done. Qed.

Lemma int_digits x d q : digits_of x d -> stops q -> int_part (d ++ q) = Some (d, q).
Proof.
  intros Hd Hq. pose proof (some_digits_all x d q Hd Hq) as Hs. destruct Hd as [_ _ (c & p & -> & Hc)].
  cbn [int_part app]. rewrite decide_False by done. exact Hs.
Qed.

Lemma itoa_wf z : wf_num (itoa z).
Proof.
  intros q Hq. destruct (itoa_cases z) as [[-> ->]|[(p & d & -> & -> & Hd)|(p & d & -> & -> & Hd)]].
  - unfold number. cbn [text String.list_ascii_of_string app]. rewrite decide_False by done. cbn [int_part].
    rewrite decide_True by done. cbn [mbind option_bind]. rewrite frac_stops by done. cbn [mbind option_bind].
    by rewrite exp_stops.
  - pose proof (int_digits _ d q Hd Hq) as Hi. destruct Hd as [Hf _ (c & p' & -> & _)]. inversion_clear Hf as [|? ? Hc _].
    unfold number. cbn [app]. rewrite decide_False by (by apply digit_plain). cbn [app] in Hi. rewrite Hi. cbn [mbind option_bind].
    rewrite frac_stops by done. cbn [mbind option_bind]. rewrite exp_stops by done. cbn [mbind option_bind app]. by rewrite app_nil_r.
  - pose proof (int_digits _ d q Hd Hq) as Hi. unfold number. cbn [app]. rewrite decide_True by done. rewrite Hi. cbn [mbind option_bind].
    rewrite frac_stops by done. cbn [mbind option_bind]. rewrite exp_stops by done. cbn [mbind option_bind app]. by rewrite app_nil_r.
Qed.

Definition is_int (z : Z) : Prop := - 2 ^ 63 <= z < 2 ^ 63.

Lemma ParseInt_itoa z : is_int z -> ParseInt (itoa z) = Some z.
Proof.
  intros Hz. unfold ParseInt. destruct (itoa_cases z) as [[-> ->]|[(p & d & -> & -> & Hd)|(p & d & -> & -> & Hd)]].
  - done.
  - pose proof (some_digits_all _ d [] Hd I) as Hs. rewrite app_nil_r in Hs. destruct Hd as [Hf Hv (c & p' & -> & _)].
    inversion_clear Hf as [|? ? Hc _]. destruct (digit_plain c Hc). rewrite !decide_False by done. rewrite Hs. cbn [mbind option_bind].
    rewrite Hv. rewrite decide_True; [done|]. by split.
  - pose proof (some_digits_all _ d [] Hd I) as Hs. rewrite app_nil_r in Hs. destruct Hd as [_ Hv _].
    rewrite decide_True by done. rewrite Hs. cbn [mbind option_bind]. rewrite Hv. rewrite decide_True; [done|]. by split.
Qed.

(** ASCII is valid UTF-8. *)
Lemma json_bytes_ascii p : Forall (fun c => code c < 0x80) p -> json_bytes p = p.
Proof.
  induction 1 as [|c p Hc Hp IH]; [done|]. unfold json_bytes.
  assert (DecodeRune (c :: p) = (code c, 1%nat)) as Hd.
  { unfold DecodeRune. destruct (accept (code c)). by rewrite (proj2 (Z.ltb_lt _ _)). }
  rewrite (runes_cons (c :: p) (code c) 1%nat) by done. rewrite fmap_cons. cbn [take drop concat snd].
  rewrite take_0, drop_0.
  unfold json_bytes in IH. rewrite IH. unfold invalid. cbn [fst snd]. rewrite (bool_decide_false (code c = RuneError)); [done|].
  unfold RuneError. lia.
Qed.

Lemma itoa_ascii z : Forall (fun c => code c < 0x80) (itoa z).
Proof.
  assert (forall d, Forall (fun c => is_digit c = true) d -> Forall (fun c => code c < 0x80) d) as Hd.
  { intros d Hf. eapply Forall_impl; [exact Hf|]. intros c Hc. cbv beta in *. unfold is_digit, rng in Hc.
    apply andb_true_iff in Hc as [_ Hc]. apply Z.leb_le in Hc. lia. }
  destruct (itoa_cases z) as [[-> ->]|[(p & d & -> & -> & [Hf _ _])|(p & d & -> & -> & [Hf _ _])]].
  - by constructor.
  - by apply Hd.
  - constructor; [done|by apply Hd].
Qed.

Lemma itoa_clean z : json_bytes (itoa z) = itoa z.
Proof. apply json_bytes_ascii, itoa_ascii. Qed.

(** ** Configurations come back *)

(** A string of valid UTF-8. *)
Definition utf8 (s : string) : Prop := json_string s = s.

Lemma text_untext p : text (untext p) = p.
Proof. apply String.list_ascii_of_string_of_list_ascii. Qed.

Lemma names_come_back srvs :
  wf (marshal_names srvs) /\ decode_names (clean (marshal_names srvs)) = Some (json_string <$> srvs).
Proof.
  cbn [marshal_names wf clean decode_names]. induction srvs as [|s srvs [IH1 IH2]]; [done|].
  rewrite !fmap_cons. cbn [foldr mapM decode_str clean compose]. split; [done|]. rewrite IH2. done.
Qed.

Lemma ints_come_back cur l :
  length cur = length l -> Forall is_int l ->
  wf (JArr (JNum ∘ itoa <$> l)) /\ decode_ints cur (clean <$> (JNum ∘ itoa <$> l)) = Some l.
Proof.
  intros Hlen Hl. revert cur Hlen. induction Hl as [|x l Hx Hl IH]; intros [|y cur] Hlen; try done.
  destruct (IH cur) as [IH1 IH2]; [by injection Hlen|]. rewrite !fmap_cons. cbn [wf foldr compose]. split; [split; [apply itoa_wf|done]|].
  cbn [clean decode_ints decode_int]. rewrite ParseInt_itoa by done. cbn [mbind option_bind]. by rewrite IH2.
Qed.

(** As it comes back. *)
Definition cleaned (g : Z * list string) : Z * list string := (g.1, json_string <$> g.2).
Definition named (g : Z * list string) : string * list string := (pretty g.1, g.2).

Lemma members_fold (l : list (Z * list string)) (m : gmap Z (list string)) :
  (forall g, g ∈ l -> is_int g.1) ->
  fold_left decode_member ((fun g => (json_bytes g.1, clean g.2)) <$> ((fun g => (text g.1, marshal_names g.2)) <$> (named <$> l))) (Some m) =
  Some (fold_left (fun m g => <[g.1 := g.2]> m) (cleaned <$> l) m).
Proof.
  revert m. induction l as [|[z srvs] l IH]; intros m Hl; [done|].
  pose proof (Hl (z, srvs) ltac:(left)) as Hz. cbn in Hz. rewrite !fmap_cons. cbn [fold_left named fst snd].
  unfold decode_member at 2. cbn [mbind option_bind fst snd].
  rewrite (proj2 (names_come_back srvs)). cbn [mbind option_bind].
  change (text (pretty z)) with (itoa z). rewrite itoa_clean, ParseInt_itoa by done. cbn [mbind option_bind].
  apply IH. intros g Hg. apply Hl. by right.
Qed.

Lemma fold_inserts (l : list (Z * list string)) (m : gmap Z (list string)) :
  NoDup l.*1 -> fold_left (fun m g => <[g.1 := g.2]> m) l m = list_to_map l ∪ m.
Proof.
  revert m. induction l as [|[k v] l IH]; intros m Hnd; [cbn; by rewrite (left_id_L ∅ (∪))|].
  apply NoDup_cons in Hnd as [Hk Hnd]. cbn [fold_left list_to_map foldr fst snd uncurry]. rewrite IH by done.
  rewrite <- insert_union_l. apply map_eq. intros j. destruct (decide (j = k)) as [->|Hne].
  - rewrite lookup_insert_eq. rewrite lookup_union_r; [by rewrite lookup_insert_eq|]. by apply not_elem_of_list_to_map.
  - rewrite lookup_insert_ne by done. rewrite !lookup_union. by rewrite lookup_insert_ne.
Qed.

(** The names made valid UTF-8. *)
Definition json_groups (groups : gmap Z (list string)) : gmap Z (list string) := fmap (M := list) json_string <$> groups.

Lemma groups_come_back (groups : gmap Z (list string)) :
  map_Forall (fun gid _ => is_int gid) groups ->
  wf (marshal_groups groups) /\
  decode_groups ∅ (clean (marshal_groups groups)) = Some (json_groups groups).
Proof.
  intros Hok. unfold marshal_groups. change (fun g : Z * list string => (pretty g.1, g.2)) with named.
  assert (merge_sort key_le (named <$> map_to_list groups) ≡ₚ map named (map_to_list groups)) as Hp by apply merge_sort_Permutation.
  apply Permutation_map_inv in Hp as (l & -> & Hp). change (map named l) with (named <$> l).
  assert (NoDup l.*1) as Hnd by (rewrite <- Hp; apply NoDup_fst_map_to_list).
  assert (forall g, g ∈ l -> is_int g.1) as Hl.
  { intros [z srvs] Hg. rewrite <- Hp in Hg. apply elem_of_map_to_list in Hg. by apply (Hok z srvs). }
  assert (list_to_map l = groups) as Hm by (rewrite <- (list_to_map_to_list groups); symmetry; by apply list_to_map_proper; [apply NoDup_fst_map_to_list|]).
  split.
  - cbn [wf]. clear. induction l as [|g l IH]; [done|]. rewrite !fmap_cons. cbn [foldr snd]. split; [apply names_come_back|done].
  - cbn [clean decode_groups]. rewrite members_fold by done. rewrite fold_inserts.
    + change cleaned with (prod_map (@id Z) (fmap (M := list) json_string)). unfold json_groups. by rewrite (right_id_L ∅ (∪)), list_to_map_fmap, Hm.
    + rewrite <- list_fmap_compose. erewrite list_fmap_ext; [exact Hnd|]. by intros i [z srvs] _.
Qed.

(** The numbers of a configuration are ints, and there are [NShards] shards. *)
Record ints_ok (cfg : ShardConfig) : Prop := {
  tk_num : is_int (Num cfg);
  tk_shards : zlen (Shards cfg) = NShards /\ Forall is_int (Shards cfg);
  tk_groups : map_Forall (fun gid _ => is_int gid) (Groups cfg);
}.

Lemma marshal_wf cfg : ints_ok cfg -> wf (marshal cfg).
Proof.
  intros [_ [Hlen Hs] Hg]. cbn [marshal wf foldr snd]. split_and!; [apply itoa_wf| |by apply groups_come_back|done].
  by eapply (ints_come_back (Shards cfg)).
Qed.

Lemma decode_marshal cfg :
  ints_ok cfg ->
  decode (MkShardConfig 0 (replicate (Z.to_nat NShards) 0) ∅) (clean (marshal cfg)) =
    Some (MkShardConfig (Num cfg) (Shards cfg) (json_groups (Groups cfg))).
Proof.
  intros [Hn [Hlen Hs] Hg]. destruct cfg as [n shards groups]. cbn [Num Shards Groups] in *. unfold marshal. cbn [Num Shards Groups].
  cbn [clean]. rewrite !fmap_cons, fmap_nil. cbn [fst snd].
  assert (json_bytes (text "Num") = text "Num" /\ json_bytes (text "Shards") = text "Shards" /\ json_bytes (text "Groups") = text "Groups")
    as (-> & -> & ->) by (vm_compute; done).
  cbn [decode fold_left]. unfold decode_field. cbn [mbind option_bind fst snd].
  assert (field_of (text "Num") = Some FNum /\ field_of (text "Shards") = Some FShards /\ field_of (text "Groups") = Some FGroups)
    as (-> & -> & ->) by (vm_compute; done).
  cbn [clean decode_int]. rewrite ParseInt_itoa by done. cbn [mbind option_bind Num Shards Groups decode_shards].
  destruct (ints_come_back (replicate (Z.to_nat NShards) 0) shards) as [_ ->]; [|done|].
  { rewrite length_replicate. unfold zlen in Hlen. lia. }
  cbn [mbind option_bind Num Shards Groups]. by rewrite (proj2 (groups_come_back groups Hg)).
Qed.

(** A balanced configuration with groups whose ids are ints. *)
Lemma valid_ints_ok c :
  sized c -> all_valid c -> is_int (Num c) -> map_Forall (fun gid _ => is_int gid) (Groups c) -> ints_ok c.
Proof.
  intros Hs Hv Hn Hg. split; [done| |done]. split; [exact Hs|]. apply Forall_forall. intros gid Hin.
  apply Hv, elem_of_dom in Hin as [srvs Hl]. by apply (Hg gid srvs).
Qed.

(** The names of servers are valid UTF-8. *)
Lemma ServerName_utf8 gid i : utf8 (Tester.ServerName gid i).
Proof.
  unfold utf8, json_string. rewrite json_bytes_ascii; [apply String.string_of_list_ascii_of_string|].
  unfold Tester.ServerName. change String.list_ascii_of_string with text.
  assert (forall a b, text (a +:+ b) = text a ++ text b) as Happ.
  { induction a as [|c a IH]; intros b; [done|]. change (text (String c a +:+ b)) with (c :: text (a +:+ b)). by rewrite IH. }
  rewrite !Happ. repeat (apply Forall_app; split); try apply itoa_ascii; by repeat constructor.
Qed.

(** ** Properties *)

(** C31 (a configuration's text).  FromString reads every string that String writes for a configuration of
    ints with [NShards] shards, and gives the configuration back, its server names made valid UTF-8; a
    configuration whose names are, such as those of the tests' servers, comes back as it was. *)
Theorem FromString_String (cfg : ShardConfig) (Hcfg : ints_ok cfg) :
  FromString (String_ cfg) = Ret (MkShardConfig (Num cfg) (Shards cfg) (json_groups (Groups cfg))) /\
  (map_Forall (fun _ srvs => Forall utf8 srvs) (Groups cfg) -> FromString (String_ cfg) = Ret cfg).
Proof.
  assert (FromString (String_ cfg) = Ret (MkShardConfig (Num cfg) (Shards cfg) (json_groups (Groups cfg)))) as H.
  { unfold FromString, String_. rewrite text_untext, parse_print by by apply marshal_wf. cbn [mbind option_bind].
    by rewrite decode_marshal. }
  split; [exact H|]. intros Hu. rewrite H. destruct cfg as [n shards groups]. cbn [Num Shards Groups] in *. do 2 f_equal.
  apply map_eq. intros gid. unfold json_groups. rewrite lookup_fmap. destruct (groups !! gid) as [srvs|] eqn:E; [|done]. cbn. f_equal.
  specialize (Hu gid srvs E). cbv beta in Hu. clear E. induction Hu as [|s srvs Hs _ IH]; [done|]. rewrite fmap_cons, IH. by rewrite Hs.
Qed.

Definition ex_cfg : ShardConfig :=
  MkShardConfig 3 [1; 1; 1; 1; 1; 1; -2; -2; -2; -2; -2; -2]
    {[1 := [Tester.ServerName 1 0; "<" +:+ untext [quote; chr 10] +:+ ">"]; -2 := []]}.

Lemma FromString_String_witness : FromString (String_ ex_cfg) = Ret ex_cfg.
Proof.
  apply (FromString_String ex_cfg).
  - split; [done|split; [done|]|].
    + apply (bool_decide_eq_true _). vm_compute. reflexivity.
    + apply (bool_decide_eq_true _). vm_compute. reflexivity.
  - apply (bool_decide_eq_true _). vm_compute. reflexivity.
Defined.
End ShardText.
