(* ===== verification/Rsm.v ===== *)
(** * Rsm: the replicated state machine's interface and its tests (src/src/kvraft1/rsm/)

    rsm.go defines what a server that is to be replicated implements ([StateMachine]) and an
    RSM whose Submit is still to be written: it answers ErrWrongLeader.  server.go is the
    counter the tests replicate, test.go submits operations and counts the servers that have
    them.  The tests are modelled over any Submit.  A snapshot is the sequence of values the
    encoder wrote, as in Persister. *)
From S2P Require Import Prelude Persister Raft KvSrv.
Import Rpc.
Local Open Scope Z_scope.
Local Open Scope go_scope.

Module Rsm.

(** ** rsm.go *)

(** What a replicated server does with an operation, and its snapshots. *)
Class StateMachine (S Req Rep : Type) := {
  DoOp : Req -> S -> res (S * Rep);
  Snapshot : S -> list gobval;
  Restore : list gobval -> S -> res S;
}.

(** What the RSM relies on, for states that are the same to a client: a snapshot restores the
    state, and operations do not tell such states apart. *)
Class StateMachineLaws (S Req Rep : Type) `{StateMachine S Req Rep} := {
  sm_eq : relation S;
  sm_eq_equiv : Equivalence sm_eq;
  sm_restore : forall s s0, exists s', Restore (Snapshot s) s0 = Ret s' /\ sm_eq s' s;
  sm_op : forall r s s', sm_eq s s' ->
    match DoOp r s, DoOp r s' with
    | Ret (t, rep), Ret (t', rep') => sm_eq t t' /\ rep = rep'
    | Panic p, Panic p' => p = p'
    | _, _ => False
    end;
}.

(** [me], the peer and [maxraftstate]; the server it replicates is the state machine. *)
Record RSM := MkRSM { rsm_me : Z; rf : Raft.Raft; maxraftstate : Z }.

(** [servers] are [n] ends. *)
Definition MakeRSM (n me : Z) (persister : Persister) (maxraftstate : Z) : res RSM :=
  let! rf := Raft.Make n me persister in Ret (MkRSM me rf maxraftstate).
Definition rsm_Raft (rsm : RSM) : Raft.Raft := rf rsm.

(** Submit as it is in the repository. *)
Definition Submit {Req Rep} (rsm : RSM) (req : Req) : Err * option Rep := (ErrWrongLeader, None).

(** ** server.go: a counter *)

(** The requests [DoOp] is given: [any]. *)
Inductive request := Inc | Dec | Null | OtherReq (t : string).
Inductive reply := IncRep (N : Z) | NullRep.

#[export] Instance request_eq_dec : EqDecision request.
Proof. solve_decision. Defined.

Record rsmSrv := MkRsmSrv { me : Z; rsm : option RSM; counter : Z }.

Definition makeRsmSrv (n srv : Z) (persister : Persister) (maxraftstate : Z) : res rsmSrv :=
  let! r := MakeRSM n srv persister maxraftstate in Ret (MkRsmSrv srv (Some r) 0).

Definition with_counter (c : Z) (rs : rsmSrv) : rsmSrv := MkRsmSrv (me rs) (rsm rs) c.

(** The part of [DoOp] with the lock held, and the reply, which reads the counter after the lock
    is released. *)
Definition inc_locked (rs : rsmSrv) : rsmSrv := with_counter (swrap 64 (counter rs + 1)) rs.
Definition inc_reply (rs : rsmSrv) : reply := IncRep (counter rs).

Definition rsmSrv_DoOp (req : request) (rs : rsmSrv) : res (rsmSrv * reply) :=
  match req with
  | Inc => let rs := inc_locked rs in Ret (rs, inc_reply rs)
  | Null => Ret (rs, NullRep)
  | _ => Panic Fatal
  end.
Definition rsmSrv_Snapshot (rs : rsmSrv) : list gobval := [GobInt (counter rs)].
Definition rsmSrv_Restore (data : list gobval) (rs : rsmSrv) : res rsmSrv :=
  match decode_int data with
  | Some (c, _) => Ret (with_counter c rs)
  | None => Panic Fatal
  end.

#[export] Instance rsmSrv_sm : StateMachine rsmSrv request reply := {
  DoOp := rsmSrv_DoOp;
  Snapshot := rsmSrv_Snapshot;
  Restore := rsmSrv_Restore;
}.

Definition Kill (rs : rsmSrv) : rsmSrv := MkRsmSrv (me rs) None (counter rs).
Definition srv_Raft (rs : rsmSrv) : res Raft.Raft :=
  match rsm rs with Some r => Ret (rsm_Raft r) | None => Panic NilDereference end.

(** ** test.go *)

Definition NSRV : Z := 3.

Definition inPartition (s : Z) (p : option (list Z)) : bool :=
  match p with
  | None => true
  | Some p => existsb (fun i => bool_decide (s = i)) p
  end.

Section submitting.
(** The world the test runs in: which servers are connected, its servers, and Submit on one of
    them. *)
Context {W Req Rep : Type} (connected : W -> list bool) (srvs : W -> list (option rsmSrv))
  (submit : Z -> Req -> W -> W * (Err * option Rep)).

(** [for range ts.srvs]: [k] servers from [index] on; the server that answered OK and its reply. *)
Fixpoint try_servers (k : nat) (p : option (list Z)) (req : Req) (index : Z) (w : W)
    : res (W * Z * option (Z * option Rep)) :=
  match k with
  | O => Ret (w, index, None)
  | S k =>
      let! conn := idx (connected w) index in
      let! (w, answer) :=
        (if (conn : bool) then
           let! s := idx (srvs w) index in
           match s with
           | None => Panic NilDereference
           | Some s =>
               if bool_decide (is_Some (rsm s)) && inPartition index p then
                 let '(w, (err, rep)) := submit index req w in
                 Ret (w, if decide (err = OK) then Some (index, rep) else None)
               else Ret (w, None)
           end
         else Ret (w, None)) in
      match answer with
      | Some _ => Ret (w, index, answer)
      | None => try_servers k p req (Z.rem (index + 1) (zlen (srvs w))) w
      end
  end.

(** The rounds there is time for, from [leader]; [ts.leader] afterwards and the reply. *)
Fixpoint onePartition (rounds : nat) (p : option (list Z)) (req : Req) (leader : Z) (w : W)
    : res (W * Z * option Rep) :=
  match rounds with
  | O => Ret (w, leader, None)
  | S rounds =>
      let! (w, _, answer) := try_servers (length (srvs w)) p req leader w in
      match answer with
      | Some (index, rep) => Ret (w, index, rep)
      | None => onePartition rounds p req leader w
      end
  end.
End submitting.

(** The type assertions of oneInc and oneNull panic on another reply. *)
Definition as_IncRep (rep : option reply) : res (option Z) :=
  match rep with
  | None => Ret None
  | Some (IncRep N) => Ret (Some N)
  | Some NullRep => Panic BadTypeAssertion
  end.
Definition as_NullRep (rep : option reply) : res (option unit) :=
  match rep with
  | None => Ret None
  | Some NullRep => Ret (Some tt)
  | Some (IncRep _) => Panic BadTypeAssertion
  end.
Definition oneInc {W} connected srvs (submit : Z -> request -> W -> W * (Err * option reply)) rounds leader w
  : res (W * Z * option Z) :=
  let! (w, leader, rep) := onePartition connected srvs submit rounds None Inc leader w in
  let! rep := as_IncRep rep in Ret (w, leader, rep).
Definition oneNull {W} connected srvs (submit : Z -> request -> W -> W * (Err * option reply)) rounds leader w
  : res (W * Z * option unit) :=
  let! (w, leader, rep) := onePartition connected srvs submit rounds None Null leader w in
  let! rep := as_NullRep rep in Ret (w, leader, rep).

Definition countValue (v : Z) (srvs : list rsmSrv) : Z :=
  fold_left (fun i s => if decide (counter s = v) then i + 1 else i) srvs 0.

(** The loop with [iters] iterations left; [polls] are the servers at each. *)
Fixpoint check_loop (iters : nat) (v nsrv : Z) (polls : nat -> list rsmSrv) : res unit :=
  match iters with
  | O => Panic Fatal
  | S iters =>
      if decide (countValue v (polls 0%nat) >= nsrv) then Ret tt
      else check_loop iters v nsrv (fun k => polls (S k))
  end.
Definition checkCounter (v nsrv : Z) (polls : nat -> list rsmSrv) : res unit := check_loop 30 v nsrv polls.

Section leader.
(** What a service says when it is a raftapi.Raft: the answer of GetState. *)
Context {Svc : Type} (get_state : Svc -> option (Z * bool)).

Fixpoint find_leader (i : Z) (services : list (list Svc)) : bool * Z :=
  match services with
  | [] => (false, 0)
  | ss :: services =>
      if existsb (fun s => match get_state s with Some (_, l) => l | None => false end) ss then (true, i)
      else find_leader (i + 1) services
  end.
Definition Leader (services : list (list Svc)) : bool * Z := find_leader 0 services.
End leader.

(** ** The counter *)

(** Operations one after the other. *)
Section replay.
Context {S Req Rep : Type} `{SM : StateMachine S Req Rep}.

Fixpoint replay (ops : list Req) (s : S) : res (S * list Rep) :=
  match ops with
  | [] => Ret (s, [])
  | op :: ops =>
      let! (s, rep) := DoOp op s in
      let! (s, reps) := replay ops s in
      Ret (s, rep :: reps)
  end.

Lemma replay_app ops1 ops2 s :
  replay (ops1 ++ ops2) s =
    let! (s1, reps1) := replay ops1 s in
    let! (s2, reps2) := replay ops2 s1 in
    Ret (s2, reps1 ++ reps2).
Proof.
  revert s. induction ops1 as [|op ops1 IH]; intros s; cbn.
  - by destruct (replay ops2 s) as [[s' reps]|].
  - destruct (DoOp op s) as [[s1 rep]|]; [cbn|done]. rewrite IH.
    destruct (replay ops1 s1) as [[s2 reps1]|]; [cbn|done].
    by destruct (replay ops2 s2) as [[s3 reps2]|].
Qed.

Context `{!StateMachineLaws S Req Rep}.
#[local] Existing Instance sm_eq_equiv.

Lemma replay_eq ops s s' :
  sm_eq s s' ->
  match replay ops s, replay ops s' with
  | Ret (t, reps), Ret (t', reps') => sm_eq t t' /\ reps = reps'
  | Panic p, Panic p' => p = p'
  | _, _ => False
  end.
Proof.
  revert s s'. induction ops as [|op ops IH]; intros s s' Hs; [done|]. cbn.
  pose proof (sm_op op s s' Hs) as Hop.
  destruct (DoOp op s) as [[t rep]|], (DoOp op s') as [[t' rep']|]; cbn; try done. destruct Hop as [Ht ->].
  pose proof (IH t t' Ht) as Hr. destruct (replay ops t) as [[u reps]|], (replay ops t') as [[u' reps']|]; cbn; try done.
  by destruct Hr as [? ->].
Qed.

(** A replica that starts from a snapshot answers what follows as the others do. *)
Lemma snapshot_catches_up ops1 ops2 s s1 reps1 s2 reps s0 :
  replay ops1 s = Ret (s1, reps1) -> replay (ops1 ++ ops2) s = Ret (s2, reps) ->
  exists s0' s2' reps2, Restore (Snapshot s1) s0 = Ret s0' /\ replay ops2 s0' = Ret (s2', reps2) /\
    sm_eq s2' s2 /\ reps = reps1 ++ reps2.
Proof.
  intros H1 H. rewrite replay_app, H1 in H. cbn in H.
  destruct (sm_restore s1 s0) as (s0' & Hr & He). pose proof (replay_eq ops2 s0' s1 He) as Hq.
  destruct (replay ops2 s1) as [[t r]|]; cbn in H; [|done]. injection H as <- <-.
  destruct (replay ops2 s0') as [[t' r']|] eqn:Er; [|done]. destruct Hq as [Hq ->]. exists s0', t', r. split_and!; [done|exact Er|exact Hq|reflexivity].
Qed.
End replay.

#[export] Program Instance rsmSrv_laws : StateMachineLaws rsmSrv request reply :=
  {| sm_eq s s' := counter s = counter s' |}.
Next Obligation. split; [done|by intros ??|by intros ??? -> ->]. Qed.
Next Obligation. intros s s0. by eexists. Qed.
Next Obligation.
  intros [] s s' E; cbn; [|done|by rewrite E|done].
  unfold inc_locked, inc_reply. cbn. by rewrite E.
Qed.

(** How many increments. *)
Definition incs (ops : list request) : Z := zlen (filter (fun op => op = Inc) ops).

Lemma incs_cons op ops : incs (op :: ops) = (if decide (op = Inc) then 1 else 0) + incs ops.
Proof. unfold incs. rewrite filter_cons. case_decide; [by rewrite zlen_cons|lia]. Qed.

Lemma incs_app ops1 ops2 : incs (ops1 ++ ops2) = incs ops1 + incs ops2.
Proof. unfold incs. by rewrite filter_app, zlen_app. Qed.

(** The reply to [op] when [n] operations before it and itself were increments. *)
Definition reply_to (op : request) (c n : Z) : reply :=
  match op with Inc => IncRep (swrap 64 (c + n)) | _ => NullRep end.

Lemma replay_counter ops s c a :
  (forall op, op ∈ ops -> op = Inc \/ op = Null) -> counter s = swrap 64 (c + a) ->
  exists s' reps, replay ops s = Ret (s', reps) /\ counter s' = swrap 64 (c + (a + incs ops)) /\
    length reps = length ops /\
    forall k op, ops !! k = Some op -> reps !! k = Some (reply_to op c (a + incs (take (S k) ops))).
Proof.
  revert s a. induction ops as [|op ops IH]; intros s a Hops Hc.
  { exists s, []. change (incs []) with 0. rewrite Z.add_0_r. by split_and!. }
  set (a1 := a + (if decide (op = Inc) then 1 else 0)).
  assert (exists s1, DoOp op s = Ret (s1, reply_to op c a1) /\ counter s1 = swrap 64 (c + a1)) as (s1 & Hop & Hs1).
  { subst a1. destruct (Hops op) as [->| ->]; [left|..]; cbn.
    - eexists. unfold inc_reply, inc_locked. cbn. rewrite Hc, swrap_add, <- Z.add_assoc. by split.
    - eexists. split; [done|]. by rewrite Z.add_0_r. }
  destruct (IH s1 a1) as (s' & reps & Hr & Hs' & Hlen & Hreps); [intros; apply Hops; by right|done|].
  exists s', (reply_to op c a1 :: reps). cbn [replay]. rewrite Hop. cbn. rewrite Hr. cbn. split_and!; [done| |lia|].
  - rewrite Hs', incs_cons. do 2 f_equal. subst a1. lia.
  - intros [|k] op' Hk; cbn in Hk.
    + injection Hk as <-. cbn [take lookup list_lookup]. rewrite incs_cons, take_0. change (incs []) with 0.
      do 2 f_equal. subst a1. lia.
    + change (take (S (S k)) (op :: ops)) with (op :: take (S k) ops). rewrite incs_cons.
      change ((reply_to op c a1 :: reps) !! S k) with (reps !! k). rewrite (Hreps k op' Hk).
      do 2 f_equal. subst a1. lia.
Qed.

(** Any other operation ends the process. *)
Lemma replay_fatal ops op s : op ∈ ops -> op <> Inc -> op <> Null -> replay ops s = Panic Fatal.
Proof.
  intros Hin H1 H2. revert s. induction ops as [|op' ops IH]; intros s; [by apply not_elem_of_nil in Hin|].
  apply elem_of_cons in Hin as [<-|Hin]; [by destruct op|]. cbn [replay].
  destruct op'; [..|done]; cbn; try done; by rewrite (IH Hin).
Qed.

(** ** Submitting *)

Section submitting_lemmas.
Context {W Req Rep : Type} (connected : W -> list bool) (srvs : W -> list (option rsmSrv))
  (submit : Z -> Req -> W -> W * (Err * option Rep)) (n : Z) (p : option (list Z)) (req : Req).

(** What holds while the test runs: [n] servers, all made. *)
Context (I : W -> Prop) (I_submit : forall i w, I w -> I (submit i req w).1)
  (I_connected : forall w, I w -> zlen (connected w) = n)
  (I_srvs : forall w, I w -> zlen (srvs w) = n /\ forall s, s ∈ srvs w -> is_Some s).

(** Server [i] may be asked. *)
Definition eligible (i : Z) (w : W) : Prop :=
  idx (connected w) i = Ret true /\ (exists s, idx (srvs w) i = Ret (Some s) /\ is_Some (rsm s)) /\
  inPartition i p = true.

(** The servers asked did not take the operation, or the last one did. *)
Lemma try_servers_spec k index w :
  I w -> 0 <= index < n ->
  exists w' index' answer, try_servers connected srvs submit k p req index w = Ret (w', index', answer) /\ I w' /\
    match answer with
    | None => forall d, 0 <= d < Z.of_nat k ->
        ~ (forall v, I v -> eligible ((index + d) mod n) v /\ (submit ((index + d) mod n) req v).2.1 = OK)
    | Some (i, rep) => i = index' /\ 0 <= i < n /\
        exists v, I v /\ eligible i v /\ submit i req v = (w', (OK, rep))
    end.
Proof.
  revert index w. induction k as [|k IH]; intros index w Hw Hi; cbn [try_servers].
  { exists w, index, None. split_and!; [done|done|]. intros d Hd. lia. }
  destruct (I_srvs w Hw) as [Hlen Hall].
  assert (forall w1, I w1 ->
    ~ (forall v, I v -> eligible index v /\ (submit index req v).2.1 = OK) ->
    exists w' index' answer, try_servers connected srvs submit k p req (Z.rem (index + 1) (zlen (srvs w1))) w1 = Ret (w', index', answer) /\
    I w' /\ match answer with
    | None => forall d, 0 <= d < Z.of_nat (S k) ->
        ~ (forall v, I v -> eligible ((index + d) mod n) v /\ (submit ((index + d) mod n) req v).2.1 = OK)
    | Some (i, rep) => i = index' /\ 0 <= i < n /\
        exists v, I v /\ eligible i v /\ submit i req v = (w', (OK, rep))
    end) as Hnext.
  { intros w1 Hw1 Hno. rewrite (proj1 (I_srvs w1 Hw1)), Z.rem_mod_nonneg by lia. destruct (IH ((index + 1) mod n) w1 Hw1) as (w' & i' & ans & H1 & H2 & H3);
      [apply Z.mod_pos_bound; lia|].
    exists w', i', ans. split_and!; [done|done|]. destruct ans as [[i rep]|]; [done|].
    intros d Hd. destruct (decide (d = 0)) as [->|Hd0].
    - by rewrite Z.add_0_r, Z.mod_small.
    - specialize (H3 (d - 1)). rewrite Z.add_mod_idemp_l in H3 by lia.
      replace (index + 1 + (d - 1)) with (index + d) in H3 by lia. apply H3. lia. }
  destruct (idx_ok (connected w) index) as [conn Hconn]; [rewrite I_connected by done; lia|].
  destruct (idx_ok (srvs w) index) as [s Hs]; [lia|]. rewrite Hconn. cbn [res_bind].
  destruct conn.
  2:{ cbn [res_bind]. apply Hnext; [done|]. intros H. destruct (H w Hw) as [(Hc & _) _]. congruence. }
  rewrite Hs. cbn [res_bind]. pose proof Hs as [_ Hin%list_elem_of_lookup_2]%idx_Ret.
  destruct (Hall s Hin) as [s' ->].
  destruct (bool_decide (is_Some (rsm s')) && inPartition index p) eqn:E; cbn [res_bind].
  - bool_to_prop. pose proof (I_submit index w Hw) as Hw'. destruct (submit index req w) as [w' [err rep]] eqn:Es.
    case_decide as He.
    + subst err. exists w', index, (Some (index, rep)). split_and!; [done|done|done|lia|lia|].
      exists w. split_and!; [done| |done]. split_and!; [done|by exists s'|done].
    + apply Hnext; [done|]. intros Hacc. destruct (Hacc w Hw) as [_ H']. by rewrite Es in H'.
  - apply Hnext; [done|]. intros Hacc. destruct (Hacc w Hw) as [(_ & (s1 & Hs1 & Hr) & Hp) _].
    assert (s1 = s') as -> by congruence. by rewrite bool_decide_true, Hp in E.
Qed.

(** [i] takes the operation whenever it is asked. *)
Definition willing (i : Z) : Prop := forall v, I v -> eligible i v /\ (submit i req v).2.1 = OK.

Lemma onePartition_spec rounds leader w :
  I w -> 0 <= leader < n ->
  exists w' leader' rep,
    onePartition connected srvs submit rounds p req leader w = Ret (w', leader', rep) /\
    ((0 <= leader' < n /\ exists v, I v /\ eligible leader' v /\ submit leader' req v = (w', (OK, rep))) \/
     (rep = None /\ leader' = leader /\ ((0 < rounds)%nat -> forall i, 0 <= i < n -> ~ willing i))).
Proof.
  intros Hw Hl. revert w Hw. induction rounds as [|rounds IH]; intros w Hw; cbn [onePartition].
  { exists w, leader, None. split; [done|]. right. split_and!; [done|done|lia]. }
  destruct (try_servers_spec (length (srvs w)) leader w Hw Hl) as (w1 & index & answer & -> & Hw1 & Hans).
  cbn [res_bind]. destruct answer as [[i rep]|].
  - destruct Hans as (_ & Hi & Hv). exists w1, i, rep. split; [done|]. by left.
  - destruct (IH w1 Hw1) as (w' & l' & rep & H1 & H2). exists w', l', rep. split; [done|].
    destruct H2 as [H2|(H2 & H3 & _)]; [by left|right]. split_and!; [done|done|]. intros _ i Hi Hwill.
    destruct (I_srvs w Hw) as [Hlen _]. unfold zlen in Hlen.
    specialize (Hans ((i - leader) mod n) ltac:(pose proof (Z.mod_pos_bound (i - leader) n); lia)).
    rewrite Z.add_mod_idemp_r in Hans by lia. replace (leader + (i - leader)) with i in Hans by lia.
    rewrite Z.mod_small in Hans by lia. done.
Qed.
End submitting_lemmas.

(** ** Counting *)

Lemma countValue_spec v srvs : countValue v srvs = zlen (filter (fun s => counter s = v) srvs).
Proof.
  unfold countValue. enough (forall a, fold_left (fun i s => if decide (counter s = v) then i + 1 else i) srvs a =
    a + zlen (filter (fun s => counter s = v) srvs)) as H by apply H.
  induction srvs as [|s srvs IH]; intros a; cbn [fold_left]; [rewrite filter_nil, zlen_nil; lia|].
  rewrite IH, filter_cons. case_decide; [rewrite zlen_cons; lia|done].
Qed.

Lemma check_loop_spec iters v nsrv polls :
  check_loop iters v nsrv polls = Ret tt /\ (exists k, (k < iters)%nat /\ nsrv <= countValue v (polls k)) \/
  check_loop iters v nsrv polls = Panic Fatal /\ forall k, (k < iters)%nat -> countValue v (polls k) < nsrv.
Proof.
  revert polls. induction iters as [|iters IH]; intros polls; cbn [check_loop]; [right; split; [done|lia]|].
  case_decide; [left; split; [done|]; exists 0%nat; split; lia|].
  destruct (IH (fun k => polls (S k))) as [[H1 (k & ? & ?)]|[H1 H2]].
  - left. split; [done|]. exists (S k). split; [lia|done].
  - right. split; [done|]. intros [|k] Hk; [lia|]. apply H2. lia.
Qed.

(** checkCounter passes when, at one of its thirty polls, [nsrv] servers have the value. *)
Lemma checkCounter_exact v nsrv polls :
  checkCounter v nsrv polls = Ret tt <->
  exists k, (k < 30)%nat /\ nsrv <= zlen (filter (fun s => counter s = v) (polls k)).
Proof.
  unfold checkCounter. setoid_rewrite <- countValue_spec.
  destruct (check_loop_spec 30 v nsrv polls) as [[-> H]|[-> H]]; [by split|].
  split; [done|]. intros (k & Hk & ?). specialize (H k Hk). lia.
Qed.

(** Leader finds the first server with a service that leads. *)
Section leader_lemmas.
Context {Svc : Type} (get_state : Svc -> option (Z * bool)).
Definition leads (ss : list Svc) : Prop := exists s t, s ∈ ss /\ get_state s = Some (t, true).

Lemma leads_existsb ss :
  existsb (fun s => match get_state s with Some (_, l) => l | None => false end) ss = true <-> leads ss.
Proof.
  rewrite existsb_exists. split.
  - intros (s & Hin%list_elem_of_In & Hs). destruct (get_state s) as [[t []]|] eqn:E; [|done|done]. by exists s, t.
  - intros (s & t & Hin%list_elem_of_In & Hs). exists s. by rewrite Hs.
Qed.

Lemma find_leader_spec i services :
  match find_leader get_state i services with
  | (true, j) => exists ss, i <= j /\ services !! Z.to_nat (j - i) = Some ss /\ leads ss /\
      forall k ss', services !! k = Some ss' -> i + Z.of_nat k < j -> ~ leads ss'
  | (false, _) => forall ss, ss ∈ services -> ~ leads ss
  end.
Proof.
  revert i. induction services as [|ss services IH]; intros i; cbn [find_leader]; [by intros ? ?%not_elem_of_nil|].
  destruct (existsb _ ss) eqn:E.
  - apply leads_existsb in E. exists ss. rewrite Z.sub_diag. split_and!; [lia|done|done|lia].
  - assert (~ leads ss) as Hno by (rewrite <- leads_existsb; congruence).
    specialize (IH (i + 1)). destruct (find_leader get_state (i + 1) services) as [[] j].
    + destruct IH as (ss' & Hj & Hl & Hs & Hall). exists ss'.
      replace (Z.to_nat (j - i)) with (S (Z.to_nat (j - (i + 1)))) by lia. split_and!; [lia|done|done|].
      intros [|k] x Hx Hk; cbn in Hx; [congruence|]. apply (Hall k); [done|lia].
    + intros x [->|Hx]%elem_of_cons; [done|by apply IH].
Qed.
End leader_lemmas.

(** The reply is read after the lock is released: of two increments at the same time neither may
    answer the first number. *)
Lemma racing_increments rs :
  counter rs = 0 ->
  let first := inc_locked rs in let second := inc_locked first in
  inc_reply first = IncRep 1 /\ (inc_reply second, inc_reply second) = (IncRep 2, IncRep 2).
Proof. intros H. cbn. unfold inc_reply, inc_locked. cbn. by rewrite H. Qed.

(** ** Properties *)

(** The server ends the process on an operation that is neither Inc nor
    Null; otherwise any replica answers each Inc with the number of Incs up to it, and one that
    starts from another's snapshot, taken at any point, answers all that follows the same and ends with
    the same counter. *)
Lemma counter_replicated ops1 ops2 s s0 :
  counter s = swrap 64 (counter s) -> (forall op, op ∈ ops1 ++ ops2 -> op = Inc \/ op = Null) ->
  exists s1 reps1 s2 reps2 s0' s2',
    replay ops1 s = Ret (s1, reps1) /\ replay (ops1 ++ ops2) s = Ret (s2, reps1 ++ reps2) /\
    Restore (Snapshot s1) s0 = Ret s0' /\ replay ops2 s0' = Ret (s2', reps2) /\
    counter s2' = counter s2 /\ counter s2 = swrap 64 (counter s + incs (ops1 ++ ops2)) /\
    forall k op, (ops1 ++ ops2) !! k = Some op ->
      (reps1 ++ reps2) !! k = Some (reply_to op (counter s) (incs (take (S k) (ops1 ++ ops2)))).
Proof.
  intros Hc Hops. destruct (replay_counter (ops1 ++ ops2) s (counter s) 0) as (s2 & reps & Hr & Hs2 & _ & Hreps);
    [done|by rewrite Z.add_0_r|].
  destruct (replay_counter ops1 s (counter s) 0) as (s1 & reps1 & Hr1 & _);
    [intros op Hop; apply Hops, elem_of_app; by left|by rewrite Z.add_0_r|].
  destruct (snapshot_catches_up ops1 ops2 s s1 reps1 s2 reps s0 Hr1 Hr) as (s0' & s2' & reps2 & H1 & H2 & H3 & ->).
  exists s1, reps1, s2, reps2, s0', s2'. by split_and!.
Qed.

Definition ex_srv (i c : Z) : rsmSrv := MkRsmSrv i None c.

Lemma counter_replicated_ex :
  replay [Inc; Null; Inc; Inc] (ex_srv 0 5) = Ret (ex_srv 0 8, [IncRep 6; NullRep; IncRep 7; IncRep 8]) /\
  exists s1 reps1 s2 reps2 s0' s2',
    replay [Inc; Null] (ex_srv 0 5) = Ret (s1, reps1) /\
    replay ([Inc; Null] ++ [Inc; Inc]) (ex_srv 0 5) = Ret (s2, reps1 ++ reps2) /\
    Restore (Snapshot s1) (ex_srv 1 0) = Ret s0' /\ replay [Inc; Inc] s0' = Ret (s2', reps2) /\
    counter s2' = counter s2 /\ counter s2 = swrap 64 (counter (ex_srv 0 5) + incs ([Inc; Null] ++ [Inc; Inc])) /\
    forall k op, ([Inc; Null] ++ [Inc; Inc]) !! k = Some op ->
      (reps1 ++ reps2) !! k =
        Some (reply_to op (counter (ex_srv 0 5)) (incs (take (S k) ([Inc; Null] ++ [Inc; Inc])))).
Proof.
  split; [by vm_compute|]. apply (counter_replicated [Inc; Null] [Inc; Inc] (ex_srv 0 5) (ex_srv 1 0)); [by vm_compute|].
  intros op Hop. cbn in Hop. rewrite !elem_of_cons in Hop. destruct Hop as [->|[->|[->|[->|?%not_elem_of_nil]]]]; auto. done.
Defined.

(** Submitting.  The test asks the servers in turn, from the last leader on, round after round.
    It never panics: it ends with the reply of a connected server of the partition that accepted the
    operation, and remembers that server; or, when no server did, with the leader it had and
    nil.  A server that is willing whenever it is asked is not missed. *)
Lemma onePartition_asks_all {W Req Rep : Type} (connected : W -> list bool)
    (srvs : W -> list (option rsmSrv)) (submit : Z -> Req -> W -> W * (Err * option Rep)) n p req (I : W -> Prop)
    rounds leader w :
  (forall i w, I w -> I (submit i req w).1) -> (forall w, I w -> zlen (connected w) = n) ->
  (forall w, I w -> zlen (srvs w) = n /\ forall s, s ∈ srvs w -> is_Some s) ->
  I w -> 0 <= leader < n ->
  exists w' leader' rep,
    onePartition connected srvs submit rounds p req leader w = Ret (w', leader', rep) /\
    ((0 <= leader' < n /\ exists v, I v /\ eligible connected srvs p leader' v /\
        submit leader' req v = (w', (OK, rep))) \/
     (rep = None /\ leader' = leader /\
      ((0 < rounds)%nat -> forall i, 0 <= i < n -> ~ willing connected srvs submit p req I i))).
Proof. intros H1 H2 H3 Hw Hl. by apply (onePartition_spec connected srvs submit n p req I H1 H2 H3). Qed.

(** Three servers, of which the last leads; the second is cut off. *)
Definition ex_rsm (i : Z) : option rsmSrv :=
  match makeRsmSrv 3 i MakePersister (-1) with Ret s => Some s | Panic _ => None end.
Definition ex_srvs (c : Z) : list (option rsmSrv) := [ex_rsm 0; ex_rsm 1; ex_rsm 2].
Definition ex_connected (c : Z) : list bool := [true; false; true].
Definition ex_submit (i : Z) (req : request) (c : Z) : Z * (Err * option reply) :=
  if decide (i = 2) then (c + 1, (OK, Some (IncRep (c + 1)))) else (c, (ErrWrongLeader, None)).

Lemma onePartition_asks_all_ex :
  onePartition ex_connected ex_srvs ex_submit 2 (Some [0; 2]) Inc 0 4 = Ret (5, 2, Some (IncRep 5)) /\
  exists w' leader' rep,
    onePartition ex_connected ex_srvs ex_submit 2 (Some [0; 2]) Inc 0 4 = Ret (w', leader', rep) /\
    ((0 <= leader' < 3 /\ exists v, True /\ eligible ex_connected ex_srvs (Some [0; 2]) leader' v /\
        ex_submit leader' Inc v = (w', (OK, rep))) \/
     (rep = None /\ leader' = 0 /\
      ((0 < 2)%nat -> forall i, 0 <= i < 3 ->
        ~ willing ex_connected ex_srvs ex_submit (Some [0; 2]) Inc (fun _ => True) i))).
Proof.
  split; [by vm_compute|].
  apply (onePartition_asks_all ex_connected ex_srvs ex_submit 3 (Some [0; 2]) Inc (fun _ => True) 2 0 4);
    [done|done| |done|lia].
  intros c _. split; [done|]. intros s Hs. unfold ex_srvs in Hs. rewrite !elem_of_cons in Hs.
  destruct Hs as [->|[->|[->|Hs%not_elem_of_nil]]]; [by vm_compute; eexists..|done].
Defined.

(** With the repository's Submit nothing is ever accepted. *)
Lemma submit_stub_refuses {W Req} (connected : W -> list bool) (srvs : W -> list (option rsmSrv)) r n p
    (req : Req) rounds leader w :
  (forall w, zlen (connected w) = n) ->
  (forall w, zlen (srvs w) = n /\ forall s, s ∈ srvs w -> is_Some s) -> 0 <= leader < n ->
  exists w', onePartition connected srvs (fun _ req w => (w, Submit (Rep := reply) r req)) rounds p req leader w =
    Ret (w', leader, None).
Proof.
  intros H1 H2 Hl.
  destruct (onePartition_spec connected srvs (fun _ req w => (w, Submit (Rep := reply) r req)) n p req (fun _ => True)
    (fun _ _ H => H) (fun w _ => H1 w) (fun w _ => H2 w) rounds leader w I Hl)
    as (w' & l' & rep & H & [(_ & v & _ & _ & Hs)|(-> & -> & _)]); [done|by exists w'].
Qed.

End Rsm.
