(* ===== verification/Servers.v ===== *)
(** * Servers: the replicated stores' servers and clerks (src/src/kvraft1/, src/src/shardkv1/)

    The servers and clerks of the replicated and the sharded store are exercises whose bodies are
    still to be written; they are here as they are: the servers' state, their start, Kill, the
    messages of the shard groups, and handlers and clerks that do nothing.  A client is its
    pointer, as in Tester. *)
From S2P Require Import Prelude LabRpc Persister Raft KvSrv Tester Rsm.
Import Rpc.
Local Open Scope Z_scope.
Local Open Scope go_scope.

(** A clerk's answer to Get. *)
Definition get_answer : Type := string * Tversion * Err.

(** ** kvraft1 *)

Module KvRaft.

(** server.go *)
Record KVServer := MkKVServer { me : Z; dead : Z; rsm : option Rsm.RSM }.

Definition DoOp {Req Rep} (req : Req) (kv : KVServer) : res (KVServer * option Rep) := Ret (kv, None).
Definition Snapshot (kv : KVServer) : list gobval := [].
Definition Restore (data : list gobval) (kv : KVServer) : res KVServer := Ret kv.

#[export] Instance sm {Req Rep} : Rsm.StateMachine KVServer Req (option Rep) := {
  DoOp := DoOp;
  Snapshot := Snapshot;
  Restore := Restore;
}.

(** The handlers leave the reply as it is. *)
Definition Get (args : GetArgs) (reply : GetReply) (kv : KVServer) : KVServer * GetReply := (kv, reply).
Definition Put (args : PutArgs) (reply : PutReply) (kv : KVServer) : KVServer * PutReply := (kv, reply).

Definition Kill (kv : KVServer) : KVServer := MkKVServer (me kv) 1 (rsm kv).
Definition killed (kv : KVServer) : bool := bool_decide (dead kv = 1).

(** The services of a server: the store, and its Raft peer. *)
Inductive service := Store (kv : KVServer) | Peer (rf : Raft.Raft).
(** [servers] are [n] ends; the group's id is not used. *)
Definition StartKVServer (n gid me : Z) (persister : Persister) (maxraftstate : Z) : res (list service) :=
  let kv := MkKVServer me 0 None in
  let! r := Rsm.MakeRSM n me persister maxraftstate in
  let kv := MkKVServer me 0 (Some r) in
  Ret [Store kv; Peer (Rsm.rsm_Raft r)].

(** Which of them is a raftapi.Raft. *)
Definition get_state (s : service) : option (Z * bool) :=
  match s with Store _ => None | Peer rf => Some (Raft.GetState rf) end.

(** client.go *)
Record Clerk := MkClerk { clnt : positive; servers : list string }.

Definition MakeClerk (clnt : positive) (servers : list string) : Clerk := MkClerk clnt servers.
Definition Clerk_Get (ck : Clerk) (key : string) : get_answer := ("", 0, "").
Definition Clerk_Put (ck : Clerk) (key value : string) (version : Tversion) : Err := "".
End KvRaft.

(** ** shardkv1/shardgrp *)

Module ShardGrp.

(** shardrpc/shardrpc.go; a [Tnum] and a [Tshid] are ints. *)
Record FreezeShardArgs := MkFreezeArgs { fa_Shard : Z; fa_Num : Z }.
Record FreezeShardReply := MkFreezeReply { fr_State : list Byte.byte; fr_Num : Z; fr_Err : Err }.
Record InstallShardArgs := MkInstallArgs { ia_Shard : Z; ia_State : list Byte.byte; ia_Num : Z }.
Record InstallShardReply := MkInstallReply { ir_Err : Err }.
Record DeleteShardArgs := MkDeleteArgs { da_Shard : Z; da_Num : Z }.
Record DeleteShardReply := MkDeleteReply { dr_Err : Err }.

(** server.go *)
Record KVServer := MkKVServer { me : Z; dead : Z; rsm : option Rsm.RSM; gid : Z }.

Definition DoOp {Req Rep} (req : Req) (kv : KVServer) : res (KVServer * option Rep) := Ret (kv, None).
Definition Snapshot (kv : KVServer) : list gobval := [].
Definition Restore (data : list gobval) (kv : KVServer) : res KVServer := Ret kv.

#[export] Instance sm {Req Rep} : Rsm.StateMachine KVServer Req (option Rep) := {
  DoOp := DoOp;
  Snapshot := Snapshot;
  Restore := Restore;
}.

Definition Get (args : GetArgs) (reply : GetReply) (kv : KVServer) : KVServer * GetReply := (kv, reply).
Definition Put (args : PutArgs) (reply : PutReply) (kv : KVServer) : KVServer * PutReply := (kv, reply).
Definition FreezeShard (args : FreezeShardArgs) (reply : FreezeShardReply) (kv : KVServer)
    : KVServer * FreezeShardReply := (kv, reply).
Definition InstallShard (args : InstallShardArgs) (reply : InstallShardReply) (kv : KVServer)
    : KVServer * InstallShardReply := (kv, reply).
Definition DeleteShard (args : DeleteShardArgs) (reply : DeleteShardReply) (kv : KVServer)
    : KVServer * DeleteShardReply := (kv, reply).

Definition Kill (kv : KVServer) : KVServer := MkKVServer (me kv) 1 (rsm kv) (gid kv).
Definition killed (kv : KVServer) : bool := bool_decide (dead kv = 1).

Inductive service := Store (kv : KVServer) | Peer (rf : Raft.Raft).
Definition StartServerShardGrp (n gid me : Z) (persister : Persister) (maxraftstate : Z) : res (list service) :=
  let! r := Rsm.MakeRSM n me persister maxraftstate in
  let kv := MkKVServer me 0 (Some r) gid in
  Ret [Store kv; Peer (Rsm.rsm_Raft r)].

(** client.go *)
Record Clerk := MkClerk { clnt : positive; servers : list string }.

Definition MakeClerk (clnt : positive) (servers : list string) : Clerk := MkClerk clnt servers.
Definition Clerk_Get (ck : Clerk) (key : string) : get_answer := ("", 0, "").
Definition Clerk_Put (ck : Clerk) (key value : string) (version : Tversion) : Err := "".
Definition Clerk_FreezeShard (ck : Clerk) (s num : Z) : option (list Byte.byte) * Err := (None, "").
Definition Clerk_InstallShard (ck : Clerk) (s : Z) (state : list Byte.byte) (num : Z) : Err := "".
Definition Clerk_DeleteShard (ck : Clerk) (s num : Z) : Err := "".
End ShardGrp.

(** ** The clerks of kvsrv1 and shardkv1, and the controller's *)

Module KvClerk.
(** kvsrv1/client.go; Get and Put are KvSrv's. *)
Record Clerk := MkClerk { clnt : positive; server : string }.
Definition MakeClerk (clnt : positive) (server : string) : Clerk := MkClerk clnt server.
End KvClerk.

Module ShardClerk.
(** shardctrler/shardctrler.go: it keeps its state in the store of the group 0, with one server. *)
Record ShardCtrler := MkShardCtrler { sc_clnt : positive; IKVClerk : KvClerk.Clerk; sc_killed : Z }.
Definition MakeShardCtrler (clnt : positive) : ShardCtrler :=
  let srv := Tester.ServerName Tester.GRP0 0 in
  MkShardCtrler clnt (KvClerk.MakeClerk clnt srv) 0.

(** client.go *)
Record Clerk := MkClerk { clnt : positive; sck : ShardCtrler }.
Definition MakeClerk (clnt : positive) (sck : ShardCtrler) : Clerk := MkClerk clnt sck.
Definition Get (ck : Clerk) (key : string) : get_answer := ("", 0, "").
Definition Put (ck : Clerk) (key value : string) (version : Tversion) : Err := "".
End ShardClerk.

(** ** What a started server is *)

(** Its services are the store and a peer that has recovered what the persister holds; to a test that looks
    for a leader the peer is the one that answers. *)
Lemma started_server n gid me p m l :
  KvRaft.StartKVServer n gid me p m = Ret l ->
  exists r, Rsm.MakeRSM n me p m = Ret r /\ Raft.Make n me p = Ret (Rsm.rsm_Raft r) /\
    omap KvRaft.get_state l = [Raft.GetState (Rsm.rsm_Raft r)] /\
    forall kv, KvRaft.Store kv ∈ l -> KvRaft.killed kv = false /\ KvRaft.killed (KvRaft.Kill kv) = true.
Proof.
  unfold KvRaft.StartKVServer, Rsm.MakeRSM. destruct (Raft.Make n me p) as [rf|] eqn:E; [|done].
  cbn [res_bind]. intros [= <-]. eexists. split_and!; [done|done|done|].
  intros kv. rewrite !elem_of_cons. intros [[= ->]|[?|?%not_elem_of_nil]]; done.
Qed.
