(* ===== verification/ShardKv.v ===== *)
(** * ShardKv: the tests of the sharded store (src/src/shardkv1/)

    test.go starts groups of servers and lets a shard controller move the shards to them and
    away from them.  The controller (shardctrler/shardctrler.go) is an exercise that is still to be
    written: what the tests rely on is the class [Controller] and its laws, and the
    repository's stub is an instance without them.  The groups are Tester's, the configurations
    ShardCfg's. *)
From S2P Require Import Prelude LabRpc Persister Raft KvSrv Tester KvTest ShardCfg Rsm.
Import Rpc Tester ShardCfg.
Local Open Scope Z_scope.
Local Open Scope go_scope.

Module ShardKv.

(** ** The controller *)

(** [Sck] is a *ShardCtrler, [W] what the controllers share.  Query's answer may be nil. *)
Class Controller (W Sck : Type) := {
  MakeShardCtrler : W -> W * Sck;
  InitController : Sck -> W -> W;
  InitConfig : Sck -> ShardConfig -> W -> W;
  ChangeConfigTo : Sck -> ShardConfig -> W -> W;
  Query : Sck -> W -> W * option ShardConfig;
}.

(** A controller that nobody supersedes: Query returns the current configuration, ChangeConfigTo and
    InitConfig make theirs the current one. *)
Class ControllerLaws (W Sck : Type) `{Controller W Sck} := {
  current : W -> ShardConfig;
  query_current : forall sck w, exists w', Query sck w = (w', Some (current w)) /\ current w' = current w;
  change_current : forall sck new w, current (ChangeConfigTo sck new w) = new;
  init_current : forall sck cfg w, current (InitConfig sck cfg w) = cfg;
}.

(** shardctrler.go as it is. *)
Definition stub_controller : Controller unit unit := {|
  MakeShardCtrler := fun w => (w, tt);
  InitController := fun _ w => w;
  InitConfig := fun _ _ w => w;
  ChangeConfigTo := fun _ _ w => w;
  Query := fun _ w => (w, None);
|}.

(** ** test.go *)

Definition NSRV : Z := 3.

Section shardkv.
Context {Svc W Sck : Type} `{Controller W Sck}.

(** The next group's id, the controllers, the groups and what they run on. *)
Record Test := MkTest {
  ngid : Z;
  ctl : W;
  grps : gmap Z (ServerGrp Svc);
  host : tstate Svc;
}.

Definition with_ctl (w : W) (ts : Test) : Test := MkTest (ngid ts) w (grps ts) (host ts).

(** A group's ends and servers when it is started. *)
Record boot := MkBoot { b_names : list (list string); b_news : list (newServer Svc) }.

(** MakeTestMaxRaft: the group of the controllers' store, with one server. *)
Definition MakeTestMaxRaft (b : boot) (reliable : bool) (w : W) : res (Test * Config Svc) :=
  let! (st, cfg) := MakeConfig (b_names b) (b_news b) reliable in
  Ret (MkTest (Gid1 + 1) w (cf_groups cfg) st, Begin st cfg).

Definition newGid (ts : Test) : Test * Z :=
  (MkTest (swrap 64 (ngid ts + 1)) (ctl ts) (grps ts) (host ts), ngid ts).

Fixpoint groups_loop (n : nat) (ts : Test) : Test * list Z :=
  match n with
  | O => (ts, [])
  | S n => let '(ts, gid) := newGid ts in let '(ts, gids) := groups_loop n ts in (ts, gid :: gids)
  end.
Definition groups (n : Z) (ts : Test) : res (Test * list Z) :=
  if decide (0 <= n) then Ret (groups_loop (Z.to_nat n) ts) else Panic MakeNegativeLen.

(** [ts.Config.MakeGroupStart(gid, NSRV, ...)] *)
Definition start_group (gid : Z) (b : boot) (ts : Test) : res Test :=
  let! (st, gs) := MakeGroupStart (b_names b) (b_news b) gid (grps ts) (host ts) in
  Ret (MkTest (ngid ts) (ctl ts) gs st).
(** [ts.Group(gid).SrvNames()] *)
Definition group_names (gid : Z) (ts : Test) : res (list string) :=
  match lookupGroup gid (grps ts) with Some sg => Ret (SrvNames sg) | None => Panic NilDereference end.

(** [cfg := sck.Query()]: a method of a nil configuration panics. *)
Definition query (sck : Sck) (ts : Test) : res (Test * ShardConfig) :=
  let '(w, cfg) := Query sck (ctl ts) in
  match cfg with Some cfg => Ret (with_ctl w ts, cfg) | None => Panic NilDereference end.

Definition checkMember (sck : Sck) (gid : Z) (ts : Test) : res (Test * bool) :=
  let! (ts, cfg) := query sck ts in Ret (ts, IsMember gid cfg).

Definition setupKVService (b : boot) (ts : Test) : res (Test * Sck * Z) :=
  let '(w, sck) := MakeShardCtrler (ctl ts) in
  let! ts := start_group Gid1 b (with_ctl w ts) in
  let! names := group_names Gid1 ts in
  let! (scfg, _) := JoinBalance [(Gid1, names)] MakeShardConfig in
  Ret (with_ctl (InitConfig sck scfg (ctl ts)) ts, sck, Gid1).

Definition join (sck : Sck) (gid : Z) (srvs : list string) (ts : Test) : res Test :=
  let! (ts, cfg) := query sck ts in
  let! (newcfg, ok) := JoinBalance [(gid, srvs)] (Copy cfg) in
  if (ok : bool) then Ret (with_ctl (ChangeConfigTo sck newcfg (ctl ts)) ts) else Panic Fatal.

Fixpoint joinGroups (sck : Sck) (gids : list (Z * boot)) (ts : Test) : res (Test * bool) :=
  match gids with
  | [] => Ret (ts, true)
  | (gid, b) :: gids =>
      let! ts := start_group gid b ts in
      let! names := group_names gid ts in
      let! ts := join sck gid names ts in
      let! (ts, ok) := checkMember sck gid ts in
      if (ok : bool) then joinGroups sck gids ts else Ret (ts, false)
  end.

Definition leave (sck : Sck) (gid : Z) (ts : Test) : res Test :=
  let! (ts, cfg) := query sck ts in
  let! (newcfg, ok) := LeaveBalance [gid] (Copy cfg) in
  if (ok : bool) then Ret (with_ctl (ChangeConfigTo sck newcfg (ctl ts)) ts) else Panic Fatal.

Fixpoint leaveGroups (sck : Sck) (gids : list Z) (ts : Test) : res (Test * bool) :=
  match gids with
  | [] => Ret (ts, true)
  | gid :: gids =>
      let! ts := leave sck gid ts in
      let! (ts, ok) := checkMember sck gid ts in
      if (ok : bool) then Ret (ts, false)
      else
        let! (st, gs) := ExitGroup gid (grps ts) (host ts) in
        leaveGroups sck gids (MkTest (ngid ts) (ctl ts) gs st)
  end.

(** The answers of the Gets, by the number of the key, in the order in which they come until none
    does for two seconds: how many, or an error. *)
Fixpoint completions (va : list string) (got : list (Z * string)) (ndone : Z) : res Z :=
  match got with
  | [] => Ret ndone
  | (i, v) :: got =>
      let! expected := idx va i in
      if decide (v <> expected) then Panic Fatal else completions va got (ndone + 1)
  end.
Definition checkShutdownSharding (down : Z) (ka va : list string) (got : list (Z * string))
    (news : list (newServer Svc)) (ts : Test) : res Test :=
  match lookupGroup down (grps ts) with
  | None => Panic NilDereference
  | Some sg =>
      let! (st, sg) := Shutdown sg (host ts) in
      let! ndone := completions va got 0 in
      if decide (ndone >= zlen ka) then Panic Fatal
      else
        let! (st, sg) := StartServers news sg st in
        Ret (MkTest (ngid ts) (ctl ts) (<[down := sg]> (grps ts)) st)
  end.

(** partitionCtrler: what the second controller finds, when the first was cut off in [state] ([None]
    before it began) with the group [gid], and [num] was the configuration's number before.  [true]: the group is to leave. *)
Inductive ctl_state := JOIN | LEAVE.
Definition check_recovered (num : Z) (state : option ctl_state) (gid : Z) (cfg : ShardConfig) : res bool :=
  if decide (Num cfg <= num) then Panic Fatal
  else
    match state, IsMember gid cfg with
    | Some JOIN, false | Some LEAVE, true => Panic Fatal
    | Some JOIN, true => Ret true
    | _, _ => Ret false
    end.
End shardkv.
Arguments Test : clear implicits.
Arguments boot : clear implicits.

(** ** One change of a configuration *)

(** What Rebalance leaves. *)
Record settled (c : ShardConfig) : Prop := {
  st_sized : sized c;
  st_valid : Groups c <> ∅ -> all_valid c;
  st_zero : Groups c = ∅ -> forall g, g ∈ Shards c -> g = 0;
  st_balanced : balanced c;
}.

Lemma Rebalance_settles c : sized c -> exists c', Rebalance c = Ret c' /\ Num c' = Num c /\ Groups c' = Groups c /\ settled c' /\
  (all_valid c -> balanced c -> Groups c <> ∅ -> c' = c).
Proof.
  intros Hs. destruct (Rebalance_spec c Hs) as (c' & Hr & HN & HG & Hs' & Hz & Hv & Hb & Hsame).
  exists c'. split_and!; try done. split; try done; intros He; rewrite HG in He; auto.
Qed.

Lemma cnt_NoDup l : (forall g, g ∈ l -> cnt g l <= 1) -> NoDup l.
Proof.
  induction l as [|x l IH]; intros Hc; [constructor|]. constructor.
  - intros Hx. pose proof (Hc x ltac:(left)) as H. rewrite cnt_cons, decide_True in H by done.
    apply list_elem_of_lookup in Hx as [k Hk]. rewrite <- (take_drop_middle l k x Hk), cnt_app, cnt_cons, decide_True in H by done.
    pose proof (cnt_range x (take k l)). pose proof (cnt_range x (drop (S k) l)). lia.
  - apply IH. intros g Hg. pose proof (Hc g ltac:(by right)) as H. rewrite cnt_cons in H. case_decide; lia.
Qed.

Lemma cnt_zero g l : ~ g ∈ l -> cnt g l = 0.
Proof.
  intros Hn. unfold cnt, zlen. rewrite length_filter_none; [done|]. apply Forall_forall. by intros x Hx ->.
Qed.

Lemma size_list_to_set_le (l : list Z) : (size (list_to_set l : gset Z) <= length l)%nat.
Proof.
  induction l as [|x l IH]; [done|]. cbn [list_to_set length]. rewrite size_union_alt, size_singleton.
  pose proof (subseteq_size ((list_to_set l : gset Z) ∖ {[x]}) (list_to_set l) ltac:(set_solver)). lia.
Qed.

(** With at least as many groups as shards no group has two. *)
Lemma settled_crowded g c : settled c -> NShards <= Z.of_nat (size (Groups c)) -> cnt g (Shards c) <= 1.
Proof.
  intros [Hs Hv Hz Hb] Hsz. apply dec_stable. intros Hlt. assert (Groups c <> ∅) as Hne by (intros He; rewrite He in Hsz; by apply Hsz).
  assert (g ∈ Shards c) as Hin by (apply cnt_elem; lia). apply list_elem_of_lookup in Hin as [k Hk].
  pose proof (take_drop_middle _ _ _ Hk) as Hsplit. set (l := take k (Shards c) ++ drop (S k) (Shards c)).
  assert (cnt g l >= 1) as Hl.
  { rewrite <- Hsplit, cnt_app, cnt_cons, decide_True in Hlt by done. unfold l. rewrite cnt_app. lia. }
  assert (dom (Groups c) ⊆ (list_to_set l : gset Z)) as Hsub.
  { intros g' Hg'. rewrite elem_of_list_to_set. assert (valid c g) as Hvg by (apply (Hv Hne); by eapply list_elem_of_lookup_2).
    pose proof (Hb g g' Hvg Hg') as Hle. destruct (decide (g' = g)) as [->|Hne']; [apply cnt_elem; lia|].
    apply cnt_elem. rewrite <- Hsplit, !cnt_app, !cnt_cons, decide_True in Hle by done.
    rewrite decide_False in Hle by done. unfold l in *. rewrite !cnt_app in *. lia. }
  apply subseteq_size in Hsub. rewrite size_dom in Hsub.
  pose proof (size_list_to_set_le l) as Hll.
  assert (length (Shards c) = S (length l)) as Hlen by (rewrite <- Hsplit; unfold l; rewrite !length_app; cbn; lia).
  unfold sized, zlen, NShards in *. lia.
Qed.

Lemma join_one gid srvs c :
  sized c -> Groups c !! gid = None -> shares_server (Groups c) srvs = false ->
  exists c', JoinBalance [(gid, srvs)] (Copy c) = Ret (c', true) /\ Num c' = swrap 64 (Num c + 1) /\
    Groups c' = <[gid := srvs]> (Groups c) /\ settled c' /\
    (settled c -> NShards <= Z.of_nat (size (Groups c)) -> Shards c' = Shards c).
Proof.
  intros Hs Hg Hsh. rewrite Copy_equal. unfold JoinBalance, Join. cbn [Join_loop]. rewrite Hg, Hsh. cbn [res_bind].
  set (c1 := MkShardConfig _ _ _). destruct (Rebalance_settles c1 Hs) as (c' & Hr & HN & HG & Hc & Hsame).
  rewrite Hr. cbn [res_bind]. exists c'. split_and!; try done. intros Hst Hsz.
  rewrite Hsame; [done|..|by apply insert_non_empty].
  - intros g Hg'. unfold valid. cbn [c1 Groups]. rewrite dom_insert. apply elem_of_union_r, (st_valid _ Hst); [|done].
    intros He. rewrite He in Hsz. by apply Hsz.
  - intros g g' _ _. pose proof (settled_crowded g c Hst Hsz). pose proof (cnt_range g' (Shards c)). cbn [c1 Shards]. lia.
Qed.

Lemma leave_one gid c :
  sized c -> gid ∈ dom (Groups c) ->
  exists c', LeaveBalance [gid] (Copy c) = Ret (c', true) /\ Num c' = swrap 64 (Num c + 1) /\
    Groups c' = delete gid (Groups c) /\ settled c'.
Proof.
  intros Hs [x Hg]%elem_of_dom. rewrite Copy_equal. unfold LeaveBalance, Leave. cbn [Leave_loop]. rewrite Hg. cbn [res_bind].
  match goal with |- context [Rebalance ?x] => destruct (Rebalance_settles x) as (c' & -> & HN & HG & Hc & _); [exact Hs|] end.
  cbn [res_bind]. by exists c'.
Qed.

Lemma IsMember_true gid c : IsMember gid c = true <-> gid ∈ Shards c.
Proof.
  unfold IsMember. rewrite existsb_exists. setoid_rewrite bool_decide_eq_true. split.
  - intros (g & Hin & ->). by apply list_elem_of_In.
  - intros Hin. exists gid. by split; [apply list_elem_of_In|].
Qed.

(** With as many shards as groups each group has one. *)
Lemma settled_member gid c :
  settled c -> gid <> 0 -> Z.of_nat (size (Groups c)) <= NShards ->
  IsMember gid c = bool_decide (gid ∈ dom (Groups c)).
Proof.
  intros [Hs Hv Hz Hb] H0 Hsz. apply eq_bool_prop_intro. rewrite bool_decide_spec, Is_true_true, IsMember_true.
  destruct (decide (Groups c = ∅)) as [He|He].
  { split; [intros Hin; destruct H0; by apply Hz|]. rewrite He, dom_empty. by intros ?%not_elem_of_empty. }
  split; [by apply Hv|]. intros Hd. apply dec_stable. intros Hno. pose proof (cnt_zero gid (Shards c) Hno) as Hg0.
  assert (NoDup (Shards c)) as Hnd.
  { apply cnt_NoDup. intros g Hg. pose proof (Hb g gid (Hv He g Hg) Hd). lia. }
  assert ((list_to_set (Shards c) : gset Z) ⊆ dom (Groups c) ∖ {[gid]}) as Hsub.
  { intros g. rewrite elem_of_list_to_set, elem_of_difference, elem_of_singleton. intros Hg. split; [by apply Hv|]. by intros ->. }
  apply subseteq_size in Hsub. rewrite size_list_to_set, size_difference in Hsub by (done || set_solver).
  rewrite size_singleton, size_dom in Hsub. unfold sized, zlen in Hs. 
  assert (size (Groups c) <> 0%nat) by (by intros ?%map_size_empty_inv). lia.
Qed.

(** ** The servers' names *)

Lemma ServerName_inj g i g' i' : ServerName g i = ServerName g' i' -> g = g'.
Proof.
  unfold ServerName. intros H. apply (f_equal (Json.expect "server-")) in H.
  rewrite !Json.expect_app in H. injection H as H. apply (f_equal Json.number) in H.
  by rewrite !Json.number_pretty in H by done; injection H as ->.
Qed.

(** Each group's servers have the group's names. *)
Definition named (c : ShardConfig) : Prop :=
  forall g srvs, Groups c !! g = Some srvs -> exists n, srvs = ServerName g <$> seqZ 0 n.

Lemma named_not_shared c gid n :
  named c -> Groups c !! gid = None -> shares_server (Groups c) (ServerName gid <$> seqZ 0 n) = false.
Proof.
  intros Hn Hg. apply not_true_iff_false. unfold shares_server. rewrite existsb_exists.
  intros ([g srvs] & Hin & Hex). apply list_elem_of_In, elem_of_map_to_list in Hin. destruct (Hn g srvs Hin) as [k ->].
  apply existsb_exists in Hex as (s1 & H1%list_elem_of_In & Hex). apply existsb_exists in Hex as (s2 & H2%list_elem_of_In & Heq).
  apply bool_decide_eq_true in Heq as ->. apply list_elem_of_fmap in H1 as (i & -> & _).
  apply list_elem_of_fmap in H2 as (j & Heq & _). apply ServerName_inj in Heq as ->. congruence.
Qed.

(** ** Groups join and leave *)

Section changes.
Context {Svc W Sck : Type} `{CL : ControllerLaws W Sck}.
Implicit Types (ts : Test Svc W) (b : boot Svc).

(** The configuration of a test. *)
Definition config ts : ShardConfig := current (ctl ts).

(** The configuration is balanced, its groups run, and their servers have their names. *)
Record ready ts : Prop := {
  rd_settled : settled (config ts);
  rd_named : named (config ts);
  rd_runs : forall g, g ∈ dom (Groups (config ts)) -> exists sg n, grps ts !! g = Some sg /\ group_ok g n sg;
}.

(** The ends made for the groups are new, and there is one for each pair of servers of a group. *)
Definition boot_ends b : list string := concat (b_names b) ++ concat (n_ends <$> b_news b).
Definition boots_ok (bs : list (boot Svc)) (st : tstate Svc) : Prop :=
  (forall b, b ∈ bs -> length (b_news b) = length (b_names b) /\
     forall x, x ∈ b_news b -> length (n_ends x) = length (b_news b)) /\
  fresh_names (concat (boot_ends <$> bs)) st.

Lemma query_Ret sck ts : exists w', query sck ts = Ret (with_ctl w' ts, config ts) /\ current w' = config ts.
Proof. unfold query. destruct (query_current sck (ctl ts)) as (w' & -> & Hw). by exists w'. Qed.

Lemma start_group_Ret gid b bs ts :
  boots_ok (b :: bs) (host ts) ->
  exists st' sg, start_group gid b ts = Ret (MkTest (ngid ts) (ctl ts) (<[gid := sg]> (grps ts)) st') /\
    group_ok gid (zlen (b_names b)) sg /\ boots_ok bs st'.
Proof.
  intros [Hb Hf]. rewrite fmap_cons in Hf. cbn [concat] in Hf. destruct (Hb b ltac:(left)) as [H1 H2].
  destruct (MakeGroupStart_Ret (b_names b) (b_news b) gid (grps ts) (host ts)) as (st' & sg & Hr & Hok & He).
  { split; [done|done|]. by apply fresh_names_app in Hf as [? _]. }
  exists st', sg. unfold start_group. rewrite Hr. split_and!; [done|done|].
  split; [intros; apply Hb; by right|by eapply fresh_names_after].
Qed.

(** One group joins. *)
Lemma join_Ret sck gid n ts :
  settled (config ts) -> named (config ts) -> Groups (config ts) !! gid = None ->
  exists w', join sck gid (ServerName gid <$> seqZ 0 n) ts = Ret (with_ctl w' ts) /\
    settled (current w') /\ named (current w') /\ Num (current w') = swrap 64 (Num (config ts) + 1) /\
    Groups (current w') = <[gid := ServerName gid <$> seqZ 0 n]> (Groups (config ts)) /\
    (NShards <= Z.of_nat (size (Groups (config ts))) -> Shards (current w') = Shards (config ts)).
Proof.
  intros Hs Hn Hg. unfold join. destruct (query_Ret sck ts) as (w1 & -> & Hw1). cbn [res_bind].
  destruct (join_one gid (ServerName gid <$> seqZ 0 n) (config ts) (st_sized _ Hs) Hg (named_not_shared _ _ _ Hn Hg))
    as (c' & -> & HN & HG & Hc & Hsame). cbn [res_bind].
  exists (ChangeConfigTo sck c' (ctl (with_ctl w1 ts))). rewrite change_current. split_and!; try done; [|auto].
  intros g srvs Hl. rewrite HG in Hl. apply lookup_insert_Some in Hl as [[<- <-]|[_ Hl]]; [by eexists|by apply Hn].
Qed.

Lemma checkMember_Ret sck gid ts :
  exists w', checkMember sck gid ts = Ret (with_ctl w' ts, IsMember gid (config ts)) /\ current w' = config ts.
Proof. unfold checkMember. destruct (query_Ret sck ts) as (w' & -> & Hw). by exists w'. Qed.

(** The round of joinGroups for one group. *)
Lemma join_round sck gid b bs gids ts :
  ready ts -> boots_ok (b :: bs) (host ts) -> ~ gid ∈ dom (Groups (config ts)) ->
  exists ts', joinGroups sck ((gid, b) :: gids) ts =
      (if IsMember gid (config ts') then joinGroups sck gids ts' else Ret (ts', false)) /\
    ready ts' /\ boots_ok bs (host ts') /\ Num (config ts') = swrap 64 (Num (config ts) + 1) /\
    Groups (config ts') = <[gid := ServerName gid <$> seqZ 0 (zlen (b_names b))]> (Groups (config ts)) /\
    (NShards <= Z.of_nat (size (Groups (config ts))) -> Shards (config ts') = Shards (config ts)).
Proof.
  intros [Hs Hn Hr] Hb Hg. apply not_elem_of_dom in Hg. cbn [joinGroups].
  destruct (start_group_Ret gid b bs ts Hb) as (st' & sg & -> & Hok & Hb'). cbn [res_bind].
  set (ts1 := MkTest (ngid ts) (ctl ts) (<[gid := sg]> (grps ts)) st').
  assert (group_names gid ts1 = Ret (ServerName gid <$> seqZ 0 (zlen (b_names b)))) as ->.
  { unfold group_names, lookupGroup, ts1. cbn [grps]. rewrite lookup_insert_eq. unfold SrvNames.
    by destruct Hok as (_ & -> & _). }
  cbn [res_bind]. destruct (join_Ret sck gid (zlen (b_names b)) ts1 Hs Hn Hg) as (w1 & -> & Hs1 & Hn1 & HN & HG & HS).
  cbn [res_bind]. destruct (checkMember_Ret sck gid (with_ctl w1 ts1)) as (w2 & -> & Hw2). cbn [res_bind].
  exists (with_ctl w2 (with_ctl w1 ts1)). unfold config in *. cbn [with_ctl ctl host grps ts1] in *. rewrite Hw2.
  split_and!; [done| |done|done|done|done]. split; unfold config; cbn [with_ctl ctl grps ts1]; rewrite Hw2; [done|done|].
  intros g Hd. rewrite HG, dom_insert, elem_of_union, elem_of_singleton in Hd.
  destruct (decide (g = gid)) as [->|Hne]; [rewrite lookup_insert_eq; by eexists _, _|].
  rewrite lookup_insert_ne by done. apply Hr. by destruct Hd.
Qed.

(** The groups of the configuration after these joined. *)
Definition joined (gids : list (Z * boot Svc)) (groups : gmap Z (list string)) : gmap Z (list string) :=
  add_groups ((fun x => (x.1, ServerName x.1 <$> seqZ 0 (zlen (b_names x.2)))) <$> gids) groups.

Lemma dom_joined gids groups : dom (joined gids groups) = list_to_set gids.*1 ∪ dom groups.
Proof. unfold joined. rewrite dom_add_groups. by rewrite <- list_fmap_compose. Qed.

Lemma joinGroups_Ret sck gids ts :
  ready ts -> boots_ok gids.*2 (host ts) -> NoDup gids.*1 ->
  (forall g, g ∈ gids.*1 -> g <> 0 /\ ~ g ∈ dom (Groups (config ts))) ->
  Z.of_nat (size (Groups (config ts))) + zlen gids <= NShards ->
  exists ts', joinGroups sck gids ts = Ret (ts', true) /\ ready ts' /\
    Groups (config ts') = joined gids (Groups (config ts)) /\
    Num (config ts') = Nat.iter (length gids) (fun x => swrap 64 (x + 1)) (Num (config ts)).
Proof.
  revert ts. induction gids as [|[gid b] gids IH]; intros ts Hr Hb Hnd Hg Hsz.
  { exists ts. by split_and!. }
  rewrite fmap_cons in *. cbn [fst snd] in *. apply NoDup_cons in Hnd as [Hnin Hnd]. rewrite zlen_cons in Hsz.
  destruct (Hg gid ltac:(left)) as [H0 Hnot].
  destruct (join_round sck gid b gids.*2 gids ts Hr Hb Hnot) as (ts1 & -> & Hr1 & Hb1 & HN1 & HG1 & _).
  assert (size (Groups (config ts1)) = S (size (Groups (config ts)))) as Hsz1.
  { rewrite HG1. apply map_size_insert_None. by apply not_elem_of_dom. }
  pose proof (zlen_nonneg gids). rewrite settled_member by (apply Hr1 || done || lia).
  rewrite bool_decide_true by (rewrite HG1, dom_insert; set_solver).
  destruct (IH ts1) as (ts' & -> & Hr' & HG' & HN'); [done|done|done| |lia|].
  - intros g Hin. destruct (Hg g ltac:(by right)) as [? Hn]. split; [done|]. rewrite HG1, dom_insert, elem_of_union, elem_of_singleton.
    intros [->|?]; done.
  - exists ts'. split_and!; [done|done|by rewrite HG', HG1|]. rewrite HN', HN1. cbn [length]. by rewrite Nat.iter_succ_r.
Qed.

(** With twelve groups a further one joins, and is not recognised: it has no shard. *)
Lemma joinGroups_too_many sck gid b ts :
  ready ts -> boots_ok [b] (host ts) -> ~ gid ∈ dom (Groups (config ts)) ->
  NShards <= Z.of_nat (size (Groups (config ts))) ->
  exists ts', joinGroups sck [(gid, b)] ts = Ret (ts', false) /\ gid ∈ dom (Groups (config ts')).
Proof.
  intros Hr Hb Hn Hsz. destruct (join_round sck gid b [] [] ts Hr Hb Hn) as (ts1 & -> & _ & _ & _ & HG & HS).
  exists ts1. split; [|rewrite HG, dom_insert; set_solver].
  destruct (IsMember gid (config ts1)) eqn:E; [|done]. apply IsMember_true in E. destruct Hn.
  apply rd_settled in Hr as [_ Hv _ _]. rewrite HS in E by done. apply Hv; [|done].
  intros He. rewrite He in Hsz. by apply Hsz.
Qed.

(** One group leaves. *)
Lemma leave_Ret sck gid ts :
  settled (config ts) -> named (config ts) -> gid ∈ dom (Groups (config ts)) ->
  exists w', leave sck gid ts = Ret (with_ctl w' ts) /\
    settled (current w') /\ named (current w') /\ Num (current w') = swrap 64 (Num (config ts) + 1) /\
    Groups (current w') = delete gid (Groups (config ts)).
Proof.
  intros Hs Hn Hg. unfold leave. destruct (query_Ret sck ts) as (w1 & -> & Hw1). cbn [res_bind].
  destruct (leave_one gid (config ts) (st_sized _ Hs) Hg) as (c' & -> & HN & HG & Hc). cbn [res_bind].
  exists (ChangeConfigTo sck c' (ctl (with_ctl w1 ts))). rewrite change_current. split_and!; try done.
  intros g srvs Hl. rewrite HG in Hl. apply lookup_delete_Some in Hl as [_ Hl]. by apply Hn.
Qed.

Lemma left_not_member gid c : settled c -> gid <> 0 -> ~ gid ∈ dom (Groups c) -> IsMember gid c = false.
Proof.
  intros [Hs Hv Hz Hb] H0 Hd. apply not_true_iff_false. rewrite IsMember_true. intros Hin.
  destruct (decide (Groups c = ∅)) as [He|He]; [by apply H0, Hz|by apply Hd, Hv].
Qed.

Lemma leaveGroups_Ret sck gids ts :
  ready ts -> NoDup gids -> (forall g, g ∈ gids -> g <> 0 /\ g ∈ dom (Groups (config ts))) ->
  exists ts', leaveGroups sck gids ts = Ret (ts', true) /\ ready ts' /\
    Groups (config ts') = remove_groups gids (Groups (config ts)) /\
    forall g, grps ts' !! g = if decide (g ∈ gids) then None else grps ts !! g.
Proof.
  revert ts. induction gids as [|gid gids IH]; intros ts Hr Hnd Hg.
  { by exists ts. }
  apply NoDup_cons in Hnd as [Hnin Hnd]. destruct (Hg gid ltac:(left)) as [H0 Hd]. destruct Hr as [Hs Hn Hr].
  destruct (Hr gid Hd) as (sg & n & Hsg & Hok).
  cbn [leaveGroups]. destruct (leave_Ret sck gid ts Hs Hn Hd) as (w1 & -> & Hs1 & Hn1 & HN & HG). cbn [res_bind].
  destruct (checkMember_Ret sck gid (with_ctl w1 ts)) as (w2 & -> & Hw2). cbn [res_bind]. unfold config at 1. cbn [ctl with_ctl].
  rewrite left_not_member by (done || (rewrite HG, dom_delete; set_solver)).
  destruct (ExitGroup_Ret gid (grps ts) sg (host ts) Hsg (proj1 Hok)) as (st' & Hex & _).
  cbn [grps host with_ctl ngid ctl]. rewrite Hex. cbn [res_bind].
  set (ts1 := MkTest (ngid ts) w2 (delete gid (grps ts)) st').
  assert (config ts1 = current w1) as Hc by exact Hw2.
  destruct (IH ts1) as (ts' & Hl & Hr' & HG' & Hgone).
  - split; rewrite Hc; [done|done|]. intros g. rewrite HG, dom_delete, elem_of_difference, elem_of_singleton.
    intros [Hgd Hne]. cbn [grps ts1]. rewrite lookup_delete_ne by done. by apply Hr.
  - done.
  - intros g Hin. destruct (Hg g ltac:(by right)) as [? ?]. split; [done|]. rewrite Hc, HG, dom_delete. set_solver.
  - exists ts'. split_and!; [done|done|by rewrite HG', Hc, HG|]. intros g. rewrite Hgone. cbn [grps ts1].
    destruct (decide (g ∈ gids)) as [Hin|Hin]; [by rewrite decide_True by by right|].
    destruct (decide (g = gid)) as [->|Hne]; [by rewrite decide_True, lookup_delete_eq by left|].
    rewrite decide_False, lookup_delete_ne by (done || by intros [?|?]%elem_of_cons). done.
Qed.

Lemma lookup_joined gids groups g : ~ g ∈ gids.*1 -> joined gids groups !! g = groups !! g.
Proof.
  revert groups. induction gids as [|x gids IH]; intros groups Hg; [done|]. rewrite fmap_cons, elem_of_cons in Hg.
  unfold joined. cbn [fmap list_fmap add_groups fold_left]. change (fold_left _ _ ?m) with (joined gids m).
  rewrite IH by tauto. cbn [fst snd]. rewrite lookup_insert_ne; [done|]. intros <-. tauto.
Qed.

Lemma lookup_removed gids (groups : gmap Z (list string)) g :
  remove_groups gids groups !! g = if decide (g ∈ gids) then None else groups !! g.
Proof.
  revert groups. induction gids as [|x gids IH]; intros groups; [done|].
  cbn [remove_groups fold_left]. change (fold_left _ _ ?m) with (remove_groups gids m). rewrite IH.
  destruct (decide (g ∈ gids)) as [Hin|Hin]; [by rewrite decide_True by by right|].
  destruct (decide (g = x)) as [->|Hne]; [by rewrite decide_True, lookup_delete_eq by left|].
  rewrite decide_False, lookup_delete_ne by (done || by intros [?|?]%elem_of_cons). done.
Qed.

Lemma settled_checks c groups :
  settled c -> NoDup groups -> (forall g, g ∈ groups <-> g ∈ dom (Groups c)) -> CheckConfig groups c = Ret tt.
Proof. intros [Hs Hv Hz Hb] Hnd Hg. apply CheckConfig_spec; [done|]. by apply check_list. Qed.

(** ** The set-up *)

Lemma MakeShardConfig_settled : settled MakeShardConfig.
Proof.
  split; [done|done| |].
  - intros _ g Hg. by apply elem_of_replicate in Hg as [-> _].
  - intros g g' Hg. unfold valid in Hg. by apply not_elem_of_empty in Hg.
Qed.

Lemma setup_Ret b bs ts :
  boots_ok (b :: bs) (host ts) ->
  exists ts' sck, setupKVService b ts = Ret (ts', sck, Gid1) /\ ready ts' /\ boots_ok bs (host ts') /\ ngid ts' = ngid ts /\
    Groups (config ts') = {[Gid1 := ServerName Gid1 <$> seqZ 0 (zlen (b_names b))]} /\
    forall g, g ∈ Shards (config ts') -> g = Gid1.
Proof.
  intros Hb. unfold setupKVService. destruct (MakeShardCtrler (ctl ts)) as [w sck].
  destruct (start_group_Ret Gid1 b bs (with_ctl w ts) Hb) as (st' & sg & -> & Hok & Hb'). cbn [res_bind].
  unfold group_names, lookupGroup. cbn [grps with_ctl ctl ngid]. rewrite lookup_insert_eq. unfold SrvNames.
  rewrite (proj1 (proj2 Hok)). cbn [res_bind].
  destruct (join_one Gid1 (ServerName Gid1 <$> seqZ 0 (zlen (b_names b))) MakeShardConfig) as (c' & Hj & HN & HG & Hc & _);
    [apply MakeShardConfig_settled|done|done|].
  change (Groups MakeShardConfig) with (∅ : gmap Z (list string)) in HG. rewrite Copy_equal in Hj. rewrite Hj. cbn [res_bind].
  eexists _, sck. split; [done|]. unfold config. cbn [with_ctl ctl host grps ngid]. rewrite init_current, HG.
  split_and!; [|done|done|done|].
  - split; unfold config; cbn [with_ctl ctl grps]; rewrite ?init_current; [done| |].
    + intros g srvs. rewrite HG. intros [[<- <-]|[_ Hl]]%lookup_insert_Some; [by eexists|by rewrite lookup_empty in Hl].
    + intros g. rewrite HG, dom_insert, dom_empty, elem_of_union, elem_of_singleton.
      intros [->|Hg]; [rewrite lookup_insert_eq; exists sg, (zlen (b_names b)); split; [reflexivity|exact Hok]|destruct (not_elem_of_empty _ Hg)].
  - intros g Hg. apply (st_valid _ Hc) in Hg; [|by rewrite HG; apply insert_non_empty].
    unfold valid in Hg. rewrite HG, dom_insert, dom_empty, elem_of_union, elem_of_singleton in Hg.
    destruct Hg as [Hg|Hg]; [exact Hg|destruct (not_elem_of_empty _ Hg)].
Qed.

(** newGid gives numbers that were not given. *)
Lemma groups_Ret n ts :
  0 <= n -> 0 <= ngid ts -> ngid ts + n < 2 ^ 63 ->
  exists ts', groups n ts = Ret (ts', seqZ (ngid ts) n) /\ ngid ts' = ngid ts + n /\
    ctl ts' = ctl ts /\ grps ts' = grps ts /\ host ts' = host ts.
Proof.
  intros Hn H0 Hlt. unfold groups. rewrite decide_True by done.
  assert (forall k ts, 0 <= ngid ts -> ngid ts + Z.of_nat k < 2 ^ 63 ->
    exists ts', groups_loop k ts = (ts', seqZ (ngid ts) (Z.of_nat k)) /\ ngid ts' = ngid ts + Z.of_nat k /\
      ctl ts' = ctl ts /\ grps ts' = grps ts /\ host ts' = host ts) as Hloop.
  { clear. induction k as [|k IH]; intros ts H0 Hlt; cbn [groups_loop newGid].
    - exists ts. cbn. by rewrite Z.add_0_r.
    - match goal with |- context [groups_loop k ?t] => destruct (IH t) as (ts' & -> & Hg & H1 & H2 & H3) end;
        cbn [ngid ctl grps host] in *; rewrite ?swrap_small in * by lia; [lia|lia|].
      exists ts'. split_and!; [|lia|done|done|done].
      rewrite (seqZ_cons (ngid ts)) by lia. do 3 f_equal; lia. }
  destruct (Hloop (Z.to_nat n) ts) as (ts' & -> & Hg & ?); rewrite ?Z2Nat.id in * by done; [done|done|].
  by exists ts'.
Qed.
End changes.

(** ** Properties *)

(** C32 (groups come and go).  With a controller that nobody supersedes, and at most twelve groups:
    joinGroups starts the new groups and ends with true; the configuration then has exactly the
    groups it had and the new ones, under their servers' names, and passes CheckConfig;
    leaveGroups takes them away again, ends with true, and the groups are stopped and the
    configuration's groups are the old ones. *)
Theorem groups_come_and_go {Svc W Sck : Type} `{CL : ControllerLaws W Sck} (sck : Sck)
    (gids : list (Z * boot Svc)) (ts : Test Svc W) :
  ready ts -> boots_ok gids.*2 (host ts) -> NoDup gids.*1 ->
  (forall g, g ∈ gids.*1 -> g <> 0 /\ ~ g ∈ dom (Groups (config ts))) ->
  Z.of_nat (size (Groups (config ts))) + zlen gids <= NShards ->
  exists ts1 ts2,
    joinGroups sck gids ts = Ret (ts1, true) /\
    Groups (config ts1) = joined gids (Groups (config ts)) /\
    CheckConfig (gids.*1 ++ elements (dom (Groups (config ts)))) (config ts1) = Ret tt /\
    leaveGroups sck gids.*1 ts1 = Ret (ts2, true) /\
    Groups (config ts2) = Groups (config ts) /\
    CheckConfig (elements (dom (Groups (config ts)))) (config ts2) = Ret tt /\
    forall g, g ∈ gids.*1 -> grps ts2 !! g = None.
Proof.
  intros Hr Hb Hnd Hg Hsz. destruct (joinGroups_Ret sck gids ts Hr Hb Hnd Hg Hsz) as (ts1 & H1 & Hr1 & HG1 & _).
  destruct (leaveGroups_Ret sck gids.*1 ts1 Hr1 Hnd) as (ts2 & H2 & Hr2 & HG2 & Hgone).
  { intros g Hin. split; [by apply Hg|]. rewrite HG1, dom_joined, elem_of_union, elem_of_list_to_set. by left. }
  assert (Groups (config ts2) = Groups (config ts)) as HG.
  { rewrite HG2, HG1. apply map_eq. intros g. rewrite lookup_removed. case_decide as Hd; [|by apply lookup_joined].
    symmetry. apply not_elem_of_dom. by apply Hg. }
  exists ts1, ts2. split_and!; try done.
  - apply settled_checks; [apply Hr1| |].
    + apply NoDup_app. split_and!; [done| |apply NoDup_elements]. intros g Hin. rewrite elem_of_elements. by apply Hg.
    + intros g. by rewrite HG1, dom_joined, elem_of_app, elem_of_elements, elem_of_union, elem_of_list_to_set.
  - rewrite <- HG. apply settled_checks; [apply Hr2|apply NoDup_elements|]. intros g. by rewrite elem_of_elements.
  - intros g Hin. by rewrite Hgone, decide_True.
Qed.

(** A controller in memory, and a test without groups. *)
#[local] Instance mem_controller : Controller ShardConfig unit := {
  MakeShardCtrler := fun w => (w, tt);
  InitController := fun _ w => w;
  InitConfig := fun _ cfg _ => cfg;
  ChangeConfigTo := fun _ new _ => new;
  Query := fun _ w => (w, Some w);
}.
#[local] Program Instance mem_laws : ControllerLaws ShardConfig unit := {| current w := w |}.
Next Obligation. by eexists. Qed.
Next Obligation. done. Qed.
Next Obligation. done. Qed.

Definition ex_test : Test unit ShardConfig :=
  MkTest 2 MakeShardConfig ∅ (MkState LabRpc.MakeNetwork [] []).
Definition ex_gids : list (Z * boot unit) :=
  [(2, MkBoot [["a"]] [MkNew ["b"] (fun _ => []) 1]); (3, MkBoot [["c"]] [MkNew ["d"] (fun _ => []) 2])].

Lemma ex_ready : ready ex_test.
Proof. split; [apply MakeShardConfig_settled|by intros g srvs|by intros g ?%not_elem_of_empty]. Qed.

Lemma ex_boots : boots_ok ex_gids.*2 (host ex_test).
Proof.
  split.
  - intros b. cbn. rewrite !elem_of_cons. intros [->|[->|?%not_elem_of_nil]]; [..|done]; (split; [done|]); cbn;
      intros x ->%list_elem_of_singleton; done.
  - split; [apply (bool_decide_eq_true _); vm_compute; reflexivity|]. intros x _. by apply not_elem_of_empty.
Qed.

Lemma groups_come_and_go_witness :
  exists ts1 ts2,
    joinGroups tt ex_gids ex_test = Ret (ts1, true) /\
    Groups (config ts1) = joined ex_gids (Groups (config ex_test)) /\
    CheckConfig (ex_gids.*1 ++ elements (dom (Groups (config ex_test)))) (config ts1) = Ret tt /\
    leaveGroups tt ex_gids.*1 ts1 = Ret (ts2, true) /\
    Groups (config ts2) = Groups (config ex_test) /\
    CheckConfig (elements (dom (Groups (config ex_test)))) (config ts2) = Ret tt /\
    forall g, g ∈ ex_gids.*1 -> grps ts2 !! g = None.
Proof.
  apply (groups_come_and_go tt ex_gids ex_test); [exact ex_ready|exact ex_boots|apply (bool_decide_eq_true _); vm_compute; reflexivity| |].
  - intros g Hg. cbn in Hg. rewrite !elem_of_cons in Hg. split; [|by apply not_elem_of_empty].
    destruct Hg as [->|[->|Hg]]; [done|done|destruct (not_elem_of_nil _ Hg)].
  - vm_compute. congruence.
Defined.

(** The repository's controller answers nil: joinGroups panics. *)
Lemma stub_join_panics (b : boot unit) gid ts ts1 :
  start_group gid b ts = Ret ts1 -> is_Some (grps ts1 !! gid) ->
  joinGroups (H := stub_controller) tt [(gid, b)] ts = Panic NilDereference.
Proof. intros H [sg Hs]. cbn [joinGroups]. rewrite H. cbn. unfold group_names, lookupGroup. by rewrite Hs. Qed.
End ShardKv.
