(* ===== verification/ShardCtl.v ===== *)
(** * ShardCtl: controllers that compete (src/src/shardkv1/test.go: partitionCtrler, concurCtrler)

    The goroutines of both tests let a group join and leave, round after round: [next] is the step of one
    from one of its calls to the next, over ShardKv's operations, and [join_calls] and [leave_calls]
    show that a round without interruption is joinGroups, checkMember and leaveGroups.  What a controller
    promises when others compete with it is the class [CompetingLaws], taken from the comments of
    shardctrler.go; its instance [pair_laws] is a controller over a pair of configurations.  The
    repository's controller is a stub that does not keep them ([ShardKv.stub_join_panics]).  concurCtrler is
    any number of these goroutines.  Of partitionCtrler only its goroutine is here, with what happens to
    it when it was superseded ([superseded_join_returns], [superseded_leave_goes_on]). *)
From S2P Require Import Prelude LabRpc Persister Raft KvSrv Tester KvTest ShardCfg Rsm ShardKv.
Import Rpc Tester ShardCfg ShardKv.
Local Open Scope Z_scope.
Local Open Scope go_scope.

Module ShardCtl.

(** ** What controllers promise *)

(** The comments of shardctrler.go: Query returns "the current configuration", [cur]; ChangeConfigTo
    changes "the configuration from the current one to new", and may be superseded meanwhile;
    InitController "implements recovery".  So the configuration that is current changes only to one that
    ChangeConfigTo was asked for, and only from the one before it: its number is the next.  Whether and
    when it changes is left open: an operation may do nothing, the work of a call may be done in parts,
    or later by the InitController of another controller.  [asked w]: the configurations that ChangeConfigTo
    was asked for and that may still become current. *)
Class View (W : Type) := {
  cur : W -> ShardConfig;
  asked : W -> ShardConfig -> Prop;
}.

(** The current configuration stays, or becomes one of [A] that follows it. *)
Definition evolves {W} `{View W} (A : ShardConfig -> Prop) (w w' : W) : Prop :=
  (forall c, asked w' c -> A c) /\
  (cur w' = cur w \/ (A (cur w') /\ Num (cur w') = Num (cur w) + 1)).

Class CompetingLaws (W Sck : Type) `{C : Controller W Sck} := {
  cl_view :: View W;
  law_query sck w : exists w', Query sck w = (w', Some (cur w)) /\ cur w' = cur w /\ (forall c, asked w' c -> asked w c);
  law_make w : evolves (asked w) w (MakeShardCtrler w).1;
  law_init sck w : evolves (asked w) w (InitController sck w);
  law_change sck new w : evolves (fun c => asked w c \/ c = new) w (ChangeConfigTo sck new w);
}.

Section controllers.
Context {Svc W Sck : Type}.

(** ** The goroutines *)

(** Where a goroutine is: at the top of its loop; with a new group's id [g] (partitionCtrler: before
    [state = JOIN]); before InitController; in joinGroups: before MakeGroupStart, Query, ChangeConfigTo and
    checkMember; before its own checkMember; before leaveGroups (partitionCtrler: before
    [state = LEAVE]); in leaveGroups: before Query, ChangeConfigTo, checkMember and ExitGroup; returned. *)
Inductive loc :=
| Top
| Named (g : Z)
| Init (sck : Sck) (g : Z)
| Start (sck : Sck) (g : Z)
| JoinQ (sck : Sck) (g : Z) (names : list string)
| JoinC (sck : Sck) (g : Z) (new : ShardConfig)
| JoinM (sck : Sck) (g : Z)
| Member (sck : Sck) (g : Z)
| Leaving (sck : Sck) (g : Z)
| LeaveQ (sck : Sck) (g : Z)
| LeaveC (sck : Sck) (g : Z) (new : ShardConfig)
| LeaveM (sck : Sck) (g : Z)
| Exit (sck : Sck) (g : Z)
| Stopped.

Context `{C : Controller W Sck}.
Implicit Types (ts : Test Svc W) (b : boot Svc) (l : loc).

(** One call.  partitionCtrler's goroutine has one controller, [own], and returns when its group is not a
    member; concurCtrler's goroutines make one for each group, and go on. *)
Definition next (own : option Sck) b l ts : res (loc * Test Svc W) :=
  match l with
  | Top => let '(ts, g) := newGid ts in Ret (Named g, ts)
  | Named g =>
      match own with
      | Some sck => Ret (Start sck g, ts)
      | None => let '(w, sck) := MakeShardCtrler (ctl ts) in Ret (Init sck g, with_ctl w ts)
      end
  | Init sck g => Ret (Start sck g, with_ctl (InitController sck (ctl ts)) ts)
  | Start sck g =>
      let! ts := start_group g b ts in
      let! names := group_names g ts in
      Ret (JoinQ sck g names, ts)
  | JoinQ sck g names =>
      let! (ts, cfg) := query sck ts in
      let! (newcfg, ok) := JoinBalance [(g, names)] (Copy cfg) in
      if (ok : bool) then Ret (JoinC sck g newcfg, ts) else Panic Fatal
  | JoinC sck g new => Ret (JoinM sck g, with_ctl (ChangeConfigTo sck new (ctl ts)) ts)
  | JoinM sck g => let! (ts, _) := checkMember sck g ts in Ret (Member sck g, ts)
  | Member sck g =>
      let! (ts, ok) := checkMember sck g ts in
      if (ok : bool) then Ret (Leaving sck g, ts)
      else match own with Some _ => Ret (Stopped, ts) | None => Ret (Top, ts) end
  | Leaving sck g => Ret (LeaveQ sck g, ts)
  | LeaveQ sck g =>
      let! (ts, cfg) := query sck ts in
      let! (newcfg, ok) := LeaveBalance [g] (Copy cfg) in
      if (ok : bool) then Ret (LeaveC sck g newcfg, ts) else Panic Fatal
  | LeaveC sck g new => Ret (LeaveM sck g, with_ctl (ChangeConfigTo sck new (ctl ts)) ts)
  | LeaveM sck g =>
      let! (ts, ok) := checkMember sck g ts in
      if (ok : bool) then Ret (Top, ts) else Ret (Exit sck g, ts)
  | Exit sck g =>
      let! (st, gs) := ExitGroup g (grps ts) (host ts) in
      Ret (Top, MkTest (ngid ts) (ctl ts) gs st)
  | Stopped => Ret (Stopped, ts)
  end.

(** [n] calls of a goroutine that nobody interrupts. *)
Fixpoint calls (own : option Sck) b (n : nat) l ts : res (loc * Test Svc W) :=
  match n with
  | O => Ret (l, ts)
  | S n => let! (l, ts) := next own b l ts in calls own b n l ts
  end.

(** They are the methods of ShardKv. *)
Lemma join_calls own b sck g ts :
  calls own b 4 (Start sck g) ts =
    let! (ts, _) := joinGroups sck [(g, b)] ts in Ret (Member sck g, ts).
Proof.
  cbn [calls next joinGroups]. destruct (start_group g b ts) as [ts1|]; [|done]. cbn [res_bind].
  destruct (group_names g ts1) as [names|]; [|done]. unfold join. cbn [res_bind next].
  destruct (query sck ts1) as [[ts2 cfg]|]; [|done]. cbn [res_bind].
  destruct (JoinBalance _ _) as [[new []]|]; [|done..]. cbn [res_bind next].
  destruct (checkMember _ _ _) as [[ts3 []]|]; done.
Qed.

Definition leave_steps own b sck g ts : res (loc * Test Svc W) :=
  let! (l, ts) := calls own b 3 (LeaveQ sck g) ts in
  match l with Exit _ _ => next own b l ts | _ => Ret (l, ts) end.
Lemma leave_calls own b sck g ts :
  leave_steps own b sck g ts = let! (ts, _) := leaveGroups sck [g] ts in Ret (Top, ts).
Proof.
  unfold leave_steps. cbn [calls next leaveGroups]. unfold leave. destruct (query sck ts) as [[ts2 cfg]|]; [|done]. cbn [res_bind].
  destruct (LeaveBalance _ _) as [[new []]|]; [|done..]. cbn [res_bind next].
  destruct (checkMember _ _ _) as [[ts3 []]|]; [done| |done]. cbn [res_bind next].
  destruct (ExitGroup _ _ _) as [[st gs]|]; done.
Qed.
End controllers.
Arguments loc : clear implicits.

(** ** One change *)

(** A group of both configurations keeps a shard. *)
Definition keeps (c c' : ShardConfig) : Prop :=
  forall g, g ∈ dom (Groups c) -> g ∈ dom (Groups c') -> g ∈ Shards c -> g ∈ Shards c'.

(** [c'] is [c] after the group [h] joined or left. *)
Record follows (h : Z) (c c' : ShardConfig) : Prop := {
  fo_settled : settled c';
  fo_named : named c';
  fo_num : Num c' = Num c + 1;
  fo_groups : forall g, g <> h -> g ∈ dom (Groups c') <-> g ∈ dom (Groups c);
  fo_keep : keeps c c';
}.

Lemma join_follows g n c :
  settled c -> named c -> ~ g ∈ dom (Groups c) -> 0 <= Num c -> Num c + 1 < 2 ^ 63 ->
  exists c', JoinBalance [(g, ServerName g <$> seqZ 0 n)] (Copy c) = Ret (c', true) /\ follows g c c' /\
    dom (Groups c') = {[g]} ∪ dom (Groups c).
Proof.
  intros Hs Hn Hg%not_elem_of_dom H0 Hlt.
  destruct (join_one g (ServerName g <$> seqZ 0 n) c (st_sized _ Hs) Hg (named_not_shared _ _ _ Hn Hg)) as (c' & Hj & HN & HG & Hc & _).
  assert (dom (Groups c') = {[g]} ∪ dom (Groups c)) as Hd by (rewrite HG; apply dom_insert_L).
  exists c'. split_and!; [done| |done]. split; [done| |by rewrite HN, swrap_small by lia|rewrite Hd; set_solver|].
  - intros g' srvs. rewrite HG. intros [[<- <-]|[_ Hl]]%lookup_insert_Some; [by eexists|by apply Hn].
  - intros g' Hg' _ Hin. unfold JoinBalance, Join in Hj. rewrite Copy_equal in Hj. cbn [Join_loop] in Hj.
    rewrite Hg, (named_not_shared _ _ _ Hn Hg) in Hj. cbn [res_bind] in Hj.
    match type of Hj with context [Rebalance ?c1] => destruct (Rebalance c1) as [c2|] eqn:Hr; [|done] end.
    cbn [res_bind] in Hj. simplify_eq. eapply Rebalance_keeps; [|exact Hr| |exact Hin]; [apply Hs|].
    unfold valid. cbn [Groups]. rewrite dom_insert. set_solver.
Qed.

Lemma leave_follows g c :
  settled c -> named c -> g ∈ dom (Groups c) -> 0 <= Num c -> Num c + 1 < 2 ^ 63 ->
  exists c', LeaveBalance [g] (Copy c) = Ret (c', true) /\ follows g c c' /\ dom (Groups c') = dom (Groups c) ∖ {[g]}.
Proof.
  intros Hs Hn Hg H0 Hlt. destruct (leave_one g c (st_sized _ Hs) Hg) as (c' & Hl & HN & HG & Hc).
  assert (dom (Groups c') = dom (Groups c) ∖ {[g]}) as Hd by (rewrite HG; apply dom_delete_L).
  exists c'. split_and!; [done| |done]. split; [done| |by rewrite HN, swrap_small by lia|rewrite Hd; set_solver|].
  - intros g' srvs. rewrite HG. intros [_ Hl']%lookup_delete_Some. by apply Hn.
  - intros g' _ Hg' Hin. unfold LeaveBalance, Leave in Hl. rewrite Copy_equal in Hl. cbn [Leave_loop] in Hl.
    apply elem_of_dom in Hg as [srvs Hg]. rewrite Hg in Hl. cbn [res_bind] in Hl.
    match type of Hl with context [Rebalance ?c1] => destruct (Rebalance c1) as [c2|] eqn:Hr; [|done] end.
    cbn [res_bind] in Hl. simplify_eq. eapply Rebalance_keeps; [|exact Hr| |exact Hin]; [apply Hs|].
    unfold valid. cbn [Groups]. rewrite Hd in Hg'. rewrite dom_delete. set_solver.
Qed.

(** ** The invariant *)

Section invariant.
Context {Svc Sck : Type} (base : gset Z).
Implicit Types (gs : gmap Z (ServerGrp Svc)) (c p new : ShardConfig) (l : loc Sck) (ls : list (loc Sck)) (n g : Z).

Definition runs gs g : Prop := exists sg k, gs !! g = Some sg /\ group_ok g k sg.

(** The goroutine's group. *)
Definition gid_of l : option Z :=
  match l with
  | Top | Stopped => None
  | Named g | Init _ g | Start _ g | JoinQ _ g _ | JoinC _ g _ | JoinM _ g | Member _ g
  | Leaving _ g | LeaveQ _ g | LeaveC _ g _ | LeaveM _ g | Exit _ g => Some g
  end.
Definition started l : bool :=
  match l with Top | Stopped | Named _ | Init _ _ | Start _ _ => false | _ => true end.
(** The change it is at. *)
Definition change_of l : option (Sck * Z * ShardConfig) :=
  match l with JoinC sck g new | LeaveC sck g new => Some (sck, g, new) | _ => None end.

(** [new] was made from a configuration that was current. *)
Definition pending c p g new : Prop :=
  exists c0, follows g c0 new /\ Num c0 <= Num c /\ (Num c0 = Num p -> c0 = p).

(** The current and the planned configuration as the goroutine's place has them. *)
Definition placed c p l : Prop :=
  match l with
  | Top | Stopped => True
  | Named g | Init _ g | Start _ g | Exit _ g => ~ g ∈ dom (Groups c) /\ ~ g ∈ dom (Groups p)
  | JoinQ _ g names =>
      (~ g ∈ dom (Groups c) /\ ~ g ∈ dom (Groups p)) /\ exists k, names = ServerName g <$> seqZ 0 k
  | JoinC _ g new => pending c p g new /\ g ∈ dom (Groups new) /\ (g ∈ dom (Groups c) -> g ∈ dom (Groups p))
  | JoinM _ g | Member _ g => g ∈ dom (Groups c) -> g ∈ dom (Groups p)
  | Leaving _ g | LeaveQ _ g => (g ∈ dom (Groups c) /\ g ∈ dom (Groups p)) /\ g ∈ Shards c /\ g ∈ Shards p
  | LeaveC _ g new =>
      pending c p g new /\ ~ g ∈ dom (Groups new) /\ (g ∈ dom (Groups p) -> g ∈ dom (Groups c)) /\
      (g ∈ dom (Groups c) -> g ∈ Shards c) /\ (g ∈ dom (Groups p) -> g ∈ Shards p)
  | LeaveM _ g =>
      (g ∈ dom (Groups p) -> g ∈ dom (Groups c)) /\
      (g ∈ dom (Groups c) -> g ∈ Shards c) /\ (g ∈ dom (Groups p) -> g ∈ Shards p)
  end.

Definition loc_ok gs n c p l : Prop :=
  placed c p l /\
  forall g, gid_of l = Some g -> 0 < g < n /\ ~ g ∈ base /\ (started l = true -> runs gs g).

(** Settled, with the groups the test began with; every group has a number that was given and runs. *)
Record config_ok gs n c : Prop := {
  co_settled : settled c;
  co_named : named c;
  co_base : base ⊆ dom (Groups c);
  co_runs : forall g, g ∈ dom (Groups c) -> 0 < g < n /\ runs gs g;
}.

Record inv gs n c p ls : Prop := {
  in_next : 0 < n;
  in_cur : config_ok gs n c;
  in_plan : config_ok gs n p;
  in_num : 0 <= Num c <= Num p;
  in_same : Num c = Num p -> c = p;
  in_keep : keeps c p;
  in_locs : forall i l, ls !! i = Some l -> loc_ok gs n c p l;
  in_own : forall i j li lj g, ls !! i = Some li -> ls !! j = Some lj ->
    gid_of li = Some g -> gid_of lj = Some g -> i = j;
}.

(** What is planned becomes current. *)
Lemma placed_advance c p l : Num c <= Num p -> placed c p l -> placed p p l.
Proof.
  intros Hle. destruct l; cbn; try tauto; intros [(c0 & Hf & H0 & H1) H]; (split; [exists c0; split_and!; [done|lia|done]|tauto]).
Qed.
Lemma inv_advance gs n c p ls : inv gs n c p ls -> inv gs n p p ls.
Proof.
  intros []. split; try done; [lia|by intros g ? ?|]. intros i l Hl. destruct (in_locs0 i l Hl) as [Hp Hg].
  split; [|done]. eapply placed_advance; [|done]. lia.
Qed.

(** A change is begun. *)
Lemma placed_plan h c new l :
  follows h c new -> gid_of l <> Some h -> placed c c l -> placed c new l.
Proof.
  intros [_ _ HN HG HK] Hg. destruct l; cbn in *; try done;
    (assert (g ∈ dom (Groups new) <-> g ∈ dom (Groups c)) as E by (apply HG; congruence));
    rewrite ?E; try tauto.
  - intros [(c0 & Hf & H0 & H1) H]. split; [|tauto]. exists c0. split_and!; [done|done|lia].
  - intros [[? ?] [? ?]]. split_and!; try done. by apply HK; [| apply E|].
  - intros [[? ?] [? ?]]. split_and!; try done. by apply HK; [| apply E|].
  - intros [(c0 & Hf & H0 & H1) (? & ? & ? & ?)]. split_and!; try done; [exists c0; split_and!; [done|done|lia]|].
    intros Hin. apply HK; [done| by apply E| tauto].
  - intros (? & ? & ?). split_and!; try done. intros Hin. apply HK; [done|by apply E|tauto].
Qed.

Lemma inv_plan gs n c p ls i l sck g new :
  inv gs n c p ls -> ls !! i = Some l -> change_of l = Some (sck, g, new) -> Num new = Num p + 1 ->
  c = p /\ inv gs n c new ls.
Proof.
  intros [] Hl Hch HN. destruct (in_locs0 i l Hl) as [Hp Hg]. assert (gid_of l = Some g) as Hgid by (destruct l; cbn in *; congruence).
  destruct (Hg g Hgid) as (Hr & Hb & Hrun). assert (pending c p g new) as (c0 & Hf & H0 & H1).
  { destruct l; cbn in *; simplify_eq; tauto. }
  pose proof (fo_num _ _ _ Hf). assert (c = p) as -> by (apply in_same0; lia). assert (c0 = p) as -> by (apply H1; lia). clear H0 H1.
  split; [done|]. split; try done; [|lia|lia|apply Hf| ].
  - destruct in_cur0. split; [apply Hf|apply Hf| |].
    + intros x Hx. apply (fo_groups _ _ _ Hf); [by intros ->|]. by apply co_base0.
    + intros x Hx. destruct (decide (x = g)) as [->|Hne]; [|by apply co_runs0, (fo_groups _ _ _ Hf)].
      split; [done|]. apply Hrun. destruct l; done.
  - intros j lj Hj. destruct (in_locs0 j lj Hj) as [Hpj Hgj]. split; [|done].
    destruct (decide (gid_of lj = Some g)) as [E|E]; [|by eapply placed_plan].
    assert (j = i) as -> by (by eapply in_own0). simplify_eq.
    destruct l; cbn in *; simplify_eq; (split; [exists p; split_and!; [done|lia|lia]|]); tauto.
Qed.

(** A goroutine goes on. *)
Lemma inv_goto gs n c p ls i l l' :
  inv gs n c p ls -> ls !! i = Some l -> loc_ok gs n c p l' ->
  (forall g, gid_of l' = Some g -> gid_of l = Some g) -> inv gs n c p (<[i := l']> ls).
Proof.
  intros [] Hl Hok Hg. split; try done.
  - intros j lj [(-> & -> & _)|[_ Hj]]%list_lookup_insert_Some; [done|by eapply in_locs0].
  - intros j k lj lk g [(-> & -> & _)|[Hij Hj]]%list_lookup_insert_Some [(-> & -> & _)|[Hik Hk]]%list_lookup_insert_Some H1 H2;
      [done|eapply in_own0; eauto|eapply in_own0; eauto|by eapply in_own0].
Qed.

(** newGid. *)
Lemma config_ok_mono gs gs' n n' c :
  config_ok gs n c -> n <= n' -> (forall g, g ∈ dom (Groups c) -> runs gs g -> runs gs' g) -> config_ok gs' n' c.
Proof. intros [] Hn Hr. split; try done. intros g Hg. destruct (co_runs0 g Hg). split; [lia|by apply Hr]. Qed.

Lemma inv_newGid gs n c p ls i :
  inv gs n c p ls -> inv gs (n + 1) c p (<[i := Named n]> ls).
Proof.
  intros []. assert (forall c', config_ok gs n c' -> ~ n ∈ dom (Groups c')) as Hout.
  { intros c' Hc Hn. destruct (co_runs _ _ _ Hc n Hn). lia. }
  split; try done; [lia|eapply config_ok_mono; [done|lia|done]|eapply config_ok_mono; [done|lia|done]| |].
  - intros j lj [(-> & <- & _)|[_ Hj]]%list_lookup_insert_Some.
    + split; [split; by apply Hout|]. intros g [= <-]. split_and!; [lia|lia| |done].
      intros Hb. by apply (Hout c in_cur0), (co_base _ _ _ in_cur0).
    + destruct (in_locs0 j lj Hj) as [Hp Hg]. split; [done|]. intros g E. destruct (Hg g E) as (? & ? & ?). split_and!; [lia|lia|done|done].
  - assert (forall j lj, ls !! j = Some lj -> gid_of lj <> Some n) as Hnew.
    { intros j lj Hj E. destruct (in_locs0 j lj Hj) as [_ Hg]. destruct (Hg n E). lia. }
    intros j k lj lk g [(-> & <- & _)|[Hij Hj]]%list_lookup_insert_Some [(-> & <- & _)|[Hik Hk]]%list_lookup_insert_Some;
      cbn [gid_of]; intros H1 H2; simplify_eq; [done|by destruct (Hnew k lk)|by destruct (Hnew j lj)|by eapply in_own0].
Qed.

(** The groups change: those of the configurations and of the goroutines go on. *)
Lemma inv_groups gs gs' n c p ls :
  inv gs n c p ls ->
  (forall g, (g ∈ dom (Groups c) \/ g ∈ dom (Groups p) \/ exists i l, ls !! i = Some l /\ gid_of l = Some g) ->
    runs gs g -> runs gs' g) ->
  inv gs' n c p ls.
Proof.
  intros [] Hr. split; try done; [eapply config_ok_mono; eauto; lia|eapply config_ok_mono; eauto; lia|].
  intros i l Hl. destruct (in_locs0 i l Hl) as [Hp Hg]. split; [done|]. intros g E. destruct (Hg g E) as (? & ? & Hrun).
  split_and!; [lia|lia|done|]. intros Hs. apply Hr; [|by apply Hrun]. right. right. by exists i, l.
Qed.
End invariant.

(** ** The calls *)

Section steps.
Context {Svc W Sck : Type} `{CL : CompetingLaws W Sck} (base : gset Z) (own : option Sck).
Implicit Types (ts : Test Svc W) (b : boot Svc) (l : loc Sck) (ls : list (loc Sck)) (i : nat) (w : W) (p : ShardConfig).

(** The current configuration, and those that may follow it. *)
Definition targets w p : Prop := p = cur w \/ (asked w p /\ Num p = Num (cur w) + 1).

Record system ts ls : Prop := {
  sy_inv : forall p, targets (ctl ts) p -> inv base (grps ts) (ngid ts) (cur (ctl ts)) p ls;
  sy_asked : forall p, asked (ctl ts) p -> Num p <= Num (cur (ctl ts)) + 1;
}.

(** What a call is given: the ends of a group are new, and fewer than 2^63 groups and changes have been made. *)
Definition fits b l ts : Prop :=
  match l with
  | Top => ngid ts + 1 < 2 ^ 63
  | Start _ _ => boots_ok [b] (host ts)
  | JoinQ _ _ _ | LeaveQ _ _ => Num (cur (ctl ts)) + 1 < 2 ^ 63
  | _ => True
  end.

Lemma query_cur sck ts : exists w', query sck ts = Ret (with_ctl w' ts, cur (ctl ts)) /\
  cur w' = cur (ctl ts) /\ (forall c, asked w' c -> asked (ctl ts) c).
Proof. unfold query. destruct (law_query sck (ctl ts)) as (w' & -> & Hw). by exists w'. Qed.
Lemma member_cur sck g ts : exists w', checkMember sck g ts = Ret (with_ctl w' ts, IsMember g (cur (ctl ts))) /\
  cur w' = cur (ctl ts) /\ (forall c, asked w' c -> asked (ctl ts) c).
Proof. unfold checkMember. destruct (query_cur sck ts) as (w' & -> & Hw). by exists w'. Qed.

Lemma system_cur ts ls : system ts ls -> inv base (grps ts) (ngid ts) (cur (ctl ts)) (cur (ctl ts)) ls.
Proof. intros Hs. apply (sy_inv _ _ Hs). by left. Qed.

(** The controllers' state changes as their promises allow. *)
Lemma system_evolves (A : ShardConfig -> Prop) w' ts ls :
  system ts ls -> evolves A (ctl ts) w' ->
  (forall p, A p -> Num p <= Num (cur (ctl ts)) + 1 /\
     (Num p = Num (cur (ctl ts)) + 1 -> inv base (grps ts) (ngid ts) (cur (ctl ts)) p ls)) ->
  system (with_ctl w' ts) ls.
Proof.
  intros Hs [Hask Hcur] HA. split; cbn [ctl grps ngid with_ctl].
  - intros p Hp. destruct Hcur as [E|[Hc HN]].
    + rewrite E. destruct Hp as [->|[Hp HN]]; [rewrite E; by apply system_cur|]. apply HA; [by apply Hask|by rewrite <- E].
    + assert (p = cur w') as ->.
      { destruct Hp as [|[Hp HN']]; [done|]. destruct (HA p (Hask p Hp)). lia. }
      eapply inv_advance. by apply HA.
  - intros p [Hle _]%Hask%HA. destruct Hcur as [E|[_ HN]]; [by rewrite E|lia].
Qed.

Lemma system_only w' ts ls : system ts ls -> evolves (asked (ctl ts)) (ctl ts) w' -> system (with_ctl w' ts) ls.
Proof.
  intros Hs He. eapply system_evolves; [done|done|]. intros p Hp. split; [by apply (sy_asked _ _ Hs)|].
  intros HN. apply (sy_inv _ _ Hs). by right.
Qed.

Lemma system_view w' ts ls :
  cur w' = cur (ctl ts) -> (forall c, asked w' c -> asked (ctl ts) c) -> system ts ls -> system (with_ctl w' ts) ls.
Proof. intros E Ha Hs. apply system_only; [done|]. split; [done|by left]. Qed.

Lemma targets_view w w' p : cur w' = cur w -> (forall c, asked w' c -> asked w c) -> targets w' p -> targets w p.
Proof. unfold targets. intros -> Ha [?|[? ?]]; [by left|right; auto]. Qed.

(** A part of a change. *)
Lemma system_part i l sck g new w' ts ls :
  system ts ls -> ls !! i = Some l -> change_of l = Some (sck, g, new) ->
  evolves (fun c => asked (ctl ts) c \/ c = new) (ctl ts) w' -> system (with_ctl w' ts) ls.
Proof.
  intros Hs Hl Hch He. eapply system_evolves; [done|done|]. pose proof (system_cur _ _ Hs) as Hc.
  intros p [Hp| ->].
  - split; [by apply (sy_asked _ _ Hs)|]. intros HN. apply (sy_inv _ _ Hs). by right.
  - split; [|intros HN; by eapply inv_plan].
    assert (pending (cur (ctl ts)) (cur (ctl ts)) g new) as (c0 & Hf & Hle & _).
    { destruct (in_locs _ _ _ _ _ _ Hc i l Hl) as [Hp _]. destruct l; cbn in *; simplify_eq; tauto. }
    rewrite (fo_num _ _ _ Hf). lia.
Qed.

Lemma system_goto i l l' ts ls :
  system ts ls -> ls !! i = Some l -> (forall p, targets (ctl ts) p -> placed (cur (ctl ts)) p l') ->
  (forall g, gid_of l' = Some g -> gid_of l = Some g /\ (started l' = true -> started l = true \/ runs (grps ts) g)) ->
  system ts (<[i := l']> ls).
Proof.
  intros Hs Hl Hp Hg. split; [|apply Hs]. intros p Hpt. pose proof (sy_inv _ _ Hs p Hpt) as Hi.
  eapply inv_goto; [exact Hi|exact Hl| |intros g E; by apply Hg].
  split; [by apply Hp|]. intros g E. destruct (Hg g E) as [E' Hst]. destruct (in_locs _ _ _ _ _ _ Hi i l Hl) as [_ Hok].
  destruct (Hok g E') as (? & ? & Hr). split_and!; [lia|lia|done|]. intros [?|?]%Hst; [by apply Hr|done].
Qed.

Lemma system_placed i l ts ls p :
  system ts ls -> ls !! i = Some l -> targets (ctl ts) p -> placed (cur (ctl ts)) p l.
Proof. intros Hs Hl Hp. by apply (in_locs _ _ _ _ _ _ (sy_inv _ _ Hs p Hp) i l Hl). Qed.

(** [next] gives a place that [system_goto] leads to. *)
Definition goes_on b i l ts ls : Prop :=
  exists l' ts', next own b l ts = Ret (l', ts') /\ system ts' (<[i := l']> ls).

Lemma system_groups gs' st' ts ls :
  system ts ls ->
  (forall g, ((exists p, targets (ctl ts) p /\ g ∈ dom (Groups p)) \/ (exists i l, ls !! i = Some l /\ gid_of l = Some g)) ->
    runs (grps ts) g -> runs gs' g) ->
  system (MkTest (ngid ts) (ctl ts) gs' st') ls.
Proof.
  intros Hs Hr. split; [|apply Hs]. intros p Hp. cbn [ctl ngid grps] in *.
  eapply inv_groups; [by apply (sy_inv _ _ Hs)|]. intros g [Hg|[Hg|Hg]]; apply Hr; [left; exists (cur (ctl ts))|left; by exists p|by right].
  split; [by left|done].
Qed.

Lemma next_make b i l ts ls :
  system ts ls -> ls !! i = Some l -> fits b l ts ->
  match l with Top | Named _ | Init _ _ | Start _ _ | Stopped => goes_on b i l ts ls | _ => True end.
Proof.
  intros Hs Hl Hf. destruct l; try done; unfold goes_on; cbn [next newGid fits] in *.
  - eexists _, _. split; [done|]. pose proof (in_next _ _ _ _ _ _ (system_cur _ _ Hs)).
    rewrite swrap_small by lia. split; [|apply Hs]. intros p Hp. by apply inv_newGid, (sy_inv _ _ Hs).
  - destruct own as [sck|].
    + eexists _, _. split; [done|]. eapply system_goto; [done|done| |by intros ? [= <-]].
      intros p. exact (system_placed i _ ts ls p Hs Hl).
    + pose proof (system_only _ _ _ Hs (law_make (ctl ts))) as Hs'. destruct (MakeShardCtrler (ctl ts)) as [w sck].
      cbn [fst] in Hs'. eexists _, _. split; [done|]. eapply system_goto; [done|done| |by intros ? [= <-]].
      intros p. exact (system_placed i _ _ ls p Hs' Hl).
  - pose proof (system_only _ _ _ Hs (law_init sck (ctl ts))) as Hs'. eexists _, _. split; [done|].
    eapply system_goto; [done|done| |by intros ? [= <-]]. intros p. exact (system_placed i _ _ ls p Hs' Hl).
  - destruct (start_group_Ret g b [] ts Hf) as (st' & sg & -> & Hg & _). cbn [res_bind].
    unfold group_names, lookupGroup. cbn [grps]. rewrite lookup_insert_eq. unfold SrvNames. rewrite (proj1 (proj2 Hg)). cbn [res_bind].
    eexists _, _. split; [done|]. assert (runs (<[g := sg]> (grps ts)) g) as Hrun by (exists sg, (zlen (b_names b)); by rewrite lookup_insert_eq).
    assert (system (MkTest (ngid ts) (ctl ts) (<[g := sg]> (grps ts)) st') ls) as Hs'.
    { apply system_groups; [done|]. intros g' _ (sg' & k & Hsg & Hk).
      destruct (decide (g' = g)) as [->|Hne]; [done|]. exists sg', k. by rewrite lookup_insert_ne. }
    eapply system_goto; [exact Hs'|exact Hl| |].
    + intros p Hp. split; [exact (system_placed i _ ts ls p Hs Hl Hp)|by eexists].
    + intros ? [= <-]. split; [done|]. by right.
  - eexists _, _. split; [done|]. by eapply system_goto.
Qed.

Lemma next_join b i l ts ls :
  system ts ls -> ls !! i = Some l -> fits b l ts ->
  match l with JoinQ _ _ _ | JoinC _ _ _ | JoinM _ _ | Member _ _ => goes_on b i l ts ls | _ => True end.
Proof.
  intros Hs Hl Hf. pose proof (system_cur _ _ Hs) as Hc. destruct (in_locs _ _ _ _ _ _ Hc i l Hl) as [Hp Hok].
  pose proof (fun p => system_placed i l ts ls p Hs Hl) as Hpl.
  destruct l; try done; unfold goes_on; cbn [next fits] in *.
  - destruct Hp as [[Hout _] [k ->]]. destruct (query_cur sck ts) as (w' & -> & Ec & Ea). cbn [res_bind].
    destruct (in_cur _ _ _ _ _ _ Hc) as [H1 H2 _ _]. pose proof (in_num _ _ _ _ _ _ Hc).
    destruct (join_follows g k (cur (ctl ts)) H1 H2 Hout) as (c' & -> & Hfo & Hd); [lia|done|]. cbn [res_bind].
    eexists _, _. split; [done|]. eapply system_goto; [by apply system_view|done| |intros ? [= <-]; split; [done|by left]].
    cbn [ctl with_ctl]. intros p Ht%(targets_view _ _ _ Ec Ea). rewrite Ec. split_and!; [|rewrite Hd; set_solver|done].
    exists (cur (ctl ts)). split_and!; [done|done|apply (sy_inv _ _ Hs p Ht)].
  - assert (system (with_ctl (ChangeConfigTo sck new (ctl ts)) ts) ls) as Hs' by (eapply system_part; [done..|apply law_change]).
    eexists _, _. split; [done|]. eapply system_goto; [done|done| |intros ? [= <-]; split; [done|by left]].
    intros p Ht. destruct (system_placed i _ _ ls p Hs' Hl Ht) as (_ & _ & H). exact H.
  - destruct (member_cur sck g ts) as (w' & -> & Ec & Ea). cbn [res_bind]. eexists _, _. split; [done|].
    eapply system_goto; [by apply system_view|done| |intros ? [= <-]; split; [done|by left]].
    cbn [ctl with_ctl]. intros p Ht%(targets_view _ _ _ Ec Ea). rewrite Ec. by apply Hpl.
  - destruct (member_cur sck g ts) as (w' & -> & Ec & Ea). cbn [res_bind]. destruct (IsMember g (cur (ctl ts))) eqn:Em.
    + eexists _, _. split; [done|]. eapply system_goto; [by apply system_view|done| |intros ? [= <-]; split; [done|by left]].
      cbn [ctl with_ctl placed] in *. intros p Ht%(targets_view _ _ _ Ec Ea). rewrite Ec. apply IsMember_true in Em.
      destruct (Hok g eq_refl) as (Hr & _). assert (g ∈ dom (Groups (cur (ctl ts)))) as Hg.
      { destruct (in_cur _ _ _ _ _ _ Hc) as [[_ Hv Hz _] _ _ _]. apply dec_stable. intros Hno.
        destruct (decide (Groups (cur (ctl ts)) = ∅)) as [He|He]; [|by apply Hno, Hv]. apply (Hz He) in Em. lia. }
      split_and!; [done|by apply Hpl|done|]. apply (in_keep _ _ _ _ _ _ (sy_inv _ _ Hs p Ht)); [done|by apply Hpl|done].
    + destruct own; eexists _, _; (split; [done|]); (eapply system_goto; [by apply system_view|done|done|done]).
Qed.

Lemma next_leave b i l ts ls :
  system ts ls -> ls !! i = Some l -> fits b l ts ->
  match l with Leaving _ _ | LeaveQ _ _ | LeaveC _ _ _ | LeaveM _ _ | Exit _ _ => goes_on b i l ts ls | _ => True end.
Proof.
  intros Hs Hl Hf. pose proof (system_cur _ _ Hs) as Hc. destruct (in_locs _ _ _ _ _ _ Hc i l Hl) as [Hp Hok].
  pose proof (fun p => system_placed i l ts ls p Hs Hl) as Hpl.
  destruct l; try done; unfold goes_on; cbn [next fits] in *.
  - eexists _, _. split; [done|]. eapply system_goto; [done|done|exact Hpl|]. intros ? [= <-]. split; [done|by left].
  - destruct Hp as [[Hin _] [Hm _]]. destruct (query_cur sck ts) as (w' & -> & Ec & Ea). cbn [res_bind].
    destruct (in_cur _ _ _ _ _ _ Hc) as [H1 H2 _ _]. pose proof (in_num _ _ _ _ _ _ Hc).
    destruct (leave_follows g (cur (ctl ts)) H1 H2 Hin) as (c' & -> & Hfo & Hd); [lia|done|]. cbn [res_bind].
    eexists _, _. split; [done|]. eapply system_goto; [by apply system_view|done| |intros ? [= <-]; split; [done|by left]].
    cbn [ctl with_ctl]. intros p Ht%(targets_view _ _ _ Ec Ea). rewrite Ec. destruct (Hpl p Ht) as [[? ?] [? ?]].
    split_and!; [|rewrite Hd; set_solver|done..].
    exists (cur (ctl ts)). split_and!; [done|done|apply (sy_inv _ _ Hs p Ht)].
  - assert (system (with_ctl (ChangeConfigTo sck new (ctl ts)) ts) ls) as Hs' by (eapply system_part; [done..|apply law_change]).
    eexists _, _. split; [done|]. eapply system_goto; [done|done| |intros ? [= <-]; split; [done|by left]].
    intros p Ht. destruct (system_placed i _ _ ls p Hs' Hl Ht) as (_ & _ & H). exact H.
  - destruct (member_cur sck g ts) as (w' & -> & Ec & Ea). cbn [res_bind]. destruct (IsMember g (cur (ctl ts))) eqn:Em.
    + eexists _, _. split; [done|]. eapply system_goto; [by apply system_view|done|done|done].
    + eexists _, _. split; [done|]. eapply system_goto; [by apply system_view|done| |intros ? [= <-]; split; [done|by left]].
      cbn [ctl with_ctl placed] in *. intros p Ht%(targets_view _ _ _ Ec Ea). rewrite Ec. destruct (Hpl p Ht) as (H1 & H2 & _).
      assert (~ g ∈ Shards (cur (ctl ts))) as Hno by (rewrite <- IsMember_true, Em; done). tauto.
  - destruct (Hok g eq_refl) as (_ & _ & Hr). destruct (Hr eq_refl) as (sg & k & Hsg & Hgok).
    destruct (ExitGroup_Ret g (grps ts) sg (host ts) Hsg (proj1 Hgok)) as (st' & -> & _). cbn [res_bind].
    eexists _, _. split; [done|]. cbn [placed] in Hpl.
    assert (system ts (<[i := Top]> ls)) as Hs' by (by eapply system_goto).
    apply system_groups; [exact Hs'|].
    intros g' Hg' (sg' & k' & Hsg' & Hk'). exists sg', k'. split; [|done]. rewrite lookup_delete_ne; [done|]. intros <-.
    destruct Hg' as [(p & Hp' & Hin)|(j & lj & [(<- & <- & _)|[Hne Hj]]%list_lookup_insert_Some & E)];
      [by destruct (Hpl p Hp')|done|]. apply Hne. by eapply (in_own _ _ _ _ _ _ Hc).
Qed.

(** No call fails, and the invariant is kept. *)
Lemma next_runs b i l ts ls :
  system ts ls -> ls !! i = Some l -> fits b l ts -> goes_on b i l ts ls.
Proof.
  intros Hs Hl Hf. pose proof (next_make b i l ts ls Hs Hl Hf). pose proof (next_join b i l ts ls Hs Hl Hf).
  pose proof (next_leave b i l ts ls Hs Hl Hf). by destruct l.
Qed.
End steps.

(** A test can begin: no change is under way, and the groups of the configuration run. *)
Record begins {Svc W Sck} `{CL : CompetingLaws W Sck} (ts : Test Svc W) : Prop := {
  be_next : 0 < ngid ts;
  be_rest : forall p, ~ asked (ctl ts) p;
  be_settled : settled (cur (ctl ts));
  be_named : named (cur (ctl ts));
  be_num : 0 <= Num (cur (ctl ts));
  be_runs : forall g, g ∈ dom (Groups (cur (ctl ts))) -> 0 < g < ngid ts /\ runs (grps ts) g;
}.

(** Goroutines that have not begun. *)
Lemma begins_system {Svc W Sck} `{CL : CompetingLaws W Sck} (ts : Test Svc W) n :
  begins ts -> system (dom (Groups (cur (ctl ts)))) ts (replicate n Top).
Proof.
  intros [H0 Hr Hs Hn Hnum Hg]. split; [|by intros p ?%Hr]. intros p [->|[?%Hr _]]; [|done]. split; try done.
  - by intros g ? ?.
  - intros i l [-> _]%lookup_replicate. by split.
  - intros i j li lj g [-> _]%lookup_replicate. done.
Qed.

(** ** concurCtrler *)

Section concur.
Context {Svc W Sck : Type} `{CL : CompetingLaws W Sck} (N : nat).
Implicit Types (ts : Test Svc W) (b : boot Svc) (l : loc Sck) (ls : list (loc Sck)).

(** The test is asleep; is about to send the token [k]; has sent them all, and reads. *)
Inductive main_pc := Asleep | Sending (k : nat) | Reading.
Record state := MkConcur { c_test : Test Svc W; c_main : main_pc; c_ctls : list (loc Sck) }.

(** A goroutine takes a token at the top of its loop only.  The hosts change as the servers and the clerks
    have it. *)
Inductive step : state -> state -> Prop :=
| s_call ts m ls i b l l' ts' :
    ls !! i = Some l -> fits b l ts -> next None b l ts = Ret (l', ts') ->
    step (MkConcur ts m ls) (MkConcur ts' m (<[i := l']> ls))
(* some of the work of the goroutine's ChangeConfigTo *)
| s_part ts m ls i l sck g new w' :
    ls !! i = Some l -> change_of l = Some (sck, g, new) ->
    evolves (fun c => asked (ctl ts) c \/ c = new) (ctl ts) w' ->
    step (MkConcur ts m ls) (MkConcur (with_ctl w' ts) m ls)
(* work of any controller on what was asked for before *)
| s_work ts m ls w' :
    evolves (asked (ctl ts)) (ctl ts) w' ->
    step (MkConcur ts m ls) (MkConcur (with_ctl w' ts) m ls)
| s_host ts m ls st :
    step (MkConcur ts m ls) (MkConcur (MkTest (ngid ts) (ctl ts) (grps ts) st) m ls)
| s_wake ts ls :
    step (MkConcur ts Asleep ls) (MkConcur ts (Sending 0) ls)
| s_token ts ls i k :
    (k < N)%nat -> ls !! i = Some Top ->
    step (MkConcur ts (Sending k) ls) (MkConcur ts (Sending (k + 1)) (<[i := Stopped]> ls))
| s_sent ts ls :
    step (MkConcur ts (Sending N) ls) (MkConcur ts Reading ls).

Definition concurCtrler ts : state := MkConcur ts Asleep (replicate N Top).

(** The tokens that were taken are those that were sent. *)
Definition taken l : Z := match l with Stopped => 1 | _ => 0 end.
Definition sent (m : main_pc) : Z :=
  match m with Asleep => 0 | Sending k => Z.of_nat k | Reading => Z.of_nat N end.
Definition tokens_ok (st : state) : Prop :=
  length (c_ctls st) = N /\ zsum taken (c_ctls st) = sent (c_main st).

Lemma next_taken b l ts l' ts' : next None b l ts = Ret (l', ts') -> taken l' = taken l.
Proof.
  destruct l; cbn [next]; intros H;
    repeat (match goal with
      | H : context [let '(_, _) := ?x in _] |- _ => destruct x eqn:?
      | H : res_bind ?x _ = _ |- _ => destruct x as [?|] eqn:?; cbn [res_bind] in H
      | H : (if ?x then _ else _) = _ |- _ => destruct x eqn:?
      end; try done); by simplify_eq.
Qed.

Lemma step_inv base st st' :
  step st st' -> system base (c_test st) (c_ctls st) /\ tokens_ok st ->
  system base (c_test st') (c_ctls st') /\ tokens_ok st'.
Proof.
  intros [ts m ls i b l l' ts' Hl Hf Hn|ts m ls i l sck g new w' Hl Hch Hp|ts m ls w' Hw|ts m ls st''|ts ls|ts ls i k Hk Hl|ts ls] [Hs [Hlen Ht]];
    cbn [c_test c_ctls c_main] in *; unfold tokens_ok; cbn [c_test c_ctls c_main].
  - destruct (next_runs base None b i l ts ls Hs Hl Hf) as (l1 & ts1 & Hn1 & Hs1). rewrite Hn in Hn1. simplify_eq.
    split; [done|]. rewrite length_insert, (zsum_insert taken _ _ _ l1 Hl), (next_taken _ _ _ _ _ Hn). split; [done|lia].
  - split; [by eapply system_part|done].
  - split; [by apply system_only|done].
  - split; [|done]. apply system_groups; [done|by intros].
  - done.
  - split; [by eapply system_goto|]. rewrite length_insert, (zsum_insert taken _ _ _ Stopped Hl). cbn [taken sent] in *. split; [done|lia].
  - done.
Qed.

Lemma taken_all ls : zsum taken ls = Z.of_nat (length ls) -> forall i l, ls !! i = Some l -> l = Stopped.
Proof.
  assert (forall ls, zsum taken ls <= Z.of_nat (length ls)) as Hle.
  { clear. induction ls as [|l ls IH]; [done|]. rewrite zsum_cons. cbn [length]. destruct l; cbn [taken]; lia. }
  induction ls as [|x ls IH]; [done|]. rewrite zsum_cons. cbn [length]. pose proof (Hle ls). intros Hz [|i] l Hl.
  - cbn in Hl. simplify_eq. destruct l; cbn [taken] in *; try lia. done.
  - apply (IH ltac:(destruct x; cbn [taken] in *; lia) i l Hl).
Qed.
End concur.
Arguments state : clear implicits.

(** ** The controller that was superseded *)

Section superseded.
Context {Svc W Sck : Type} `{CL : CompetingLaws W Sck} (sck : Sck).
Implicit Types (ts : Test Svc W) (b : boot Svc).

(** Nothing that was asked for can still become current, nor can [new]. *)
Definition outdated new ts : Prop :=
  Num new <= Num (cur (ctl ts)) /\ forall c, asked (ctl ts) c -> Num c <= Num (cur (ctl ts)).

(** When partitionCtrler's first controller has connections again, its change does nothing. *)
Lemma superseded_change sck' new ts :
  outdated new ts -> cur (ChangeConfigTo sck' new (ctl ts)) = cur (ctl ts).
Proof.
  intros [HN Ha]. destruct (law_change sck' new (ctl ts)) as [_ [?|[[Hc| ->] ?]]]; [done|apply Ha in Hc; lia|lia].
Qed.

(** Superseded in a join it returns. *)
Lemma superseded_join_returns b sck' g new ts :
  outdated new ts -> IsMember g (cur (ctl ts)) = false ->
  exists w', calls (Some sck) b 3 (JoinC sck' g new) ts = Ret (Stopped, with_ctl w' ts) /\ cur w' = cur (ctl ts).
Proof.
  intros Ho Hm. pose proof (superseded_change sck' new ts Ho) as Ec. cbn [calls next res_bind].
  destruct (member_cur sck' g (with_ctl (ChangeConfigTo sck' new (ctl ts)) ts)) as (w1 & -> & E1 & _). cbn [res_bind next].
  destruct (member_cur sck' g (with_ctl w1 (with_ctl (ChangeConfigTo sck' new (ctl ts)) ts))) as (w2 & -> & E2 & _).
  cbn [ctl with_ctl] in *. cbn [res_bind]. rewrite E1, Ec, Hm. cbn [res_bind]. exists w2. split; [done|congruence].
Qed.

(** Superseded in a leave it finds its group gone, takes the group down and goes on with the next one. *)
Lemma superseded_leave_goes_on b sck' g new ts :
  outdated new ts -> IsMember g (cur (ctl ts)) = false -> runs (grps ts) g ->
  exists ts', calls (Some sck) b 3 (LeaveC sck' g new) ts = Ret (Top, ts') /\ cur (ctl ts') = cur (ctl ts) /\
    grps ts' = delete g (grps ts).
Proof.
  intros Ho Hm (sg & k & Hsg & Hg). pose proof (superseded_change sck' new ts Ho) as Ec. cbn [calls next res_bind].
  destruct (member_cur sck' g (with_ctl (ChangeConfigTo sck' new (ctl ts)) ts)) as (w1 & -> & E1 & _). cbn [res_bind next].
  cbn [ctl with_ctl] in *. rewrite Ec, Hm. cbn [res_bind next grps host with_ctl].
  destruct (ExitGroup_Ret g (grps ts) sg (host ts) Hsg (proj1 Hg)) as (st' & -> & _). cbn [res_bind].
  eexists. split; [done|]. cbn [ctl grps with_ctl]. split; [congruence|done].
Qed.
End superseded.

(** ** A controller over a pair of configurations *)

(** The current configuration, and the one that ChangeConfigTo was last asked for when it may still become
    current: a change that was begun is finished before another one. *)
Definition finish_begun (w : ShardConfig * option ShardConfig) : ShardConfig * option ShardConfig :=
  match w.2 with
  | Some p => if decide (Num p = Num w.1 + 1) then (p, None) else (w.1, None)
  | None => w
  end.
#[local] Instance pair_controller : Controller (ShardConfig * option ShardConfig) unit := {
  MakeShardCtrler := fun w => (w, tt);
  InitController := fun _ => finish_begun;
  InitConfig := fun _ cfg _ => (cfg, None);
  ChangeConfigTo := fun _ new w =>
    match w.2 with
    | Some _ => finish_begun w
    | None => if decide (Num new = Num w.1 + 1) then (new, None) else w
    end;
  Query := fun _ w => (w, Some w.1);
}.

#[local] Instance pair_view : View (ShardConfig * option ShardConfig) := {
  cur := fst;
  asked := fun w c => w.2 = Some c;
}.

Lemma finish_begun_evolves w : evolves (asked w) w (finish_begun w).
Proof.
  destruct w as [c [p|]]; unfold finish_begun, evolves; cbn; [case_decide; cbn|]; (split; [done|]); [by right|by left|by left].
Qed.

#[local] Program Instance pair_laws : CompetingLaws (ShardConfig * option ShardConfig) unit := {| cl_view := pair_view |}.
Next Obligation. intros s w. by exists w. Qed.
Next Obligation. intros w. split; [done|by left]. Qed.
Next Obligation. intros s w. apply finish_begun_evolves. Qed.
Next Obligation.
  intros s new [c [p|]].
  - destruct (finish_begun_evolves (c, Some p)) as [H1 H2]. split; [by left; auto|]. destruct H2 as [?|[? ?]]; [by left|]. right. split; [by left|done].
  - cbn. unfold evolves. cbn. case_decide; cbn; (split; [by auto|]); [right; auto|by left].
Qed.

(** ** Properties *)

(** C33 (controllers compete).  Given controllers that keep the promises of [CompetingLaws] (Query returns
    the current configuration, and it changes only to one that ChangeConfigTo was asked for and that follows
    it): any number of goroutines of concurCtrler over them, in any interleaving of their calls, of the parts
    of the changes and of the work of recovering controllers.  No call of theirs fails (the
    configuration they change has the group that leaves, and not the one that joins); the current
    configuration passes CheckConfig, it has every group it had at the beginning, and none of its groups
    has been taken down; and when the test has sent all tokens every goroutine has returned. *)
Theorem controllers_compete {Svc W Sck : Type} `{CL : CompetingLaws W Sck} (N : nat) (ts0 : Test Svc W) (st : state Svc W Sck) :
  begins ts0 -> rtc (step N) (concurCtrler N ts0) st ->
  (forall i l b, c_ctls st !! i = Some l -> fits b l (c_test st) ->
     exists l' ts', next None b l (c_test st) = Ret (l', ts')) /\
  (let cfg := cur (ctl (c_test st)) in
   CheckConfig (elements (dom (Groups cfg))) cfg = Ret tt /\
   dom (Groups (cur (ctl ts0))) ⊆ dom (Groups cfg) /\
   forall g, g ∈ dom (Groups cfg) -> exists sg n, grps (c_test st) !! g = Some sg /\ group_ok g n sg) /\
  (c_main st = Reading -> forall i l, c_ctls st !! i = Some l -> l = Stopped).
Proof.
  intros Hb Hr. set (base := dom (Groups (cur (ctl ts0)))).
  assert (system base (c_test st) (c_ctls st) /\ tokens_ok N st) as [Hs [Hlen Ht]].
  { assert (system base (c_test (concurCtrler (Sck := Sck) N ts0)) (c_ctls (concurCtrler (Sck := Sck) N ts0)) /\
      tokens_ok N (concurCtrler (Sck := Sck) N ts0)) as H0.
    { split; [by apply begins_system|]. split; [apply length_replicate|]. apply zsum_zero. by intros l [-> _]%elem_of_replicate. }
    induction Hr as [|x y z Hxy _ IH]; [done|]. apply IH. by eapply step_inv. }
  destruct (in_cur _ _ _ _ _ _ (system_cur _ _ _ Hs)) as [Hset _ Hbase Hruns]. cbv zeta. split_and!.
  - intros i l b Hl Hf. destruct (next_runs base None b i l _ _ Hs Hl Hf) as (l' & ts' & H & _). by exists l', ts'.
  - apply settled_checks; [done|apply NoDup_elements|]. intros g. by rewrite elem_of_elements.
  - done.
  - intros g Hg. by apply Hruns.
  - intros Hm. rewrite Hm in Ht. apply taken_all. cbn [sent] in Ht. congruence.
Qed.

(** ** Runs *)

Definition ex_start : Test unit (ShardConfig * option ShardConfig) :=
  MkTest 2 (MakeShardConfig, None) ∅ (MkState LabRpc.MakeNetwork [] []).
Definition ex_boot : boot unit := MkBoot [["a"]] [MkNew ["b"] (fun _ => []) 1].

Lemma ex_begins : begins ex_start.
Proof.
  split; [done|done|apply MakeShardConfig_settled|by intros g srvs|done|]. intros g Hg. destruct (not_elem_of_empty g Hg).
Qed.

Lemma ex_boot_ok : boots_ok [ex_boot] (MkState LabRpc.MakeNetwork [] []).
Proof.
  split.
  - intros b ->%list_elem_of_singleton. split; [done|]. by intros x ->%list_elem_of_singleton.
  - split; [apply (bool_decide_eq_true _); vm_compute; reflexivity|]. intros x _. apply not_elem_of_empty.
Qed.

(** Two goroutines, the first before its ChangeConfigTo. *)
Definition ex_concur : state unit (ShardConfig * option ShardConfig) unit :=
  match calls None ex_boot 5 Top ex_start with
  | Ret (l, ts) => MkConcur ts Asleep [l; Top]
  | Panic _ => concurCtrler 2 ex_start
  end.

Lemma ex_concur_run : rtc (step 2) (concurCtrler 2 ex_start) ex_concur.
Proof.
  do 5 (eapply rtc_l; [eapply (s_call _ _ _ _ 0%nat ex_boot);
    [reflexivity|first [exact ex_boot_ok|exact I|vm_compute; reflexivity]|vm_compute; reflexivity]|]).
  vm_compute. apply rtc_refl.
Qed.

Lemma controllers_compete_witness :
  (forall i l b, c_ctls ex_concur !! i = Some l -> fits b l (c_test ex_concur) ->
     exists l' ts', next None b l (c_test ex_concur) = Ret (l', ts')) /\
  (let cfg := cur (ctl (c_test ex_concur)) in
   CheckConfig (elements (dom (Groups cfg))) cfg = Ret tt /\
   dom (Groups (cur (ctl ex_start))) ⊆ dom (Groups cfg) /\
   forall g, g ∈ dom (Groups cfg) -> exists sg n, grps (c_test ex_concur) !! g = Some sg /\ group_ok g n sg) /\
  (c_main ex_concur = Reading -> forall i l, c_ctls ex_concur !! i = Some l -> l = Stopped).
Proof. exact (controllers_compete (CL := pair_laws) 2 ex_start ex_concur ex_begins ex_concur_run). Defined.

End ShardCtl.
