(* ===== verification/TestSetup.v ===== *)
(** * TestSetup: how the tests are set up and taken down (src/src/raft1/test.go,
      src/src/kvraft1/rsm/test.go, src/src/kvraft1/test.go, src/src/kvtest1/kvtest.go)

    Each package's makeTest makes a configuration whose start function makes the package's
    servers, and its cleanup ends the configuration.  [names] are the random names of the ends the
    group is made with, [ends] those of the servers when they start, [labsrvs] the labrpc servers. *)
From S2P Require Import Prelude LabRpc Persister Raft Tester RaftLeader RaftElection RaftSystem RaftTest RaftChecks Rsm KvTest.
Import Tester.
Local Open Scope Z_scope.
Local Open Scope go_scope.

Module TestSetup.

(** The servers a start function makes, with the ends and labrpc servers they are given. *)
Fixpoint boots {Svc} (ends : list (list string)) (labsrvs : list positive) (services : list (list Svc))
    : list (newServer Svc) :=
  match ends, labsrvs, services with
  | e :: ends, p :: labsrvs, s :: services => MkNew e (fun _ => s) p :: boots ends labsrvs services
  | _, _, _ => []
  end.

Fixpoint make_all {A} (make : Z -> res A) (ids : list Z) : res (list A) :=
  match ids with
  | [] => Ret []
  | i :: ids => let! s := make i in let! l := make_all make ids in Ret (s :: l)
  end.

(** ** raft1/test.go *)

(** The services of a server: the reader of its channel, and its peer. *)
Inductive service := Reader (s : RaftTest.rfsrv) | Peer (rf : option Raft.Raft).
Definition mksrv (s : RaftTest.rfsrv) : list service := [Reader s; Peer (RaftTest.rs_raft s)].

Definition makeTest (dec : bytes -> option (Z * list any)) (names ends : list (list string)) (labsrvs : list positive)
    (reliable snapshot : bool) : res (tstate service * Config service * RaftTest.Test) :=
  let n := zlen names in
  let! srvs := make_all (fun i => RaftTest.newRfsrv dec n i MakePersister snapshot) (seqZ 0 n) in
  let! (st, cfg) := MakeConfig names (boots ends labsrvs (mksrv <$> srvs)) reliable in
  Ret (SetLongDelays true st, cfg, RaftTest.MkTest srvs 0).

(** [elapsed], [elapsed1] and [elapsed2]: the time since the start at each CheckTimeout. *)
Definition cleanup {Svc} (failed : bool) (elapsed elapsed1 elapsed2 : Z) (st : tstate Svc) (cfg : Config Svc)
    : res (tstate Svc * Config Svc) :=
  let! _ := End_test failed elapsed st cfg in
  let! (st, cfg) := Cleanup st cfg in
  let! _ := CheckTimeout failed elapsed1 in
  let! _ := CheckTimeout failed elapsed2 in
  Ret (st, cfg).

(** ** kvraft1/rsm/test.go *)

Definition rsm_makeTest (names ends : list (list string)) (labsrvs : list positive) (maxraftstate : Z)
    : res (tstate Raft.Raft * Config Raft.Raft * list Rsm.rsmSrv) :=
  let! srvs := make_all (fun i => Rsm.makeRsmSrv Rsm.NSRV i MakePersister maxraftstate) (seqZ 0 Rsm.NSRV) in
  let! (st, cfg) :=
    MakeConfig names (boots ends labsrvs ((fun s => option_list (Rsm.rsm_Raft <$> Rsm.rsm s)) <$> srvs)) true in
  Ret (st, cfg, srvs).

Definition disconnectLeader {Svc} (leader : Z) (sg : ServerGrp Svc) (st : tstate Svc)
    : res (tstate Svc * ServerGrp Svc * Z) :=
  let! (st, sg) := DisconnectAll leader sg st in Ret (st, sg, leader).
Definition rsm_connect {Svc} (i : Z) (sg : ServerGrp Svc) (st : tstate Svc) : res (tstate Svc * ServerGrp Svc) :=
  ConnectOne i sg st.

(** ** kvraft1/test.go *)

Definition makeTitle (crash partitions : bool) (maxraftstate : Z) (randomkeys : bool) (nclients : Z) (part : string)
    : string :=
  let title := "Test: " in
  let title := if crash then title +:+ "restarts, " else title in
  let title := if partitions then title +:+ "partitions, " else title in
  let title := if decide (maxraftstate <> -1) then title +:+ "snapshots, " else title in
  let title := if randomkeys then title +:+ "random keys, " else title in
  let title := if decide (nclients > 1) then title +:+ "many clients" else title +:+ "one client" in
  title +:+ " (" +:+ part +:+ ")".

(** ** kvtest1/kvtest.go *)

Definition kv_Cleanup {Svc} (failed : bool) (elapsed elapsed1 : Z) (st : tstate Svc) (cfg : Config Svc)
    : res (tstate Svc * Config Svc) :=
  let! _ := End_test failed elapsed st cfg in
  let! (st, cfg) := Cleanup st cfg in
  let! _ := CheckTimeout failed elapsed1 in
  Ret (st, cfg).
Fixpoint ConnectClnts (clnts : list Clnt) (rn : LabRpc.Network) : LabRpc.Network * list Clnt :=
  match clnts with
  | [] => (rn, [])
  | c :: clnts =>
      let '(rn, c) := ClntConnectAll c rn in
      let '(rn, l) := ConnectClnts clnts rn in
      (rn, c :: l)
  end.

(** ** Set-ups succeed *)

Lemma make_all_Ret {A} (make : Z -> res A) ids :
  (forall i, i ∈ ids -> returns (make i)) ->
  exists l, make_all make ids = Ret l /\ length l = length ids /\
    forall k i x, ids !! k = Some i -> l !! k = Some x -> make i = Ret x.
Proof.
  induction ids as [|i ids IH]; intros Hm; cbn [make_all]; [by exists []|].
  destruct (Hm i ltac:(left)) as [s Hs]. destruct IH as (l & -> & Hlen & Hl); [intros; apply Hm; by right|].
  rewrite Hs. cbn [res_bind]. exists (s :: l). split_and!; [done|cbn; lia|].
  intros [|k] j x Hk Hx; cbn in Hk, Hx; [congruence|by eapply Hl].
Qed.

Lemma boots_spec {Svc} ends labsrvs (services : list (list Svc)) :
  length labsrvs = length ends -> length services = length ends ->
  n_ends <$> boots ends labsrvs services = ends.
Proof.
  revert labsrvs services. induction ends as [|e ends IH]; intros [|p labsrvs] [|s services] H1 H2; try done.
  cbn. f_equal. apply IH; [by injection H1|by injection H2].
Qed.

Lemma boots_ok {Svc} names ends labsrvs (services : list (list Svc)) st :
  length ends = length names -> length labsrvs = length names -> length services = length names ->
  (forall e, e ∈ ends -> length e = length names) -> fresh_names (concat names ++ concat ends) st ->
  boot_ok names (boots ends labsrvs services) st.
Proof.
  intros H1 H2 H3 He Hf. pose proof (boots_spec ends labsrvs services ltac:(lia) ltac:(lia)) as Hb.
  assert (length (boots ends labsrvs services) = length names) as Hl.
  { apply (f_equal length) in Hb. rewrite length_fmap in Hb. lia. }
  split; [done| |by rewrite Hb]. intros x Hx. rewrite Hl. apply He. rewrite <- Hb. by apply list_elem_of_fmap_2.
Qed.

(** A Raft test starts, and its services with the peers of a cluster that begins are a state in which
    the tests of RaftChecks begin. *)
Lemma makeTest_begins dec names ends labsrvs reliable s :
  names <> [] -> length ends = length names -> length labsrvs = length names ->
  (forall e, e ∈ ends -> length e = length names) ->
  NoDup (concat names ++ concat ends) -> RaftSystem.sinit (zlen names) s ->
  exists st cfg ts sg, makeTest dec names ends labsrvs reliable false = Ret (st, cfg, ts) /\
    Group GRP0 cfg = Some sg /\ group_ok GRP0 (zlen names) sg /\ IsReliable st = reliable /\
    RaftChecks.winit (zlen names) (RaftChecks.MkWorld s (fun _ => Replication.ApWait) (fun _ => []) ts).
Proof.
  intros Hne H1 H2 He Hnd Hs. unfold makeTest. set (n := zlen names) in *.
  assert (forall i, RaftTest.newRfsrv dec n i MakePersister false =
    Ret (RaftTest.MkRfsrv i None 0 MakePersister (Some (Raft.fresh n i MakePersister)) ∅)) as Hnew by done.
  destruct (make_all_Ret (fun i => RaftTest.newRfsrv dec n i MakePersister false) (seqZ 0 n)) as (srvs & -> & Hlen & Hl).
  { intros i _. rewrite Hnew. by eexists. }
  cbn [res_bind]. rewrite length_seqZ in Hlen.
  destruct (MakeConfig_Ret names (boots ends labsrvs (mksrv <$> srvs)) reliable) as (st & sg & -> & Hok & Hr).
  { apply boots_ok; [done|done| |done|].
    - rewrite length_fmap. unfold n, zlen in Hlen. lia.
    - split; [done|]. intros x _. apply not_elem_of_empty. }
  cbn [res_bind]. eexists _, _, _, sg. split_and!; [done|done|done|done|].
  assert (forall rs, rs ∈ srvs -> exists i, rs = RaftTest.MkRfsrv i None 0 MakePersister (Some (Raft.fresh n i MakePersister)) ∅) as Hall.
  { intros rs [k Hk]%list_elem_of_lookup. pose proof (lookup_lt_Some _ _ _ Hk) as Hlt.
    destruct (lookup_lt_is_Some_2 (seqZ 0 n) k) as [i Hi]; [rewrite length_seqZ; lia|].
    exists i. specialize (Hl k i rs Hi Hk). cbv beta in Hl. rewrite Hnew in Hl. congruence. }
  split_and!; cbn [RaftChecks.sys RaftChecks.pcs RaftChecks.chans RaftChecks.test RaftTest.srvs]; try done.
  - unfold zlen. rewrite Hlen. unfold n, zlen. lia.
  - intros rs (i & ->)%Hall. done.
  - intros rs (i & ->)%Hall. done.
Qed.
End TestSetup.
