(* ===== verification/Makers.v ===== *)
(** * Makers: the clerks of the store's tests (src/src/kvsrv1/test.go, kvraft1/test.go, shardkv1/test.go,
      kvtest1/kvtest.go)

    Each package's test type makes a clerk with a client of its own for every thread that uses
    the store, and deletes the client afterwards: kvtest's IClerkMaker, a class here, with an
    instance per package.  [CLife] shows that clients can be made, used, cut off and deleted in any
    order, and what a clerk that was made and deleted leaves behind. *)
From S2P Require Import Prelude LabRpc Persister KvSrv KvLin Tester Rsm Servers TestSetup.
Import Rpc Tester.
Local Open Scope Z_scope.
Local Open Scope go_scope.

Module Makers.

(** ** kvtest.go *)

(** A test's clerk: a clerk and its client. *)
Record TestClerk (Ck : Type) := MkTestClerk { ck : Ck; tc_Clnt : positive }.
Arguments MkTestClerk {Ck} _ _.
Arguments ck {Ck} _.
Arguments tc_Clnt {Ck} _.

(** A value of type IKVClerk: a *TestClerk, or a clerk. *)
Inductive IKVClerk (Ck : Type) := ATestClerk (tck : TestClerk Ck) | AClerk (c : Ck).
Arguments ATestClerk {Ck} _.
Arguments AClerk {Ck} _.

(** [W] is what making a clerk changes, [P] the pointers of the clients it makes. *)
Class IClerkMaker (W P Ck : Type) := {
  MakeClerk : P -> W -> res (W * IKVClerk Ck);
  DeleteClerk : IKVClerk Ck -> W -> res W;
}.

(** The configuration of a test and the state of its network. *)
Definition host (Svc : Type) : Type := tstate Svc * Config Svc.

Record Test (Svc : Type) := MkTest { t_host : host Svc; oplog : KvLin.OpLog; randomkeys : bool }.
Arguments MkTest {Svc} _ _ _.
Arguments t_host {Svc} _.
Arguments oplog {Svc} _.
Arguments randomkeys {Svc} _.

Definition MakeTest {Svc} (h : host Svc) (randomkeys : bool) : Test Svc := MkTest h [] randomkeys.

(** ** Clients of the configuration *)

Section makers.
Context {Svc : Type}.
Implicit Types (h : host Svc).

Definition cfg_clnts h : Clnts := cf_clnts h.2.
Definition with_clnts (cs : Clnts) (cfg : Config Svc) : Config Svc :=
  MkCfg cs (cf_groups cfg) (rpcs0 cfg) (ops cfg).

(** [ts.Config.MakeClientTo(srvs)] and [ts.DeleteClient(clnt)]. *)
Definition cfg_MakeClientTo (p : positive) (srvs : option (list string)) h : res (host Svc) :=
  let! cs := MakeClientTo p srvs (cfg_clnts h) in Ret (h.1, with_clnts cs h.2).
Definition cfg_MakeClient (p : positive) h : res (host Svc) := cfg_MakeClientTo p None h.
Definition cfg_DeleteClient (p : positive) h : res (host Svc) :=
  let! (cs, rn) := DeleteClient p (cfg_clnts h) (net h.1) in
  Ret (with_net rn h.1, with_clnts cs h.2).

(** [ts.Group(gid).SrvNames()] *)
Definition group_names (gid : Z) h : res (list string) :=
  match Group gid h.2 with Some sg => Ret (SrvNames sg) | None => Panic NilDereference end.

(** [tck := ck.( *kvtest.TestClerk )] *)
Definition delete_clerk {Ck} (c : IKVClerk Ck) h : res (host Svc) :=
  match c with
  | ATestClerk tck => cfg_DeleteClient (tc_Clnt tck) h
  | AClerk _ => Panic BadTypeAssertion
  end.

(** *** kvsrv1/test.go *)

Definition kvsrv_MakeClerk (p : positive) h : res (host Svc * IKVClerk KvClerk.Clerk) :=
  let! h := cfg_MakeClient p h in
  let c := KvClerk.MakeClerk p (ServerName GRP0 0) in
  Ret (h, ATestClerk (MkTestClerk c p)).
Definition kvsrv_DeleteClerk : IKVClerk KvClerk.Clerk -> host Svc -> res (host Svc) := delete_clerk.

#[export] Instance kvsrv_maker : IClerkMaker (host Svc) positive KvClerk.Clerk := {
  MakeClerk := kvsrv_MakeClerk;
  DeleteClerk := kvsrv_DeleteClerk;
}.

(** *** kvraft1/test.go *)

Definition Gid : Z := GRP0.
Definition kvraft_MakeClerk (p : positive) h : res (host Svc * IKVClerk KvRaft.Clerk) :=
  let! h := cfg_MakeClient p h in
  let! names := group_names Gid h in
  Ret (h, ATestClerk (MkTestClerk (KvRaft.MakeClerk p names) p)).
Definition kvraft_DeleteClerk : IKVClerk KvRaft.Clerk -> host Svc -> res (host Svc) := delete_clerk.
Definition kvraft_MakeClerkTo (p : positive) (to : list Z) h : res (host Svc * IKVClerk KvRaft.Clerk) :=
  match Group Gid h.2 with
  | None => Panic NilDereference
  | Some sg =>
      let! ns := SrvNamesTo to sg in
      let! h := cfg_MakeClientTo p (Some ns) h in
      let! names := group_names Gid h in
      Ret (h, ATestClerk (MkTestClerk (KvRaft.MakeClerk p names) p))
  end.

#[export] Instance kvraft_maker : IClerkMaker (host Svc) positive KvRaft.Clerk := {
  MakeClerk := kvraft_MakeClerk;
  DeleteClerk := kvraft_DeleteClerk;
}.

(** *** shardkv1/test.go *)

Definition makeShardCtrlerClnt (p : positive) h : res (host Svc * ShardClerk.ShardCtrler * positive) :=
  let! h := cfg_MakeClient p h in
  Ret (h, ShardClerk.MakeShardCtrler p, p).
Definition makeShardCtrler (p : positive) h : res (host Svc * ShardClerk.ShardCtrler) :=
  let! (h, sck, _) := makeShardCtrlerClnt p h in Ret (h, sck).
Definition makeKVClerk (p : positive) h : res (host Svc * KvClerk.Clerk) :=
  let srv := ServerName GRP0 0 in
  let! h := cfg_MakeClient p h in
  Ret (h, KvClerk.MakeClerk p srv).
(** The clerk's client, and the client of its controller. *)
Definition shard_MakeClerk (ps : positive * positive) h : res (host Svc * IKVClerk ShardClerk.Clerk) :=
  let '(p, q) := ps in
  let! h := cfg_MakeClient p h in
  let! (h, sck) := makeShardCtrler q h in
  Ret (h, ATestClerk (MkTestClerk (ShardClerk.MakeClerk p sck) p)).
Definition shard_DeleteClerk : IKVClerk ShardClerk.Clerk -> host Svc -> res (host Svc) := delete_clerk.

#[export] Instance shard_maker : IClerkMaker (host Svc) (positive * positive) ShardClerk.Clerk := {
  MakeClerk := shard_MakeClerk;
  DeleteClerk := shard_DeleteClerk;
}.
End makers.

(** ** The tests are set up *)

(** kvsrv1: one server, whose start function ignores what it is given. *)
Definition kvsrv_StartKVServer : list KvServer.KVServer := let kv := KvServer.MakeKVServer in [kv].
(** Its Kill does nothing. *)
Definition kvsrv_Kill (kv : KvServer.KVServer) : KvServer.KVServer := kv.

Definition MakeTestKV (name end_ : string) (labsrv : positive) (reliable : bool) : res (Test KvServer.KVServer) :=
  let! h := MakeConfig [[name]] (TestSetup.boots [[end_]] [labsrv] [kvsrv_StartKVServer]) reliable in
  Ret (MakeTest h false).

(** kvraft1: the fields of its Test, and kvtest's. *)
Record RaftTest := MkRaftTest {
  kt_test : Test KvRaft.service;
  part : string;
  nclients : Z;
  nservers : Z;
  crash : bool;
  partitions : bool;
  maxraftstate : Z;
  kt_randomkeys : bool;
}.

(** [names] has the random names of the [nservers] servers' ends. *)
Definition kvraft_MakeTest (names ends : list (list string)) (labsrvs : list positive) (part : string) (nclients : Z)
    (reliable crash partitions : bool) (maxraftstate : Z) (randomkeys : bool) : res (RaftTest * string) :=
  let nservers := zlen names in
  let! srvs := TestSetup.make_all (fun i => KvRaft.StartKVServer nservers Gid i MakePersister maxraftstate)
    (seqZ 0 nservers) in
  let! (st, cfg) := MakeConfig names (TestSetup.boots ends labsrvs srvs) reliable in
  let title := TestSetup.makeTitle crash partitions maxraftstate randomkeys nclients part in
  Ret (MkRaftTest (MakeTest (st, Begin st cfg) randomkeys) part nclients nservers crash partitions maxraftstate
         randomkeys, title).

(** ** The life of the clients *)

(** The ends of a client: one per server, and on the network. *)
Record ends_ok (rn : LabRpc.Network) (c : Clnt) : Prop := {
  eo_inj : forall s1 s2 e, c_ends c !! s1 = Some e -> c_ends c !! s2 = Some e -> s1 = s2;
  eo_ends : forall s e, c_ends c !! s = Some e -> e ∈ LabRpc.ends rn;
}.

Definition apart (c d : Clnt) : Prop :=
  forall s1 s2 e, c_ends c !! s1 = Some e -> c_ends d !! s2 = Some e -> False.

(** The objects in the set [clerks], which is not nil. *)
Record clients_wf (cs : Clnts) (rn : LabRpc.Network) : Prop := {
  cw_set : is_Some (clerks cs);
  cw_obj : forall p, p ∈ default ∅ (clerks cs) -> exists c, objs cs !! p = Some c;
  cw_ends : forall p c, objs cs !! p = Some c -> p ∈ default ∅ (clerks cs) -> ends_ok rn c;
  cw_apart : forall p q c d, p <> q -> objs cs !! p = Some c -> objs cs !! q = Some d ->
    p ∈ default ∅ (clerks cs) -> q ∈ default ∅ (clerks cs) -> apart c d;
}.

Definition ends_of (c : Clnt) : gset string := list_to_set (map_to_list (c_ends c)).*2.

Lemma elem_of_ends_of e c : e ∈ ends_of c <-> exists s, c_ends c !! s = Some e.
Proof.
  unfold ends_of. rewrite elem_of_list_to_set, list_elem_of_fmap. split.
  - intros ([s e'] & -> & Hs%elem_of_map_to_list). by exists s.
  - intros [s Hs]. exists (s, e). by rewrite elem_of_map_to_list.
Qed.

Lemma remove_spec c rn :
  ends_ok rn c -> exists rn', remove c rn = Ret rn' /\ LabRpc.ends rn' = LabRpc.ends rn ∖ ends_of c.
Proof.
  destruct c as [m srvs0]. unfold remove. cbn [c_ends].
  induction m as [|k e0 m Hk Hfirst IH] using map_first_key_ind; intros [Hinj Hends]; cbn [c_ends] in *.
  - exists rn. rewrite map_fold_empty. split; [done|]. apply set_eq. intros e.
    rewrite elem_of_difference, elem_of_ends_of. cbn [c_ends]. setoid_rewrite lookup_empty. naive_solver.
  - rewrite map_fold_insert_first_key by done.
    assert (forall s e, m !! s = Some e -> s <> k /\ <[k:=e0]> m !! s = Some e) as Hm.
    { intros s e Hs. assert (s <> k) as Hne by congruence. by rewrite lookup_insert_ne. }
    destruct IH as (rn1 & -> & E).
    { split; [intros s1 s2 e [? ?]%Hm [? ?]%Hm; by eapply Hinj|intros s e [? ?]%Hm; by eapply Hends]. }
    cbn [res_bind]. unfold LabRpc.DeleteEnd. rewrite E. rewrite decide_True.
    + eexists. split; [done|]. cbn [LabRpc.ends LabRpc.set_tables]. apply set_eq. intros e.
      rewrite !elem_of_difference, elem_of_singleton, !elem_of_ends_of. cbn [c_ends]. split.
      * intros [[He Hno] Hne]. split; [done|]. intros (s & [[<- <-]|[_ Hs]]%lookup_insert_Some); [done|]. apply Hno. by exists s.
      * intros [He Hno]. split_and!; [done| |].
        -- intros (s & [? Hs]%Hm). apply Hno. by exists s.
        -- intros ->. apply Hno. exists k. apply lookup_insert_eq.
    + apply elem_of_difference. split; [by eapply (Hends k), lookup_insert_eq|]. rewrite elem_of_ends_of.
      intros (s & [Hne Hs]%Hm). apply Hne. apply (Hinj s k e0); [done|apply lookup_insert_eq].
Qed.

Lemma DeleteClient_spec p cs rn :
  clients_wf cs rn ->
  exists cs' rn', DeleteClient p cs rn = Ret (cs', rn') /\ clients_wf cs' rn' /\ objs cs' = objs cs /\
    clerks cs' = (fun ck => ck ∖ {[p]}) <$> clerks cs.
Proof.
  intros [[ck Hck] Hobj Hends Hap]. unfold DeleteClient. rewrite Hck in *. cbn [default from_option id fmap option_fmap option_map] in *.
  case_decide as Hp.
  - destruct (Hobj p Hp) as [c Hc]. unfold remove_at. rewrite Hc.
    destruct (remove_spec c rn (Hends p c Hc Hp)) as (rn' & -> & E). cbn [res_bind]. eexists _, _. split_and!; [done| |done|done].
    split; cbn [clerks objs default from_option id]; [by eexists|..].
    + intros q [Hq _]%elem_of_difference. by apply Hobj.
    + intros q d Hd [Hq Hne]%elem_of_difference. destruct (Hends q d Hd Hq) as [Hinj Hin]. split; [done|].
      intros s e Hs. rewrite E. apply elem_of_difference. split; [by eapply Hin|].
      intros (s' & Hs')%elem_of_ends_of. eapply (Hap p q c d); try done. intros ->. by apply Hne, elem_of_singleton.
    + intros q r d d' Hne Hd Hd' [Hq _]%elem_of_difference [Hr _]%elem_of_difference. by eapply Hap.
  - eexists _, _. split_and!; [done| |done|].
    + split; rewrite ?Hck; cbn [default from_option id]; try done.
    + rewrite Hck. f_equal. set_solver.
Qed.

Definition members (cs : Clnts) : gset positive := default ∅ (clerks cs).

Lemma DeleteClient_members p cs rn :
  clients_wf cs rn ->
  exists cs' rn', DeleteClient p cs rn = Ret (cs', rn') /\ clients_wf cs' rn' /\ objs cs' = objs cs /\
    members cs' = members cs ∖ {[p]}.
Proof.
  intros Hwf. destruct (DeleteClient_spec p cs rn Hwf) as (cs' & rn' & H1 & H2 & H3 & H4). exists cs', rn'.
  split_and!; try done. unfold members. rewrite H4. destruct (cw_set _ _ Hwf) as [ck ->]. done.
Qed.

Lemma MakeClientTo_spec p srvs cs rn :
  clients_wf cs rn -> objs cs !! p = None ->
  exists cs', MakeClientTo p srvs cs = Ret cs' /\ clients_wf cs' rn /\
    objs cs' = <[p := makeClntTo srvs]> (objs cs) /\ members cs' = {[p]} ∪ members cs.
Proof.
  intros [[ck Hck] Hobj Hends Hap] Hp. unfold MakeClientTo. rewrite Hck in *. cbn [default from_option id] in *.
  eexists. split_and!; [done| |done|unfold members; by rewrite Hck].
  assert (forall q, q ∈ {[p]} ∪ ck -> q <> p -> q ∈ ck) as Hin by set_solver.
  split; cbn [clerks objs default from_option id]; [by eexists|..].
  - intros q Hq. destruct (decide (q = p)) as [->|Hne]; [rewrite lookup_insert_eq; by eexists|].
    rewrite lookup_insert_ne by done. by apply Hobj, Hin.
  - intros q c [[<- <-]|[Hne Hc]]%lookup_insert_Some Hq; [|eapply Hends; [done|by apply Hin]].
    split; cbn; intros *; by rewrite lookup_empty.
  - intros q r c d Hqr Hc Hd Hq Hr s1 s2 e H1 H2.
    apply lookup_insert_Some in Hc as [[<- <-]|[Hne1 Hc]]; [cbn in H1; by rewrite lookup_empty in H1|].
    apply lookup_insert_Some in Hd as [[<- <-]|[Hne2 Hd]]; [cbn in H2; by rewrite lookup_empty in H2|].
    eapply (Hap q r); try done; by apply Hin.
Qed.

(** Other changes of the network that leave the ends of the clients, and of the clients' objects that
    leave their ends. *)
Lemma clients_wf_frame cs rn rn' :
  LabRpc.ends rn ⊆ LabRpc.ends rn' -> clients_wf cs rn -> clients_wf cs rn'.
Proof.
  intros Hsub [Hset Hobj Hends Hap]. split; try done. intros p c Hc Hp. destruct (Hends p c Hc Hp) as [Hinj Hin].
  split; [done|]. intros s e Hs. eapply Hsub. by eapply Hin.
Qed.

(** A client's connections are changed, or it makes an end to a server. *)
Inductive client_op (c : Clnt) (rn : LabRpc.Network) : Clnt -> LabRpc.Network -> Prop :=
| op_end name server c' rn' e :
    name ∉ LabRpc.ends rn -> makeEnd name server c rn = Ret (rn', c', e) -> client_op c rn c' rn'
| op_all : client_op c rn (ClntConnectAll c rn).2 (ClntConnectAll c rn).1
| op_to srvs : client_op c rn (ConnectTo srvs c rn).2 (ConnectTo srvs c rn).1
| op_off srv : client_op c rn c (Disconnect srv c rn)
| op_off_all : client_op c rn (ClntDisconnectAll c rn).2 (ClntDisconnectAll c rn).1.

Lemma set_ends_ends p b c rn : LabRpc.ends (set_ends p b c rn) = LabRpc.ends rn.
Proof.
  unfold set_ends. induction (c_ends c) as [|k e m Hk Hfirst IH] using map_first_key_ind; [by rewrite map_fold_empty|].
  rewrite map_fold_insert_first_key by done. by case_match.
Qed.

(** It has the ends it had, and perhaps one with a new name. *)
Lemma client_op_spec c rn c' rn' :
  client_op c rn c' rn' ->
  LabRpc.ends rn ⊆ LabRpc.ends rn' /\
  (c_ends c' = c_ends c \/
   exists s name, c_ends c !! s = None /\ c_ends c' = <[s := name]> (c_ends c) /\
     ~ (name ∈ LabRpc.ends rn) /\ name ∈ LabRpc.ends rn').
Proof.
  intros H. destruct H as [name server c' rn' e Hn Hm| |srvs|srv|]; cbn [fst snd ClntConnectAll ConnectTo ClntDisconnectAll c_ends];
    unfold Disconnect; try (rewrite set_ends_ends; by split; [|left]).
  unfold makeEnd in Hm. destruct (c_ends c !! server) as [e'|] eqn:He; [injection Hm as -> -> ->; by split; [|left]|].
  unfold LabRpc.MakeEnd in Hm. rewrite decide_False in Hm by done. cbn [res_bind] in Hm. injection Hm as <- <- <-.
  cbn [LabRpc.ends LabRpc.Enable LabRpc.Connect LabRpc.set_tables c_ends]. split; [set_solver|right].
  exists server, name. split_and!; try done. set_solver.
Qed.

(** What a client of [cs] does leaves the clients as they must be. *)
Lemma client_op_wf cs rn p c c' rn' :
  clients_wf cs rn -> objs cs !! p = Some c -> client_op c rn c' rn' ->
  clients_wf (MkClnts (<[p := c']> (objs cs)) (clerks cs)) rn'.
Proof.
  intros Hwf Hp Hop. apply client_op_spec in Hop as [Hsub Hc']. pose proof (clients_wf_frame _ _ _ Hsub Hwf) as [Hset Hobj Hends Hap].
  assert (forall s e, p ∈ members cs -> c_ends c' !! s = Some e -> c_ends c !! s = Some e \/
    (e ∈ LabRpc.ends rn' /\ ~ e ∈ LabRpc.ends rn /\ forall s', c_ends c' !! s' = Some e -> s' = s)) as Hnew.
  { intros s e Hin Hs. destruct Hc' as [E|(s1 & name & Hno & E & Hn & Hn')]; rewrite E in *; [by left|].
    apply lookup_insert_Some in Hs as [[<- <-]|[_ Hs]]; [right|by left]. split_and!; try done.
    intros s' [[-> _]|[_ Hs']]%lookup_insert_Some; [done|]. destruct Hn. by eapply (eo_ends _ _ (cw_ends _ _ Hwf p c Hp Hin)). }
  split; cbn [objs clerks]; [done|..].
  - intros q Hq. destruct (decide (q = p)) as [->|]; [rewrite lookup_insert_eq; by eexists|rewrite lookup_insert_ne by done; by apply Hobj].
  - intros q d Hd Hq. apply lookup_insert_Some in Hd as [[<- <-]|[_ Hd]]; [|by eapply Hends]. destruct (Hends p c Hp Hq) as [Hinj Hin]. split.
    + intros s1 s2 e H1 H2. destruct (Hnew s1 e Hq H1) as [H1'|(_ & _ & Hu)]; [|symmetry; by apply Hu].
      destruct (Hnew s2 e Hq H2) as [H2'|(_ & _ & Hu)]; [by eapply Hinj|by apply Hu].
    + intros s e Hs. destruct (Hnew s e Hq Hs) as [Hs'|(? & _)]; [by eapply Hin|done].
  - assert (forall q d, q <> p -> p ∈ members cs -> q ∈ members cs -> objs cs !! q = Some d -> apart c' d) as Hother.
    { intros q d Hne Hpm Hqm Hd s1 s2 e H1 H2. destruct (Hnew s1 e Hpm H1) as [H1'|(_ & Hno & _)].
      - eapply (Hap p q c d); done.
      - apply Hno. by eapply (eo_ends _ _ (cw_ends _ _ Hwf q d Hd Hqm)). }
    intros q r d d' Hqr Hd Hd' Hq Hr.
    apply lookup_insert_Some in Hd as [[<- <-]|[Hne Hd]]; apply lookup_insert_Some in Hd' as [[<- <-]|[Hne' Hd']]; [done| | |by eapply (Hap q r)].
    + by eapply Hother.
    + intros s1 s2 e H1 H2. by eapply (Hother q d); [congruence|..].
Qed.

(** The clients of a test are made, work, are cut off and deleted, while the rest of the test makes
    ends of its own. *)
Inductive life : Clnts * LabRpc.Network -> Clnts * LabRpc.Network -> Prop :=
| life_make p srvs cs cs' rn :
    objs cs !! p = None -> MakeClientTo p srvs cs = Ret cs' -> life (cs, rn) (cs', rn)
| life_op p c c' cs rn rn' :
    objs cs !! p = Some c -> client_op c rn c' rn' ->
    life (cs, rn) (MkClnts (<[p := c']> (objs cs)) (clerks cs), rn')
| life_delete p cs cs' rn rn' :
    DeleteClient p cs rn = Ret (cs', rn') -> life (cs, rn) (cs', rn')
| life_other cs rn rn' :
    LabRpc.ends rn ⊆ LabRpc.ends rn' -> life (cs, rn) (cs, rn').

Lemma life_wf x y : life x y -> clients_wf x.1 x.2 -> clients_wf y.1 y.2.
Proof.
  intros H Hwf. destruct H as [p srvs cs cs' rn Hp Hm|p c c' cs rn rn' Hp Hop|p cs cs' rn rn' Hd|cs rn rn' Hsub]; cbn [fst snd] in *.
  - destruct (MakeClientTo_spec p srvs cs rn Hwf Hp) as (cs1 & E & ? & _). congruence.
  - by eapply client_op_wf.
  - destruct (DeleteClient_spec p cs rn Hwf) as (cs1 & rn1 & E & ? & _). congruence.
  - by eapply clients_wf_frame.
Qed.

Definition began (x : Clnts * LabRpc.Network) : Prop := x.1 = makeClnts.

Lemma began_wf x : began x -> clients_wf x.1 x.2.
Proof. intros ->. split; cbn; [by eexists|..]; intros *; rewrite ?lookup_empty; done. Qed.

Lemma life_reachable x : reachable life began x -> clients_wf x.1 x.2.
Proof. revert x. apply reachable_invariant; [apply began_wf|]. intros x y Hwf Hs. by eapply life_wf. Qed.

Lemma cleanup_clnts_spec cs rn :
  clients_wf cs rn -> exists rn', cleanup_clnts cs rn = Ret (MkClnts (objs cs) None, rn').
Proof.
  intros Hwf. unfold cleanup_clnts, set_fold. cbn [compose].
  assert (forall l, NoDup l -> (forall p, p ∈ l -> p ∈ members cs) ->
    exists rn', foldr (fun p acc => let! rn := acc in remove_at p cs rn) (Ret rn) l = Ret rn' /\
      forall q d, q ∈ members cs -> ~ q ∈ l -> objs cs !! q = Some d -> ends_ok rn' d) as Hl.
  { induction l as [|p l IH]; intros Hnd Hin; cbn [foldr].
    - exists rn. split; [done|]. intros q d Hq _ Hd. by eapply (cw_ends _ _ Hwf).
    - apply NoDup_cons in Hnd as [Hp Hnd]. destruct IH as (rn1 & -> & Hok); [done|intros q Hq; apply Hin; by right|].
      assert (p ∈ members cs) as Hpm by (apply Hin; left). destruct (cw_obj _ _ Hwf p Hpm) as [c Hc].
      cbn [res_bind]. unfold remove_at. rewrite Hc. destruct (remove_spec c rn1 (Hok p c Hpm Hp Hc)) as (rn2 & -> & E).
      exists rn2. split; [done|]. intros q d Hq Hnq Hd.
      destruct (Hok q d Hq ltac:(intros ?; apply Hnq; by right) Hd) as [Hinj Hends]. split; [done|].
      intros s e Hs. rewrite E. apply elem_of_difference. split; [by eapply Hends|]. intros (s' & Hs')%elem_of_ends_of.
      eapply (cw_apart _ _ Hwf p q c d); try done. intros ->. apply Hnq. left. }
  destruct (Hl (elements (members cs))) as (rn' & E & _); [apply NoDup_elements|intros p; by rewrite elem_of_elements|].
  exists rn'. fold (members cs). rewrite E. done.
Qed.

(** ** What the makers promise

    [users] are the clients there are; deleting a clerk deletes [own c], and leaves [kept c], which
    were made with it. *)
Class ClerkMakerLaws (W P Ck : Type) `{IClerkMaker W P Ck} := {
  host_ok : W -> Prop;
  users : W -> gset positive;
  fresh_for : P -> W -> Prop;
  own : IKVClerk Ck -> gset positive;
  kept : IKVClerk Ck -> gset positive;
  (** What a clerk's calls do to the host. *)
  calls : W -> W -> Prop;
  law_fresh w : exists ps, fresh_for ps w;
  law_make ps w : host_ok w -> fresh_for ps w ->
    exists w' tck, MakeClerk ps w = Ret (w', ATestClerk tck) /\ host_ok w' /\
      own (ATestClerk tck) ## users w /\ kept (ATestClerk tck) ## users w /\
      own (ATestClerk tck) ## kept (ATestClerk tck) /\
      users w' = users w ∪ own (ATestClerk tck) ∪ kept (ATestClerk tck);
  law_calls w w' : host_ok w -> calls w w' -> host_ok w' /\ users w' = users w;
  law_delete tck w : host_ok w ->
    exists w', DeleteClerk (ATestClerk tck) w = Ret w' /\ host_ok w' /\
      users w' = users w ∖ own (ATestClerk tck);
}.

Section laws.
Context {Svc : Type}.
Implicit Types (h : host Svc).

Definition host_users h : gset positive := members (cfg_clnts h).
Definition host_wf h : Prop := clients_wf (cfg_clnts h) (net h.1) /\ is_Some (Group Gid h.2).
Definition is_new (p : positive) h : Prop := objs (cfg_clnts h) !! p = None /\ ~ p ∈ host_users h.
Definition host_calls h h' : Prop := exists p c c' rn', objs (cfg_clnts h) !! p = Some c /\
  client_op c (net h.1) c' rn' /\
  h' = (with_net rn' h.1, with_clnts (MkClnts (<[p := c']> (objs (cfg_clnts h))) (clerks (cfg_clnts h))) h.2).
Definition deleted {Ck} (c : IKVClerk Ck) : gset positive :=
  match c with ATestClerk tck => {[tc_Clnt tck]} | AClerk _ => ∅ end.
(** The client of the clerk's controller. *)
Definition ctrler_of (c : IKVClerk ShardClerk.Clerk) : gset positive :=
  match c with ATestClerk tck => {[ShardClerk.sc_clnt (ShardClerk.sck (ck tck))]} | AClerk _ => ∅ end.

Lemma new_client (X : gset positive) h : exists p, is_new p h /\ ~ p ∈ X.
Proof.
  exists (fresh (dom (objs (cfg_clnts h)) ∪ host_users h ∪ X)).
  pose proof (is_fresh (dom (objs (cfg_clnts h)) ∪ host_users h ∪ X)) as Hf.
  rewrite !not_elem_of_union, not_elem_of_dom in Hf. unfold is_new. tauto.
Qed.

Lemma cfg_MakeClient_spec p srvs h :
  host_wf h -> is_new p h ->
  exists h', cfg_MakeClientTo p srvs h = Ret h' /\ host_wf h' /\ host_users h' = {[p]} ∪ host_users h /\
    cf_groups h'.2 = cf_groups h.2 /\ objs (cfg_clnts h') = <[p := makeClntTo srvs]> (objs (cfg_clnts h)).
Proof.
  intros [Hwf Hg] [Hp _]. unfold cfg_MakeClientTo.
  destruct (MakeClientTo_spec p srvs _ _ Hwf Hp) as (cs' & -> & Hwf' & Ho & Hm). cbn [res_bind].
  eexists. split_and!; done.
Qed.

Lemma cfg_DeleteClient_spec p h :
  host_wf h -> exists h', cfg_DeleteClient p h = Ret h' /\ host_wf h' /\ host_users h' = host_users h ∖ {[p]}.
Proof.
  intros [Hwf Hg]. unfold cfg_DeleteClient.
  destruct (DeleteClient_members p _ _ Hwf) as (cs' & rn' & -> & Hwf' & _ & Hm). cbn [res_bind].
  eexists. split_and!; done.
Qed.

Lemma host_calls_ok h h' : host_wf h -> host_calls h h' -> host_wf h' /\ host_users h' = host_users h.
Proof.
  intros [Hwf Hg] (p & c & c' & rn' & Hp & Hop & ->). split; [|done]. split; [|done]. by eapply client_op_wf.
Qed.

Lemma group_names_Ret h : host_wf h -> exists ns, group_names Gid h = Ret ns.
Proof. intros [_ [sg Hg]]. unfold group_names. rewrite Hg. by eexists. Qed.

#[export] Program Instance kvsrv_maker_laws : ClerkMakerLaws (host Svc) positive KvClerk.Clerk := {|
  host_ok := host_wf; users := host_users; fresh_for := is_new; own := deleted; kept := fun _ => ∅; calls := host_calls;
|}.
Next Obligation. intros h. destruct (new_client ∅ h) as (p & Hp & _). by exists p. Qed.
Next Obligation.
  intros p h Hh Hp. destruct (cfg_MakeClient_spec p None h Hh Hp) as (h' & E & Hh' & Hu & _).
  cbn [MakeClerk kvsrv_maker]. unfold kvsrv_MakeClerk, cfg_MakeClient. rewrite E. cbn [res_bind].
  eexists _, _. split; [done|]. destruct Hp as [_ Hp]. cbn [deleted tc_Clnt]. split_and!; [done|set_solver..].
Qed.
Next Obligation. apply host_calls_ok. Qed.
Next Obligation. intros tck h Hh. by apply cfg_DeleteClient_spec. Qed.

#[export] Program Instance kvraft_maker_laws : ClerkMakerLaws (host Svc) positive KvRaft.Clerk := {|
  host_ok := host_wf; users := host_users; fresh_for := is_new; own := deleted; kept := fun _ => ∅; calls := host_calls;
|}.
Next Obligation. intros h. destruct (new_client ∅ h) as (p & Hp & _). by exists p. Qed.
Next Obligation.
  intros p h Hh Hp. destruct (cfg_MakeClient_spec p None h Hh Hp) as (h' & E & Hh' & Hu & _).
  cbn [MakeClerk kvraft_maker]. unfold kvraft_MakeClerk, cfg_MakeClient. rewrite E. cbn [res_bind].
  destruct (group_names_Ret h' Hh') as [ns ->]. cbn [res_bind].
  eexists _, _. split; [done|]. destruct Hp as [_ Hp]. cbn [deleted tc_Clnt]. split_and!; [done|set_solver..].
Qed.
Next Obligation. apply host_calls_ok. Qed.
Next Obligation. intros tck h Hh. by apply cfg_DeleteClient_spec. Qed.

(** A clerk of the sharded store leaves the client of its controller behind, until the test's cleanup. *)
#[export] Program Instance shard_maker_laws : ClerkMakerLaws (host Svc) (positive * positive) ShardClerk.Clerk := {|
  host_ok := host_wf; users := host_users; own := deleted; kept := ctrler_of; calls := host_calls;
  fresh_for := fun ps h => is_new ps.1 h /\ is_new ps.2 h /\ ps.1 <> ps.2;
|}.
Next Obligation.
  intros h. destruct (new_client ∅ h) as (p & Hp & _). destruct (new_client {[p]} h) as (q & Hq & Hne).
  exists (p, q). cbn. set_solver.
Qed.
Next Obligation.
  intros [p q] h Hh (Hp & Hq & Hne). cbn [fst snd] in *.
  destruct (cfg_MakeClient_spec p None h Hh Hp) as (h1 & E1 & Hh1 & Hu1 & _ & Ho1).
  destruct (cfg_MakeClient_spec q None h1 Hh1) as (h2 & E2 & Hh2 & Hu2 & _).
  { destruct Hq as [Hq1 Hq2]. split; [by rewrite Ho1, lookup_insert_ne|rewrite Hu1; set_solver]. }
  cbn [MakeClerk shard_maker]. unfold shard_MakeClerk, makeShardCtrler, makeShardCtrlerClnt, cfg_MakeClient.
  rewrite E1. cbn [res_bind]. rewrite E2. cbn [res_bind]. eexists _, _. split; [done|].
  destruct Hp as [_ Hp], Hq as [_ Hq].
  cbn [deleted ctrler_of ck tc_Clnt ShardClerk.sck ShardClerk.MakeClerk ShardClerk.sc_clnt ShardClerk.MakeShardCtrler].
  split_and!; [done|set_solver..].
Qed.
Next Obligation. apply host_calls_ok. Qed.
Next Obligation. intros tck h Hh. by apply cfg_DeleteClient_spec. Qed.
End laws.

(** ** Tests begin *)

Lemma began_host_wf {Svc} (st : tstate Svc) grps sg n m :
  grps !! GRP0 = Some sg -> host_wf (st, MkCfg makeClnts grps n m).
Proof. intros Hg. split; [by apply (began_wf (makeClnts, net st))|by eexists]. Qed.

(** A test of the replicated store starts all its servers, and clerks can be made. *)
Lemma kvraft_MakeTest_begins names ends labsrvs part nclients reliable crash partitions maxraftstate randomkeys :
  names <> [] -> length ends = length names -> length labsrvs = length names ->
  (forall e, e ∈ ends -> length e = length names) -> NoDup (concat names ++ concat ends) ->
  exists t title, kvraft_MakeTest names ends labsrvs part nclients reliable crash partitions maxraftstate randomkeys =
      Ret (t, title) /\
    nservers t = zlen names /\ oplog (kt_test t) = [] /\ host_wf (t_host (kt_test t)) /\
    exists c, MakeClerk (W := host KvRaft.service) 1%positive (t_host (kt_test t)) = Ret c.
Proof.
  intros Hne H1 H2 He Hnd. unfold kvraft_MakeTest. set (n := zlen names).
  destruct (TestSetup.make_all_Ret (fun i => KvRaft.StartKVServer n Gid i MakePersister maxraftstate) (seqZ 0 n))
    as (srvs & -> & Hlen & _); [intros i _; by eexists|]. cbn [res_bind]. rewrite length_seqZ in Hlen.
  destruct (MakeConfig_Ret names (TestSetup.boots ends labsrvs srvs) reliable) as (st & sg & -> & _ & _).
  { apply TestSetup.boots_ok; [done|done| |done|].
    - unfold n, zlen in Hlen. lia.
    - split; [done|]. intros x _. apply not_elem_of_empty. }
  cbn [res_bind]. eexists _, _. split; [done|].
  assert (host_wf (st, Begin st (MkCfg makeClnts {[GRP0 := sg]} 0 0))) as Hwf by (by eapply (began_host_wf st {[GRP0 := sg]} sg)).
  split_and!; [done|done|exact Hwf|]. destruct (law_make (ClerkMakerLaws := kvraft_maker_laws) 1%positive _ Hwf) as (w' & tck & E & _).
  { split; [done|]. apply not_elem_of_empty. }
  eexists. exact E.
Qed.
End Makers.
