(* ===== verification/KvSpawn.v ===== *)
(** * KvSpawn: the clients of a test at work (src/src/kvtest1/kvtest.go: SpawnClientsAndWait, runClient)

    SpawnClientsAndWait starts one goroutine per client and sleeps; then it sends one token per client
    over one channel, and then receives each client's result.  A client makes a clerk, works until it
    gets a token, sends its result and deletes its clerk.  The goroutines are one step relation over any
    clerk maker (the class of Makers) and any client loop; KvTest's clients are the loops.  KvTest's
    own relation, in which clients stop at any time, covers every run of this one. *)
From S2P Require Import Prelude LabRpc KvSrv Tester KvTest Servers Makers.
Import Rpc.
Local Open Scope Z_scope.
Local Open Scope go_scope.

Module KvSpawn.
Import KvTest Makers.

(** ** A client's loop *)

(** What SpawnClientsAndWait is given: [new me] is the client before its first iteration; [polls] says that it is
    at its [select]; [top None] is that it takes the token, [top (Some r)] the default; [attempt] is an attempt
    of a call of its clerk; [result] is what it returned. *)
Class ClientLoop (S C : Type) := {
  new : Z -> C;
  polls : C -> bool;
  top : option Z -> C -> res C;
  attempt : LabRpc.delivery -> C -> S -> S * res C;
  result : C -> option ClntRes;
}.

(** It begins at its [select], and a token ends it. *)
Class ClientLoopLaws (S C : Type) `{L : ClientLoop S C} := {
  law_new me : polls (new me) = true;
  law_token c : polls c = true -> exists c' v, top None c = Ret c' /\ result c' = Some v;
}.

#[export] Instance put_loop {S} `{!KVService S} (randomkeys : bool) (ka : list string) : ClientLoop S pclient := {
  new := new_pclient ka;
  polls := fun c => match p_pc c with PTop => true | _ => false end;
  top := put_top randomkeys ka;
  attempt := put_attempt;
  result := put_result;
}.
#[export] Instance append_loop {S} `{!KVService S} : ClientLoop S aclient := {
  new := new_aclient;
  polls := fun c => match a_pc c with ATop => true | _ => false end;
  top := append_top;
  attempt := append_attempt;
  result := append_result;
}.

#[export] Program Instance put_loop_laws {S} `{!KVService S} (randomkeys : bool) (ka : list string) :
  ClientLoopLaws S pclient (L := put_loop randomkeys ka).
Next Obligation. done. Qed.
Next Obligation. intros S KS rk ka c. cbn. unfold put_top. destruct (p_pc c) eqn:E; try done. intros _. by eexists _, _. Qed.
#[export] Program Instance append_loop_laws {S} `{!KVService S} : ClientLoopLaws S aclient (L := append_loop).
Next Obligation. done. Qed.
Next Obligation. intros S KS c. cbn. unfold append_top. destruct (a_pc c) eqn:E; try done. intros _. by eexists _, _. Qed.

(** ** The goroutines *)

(** A client: about to make its clerk; at work; at the send of its result; about to delete its clerk;
    returned; gone, because a check of its failed (FailNow ends the goroutine that calls it). *)
Inductive pc (Ck C : Type) :=
| CMake
| CRun (k : IKVClerk Ck) (c : C)
| CSend (k : IKVClerk Ck) (c : C)
| CDelete (k : IKVClerk Ck) (c : C)
| CEnd (k : IKVClerk Ck) (c : C)
| CGone (k : IKVClerk Ck) (e : panic).
Arguments CMake {Ck C}.
Arguments CRun {Ck C} _ _.
Arguments CSend {Ck C} _ _.
Arguments CDelete {Ck C} _ _.
Arguments CEnd {Ck C} _ _.
Arguments CGone {Ck C} _ _.

(** SpawnClientsAndWait: asleep; about to send token [i]; about to receive the result of client [i], with those
    before; returned. *)
Inductive main_pc :=
| MSleep
| MSignal (i : nat)
| MCollect (i : nat) (rs : list ClntRes)
| MReturned (rs : list ClntRes).

Record state (W S Ck C : Type) := MkState { host : W; server : S; main : main_pc; clients : list (pc Ck C) }.
Arguments MkState {W S Ck C} _ _ _ _.
Arguments host {W S Ck C} _.
Arguments server {W S Ck C} _.
Arguments main {W S Ck C} _.
Arguments clients {W S Ck C} _.

Definition run {Ck C} (k : IKVClerk Ck) (rc : res C) : pc Ck C :=
  match rc with Ret c => CRun k c | Panic e => CGone k e end.

Section spawn.
Context {S C W P Ck : Type} `{ML : ClerkMakerLaws W P Ck} `{LL : ClientLoopLaws S C}.
Context (nclnt : nat) (allowed : LabRpc.delivery -> Prop).
Implicit Types (h : W) (s : S) (c : C) (k : IKVClerk Ck) (cs : list (pc Ck C)) (st : state W S Ck C).

Inductive step : state W S Ck C -> state W S Ck C -> Prop :=
(* runClient *)
| s_make h h' s m cs i ps k :
    cs !! i = Some CMake -> fresh_for ps h -> MakeClerk ps h = Ret (h', k) ->
    step (MkState h s m cs) (MkState h' s m (<[i := CRun k (new (Z.of_nat i))]> cs))
| s_iterate h s m cs i k c r :
    cs !! i = Some (CRun k c) -> polls c = true ->
    step (MkState h s m cs) (MkState h s m (<[i := run k (top (Some r) c)]> cs))
| s_attempt h s m cs i k c dl s' rc :
    cs !! i = Some (CRun k c) -> polls c = false -> allowed dl -> attempt dl c s = (s', rc) ->
    step (MkState h s m cs) (MkState h s' m (<[i := run k rc]> cs))
| s_calls h h' s m cs :
    calls h h' -> step (MkState h s m cs) (MkState h' s m cs)
| s_delete h h' s m cs i k c :
    cs !! i = Some (CDelete k c) -> DeleteClerk k h = Ret h' ->
    step (MkState h s m cs) (MkState h' s m (<[i := CEnd k c]> cs))
(* SpawnClientsAndWait *)
| s_wake h s cs :
    step (MkState h s MSleep cs) (MkState h s (MSignal 0) cs)
| s_token h s cs i j k c c' :
    (i < nclnt)%nat -> cs !! j = Some (CRun k c) -> polls c = true -> top None c = Ret c' ->
    step (MkState h s (MSignal i) cs) (MkState h s (MSignal (i + 1)) (<[j := CSend k c']> cs))
| s_signalled h s cs :
    step (MkState h s (MSignal nclnt) cs) (MkState h s (MCollect 0 []) cs)
| s_collect h s cs i rs k c v :
    (i < nclnt)%nat -> cs !! i = Some (CSend k c) -> result c = Some v ->
    step (MkState h s (MCollect i rs) cs) (MkState h s (MCollect (i + 1) (rs ++ [v])) (<[i := CDelete k c]> cs))
| s_return h s cs rs :
    step (MkState h s (MCollect nclnt rs) cs) (MkState h s (MReturned rs) cs).

Definition initial st : Prop :=
  host_ok (host st) /\ main st = MSleep /\ clients st = replicate nclnt CMake.

(** ** The invariant *)

(** It has a token. *)
Definition told (p : pc Ck C) : Z := match p with CSend _ _ | CDelete _ _ | CEnd _ _ => 1 | _ => 0 end.
Definition clerk_of (p : pc Ck C) : option (IKVClerk Ck) :=
  match p with CMake => None | CRun k _ | CSend k _ | CDelete k _ | CEnd k _ | CGone k _ => Some k end.

(** Before the results are received. *)
Definition early (p : pc Ck C) : Prop :=
  match p with CSend _ c => is_Some (result c) | CDelete _ _ | CEnd _ _ => False | _ => True end.
(** Client [j], when [i] results are received. *)
Definition late (i j : nat) (rs : list ClntRes) (p : pc Ck C) : Prop :=
  exists k c v, result c = Some v /\
    if decide (j < i)%nat then (p = CDelete k c \/ p = CEnd k c) /\ rs !! j = Some v else p = CSend k c.

Definition main_ok (m : main_pc) cs : Prop :=
  match m with
  | MSleep => zsum told cs = 0 /\ Forall early cs
  | MSignal i => (i <= nclnt)%nat /\ zsum told cs = Z.of_nat i /\ Forall early cs
  | MCollect i rs => (i <= nclnt)%nat /\ length rs = i /\ forall j p, cs !! j = Some p -> late i j rs p
  | MReturned rs => length rs = nclnt /\ forall j p, cs !! j = Some p -> late nclnt j rs p
  end.

Lemma told_run k rc : told (run k rc) = 0.
Proof. by destruct rc. Qed.
Lemma early_run k rc : early (run k rc).
Proof. by destruct rc. Qed.

(** A client goes on, and has no token before or after. *)
Lemma main_ok_same m cs i p p' :
  cs !! i = Some p -> told p = 0 -> told p' = 0 -> early p' -> main_ok m cs -> main_ok m (<[i := p']> cs).
Proof.
  intros Hi H0 H1 He. pose proof (zsum_insert told cs i p p' Hi) as Hz.
  assert (forall n rs, (forall j q, cs !! j = Some q -> late n j rs q) -> False) as Hno.
  { intros n rs Hl. destruct (Hl i p Hi) as (k & c & v & _ & Hp). case_decide; [destruct Hp as [[-> | ->] _]|subst p]; done. }
  destruct m as [|j|j rs|rs]; cbn [main_ok].
  - intros [Hs Hf]. split; [lia|by apply Forall_insert].
  - intros (Hj & Hs & Hf). split_and!; [done|lia|by apply Forall_insert].
  - intros (_ & _ & Hl). destruct (Hno _ _ Hl).
  - intros (_ & Hl). destruct (Hno _ _ Hl).
Qed.

Lemma all_told cs : zsum told cs = Z.of_nat (length cs) -> forall j p, cs !! j = Some p -> told p = 1.
Proof.
  induction cs as [|q cs IH]; intros Hs j p Hj; [done|]. rewrite zsum_cons in Hs. cbn [length] in Hs.
  assert (zsum told cs <= Z.of_nat (length cs)) as Hle.
  { clear. induction cs as [|q cs IH]; [done|]. rewrite zsum_cons. cbn [length]. assert (told q <= 1) by by destruct q. lia. }
  assert (told q <= 1) by by destruct q. destruct j as [|j]; cbn in Hj; [injection Hj as <-; lia|]. eapply IH; [lia|done].
Qed.

Lemma main_ok_step st st' :
  length (clients st) = nclnt -> step st st' -> main_ok (main st) (clients st) -> main_ok (main st') (clients st').
Proof.
  intros Hlen Hs. destruct Hs as [h h' s m cs i ps k Hi _ _|h s m cs i k c r Hi _|h s m cs i k c dl s' rc Hi _ _ _|h h' s m cs _
    |h h' s m cs i k c Hi _|h s cs|h s cs i j k c c' Hin Hj Hp Ht|h s cs|h s cs i rs k c v Hin Hi Hv|h s cs rs]; cbn [main clients] in *.
  - by eapply main_ok_same.
  - eapply main_ok_same; [done|done|apply told_run|apply early_run].
  - eapply main_ok_same; [done|done|apply told_run|apply early_run].
  - done.
  - assert (forall n rs, (forall j q, cs !! j = Some q -> late n j rs q) ->
      forall j q, <[i:=CEnd k c]> cs !! j = Some q -> late n j rs q) as Hl.
    { intros n rs Hl j q [(<- & <- & _)|[_ Hq]]%list_lookup_insert_Some; [|by apply Hl].
      destruct (Hl i _ Hi) as (k0 & c0 & v & Hv & Hd). case_decide as Hc; [|done]. destruct Hd as [[[= <- <-]|?] Hr]; [|done].
      exists k, c, v. rewrite decide_True by done. split_and!; [done|by right|done]. }
    destruct m as [|j|j rs|rs]; cbn [main_ok]; [| |naive_solver..].
    + intros [_ Hf]. eapply Forall_lookup_1 in Hf; [|exact Hi]. done.
    + intros (_ & _ & Hf). eapply Forall_lookup_1 in Hf; [|exact Hi]. done.
  - intros [Hz Hf]. cbn. split_and!; [lia|done|done].
  - intros (_ & Hz & Hf). cbn. pose proof (zsum_insert told cs j _ (CSend k c') Hj) as Hz'. cbn [told] in Hz'.
    split_and!; [lia|lia|]. apply Forall_insert; [done|]. destruct (law_token c Hp) as (c1 & v & Ht' & Hv). cbn.
    rewrite Ht in Ht'. injection Ht' as ->. by eexists.
  - intros (_ & Hz & Hf). cbn. split_and!; [lia|done|]. intros j p Hj.
    pose proof (all_told cs ltac:(lia) j p Hj) as Hp. eapply Forall_lookup_1 in Hf; [|exact Hj].
    destruct p as [| |k c| | |]; try done. destruct Hf as [v Hv]. exists k, c, v. done.
  - intros (_ & Hr & Hl). cbn. rewrite length_app. cbn [length]. split_and!; [lia|lia|].
    intros j q [(<- & <- & _)|[Hne Hq]]%list_lookup_insert_Some.
    + exists k, c, v. rewrite decide_True by lia. split_and!; [done|by left|]. rewrite <- Hr. apply list_lookup_middle. done.
    + destruct (Hl j q Hq) as (k0 & c0 & v0 & Hv0 & Hd). exists k0, c0, v0. split; [done|].
      destruct (decide (j < i)%nat); [rewrite decide_True by lia|rewrite decide_False by lia; done].
      destruct Hd as [? Hr0]. split; [done|]. by apply lookup_app_l_Some.
  - intros (_ & Hr & Hl). done.
Qed.

(** The clients of the host that a client's clerk has. *)
Definition owned (p : pc Ck C) : gset positive :=
  match p with CEnd _ _ => ∅ | _ => match clerk_of p with Some k => own k | None => ∅ end end.
Definition left_over (p : pc Ck C) : gset positive :=
  match clerk_of p with Some k => kept k | None => ∅ end.

(** The host has the clients it had, and those of the clerks; a clerk shares none. *)
Record host_inv (us : gset positive) st : Prop := {
  hi_ok : host_ok (host st);
  hi_len : length (clients st) = nclnt;
  hi_clerk : forall i p k, clients st !! i = Some p -> clerk_of p = Some k -> exists tck, k = ATestClerk tck;
  hi_users : forall x, x ∈ users (host st) <->
    x ∈ us \/ exists i p, clients st !! i = Some p /\ (x ∈ owned p \/ x ∈ left_over p);
  hi_own : forall i p x, clients st !! i = Some p -> x ∈ owned p -> ~ x ∈ us /\
    forall j q, clients st !! j = Some q -> ~ x ∈ left_over q /\ (j <> i -> ~ x ∈ owned q);
}.

(** A client goes on with the clerk it has. *)
Lemma host_inv_same us h s s' m m' cs i p p' :
  cs !! i = Some p -> clerk_of p' = clerk_of p -> owned p' = owned p ->
  host_inv us (MkState h s m cs) -> host_inv us (MkState h s' m' (<[i := p']> cs)).
Proof.
  intros Hi Hk Ho [Hok Hlen Hcl Hu Hown]. cbn [host clients] in *.
  assert (left_over p' = left_over p) as Hl by (unfold left_over; by rewrite Hk).
  assert (forall j q, <[i:=p']> cs !! j = Some q -> exists q0, cs !! j = Some q0 /\
    clerk_of q = clerk_of q0 /\ owned q = owned q0 /\ left_over q = left_over q0) as Hb.
  { intros j q [(<- & <- & _)|[_ Hq]]%list_lookup_insert_Some; [by exists p|by exists q]. }
  assert (forall j q0, cs !! j = Some q0 -> exists q, <[i:=p']> cs !! j = Some q /\
    owned q = owned q0 /\ left_over q = left_over q0) as Hf.
  { intros j q0 Hq. destruct (decide (j = i)) as [->|Hne]; [|exists q0; by rewrite list_lookup_insert_ne].
    exists p'. rewrite list_lookup_insert_eq by (by eapply lookup_lt_Some). rewrite Hi in Hq. injection Hq as <-. done. }
  split; cbn [host clients].
  - done.
  - by rewrite length_insert.
  - intros j q k (q0 & Hq & -> & _)%Hb. by eapply Hcl.
  - intros x. rewrite Hu. apply or_iff_compat_l. split.
    + intros (j & q0 & (q & Hq & <- & <-)%Hf & ?). by exists j, q.
    + intros (j & q & (q0 & Hq & _ & -> & ->)%Hb & ?). by exists j, q0.
  - intros j q x (q0 & Hq & _ & -> & _)%Hb Hx. destruct (Hown j q0 x Hq Hx) as [Hno Hap]. split; [done|].
    intros j' q' (q0' & Hq' & _ & -> & ->)%Hb. by apply Hap.
Qed.

Lemma host_inv_make us h h' s m cs i ps k :
  cs !! i = Some CMake -> fresh_for ps h -> MakeClerk ps h = Ret (h', k) ->
  host_inv us (MkState h s m cs) -> host_inv us (MkState h' s m (<[i := CRun k (new (Z.of_nat i))]> cs)).
Proof.
  intros Hi Hf Hm [Hok Hlen Hcl Hu Hown]. cbn [host clients] in *.
  destruct (law_make ps h Hok Hf) as (h1 & tck & Hm' & Hok' & Ho & Hk & Hap & Hus). rewrite Hm in Hm'. injection Hm' as <- ->.
  set (k := ATestClerk tck) in *. set (p' := CRun k (new (Z.of_nat i))).
  assert (owned p' = own k /\ left_over p' = kept k) as [Ho' Hl'] by done.
  assert (i < length cs)%nat as Hlt by (by eapply lookup_lt_Some).
  assert (forall x j q, cs !! j = Some q -> x ∈ owned q \/ x ∈ left_over q -> x ∈ users h) as Hin.
  { intros x j q Hq Hx. apply Hu. right. by exists j, q. }
  assert (forall x, x ∈ us -> x ∈ users h) as Hus0 by (intros x ?; apply Hu; by left).
  split; cbn [host clients].
  - done.
  - by rewrite length_insert.
  - intros j q k' [(<- & <- & _)|[_ Hq]]%list_lookup_insert_Some; [intros [= <-]; by exists tck|by eapply Hcl].
  - intros x. rewrite Hus, !elem_of_union, Hu. split.
    + intros [[[Hx|(j & q & Hq & Hx)]|Hx]|Hx].
      * by left.
      * right. exists j, q. split; [|done]. rewrite list_lookup_insert_ne; [done|].
        intros ->. rewrite Hi in Hq. injection Hq as <-. destruct Hx as [?%elem_of_empty|?%elem_of_empty]; done.
      * right. exists i, p'. rewrite list_lookup_insert_eq by done. by split; [|left; rewrite Ho'].
      * right. exists i, p'. rewrite list_lookup_insert_eq by done. by split; [|right; rewrite Hl'].
    + intros [Hx|(j & q & [(<- & <- & _)|[_ Hq]]%list_lookup_insert_Some & Hx)]; [by left; left; left| |].
      * rewrite Ho', Hl' in Hx. tauto.
      * left; left; right. by exists j, q.
  - intros j q x [(<- & <- & _)|[Hne Hq]]%list_lookup_insert_Some Hx.
    + rewrite Ho' in Hx. assert (~ x ∈ users h) as Hno by set_solver. split; [by intros ?%Hus0|].
      intros j' q' [(<- & <- & _)|[Hne' Hq']]%list_lookup_insert_Some; [split; [rewrite Hl'; set_solver|done]|].
      split; [|intros _]; intros Hx'; apply Hno; eapply Hin; [exact Hq'|by right|exact Hq'|by left].
    + destruct (Hown j q x Hq Hx) as [Hno Hapart]. split; [done|].
      intros j' q' [(<- & <- & _)|[Hne' Hq']]%list_lookup_insert_Some; [|by apply Hapart].
      assert (x ∈ users h) as Hxu by (eapply Hin; [exact Hq|by left]). rewrite Ho', Hl'. set_solver.
Qed.

Lemma host_inv_delete us h h' s m cs i k c :
  cs !! i = Some (CDelete k c) -> DeleteClerk k h = Ret h' ->
  host_inv us (MkState h s m cs) -> host_inv us (MkState h' s m (<[i := CEnd k c]> cs)).
Proof.
  intros Hi Hd [Hok Hlen Hcl Hu Hown]. cbn [host clients] in *.
  destruct (Hcl i _ k Hi eq_refl) as [tck ->]. destruct (law_delete tck h Hok) as (h1 & Hd' & Hok' & Hus).
  rewrite Hd in Hd'. injection Hd' as <-. set (k := ATestClerk tck) in *.
  assert (i < length cs)%nat as Hlt by (by eapply lookup_lt_Some).
  assert (forall x, x ∈ own k -> ~ x ∈ us /\ forall j q, cs !! j = Some q -> ~ x ∈ left_over q /\ (j <> i -> ~ x ∈ owned q)) as Hk.
  { intros x Hx. by apply (Hown i (CDelete k c)). }
  split; cbn [host clients].
  - done.
  - by rewrite length_insert.
  - intros j q k' [(<- & <- & _)|[_ Hq]]%list_lookup_insert_Some; [intros [= <-]; by exists tck|by eapply Hcl].
  - intros x. rewrite Hus, elem_of_difference, Hu. split.
    + intros [[Hx|(j & q & Hq & Hx)] Hno]; [by left|right]. destruct (decide (j = i)) as [->|Hne].
      * rewrite Hi in Hq. injection Hq as <-. exists i, (CEnd k c). rewrite list_lookup_insert_eq by done.
        split; [done|]. destruct Hx as [Hx|Hx]; [done|by right].
      * exists j, q. by rewrite list_lookup_insert_ne.
    + intros [Hx|(j & q & [(<- & <- & _)|[Hne Hq]]%list_lookup_insert_Some & Hx)].
      * split; [by left|]. intros Ho. by apply (Hk x Ho).
      * destruct Hx as [Hx|Hx]; [destruct (not_elem_of_empty _ Hx)|]. split; [right; exists i, (CDelete k c); by split; [|right]|].
        intros Ho. by apply (proj1 (proj2 (Hk x Ho) i _ Hi)).
      * split; [right; by exists j, q|]. intros Ho. destruct (proj2 (Hk x Ho) j q Hq) as [H1 H2].
        destruct Hx as [Hx|Hx]; [by apply H2|done].
  - intros j q x [(<- & <- & _)|[Hne Hq]]%list_lookup_insert_Some Hx; [destruct (not_elem_of_empty _ Hx)|].
    destruct (Hown j q x Hq Hx) as [Hno Hapart]. split; [done|].
    intros j' q' [(<- & <- & _)|[Hne' Hq']]%list_lookup_insert_Some; [|by apply Hapart].
    split; [by apply (Hapart i _ Hi)|]. intros _ Hx'. destruct (not_elem_of_empty _ Hx').
Qed.

Lemma host_inv_step us st st' : step st st' -> host_inv us st -> host_inv us st'.
Proof.
  intros Hs Hinv. destruct Hs as [h h' s m cs i ps k Hi Hf Hm|h s m cs i k c r Hi _|h s m cs i k c dl s' rc Hi _ _ _|h h' s m cs Hc
    |h h' s m cs i k c Hi Hd|h s cs|h s cs i j k c c' Hin Hj Hp Ht|h s cs|h s cs i rs k c v Hin Hi Hv|h s cs rs].
  - by eapply host_inv_make.
  - eapply host_inv_same; [exact Hi|by destruct (top (Some r) c)..|done].
  - eapply host_inv_same; [exact Hi|by destruct rc..|done].
  - destruct Hinv as [Hok Hlen Hcl Hu Hown]. destruct (law_calls h h' Hok Hc) as [Hok' E].
    split; cbn [host clients] in *; try done. by rewrite E.
  - by eapply host_inv_delete.
  - by destruct Hinv.
  - by eapply host_inv_same.
  - by destruct Hinv.
  - by eapply host_inv_same.
  - by destruct Hinv.
Qed.

(** ** A run, seen by KvTest *)

Definition seen (i : nat) (p : pc Ck C) : res C :=
  match p with
  | CMake => Ret (new (Z.of_nat i))
  | CRun _ c | CSend _ c | CDelete _ c | CEnd _ c => Ret c
  | CGone _ e => Panic e
  end.
Definition as_kv st : KvTest.state S C := KvTest.MkState (server st) (imap seen (clients st)).

Lemma imap_seen_insert cs i p : imap seen (<[i := p]> cs) = <[i := seen i p]> (imap seen cs).
Proof.
  apply list_eq. intros j. destruct (decide (j = i)) as [->|Hne].
  - destruct (decide (i < length cs)%nat) as [Hlt|Hge].
    + rewrite list_lookup_imap, !list_lookup_insert_eq by (rewrite ?length_imap; done). done.
    + rewrite !list_insert_ge by (rewrite ?length_imap; lia). done.
  - by rewrite list_lookup_imap, !list_lookup_insert_ne, list_lookup_imap by done.
Qed.

Lemma imap_seen_same cs i p p' : cs !! i = Some p -> seen i p' = seen i p -> imap seen (<[i := p']> cs) = imap seen cs.
Proof. intros Hi E. rewrite imap_seen_insert. apply list_insert_id. by rewrite list_lookup_imap, Hi, E. Qed.

Lemma seen_run i k rc : seen i (run k rc) = rc.
Proof. by destruct rc. Qed.

Lemma step_seen st st' : step st st' -> as_kv st' = as_kv st \/ KvTest.step top attempt allowed (as_kv st) (as_kv st').
Proof.
  intros Hs. destruct Hs as [h h' s m cs i ps k Hi Hf Hm|h s m cs i k c r Hi _|h s m cs i k c dl s' rc Hi _ Hdl Ha|h h' s m cs Hc
    |h h' s m cs i k c Hi Hd|h s cs|h s cs i j k c c' Hin Hj Hp Ht|h s cs|h s cs i rs k c v Hin Hi Hv|h s cs rs];
    unfold as_kv; cbn [server clients]; try (by left).
  - left. by erewrite imap_seen_same.
  - right. rewrite imap_seen_insert, seen_run. eapply KvTest.step_top. by rewrite list_lookup_imap, Hi.
  - right. rewrite imap_seen_insert, seen_run. eapply KvTest.step_attempt; [by rewrite list_lookup_imap, Hi|done..].
  - left. by erewrite imap_seen_same.
  - right. rewrite imap_seen_insert. cbn [seen]. rewrite <- Ht. eapply KvTest.step_top. by rewrite list_lookup_imap, Hj.
  - left. by erewrite imap_seen_same.
Qed.

Lemma initial_seen st : initial st -> as_kv st = KvTest.spawn (server st) new nclnt.
Proof.
  intros (_ & _ & Hc). unfold as_kv, KvTest.spawn. rewrite Hc. f_equal. apply list_eq. intros i.
  rewrite list_lookup_imap, list_lookup_fmap. destruct (decide (i < nclnt)%nat) as [Hlt|Hge].
  - rewrite lookup_replicate_2 by done. rewrite lookup_seqZ_lt by lia. cbn. by rewrite Z.add_0_l.
  - rewrite lookup_ge_None_2 by (rewrite length_replicate; lia). by rewrite lookup_seqZ_ge by lia.
Qed.

Lemma initial_inv st : initial st -> host_inv (users (host st)) st /\ main_ok (main st) (clients st).
Proof.
  intros (Hok & Hm & Hc). rewrite Hm, Hc. split.
  - assert (forall i p, clients st !! i = Some p -> p = CMake) as Hmk.
    { intros i p. rewrite Hc. by intros [-> _]%lookup_replicate. }
    split; [done|by rewrite Hc, length_replicate|by intros i p k ->%Hmk|..].
    + intros x. split; [by left|]. intros [Hx|(i & p & ->%Hmk & [Hx|Hx])]; [done|destruct (not_elem_of_empty _ Hx)..].
    + intros i p x ->%Hmk Hx. destruct (not_elem_of_empty _ Hx).
  - split; [apply zsum_zero; by intros p [-> _]%elem_of_replicate|]. by apply Forall_replicate.
Qed.

(** What holds in every state of a run from [st0]. *)
Lemma run_inv st0 st :
  initial st0 -> rtc step st0 st ->
  host_inv (users (host st0)) st /\ main_ok (main st) (clients st).
Proof.
  intros H0 Hr. destruct (initial_inv st0 H0) as [Hh Hm].
  generalize (users (host st0)) Hh. intros us Hh'. clear H0 Hh.
  induction Hr as [st|st st1 st' Hs Hr IH]; [by split|].
  apply IH; [eapply main_ok_step; [by eapply hi_len|done|done]|by eapply host_inv_step].
Qed.

(** KvTest's relation has the run, in as many steps or fewer. *)
Lemma run_seen n st0 st :
  initial st0 -> nsteps step n st0 st ->
  exists m, (m <= n)%nat /\ nsteps (KvTest.step top attempt allowed) m (KvTest.spawn (server st0) new nclnt) (as_kv st).
Proof.
  intros H0 Hr. rewrite <- initial_seen by done. clear H0. induction Hr as [st|n st st1 st' Hs Hr (m & Hm & IH)].
  - exists 0%nat. split; [lia|constructor].
  - destruct (step_seen _ _ Hs) as [E|Hs']; [rewrite <- E; exists m; split; [lia|done]|].
    exists (Datatypes.S m). split; [lia|]. by econstructor.
Qed.

Lemma late_results rs cs :
  length cs = nclnt -> length rs = nclnt -> (forall j p, cs !! j = Some p -> late nclnt j rs p) ->
  wait_results result (imap seen cs) = Some rs.
Proof.
  intros Hlen Hr Hl. unfold wait_results. apply mapM_Some_2, Forall2_same_length_lookup_2; [rewrite length_imap; lia|].
  intros j rc v. rewrite list_lookup_imap. intros (p & Hp & ->)%fmap_Some Hv.
  destruct (Hl j p Hp) as (k & c & v' & Hc & Hd). apply lookup_lt_Some in Hp. rewrite decide_True in Hd by lia.
  destruct Hd as [[-> | ->] Hv']; cbn [seen]; congruence.
Qed.

(** ** The call returns *)

(** An attempt of a client, the others standing still. *)
Definition goes (x y : S * C) : Prop :=
  polls x.2 = false /\ exists dl, allowed dl /\ attempt dl x.2 x.1 = (y.1, Ret y.2).

(** Left alone, a client comes back to its [select], and harms no other; [good n] is good for [n] such turns. *)
Record progress (good : nat -> S -> C -> Prop) : Prop := {
  pg_run : forall n s c, good (n + 1)%nat s c -> polls c = false ->
    exists s' c', rtc goes (s, c) (s', c') /\ polls c' = true /\ forall d, good (n + 1)%nat s d -> good n s' d;
  pg_less : forall n s c, good (n + 1)%nat s c -> good n s c;
}.

Lemma drive h s c s' c' m k cs j :
  cs !! j = Some (CRun k c) -> rtc goes (s, c) (s', c') ->
  rtc step (MkState h s m cs) (MkState h s' m (<[j := CRun k c']> cs)).
Proof.
  intros Hj Hr. remember (s, c) as x eqn:Ex. remember (s', c') as y eqn:Ey. revert s c cs Ex Hj.
  induction Hr as [x|x [s1 c1] y (Hp & dl & Hdl & Ha) Hr IH]; intros s c cs -> Hj.
  - injection Ey as -> ->. by rewrite list_insert_id.
  - cbn [fst snd] in *. eapply rtc_l; [by eapply s_attempt|]. cbn [run].
    specialize (IH Ey s1 c1 (<[j:=CRun k c1]> cs) eq_refl). rewrite list_insert_insert_eq in IH. apply IH.
    apply list_lookup_insert_eq. by eapply lookup_lt_Some.
Qed.

Lemma run_keeps us st st' :
  rtc step st st' -> host_inv us st -> main_ok (main st) (clients st) ->
  host_inv us st' /\ main_ok (main st') (clients st').
Proof.
  induction 1 as [st|st st1 st' Hs Hr IH]; intros Hh Hm; [done|].
  apply IH; [by eapply host_inv_step|eapply main_ok_step; [by eapply hi_len|done|done]].
Qed.

Definition ready (good : nat -> S -> C -> Prop) (n : nat) s (p : pc Ck C) : Prop :=
  match p with CRun _ c => good n s c | CGone _ _ => False | _ => True end.

Lemma untold cs : zsum told cs < Z.of_nat (length cs) -> exists j p, cs !! j = Some p /\ told p = 0.
Proof.
  induction cs as [|q cs IH]; [done|]. rewrite zsum_cons. cbn [length]. intros Hlt.
  destruct (decide (told q = 0)) as [H0|H1]; [by exists 0%nat, q|].
  destruct IH as (j & p & Hj & Hp); [|by exists (Datatypes.S j), p]. assert (told q = 1) by (destruct q; done). lia.
Qed.

(** A client that has no token can take the next one. *)
Lemma take_token us good n i h s cs :
  progress good -> (i < nclnt)%nat -> host_inv us (MkState h s (MSignal i) cs) ->
  main_ok (MSignal i) cs -> (forall j p, cs !! j = Some p -> ready good (n + 1) s p) ->
  exists h' s' cs', rtc step (MkState h s (MSignal i) cs) (MkState h' s' (MSignal (i + 1)) cs') /\
    forall j p, cs' !! j = Some p -> ready good n s' p.
Proof.
  intros Hpg Hi Hh (_ & Hz & _) Hr. assert (forall s p, ready good (n + 1) s p -> ready good n s p) as Hless.
  { intros s1 p. destruct p; try done. by apply (pg_less _ Hpg). }
  assert (forall h s cs j k c, cs !! j = Some (CRun k c) -> polls c = true -> exists c',
    step (MkState h s (MSignal i) cs) (MkState h s (MSignal (i + 1)) (<[j:=CSend k c']> cs))) as Htok.
  { intros h1 s1 cs1 j k c Hj Hp. destruct (law_token c Hp) as (c' & v & Ht & _). exists c'. by eapply s_token. }
  destruct (untold cs) as (j & p & Hj & Hp); [pose proof (hi_len _ _ Hh) as Hl; cbn in Hl; lia|]. pose proof (Hr j p Hj) as Hg.
  assert (j < length cs)%nat as Hlt by (by eapply lookup_lt_Some).
  destruct p as [|k c| | | |]; try done.
  - destruct (law_fresh h) as [ps Hf]. destruct (law_make ps h (hi_ok _ _ Hh) Hf) as (h' & tck & Hm & _).
    destruct (Htok h' s (<[j := CRun (ATestClerk tck) (new (Z.of_nat j))]> cs) j (ATestClerk tck) (new (Z.of_nat j))) as [c' Hs];
      [by apply list_lookup_insert_eq|apply law_new|].
    eexists _, _, _. split; [eapply rtc_l; [by eapply s_make|]; by apply rtc_once|].
    intros l q. rewrite list_insert_insert_eq. intros [(<- & <- & _)|[_ Hq]]%list_lookup_insert_Some; [done|]. by eapply Hless, Hr.
  - assert (exists s' c', rtc goes (s, c) (s', c') /\ polls c' = true /\ forall d, good (n + 1)%nat s d -> good n s' d) as
      (s' & c' & Hgo & Hpoll & Hd).
    { destruct (polls c) eqn:Hpoll; [|by apply (pg_run _ Hpg)]. exists s, c. split_and!; [done|done|]. apply (pg_less _ Hpg). }
    destruct (Htok h s' (<[j := CRun k c']> cs) j k c') as [c2 Hs]; [by apply list_lookup_insert_eq|done|].
    eexists _, _, _. split; [etrans; [by eapply drive|]; by apply rtc_once|].
    intros l q. rewrite list_insert_insert_eq. intros [(<- & <- & _)|[_ Hq]]%list_lookup_insert_Some; [done|].
    specialize (Hr l q Hq). destruct q; try done. by apply Hd.
Qed.

Lemma signal_all us good n i h s cs :
  progress good -> (i + n = nclnt)%nat -> host_inv us (MkState h s (MSignal i) cs) ->
  main_ok (MSignal i) cs -> (forall j p, cs !! j = Some p -> ready good n s p) ->
  exists h' s' cs', rtc step (MkState h s (MSignal i) cs) (MkState h' s' (MCollect 0 []) cs').
Proof.
  intros Hpg. revert i h s cs. induction n as [|n IH]; intros i h s cs Hi Hh Hm Hr.
  - assert (i = nclnt) as -> by lia. eexists _, _, _. apply rtc_once, s_signalled.
  - rewrite <- Nat.add_1_r in Hr. destruct (take_token us good n i h s cs) as (h1 & s1 & cs1 & H1 & Hr1); [done|lia|done..|].
    destruct (run_keeps us _ _ H1 Hh Hm) as [Hh1 Hm1].
    destruct (IH (i + 1)%nat h1 s1 cs1) as (h' & s' & cs' & H2); [lia|done..|].
    eexists _, _, _. by etrans.
Qed.

Lemma collect_all us i rs h s cs n :
  (i + n = nclnt)%nat -> host_inv us (MkState h s (MCollect i rs) cs) -> main_ok (MCollect i rs) cs ->
  exists rs' cs', rtc step (MkState h s (MCollect i rs) cs) (MkState h s (MReturned rs') cs').
Proof.
  revert i rs cs. induction n as [|n IH]; intros i rs cs Hi Hh Hm.
  - assert (i = nclnt) as -> by lia. eexists _, _. apply rtc_once, s_return.
  - destruct (lookup_lt_is_Some_2 cs i) as [p Hp]; [pose proof (hi_len _ _ Hh) as Hl; cbn in Hl; lia|].
    destruct Hm as (Hi' & Hr & Hl). destruct (Hl i p Hp) as (k & c & v & Hv & Hd). rewrite decide_False in Hd by lia. subst p.
    assert (step (MkState h s (MCollect i rs) cs) (MkState h s (MCollect (i + 1) (rs ++ [v])) (<[i := CDelete k c]> cs))) as Hs
      by (eapply s_collect; [lia|done..]).
    destruct (run_keeps us _ _ (rtc_once _ _ Hs) Hh) as [Hh1 Hm1]; [done|].
    destruct (IH (i + 1)%nat _ _ ltac:(lia) Hh1 Hm1) as (rs' & cs' & H2). eexists _, _. by eapply rtc_l.
Qed.

Lemma delete_all us rs h s cs n :
  (n <= nclnt)%nat -> host_inv us (MkState h s (MReturned rs) cs) -> main_ok (MReturned rs) cs ->
  exists h' cs', rtc step (MkState h s (MReturned rs) cs) (MkState h' s (MReturned rs) cs') /\
    forall j p, (j < n)%nat -> cs' !! j = Some p -> exists k c, p = CEnd k c.
Proof.
  intros Hn Hh Hm. induction n as [|n IH]; [eexists _, _; split; [done|lia]|].
  destruct IH as (h1 & cs1 & H1 & Hend); [lia|]. destruct (run_keeps us _ _ H1 Hh Hm) as [Hh1 Hm1].
  destruct (lookup_lt_is_Some_2 cs1 n) as [p Hp]; [pose proof (hi_len _ _ Hh1) as Hl; cbn in Hl; lia|].
  destruct Hm1 as [_ Hl]. destruct (Hl n p Hp) as (k & c & v & _ & Hd). rewrite decide_True in Hd by lia.
  destruct Hd as [[-> | ->] _].
  - destruct (hi_clerk _ _ Hh1 n _ k Hp eq_refl) as [tck ->]. destruct (law_delete tck h1 (hi_ok _ _ Hh1)) as (h2 & Hd & _).
    eexists _, _. split; [etrans; [exact H1|]; apply rtc_once; by eapply s_delete|].
    intros j p Hj [(<- & <- & _)|[Hne Hq]]%list_lookup_insert_Some; [by eexists _, _|]. eapply (Hend j); [lia|done].
  - eexists _, _. split; [exact H1|]. intros j p Hj Hq. destruct (decide (j = n)) as [->|]; [|eapply (Hend j); [lia|done]].
    rewrite Hp in Hq. injection Hq as <-. by eexists _, _.
Qed.

(** A client that failed never goes on, and the call never returns. *)
Lemma gone_step st st' i k e :
  step st st' -> clients st !! i = Some (CGone k e) -> clients st' !! i = Some (CGone k e).
Proof.
  intros Hs Hg. destruct Hs; cbn [clients] in *; try done;
    (rewrite list_lookup_insert_ne; [done|intros ->; rewrite Hg in *; discriminate]).
Qed.

Lemma failed_client_blocks st0 st st' i k e rs :
  initial st0 -> rtc step st0 st -> clients st !! i = Some (CGone k e) -> rtc step st st' -> main st' <> MReturned rs.
Proof.
  intros H0 Hr Hg Hr'. assert (clients st' !! i = Some (CGone k e)) as Hg'.
  { clear Hr. induction Hr' as [st|st st1 st' Hs Hr' IH]; [done|]. apply IH. by eapply gone_step. }
  destruct (run_inv st0 st' H0) as [_ Hm]; [by etrans|]. intros E. rewrite E in Hm. destruct Hm as [_ Hl].
  destruct (Hl i _ Hg') as (k0 & c & v & _ & Hd). case_decide; [destruct Hd as [[?|?] _]|]; done.
Qed.

Lemma all_ended_users us st :
  host_inv us st -> (forall j p, clients st !! j = Some p -> exists k c, p = CEnd k c) ->
  forall x, x ∈ users (host st) <-> x ∈ us \/ exists j k c, clients st !! j = Some (CEnd k c) /\ x ∈ kept k.
Proof.
  intros Hh Hend x. rewrite (hi_users _ _ Hh). apply or_iff_compat_l. split.
  - intros (j & p & Hj & Hx). destruct (Hend j p Hj) as (k & c & ->). exists j, k, c. split; [done|].
    destruct Hx as [Hx|Hx]; [destruct (not_elem_of_empty _ Hx)|done].
  - intros (j & k & c & Hj & Hx). exists j, (CEnd k c). split; [done|by right].
Qed.

(** From a state of a run in which the clients can work, the call returns and the clerks are deleted. *)
Lemma returns_from us good st :
  host_inv us st -> main_ok (main st) (clients st) -> progress good ->
  (forall j p, clients st !! j = Some p -> ready good nclnt (server st) p) ->
  exists st' rs, rtc step st st' /\ main st' = MReturned rs /\ forall j p, clients st' !! j = Some p -> exists k c, p = CEnd k c.
Proof.
  intros Hh Hm Hpg Hr.
  assert (forall h s rs cs, host_inv us (MkState h s (MReturned rs) cs) -> main_ok (MReturned rs) cs ->
    exists st' rs', rtc step (MkState h s (MReturned rs) cs) st' /\ main st' = MReturned rs' /\
      forall j p, clients st' !! j = Some p -> exists k c, p = CEnd k c) as Hret.
  { intros h s rs cs H1 H2. destruct (delete_all us rs h s cs nclnt) as (h' & cs' & H3 & Hend); [lia|done..|].
    destruct (run_keeps us _ _ H3 H1 H2) as [H4 _]. eexists _, _. split_and!; [exact H3|done|].
    intros j p Hj. eapply (Hend j); [|exact Hj]. apply lookup_lt_Some in Hj. pose proof (hi_len _ _ H4) as Hl. cbn in Hl, Hj. lia. }
  assert (forall h s i rs cs, host_inv us (MkState h s (MCollect i rs) cs) -> main_ok (MCollect i rs) cs ->
    exists st' rs', rtc step (MkState h s (MCollect i rs) cs) st' /\ main st' = MReturned rs' /\
      forall j p, clients st' !! j = Some p -> exists k c, p = CEnd k c) as Hcol.
  { intros h s i rs cs H1 H2. pose proof H2 as (Hi & _ & _).
    destruct (collect_all us i rs h s cs (nclnt - i)) as (rs' & cs' & H3); [lia|done..|].
    destruct (run_keeps us _ _ H3 H1 H2) as [H4 H5]. destruct (Hret _ _ _ _ H4 H5) as (st' & rs2 & H6 & H7).
    eexists _, _. split; [by etrans|done]. }
  assert (forall h s i cs, (forall j p, cs !! j = Some p -> ready good nclnt s p) -> host_inv us (MkState h s (MSignal i) cs) ->
    main_ok (MSignal i) cs -> exists st' rs', rtc step (MkState h s (MSignal i) cs) st' /\ main st' = MReturned rs' /\
      forall j p, clients st' !! j = Some p -> exists k c, p = CEnd k c) as Hsig.
  { intros h s i cs H0 H1 H2. pose proof H2 as (Hi & _ & _).
    assert (forall j p, cs !! j = Some p -> ready good (nclnt - i) s p) as H0'.
    { intros j p Hj. specialize (H0 j p Hj). replace nclnt with (nclnt - i + i)%nat in H0 by lia. revert H0. clear -Hpg.
      generalize (nclnt - i)%nat as m. intros m. induction i as [|i IH]; [by rewrite Nat.add_0_r|]. intros H0. apply IH.
      destruct p; try done. cbn in *. apply (pg_less _ Hpg). by replace (m + i + 1)%nat with (m + Datatypes.S i)%nat by lia. }
    destruct (signal_all us good (nclnt - i) i h s cs) as (h' & s' & cs' & H3); [done|lia|done..|].
    destruct (run_keeps us _ _ H3 H1 H2) as [H4 H5]. destruct (Hcol _ _ _ _ _ H4 H5) as (st' & rs2 & H6 & H7).
    eexists _, _. split; [by etrans|done]. }
  destruct st as [h s m cs]. cbn [main clients server] in *. destruct m as [|i|i rs|rs]; [|by apply Hsig|by apply Hcol|by apply Hret].
  assert (step (MkState h s MSleep cs) (MkState h s (MSignal 0) cs)) as Hs by constructor.
  destruct (run_keeps us _ _ (rtc_once _ _ Hs) Hh Hm) as [H1 H2]. destruct (Hsig h s 0%nat cs Hr H1 H2) as (st' & rs & H3 & H4).
  eexists _, _. split; [by eapply rtc_l|done].
Qed.
End spawn.

(** ** OneClientPut comes back to its select *)

Section putting.
Context {S : Type} `{!KVService S} `{!KVServiceLaws S} (key : string) (randomkeys : bool).
Context (allowed : LabRpc.delivery -> Prop) (Hdeliver : allowed LabRpc.Delivered).
Implicit Types (s : S) (c : pclient).

Definition put_good (n : nat) s c : Prop :=
  store_ok key s /\ pc_ok key false s c /\ p_pc c <> PDone /\ version s key + Z.of_nat n < 2 ^ 64 - 1.

(** A delivered attempt: the state of the store, and of the client, after it. *)
Record turn s c s' c' : Prop := {
  tn_goes : rtc (goes (L := put_loop randomkeys [key]) allowed) (s, c) (s', c');
  tn_store : store_ok key s';
  tn_ok : pc_ok key false s' c';
  tn_version : version s key <= version s' key <= version s key + 1;
  tn_others : forall d, pc_ok key false s d -> pc_ok key false s' d;
}.

Lemma version_nonneg s : store_ok key s -> 0 <= version s key.
Proof. intros [[_ ->]|(e & _ & H)]; lia. Qed.

Lemma put_delivered s c :
  store_ok key s -> pc_ok key false s c -> version s key < 2 ^ 64 - 1 -> p_pc c <> PTop -> p_pc c <> PDone ->
  exists s' c', put_attempt LabRpc.Delivered c s = (s', Ret c') /\ turn s c s' c'.
Proof.
  intros Hs Hc Hv Htop Hdone. destruct (put_attempt LabRpc.Delivered c s) as [s' rc] eqn:E.
  pose proof (version_nonneg s Hs) as H0.
  destruct (put_attempt_ok key false LabRpc.Delivered c s s' rc) as (Hg & Hs' & c' & -> & Hc' & _); [lia|done..|].
  exists s', c'. split; [done|]. split; [|done|done|by apply grows_version|by intros d; apply pc_ok_grows].
  apply rtc_once. split; [cbn; by destruct (p_pc c)|]. by exists LabRpc.Delivered.
Qed.

Lemma turn_trans s c s1 c1 s' c' :
  turn s c s1 c1 -> turn s1 c1 s' c' -> version s' key <= version s key + 1 -> turn s c s' c'.
Proof.
  intros [H1 H2 H3 H4 H5] [G1 G2 G3 G4 G5] Hv. split; [by etrans|done|done|lia|by intros d ?%H5%G5].
Qed.

(** The Get of OnePut: with OK or ErrMaybe it is the end of OnePut, else it gives the store's version. *)
Lemma get_turn s c ver err :
  store_ok key s -> pc_ok key false s c -> version s key < 2 ^ 64 - 1 -> p_pc c = PGet key ver err ->
  exists c', turn s c s c' /\ p_pc c' = if decide (err = OK \/ err = ErrMaybe) then PTop else PPut key (version s key) false.
Proof.
  intros Hs Hc Hv Hpc. destruct (put_delivered s c) as (s' & c' & E & Ht); [done|done|done|by rewrite Hpc|by rewrite Hpc|].
  pose proof (po_pc _ _ _ _ Hc) as Hp. rewrite Hpc in Hp. destruct Hp as (_ & _ & H1 & _).
  destruct (GetJson_store key s Hs H1) as (e & _ & Hget & Hj).
  unfold put_attempt in E. rewrite Hpc in E. cbn [LabRpc.deliver] in E. rewrite Hget in E.
  injection E as <- E. unfold put_read in E. rewrite Hj in E. cbn [res_bind] in E. exists c'. split; [exact Ht|].
  case_decide; [done|]. case_decide; injection E as <-; done.
Qed.

(** A Put at the store's version, then the Get. *)
Lemma put_turn s c retry :
  store_ok key s -> pc_ok key false s c -> version s key + 1 < 2 ^ 64 - 1 -> p_pc c = PPut key (version s key) retry ->
  exists s' c', turn s c s' c' /\ p_pc c' = PTop.
Proof.
  intros Hs Hc Hv Hpc. destruct (put_delivered s c) as (s1 & c1 & E & Ht); [done|done|lia|by rewrite Hpc|by rewrite Hpc|].
  unfold put_attempt in E. rewrite Hpc in E. cbn [LabRpc.deliver] in E. pose proof (version_nonneg s Hs) as H0.
  destruct (put_cases key s (marshal_EntryV (MkEntryV (p_me c) (version s key))) (version s key)) as [(_ & s2 & Hput & _)|[? _]];
    [lia| |done]. rewrite Hput in E. rewrite reply_err_cases, decide_False in E by naive_solver.
  unfold put_replied in E. rewrite decide_True in E by auto. injection E as <- <-.
  destruct (get_turn s2 (p_at (PGet key (version s key) OK) c) (version s key) OK) as (c2 & Ht2 & Hp2);
    [apply Ht|apply Ht|pose proof (tn_version _ _ _ _ Ht); lia|done|].
  exists s2, c2. split; [|by rewrite Hp2, decide_True by auto]. eapply turn_trans; [exact Ht|exact Ht2|apply Ht].
Qed.

(** The Get, then, if its Put had a wrong version, another Put and Get. *)
Lemma get_back s c ver err :
  store_ok key s -> pc_ok key false s c -> version s key + 1 < 2 ^ 64 - 1 -> p_pc c = PGet key ver err ->
  exists s' c', turn s c s' c' /\ p_pc c' = PTop.
Proof.
  intros Hs Hc Hv Hpc. destruct (get_turn s c ver err) as (c1 & Ht & Hp); [done|done|lia|done|].
  case_decide; [by exists s, c1|]. destruct (put_turn s c1 false) as (s' & c' & Ht' & Hp'); [done|apply Ht|done|done|].
  exists s', c'. split; [|done]. eapply turn_trans; [exact Ht|exact Ht'|apply Ht'].
Qed.

Lemma put_back s c ver retry :
  store_ok key s -> pc_ok key false s c -> version s key + 1 < 2 ^ 64 - 1 -> p_pc c = PPut key ver retry ->
  exists s' c', turn s c s' c' /\ p_pc c' = PTop.
Proof.
  intros Hs Hc Hv Hpc. destruct (decide (version s key = ver)) as [<-|Hne]; [by eapply put_turn|].
  destruct (put_delivered s c) as (s1 & c1 & E & Ht); [done|done|lia|by rewrite Hpc|by rewrite Hpc|].
  unfold put_attempt in E. rewrite Hpc in E. cbn [LabRpc.deliver] in E. pose proof (version_nonneg s Hs) as H0.
  destruct (put_cases key s (marshal_EntryV (MkEntryV (p_me c) ver)) ver) as [[? _]|(_ & Hput)]; [lia|done|].
  rewrite Hput in E. cbv beta iota zeta in E. injection E as <- E. unfold put_replied in E. case_decide; [|done].
  injection E as <-. destruct (get_back s _ ver _ Hs (tn_ok _ _ _ _ Ht) Hv eq_refl) as (s' & c' & Ht' & Hp').
  exists s', c'. split; [|done]. eapply turn_trans; [exact Ht|exact Ht'|apply Ht'].
Qed.

Lemma put_progress : progress (L := put_loop randomkeys [key]) allowed put_good.
Proof.
  split.
  - intros n s c (Hs & Hc & Hd & Hv) Hp. pose proof (po_pc _ _ _ _ Hc) as Hpc.
    assert (exists s' c', turn s c s' c' /\ p_pc c' = PTop) as (s' & c' & Ht & Htop).
    { cbn in Hp. destruct (p_pc c) as [|k ver retry|k ver err|] eqn:E; try done.
      - destruct Hpc as [-> _]. eapply put_back; [done|done|lia|done].
      - destruct Hpc as [-> _]. eapply get_back; [done|done|lia|done]. }
    exists s', c'. split_and!; [apply Ht|cbn; by rewrite Htop|]. intros d (_ & Hd1 & Hd2 & _).
    pose proof (tn_version _ _ _ _ Ht). split_and!; [apply Ht|by apply (tn_others _ _ _ _ Ht)|done|lia].
  - intros n s c (? & ? & ? & ?). split_and!; try done. lia.
Qed.
End putting.

(** ** Properties *)

(** C35 (clients of a test).  In any run of SpawnClientsAndWait over any maker of clerks and any client
    loop, and any interleaving of its goroutines: once it has returned, it returned every client's own
    result, in the clients' order; whatever happened on the way happens in the relation that KvTest's
    checks are proved about.  Given that the attempts of a client left alone bring it back to its select
    ([progress]), from every state in which no client has failed ([ready]) it can return; then every clerk is
    deleted, and the test's clients are those it had before and, for each clerk, those that DeleteClerk does not
    delete ([kept]; none for the makers of kvsrv1 and kvraft1, the controller's for shardkv1). *)
Theorem clients_return {S C W P Ck : Type} `{ML : ClerkMakerLaws W P Ck} `{LL : ClientLoopLaws S C}
    (nclnt : nat) (allowed : LabRpc.delivery -> Prop) (good : nat -> S -> C -> Prop) (st0 st : state W S Ck C) :
  initial nclnt st0 -> rtc (step nclnt allowed) st0 st -> progress allowed good ->
  (exists n, nsteps (KvTest.step top attempt allowed) n (KvTest.spawn (server st0) new nclnt) (as_kv st)) /\
  (forall rs, main st = MReturned rs -> length rs = nclnt /\ wait_results result (KvTest.clients (as_kv st)) = Some rs) /\
  ((forall j p, clients st !! j = Some p -> ready good nclnt (server st) p) ->
   exists st' rs, rtc (step nclnt allowed) st st' /\ main st' = MReturned rs /\
     (forall j p, clients st' !! j = Some p -> exists k c, p = CEnd k c) /\
     forall x, x ∈ users (host st') <->
       x ∈ users (host st0) \/ exists j k c, clients st' !! j = Some (CEnd k c) /\ x ∈ kept k).
Proof.
  intros H0 Hr Hpg. destruct (run_inv nclnt allowed st0 st H0 Hr) as [Hh Hm]. split_and!.
  - apply rtc_nsteps in Hr as [n Hr]. destruct (run_seen nclnt allowed n st0 st H0 Hr) as (m & _ & Hk). by exists m.
  - intros rs E. rewrite E in Hm. destruct Hm as [Hlen Hl]. split; [done|]. eapply late_results; [by eapply hi_len|done..].
  - intros Hready. destruct (returns_from nclnt allowed _ good st Hh Hm Hpg Hready) as (st' & rs & Hs & Hmain & Hend).
    exists st', rs. split_and!; [done..|]. apply (all_ended_users nclnt); [|done]. by eapply (run_keeps nclnt allowed _ st st').
Qed.

(** Two clients that put to one key of the server of kvsrv1; the first has made its clerk. *)
Definition ex_host : Makers.host KvServer.KVServer :=
  match MakeTestKV "a" "b" 1 true with
  | Ret t => t_host t
  | Panic _ => (Tester.MkState LabRpc.MakeNetwork [] [], Tester.MkCfg Tester.makeClnts ∅ 0 0)
  end.
Definition ex_start : state (Makers.host KvServer.KVServer) KvServer.KVServer KvClerk.Clerk pclient :=
  MkState ex_host KvServer.MakeKVServer MSleep [CMake; CMake].
Definition ex_clerk : IKVClerk KvClerk.Clerk := ATestClerk (MkTestClerk (KvClerk.MakeClerk 1 "server-0-0") 1%positive).
Definition ex_made : Makers.host KvServer.KVServer :=
  match kvsrv_MakeClerk 1%positive ex_host with Ret (h, _) => h | Panic _ => ex_host end.
Definition ex_state : state (Makers.host KvServer.KVServer) KvServer.KVServer KvClerk.Clerk pclient :=
  MkState ex_made KvServer.MakeKVServer (MSignal 0) [CRun ex_clerk (new_pclient ["k"] 0); CMake].

Lemma sp_initial : initial 2 ex_start.
Proof.
  split; [|done]. split; [|vm_compute; by eexists].
  assert (cfg_clnts (host ex_start) = Tester.makeClnts) as E by (vm_compute; reflexivity).
  by apply (began_wf (cfg_clnts (host ex_start), Tester.net (host ex_start).1)).
Qed.

Lemma sp_run : rtc (step (L := put_loop false ["k"]) 2 (fun _ => True)) ex_start ex_state.
Proof.
  eapply rtc_l; [apply s_wake|]. apply rtc_once.
  apply (s_make (L := put_loop false ["k"]) 2 (fun _ => True) ex_host ex_made _ _ [CMake; CMake] 0 1%positive ex_clerk); [done| |].
  - split; [vm_compute; reflexivity|]. apply (bool_decide_eq_true _). vm_compute. reflexivity.
  - vm_compute. reflexivity.
Qed.

Lemma ex_good n : Z.of_nat n < 2 ^ 63 -> put_good "k" n KvServer.MakeKVServer (new_pclient ["k"] 0).
Proof.
  intros Hn. assert (version KvServer.MakeKVServer "k" = 0) as E by (vm_compute; reflexivity).
  split_and!; [by left| |done|rewrite E; lia]. split; cbn [new_pclient p_res p_verm p_pc Nok Nmaybe]; [lia|by split| |done].
  rewrite E. vm_compute. by split.
Qed.

Lemma clients_return_witness :
  exists st' rs, rtc (step (L := put_loop false ["k"]) 2 (fun _ => True)) ex_state st' /\ main st' = MReturned rs /\
    (forall j p, clients st' !! j = Some p -> exists k c, p = CEnd k c) /\
    forall x, x ∈ users (host st') <-> x ∈ users (host ex_start) \/ exists j k c, clients st' !! j = Some (CEnd k c) /\
      x ∈ kept (ClerkMakerLaws := kvsrv_maker_laws (Svc := KvServer.KVServer)) k.
Proof.
  eapply (clients_return (LL := put_loop_laws false ["k"]) 2 (fun _ => True) (put_good "k") ex_start ex_state sp_initial sp_run).
  - by apply put_progress.
  - intros [|[|j]] p Hp; cbn in Hp; [injection Hp as <-; by apply ex_good|injection Hp as <-; exact I|done].
Defined.
End KvSpawn.
